(* ===== verification/_CoqProject ===== *)
-Q . S2P
Prelude.v
Bytes.v
Crc32.v
Record.v
Proto.v
Decimal.v
Datafile.v
Hint.v
Listing.v
Manifest.v
Lock.v
Skiplist.v
Index.v
Store.v
StoreInv.v
WritePath.v
Ops.v
Reads.v
Scans.v
Background.v
Recovery.v
Engine.v
Settled.v
Crash.v
Disk.v
Durability.v
Writers.v
Reopen.v
Compact.v
Merging.v
Compaction.v
Snapshots.v
LiveScans.v
Streams.v
Text.v
Node.v
Election.v
Replication.v
Server.v
Client.v
Wire.v
Replies.v
Sessions.v
Loops.v
Service.v
Cluster.v
Failover.v
Voting.v
Terms.v
Fanout.v
Lifecycle.v
Handover.v
Shipping.v
Demo.v
ClusterDemo.v
ClientDemo.v
Findings.v
