(* ===== verification/Prelude.v ===== *)
(** * gokv: a verified model of a replicated key/value store

    gokv is a log-structured key/value store (a Bitcask with an ordered index)
    behind a small binary protocol, replicated from one leader to its followers,
    with elections and a client that finds the leader by itself.  This library
    translates the Go sources under src/internal and src/client into Rocq
    definitions and proves what makes them correct.

    ** The program and its parts

    - The engine (src/internal/engine) keeps a directory of append-only data
      files.  A write appends a checksummed record; an in-memory index maps
      each key to the place of its newest record.  Full files are rotated and
      get a hint file; [Compact] merges old files; [Open] rebuilds the index
      from hints and logs and cuts off a torn tail.
    - The protocol (src/internal/proto) frames requests and replies and encodes
      their bodies.
    - A node (src/internal/node) serves requests from a store, hands every
      append to the streams of the attached followers, follows a leader by
      replaying its stream, and stands for election when the leader is silent.
    - The client (src/client) sends requests over one connection at a time,
      follows redirects and retries at other nodes.

    The engine tells the node of every append through an observer; the node's
    handlers call the engine; the streams of a leader and the loop of a
    follower talk over connections; elections are round trips between nodes.

    ** Files

    Shared:
    - Prelude: results, the state-and-error monad [sm] and its weakest
      preconditions [wp], tactics, lists and sums.
    - Bytes, Crc32, Decimal, Text: machine integers and byte order, CRC-32,
      and what [fmt], [strconv] and [time] print and parse.

    The engine (definitions; then proofs):
    - Record: record.go.  Datafile, Hint, Listing: datafile.go and [buildHint].
      Manifest: manifest.go.  Lock: lock.go.  Skiplist: skiplist.go, with its
      nodes on a heap.  Index: the hash map and the skip list together, behind
      the interface [KeyIndex]/[KeyIndexSpec] the store is written against.
    - Store: store.go, one definition per method; Recovery: [Open] and what it
      calls; Compact: compact.go.
    - StoreInv (the invariant), WritePath, Ops, Reads, Scans, Background,
      Engine (histories), Settled, Crash, Disk, Durability, Reopen (crashes),
      Merging, Compaction (merges beside other goroutines), Writers (what
      clients do between two steps of a reader, as the promise [Writers]),
      Snapshots, Streams, LiveScans (the replication sources and [Scan] beside
      them).

    Protocol, nodes, client:
    - Proto: proto.go.
    - Node: node.go's state, membership, streams, start and stop, the writer of
      a connection; Election: election.go; Replication: replication.go; Server:
      node.go's request handling; Lifecycle: [acceptLoop], the goroutines of
      the connections and [Close], as interleaved steps.
    - Client: client.go over the interface [Network]; Wire: replies as bytes,
      and the promise [HonestNetwork] clients are proved against.
    - Service (a server's answers), Replies (every request gets a whole reply),
      Voting, Terms (elections), Fanout, Handover, Shipping (streams), Sessions,
      Loops, Cluster, Failover (clients).
    - Demo, ClusterDemo, ClientDemo: the theorems at concrete stores, nodes and
      clients.  Findings: runs in which the code departs from its comments.

    ** How the code is modelled

    State.  A [store] is the Go struct: open files, index, active file, sequence
    number, counters, options.  A directory is a finite map from names to
    contents with the length that fsync has made stable.  Every system call
    consults a list of faults: [None] succeeds, [Some k] fails after [k] bytes
    of a write; after the list all succeed.  A [node] is its config, store,
    membership (the fields under [n.mu]), streams and connections; a [client]
    its connection's unread bytes, cursor and flags.  Numbers are [Z] with the
    wrap-around of their width written out.

    Effects.  A method is a function from its receiver's state to a result and
    a new state.  Locks make the stretches they guard atomic; where the code
    holds none, an arbitrary step of the other goroutines is taken: [env] of
    [Get], [Scan_beside], [Compact], [poll], [attach], [RecordsSince] and
    [SnapshotRecords], the histories of Engine and Durability, the runs of
    Terms, Fanout and Lifecycle.

    Crashes.  A crash keeps the names in the directory, each file's bytes up to
    its last fsync and any further prefix of what was written.

    Outside.  The clock, the process id, the random seed, the texts of system
    errors ([os_text]), a peer's answer to a round trip ([exchange]) and the
    network of a client ([Network]) are arguments.

    Fuel.  [Scan]'s loop has one round more than the index has keys, since each
    round moves past a key; [Scan_beside] and [SnapshotRecords], beside which
    keys are added, are given their fuel, and one round more than there are keys
    at the start and records written meanwhile is enough; the scanners of files,
    bodies and replies have the length of their input, of which every turn
    consumes a part; [dial_any] and [call_attempts] are bounded by the code's
    own bounds.  That fuel never runs out is part of the theorems on [Scan],
    [Scan_beside], [scanFile] and [follower_catches_up], and
    [Loops.reply_loops_terminate] for the client.  Decimal numbers have 20
    digits, enough for 64 bits.

    ** What is proved

    - The engine is a map: [Engine.engine_is_a_map] for histories; for the
      single operations, under any pattern of system call failures,
      [Ops.Put_refines], [Ops.BatchPut_refines], [Ops.Delete_refines],
      [Reads.Get_linearizable], [Ops.ApplyRaw_correct]; for scans, alone and
      beside writers, [Scans.Scan_refines] and [LiveScans.Scan_beside_writers];
      and [Ops.replicas_converge].
    - Nothing acknowledged is lost: [Reopen.crash_safety],
      [Recovery.Open_recovers], [Background.Sync_flushes]; and
      [Compaction.Compact_preserves] for merges.
    - The formats: round trips and damage detection in Record, Hint, Proto,
      Voting and Loops; [Manifest.writeManifest_atomic]; the lock; the skip
      list against sorted association lists.
    - Over the wire: [Service.server_is_a_map], [Service.follower_redirects],
      [Failover.client_is_a_map] (a client, its network and the nodes' stores
      together) and [Sessions.connection_in_step].
    - Elections: [Voting.election_safe], [Voting.rivals_exclude],
      [Voting.announcement], [Terms.epochs_are_terms].
    - Replication: [Fanout.stream_complete], and [Shipping.follower_catches_up]
      for a leader whose clients write all the while.
    - Shutting down: [Lifecycle.close_misses_nothing],
      [Lifecycle.close_returns].

    ** Not modelled

    Log lines, buffer reuse, the deadlines and socket options of connections,
    the value of [heapBytes], and the timers themselves: when a tick comes is
    up to the histories.  One data file is scanned in one step, while in the
    code writers may append to it in between; the servers of Server run [Scan]
    undisturbed.  Merges beside a catch-up are left out of
    [follower_catches_up], since there the code does lose records
    ([Findings.merged_away_unsent]). *)

From stdpp Require Export prelude gmap list sorting strings.
From Stdlib Require Export ZArith Lia.
From Stdlib Require Strings.Byte.

Declare Scope gokv_scope.
Delimit Scope gokv_scope with gokv.

(** ** Results: a Go [(value, error)] pair *)

Inductive result (E A : Type) : Type :=
| Ok (a : A)
| Err (e : E).
Arguments Ok {E A} a.
Arguments Err {E A} e.

#[global] Instance result_ret E : MRet (result E) := fun A a => Ok a.
#[global] Instance result_bind E : MBind (result E) := fun A B f m =>
  match m with Ok a => f a | Err e => Err e end.
#[global] Instance result_fmap E : FMap (result E) := fun A B f m =>
  match m with Ok a => Ok (f a) | Err e => Err e end.

Definition is_ok {E A} (m : result E A) : bool :=
  match m with Ok _ => true | Err _ => false end.
Definition is_err {E A} (m : result E A) : bool := negb (is_ok m).

(** ** A state-and-error monad: a method with a receiver that may fail *)

Definition sm (S E A : Type) : Type := S -> result E A * S.

Section sm_ops.
Context {S E : Type}.
Definition sm_ret {A} (a : A) : sm S E A := fun s => (Ok a, s).
Definition sm_throw {A} (e : E) : sm S E A := fun s => (Err e, s).
Definition sm_bind {A B} (m : sm S E A) (k : A -> sm S E B) : sm S E B :=
  fun s => match m s with
           | (Ok a, s') => k a s'
           | (Err e, s') => (Err e, s')
           end.
Definition sm_get : sm S E S := fun s => (Ok s, s).
Definition sm_modify (f : S -> S) : sm S E unit := fun s => (Ok tt, f s).
(** Run [m] and ignore its error, as [os.Remove(p)] with no check does. *)
Definition sm_ignore {A} (m : sm S E A) : sm S E unit :=
  fun s => (Ok tt, snd (m s)).
Definition sm_when (b : bool) (m : sm S E unit) : sm S E unit :=
  if b then m else sm_ret tt.
End sm_ops.

Lemma sm_bind_ret {S E A B} (a : A) (k : A -> sm S E B) s :
  sm_bind (sm_ret a) k s = k a s.
Proof. reflexivity. Qed.
Lemma sm_bind_get {S E B} (k : S -> sm S E B) s : sm_bind sm_get k s = k s s.
Proof. reflexivity. Qed.

(** Two continuations that agree on what [m] ends in. *)
Lemma sm_bind_cong {S E A B} (m : sm S E A) (k k' : A -> sm S E B) s :
  (forall a s', m s = (Ok a, s') -> k a s' = k' a s') -> sm_bind m k s = sm_bind m k' s.
Proof. unfold sm_bind. intros Hk. destruct (m s) as [[a|e] s']; [by apply Hk|done]. Qed.

Notation "x <- c ;; k" := (sm_bind c (fun x => k))
  (at level 100, c at next level, right associativity) : gokv_scope.
Notation "c ;;; k" := (sm_bind c (fun _ => k))
  (at level 100, right associativity) : gokv_scope.

(** ** Weakest preconditions *)

(** [wp m Q X s]: run from [s], [m] ends either with a value and a state that
    satisfy [Q], or with an error and a state that satisfy [X]. *)
Definition wp {S E A} (m : sm S E A) (Q : A -> S -> Prop) (X : E -> S -> Prop) (s : S) : Prop :=
  match m s with
  | (Ok a, s') => Q a s'
  | (Err e, s') => X e s'
  end.

(** [c] with its error handled by [h]. *)
Definition sm_catch {S E A} (m : sm S E A) (h : E -> sm S E A) : sm S E A := fun s =>
  match m s with (Err e, s') => h e s' | out => out end.

Section wp.
Context {S E : Type}.
Implicit Types (s : S).

Lemma wp_bind {A B} (m : sm S E A) (k : A -> sm S E B) Q X s :
  wp m (fun a => wp (k a) Q X) X s -> wp (sm_bind m k) Q X s.
Proof. unfold wp, sm_bind. by destruct (m s) as [[a|e] s']. Qed.

Lemma wp_mono {A} (m : sm S E A) (Q Q' : A -> S -> Prop) (X X' : E -> S -> Prop) s :
  wp m Q X s -> (forall a s', Q a s' -> Q' a s') -> (forall e s', X e s' -> X' e s') ->
  wp m Q' X' s.
Proof. unfold wp. destruct (m s) as [[a|e] s']; auto. Qed.

(** The outcome may be named. *)
Lemma wp_result {A} (m : sm S E A) (Q : A -> S -> Prop) (X : E -> S -> Prop) s :
  wp m Q X s -> wp m (fun a s' => Q a s' /\ m s = (Ok a, s')) (fun e s' => X e s' /\ m s = (Err e, s')) s.
Proof. unfold wp. by destruct (m s) as [[a|e] s']. Qed.
Lemma wp_catch {A} (m : sm S E A) h Q X s :
  wp m Q (fun e => wp (h e) Q X) s -> wp (sm_catch m h) Q X s.
Proof. unfold wp, sm_catch. by destruct (m s) as [[a|e] s']. Qed.

Lemma wp_ignore {A} (m : sm S E A) Q X s :
  wp m (fun _ => Q tt) (fun _ => Q tt) s -> wp (sm_ignore m) Q X s.
Proof. unfold wp, sm_ignore. by destruct (m s) as [[a|e] s']. Qed.

Lemma wp_ret {A} (a : A) Q X s : Q a s -> wp (sm_ret (E := E) a) Q X s.
Proof. done. Qed.
Lemma wp_throw {A} (e : E) Q X s : X e s -> wp (A := A) (sm_throw e) Q X s.
Proof. done. Qed.
Lemma wp_get Q X s : Q s s -> wp (E := E) sm_get Q X s.
Proof. done. Qed.
Lemma wp_modify f Q X s : Q tt (f s) -> wp (E := E) (sm_modify f) Q X s.
Proof. done. Qed.
Lemma wp_when b m Q X s : (b = true -> wp (E := E) m Q X s) -> (b = false -> Q tt s) ->
  wp (sm_when b m) Q X s.
Proof. destruct b; intros H0 H1; [exact (H0 eq_refl)|exact (H1 eq_refl)]. Qed.
End wp.

(** ** Tactics *)

(** Split every conjunction and existential of the context. *)
Ltac split_hyps :=
  repeat match goal with
  | H : _ /\ _ |- _ => destruct H
  | H : exists _, _ |- _ => destruct H
  end.

(** Turn the boolean comparisons of [Z] and [nat] and the boolean connectives
    of the context into propositions [lia] reads. *)
Ltac reflect_bools :=
  repeat match goal with
  | H : (_ && _)%bool = true |- _ => apply andb_prop in H; destruct H
  | H : (_ || _)%bool = false |- _ => apply orb_false_elim in H; destruct H
  | H : negb _ = true |- _ => apply negb_true_iff in H
  | H : negb _ = false |- _ => apply negb_false_iff in H
  | H : (_ =? _)%Z = true |- _ => apply Z.eqb_eq in H
  | H : (_ =? _)%Z = false |- _ => apply Z.eqb_neq in H
  | H : (_ <? _)%Z = true |- _ => apply Z.ltb_lt in H
  | H : (_ <? _)%Z = false |- _ => apply Z.ltb_ge in H
  | H : (_ <=? _)%Z = true |- _ => apply Z.leb_le in H
  | H : (_ <=? _)%Z = false |- _ => apply Z.leb_gt in H
  | H : (_ =? _)%nat = true |- _ => apply Nat.eqb_eq in H
  | H : (_ =? _)%nat = false |- _ => apply Nat.eqb_neq in H
  | H : (_ <? _)%nat = true |- _ => apply Nat.ltb_lt in H
  | H : (_ <? _)%nat = false |- _ => apply Nat.ltb_ge in H
  | H : (_ <=? _)%nat = true |- _ => apply Nat.leb_le in H
  | H : (_ <=? _)%nat = false |- _ => apply Nat.leb_gt in H
  end.

(** Case-split the [match] or [if] the goal is stuck on. *)
Ltac case_goal :=
  match goal with
  | |- context [match ?x with _ => _ end] => destruct x eqn:?
  end.

(** ** Lists *)

(** Go slices: [l[a:b]] and overwriting [l] from [off] on with [bs]. *)
Definition slice {A} (a b : nat) (l : list A) : list A := take (b - a) (drop a l).
Definition splice {A} (off : nat) (bs l : list A) : list A :=
  take off l ++ bs ++ drop (off + length bs) l.

Create Rewrite HintDb len.
#[export] Hint Rewrite @length_app @length_take @length_drop @length_replicate
  @length_cons @length_nil @length_fmap @length_rev @length_reverse : len.
Ltac len := autorewrite with len in *; simpl in *; try lia.

Section lists.
Context {A : Type}.
Implicit Types (l k : list A).

Lemma length_slice a b l : b <= length l -> length (slice a b l) = b - a.
Proof. intros. unfold slice. len. Qed.

Lemma length_splice off bs l :
  off + length bs <= length l -> length (splice off bs l) = length l.
Proof. intros. unfold splice. len. Qed.

Lemma slice_app_l a b l k : b <= length l -> slice a b (l ++ k) = slice a b l.
Proof.
  intros Hb. unfold slice. destruct (decide (a <= b)).
  - rewrite drop_app_le by lia. rewrite take_app_le by len. done.
  - replace (b - a) with 0 by lia. by rewrite !take_0.
Qed.

Lemma slice_app_r a b l k :
  length l <= a -> slice a b (l ++ k) = slice (a - length l) (b - length l) k.
Proof.
  intros Ha. unfold slice. rewrite drop_app_ge by lia. f_equal; lia.
Qed.

Lemma slice_all l : slice 0 (length l) l = l.
Proof. unfold slice. rewrite Nat.sub_0_r, drop_0. apply firstn_all. Qed.

Lemma slice_app_exact l k m a b :
  a = length l -> b = length l + length k -> slice a b (l ++ k ++ m) = k.
Proof.
  intros -> ->. rewrite slice_app_r by lia.
  rewrite Nat.sub_diag, Nat.add_comm, Nat.add_sub.
  rewrite slice_app_l by lia. apply slice_all.
Qed.

Lemma splice_app_mid l k m bs off :
  off = length l -> length bs = length k ->
  splice off bs (l ++ k ++ m) = l ++ bs ++ m.
Proof.
  intros -> Hbs. unfold splice. rewrite take_app_length.
  rewrite Hbs, (app_assoc l k m), drop_app_ge by len.
  by rewrite length_app, Nat.sub_diag, drop_0.
Qed.

Lemma take_slice a b l : a <= b -> take b l = take a l ++ slice a b l.
Proof.
  intros. unfold slice. rewrite <- (take_drop a (take b l)) at 1.
  rewrite take_take, Nat.min_l, skipn_firstn_comm by lia. done.
Qed.

Lemma last_cons_app x l y : last (x :: l ++ [y]) = Some y.
Proof. rewrite app_comm_cons. apply last_snoc. Qed.
End lists.

(** A prefix of [l ++ k] ends in [l] or in [k]. *)
Lemma prefix_app_cases {A} (p l k : list A) : p `prefix_of` l ++ k ->
  p `prefix_of` l \/ exists p', p = l ++ p' /\ p' `prefix_of` k.
Proof.
  intros [q Hq]. apply app_eq_app in Hq as (t & [(-> & ->)|(-> & ->)]).
  - left. by exists t.
  - right. exists t. split; [done|]. by exists q.
Qed.

(** ** Sums over lists *)
Definition zsum {A} (f : A -> Z) (l : list A) : Z := foldr (fun a z => f a + z)%Z 0%Z l.

Lemma zsum_app {A} (f : A -> Z) l k : zsum f (l ++ k) = (zsum f l + zsum f k)%Z.
Proof. induction l; simpl; lia. Qed.

Lemma zsum_perm {A} (f : A -> Z) l k : l ≡ₚ k -> zsum f l = zsum f k.
Proof. induction 1; simpl; lia. Qed.

(** Go's [len], a machine [int]: kept in [Z] so that the sizes it is compared
    with (64 KiB keys, 256 MiB values) never become unary numbers. *)
Definition zlen {A} (l : list A) : Z := Z.of_nat (length l).

Section zlen.
Context {A : Type}.
Implicit Types (l k : list A).
Lemma zlen_nil : zlen (@nil A) = 0%Z.
Proof. done. Qed.
Lemma zlen_cons x l : zlen (x :: l) = (1 + zlen l)%Z.
Proof. unfold zlen. simpl length. lia. Qed.
Lemma zlen_app l k : zlen (l ++ k) = (zlen l + zlen k)%Z.
Proof. unfold zlen. rewrite length_app. lia. Qed.
Lemma zlen_nonneg l : (0 <= zlen l)%Z.
Proof. unfold zlen. lia. Qed.
Lemma zlen_0_inv l : zlen l = 0%Z -> l = [].
Proof. unfold zlen. intros. apply nil_length_inv. lia. Qed.
Lemma zlen_to_nat l : Z.to_nat (zlen l) = length l.
Proof. unfold zlen. lia. Qed.
Lemma zlen_fmap {B} (f : A -> B) l : zlen (f <$> l) = zlen l.
Proof. unfold zlen. by rewrite length_fmap. Qed.
End zlen.
#[export] Hint Rewrite @zlen_nil @zlen_cons @zlen_app @zlen_fmap : len.

Lemma slice_take {A} a b n (l : list A) : b <= n -> slice a b (take n l) = slice a b l.
Proof.
  intros. unfold slice. rewrite skipn_firstn_comm, take_take. f_equal. lia.
Qed.

(** ** Sums over finite maps, for the byte accounting *)

Section map_sum.
Context `{Countable K} {A : Type} (f : A -> Z).
Implicit Types (m : gmap K A).

Definition map_sum (m : gmap K A) : Z := map_fold (fun _ a z => f a + z)%Z 0%Z m.

Lemma map_sum_empty : map_sum ∅ = 0%Z.
Proof. apply map_fold_empty. Qed.

Lemma map_sum_insert m k a : m !! k = None -> map_sum (<[k := a]> m) = (f a + map_sum m)%Z.
Proof. intros. unfold map_sum. rewrite map_fold_insert_L; auto. intros; lia. Qed.

Lemma map_sum_delete m k a : m !! k = Some a -> map_sum m = (f a + map_sum (delete k m))%Z.
Proof. intros. unfold map_sum. apply (map_fold_delete_L (fun _ a z => f a + z)%Z); auto. intros; lia. Qed.

Lemma map_sum_update m k a b : m !! k = Some a ->
  map_sum (<[k := b]> m) = (map_sum m - f a + f b)%Z.
Proof.
  intros Hk. rewrite (map_sum_delete m k a Hk), <- insert_delete_eq, map_sum_insert.
  - lia.
  - apply lookup_delete_eq.
Qed.

Lemma map_sum_elems m l : l ≡ₚ map_to_list m -> map_sum m = zsum (fun p => f p.2) l.
Proof.
  intros Hl. rewrite (zsum_perm _ _ _ Hl). clear.
  induction m as [|k a m Hk IH] using map_ind; [by rewrite map_sum_empty, map_to_list_empty|].
  rewrite map_sum_insert by done. rewrite (zsum_perm _ _ _ (map_to_list_insert m k a Hk)).
  simpl. lia.
Qed.
End map_sum.
