(* ===== verification/Bytes.v ===== *)
(** * Bytes, machine integers and byte strings

    The values of Go's [byte], [uint32], [uint64] and [int64], the
    [encoding/binary] accessors the program uses on them, and Go's [<] on
    strings (lexicographic on bytes).  A byte is the standard library's
    256-constructor type, so that a byte string is well formed by
    construction; wider integers are [Z] with their wrap-around written out. *)

From S2P Require Import Prelude.
From Stdlib Require Export Init.Byte.
From Stdlib Require Import Strings.Byte.

Local Open Scope Z_scope.

Abbreviation bytes := (list byte).

(** ** Bytes as integers *)

Definition byte_Z (b : byte) : Z := Z.of_N (Byte.to_N b).
(** Go's conversion [byte(v)]: the low eight bits. *)
Definition Z_byte (z : Z) : byte :=
  match Byte.of_N (Z.to_N (z mod 256)) with Some b => b | None => x00 end.

Lemma byte_Z_range b : 0 <= byte_Z b < 256.
Proof. unfold byte_Z. pose proof (Byte.to_N_bounded b). lia. Qed.

Lemma Z_byte_Z b : Z_byte (byte_Z b) = b.
Proof.
  unfold Z_byte. rewrite Z.mod_small by apply byte_Z_range.
  unfold byte_Z. rewrite N2Z.id. by rewrite Byte.of_to_N.
Qed.

Lemma byte_Z_byte z : byte_Z (Z_byte z) = z mod 256.
Proof.
  unfold Z_byte. pose proof (Z.mod_pos_bound z 256 ltac:(lia)) as Hz.
  destruct (Byte.of_N (Z.to_N (z mod 256))) as [b|] eqn:Hb.
  - apply Byte.to_of_N in Hb. unfold byte_Z. rewrite Hb. lia.
  - apply Byte.of_N_None_iff in Hb. lia.
Qed.

Lemma byte_Z_inj b c : byte_Z b = byte_Z c -> b = c.
Proof. intros H. by rewrite <- (Z_byte_Z b), H, Z_byte_Z. Qed.

#[global] Instance byte_eq_dec : EqDecision byte := Byte.byte_eq_dec.
#[global] Program Instance byte_countable : Countable byte :=
  inj_countable' Byte.to_N (fun n => default x00 (Byte.of_N n)) _.
Next Obligation. intros b. simpl. by rewrite Byte.of_to_N. Qed.

(** ** Widths *)

Definition u32 (z : Z) : Z := z mod 2 ^ 32.
Definition u64 (z : Z) : Z := z mod 2 ^ 64.
(** Reinterpretation of a 64-bit pattern as a two's complement [int64]. *)
Definition i64 (z : Z) : Z :=
  let w := z mod 2 ^ 64 in if w <? 2 ^ 63 then w else w - 2 ^ 64.

Definition is_u32 (z : Z) : Prop := 0 <= z < 2 ^ 32.
Definition is_u64 (z : Z) : Prop := 0 <= z < 2 ^ 64.
Definition is_i64 (z : Z) : Prop := - 2 ^ 63 <= z < 2 ^ 63.

Lemma u32_small z : is_u32 z -> u32 z = z.
Proof. apply Z.mod_small. Qed.
Lemma u64_small z : is_u64 z -> u64 z = z.
Proof. apply Z.mod_small. Qed.
Lemma u32_range z : is_u32 (u32 z).
Proof. apply Z.mod_pos_bound. lia. Qed.
Lemma u64_range z : is_u64 (u64 z).
Proof. apply Z.mod_pos_bound. lia. Qed.

Lemma i64_range z : is_i64 (i64 z).
Proof.
  unfold i64, is_i64. pose proof (Z.mod_pos_bound z (2 ^ 64) ltac:(lia)).
  destruct (Z.ltb_spec (z mod 2 ^ 64) (2 ^ 63)); lia.
Qed.

Lemma i64_u64 z : is_i64 z -> i64 (u64 z) = z.
Proof.
  unfold is_i64, i64, u64. intros Hz. rewrite Zmod_mod.
  destruct (Z.ltb_spec (z mod 2 ^ 64) (2 ^ 63));
    Z.div_mod_to_equations; lia.
Qed.

Lemma lxor_range n a b :
  0 <= n -> 0 <= a < 2 ^ n -> 0 <= b < 2 ^ n -> 0 <= Z.lxor a b < 2 ^ n.
Proof.
  intros Hn Ha Hb. split; [apply Z.lxor_nonneg; lia|].
  assert (H : Z.lxor a b = Z.lxor a b mod 2 ^ n).
  { apply Z.bits_inj'. intros i Hi. destruct (Z.ltb_spec i n).
    - by rewrite Z.mod_pow2_bits_low.
    - rewrite Z.mod_pow2_bits_high, Z.lxor_spec by lia.
      rewrite <- (Z.mod_small a (2 ^ n)), <- (Z.mod_small b (2 ^ n)) by lia.
      by rewrite !Z.mod_pow2_bits_high by lia. }
  rewrite H. apply Z.mod_pos_bound. lia.
Qed.

Lemma u64_i64 z : u64 (i64 z) = u64 z.
Proof.
  unfold i64, u64. destruct (Z.ltb_spec (z mod 2 ^ 64) (2 ^ 63)).
  - apply Zmod_mod.
  - rewrite <- (Z.mod_add (z mod 2 ^ 64 - 2 ^ 64) 1) by lia.
    rewrite Z.mul_1_l, Z.sub_add. apply Zmod_mod.
Qed.

(** A 64-bit counter that wraps still counts modulo 2^64. *)
Lemma i64_congr a b : u64 a = u64 b -> i64 a = i64 b.
Proof. unfold i64, u64. by intros ->. Qed.
Lemma i64_add a b : i64 (i64 a + b) = i64 (a + b).
Proof.
  apply i64_congr. unfold u64. rewrite <- Z.add_mod_idemp_l by lia.
  change (i64 a mod 2 ^ 64) with (u64 (i64 a)). rewrite u64_i64.
  apply Z.add_mod_idemp_l. lia.
Qed.
Lemma i64_sub a b : i64 (i64 a - b) = i64 (a - b).
Proof. rewrite <- !Z.add_opp_r. apply i64_add. Qed.
Lemma i64_small z : is_i64 z -> i64 z = z.
Proof. intros Hz. rewrite <- (i64_u64 z Hz) at 2. apply i64_congr. unfold u64. by rewrite Zmod_mod. Qed.

(** ** [binary.LittleEndian] and [binary.BigEndian] *)

(** [PutUint32]/[PutUint64]: byte [i] is [byte(v >> (8*i))]. *)
Fixpoint le_put (n : nat) (v : Z) : bytes :=
  match n with
  | O => []
  | S n' => Z_byte v :: le_put n' (Z.shiftr v 8)
  end.

(** [Uint32]/[Uint64]: the bytes shifted into place and or-ed together. *)
Fixpoint le_get (bs : bytes) : Z :=
  match bs with
  | [] => 0
  | b :: bs' => byte_Z b + 256 * le_get bs'
  end.

Definition be_put (n : nat) (v : Z) : bytes := rev (le_put n v).
Definition be_get (bs : bytes) : Z := le_get (rev bs).

Lemma length_le_put n v : length (le_put n v) = n.
Proof. revert v; induction n; intros; simpl; auto. Qed.
Lemma length_be_put n v : length (be_put n v) = n.
Proof. unfold be_put. by rewrite length_rev, length_le_put. Qed.
#[export] Hint Rewrite length_le_put length_be_put : len.

Lemma le_get_put n v : le_get (le_put n v) = v mod 2 ^ (8 * Z.of_nat n).
Proof.
  revert v. induction n as [|n IH]; intros v.
  - simpl. by rewrite Z.mod_1_r.
  - simpl le_put. simpl le_get. rewrite IH, byte_Z_byte, Z.shiftr_div_pow2 by lia.
    replace (8 * Z.of_nat (S n)) with (8 + 8 * Z.of_nat n) by lia.
    rewrite Z.pow_add_r by lia. change (2 ^ 8) with 256.
    rewrite Z.rem_mul_r by lia. lia.
Qed.

Lemma be_get_put n v : be_get (be_put n v) = v mod 2 ^ (8 * Z.of_nat n).
Proof. unfold be_get, be_put. by rewrite rev_involutive, le_get_put. Qed.

Lemma le_get_range bs : 0 <= le_get bs < 2 ^ (8 * Z.of_nat (length bs)).
Proof.
  induction bs as [|b bs IH]; [simpl; lia|].
  simpl le_get. simpl length. pose proof (byte_Z_range b).
  replace (8 * Z.of_nat (S (length bs))) with (8 + 8 * Z.of_nat (length bs)) by lia.
  rewrite Z.pow_add_r by lia. change (2 ^ 8) with 256. lia.
Qed.

Lemma be_get_range bs : 0 <= be_get bs < 2 ^ (8 * Z.of_nat (length bs)).
Proof. unfold be_get. rewrite <- length_rev. apply le_get_range. Qed.

Lemma le_put_get bs : le_put (length bs) (le_get bs) = bs.
Proof.
  induction bs as [|b bs IH]; [done|]. simpl.
  pose proof (byte_Z_range b). f_equal.
  - rewrite <- (Z_byte_Z b) at 2. unfold Z_byte. do 3 f_equal.
    rewrite (Z.mul_comm 256), Z.mod_add by lia. done.
  - rewrite Z.shiftr_div_pow2 by lia. change (2 ^ 8) with 256.
    rewrite (Z.mul_comm 256), Z.div_add, Z.div_small by lia.
    rewrite Z.add_0_l. apply IH.
Qed.

Lemma le_get_inj bs cs : length bs = length cs -> le_get bs = le_get cs -> bs = cs.
Proof.
  intros Hl H. by rewrite <- (le_put_get bs), <- (le_put_get cs), Hl, H.
Qed.

Lemma le_get32_put v : le_get (le_put 4 v) = u32 v.
Proof. rewrite le_get_put. done. Qed.
Lemma le_get64_put v : le_get (le_put 8 v) = u64 v.
Proof. rewrite le_get_put. done. Qed.
Lemma be_get32_put v : be_get (be_put 4 v) = u32 v.
Proof. rewrite be_get_put. done. Qed.
Lemma be_get64_put v : be_get (be_put 8 v) = u64 v.
Proof. rewrite be_get_put. done. Qed.

(** ** Go's order on strings *)

Fixpoint bytes_compare (x y : bytes) : comparison :=
  match x, y with
  | [], [] => Eq
  | [], _ :: _ => Lt
  | _ :: _, [] => Gt
  | a :: x', b :: y' =>
      match byte_Z a ?= byte_Z b with
      | Eq => bytes_compare x' y'
      | c => c
      end
  end.

Definition bytes_ltb (x y : bytes) : bool :=
  match bytes_compare x y with Lt => true | _ => false end.
Definition bytes_lt (x y : bytes) : Prop := bytes_ltb x y = true.
Definition bytes_le (x y : bytes) : Prop := bytes_ltb y x = false.

Lemma bytes_compare_eq x y : bytes_compare x y = Eq <-> x = y.
Proof.
  revert y. induction x as [|a x IH]; intros [|b y]; simpl; try (split; congruence).
  destruct (Z.compare_spec (byte_Z a) (byte_Z b)) as [H|H|H].
  - apply byte_Z_inj in H as ->. rewrite IH. split; congruence.
  - split; [congruence|]. intros [= -> ->]. lia.
  - split; [congruence|]. intros [= -> ->]. lia.
Qed.

Lemma bytes_compare_antisym x y : bytes_compare y x = CompOpp (bytes_compare x y).
Proof.
  revert y. induction x as [|a x IH]; intros [|b y]; simpl; try done.
  rewrite (Z.compare_antisym (byte_Z a)).
  destruct (byte_Z a ?= byte_Z b); simpl; auto.
Qed.

Lemma bytes_lt_trans x y z : bytes_lt x y -> bytes_lt y z -> bytes_lt x z.
Proof.
  unfold bytes_lt, bytes_ltb.
  revert y z. induction x as [|a x IH]; intros [|b y] [|c z]; simpl; try done.
  destruct (Z.compare_spec (byte_Z a) (byte_Z b)),
    (Z.compare_spec (byte_Z b) (byte_Z c)),
    (Z.compare_spec (byte_Z a) (byte_Z c)); try done; try lia.
  apply IH.
Qed.

Lemma bytes_lt_irrefl x : ~ bytes_lt x x.
Proof.
  unfold bytes_lt, bytes_ltb. replace (bytes_compare x x) with Eq; [done|].
  symmetry. by apply bytes_compare_eq.
Qed.

Lemma bytes_lt_trichotomy x y : {bytes_lt x y} + {x = y} + {bytes_lt y x}.
Proof.
  unfold bytes_lt, bytes_ltb. rewrite (bytes_compare_antisym x y).
  destruct (bytes_compare x y) eqn:H.
  - left; right. by apply bytes_compare_eq.
  - left; left. done.
  - right. done.
Qed.

#[global] Instance bytes_lt_strict : StrictOrder bytes_lt.
Proof. split; [intros x; apply bytes_lt_irrefl | intros x y z; apply bytes_lt_trans]. Qed.

#[global] Instance bytes_lt_dec x y : Decision (bytes_lt x y) := decide (_ = true).

Lemma bytes_le_iff x y : bytes_le x y <-> bytes_lt x y \/ x = y.
Proof.
  unfold bytes_le. destruct (bytes_lt_trichotomy x y) as [[H| ->]|H].
  - split; [auto|]. intros _. destruct (bytes_ltb y x) eqn:E; [|done].
    exfalso. apply (bytes_lt_irrefl x). eauto using bytes_lt_trans.
  - split; [auto|]. intros _. destruct (bytes_ltb y y) eqn:E; [|done].
    by apply bytes_lt_irrefl in E.
  - split.
    + intros E. unfold bytes_lt in H. congruence.
    + intros [H'| ->]; [|by apply bytes_lt_irrefl in H].
      exfalso. apply (bytes_lt_irrefl x). eauto using bytes_lt_trans.
Qed.

Lemma bytes_lt_le x y : bytes_lt x y -> bytes_le x y.
Proof. intros. apply bytes_le_iff. auto. Qed.
Lemma bytes_le_lt_trans x y z : bytes_le x y -> bytes_lt y z -> bytes_lt x z.
Proof. intros [H| ->]%bytes_le_iff ?; eauto using bytes_lt_trans. Qed.
Lemma bytes_lt_le_trans x y z : bytes_lt x y -> bytes_le y z -> bytes_lt x z.
Proof. intros ? [H| <-]%bytes_le_iff; eauto using bytes_lt_trans. Qed.
Lemma bytes_lt_not_le x y : bytes_lt x y <-> ~ bytes_le y x.
Proof. unfold bytes_lt, bytes_le. destruct (bytes_ltb x y); split; congruence. Qed.

#[global] Instance bytes_le_dec x y : Decision (bytes_le x y) := decide (_ = false).

Create HintDb order.
#[export] Hint Resolve bytes_lt_trans bytes_lt_le bytes_le_lt_trans bytes_lt_le_trans : order.

Lemma le_put_mod n v : le_put n (v mod 2 ^ (8 * Z.of_nat n)) = le_put n v.
Proof.
  apply le_get_inj; [by rewrite !length_le_put|].
  rewrite !le_get_put. by rewrite Zmod_mod.
Qed.
Lemma le_put4_u32 v : le_put 4 (u32 v) = le_put 4 v.
Proof. apply (le_put_mod 4). Qed.

Lemma le_put_get' n bs : length bs = n -> le_put n (le_get bs) = bs.
Proof. intros <-. apply le_put_get. Qed.

#[global] Arguments le_put : simpl never.
#[global] Arguments le_get : simpl never.
#[global] Arguments be_put : simpl never.
#[global] Arguments be_get : simpl never.
