(* ===== verification/Crc32.v ===== *)
(** * CRC-32 (IEEE), the checksum of [hash/crc32]

    The bitwise (reflected, polynomial 0xEDB88320) definition of
    [crc32.ChecksumIEEE], and the two facts record.go relies on: the checksum
    is a 32-bit value, and changing any one byte of the input changes it. *)

From S2P Require Import Prelude Bytes.

Local Open Scope Z_scope.

Definition crc_poly : Z := 0xEDB88320.

Definition crc_bit (c : Z) : Z :=
  if Z.testbit c 0 then Z.lxor (Z.shiftr c 1) crc_poly else Z.shiftr c 1.

Definition crc_byte (c : Z) (b : byte) : Z := Nat.iter 8 crc_bit (Z.lxor c (byte_Z b)).

Definition crc32 (data : bytes) : Z :=
  Z.lxor (foldl crc_byte 0xFFFFFFFF data) 0xFFFFFFFF.

(** ** Range *)

Lemma crc_bit_range c : is_u32 c -> is_u32 (crc_bit c).
Proof.
  intros Hc. unfold crc_bit.
  assert (is_u32 (Z.shiftr c 1)).
  { unfold is_u32 in *. rewrite Z.shiftr_div_pow2 by lia.
    change (2 ^ 1) with 2. Z.div_mod_to_equations; lia. }
  destruct (Z.testbit c 0); [|done].
  apply lxor_range; [lia|done|unfold crc_poly; lia].
Qed.

Lemma iter_crc_bit_range n c : is_u32 c -> is_u32 (Nat.iter n crc_bit c).
Proof. intros. induction n; simpl; auto using crc_bit_range. Qed.

Lemma byte_Z_u32 b : is_u32 (byte_Z b).
Proof. pose proof (byte_Z_range b). unfold is_u32. lia. Qed.

Lemma crc_byte_range c b : is_u32 c -> is_u32 (crc_byte c b).
Proof.
  intros. apply iter_crc_bit_range, lxor_range; [lia|done|apply byte_Z_u32].
Qed.

Lemma crc_fold_range data c : is_u32 c -> is_u32 (foldl crc_byte c data).
Proof. revert c. induction data; simpl; auto using crc_byte_range. Qed.

Lemma crc32_range data : is_u32 (crc32 data).
Proof.
  apply lxor_range; [lia| |lia]. apply crc_fold_range. unfold is_u32. lia.
Qed.

(** ** Injectivity of the register update *)

Lemma crc_bit_top c : is_u32 c -> Z.testbit (crc_bit c) 31 = Z.testbit c 0.
Proof.
  intros Hc. unfold crc_bit.
  assert (Z.testbit (Z.shiftr c 1) 31 = false) as Htop.
  { rewrite Z.shiftr_spec by lia. rewrite <- (Z.mod_small c (2 ^ 32)) by done.
    by apply Z.mod_pow2_bits_high. }
  destruct (Z.testbit c 0); [|done].
  rewrite Z.lxor_spec, Htop. reflexivity.
Qed.

Lemma lxor_cancel_r a b c : Z.lxor a c = Z.lxor b c -> a = b.
Proof.
  intros H. rewrite <- (Z.lxor_0_r a), <- (Z.lxor_0_r b), <- (Z.lxor_nilpotent c).
  by rewrite <- !Z.lxor_assoc, H.
Qed.

Lemma shiftr1_bit0_inj c d :
  Z.shiftr c 1 = Z.shiftr d 1 -> Z.testbit c 0 = Z.testbit d 0 -> c = d.
Proof.
  rewrite !Z.shiftr_div_pow2 by lia. change (2 ^ 1) with 2. rewrite !Z.bit0_odd.
  intros H1 H2. rewrite (Z.div_mod c 2), (Z.div_mod d 2), H1 by lia.
  by rewrite !Zmod_odd, H2.
Qed.

Lemma crc_bit_inj c d : is_u32 c -> is_u32 d -> crc_bit c = crc_bit d -> c = d.
Proof.
  intros Hc Hd H. assert (H0 : Z.testbit c 0 = Z.testbit d 0).
  { by rewrite <- crc_bit_top, H, crc_bit_top. }
  apply shiftr1_bit0_inj; [|done]. revert H. unfold crc_bit. rewrite H0.
  destruct (Z.testbit d 0); [apply lxor_cancel_r|done].
Qed.

Lemma iter_crc_bit_inj n c d :
  is_u32 c -> is_u32 d -> Nat.iter n crc_bit c = Nat.iter n crc_bit d -> c = d.
Proof.
  intros. induction n as [|n IH]; simpl in *; [done|].
  apply IH, crc_bit_inj; auto using iter_crc_bit_range.
Qed.

Lemma crc_byte_inj_state c d b :
  is_u32 c -> is_u32 d -> crc_byte c b = crc_byte d b -> c = d.
Proof.
  intros ? ? H. pose proof (byte_Z_u32 b). eapply lxor_cancel_r.
  eapply iter_crc_bit_inj; [..|exact H]; apply lxor_range; auto; lia.
Qed.

Lemma crc_byte_inj_byte c a b : is_u32 c -> crc_byte c a = crc_byte c b -> a = b.
Proof.
  intros ? H. pose proof (byte_Z_u32 a). pose proof (byte_Z_u32 b).
  apply byte_Z_inj, (lxor_cancel_r _ _ c). rewrite !(Z.lxor_comm _ c).
  eapply iter_crc_bit_inj; [..|exact H]; apply lxor_range; auto; lia.
Qed.

Lemma crc_fold_inj data c d :
  is_u32 c -> is_u32 d -> foldl crc_byte c data = foldl crc_byte d data -> c = d.
Proof.
  revert c d. induction data as [|b data IH]; simpl; intros c d ?? H; [done|].
  eapply crc_byte_inj_state; [done..|]. eapply IH; [..|exact H]; auto using crc_byte_range.
Qed.

(** ** Error detection: no two inputs that differ in exactly one byte collide *)

Lemma crc32_one_byte pre a b post :
  a <> b -> crc32 (pre ++ a :: post) <> crc32 (pre ++ b :: post).
Proof.
  intros Hab H. apply Hab. unfold crc32 in H. apply lxor_cancel_r in H.
  rewrite !foldl_app in H. simpl in H.
  assert (is_u32 (foldl crc_byte 4294967295 pre))
    by (apply crc_fold_range; unfold is_u32; lia).
  eapply crc_byte_inj_byte; [done|].
  eapply crc_fold_inj; [..|exact H]; auto using crc_byte_range.
Qed.

(** The published check value: the CRC-32 of the ASCII string 123456789. *)
Example crc32_check :
  crc32 (map Z_byte [49; 50; 51; 52; 53; 54; 55; 56; 57]) = 0xCBF43926.
Proof. vm_compute. reflexivity. Qed.
