(* ===== verification/Record.v ===== *)
(** * The on-disk record (internal/engine/record.go)

    The record header and payload, its encoder [appendRecord], its decoder
    [decodeRecord], the log scanner [scanFile] and [clearBatchFlags], each
    translated statement by statement; and the reference layout [encode] they
    are proved against.  [visit] is the specification of a log scan: hand the
    callback every record of the log in order, with its offset. *)

From S2P Require Import Prelude Bytes Crc32.

Local Open Scope Z_scope.

(** ** Constants and data *)

Definition recordHeaderSize : nat := 29.
Definition flagTombstone : Z := Z.shiftl 1 0.
Definition flagBatch : Z := Z.shiftl 1 1.
Definition flagBatchEnd : Z := Z.shiftl 1 2.
Definition MaxKeySize : Z := Z.shiftl 64 10.
Definition MaxValueSize : Z := Z.shiftl 256 20.

Inductive record_error := ErrCorrupt | errShort.

#[global] Instance record_error_eq_dec : EqDecision record_error.
Proof. solve_decision. Defined.

Record record := mkRecord {
  r_ts : Z;
  r_seq : Z;
  r_flags : byte;
  r_key : bytes;
  r_value : bytes
}.

#[global] Instance record_eq_dec : EqDecision record.
Proof. solve_decision. Defined.

Definition has_flag (b : byte) (f : Z) : bool := negb (Z.land (byte_Z b) f =? 0).
Definition tombstone (r : record) : bool := has_flag (r_flags r) flagTombstone.

Definition encodedSize (keyLen valLen : Z) : Z :=
  u32 (Z.of_nat recordHeaderSize + keyLen + valLen).

(** ** Encoding and decoding *)

(** [appendRecord]: grow [dst] by a zeroed header, the key and the value, then
    fill the header fields in place and checksum everything after the first
    four bytes. *)
Definition appendRecord (dst : bytes) (r : record) : bytes :=
  let start := length dst in
  let dst := dst ++ replicate recordHeaderSize x00 in
  let dst := dst ++ r_key r in
  let dst := dst ++ r_value r in
  let buf := drop start dst in
  let buf := splice 4 (le_put 8 (u64 (r_ts r))) buf in
  let buf := splice 12 (le_put 8 (r_seq r)) buf in
  let buf := splice 20 [r_flags r] buf in
  let buf := splice 21 (le_put 4 (u32 (zlen (r_key r)))) buf in
  let buf := splice 25 (le_put 4 (u32 (zlen (r_value r)))) buf in
  let buf := splice 0 (le_put 4 (crc32 (drop 4 buf))) buf in
  take start dst ++ buf.

(** [decodeRecord].  The slice bound [recordHeaderSize+keyLen] is a [uint32]
    sum in the source and wraps here too. *)
Definition decodeRecord (buf : bytes) : result record_error record :=
  if (length buf <? recordHeaderSize)%nat then Err errShort else
  let keyLen := le_get (slice 21 25 buf) in
  let valLen := le_get (slice 25 29 buf) in
  if negb (Z.of_nat recordHeaderSize + keyLen + valLen =? zlen buf)
  then Err ErrCorrupt else
  if negb (le_get (slice 0 4 buf) =? crc32 (drop 4 buf)) then Err ErrCorrupt else
  let kend := Z.to_nat (u32 (Z.of_nat recordHeaderSize + keyLen)) in
  Ok {| r_ts := i64 (le_get (slice 4 12 buf));
        r_seq := le_get (slice 12 20 buf);
        r_flags := nth 20 buf x00;
        r_key := slice recordHeaderSize kend buf;
        r_value := drop kend buf |}.

(** ** Scanning a log *)

(** One iteration of [scanFile]'s loop up to the callback, on the unread bytes
    of the file: the raw record, its decoding and what is left; [None] where
    the loop returns (end of file, torn or implausible header, bad checksum). *)
Definition scan_next (rest : bytes) : option (bytes * record * bytes) :=
  if (length rest <? recordHeaderSize)%nat then None else
  let hdr := take recordHeaderSize rest in
  let keyLen := le_get (slice 21 25 hdr) in
  let valLen := le_get (slice 25 29 hdr) in
  if (keyLen =? 0) || (MaxKeySize <? keyLen) || (MaxValueSize <? valLen) then None else
  let size := Z.of_nat recordHeaderSize + keyLen + valLen in
  if zlen rest <? size then None else
  let buf := hdr ++ slice recordHeaderSize (Z.to_nat size) rest in
  match decodeRecord buf with
  | Err _ => None
  | Ok rec => Some (buf, rec, drop (Z.to_nat size) rest)
  end.

Section scan.
Context {S E : Type}.
Implicit Type fn : Z -> bytes -> record -> sm S E unit.

(** The loop; [fuel] bounds the number of records, and the length of the
    file is always enough (each record takes at least thirty bytes). *)
Fixpoint scan_loop (fuel : nat) fn (rest : bytes) (pos : Z) (s : S)
  : (Z * option E) * S :=
  match fuel with
  | O => ((pos, None), s)
  | Datatypes.S fuel' =>
      match scan_next rest with
      | None => ((pos, None), s)
      | Some (raw, rec, rest') =>
          match fn pos raw rec s with
          | (Err e, s') => ((pos, Some e), s')
          | (Ok _, s') => scan_loop fuel' fn rest' (pos + zlen raw) s'
          end
      end
  end.

(** [scanFile], given the contents of the file it opens. *)
Definition scanFile (data : bytes) fn (s : S) : (Z * option E) * S :=
  scan_loop (Datatypes.S (length data)) fn data 0 s.
End scan.

(** [clearBatchFlags]. *)
Definition clearBatchFlags (raw : bytes) : bytes :=
  if (length raw <? recordHeaderSize)%nat
     || (Z.land (byte_Z (nth 20 raw x00)) (Z.lor flagBatch flagBatchEnd) =? 0)
  then raw else
  let out := raw in
  let out := splice 20 [Z_byte (Z.ldiff (byte_Z (nth 20 out x00))
                                        (Z.lor flagBatch flagBatchEnd))] out in
  splice 0 (le_put 4 (crc32 (drop 4 out))) out.

(** ** The reference layout *)

Definition record_body (r : record) : bytes :=
  le_put 8 (u64 (r_ts r)) ++ le_put 8 (r_seq r) ++ [r_flags r] ++
  le_put 4 (zlen (r_key r)) ++ le_put 4 (zlen (r_value r)) ++ r_key r ++ r_value r.

Definition encode (r : record) : bytes :=
  le_put 4 (crc32 (record_body r)) ++ record_body r.

#[global] Arguments encode : simpl never.

Definition encode_all (rs : list record) : bytes := mjoin (encode <$> rs).

(** What the write path can produce: lengths within the limits the engine
    enforces and header integers within their machine widths. *)
Definition valid_record (r : record) : Prop :=
  is_i64 (r_ts r) /\ is_u64 (r_seq r) /\
  0 < zlen (r_key r) <= MaxKeySize /\ zlen (r_value r) <= MaxValueSize.

(** Specification of a scan: the callback sees every record, in order, with
    its offset; an error of the callback stops the scan at that record. *)
Fixpoint visit {S E} (fn : Z -> bytes -> record -> sm S E unit)
  (pos : Z) (rs : list record) (s : S) : (Z * option E) * S :=
  match rs with
  | [] => ((pos, None), s)
  | r :: rs' =>
      match fn pos (encode r) r s with
      | (Err e, s') => ((pos, Some e), s')
      | (Ok _, s') => visit fn (pos + zlen (encode r)) rs' s'
      end
  end.

(** ** Layout lemmas *)

Lemma length_record_body r :
  length (record_body r) = (25 + length (r_key r) + length (r_value r))%nat.
Proof. unfold record_body. len. Qed.

Lemma length_encode r :
  length (encode r) = (29 + length (r_key r) + length (r_value r))%nat.
Proof. unfold encode. rewrite length_app, length_le_put, length_record_body. lia. Qed.

Lemma zlen_encode r : zlen (encode r) = 29 + zlen (r_key r) + zlen (r_value r).
Proof. unfold zlen. rewrite length_encode. lia. Qed.

Lemma zlen_encode_all_app rs rs' :
  zlen (encode_all (rs ++ rs')) = zlen (encode_all rs) + zlen (encode_all rs').
Proof. unfold encode_all. rewrite fmap_app, join_app, zlen_app. done. Qed.

Lemma encode_all_app rs rs' : encode_all (rs ++ rs') = encode_all rs ++ encode_all rs'.
Proof. unfold encode_all. by rewrite fmap_app, join_app. Qed.

Lemma encode_all_cons r rs : encode_all (r :: rs) = encode r ++ encode_all rs.
Proof. done. Qed.

Lemma drop_encode r : drop 4 (encode r) = record_body r.
Proof. unfold encode. apply drop_app_length'. by rewrite length_le_put. Qed.

(** The five header fields of a buffer laid out as a header and a payload. *)
Section header.
Variables c t q f k v p : bytes.
Hypothesis Hc : length c = 4%nat.
Hypothesis Ht : length t = 8%nat.
Hypothesis Hq : length q = 8%nat.
Hypothesis Hf : length f = 1%nat.
Hypothesis Hk : length k = 4%nat.
Hypothesis Hv : length v = 4%nat.
Let buf := c ++ t ++ q ++ f ++ k ++ v ++ p.

Lemma hdr_crc : slice 0 4 buf = c.
Proof. unfold buf. apply (slice_app_exact []); simpl; lia. Qed.
Lemma hdr_ts : slice 4 12 buf = t.
Proof. unfold buf. apply slice_app_exact; lia. Qed.
Lemma hdr_seq : slice 12 20 buf = q.
Proof. unfold buf. rewrite (app_assoc c). apply slice_app_exact; len. Qed.
Lemma hdr_flags : slice 20 21 buf = f.
Proof.
  unfold buf. rewrite (app_assoc c), (app_assoc (c ++ t)).
  apply slice_app_exact; len.
Qed.
Lemma hdr_klen : slice 21 25 buf = k.
Proof.
  unfold buf. rewrite (app_assoc c), (app_assoc (c ++ t)), (app_assoc ((c ++ t) ++ q)).
  apply slice_app_exact; len.
Qed.
Lemma hdr_vlen : slice 25 29 buf = v.
Proof.
  unfold buf. rewrite (app_assoc c), (app_assoc (c ++ t)), (app_assoc ((c ++ t) ++ q)),
    (app_assoc (((c ++ t) ++ q) ++ f)). apply slice_app_exact; len.
Qed.
Lemma hdr_payload : drop 29 buf = p.
Proof. unfold buf. rewrite !app_assoc. apply drop_app_length'. len. Qed.
Lemma set_crc x : length x = 4%nat ->
  splice 0 x buf = x ++ t ++ q ++ f ++ k ++ v ++ p.
Proof. intros. apply (splice_app_mid []); simpl; lia. Qed.
Lemma set_ts x : length x = 8%nat ->
  splice 4 x buf = c ++ x ++ q ++ f ++ k ++ v ++ p.
Proof. intros. apply splice_app_mid; lia. Qed.
Lemma set_seq x : length x = 8%nat ->
  splice 12 x buf = c ++ t ++ x ++ f ++ k ++ v ++ p.
Proof.
  intros. unfold buf. rewrite (app_assoc c). rewrite splice_app_mid by len.
  by rewrite <- !app_assoc.
Qed.
Lemma set_flags x : length x = 1%nat ->
  splice 20 x buf = c ++ t ++ q ++ x ++ k ++ v ++ p.
Proof.
  intros. unfold buf. rewrite (app_assoc c), (app_assoc (c ++ t)).
  rewrite splice_app_mid by len. by rewrite <- !app_assoc.
Qed.
Lemma set_klen x : length x = 4%nat ->
  splice 21 x buf = c ++ t ++ q ++ f ++ x ++ v ++ p.
Proof.
  intros. unfold buf. rewrite (app_assoc c), (app_assoc (c ++ t)),
    (app_assoc ((c ++ t) ++ q)). rewrite splice_app_mid by len.
  by rewrite <- !app_assoc.
Qed.
Lemma set_vlen x : length x = 4%nat ->
  splice 25 x buf = c ++ t ++ q ++ f ++ k ++ x ++ p.
Proof.
  intros. unfold buf. rewrite (app_assoc c), (app_assoc (c ++ t)),
    (app_assoc ((c ++ t) ++ q)), (app_assoc (((c ++ t) ++ q) ++ f)).
  rewrite splice_app_mid by len. by rewrite <- !app_assoc.
Qed.
Lemma hdr_body : drop 4 buf = t ++ q ++ f ++ k ++ v ++ p.
Proof. unfold buf. apply drop_app_length'. lia. Qed.
End header.

(** Every buffer of at least a header's length has that shape. *)
Lemma header_shape (buf : bytes) : (29 <= length buf)%nat ->
  buf = slice 0 4 buf ++ slice 4 12 buf ++ slice 12 20 buf ++ slice 20 21 buf ++
        slice 21 25 buf ++ slice 25 29 buf ++ drop 29 buf.
Proof.
  intros H. rewrite !app_assoc.
  change (slice 0 4 buf) with (take 4 buf).
  rewrite <- (take_slice 4 12), <- (take_slice 12 20),
    <- (take_slice 20 21), <- (take_slice 21 25), <- (take_slice 25 29) by lia.
  by rewrite take_drop.
Qed.

Lemma appendRecord_encode dst r : appendRecord dst r = dst ++ encode r.
Proof.
  unfold appendRecord. rewrite <- !app_assoc, take_app_length, drop_app_length.
  f_equal.
  change (replicate recordHeaderSize x00) with
    (replicate 4 x00 ++ replicate 8 x00 ++ replicate 8 x00 ++ [x00] ++
     replicate 4 x00 ++ replicate 4 x00).
  rewrite <- !app_assoc, !le_put4_u32.
  rewrite set_ts, set_seq, set_flags, set_klen, set_vlen by len.
  rewrite hdr_body, set_crc by len. done.
Qed.

Lemma appendRecord_all dst rs : foldl appendRecord dst rs = dst ++ encode_all rs.
Proof.
  revert dst. induction rs as [|r rs IH]; intros dst; simpl.
  - unfold encode_all. simpl. by rewrite app_nil_r.
  - by rewrite IH, appendRecord_encode, encode_all_cons, <- app_assoc.
Qed.

(** The bytes of an encoding, fully split into fields. *)
Lemma encode_shape r :
  encode r = le_put 4 (crc32 (record_body r)) ++ le_put 8 (u64 (r_ts r)) ++
    le_put 8 (r_seq r) ++ [r_flags r] ++ le_put 4 (zlen (r_key r)) ++
    le_put 4 (zlen (r_value r)) ++ (r_key r ++ r_value r).
Proof. done. Qed.

Lemma max_sizes : MaxKeySize = 65536 /\ MaxValueSize = 268435456.
Proof. done. Qed.

Lemma valid_sizes r : valid_record r ->
  1 <= zlen (r_key r) <= 65536 /\ 0 <= zlen (r_value r) <= 268435456.
Proof.
  intros (_ & _ & Hk & Hv). destruct max_sizes as [E1 E2]. rewrite E1 in Hk. rewrite E2 in Hv.
  pose proof (zlen_nonneg (r_value r)). lia.
Qed.

(** [decodeRecord] inverts [encode] for any record whose lengths fit. *)
Lemma decode_encode_fits r :
  is_i64 (r_ts r) -> is_u64 (r_seq r) ->
  29 + zlen (r_key r) < 2 ^ 32 -> zlen (r_value r) < 2 ^ 32 ->
  decodeRecord (encode r) = Ok r.
Proof.
  intros Hts Hseq Hk Hv. unfold decodeRecord.
  pose proof (zlen_nonneg (r_key r)). pose proof (zlen_nonneg (r_value r)).
  destruct (Nat.ltb_spec (length (encode r)) recordHeaderSize) as [Hl|_].
  { rewrite length_encode in Hl. unfold recordHeaderSize in Hl. lia. }
  rewrite zlen_encode, drop_encode.
  rewrite encode_shape, hdr_klen, hdr_vlen, hdr_crc, hdr_ts, hdr_seq by len.
  rewrite !le_get32_put, !le_get64_put.
  rewrite (u32_small (zlen (r_key r))), (u32_small (zlen (r_value r))) by (unfold is_u32; lia).
  rewrite (u32_small (crc32 _)) by apply crc32_range.
  unfold recordHeaderSize. rewrite !Z.eqb_refl. simpl negb. cbv iota.
  rewrite u64_small by apply u64_range.
  rewrite i64_u64, (u64_small (r_seq r)), u32_small by (done || (unfold is_u32; lia)).
  replace (Z.to_nat (Z.of_nat 29 + zlen (r_key r))) with (29 + length (r_key r))%nat
    by (unfold zlen; lia).
  destruct r as [ts seq fl k v]; cbn [r_ts r_seq r_flags r_key r_value] in *.
  do 2 f_equal.
  - rewrite !app_assoc. rewrite <- (app_assoc _ k v). apply slice_app_exact; len.
  - rewrite !app_assoc. apply drop_app_length'. len.
Qed.

Lemma decode_encode r : valid_record r -> decodeRecord (encode r) = Ok r.
Proof.
  intros Hr. pose proof (valid_sizes r Hr). destruct Hr as (? & ? & _).
  apply decode_encode_fits; auto; lia.
Qed.

Lemma slice_nth (l : bytes) i d : (i < length l)%nat -> slice i (S i) l = [nth i l d].
Proof.
  intros Hi. unfold slice. replace (S i - i)%nat with 1%nat by lia.
  revert i Hi. induction l as [|x l IH]; intros [|i] Hi; simpl in *; try lia; auto.
  apply IH. lia.
Qed.

Lemma slice_drop {A} a b (l : list A) : (a <= b)%nat -> slice a b l ++ drop b l = drop a l.
Proof.
  intros. unfold slice. rewrite <- (take_drop (b - a) (drop a l)) at 2.
  rewrite drop_drop. do 2 f_equal. lia.
Qed.

(** A record assembled from the fields of a buffer has that buffer's body. *)
Lemma body_of_fields (buf : bytes) kend :
  (29 <= kend <= length buf)%nat ->
  zlen (slice 29 kend buf) = le_get (slice 21 25 buf) ->
  zlen (drop kend buf) = le_get (slice 25 29 buf) ->
  record_body {| r_ts := i64 (le_get (slice 4 12 buf));
      r_seq := le_get (slice 12 20 buf); r_flags := nth 20 buf x00;
      r_key := slice 29 kend buf; r_value := drop kend buf |} = drop 4 buf.
Proof.
  intros Hk Hkl Hvl. unfold record_body; cbn [r_ts r_seq r_flags r_key r_value].
  rewrite Hkl, Hvl, u64_i64.
  rewrite (slice_drop 29 kend) by lia. rewrite <- (slice_nth buf 20) by lia.
  rewrite u64_small.
  2:{ pose proof (le_get_range (slice 4 12 buf)) as H.
      rewrite length_slice in H by lia. exact H. }
  rewrite !le_put_get' by (rewrite length_slice; lia).
  rewrite (header_shape buf) at 7 by lia.
  by rewrite hdr_body by (rewrite length_slice; lia).
Qed.

(** What a successful decode says about the buffer: it is the encoding. *)
Lemma decode_inv buf r :
  decodeRecord buf = Ok r -> zlen buf < 2 ^ 32 ->
  buf = encode r /\ is_i64 (r_ts r) /\ is_u64 (r_seq r).
Proof.
  unfold decodeRecord, recordHeaderSize. intros H Hlen.
  destruct (Nat.ltb_spec (length buf) 29) as [|Hl]; [done|].
  destruct (negb _) eqn:Hsz in H; [done|]. destruct (negb _) eqn:Hcrc in H; [done|].
  reflect_bools. injection H as <-. cbn [r_ts r_seq].
  pose proof (le_get_range (slice 21 25 buf)) as Hk.
  pose proof (le_get_range (slice 25 29 buf)) as Hv.
  pose proof (le_get_range (slice 12 20 buf)) as Hq.
  rewrite length_slice in Hk, Hv, Hq by lia. simpl in Hk, Hv, Hq.
  rewrite u32_small in * by (unfold is_u32; lia).
  split; [|split; [apply i64_range | exact Hq]].
  unfold encode. rewrite body_of_fields.
  - rewrite <- Hcrc, le_put_get' by (rewrite length_slice; lia).
    change (slice 0 4 buf) with (take 4 buf). by rewrite take_drop.
  - unfold zlen in *; lia.
  - unfold zlen in *. rewrite length_slice; lia.
  - unfold zlen in *. rewrite length_drop; lia.
Qed.

(** ** Scanning *)

Lemma encode_klen r : zlen (r_key r) < 2 ^ 32 ->
  le_get (slice 21 25 (encode r)) = zlen (r_key r).
Proof.
  intros. pose proof (zlen_nonneg (r_key r)).
  rewrite encode_shape, hdr_klen, le_get32_put by len. apply u32_small. done.
Qed.

Lemma encode_vlen r : zlen (r_value r) < 2 ^ 32 ->
  le_get (slice 25 29 (encode r)) = zlen (r_value r).
Proof.
  intros. pose proof (zlen_nonneg (r_value r)).
  rewrite encode_shape, hdr_vlen, le_get32_put by len. apply u32_small. done.
Qed.

Lemma scan_next_encode r rest :
  valid_record r -> scan_next (encode r ++ rest) = Some (encode r, r, rest).
Proof.
  intros Hr. pose proof (valid_sizes r Hr) as [Hk Hv]. unfold scan_next, recordHeaderSize.
  pose proof (length_encode r) as Hl. pose proof (zlen_encode r) as Hz.
  destruct (Nat.ltb_spec (length (encode r ++ rest)) 29) as [H|_]; [len|].
  rewrite !slice_take, !slice_app_l, encode_klen, encode_vlen by lia.
  destruct max_sizes as [-> ->].
  destruct (Z.eqb_spec (zlen (r_key r)) 0); [lia|].
  destruct (Z.ltb_spec 65536 (zlen (r_key r))); [lia|].
  destruct (Z.ltb_spec 268435456 (zlen (r_value r))); [lia|]. simpl orb. cbv iota.
  pose proof (zlen_nonneg rest).
  destruct (Z.ltb_spec (zlen (encode r ++ rest)) (Z.of_nat 29 + zlen (r_key r) + zlen (r_value r)))
    as [H'|_]; [rewrite zlen_app in H'; lia|].
  replace (Z.to_nat (Z.of_nat 29 + zlen (r_key r) + zlen (r_value r)))
    with (length (encode r)) by (unfold zlen; lia).
  rewrite <- take_slice by lia. rewrite take_app_length, drop_app_length.
  by rewrite decode_encode.
Qed.

Lemma scan_next_inv rest raw r rest' :
  scan_next rest = Some (raw, r, rest') ->
  rest = encode r ++ rest' /\ raw = encode r /\ valid_record r.
Proof.
  unfold scan_next, recordHeaderSize. intros H.
  destruct (Nat.ltb_spec (length rest) 29) as [|Hl]; [done|].
  rewrite !slice_take in H by lia.
  set (kl := le_get (slice 21 25 rest)) in *. set (vl := le_get (slice 25 29 rest)) in *.
  destruct (_ || _) eqn:Hlim in H; [done|]. reflect_bools.
  destruct (Z.ltb_spec (zlen rest) (Z.of_nat 29 + kl + vl)) as [|Hsz]; [done|].
  assert (0 <= kl /\ 0 <= vl) as [Hk0 Hv0] by (split; apply le_get_range).
  destruct max_sizes as [E1 E2]. rewrite E1, E2 in *.
  set (size := Z.to_nat (Z.of_nat 29 + kl + vl)) in *.
  rewrite <- take_slice in H by lia.
  destruct (decodeRecord (take size rest)) as [r0|] eqn:Hd; [|done].
  injection H as <- <- <-.
  assert (Hlen : length (take size rest) = size) by (rewrite length_take; unfold zlen, size in *; lia).
  apply decode_inv in Hd as (Hb & Hts & Hseq); [|unfold zlen, size in *; lia].
  split; [by rewrite <- Hb, take_drop|]. split; [done|].
  pose proof (zlen_nonneg (r_key r0)). pose proof (zlen_nonneg (r_value r0)).
  assert (Hz : zlen (encode r0) = Z.of_nat size) by (rewrite <- Hb; unfold zlen; lia).
  rewrite zlen_encode in Hz.
  assert (kl = zlen (r_key r0)).
  { rewrite <- (encode_klen r0), <- Hb, slice_take by (unfold size in *; lia). done. }
  assert (vl = zlen (r_value r0)).
  { rewrite <- (encode_vlen r0), <- Hb, slice_take by (unfold size in *; lia). done. }
  unfold valid_record. rewrite E1, E2. split; [done|split; [done|lia]].
Qed.

(** A strict prefix of an encoding is not a record: a torn write is seen as the
    end of the file, whatever its checksum bytes happen to be. *)
Lemma scan_next_torn r t u :
  valid_record r -> encode r = t ++ u -> u <> [] -> scan_next t = None.
Proof.
  intros Hr Ht Hu. destruct (scan_next t) as [[[raw r'] rest]|] eqn:E; [|done].
  apply scan_next_inv in E as (-> & _ & Hr').
  pose proof (scan_next_encode r [] Hr) as H1.
  rewrite app_nil_r, Ht, <- app_assoc in H1.
  rewrite (scan_next_encode r' (rest ++ u) Hr') in H1.
  injection H1 as _ _ Hnil. by apply app_eq_nil in Hnil as [_ ?].
Qed.

Lemma scan_next_nil : scan_next [] = None.
Proof. done. Qed.

Section scan_lemmas.
Context {S E : Type}.
Implicit Type fn : Z -> bytes -> record -> sm S E unit.

Lemma scan_loop_visit fn rs tail pos fuel s :
  Forall valid_record rs -> scan_next tail = None ->
  (length (encode_all rs) + length tail < fuel)%nat ->
  scan_loop fuel fn (encode_all rs ++ tail) pos s = visit fn pos rs s.
Proof.
  intros Hrs Ht. revert pos fuel s. induction Hrs as [|r rs Hr Hrs IH]; intros pos fuel s Hf.
  - destruct fuel; [lia|]. simpl. by rewrite Ht.
  - destruct fuel as [|fuel]; [lia|]. rewrite encode_all_cons in *.
    pose proof (length_encode r). rewrite length_app in Hf.
    cbn [scan_loop visit]. rewrite <- app_assoc, scan_next_encode by done.
    destruct (fn pos (encode r) r s) as [[] s']; [|done]. apply IH. lia.
Qed.

Lemma scanFile_visit fn rs tail s :
  Forall valid_record rs -> scan_next tail = None ->
  scanFile (encode_all rs ++ tail) fn s = visit fn 0 rs s.
Proof. intros. apply scan_loop_visit; [done..|]. rewrite length_app. lia. Qed.

Lemma visit_app fn pos rs rs' s :
  visit fn pos (rs ++ rs') s =
  match visit fn pos rs s with
  | ((p, None), s') => visit fn p rs' s'
  | out => out
  end.
Proof.
  revert pos s. induction rs as [|r rs IH]; intros pos s; simpl; [done|].
  destruct (fn pos (encode r) r s) as [[] s']; [apply IH|done].
Qed.

(** A callback that never fails: the scan ends at the end of the log. *)
Lemma visit_total fn pos rs s :
  (forall p raw r s, is_ok (fn p raw r s).1) ->
  (visit fn pos rs s).1 = (pos + zlen (encode_all rs), None).
Proof.
  intros Hok. revert pos s. induction rs as [|r rs IH]; intros pos s; simpl.
  - f_equal. unfold encode_all; simpl. rewrite zlen_nil. lia.
  - pose proof (Hok pos (encode r) r s) as H.
    destruct (fn pos (encode r) r s) as [[] s']; [|done].
    rewrite IH, encode_all_cons, zlen_app. f_equal. lia.
Qed.
End scan_lemmas.

(** Every file splits uniquely into the records a scan accepts and a rest it
    rejects. *)
Lemma log_split (data : bytes) :
  exists rs tail, data = encode_all rs ++ tail /\ Forall valid_record rs /\
                  scan_next tail = None.
Proof.
  induction data as [data IH] using (induction_ltof1 _ (@length byte)).
  destruct (scan_next data) as [[[raw r] rest]|] eqn:E.
  - apply scan_next_inv in E as (-> & _ & Hr).
    destruct (IH rest) as (rs & tail & -> & Hrs & Ht).
    { unfold ltof. rewrite length_app, length_encode. lia. }
    exists (r :: rs), tail. rewrite encode_all_cons, <- app_assoc. auto.
  - exists [], data. auto.
Qed.

(** ** Torn tails *)

(** The records of [rs] that lie wholly within the first [n] bytes of their
    concatenated encoding. *)
Fixpoint whole_records (n : nat) (rs : list record) : list record :=
  match rs with
  | [] => []
  | r :: rs' =>
      if (length (encode r) <=? n)%nat
      then r :: whole_records (n - length (encode r)) rs' else []
  end.

Lemma take_log n rs : Forall valid_record rs ->
  exists tail, take n (encode_all rs) = encode_all (whole_records n rs) ++ tail /\
    scan_next tail = None.
Proof.
  intros Hrs. revert n. induction Hrs as [|r rs Hr Hrs IH]; intros n.
  - exists []. split; [by destruct n|done].
  - rewrite encode_all_cons. cbn [whole_records].
    destruct (Nat.leb_spec (length (encode r)) n) as [Hn|Hn].
    + destruct (IH (n - length (encode r))%nat) as (tail & Heq & Ht).
      exists tail. rewrite take_app_ge, Heq, encode_all_cons, app_assoc by lia. auto.
    + exists (take n (encode r)). rewrite take_app_le by lia. split; [done|].
      apply (scan_next_torn r _ (drop n (encode r))); [done|by rewrite take_drop|].
      intros Hd%(f_equal length). rewrite length_drop in Hd.
      cbn [length] in Hd. lia.
Qed.

Lemma whole_records_prefix n rs : whole_records n rs `prefix_of` rs.
Proof.
  revert n. induction rs as [|r rs IH]; intros n; simpl; [done|].
  case_goal; [by apply prefix_cons|apply prefix_nil].
Qed.

(** ** Batch markers *)

Definition clear_flags (f : byte) : byte :=
  Z_byte (Z.ldiff (byte_Z f) (Z.lor flagBatch flagBatchEnd)).
Definition strip_batch (r : record) : record :=
  mkRecord (r_ts r) (r_seq r) (clear_flags (r_flags r)) (r_key r) (r_value r).

Lemma clear_flags_id f :
  Z.land (byte_Z f) (Z.lor flagBatch flagBatchEnd) = 0 -> clear_flags f = f.
Proof. destruct f; done. Qed.
Lemma clear_flags_tombstone f :
  has_flag (clear_flags f) flagTombstone = has_flag f flagTombstone.
Proof. by destruct f. Qed.
Lemma clear_flags_batch f : has_flag (clear_flags f) flagBatch = false.
Proof. by destruct f. Qed.
Lemma clear_flags_batch_end f : has_flag (clear_flags f) flagBatchEnd = false.
Proof. by destruct f. Qed.

Lemma encode_flags r : nth 20 (encode r) x00 = r_flags r.
Proof. reflexivity. Qed.

Lemma clearBatchFlags_encode r : clearBatchFlags (encode r) = encode (strip_batch r).
Proof.
  unfold clearBatchFlags. rewrite encode_flags.
  destruct (Nat.ltb_spec (length (encode r)) recordHeaderSize) as [H|_].
  { rewrite length_encode in H. unfold recordHeaderSize in H. lia. }
  simpl orb. destruct (Z.eqb_spec (Z.land (byte_Z (r_flags r)) (Z.lor flagBatch flagBatchEnd)) 0)
    as [H|_].
  - destruct r as [ts seq fl k v]. unfold strip_batch; cbn [r_ts r_seq r_flags r_key r_value] in *.
    by rewrite clear_flags_id.
  - fold (clear_flags (r_flags r)). rewrite encode_shape, set_flags, hdr_body, set_crc by len.
    done.
Qed.

Lemma strip_batch_valid r : valid_record r -> valid_record (strip_batch r).
Proof. done. Qed.

(** ** Damage *)

Lemma decode_crc buf r : decodeRecord buf = Ok r ->
  (29 <= length buf)%nat /\ le_get (slice 0 4 buf) = crc32 (drop 4 buf).
Proof.
  unfold decodeRecord, recordHeaderSize. intros H.
  destruct (Nat.ltb_spec (length buf) 29); [done|].
  destruct (negb _) in H; [done|]. destruct (negb _) eqn:Hcrc in H; [done|].
  reflect_bools. auto.
Qed.

Lemma split_at (l : bytes) i : (i < length l)%nat ->
  l = take i l ++ nth i l x00 :: drop (S i) l.
Proof.
  intros Hi. destruct (lookup_lt_is_Some_2 l i Hi) as [x Hx].
  rewrite (nth_lookup_Some _ _ _ _ Hx). symmetry. by apply take_drop_middle.
Qed.

Lemma crc_field_change l i b : (i < 4 <= length l)%nat -> nth i l x00 <> b ->
  le_get (slice 0 4 (<[i := b]> l)) <> le_get (slice 0 4 l).
Proof.
  intros Hi Hb H. apply le_get_inj in H.
  2:{ rewrite !length_slice; rewrite ?length_insert; lia. }
  change (take 4 (<[i:=b]> l) = take 4 l) in H.
  rewrite take_insert_lt in H by lia. apply Hb.
  apply (f_equal (fun k => nth i k x00)) in H.
  rewrite (nth_lookup_Some _ i x00 b) in H.
  2:{ apply list_lookup_insert_eq. rewrite length_take. lia. }
  rewrite H. destruct (lookup_lt_is_Some_2 l i ltac:(lia)) as [x Hx].
  rewrite (nth_lookup_Some _ _ _ _ Hx). symmetry. apply nth_lookup_Some.
  by rewrite lookup_take_lt by lia.
Qed.

Lemma crc_body_change l i b : (4 <= i < length l)%nat -> nth i l x00 <> b ->
  crc32 (drop 4 (<[i := b]> l)) <> crc32 (drop 4 l).
Proof.
  intros Hi Hb. rewrite (split_at l i) at 2 by lia.
  rewrite insert_take_drop by lia. rewrite !drop_app_le by (rewrite length_take; lia).
  by apply crc32_one_byte.
Qed.

(** ** Properties *)

(** C26: encode/decode round trip.  [appendRecord] extends its buffer by exactly
    the documented layout of the record, and [decodeRecord] of those bytes
    returns the record, for every record within the engine's limits. *)
Theorem record_roundtrip dst r :
  valid_record r ->
  appendRecord dst r = dst ++ encode r /\
  decodeRecord (drop (length dst) (appendRecord dst r)) = Ok r.
Proof.
  intros Hr. rewrite appendRecord_encode. split; [done|].
  rewrite drop_app_length. by apply decode_encode.
Qed.

Definition demo_record : record :=
  mkRecord (-5) 7 x03 [x6b; x31] [x76; xff; x00].

Lemma demo_record_valid : valid_record demo_record.
Proof. by vm_compute. Qed.

Lemma record_roundtrip_witness :
  valid_record demo_record /\
  decodeRecord (drop 2 (appendRecord [x00; x01] demo_record)) = Ok demo_record.
Proof.
  split; [exact demo_record_valid|].
  exact (proj2 (record_roundtrip [x00; x01] demo_record demo_record_valid)).
Defined.

(** C27: bit rot is reported.  If a buffer decodes, then the same buffer with any
    single byte replaced by a different one does not: [decodeRecord] returns an
    error wherever the damage is (checksum, header field, key or value). *)
Theorem decode_detects_byte_change buf r i b :
  decodeRecord buf = Ok r -> (i < length buf)%nat -> nth i buf x00 <> b ->
  is_err (decodeRecord (<[i := b]> buf)) = true.
Proof.
  intros Hd Hi Hb. destruct (decodeRecord (<[i:=b]> buf)) as [r'|] eqn:Hd'; [|done].
  apply decode_crc in Hd as [Hl Hcrc]. apply decode_crc in Hd' as [_ Hcrc'].
  exfalso. destruct (decide (i < 4)%nat) as [Hi4|Hi4].
  - rewrite drop_insert_lt, <- Hcrc in Hcrc' by lia. revert Hcrc'.
    apply crc_field_change; [lia|done].
  - apply (crc_body_change buf i b); [lia|done|]. rewrite <- Hcrc, <- Hcrc'.
    f_equal. change (take 4 (<[i:=b]> buf) = take 4 buf). apply take_insert_ge. lia.
Qed.

Lemma decode_detects_byte_change_witness :
  is_err (decodeRecord (<[30%nat := xaa]> (encode demo_record))) = true.
Proof.
  apply (decode_detects_byte_change (encode demo_record) demo_record 30 xaa).
  - vm_compute. reflexivity.
  - vm_compute. lia.
  - vm_compute. discriminate.
Defined.


(** Torn tails.  A log of valid records cut off after any number of bytes
    scans as exactly the records that lie wholly before the cut, and (with a
    callback that never fails) the returned offset is the end of the last of
    them. *)
Theorem scanFile_torn {S E} (fn : Z -> bytes -> record -> sm S E unit) rs n s :
  Forall valid_record rs ->
  (forall p raw r s, is_ok (fn p raw r s).1 = true) ->
  scanFile (take n (encode_all rs)) fn s = visit fn 0 (whole_records n rs) s /\
  (scanFile (take n (encode_all rs)) fn s).1 =
    (zlen (encode_all (whole_records n rs)), None) /\
  whole_records n rs `prefix_of` rs.
Proof.
  intros Hrs Hok. destruct (take_log n rs Hrs) as (tail & -> & Ht).
  assert (Hw : Forall valid_record (whole_records n rs)).
  { destruct (whole_records_prefix n rs) as [k Hk]. rewrite Hk in Hrs.
    by apply Forall_app in Hrs as [? _]. }
  rewrite scanFile_visit by done. split; [done|].
  split; [|apply whole_records_prefix]. rewrite visit_total; [done|].
  intros. by rewrite Hok.
Qed.

Definition collect (pos : Z) (raw : bytes) (r : record) : sm (list (Z * record)) unit unit :=
  sm_modify (fun l => l ++ [(pos, r)]).

Lemma scanFile_torn_witness :
  scanFile (take 40 (encode_all [demo_record; demo_record])) collect [] =
    ((34, None), [(0, demo_record)]).
Proof.
  destruct (scanFile_torn collect [demo_record; demo_record] 40 []) as [H _].
  - do 2 (constructor; [exact demo_record_valid|]). constructor.
  - reflexivity.
  - rewrite H. vm_compute. reflexivity.
Defined.

(** Stripping the batch markers.  [clearBatchFlags] of an encoded record is
    the encoding, checksum included, of the same record with both batch flags
    cleared and every other field, the tombstone flag included, unchanged. *)
Theorem clearBatchFlags_strips r :
  valid_record r ->
  exists r', decodeRecord (clearBatchFlags (encode r)) = Ok r' /\
    r_key r' = r_key r /\ r_value r' = r_value r /\ r_seq r' = r_seq r /\
    r_ts r' = r_ts r /\ tombstone r' = tombstone r /\
    has_flag (r_flags r') flagBatch = false /\
    has_flag (r_flags r') flagBatchEnd = false /\
    clearBatchFlags (encode r') = encode r'.
Proof.
  intros Hr. exists (strip_batch r).
  rewrite clearBatchFlags_encode, decode_encode by done.
  do 5 (split; [done|]). split; [apply clear_flags_tombstone|].
  split; [apply clear_flags_batch|]. split; [apply clear_flags_batch_end|].
  rewrite clearBatchFlags_encode. f_equal.
  destruct r as [ts seq fl k v]. unfold strip_batch; cbn [r_ts r_seq r_flags r_key r_value].
  f_equal. by destruct fl.
Qed.

Lemma clearBatchFlags_strips_witness :
  exists r', decodeRecord (clearBatchFlags (encode demo_record)) = Ok r' /\
             r_flags r' = x01.
Proof.
  destruct (clearBatchFlags_strips demo_record demo_record_valid) as (r' & H & _).
  exists r'. split; [exact H|]. revert H. vm_compute. by intros [= <-].
Defined.
