(* ===== verification/Proto.v ===== *)
(** * The wire format (internal/proto/proto.go)

    Frames ([WriteFrame]/[ReadFrame]) over a byte stream, the body encoder
    [Enc] and the sticky-error decoder [Dec].  An [Enc] is the bytes built so
    far; a [Dec] is the source's struct.  The stream under a [Writer] or a
    [Reader] is a byte list: what [bufio] and the connection deliver. *)

From S2P Require Import Prelude Bytes.

Local Open Scope Z_scope.

Definition MaxFrameSize : Z := Z.shiftl 320 20.

(** ** Opcodes and statuses *)

Definition Op := byte.
Definition OpPing : Op := x01.
Definition OpPut : Op := x02.
Definition OpGet : Op := x03.
Definition OpDelete : Op := x04.
Definition OpRange : Op := x05.
Definition OpBatchPut : Op := x06.
Definition OpStats : Op := x07.
Definition OpInfo : Op := x08.
Definition OpCompact : Op := x09.
Definition OpReplicate : Op := x20.
Definition OpVote : Op := x21.
Definition OpAnnounce : Op := x22.
Definition OpPromote : Op := x23.

Definition Status := byte.
Definition StatusOK : Status := x00.
Definition StatusNotFound : Status := x01.
Definition StatusError : Status := x02.
Definition StatusRedirect : Status := x03.
Definition StatusRangeChunk : Status := x04.
Definition StatusRangeEnd : Status := x05.
Definition StatusReplData : Status := x06.
Definition StatusFullSync : Status := x07.
Definition StatusHeartbeat : Status := x08.
Definition StatusLive : Status := x09.

(** [ErrTrailing n] is the wrapped form of [ErrMalformed] that [Done] returns;
    [ErrEOF] and [ErrUnexpectedEOF] are those of [io.ReadFull]. *)
Inductive proto_error :=
| ErrFrameTooLarge
| ErrMalformed
| ErrTrailing (n : Z)
| ErrEOF
| ErrUnexpectedEOF.

(** ** Framing *)

(** [WriteFrame]: the bytes appended to the stream. *)
Definition WriteFrame (payload : bytes) : result proto_error bytes :=
  if MaxFrameSize <? zlen payload then Err ErrFrameTooLarge
  else Ok (be_put 4 (u32 (zlen payload)) ++ payload).

(** [io.ReadFull] of [n] bytes: what was read and what is left. *)
Definition ReadFull (n : Z) (stream : bytes) : result proto_error (bytes * bytes) :=
  if n =? 0 then Ok ([], stream)
  else if zlen stream =? 0 then Err ErrEOF
  else if zlen stream <? n then Err ErrUnexpectedEOF
  else Ok (take (Z.to_nat n) stream, drop (Z.to_nat n) stream).

Definition ReadFrame (stream : bytes) : result proto_error (bytes * bytes) :=
  match ReadFull 4 stream with
  | Err e => Err e
  | Ok (hdr, stream) =>
      let n := be_get hdr in
      if MaxFrameSize <? n then Err ErrFrameTooLarge
      else ReadFull n stream
  end.

(** ** The body encoder *)

Module Enc.
Definition NewEnc (first : byte) : bytes := [first].
Definition U8 (v : byte) (B : bytes) : bytes := B ++ [v].
Definition U32 (v : Z) (B : bytes) : bytes := B ++ be_put 4 v.
Definition U64 (v : Z) (B : bytes) : bytes := B ++ be_put 8 v.
Definition Bytes (b : bytes) (B : bytes) : bytes := U32 (u32 (zlen b)) B ++ b.
Definition Str (s : bytes) (B : bytes) : bytes := U32 (u32 (zlen s)) B ++ s.
Definition Raw (b : bytes) (B : bytes) : bytes := B ++ b.
End Enc.

(** ** The body decoder *)

Record Dec := mkDec { d_B : bytes; d_pos : Z; d_err : option proto_error }.

Module Decoder.
Definition NewDec (b : bytes) : Dec := mkDec b 0 None.
Definition failed (d : Dec) : bool := match d_err d with Some _ => true | None => false end.
Definition fail (d : Dec) : Dec := mkDec (d_B d) (d_pos d) (Some ErrMalformed).
Definition advance (n : Z) (d : Dec) : Dec := mkDec (d_B d) (d_pos d + n) (d_err d).
(** [d.B[d.pos : d.pos+n]] *)
Definition window (n : Z) (d : Dec) : bytes :=
  slice (Z.to_nat (d_pos d)) (Z.to_nat (d_pos d + n)) (d_B d).

Definition U8 (d : Dec) : byte * Dec :=
  if failed d || (zlen (d_B d) <? d_pos d + 1) then (x00, fail d)
  else (nth (Z.to_nat (d_pos d)) (d_B d) x00, advance 1 d).
Definition U32 (d : Dec) : Z * Dec :=
  if failed d || (zlen (d_B d) <? d_pos d + 4) then (0, fail d)
  else (be_get (window 4 d), advance 4 d).
Definition U64 (d : Dec) : Z * Dec :=
  if failed d || (zlen (d_B d) <? d_pos d + 8) then (0, fail d)
  else (be_get (window 8 d), advance 8 d).
Definition Bytes (d : Dec) : bytes * Dec :=
  let (n, d) := U32 d in
  if failed d || (n <? 0) || (zlen (d_B d) <? d_pos d + n) then ([], fail d)
  else (window n d, advance n d).
Definition Str (d : Dec) : bytes * Dec := Bytes d.
Definition Rest (d : Dec) : bytes * Dec :=
  if failed d then ([], d)
  else (drop (Z.to_nat (d_pos d)) (d_B d), mkDec (d_B d) (zlen (d_B d)) (d_err d)).
Definition Err (d : Dec) : option proto_error := d_err d.
Definition Done (d : Dec) : option proto_error :=
  match d_err d with
  | Some e => Some e
  | None => if d_pos d =? zlen (d_B d) then None
            else Some (ErrTrailing (zlen (d_B d) - d_pos d))
  end.
Definition Remaining (d : Dec) : Z :=
  if failed d || (zlen (d_B d) <? d_pos d) then 0 else zlen (d_B d) - d_pos d.
Definition Empty (d : Dec) : bool := zlen (d_B d) <=? d_pos d.
End Decoder.

(** ** Frames: lemmas *)

Lemma zlen_take {A} (l : list A) n : 0 <= n <= zlen l -> zlen (take (Z.to_nat n) l) = n.
Proof. unfold zlen. rewrite length_take. lia. Qed.

Lemma ReadFull_app (p rest : bytes) : ReadFull (zlen p) (p ++ rest) = Ok (p, rest).
Proof.
  unfold ReadFull. pose proof (zlen_nonneg p). pose proof (zlen_nonneg rest).
  destruct (Z.eqb_spec (zlen p) 0) as [Hz|Hz]; [by apply zlen_0_inv in Hz as ->|].
  rewrite zlen_app. destruct (Z.eqb_spec (zlen p + zlen rest) 0); [lia|].
  destruct (Z.ltb_spec (zlen p + zlen rest) (zlen p)); [lia|].
  by rewrite zlen_to_nat, take_app_length, drop_app_length.
Qed.

Lemma max_frame : MaxFrameSize = 335544320.
Proof. done. Qed.

Lemma ReadFrame_WriteFrame p f rest :
  WriteFrame p = Ok f -> ReadFrame (f ++ rest) = Ok (p, rest).
Proof.
  unfold WriteFrame, ReadFrame. pose proof max_frame as Hm. pose proof (zlen_nonneg p).
  destruct (Z.ltb_spec MaxFrameSize (zlen p)) as [|Hp]; [done|]. intros Hf.
  assert (f = be_put 4 (u32 (zlen p)) ++ p) as -> by congruence. clear Hf.
  rewrite <- app_assoc.
  change 4 with (Z.of_nat 4). rewrite <- (length_be_put 4 (u32 (zlen p))) at 1.
  fold (zlen (be_put 4 (u32 (zlen p)))). rewrite ReadFull_app.
  rewrite be_get32_put, !u32_small by (try apply u32_range; unfold is_u32; lia).
  destruct (Z.ltb_spec MaxFrameSize (zlen p)); [lia|]. apply ReadFull_app.
Qed.

(** Reading a stream to its end: the frames delivered and the error that ends
    it ([ErrEOF] when it ends between frames). *)
Fixpoint read_frames (fuel : nat) (stream : bytes) : list bytes * proto_error :=
  match fuel with
  | O => ([], ErrEOF)
  | S fuel' =>
      match ReadFrame stream with
      | Err e => ([], e)
      | Ok (p, rest) => let (ps, e) := read_frames fuel' rest in (p :: ps, e)
      end
  end.

Definition write_frames (ps : list bytes) : result proto_error bytes :=
  foldr (fun p acc => f ← WriteFrame p; b ← acc; mret (f ++ b)) (mret []) ps.

Lemma read_write_frames ps stream fuel :
  write_frames ps = Ok stream -> (length ps < fuel)%nat ->
  read_frames fuel stream = (ps, ErrEOF).
Proof.
  revert stream fuel. induction ps as [|p ps IH]; intros stream fuel H Hf;
    (destruct fuel as [|fuel]; simpl in Hf; [lia|]).
  - injection H as <-. done.
  - simpl in H. destruct (WriteFrame p) as [f|] eqn:Hp; [|done].
    destruct (write_frames ps) as [b|] eqn:Hb; [|done]. injection H as <-.
    simpl. erewrite ReadFrame_WriteFrame by done.
    by rewrite (IH b fuel) by (done || lia).
Qed.

(** ** Body fields *)

(** One call of an encoder method, and the matching decoder call. *)
Inductive field :=
| FU8 (b : byte)
| FU32 (v : Z)
| FU64 (v : Z)
| FBytes (bs : bytes)
| FStr (bs : bytes).

Definition enc_field (f : field) (B : bytes) : bytes :=
  match f with
  | FU8 b => Enc.U8 b B
  | FU32 v => Enc.U32 v B
  | FU64 v => Enc.U64 v B
  | FBytes bs => Enc.Bytes bs B
  | FStr bs => Enc.Str bs B
  end.

(** Decode a value of the same shape as [f]. *)
Definition dec_field (f : field) (d : Dec) : field * Dec :=
  match f with
  | FU8 _ => let (b, d) := Decoder.U8 d in (FU8 b, d)
  | FU32 _ => let (v, d) := Decoder.U32 d in (FU32 v, d)
  | FU64 _ => let (v, d) := Decoder.U64 d in (FU64 v, d)
  | FBytes _ => let (b, d) := Decoder.Bytes d in (FBytes b, d)
  | FStr _ => let (b, d) := Decoder.Str d in (FStr b, d)
  end.

Definition enc_fields (fs : list field) (B : bytes) : bytes :=
  foldl (fun B f => enc_field f B) B fs.

Fixpoint dec_fields (fs : list field) (d : Dec) : list field * Dec :=
  match fs with
  | [] => ([], d)
  | f :: fs' =>
      let (v, d) := dec_field f d in
      let (vs, d) := dec_fields fs' d in (v :: vs, d)
  end.

(** Values within the widths of their fields. *)
Definition field_ok (f : field) : Prop :=
  match f with
  | FU8 _ => True
  | FU32 v => is_u32 v
  | FU64 v => is_u64 v
  | FBytes bs | FStr bs => zlen bs < 2 ^ 32
  end.

Lemma enc_field_app f B : enc_field f B = B ++ enc_field f [].
Proof.
  destruct f; simpl; unfold Enc.U8, Enc.U32, Enc.U64, Enc.Bytes, Enc.Str, Enc.U32;
    by rewrite <- ?app_assoc.
Qed.

Lemma enc_fields_app fs B : enc_fields fs B = B ++ enc_fields fs [].
Proof.
  revert B. induction fs as [|f fs IH]; intros B; simpl; [by rewrite app_nil_r|].
  unfold enc_fields in *. simpl. rewrite IH, (IH (enc_field f [])).
  by rewrite (enc_field_app f B), app_assoc.
Qed.

Lemma enc_fields_cons f fs : enc_fields (f :: fs) [] = enc_field f [] ++ enc_fields fs [].
Proof. unfold enc_fields at 1. simpl. apply enc_fields_app. Qed.

Lemma window_app n pre (x post : bytes) : n = zlen x ->
  Decoder.window n (mkDec (pre ++ x ++ post) (zlen pre) None) = x.
Proof.
  intros ->. unfold Decoder.window; simpl. rewrite zlen_to_nat.
  apply slice_app_exact; [done|]. unfold zlen. lia.
Qed.

Ltac dec_bounds := rewrite ?zlen_app; unfold zlen in *; rewrite ?length_be_put in *; simpl in *; lia.

Lemma dec_U32_app pre v post : is_u32 v ->
  Decoder.U32 (mkDec (pre ++ be_put 4 v ++ post) (zlen pre) None) =
  (v, mkDec (pre ++ be_put 4 v ++ post) (zlen pre + 4) None).
Proof.
  intros Hv. unfold Decoder.U32. cbn [orb Decoder.failed d_err d_B d_pos].
  destruct (Z.ltb_spec (zlen (pre ++ be_put 4 v ++ post)) (zlen pre + 4)) as [H|_];
    [exfalso; revert H; dec_bounds|].
  rewrite window_app by (unfold zlen; by rewrite length_be_put). rewrite be_get32_put, u32_small by done. done.
Qed.

Lemma dec_U64_app pre v post : is_u64 v ->
  Decoder.U64 (mkDec (pre ++ be_put 8 v ++ post) (zlen pre) None) =
  (v, mkDec (pre ++ be_put 8 v ++ post) (zlen pre + 8) None).
Proof.
  intros Hv. unfold Decoder.U64. cbn [orb Decoder.failed d_err d_B d_pos].
  destruct (Z.ltb_spec (zlen (pre ++ be_put 8 v ++ post)) (zlen pre + 8)) as [H|_];
    [exfalso; revert H; dec_bounds|].
  rewrite window_app by (unfold zlen; by rewrite length_be_put). rewrite be_get64_put, u64_small by done. done.
Qed.

Lemma dec_Bytes_app pre bs post : zlen bs < 2 ^ 32 ->
  Decoder.Bytes (mkDec (pre ++ Enc.Bytes bs [] ++ post) (zlen pre) None) =
  (bs, mkDec (pre ++ Enc.Bytes bs [] ++ post) (zlen pre + zlen (Enc.Bytes bs [])) None).
Proof.
  intros Hbs. pose proof (zlen_nonneg bs).
  unfold Enc.Bytes, Enc.U32. rewrite app_nil_l, u32_small by done.
  rewrite <- app_assoc. unfold Decoder.Bytes.
  rewrite dec_U32_app by done. cbn [orb Decoder.failed d_err d_B d_pos].
  destruct (Z.ltb_spec (zlen bs) 0); [lia|]. cbn [orb].
  assert (H4 : zlen pre + 4 = zlen (pre ++ be_put 4 (zlen bs))) by dec_bounds.
  rewrite H4, (app_assoc pre).
  destruct (Z.ltb_spec (zlen ((pre ++ be_put 4 (zlen bs)) ++ bs ++ post))
    (zlen (pre ++ be_put 4 (zlen bs)) + zlen bs)) as [H'|_];
    [exfalso; revert H'; dec_bounds|].
  rewrite window_app by done. unfold Decoder.advance; cbn [d_B d_pos d_err].
  do 2 f_equal. rewrite !zlen_app. lia.
Qed.

Lemma dec_field_app pre f post : field_ok f ->
  dec_field f (mkDec (pre ++ enc_field f [] ++ post) (zlen pre) None) =
  (f, mkDec (pre ++ enc_field f [] ++ post) (zlen (pre ++ enc_field f [])) None).
Proof.
  intros Hf. rewrite zlen_app. destruct f; cbn [dec_field enc_field field_ok] in *.
  - unfold Enc.U8, Decoder.U8. cbn [orb Decoder.failed d_err d_B d_pos].
    pose proof (zlen_nonneg post).
    destruct (Z.ltb_spec (zlen (pre ++ ([] ++ [b]) ++ post)) (zlen pre + 1)) as [H'|_];
      [exfalso; revert H'; dec_bounds|].
    rewrite zlen_to_nat. do 2 f_equal. apply nth_middle.
  - unfold Enc.U32. rewrite app_nil_l, dec_U32_app by done. reflexivity.
  - unfold Enc.U64. rewrite app_nil_l, dec_U64_app by done. reflexivity.
  - by rewrite dec_Bytes_app.
  - unfold Decoder.Str. change (Enc.Str bs []) with (Enc.Bytes bs []). by rewrite dec_Bytes_app.
Qed.

Lemma dec_fields_app pre fs post : Forall field_ok fs ->
  dec_fields fs (mkDec (pre ++ enc_fields fs [] ++ post) (zlen pre) None) =
  (fs, mkDec (pre ++ enc_fields fs [] ++ post) (zlen (pre ++ enc_fields fs [])) None).
Proof.
  intros Hfs. revert pre. induction Hfs as [|f fs Hf Hfs IH]; intros pre.
  - cbn [dec_fields]. unfold enc_fields; simpl. by rewrite app_nil_r.
  - cbn [dec_fields]. rewrite enc_fields_cons, <- app_assoc, dec_field_app by done.
    rewrite (app_assoc pre), IH. by rewrite !app_assoc.
Qed.

(** A decoder that has read [pre] and has [post] to read. *)
Definition cursor (pre post : bytes) : Dec := mkDec (pre ++ post) (zlen pre) None.

Lemma cursor_new b : Decoder.NewDec b = cursor [] b.
Proof. done. Qed.

Lemma cursor_U8 pre b post : Decoder.U8 (cursor pre ([b] ++ post)) = (b, cursor (pre ++ [b]) post).
Proof.
  pose proof (dec_field_app pre (FU8 b) post Logic.I) as E. cbn [dec_field] in E.
  unfold cursor. change (Enc.U8 b []) with [b] in E. change (enc_field (FU8 b) []) with [b] in E.
  destruct (Decoder.U8 _) as [b' d]. injection E as -> ->. by rewrite <- app_assoc.
Qed.
Lemma cursor_U32 pre v post : is_u32 v ->
  Decoder.U32 (cursor pre (be_put 4 v ++ post)) = (v, cursor (pre ++ be_put 4 v) post).
Proof.
  intros Hv. unfold cursor. rewrite dec_U32_app by done. f_equal. f_equal; [by rewrite <- app_assoc|].
  rewrite zlen_app. unfold zlen at 3. by rewrite length_be_put.
Qed.
Lemma cursor_U64 pre v post : is_u64 v ->
  Decoder.U64 (cursor pre (be_put 8 v ++ post)) = (v, cursor (pre ++ be_put 8 v) post).
Proof.
  intros Hv. unfold cursor. rewrite dec_U64_app by done. f_equal. f_equal; [by rewrite <- app_assoc|].
  rewrite zlen_app. unfold zlen at 3. by rewrite length_be_put.
Qed.
Lemma cursor_Bytes pre bs post : zlen bs < 2 ^ 32 ->
  Decoder.Bytes (cursor pre (Enc.Bytes bs [] ++ post)) = (bs, cursor (pre ++ Enc.Bytes bs []) post).
Proof.
  intros Hb. unfold cursor. rewrite dec_Bytes_app by done. f_equal. f_equal; [by rewrite <- app_assoc|].
  by rewrite zlen_app.
Qed.
Lemma cursor_Str pre bs post : zlen bs < 2 ^ 32 ->
  Decoder.Str (cursor pre (Enc.Str bs [] ++ post)) = (bs, cursor (pre ++ Enc.Str bs []) post).
Proof. apply cursor_Bytes. Qed.
Lemma cursor_Done pre : Decoder.Done (cursor pre []) = None.
Proof. unfold Decoder.Done, cursor. cbn [d_err d_pos d_B]. by rewrite app_nil_r, Z.eqb_refl. Qed.
Lemma cursor_Err pre post : Decoder.Err (cursor pre post) = None.
Proof. done. Qed.
Lemma cursor_Remaining pre post : Decoder.Remaining (cursor pre post) = zlen post.
Proof.
  unfold Decoder.Remaining, cursor. cbn [Decoder.failed d_err d_pos d_B orb]. rewrite zlen_app.
  pose proof (zlen_nonneg post). destruct (Z.ltb_spec (zlen pre + zlen post) (zlen pre)); lia.
Qed.

Lemma zlen_Bytes bs : zlen (Enc.Bytes bs []) = 4 + zlen bs.
Proof. unfold Enc.Bytes, Enc.U32. rewrite app_nil_l, zlen_app. unfold zlen at 1. by rewrite length_be_put. Qed.
Lemma Bytes_app bs B : Enc.Bytes bs B = B ++ Enc.Bytes bs [].
Proof. apply (enc_field_app (FBytes bs)). Qed.
Lemma Str_app bs B : Enc.Str bs B = B ++ Enc.Str bs [].
Proof. apply (enc_field_app (FStr bs)). Qed.

(** ** The decoder never leaves its buffer and its errors are sticky *)

Definition dec_wf (d : Dec) : Prop := 0 <= d_pos d <= zlen (d_B d).

(** [d'] is reached from [d] by a decoder call on the same buffer: it never
    moves back, never leaves the buffer, and never forgets an error. *)
Definition dec_step (d d' : Dec) : Prop :=
  d_B d' = d_B d /\ d_pos d <= d_pos d' <= zlen (d_B d) /\
  (d_err d <> None -> d_err d' <> None).

#[global] Instance dec_step_trans : Transitive dec_step.
Proof.
  intros x y z (E1 & P1 & S1) (E2 & P2 & S2). unfold dec_step.
  rewrite E2, E1 in *. intuition lia.
Qed.

Lemma dec_step_refl d : dec_wf d -> dec_step d d.
Proof. unfold dec_wf, dec_step. intuition lia. Qed.
Lemma dec_step_fail d : dec_wf d -> dec_step d (Decoder.fail d).
Proof. unfold dec_wf, dec_step, Decoder.fail; simpl. intuition (lia || done). Qed.
Lemma dec_step_advance d n : dec_wf d -> 0 <= n -> d_pos d + n <= zlen (d_B d) ->
  dec_step d (Decoder.advance n d).
Proof. unfold dec_wf, dec_step, Decoder.advance; simpl. intuition lia. Qed.
Lemma dec_step_wf d d' : dec_wf d -> dec_step d d' -> dec_wf d'.
Proof. intros Hd (E & P & _). unfold dec_wf in *. rewrite E. lia. Qed.

Create HintDb dec.
#[export] Hint Resolve dec_step_refl dec_step_fail dec_step_advance dec_step_wf : dec.

Lemma dec_U8_step d : dec_wf d -> dec_step d (Decoder.U8 d).2.
Proof.
  intros. unfold Decoder.U8. destruct (_ || _) eqn:E; simpl; eauto with dec.
  reflect_bools. apply dec_step_advance; auto; lia.
Qed.
Lemma dec_U32_step d : dec_wf d -> dec_step d (Decoder.U32 d).2.
Proof.
  intros. unfold Decoder.U32. destruct (_ || _) eqn:E; simpl; eauto with dec.
  reflect_bools. apply dec_step_advance; auto; lia.
Qed.
Lemma dec_U64_step d : dec_wf d -> dec_step d (Decoder.U64 d).2.
Proof.
  intros. unfold Decoder.U64. destruct (_ || _) eqn:E; simpl; eauto with dec.
  reflect_bools. apply dec_step_advance; auto; lia.
Qed.
Lemma dec_Bytes_step d : dec_wf d -> dec_step d (Decoder.Bytes d).2.
Proof.
  intros Hd. unfold Decoder.Bytes. pose proof (dec_U32_step d Hd) as H.
  destruct (Decoder.U32 d) as [n d1]; simpl in H. etransitivity; [exact H|].
  assert (dec_wf d1) by eauto with dec.
  destruct (_ || _) eqn:E; simpl; eauto with dec.
  reflect_bools. apply dec_step_advance; auto; lia.
Qed.

Lemma dec_field_step f d : dec_wf d -> dec_step d (dec_field f d).2.
Proof.
  intros Hd. destruct f; cbn [dec_field]; unfold Decoder.Str.
  - pose proof (dec_U8_step d Hd). by destruct (Decoder.U8 d).
  - pose proof (dec_U32_step d Hd). by destruct (Decoder.U32 d).
  - pose proof (dec_U64_step d Hd). by destruct (Decoder.U64 d).
  - pose proof (dec_Bytes_step d Hd). by destruct (Decoder.Bytes d).
  - pose proof (dec_Bytes_step d Hd). by destruct (Decoder.Bytes d).
Qed.

Lemma dec_fields_step fs d : dec_wf d -> dec_step d (dec_fields fs d).2.
Proof.
  revert d. induction fs as [|f fs IH]; intros d Hd; cbn [dec_fields]; [eauto with dec|].
  pose proof (dec_field_step f d Hd) as H. destruct (dec_field f d) as [v d1]; simpl in H.
  assert (Hd1 : dec_wf d1) by eauto with dec.
  pose proof (IH d1 Hd1) as H'. destruct (dec_fields fs d1) as [vs d2]; simpl in *.
  by etransitivity.
Qed.

(** ** A decode that succeeds does not look past the bytes it consumed *)

(** [x] decoded from [d] without error is decoded the same from any longer
    buffer. *)
Definition extends {A} (f : Dec -> A * Dec) : Prop :=
  forall B pos ext v d', 0 <= pos <= zlen B ->
    f (mkDec B pos None) = (v, d') -> d_err d' = None ->
    f (mkDec (B ++ ext) pos None) = (v, mkDec (B ++ ext) (d_pos d') None) /\
    d' = mkDec B (d_pos d') None /\ pos <= d_pos d' <= zlen B.

Lemma window_ext B pos ext n : 0 <= pos -> 0 <= n -> pos + n <= zlen B ->
  Decoder.window n (mkDec (B ++ ext) pos None) = Decoder.window n (mkDec B pos None).
Proof. intros. unfold Decoder.window; simpl. apply slice_app_l. unfold zlen in *. lia. Qed.

Lemma extends_U8 : extends Decoder.U8.
Proof.
  intros B pos ext v d' Hp H He. unfold Decoder.U8 in *.
  cbn [orb Decoder.failed d_err d_B d_pos] in *. pose proof (zlen_nonneg ext).
  destruct (Z.ltb_spec (zlen B) (pos + 1)); [injection H as <- <-; done|].
  injection H as <- <-. cbn [d_pos Decoder.advance d_B d_err].
  destruct (Z.ltb_spec (zlen (B ++ ext)) (pos + 1)) as [H'|]; [rewrite zlen_app in H'; lia|].
  split; [|split; [done|lia]]. f_equal. apply app_nth1. unfold zlen in *. lia.
Qed.

Lemma extends_U32 : extends Decoder.U32.
Proof.
  intros B pos ext v d' Hp H He. unfold Decoder.U32 in *.
  cbn [orb Decoder.failed d_err d_B d_pos] in *. pose proof (zlen_nonneg ext).
  destruct (Z.ltb_spec (zlen B) (pos + 4)); [injection H as <- <-; done|].
  injection H as <- <-. cbn [d_pos Decoder.advance d_B d_err].
  destruct (Z.ltb_spec (zlen (B ++ ext)) (pos + 4)) as [H'|]; [rewrite zlen_app in H'; lia|].
  rewrite window_ext by lia. split; [done|split; [done|lia]].
Qed.

Lemma extends_U64 : extends Decoder.U64.
Proof.
  intros B pos ext v d' Hp H He. unfold Decoder.U64 in *.
  cbn [orb Decoder.failed d_err d_B d_pos] in *. pose proof (zlen_nonneg ext).
  destruct (Z.ltb_spec (zlen B) (pos + 8)); [injection H as <- <-; done|].
  injection H as <- <-. cbn [d_pos Decoder.advance d_B d_err].
  destruct (Z.ltb_spec (zlen (B ++ ext)) (pos + 8)) as [H'|]; [rewrite zlen_app in H'; lia|].
  rewrite window_ext by lia. split; [done|split; [done|lia]].
Qed.

Lemma extends_Bytes : extends Decoder.Bytes.
Proof.
  intros B pos ext v d' Hp H He. unfold Decoder.Bytes in *. pose proof (zlen_nonneg ext).
  destruct (Decoder.U32 (mkDec B pos None)) as [n d1] eqn:E1.
  destruct (d_err d1) eqn:Ed1.
  { unfold Decoder.failed in H. rewrite Ed1 in H. simpl in H. injection H as <- <-. done. }
  destruct (extends_U32 B pos ext n d1 Hp E1 Ed1) as (-> & Hd1 & Hp1).
  destruct d1 as [B1 p1 e1]; cbn [d_pos d_err] in *. injection Hd1 as -> ->.
  cbn [orb Decoder.failed d_err d_B d_pos] in *.
  destruct (Z.ltb_spec n 0) as [|Hn]; cbn [orb] in *; [injection H as <- <-; done|].
  destruct (Z.ltb_spec (zlen B) (p1 + n)); [injection H as <- <-; done|].
  injection H as <- <-. cbn [d_pos Decoder.advance d_B d_err].
  destruct (Z.ltb_spec (zlen (B ++ ext)) (p1 + n)) as [H'|]; [rewrite zlen_app in H'; lia|].
  rewrite window_ext by lia. split; [done|split; [done|lia]].
Qed.

Lemma extends_field f : extends (dec_field f).
Proof.
  intros B pos ext v d' Hp H He. destruct f; cbn [dec_field] in *; unfold Decoder.Str in *.
  - destruct (Decoder.U8 (mkDec B pos None)) as [x d1] eqn:E. injection H as <- ->.
    by destruct (extends_U8 B pos ext x d' Hp E He) as (-> & ? & ?).
  - destruct (Decoder.U32 (mkDec B pos None)) as [x d1] eqn:E. injection H as <- ->.
    by destruct (extends_U32 B pos ext x d' Hp E He) as (-> & ? & ?).
  - destruct (Decoder.U64 (mkDec B pos None)) as [x d1] eqn:E. injection H as <- ->.
    by destruct (extends_U64 B pos ext x d' Hp E He) as (-> & ? & ?).
  - destruct (Decoder.Bytes (mkDec B pos None)) as [x d1] eqn:E. injection H as <- ->.
    by destruct (extends_Bytes B pos ext x d' Hp E He) as (-> & ? & ?).
  - destruct (Decoder.Bytes (mkDec B pos None)) as [x d1] eqn:E. injection H as <- ->.
    by destruct (extends_Bytes B pos ext x d' Hp E He) as (-> & ? & ?).
Qed.

Lemma extends_fields fs : extends (dec_fields fs).
Proof.
  induction fs as [|f fs IH]; intros B pos ext vs d' Hp H He; cbn [dec_fields] in *.
  - injection H as <- <-. cbn [d_pos]. split; [done|]. split; [done|lia].
  - destruct (dec_field f (mkDec B pos None)) as [v d1] eqn:E1.
    destruct (dec_fields fs d1) as [vs1 d2] eqn:E2. injection H as <- <-.
    destruct (d_err d1) eqn:Ed1.
    { exfalso. pose proof (dec_field_step f (mkDec B pos None) Hp) as Hs1.
      rewrite E1 in Hs1. pose proof (dec_fields_step fs d1 (dec_step_wf (mkDec B pos None) _ Hp Hs1)) as Hs.
      rewrite E2 in Hs. destruct Hs as (_ & _ & Hs). apply Hs; [by rewrite Ed1|done]. }
    destruct (extends_field f B pos ext v d1 Hp E1 Ed1) as (-> & Hd1 & Hp1).
    rewrite Hd1 in E2. destruct (IH B (d_pos d1) ext vs1 d2 ltac:(lia) E2 He) as (-> & ? & ?).
    split; [done|]. split; [done|lia].
Qed.

(** ** Properties *)

(** C38: framing.  Every sequence of payloads the writer accepts is read back by
    successive [ReadFrame] calls unchanged, in order and with nothing left over;
    a payload over [MaxFrameSize] is refused on both sides. *)
Theorem frame_stream_roundtrip ps stream :
  write_frames ps = Ok stream ->
  read_frames (S (length ps)) stream = (ps, ErrEOF) /\
  Forall (fun p => zlen p <= MaxFrameSize) ps.
Proof.
  intros H. split; [apply read_write_frames; [done|lia]|].
  revert stream H. induction ps as [|p ps IH]; intros stream H; [constructor|].
  simpl in H. unfold WriteFrame in H at 1.
  destruct (Z.ltb_spec MaxFrameSize (zlen p)); [done|]. constructor; [done|].
  cbn in H. destruct (write_frames ps); [by eapply IH|done].
Qed.

Lemma frame_stream_roundtrip_witness :
  exists stream, write_frames [[x02; x61]; []; [x00]] = Ok stream /\
    read_frames 4 stream = ([[x02; x61]; []; [x00]], ErrEOF).
Proof.
  eexists. split; [vm_compute; reflexivity|].
  apply (frame_stream_roundtrip [[x02; x61]; []; [x00]]). vm_compute. reflexivity.
Defined.

(** C39: bodies.  Encoding any sequence of in-range fields after the leading
    opcode or status byte and decoding the frame body with the matching calls
    gives the same fields back, with no error and nothing trailing. *)
Theorem body_roundtrip first fs :
  Forall field_ok fs ->
  let frame := enc_fields fs (Enc.NewEnc first) in
  let d := Decoder.NewDec (drop 1 frame) in
  (dec_fields fs d).1 = fs /\ Decoder.Done (dec_fields fs d).2 = None.
Proof.
  intros Hfs frame d.
  assert (Hd : d = mkDec ([] ++ enc_fields fs [] ++ []) (zlen (@nil byte)) None).
  { unfold d, frame, Decoder.NewDec. rewrite enc_fields_app, app_nil_r. done. }
  rewrite Hd, dec_fields_app by done. cbn [fst snd].
  unfold Decoder.Done; cbn [d_err d_pos d_B]. rewrite !app_nil_l, app_nil_r, Z.eqb_refl.
  done.
Qed.

Lemma body_roundtrip_witness :
  let frame := enc_fields [FStr [x61]; FU64 7; FU8 x01; FU32 9] (Enc.NewEnc OpVote) in
  (dec_fields [FStr [x61]; FU64 7; FU8 x01; FU32 9] (Decoder.NewDec (drop 1 frame))).1
  = [FStr [x61]; FU64 7; FU8 x01; FU32 9].
Proof.
  apply (body_roundtrip OpVote [FStr [x61]; FU64 7; FU8 x01; FU32 9]).
  repeat constructor; vm_compute; intuition congruence.
Defined.

(** C40: the decoder fails closed.  Whatever the bytes and the calls, the cursor
    stays inside the buffer and a reported error is never lost; and decoding a
    strictly truncated body ends in [ErrMalformed], never in a value. *)
Theorem decoder_fails_closed fs B :
  let d := Decoder.NewDec B in
  dec_wf (dec_fields fs d).2 /\
  (forall f d', dec_wf d' -> d_err d' <> None -> d_err (dec_field f d').2 <> None) /\
  (forall ext, Forall field_ok fs -> ext <> [] -> enc_fields fs [] = B ++ ext ->
     d_err (dec_fields fs d).2 <> None).
Proof.
  intros d. assert (Hd : dec_wf d) by (unfold dec_wf; simpl; pose proof (zlen_nonneg B); lia).
  split; [eapply dec_step_wf; [exact Hd|by apply dec_fields_step]|]. split.
  { intros f d' Hd' He. destruct (dec_field_step f d' Hd') as (_ & _ & H). auto. }
  intros ext Hfs Hext HB He.
  destruct (dec_fields fs d) as [vs d2] eqn:E. cbn [snd] in He.
  destruct (extends_fields fs B 0 ext vs d2 Hd E He) as (H1 & _ & H2).
  pose proof (dec_fields_app [] fs [] Hfs) as H3.
  rewrite !app_nil_l, app_nil_r, HB, zlen_nil, H1 in H3. injection H3 as _ H3.
  apply Hext, zlen_0_inv. rewrite zlen_app in H3. pose proof (zlen_nonneg ext). lia.
Qed.

Lemma decoder_fails_closed_witness :
  d_err (dec_fields [FU64 7] (Decoder.NewDec [x00; x00; x00])).2 <> None.
Proof.
  apply (proj2 (proj2 (decoder_fails_closed [FU64 7] [x00; x00; x00]))
           [x00; x00; x00; x00; x07]).
  - repeat constructor; vm_compute; congruence.
  - discriminate.
  - vm_compute. reflexivity.
Defined.
