(* ===== verification/Decimal.v ===== *)
(** * Decimal numbers

    The parts of [fmt] and [strconv] the engine's file names and manifest go
    through: [%d], [%010d] and [strconv.ParseUint(s, 10, bits)]. *)

From S2P Require Import Prelude Bytes.

Local Open Scope Z_scope.

Definition digit (d : Z) : byte := Z_byte (48 + d).

(** [%d] of a non-negative integer; [fuel] bounds the number of digits, and
    twenty are enough for every [uint64]. *)
Fixpoint digits (fuel : nat) (v : Z) : bytes :=
  match fuel with
  | O => []
  | S fuel' => if v <? 10 then [digit v] else digits fuel' (v / 10) ++ [digit (v mod 10)]
  end.

Definition format_uint (v : Z) : bytes := digits 20 v.

(** [%010d]. *)
Definition format_pad10 (v : Z) : bytes :=
  let s := format_uint v in replicate (10 - length s) (digit 0) ++ s.

(** The digit loop of [ParseUint], on values up to [max]. *)
Fixpoint parse_digits (max acc : Z) (s : bytes) : option Z :=
  match s with
  | [] => Some acc
  | c :: s' =>
      let d := byte_Z c - 48 in
      if (d <? 0) || (9 <? d) then None
      else let n := acc * 10 + d in
           if max <? n then None else parse_digits max n s'
  end.

(** [strconv.ParseUint(s, 10, bits)]; [None] is its error. *)
Definition ParseUint (bits : Z) (s : bytes) : option Z :=
  match s with [] => None | _ => parse_digits (2 ^ bits - 1) 0 s end.

(** ** Lemmas *)

Lemma byte_Z_digit d : 0 <= d <= 9 -> byte_Z (digit d) = 48 + d.
Proof. intros. unfold digit. rewrite byte_Z_byte. apply Z.mod_small. lia. Qed.

Lemma parse_digits_app max acc s t :
  parse_digits max acc (s ++ t) = (n ← parse_digits max acc s; parse_digits max n t).
Proof.
  revert acc. induction s as [|c s IH]; intros acc; simpl; [done|].
  repeat case_goal; auto.
Qed.

Lemma parse_digits_one max acc d : 0 <= d <= 9 -> acc * 10 + d <= max ->
  parse_digits max acc [digit d] = Some (acc * 10 + d).
Proof.
  intros Hd Hm. simpl. rewrite byte_Z_digit by done.
  replace (48 + d - 48) with d by lia.
  destruct (Z.ltb_spec d 0); [lia|]. destruct (Z.ltb_spec 9 d); [lia|].
  destruct (Z.ltb_spec max (acc * 10 + d)); [lia|done].
Qed.

Lemma parse_digits_digits max fuel v :
  0 <= v <= max -> v < 10 ^ Z.of_nat fuel -> parse_digits max 0 (digits fuel v) = Some v.
Proof.
  revert v. induction fuel as [|fuel IH]; intros v Hv Hf; [simpl in *; f_equal; lia|].
  cbn [digits]. destruct (Z.ltb_spec v 10).
  - by rewrite parse_digits_one by lia.
  - assert (Hq : 0 <= v / 10 <= max /\ v / 10 < 10 ^ Z.of_nat fuel).
    { split; [Z.div_mod_to_equations; lia|]. apply Z.div_lt_upper_bound; [lia|].
      rewrite Nat2Z.inj_succ, Z.pow_succ_r in Hf by lia. lia. }
    rewrite parse_digits_app, IH by tauto. cbn [mbind option_bind].
    pose proof (Z.mod_pos_bound v 10 ltac:(lia)). pose proof (Z.div_mod v 10 ltac:(lia)).
    rewrite parse_digits_one by lia. f_equal. lia.
Qed.

Lemma parse_digits_zeros max n s : 0 <= max ->
  parse_digits max 0 (replicate n (digit 0) ++ s) = parse_digits max 0 s.
Proof.
  intros Hm. induction n as [|n IH]; [done|].
  change (replicate (S n) (digit 0) ++ s) with ([digit 0] ++ (replicate n (digit 0) ++ s)).
  rewrite parse_digits_app, parse_digits_one by lia. cbn [mbind option_bind]. exact IH.
Qed.

Lemma digits_nonempty fuel v : digits (S fuel) v <> [].
Proof. cbn [digits]. destruct (v <? 10); [done|]. by intros [_ ?]%app_eq_nil. Qed.

Lemma ParseUint_format bits v : 0 <= v < 2 ^ bits -> v < 10 ^ 20 ->
  ParseUint bits (format_uint v) = Some v.
Proof.
  intros. unfold ParseUint. destruct (format_uint v) eqn:E.
  - by apply digits_nonempty in E.
  - rewrite <- E. apply parse_digits_digits; lia.
Qed.

Lemma ParseUint_pad10 bits v : 0 <= v < 2 ^ bits -> v < 10 ^ 20 ->
  ParseUint bits (format_pad10 v) = Some v.
Proof.
  intros. unfold ParseUint, format_pad10. destruct (_ ++ _) eqn:E.
  - apply app_eq_nil in E as [_ E]. by apply digits_nonempty in E.
  - rewrite <- E, parse_digits_zeros by lia. apply parse_digits_digits; lia.
Qed.

Lemma parse_digits_range mx acc s n : 0 <= acc <= mx ->
  parse_digits mx acc s = Some n -> 0 <= n <= mx.
Proof.
  revert acc. induction s as [|c s IH]; intros acc Hacc; simpl; [by intros [= <-]|].
  destruct (_ || _) eqn:E; [done|]. apply orb_false_elim in E as [E1 E2].
  destruct (Z.ltb_spec mx (acc * 10 + (byte_Z c - 48))); [done|].
  reflect_bools. apply IH. lia.
Qed.

(** Only digits are printed: in particular no dot, newline or equals sign. *)
Lemma digits_digit fuel v c : 0 <= v -> c ∈ digits fuel v -> 48 <= byte_Z c <= 57.
Proof.
  revert v. induction fuel as [|fuel IH]; intros v Hv; cbn [digits].
  - by intros ?%not_elem_of_nil.
  - destruct (Z.ltb_spec v 10).
    + intros ->%list_elem_of_singleton. rewrite byte_Z_digit by lia. lia.
    + intros [Hc| ->%list_elem_of_singleton]%elem_of_app.
      * apply (IH (v / 10)); [|done]. Z.div_mod_to_equations; lia.
      * pose proof (Z.mod_pos_bound v 10 ltac:(lia)). rewrite byte_Z_digit by lia. lia.
Qed.

Lemma format_uint_digit v c : 0 <= v -> c ∈ format_uint v -> 48 <= byte_Z c <= 57.
Proof. apply digits_digit. Qed.

Lemma format_pad10_inj v w : 0 <= v < 2 ^ 32 -> 0 <= w < 2 ^ 32 ->
  format_pad10 v = format_pad10 w -> v = w.
Proof.
  intros Hv Hw H. pose proof (ParseUint_pad10 32 v Hv ltac:(lia)) as H1.
  rewrite H, ParseUint_pad10 in H1 by lia. congruence.
Qed.

Example format_pad10_ex : format_pad10 42 = Z_byte <$> [48; 48; 48; 48; 48; 48; 48; 48; 52; 50].
Proof. vm_compute. reflexivity. Qed.
