(* ===== verification/Datafile.v ===== *)
(** * Data files, hint files and the directory (internal/engine/datafile.go)

    The index [entry], the file names, and the operations on data and hint
    files.  The data directory is a finite map from file names to files; every
    system call goes through a fault oracle, so that each error branch of the
    source is a behaviour of the model: the head of [w_faults] decides whether
    the next call fails, and for a write how many bytes reached the file first.
    An exhausted oracle means no further failure. *)

From S2P Require Import Prelude Bytes Record Decimal.

Local Open Scope Z_scope.
Local Open Scope gokv_scope.

Definition str (s : string) : bytes := String.list_byte_of_string s.
#[global] Arguments str s%_string.

(** ** Errors of the engine *)

Inductive error :=
| ErrKeyNotFound | ErrClosed | ErrEmptyKey | ErrKeyTooLarge | ErrValueTooLong
| ErrBatchLen | ErrLocked | ErrNeedFullSync
| errFileGone                       (* engine: data file was compacted away *)
| ErrRace                           (* engine: read lost a race with compaction *)
| ErrSeqMismatch (want got : Z)     (* engine: index points at seq ... *)
| ErrRecord (e : record_error)      (* ErrCorrupt and errShort of record.go *)
| ErrHint                           (* a hint file that does not parse *)
| ErrNotExist | ErrExist | ErrEOF   (* os.ErrNotExist, os.ErrExist, io.EOF *)
| ErrIO                             (* any other failure of a system call *)
| ErrNoDir                          (* engine: Dir is required *)
| ErrPanic                          (* a nil dereference: the goroutine panics *)
| ErrCallback (n : Z).              (* an error returned by a caller's callback *)

#[global] Instance error_eq_dec : EqDecision error.
Proof. solve_decision. Defined.

(** ** The index entry *)

Record entry := mkEntry {
  e_pos : Z;
  e_seq : Z;
  e_fileID : Z;
  e_size : Z;
  e_tomb : bool
}.

#[global] Instance entry_eq_dec : EqDecision entry.
Proof. solve_decision. Defined.

Definition entry_zero : entry := mkEntry 0 0 0 0 false.
Definition set_tomb (tomb : bool) (e : entry) : entry :=
  mkEntry (e_pos e) (e_seq e) (e_fileID e) (e_size e) tomb.

(** ** The file system under the data directory *)

(** [f_synced] is the length of the prefix known to be on stable storage. *)
Record file := mkFile { f_data : bytes; f_synced : Z }.

(** [w_locked]: some process holds the flock on the directory's LOCK file. *)
Record world := mkWorld {
  w_fs : gmap bytes file;
  w_faults : list (option nat);
  w_locked : bool
}.

Definition wio (A : Type) : Type := sm world error A.

Definition set_fs (f : gmap bytes file -> gmap bytes file) (w : world) : world :=
  mkWorld (f (w_fs w)) (w_faults w) (w_locked w).

(** Consult the oracle: [None] lets the next call succeed, [Some k] makes it
    fail, after [k] bytes where it writes. *)
Definition next_fault : wio (option nat) := fun w =>
  match w_faults w with
  | [] => (Ok None, w)
  | f :: fs => (Ok f, mkWorld (w_fs w) fs (w_locked w))
  end.

(** A call that either fails or does [m]. *)
Definition syscall {A} (m : wio A) : wio A :=
  f <- next_fault;; match f with Some _ => sm_throw ErrIO | None => m end.

Definition lookup_file (name : bytes) : wio file := fun w =>
  match w_fs w !! name with Some f => (Ok f, w) | None => (Err ErrNotExist, w) end.
Definition store_file (name : bytes) (f : file) : wio unit :=
  sm_modify (set_fs <[name := f]>).

(** [os.OpenFile] with [O_CREATE|O_EXCL], and with [O_CREATE|O_TRUNC]. *)
Definition fs_create_excl (name : bytes) : wio unit :=
  syscall (w <- sm_get;;
    match w_fs w !! name with
    | Some _ => sm_throw ErrExist
    | None => store_file name (mkFile [] 0)
    end).
Definition fs_create_trunc (name : bytes) : wio unit :=
  syscall (store_file name (mkFile [] 0)).

(** Overwrite [data] from [off] on, extending it (a gap reads as zeros). *)
Definition write_bytes (off : Z) (buf data : bytes) : bytes :=
  let o := Z.to_nat off in
  splice o buf (data ++ replicate (o - length data) x00).

(** [f.WriteAt]: a failing write leaves the bytes written before the failure. *)
Definition fs_write_at (name : bytes) (buf : bytes) (off : Z) : wio unit :=
  f <- lookup_file name;;
  flt <- next_fault;;
  match flt with
  | None => store_file name (mkFile (write_bytes off buf (f_data f)) (Z.min off (f_synced f)))
  | Some k =>
      store_file name (mkFile (write_bytes off (take k buf) (f_data f))
                              (Z.min off (f_synced f)));;;
      sm_throw ErrIO
  end.

(** [f.ReadAt]: fails with [io.EOF] when the file is shorter than asked, and
    on a negative offset; an empty buffer reads nothing. *)
Definition fs_read_at (name : bytes) (n off : Z) : wio bytes :=
  syscall (f <- lookup_file name;;
    if off <? 0 then sm_throw ErrIO
    else if n =? 0 then sm_ret []
    else if zlen (f_data f) <? off + n then sm_throw ErrEOF
    else sm_ret (slice (Z.to_nat off) (Z.to_nat (off + n)) (f_data f))).

Definition fs_truncate (name : bytes) (n : Z) : wio unit :=
  syscall (f <- lookup_file name;;
    store_file name (mkFile (take (Z.to_nat n) (f_data f)) (Z.min n (f_synced f)))).

Definition fs_sync (name : bytes) : wio unit :=
  syscall (f <- lookup_file name;;
    store_file name (mkFile (f_data f) (zlen (f_data f)))).

Definition fs_remove (name : bytes) : wio unit :=
  syscall (_ <- lookup_file name;; sm_modify (set_fs (delete name))).

Definition fs_rename (old new : bytes) : wio unit :=
  syscall (f <- lookup_file old;; sm_modify (set_fs (fun m => <[new := f]> (delete old m)))).

(** [os.Open], and [os.OpenFile] without a create flag. *)
Definition fs_open (name : bytes) : wio unit :=
  syscall (_ <- lookup_file name;; sm_ret tt).

(** Reading a file through a buffered reader from its start: what can be read,
    and whether the bytes end in a read error rather than the end of the file. *)
Definition fs_read_stream (name : bytes) : wio (bytes * bool) :=
  f <- lookup_file name;;
  flt <- next_fault;;
  match flt with
  | None => sm_ret (f_data f, false)
  | Some k => sm_ret (take k (f_data f), true)
  end.

Definition fs_read_file (name : bytes) : wio bytes :=
  syscall (f <- lookup_file name;; sm_ret (f_data f)).

Definition fs_stat_size (name : bytes) : wio Z :=
  syscall (f <- lookup_file name;; sm_ret (zlen (f_data f))).

Definition fs_read_dir : wio (list bytes) :=
  syscall (w <- sm_get;; sm_ret (elements (dom (w_fs w)))).

(** [syncDir]: directory entries are taken to be durable once created. *)
Definition syncDir : wio unit := syscall (sm_ret tt).

(** ** File names *)

Definition dataSuffix : bytes := str ".data".
Definition hintSuffix : bytes := str ".hint".
Definition hintMagic : bytes := str "GOKVHNT1".
Definition hintHeaderSize : nat := 25.

Definition dataPath (id : Z) : bytes := format_pad10 id ++ dataSuffix.
Definition hintPath (id : Z) : bytes := format_pad10 id ++ hintSuffix.

(** [strings.HasSuffix] and [strings.TrimSuffix]. *)
Definition has_suffix (s suf : bytes) : bool :=
  (length suf <=? length s)%nat && bool_decide (drop (length s - length suf) s = suf).
Definition trim_suffix (s suf : bytes) : bytes :=
  if has_suffix s suf then take (length s - length suf) s else s.

(** ** Data files *)

(** [df_size] is the append offset; [df_write] whether the handle was opened
    for writing, [df_open] whether it is still open. *)
Record datafile := mkDatafile { df_id : Z; df_size : Z; df_write : bool; df_open : bool }.

Definition df_set_size (n : Z) (d : datafile) : datafile :=
  mkDatafile (df_id d) n (df_write d) (df_open d).
Definition df_close (d : datafile) : datafile :=
  mkDatafile (df_id d) (df_size d) (df_write d) false.

Definition createDataFile (id : Z) : wio datafile :=
  fs_create_excl (dataPath id);;; sm_ret (mkDatafile id 0 true true).

Definition openDataFile (id : Z) (write : bool) : wio datafile :=
  fs_open (dataPath id);;;
  sz <- fs_stat_size (dataPath id);;
  sm_ret (mkDatafile id sz write true).

(** The handle's operations: a closed handle, or one opened read-only where
    the call writes, makes them fail. *)
Definition df_guard {A} (b : bool) (m : wio A) : wio A := if b then m else sm_throw ErrIO.
Definition df_readAt (d : datafile) (n off : Z) : wio bytes :=
  df_guard (df_open d) (fs_read_at (dataPath (df_id d)) n off).
Definition df_writeAt (d : datafile) (buf : bytes) (off : Z) : wio unit :=
  df_guard (df_open d && df_write d) (fs_write_at (dataPath (df_id d)) buf off).
Definition df_truncate (d : datafile) (n : Z) : wio unit :=
  df_guard (df_open d && df_write d) (fs_truncate (dataPath (df_id d)) n).
Definition df_sync (d : datafile) : wio unit :=
  df_guard (df_open d) (fs_sync (dataPath (df_id d))).

(** [scanFile] on the data file [id]: a failure to open it is returned; a read
    error later on ends the scan as the end of the file would.  The callback
    has its own state and may use the directory. *)
Definition scanDataFile {T} (id : Z) (fn : Z -> bytes -> record -> sm (T * world) error unit)
  (t : T) : wio ((Z * option error) * T) :=
  fun w => match fs_open (dataPath id) w with
           | (Err e, w') => (Ok ((0, Some e), t), w')
           | (Ok _, w') =>
               match fs_read_stream (dataPath id) w' with
               | (Err e, w'') => (Ok ((0, Some e), t), w'')
               | (Ok (data, _), w'') =>
                   let out := scanFile data fn (t, w'') in
                   (Ok (out.1, out.2.1), out.2.2)
               end
           end.

Definition readRecord (d : datafile) (e : entry) : wio (record * bytes) :=
  buf <- df_readAt d (e_size e) (e_pos e);;
  match decodeRecord buf with
  | Err x => sm_throw (ErrRecord x)
  | Ok rec => sm_ret (rec, buf)
  end.

(** The ids a listing of names contains, ascending. *)
Definition data_id (name : bytes) : option Z :=
  if has_suffix name dataSuffix then ParseUint 32 (trim_suffix name dataSuffix) else None.

Definition listDataFiles : wio (list Z) :=
  names <- fs_read_dir;; sm_ret (merge_sort Z.le (omap data_id names)).

(** ** Hint files *)

(** The writer: [hw_buf] is what has been handed to the buffered writer. *)
Record hintWriter := mkHintWriter { hw_buf : bytes; hw_tmp : bytes; hw_dest : bytes }.

Definition hw_abort (h : hintWriter) : wio unit := sm_ignore (fs_remove (hw_tmp h)).

Definition newHintWriter (id : Z) : wio hintWriter :=
  let dest := hintPath id in
  let tmp := dest ++ str ".tmp" in
  fs_create_trunc tmp;;;
  f <- next_fault;;
  match f with
  | Some _ => sm_ignore (fs_remove tmp);;; sm_throw ErrIO
  | None => sm_ret (mkHintWriter hintMagic tmp dest)
  end.

(** One hint record: seq, flags, pos, size, key length, key. *)
Definition hint_header (e : entry) (flags : byte) (key : bytes) : bytes :=
  le_put 8 (e_seq e) ++ [flags] ++ le_put 8 (u64 (e_pos e)) ++
  le_put 4 (e_size e) ++ le_put 4 (u32 (zlen key)).

Definition hw_add (key : bytes) (e : entry) (flags : byte) (h : hintWriter) : wio hintWriter :=
  syscall (sm_ret tt);;;
  syscall (sm_ret (mkHintWriter (hw_buf h ++ hint_header e flags key ++ key)
                                (hw_tmp h) (hw_dest h))).

(** [commit]: flush, fsync, close, rename; a failure removes the temporary. *)
Definition hw_commit (h : hintWriter) : wio unit :=
  sm_catch (fs_write_at (hw_tmp h) (hw_buf h) 0) (fun e => hw_abort h;;; sm_throw e);;;
  sm_catch (fs_sync (hw_tmp h)) (fun e => hw_abort h;;; sm_throw e);;;
  sm_catch (syscall (sm_ret tt)) (fun e => sm_ignore (fs_remove (hw_tmp h));;; sm_throw e);;;
  fs_rename (hw_tmp h) (hw_dest h).

Section read_hint.
Context {S : Type} (fn : bytes -> entry -> byte -> S -> S).

(** The record loop of [readHint]; the length of the file is enough fuel. *)
Fixpoint hint_loop (fuel : nat) (id : Z) (rest : bytes) (s : S) : result error unit * S :=
  match fuel with
  | O => (Ok tt, s)
  | Datatypes.S fuel' =>
      if zlen rest =? 0 then (Ok tt, s)
      else if (length rest <? hintHeaderSize)%nat then (Err ErrHint, s)
      else
        let hdr := take hintHeaderSize rest in
        let rest := drop hintHeaderSize rest in
        let keyLen := le_get (slice 21 25 hdr) in
        if (keyLen =? 0) || (MaxKeySize <? keyLen) then (Err ErrHint, s)
        else if zlen rest <? keyLen then (Err ErrHint, s)
        else
          let key := take (Z.to_nat keyLen) rest in
          let e := {| e_seq := le_get (slice 0 8 hdr);
                      e_pos := i64 (le_get (slice 9 17 hdr));
                      e_size := le_get (slice 17 21 hdr);
                      e_fileID := id;
                      e_tomb := false |} in
          hint_loop fuel' id (drop (Z.to_nat keyLen) rest) (fn key e (nth 8 hdr x00) s)
  end.

Definition hint_parse (id : Z) (data : bytes) (s : S) : result error unit * S :=
  if bool_decide (take 8 data = hintMagic)
  then hint_loop (Datatypes.S (length data)) id (drop 8 data) s
  else (Err ErrHint, s).

(** [readHint]: opening the file may fail; then its contents are replayed
    into [s], the caller's accumulator; a read error part way through is
    returned after what precedes it has been replayed. *)
Definition readHint (id : Z) (s : S) : wio (result error unit * S) :=
  fun w => match fs_open (hintPath id) w with
           | (Err e, w') => (Ok (Err e, s), w')
           | (Ok _, w') =>
               match fs_read_stream (hintPath id) w' with
               | (Err e, w'') => (Ok (Err e, s), w'')
               | (Ok (data, failed), w'') =>
                   let out := hint_parse id data s in
                   (Ok (if failed then (Err ErrIO, out.2) else out), w'')
               end
           end.
End read_hint.

(** [removeOrphanHints]: which names it deletes, and the loop over them. *)
Definition orphan_hint (dataIDs : list Z) (name : bytes) : bool :=
  if has_suffix name (hintSuffix ++ str ".tmp") then true
  else if has_suffix name hintSuffix then
    match ParseUint 32 (trim_suffix name hintSuffix) with
    | None => true
    | Some n => negb (bool_decide (n ∈ dataIDs))
    end
  else false.

Fixpoint remove_all (names : list bytes) : wio unit :=
  match names with
  | [] => sm_ret tt
  | n :: ns => sm_ignore (fs_remove n);;; remove_all ns
  end.

Definition removeOrphanHints (dataIDs : list Z) : wio unit :=
  names <- fs_read_dir;;
  remove_all (filter (fun n => orphan_hint dataIDs n = true) names).

Definition hintExists (id : Z) : wio bool := fun w =>
  match fs_stat_size (hintPath id) w with
  | (Ok _, w') => (Ok true, w')
  | (Err _, w') => (Ok false, w')
  end.

(** ** System calls under the fault oracle *)

(** [w'] is [w] with the files [fs], some faults later. *)
Definition to_fs (fs : gmap bytes file) (w w' : world) : Prop :=
  w_fs w' = fs /\ w_locked w' = w_locked w /\ (w_faults w = [] -> w_faults w' = []).
Definition advance (w w' : world) : Prop := to_fs (w_fs w) w w'.

(** The faults have stopped. *)
Definition heal (w : world) : world := mkWorld (w_fs w) [] (w_locked w).

Lemma wp_next_fault (Q : option nat -> world -> Prop) X w :
  (forall w', advance w w' -> Q None w') ->
  (w_faults w <> [] -> forall k w', advance w w' -> Q (Some k) w') ->
  wp next_fault Q X w.
Proof.
  intros H0 H1. unfold wp, next_fault. destruct (w_faults w) as [|[k|] fs] eqn:E.
  - apply H0. unfold advance, to_fs; simpl; intuition congruence.
  - apply H1; [done|]. unfold advance, to_fs; simpl; intuition congruence.
  - apply H0. unfold advance, to_fs; simpl; intuition congruence.
Qed.

Lemma wp_syscall {A} (m : wio A) Q X w :
  (forall w', advance w w' -> wp m Q X w') ->
  (w_faults w <> [] -> forall w', advance w w' -> X ErrIO w') ->
  wp (syscall m) Q X w.
Proof.
  intros H0 H1. apply wp_bind, wp_next_fault; [exact H0|].
  intros Hf k w' Hw. by apply wp_throw, H1.
Qed.

Lemma wp_lookup_file name Q X w :
  (forall f, w_fs w !! name = Some f -> Q f w) ->
  (w_fs w !! name = None -> X ErrNotExist w) ->
  wp (lookup_file name) Q X w.
Proof. intros H0 H1. unfold wp, lookup_file. destruct (w_fs w !! name); auto. Qed.

Lemma wp_store_file name f Q X w :
  Q tt (set_fs <[name := f]> w) -> wp (store_file name f) Q X w.
Proof. done. Qed.

Lemma to_fs_trans fs fs' w w1 w2 : to_fs fs w w1 -> to_fs fs' w1 w2 -> to_fs fs' w w2.
Proof. unfold to_fs. intuition congruence. Qed.
Lemma to_fs_self w : to_fs (w_fs w) w w.
Proof. by unfold to_fs. Qed.
Lemma to_fs_faults fs w w' : to_fs fs w w' -> w_faults w' <> [] -> w_faults w <> [].
Proof. unfold to_fs. tauto. Qed.

(** The outcome of each call on a file that exists: it succeeds, or there was a
    fault and it fails, leaving what the call leaves behind. *)
Section calls.
Context (Q0 : unit -> world -> Prop) (X : error -> world -> Prop) (w : world).
Hypothesis HX : w_faults w <> [] -> forall w', advance w w' -> X ErrIO w'.

Lemma wp_fs_create_trunc name :
  (forall w', to_fs (<[name := mkFile [] 0]> (w_fs w)) w w' -> Q0 tt w') ->
  wp (fs_create_trunc name) Q0 X w.
Proof.
  intros H. apply wp_syscall; [|exact HX]. intros w' Hw. apply wp_store_file, H.
  revert Hw. unfold advance, to_fs. simpl. intuition congruence.
Qed.

Lemma wp_fs_create_excl name :
  (w_fs w !! name = None ->
   forall w', to_fs (<[name := mkFile [] 0]> (w_fs w)) w w' -> Q0 tt w') ->
  (is_Some (w_fs w !! name) -> forall w', advance w w' -> X ErrExist w') ->
  wp (fs_create_excl name) Q0 X w.
Proof.
  intros H HE. apply wp_syscall; [|exact HX]. intros w' Hw. apply wp_bind, wp_get.
  destruct (w_fs w' !! name) eqn:E.
  - apply wp_throw, HE; [|done]. destruct Hw as [<- _]. eauto.
  - apply wp_store_file, H; [destruct Hw as [<- _]; done|].
    revert Hw. unfold advance, to_fs. simpl. intuition congruence.
Qed.

Context (name : bytes) (f : file) (Hf : w_fs w !! name = Some f).

Lemma wp_lookup_advance {A} (k : file -> wio A) Q w' : advance w w' ->
  wp (k f) Q X w' -> wp (sm_bind (lookup_file name) k) Q X w'.
Proof using Hf.
  intros Hw Hk. apply wp_bind, wp_lookup_file; destruct Hw as [-> _]; congruence.
Qed.

Lemma wp_syscall_file {A} (k : file -> wio A) Q :
  (forall w', advance w w' -> wp (k f) Q X w') ->
  wp (syscall (sm_bind (lookup_file name) k)) Q X w.
Proof using Hf HX. intros H. apply wp_syscall; eauto using wp_lookup_advance. Qed.

Lemma wp_fs_sync :
  (forall w', to_fs (<[name := mkFile (f_data f) (zlen (f_data f))]> (w_fs w)) w w' -> Q0 tt w') ->
  wp (fs_sync name) Q0 X w.
Proof using Hf HX.
  intros H. apply wp_syscall_file. intros w' Hw. apply wp_store_file, H.
  revert Hw. unfold advance, to_fs. simpl. intuition congruence.
Qed.

Lemma wp_fs_truncate n :
  (forall w', to_fs (<[name := mkFile (take (Z.to_nat n) (f_data f)) (Z.min n (f_synced f))]>
                (w_fs w)) w w' -> Q0 tt w') ->
  wp (fs_truncate name n) Q0 X w.
Proof using Hf HX.
  intros H. apply wp_syscall_file. intros w' Hw. apply wp_store_file, H.
  revert Hw. unfold advance, to_fs. simpl. intuition congruence.
Qed.

Lemma wp_fs_remove :
  (forall w', to_fs (delete name (w_fs w)) w w' -> Q0 tt w') ->
  wp (fs_remove name) Q0 X w.
Proof using Hf HX.
  intros H. apply wp_syscall_file. intros w' Hw. apply wp_modify, H.
  revert Hw. unfold advance, to_fs. simpl. intuition congruence.
Qed.

Lemma wp_fs_rename new :
  (forall w', to_fs (<[new := f]> (delete name (w_fs w))) w w' -> Q0 tt w') ->
  wp (fs_rename name new) Q0 X w.
Proof using Hf HX.
  intros H. apply wp_syscall_file. intros w' Hw. apply wp_modify, H.
  revert Hw. unfold advance, to_fs. simpl. intuition congruence.
Qed.

Lemma wp_fs_open :
  (forall w', advance w w' -> Q0 tt w') -> wp (fs_open name) Q0 X w.
Proof using Hf HX. intros H. apply wp_syscall_file. intros w' Hw. by apply wp_ret, H. Qed.

Lemma wp_fs_stat_size Q :
  (forall w', advance w w' -> Q (zlen (f_data f)) w') -> wp (fs_stat_size name) Q X w.
Proof using Hf HX. intros H. apply wp_syscall_file. intros w' Hw. by apply wp_ret, H. Qed.

Lemma wp_fs_read_file Q :
  (forall w', advance w w' -> Q (f_data f) w') -> wp (fs_read_file name) Q X w.
Proof using Hf HX. intros H. apply wp_syscall_file. intros w' Hw. by apply wp_ret, H. Qed.

Lemma wp_fs_read_at n off Q :
  0 <= off -> 0 < n -> off + n <= zlen (f_data f) ->
  (forall w', advance w w' ->
     Q (slice (Z.to_nat off) (Z.to_nat (off + n)) (f_data f)) w') ->
  wp (fs_read_at name n off) Q X w.
Proof using Hf HX.
  intros Ho Hn Hl H. apply wp_syscall_file. intros w' Hw.
  destruct (Z.ltb_spec off 0); [lia|]. destruct (Z.eqb_spec n 0); [lia|].
  destruct (Z.ltb_spec (zlen (f_data f)) (off + n)); [lia|]. by apply wp_ret, H.
Qed.
End calls.

Lemma wp_fs_write_at name buf off f Q X w : w_fs w !! name = Some f ->
  (forall w', to_fs (<[name := mkFile (write_bytes off buf (f_data f)) (Z.min off (f_synced f))]>
                (w_fs w)) w w' -> Q tt w') ->
  (w_faults w <> [] -> forall k w',
     to_fs (<[name := mkFile (write_bytes off (take k buf) (f_data f)) (Z.min off (f_synced f))]>
                (w_fs w)) w w' -> X ErrIO w') ->
  wp (fs_write_at name buf off) Q X w.
Proof.
  intros Hf H HX. apply wp_bind, wp_lookup_file; [|congruence]. intros f' Hf'.
  simplify_eq. apply wp_bind, wp_next_fault.
  - intros w' Hw. apply wp_store_file, H. revert Hw. unfold advance, to_fs. simpl.
    intuition congruence.
  - intros Hn k w' Hw. apply wp_bind, wp_store_file, wp_throw, (HX Hn k).
    revert Hw. unfold advance, to_fs. simpl. intuition congruence.
Qed.

Lemma wp_syncDir Q X w :
  (forall w', advance w w' -> Q tt w') ->
  (w_faults w <> [] -> forall w', advance w w' -> X ErrIO w') -> wp syncDir Q X w.
Proof. intros H HX. apply wp_syscall; [|exact HX]. intros w' Hw. by apply wp_ret, H. Qed.

(** A removal whose error is ignored: the file goes, or stays. *)
Lemma wp_remove_ignored name Q X w :
  (forall w', advance w w' -> Q tt w') ->
  (forall w', to_fs (delete name (w_fs w)) w w' -> Q tt w') ->
  wp (sm_ignore (fs_remove name)) Q X w.
Proof.
  intros H0 H1. apply wp_ignore, wp_syscall; [|auto]. intros w' Hw.
  apply wp_bind, wp_lookup_file.
  - intros f Hf. apply wp_modify, H1. revert Hw. unfold advance, to_fs. simpl.
    intuition congruence.
  - intros _. by apply H0.
Qed.

(** ** File names *)

Lemma has_suffix_app s suf : has_suffix (s ++ suf) suf = true.
Proof.
  unfold has_suffix. apply andb_true_intro. split.
  - apply Nat.leb_le. rewrite length_app. lia.
  - apply bool_decide_eq_true. apply drop_app_length'. rewrite length_app. lia.
Qed.

Lemma trim_suffix_app s suf : trim_suffix (s ++ suf) suf = s.
Proof.
  unfold trim_suffix. rewrite has_suffix_app. apply take_app_length'.
  rewrite length_app. lia.
Qed.

(** Listing a directory finds each data file under its own id. *)
Lemma data_id_dataPath id : is_u32 id -> data_id (dataPath id) = Some id.
Proof.
  intros Hid. unfold data_id, dataPath. rewrite has_suffix_app, trim_suffix_app.
  apply ParseUint_pad10; unfold is_u32 in Hid; lia.
Qed.

Lemma dataPath_inj id id' : is_u32 id -> is_u32 id' -> dataPath id = dataPath id' -> id = id'.
Proof.
  intros H H' E. apply (f_equal data_id) in E. rewrite !data_id_dataPath in E by done.
  congruence.
Qed.

(** The names of the different kinds of file never coincide: they end in
    different letters. *)
Lemma dataPath_hintPath id id' : dataPath id <> hintPath id'.
Proof.
  intros E%(f_equal last). unfold dataPath, hintPath in E. rewrite !last_app in E.
  vm_compute in E. discriminate.
Qed.

(** Writing at the end of a prefix of the file. *)
Lemma write_bytes_at p tl buf off : off = zlen p ->
  write_bytes off buf (p ++ tl) = p ++ buf ++ drop (length buf) tl.
Proof.
  intros ->. unfold write_bytes, splice. rewrite zlen_to_nat.
  replace (length p - length (p ++ tl))%nat with 0%nat by (rewrite length_app; lia).
  rewrite app_nil_r, take_app_length, drop_app_ge by lia.
  do 3 f_equal. lia.
Qed.

(** ** Steps that touch one file *)

(** Nothing but the file [tmp] differs, and a failure came from a fault. *)
Definition only_at (tmp : bytes) (w w' : world) : Prop :=
  (forall name, name <> tmp -> w_fs w' !! name = w_fs w !! name) /\
  (w_faults w = [] -> w_faults w' = []).

Lemma only_at_self tmp w : only_at tmp w w.
Proof. done. Qed.

Lemma only_at_step tmp fs w w1 w2 : only_at tmp w w1 -> to_fs fs w1 w2 ->
  (forall name, name <> tmp -> fs !! name = w_fs w1 !! name) -> only_at tmp w w2.
Proof.
  intros [Hfs Hflt] (Efs & _ & Hf) Hother. split; [|auto].
  intros name Hn. by rewrite Efs, Hother, Hfs.
Qed.

Lemma only_at_advance tmp w w1 w2 : only_at tmp w w1 -> advance w1 w2 -> only_at tmp w w2.
Proof. intros H Hw. by eapply only_at_step. Qed.
Lemma only_at_insert tmp f w w1 w2 :
  only_at tmp w w1 -> to_fs (<[tmp := f]> (w_fs w1)) w1 w2 -> only_at tmp w w2.
Proof. intros H Hw. eapply only_at_step; [done..|]. intros. by rewrite lookup_insert_ne. Qed.
Lemma only_at_delete tmp w w1 w2 :
  only_at tmp w w1 -> to_fs (delete tmp (w_fs w1)) w1 w2 -> only_at tmp w w2.
Proof. intros H Hw. eapply only_at_step; [done..|]. intros. by rewrite lookup_delete_ne. Qed.
Lemma only_at_faults tmp w w1 : only_at tmp w w1 -> w_faults w1 <> [] -> w_faults w <> [].
Proof. unfold only_at. tauto. Qed.
Create HintDb files.
#[export] Hint Resolve only_at_advance only_at_insert only_at_delete only_at_faults : files.
#[export] Hint Extern 0 (only_at ?t _ _) =>
  (tryif is_evar t then fail else apply only_at_self) : files.

(** The clean-up of a failed step. *)
Lemma wp_drop_tmp {A} tmp e (Q : A -> world -> Prop) w w1 :
  only_at tmp w w1 -> w_faults w <> [] ->
  wp (sm_ignore (fs_remove tmp);;; sm_throw e) Q
     (fun _ w' => w_faults w <> [] /\ only_at tmp w w') w1.
Proof.
  intros H Hf. apply wp_bind, wp_remove_ignored; intros w2 Hw2; apply wp_throw; eauto with files.
Qed.

Lemma write_bytes_fresh buf : write_bytes 0 buf [] = buf.
Proof.
  unfold write_bytes, splice. simpl. by rewrite skipn_nil, app_nil_r.
Qed.

