(* ===== verification/Hint.v ===== *)
(** * Hint files (the second half of datafile.go, and buildHint of compact.go)

    A hint lists, for each record of a data file, what the index needs.  The
    file is written under a temporary name and renamed into place.  Here: what
    [buildHint] writes, and that [readHint] replays it record for record. *)

From S2P Require Import Prelude Bytes Record Datafile.

Local Open Scope Z_scope.
Local Open Scope gokv_scope.

(** [buildHint]: list every record the scan finds. *)
Definition buildHint (id : Z) : wio unit :=
  hw <- newHintWriter id;;
  out <- scanDataFile id (fun pos raw r hww =>
           let e := {| e_pos := pos; e_seq := r_seq r; e_fileID := id;
                       e_size := u32 (zlen raw); e_tomb := false |} in
           match hw_add (r_key r) e (r_flags r) hww.1 hww.2 with
           | (Ok hw', w') => (Ok tt, (hw', w'))
           | (Err x, w') => (Err x, (hww.1, w'))
           end) hw;;
  match out with
  | ((_, Some e), hw') => hw_abort hw';;; sm_throw e
  | ((_, None), hw') => hw_commit hw';;; syncDir
  end.


(** ** What a hint says *)

(** The records of a log with their offsets. *)
Fixpoint placed (pos : Z) (rs : list record) : list (Z * record) :=
  match rs with
  | [] => []
  | r :: rs' => (pos, r) :: placed (pos + zlen (encode r)) rs'
  end.

Definition hint_entry (id : Z) (p : Z * record) : entry :=
  {| e_pos := p.1; e_seq := r_seq p.2; e_fileID := id; e_size := u32 (zlen (encode p.2));
     e_tomb := false |}.

Definition hint_rec (id : Z) (p : Z * record) : bytes :=
  hint_header (hint_entry id p) (r_flags p.2) (r_key p.2) ++ r_key p.2.

(** The contents of a complete hint for a file with records [rs]. *)
Definition hint_of (id : Z) (rs : list record) : bytes :=
  hintMagic ++ mjoin (hint_rec id <$> placed 0 rs).

(** Replaying a list of placed records. *)
Definition replay {S} (fn : bytes -> entry -> byte -> S -> S) (id : Z) (ps : list (Z * record))
  (s : S) : S :=
  foldl (fun s p => fn (r_key p.2) (hint_entry id p) (r_flags p.2) s) s ps.

(** ** Parsing *)

Lemma length_hint_header e fl k : length (hint_header e fl k) = 25%nat.
Proof. unfold hint_header. rewrite !length_app, !length_le_put. done. Qed.

(** The fields of one hint header. *)
Lemma hint_fields (q f p z n : bytes) :
  length q = 8%nat -> length f = 1%nat -> length p = 8%nat -> length z = 4%nat ->
  length n = 4%nat ->
  let h := q ++ f ++ p ++ z ++ n in
  slice 0 8 h = q /\ slice 8 9 h = f /\ slice 9 17 h = p /\ slice 17 21 h = z /\ slice 21 25 h = n.
Proof.
  intros Hq Hf Hp Hz Hn h. unfold h. repeat split.
  - apply (slice_app_exact []); simpl; lia.
  - apply slice_app_exact; lia.
  - rewrite (app_assoc q f). apply slice_app_exact; len.
  - rewrite (app_assoc q f), (app_assoc (q ++ f) p). apply slice_app_exact; len.
  - rewrite (app_assoc q f), (app_assoc (q ++ f) p), (app_assoc ((q ++ f) ++ p) z).
    rewrite <- (app_nil_r n) at 1. apply slice_app_exact; len.
Qed.

Lemma hint_header_fields e fl k :
  is_u64 (e_seq e) -> is_i64 (e_pos e) -> is_u32 (e_size e) -> zlen k < 2 ^ 32 ->
  let h := hint_header e fl k in
  le_get (slice 0 8 h) = e_seq e /\ nth 8 h x00 = fl /\
  i64 (le_get (slice 9 17 h)) = e_pos e /\ le_get (slice 17 21 h) = e_size e /\
  le_get (slice 21 25 h) = zlen k.
Proof.
  intros Hs Hp Hz Hk h. pose proof (zlen_nonneg k).
  destruct (hint_fields (le_put 8 (e_seq e)) [fl] (le_put 8 (u64 (e_pos e))) (le_put 4 (e_size e))
    (le_put 4 (u32 (zlen k)))) as (E1 & E2 & E3 & E4 & E5); try (by rewrite length_le_put); [done|].
  fold (hint_header e fl k) in E1, E2, E3, E4, E5. fold h in E1, E2, E3, E4, E5.
  rewrite E1, E3, E4, E5, !le_get64_put, !le_get32_put.
  rewrite (u64_small (e_seq e)), (u32_small (e_size e)) by done.
  rewrite (u32_small (zlen k)) by (unfold is_u32; lia).
  rewrite (u32_small (zlen k)) by (unfold is_u32; lia).
  rewrite (u64_small (u64 _)) by apply u64_range. rewrite i64_u64 by done.
  split; [done|]. split; [|done].
  rewrite (slice_nth h 8 x00) in E2; [congruence|]. unfold h. rewrite length_hint_header. lia.
Qed.

(** A record that can be listed: valid, at an offset the format can express. *)
Definition listable (p : Z * record) : Prop := is_i64 p.1 /\ valid_record p.2.

Lemma hint_loop_replay {S} (fn : bytes -> entry -> byte -> S -> S) id ps : forall fuel s,
  Forall listable ps -> (length ps < fuel)%nat ->
  hint_loop fn fuel id (mjoin (hint_rec id <$> ps)) s = (Ok tt, replay fn id ps s).
Proof.
  induction ps as [|[pos r] ps IH]; intros [|fuel] s Hps Hf; simpl in Hf; try lia; [done|].
  apply Forall_cons in Hps as [[Hpos Hr] Hps]. simpl in Hpos, Hr.
  pose proof (valid_sizes r Hr) as [Hk Hv].
  rewrite fmap_cons. cbn [hint_loop mjoin list_join]. set (e := hint_entry id (pos, r)). set (rest := mjoin (hint_rec id <$> ps)).
  set (h := hint_header e (r_flags r) (r_key r)).
  assert (Hh : length h = 25%nat) by apply length_hint_header.
  assert (Hrec : hint_rec id (pos, r) ++ rest = h ++ r_key r ++ rest)
    by (unfold hint_rec; by rewrite <- app_assoc).
  change (list_join (hint_rec id <$> ps)) with rest. rewrite Hrec. clear Hrec.
  destruct (Z.eqb_spec (zlen (h ++ r_key r ++ rest)) 0) as [Hz|_].
  { unfold zlen in Hz. rewrite length_app in Hz. lia. }
  destruct (Nat.ltb_spec (length (h ++ r_key r ++ rest)) hintHeaderSize) as [Hl|_].
  { rewrite length_app in Hl. unfold hintHeaderSize in Hl. lia. }
  rewrite (take_app_length' h), (drop_app_length' h) by done.
  destruct (hint_header_fields e (r_flags r) (r_key r)) as (E1 & E2 & E3 & E4 & E5);
    [apply Hr|done|apply u32_range|lia|]. fold h in E1, E2, E3, E4, E5.
  rewrite E1, E2, E3, E4, E5.
  destruct (Z.eqb_spec (zlen (r_key r)) 0); [lia|].
  destruct (Z.ltb_spec MaxKeySize (zlen (r_key r))) as [Hm|_]; [destruct max_sizes; lia|].
  destruct (Z.ltb_spec (zlen (r_key r ++ rest)) (zlen (r_key r))) as [Hm|_].
  { rewrite zlen_app in Hm. pose proof (zlen_nonneg rest). lia. }
  rewrite zlen_to_nat, take_app_length, drop_app_length. cbn [orb].
  unfold rest. rewrite IH by (done || lia). done.
Qed.

Lemma length_placed pos rs : length (placed pos rs) = length rs.
Proof. revert pos. induction rs; intros; simpl; auto. Qed.

Lemma placed_listable pos rs : 0 <= pos -> pos + zlen (encode_all rs) < 2 ^ 63 ->
  Forall valid_record rs -> Forall listable (placed pos rs).
Proof.
  revert pos. induction rs as [|r rs IH]; intros pos Hp Hl Hv; simpl; [done|].
  apply Forall_cons in Hv as [Hr Hv]. rewrite encode_all_cons, zlen_app in Hl.
  pose proof (zlen_nonneg (encode r)). pose proof (zlen_nonneg (encode_all rs)).
  constructor; [split; [unfold is_i64; simpl; lia|done]|]. apply IH; [lia|lia|done].
Qed.

Lemma hint_parse_of {S} (fn : bytes -> entry -> byte -> S -> S) id rs s :
  Forall valid_record rs -> zlen (encode_all rs) < 2 ^ 63 ->
  hint_parse fn id (hint_of id rs) s = (Ok tt, replay fn id (placed 0 rs) s).
Proof.
  intros Hv Hl. unfold hint_parse, hint_of. rewrite take_app_length', drop_app_length' by done.
  rewrite bool_decide_true by done. apply hint_loop_replay; [by apply placed_listable|].
  rewrite length_app, length_placed.
  assert (Hlen : forall ps, (length ps <= length (mjoin (hint_rec id <$> ps)))%nat).
  { induction ps as [|p ps IH]; [done|]. rewrite fmap_cons. cbn [length].
    change (mjoin (hint_rec id p :: (hint_rec id <$> ps))) with
      (hint_rec id p ++ mjoin (hint_rec id <$> ps)). rewrite length_app.
    assert (1 <= length (hint_rec id p))%nat; [|lia].
    unfold hint_rec. rewrite length_app, length_hint_header. lia. }
  specialize (Hlen (placed 0 rs)). rewrite length_placed in Hlen. lia.
Qed.

(** ** Writing *)

Definition hintTmp (id : Z) : bytes := hintPath id ++ str ".tmp".

Lemma hw_add_wp key e fl h w :
  wp (hw_add key e fl h)
    (fun h' w' => h' = mkHintWriter (hw_buf h ++ hint_header e fl key ++ key) (hw_tmp h) (hw_dest h)
       /\ advance w w')
    (fun _ w' => w_faults w <> [] /\ advance w w') w.
Proof.
  unfold hw_add. apply wp_bind, wp_syscall; [|auto]. intros w1 Hw1. apply wp_ret, wp_syscall.
  - intros w2 Hw2. apply wp_ret. split; [done|].
    unfold advance in *. rewrite (proj1 Hw1) in Hw2. by eapply to_fs_trans.
  - intros Hf w2 Hw2. unfold advance in *. rewrite (proj1 Hw1) in Hw2.
    split; [by eapply to_fs_faults|by eapply to_fs_trans].
Qed.

(** The callback of [buildHint]. *)
Definition hint_cb (id pos : Z) (raw : bytes) (r : record) : sm (hintWriter * world) error unit :=
  fun hww =>
    let e := {| e_pos := pos; e_seq := r_seq r; e_fileID := id; e_size := u32 (zlen raw);
                e_tomb := false |} in
    match hw_add (r_key r) e (r_flags r) hww.1 hww.2 with
    | (Ok hw', w') => (Ok tt, (hw', w'))
    | (Err x, w') => (Err x, (hww.1, w'))
    end.

Lemma visit_hint id rs : forall pos h w,
  let out := visit (hint_cb id) pos rs (h, w) in
  hw_tmp out.2.1 = hw_tmp h /\ hw_dest out.2.1 = hw_dest h /\ advance w out.2.2 /\
  match out.1.2 with
  | None => hw_buf out.2.1 = hw_buf h ++ mjoin (hint_rec id <$> placed pos rs)
  | Some _ => w_faults w <> []
  end.
Proof.
  induction rs as [|r rs IH]; intros pos h w; simpl.
  { rewrite app_nil_r. repeat split; auto. }
  pose proof (hw_add_wp (r_key r) (hint_entry id (pos, r)) (r_flags r) h w) as Hadd.
  unfold wp in Hadd. unfold hint_cb. cbn [fst snd].
  change (mkEntry pos (r_seq r) id (u32 (zlen (encode r))) false) with (hint_entry id (pos, r)).
  destruct (hw_add _ _ _ _ _) as [[h1|x] w1].
  - destruct Hadd as [-> Hw1].
    destruct (IH (pos + zlen (encode r)) (mkHintWriter (hw_buf h ++ hint_header (hint_entry id (pos, r))
      (r_flags r) (r_key r) ++ r_key r) (hw_tmp h) (hw_dest h)) w1) as (Ht & Hd & Hw & Hout).
    split; [done|]. split; [done|]. split.
    { unfold advance in *. rewrite (proj1 Hw1) in Hw. by eapply to_fs_trans. }
    destruct (visit _ _ _ _) as [[p [e|]] hw2]; simpl in *.
    + by eapply to_fs_faults.
    + rewrite Hout. by rewrite <- app_assoc.
  - destruct Hadd as [Hf Hw]. done.
Qed.

(** Committing a finished hint: either it replaces the old one as a whole, or
    only the temporary file differs. *)
Lemma hw_commit_wp h w w0 f :
  only_at (hw_tmp h) w0 w -> w_fs w !! hw_tmp h = Some f -> f_data f = [] ->
  wp (hw_commit h)
    (fun _ w' => (w_faults w0 = [] -> w_faults w' = []) /\
       w_fs w' = <[hw_dest h := mkFile (hw_buf h) (zlen (hw_buf h))]> (delete (hw_tmp h) (w_fs w)))
    (fun _ w' => w_faults w0 <> [] /\ only_at (hw_tmp h) w0 w') w.
Proof.
  intros H0 Hf Hempty. unfold hw_commit. apply wp_bind, wp_catch.
  eapply wp_fs_write_at; [done| |].
  2:{ intros Hn k w1 Hw1. apply (wp_drop_tmp _ _ _ w0); eauto with files. }
  intros w1 Hw1. assert (H1 : only_at (hw_tmp h) w0 w1) by eauto with files.
  rewrite Hempty, write_bytes_fresh in Hw1. apply wp_bind, wp_catch.
  eapply wp_fs_sync; [|rewrite (proj1 Hw1); apply lookup_insert_eq|].
  { intros Hn w2 Hw2. apply (wp_drop_tmp _ _ _ w0); eauto with files. }
  intros w2 Hw2. assert (H2 : only_at (hw_tmp h) w0 w2) by eauto with files.
  rewrite (proj1 Hw1), insert_insert_eq in Hw2. cbn [f_data] in Hw2.
  apply wp_bind, wp_catch, wp_syscall.
  2:{ intros Hn w3 Hw3. apply (wp_drop_tmp _ _ _ w0); eauto with files. }
  intros w3 Hw3. apply wp_ret. assert (H3 : only_at (hw_tmp h) w0 w3) by eauto with files.
  unfold advance in Hw3. rewrite (proj1 Hw2) in Hw3.
  eapply wp_fs_rename; [|rewrite (proj1 Hw3); apply lookup_insert_eq|].
  { intros Hn w4 Hw4. eauto with files. }
  intros w4 Hw4. rewrite (proj1 Hw3), delete_insert_eq in Hw4. split; [|apply Hw4].
  intros Hno. apply Hw4, H3, Hno.
Qed.

(** A file that starts with [rs] and ends in something no scan accepts. *)
Definition log_file (f : file) (rs : list record) : Prop :=
  exists tail, f_data f = encode_all rs ++ tail /\ scan_next tail = None /\ Forall valid_record rs.

Lemma scan_next_prefix t u : scan_next (t ++ u) = None -> scan_next t = None.
Proof.
  intros Hn. destruct (scan_next t) as [[[raw r] rest]|] eqn:E; [|done].
  apply scan_next_inv in E as (-> & _ & Hr). rewrite <- app_assoc, scan_next_encode in Hn by done.
  done.
Qed.

(** What can be read before a read error scans as a prefix of the log. *)
Lemma log_file_take f rs k : log_file f rs ->
  exists rs' tail, take k (f_data f) = encode_all rs' ++ tail /\ scan_next tail = None /\
    rs' `prefix_of` rs.
Proof.
  intros (tail & -> & Ht & Hv). destruct (decide (k <= length (encode_all rs))%nat) as [Hk|Hk].
  - rewrite take_app_le by done. destruct (take_log k rs Hv) as (tail' & -> & Ht').
    exists (whole_records k rs), tail'. split; [done|]. split; [done|]. apply whole_records_prefix.
  - rewrite take_app_ge by lia. exists rs, (take (k - length (encode_all rs)) tail).
    split; [done|]. split; [|done].
    apply (scan_next_prefix _ (drop (k - length (encode_all rs)) tail)). by rewrite take_drop.
Qed.

Lemma prefix_valid rs' rs : rs' `prefix_of` rs -> Forall valid_record rs -> Forall valid_record rs'.
Proof. intros [tl ->] Hv. by apply Forall_app in Hv as [? _]. Qed.

(** [scanDataFile] of a file with log [rs]: the callback visits all of [rs], or
    fewer when a read fails; [Err] only where opening the file fails. *)
Lemma scanDataFile_wp {T} id fn (t : T) w f rs :
  w_fs w !! dataPath id = Some f -> log_file f rs ->
  wp (scanDataFile id fn t)
    (fun out w' => exists w1, advance w w1 /\
       ((exists e, out = ((0, Some e), t) /\ w' = w1 /\ w_faults w <> []) \/
        (exists rs', rs' `prefix_of` rs /\ (w_faults w = [] -> rs' = rs) /\
           visit fn 0 rs' (t, w1) = (out.1, (out.2, w')))))
    (fun _ _ => False) w.
Proof.
  intros Hf Hlog. pose proof Hlog as (tail & Hdata & Htail & Hv). unfold wp, scanDataFile.
  assert (Hopen : wp (fs_open (dataPath id)) (fun _ w' => advance w w')
    (fun e w' => e = ErrIO /\ w_faults w <> [] /\ advance w w') w)
    by (eapply wp_fs_open; eauto). unfold wp in Hopen.
  destruct (fs_open (dataPath id) w) as [[[]|e] w1].
  2:{ destruct Hopen as (-> & Hn & Hw1). exists w1. split; [done|]. left. by exists ErrIO. }
  assert (Hf1 : w_fs w1 !! dataPath id = Some f) by (destruct Hopen as [-> _]; done).
  unfold fs_read_stream, sm_bind, lookup_file. rewrite Hf1.
  assert (Hn : wp next_fault (fun k w2 => advance w1 w2 /\ (k = None \/ w_faults w1 <> []))
    (fun _ _ => False) w1) by (apply wp_next_fault; auto). unfold wp in Hn.
  assert (Hflt : w_faults w1 <> [] -> w_faults w <> []) by (by eapply to_fs_faults).
  assert (Hadv : forall w2, advance w1 w2 -> advance w w2).
  { intros w2 Hw2. unfold advance in *. rewrite (proj1 Hopen) in Hw2. by eapply to_fs_trans. }
  destruct (next_fault w1) as [[[k|]|] w2]; [..|done];
    destruct Hn as [Hw2 Hk]; exists w2; (split; [by apply Hadv|]); right.
  - destruct Hk as [?|Hk]; [done|].
    destruct (log_file_take f rs k Hlog) as (rs' & tail' & -> & Ht' & Hpre).
    exists rs'. split; [done|]. split; [by intros ?%Hflt|].
    rewrite scanFile_visit by (done || by eapply prefix_valid).
    by destruct (visit _ _ _ _) as [[p o] [t' w']].
  - exists rs. split; [done|]. split; [done|]. rewrite Hdata, scanFile_visit by done.
    by destruct (visit _ _ _ _) as [[p o] [t' w']].
Qed.

Lemma dataPath_hintTmp id : dataPath id <> hintTmp id.
Proof.
  intros E%(f_equal last). unfold dataPath, hintTmp in E. rewrite !last_app in E.
  vm_compute in E. discriminate.
Qed.
Lemma hintTmp_dataPath id id' : hintTmp id <> dataPath id'.
Proof.
  intros E%(f_equal last). unfold dataPath, hintTmp in E. rewrite !last_app in E.
  vm_compute in E. discriminate.
Qed.

Lemma hintPath_hintTmp id : hintPath id <> hintTmp id.
Proof.
  intros E%(f_equal length). unfold hintTmp in E. rewrite length_app in E. simpl in E. lia.
Qed.

Lemma hintPath_inj id id' : is_u32 id -> is_u32 id' -> hintPath id = hintPath id' -> id = id'.
Proof.
  intros Hid Hid' E. apply dataPath_inj; [done..|]. unfold hintPath, dataPath in *.
  by apply app_inv_tail in E as ->.
Qed.

Lemma hintTmp_other id id' : hintTmp id <> dataPath id' /\ hintTmp id <> hintPath id'.
Proof.
  split; intros E%(f_equal last); unfold dataPath, hintPath, hintTmp in E; rewrite !last_app in E;
    vm_compute in E; discriminate.
Qed.

Lemma hintTmp_inj id id' : is_u32 id -> is_u32 id' -> hintTmp id = hintTmp id' -> id = id'.
Proof. intros Hid Hid' E. unfold hintTmp in E. apply app_inv_tail in E. by apply hintPath_inj. Qed.

(** The directory after a hint for [rs] has been put in place. *)
Definition with_hint (id : Z) (rs : list record) (fs : gmap bytes file) : gmap bytes file :=
  <[hintPath id := mkFile (hint_of id rs) (zlen (hint_of id rs))]> (delete (hintTmp id) fs).

Lemma newHintWriter_wp id w :
  wp (newHintWriter id)
    (fun h w' => h = mkHintWriter hintMagic (hintTmp id) (hintPath id) /\
       only_at (hintTmp id) w w' /\ w_fs w' !! hintTmp id = Some (mkFile [] 0))
    (fun _ w' => w_faults w <> [] /\ only_at (hintTmp id) w w') w.
Proof.
  unfold newHintWriter. fold (hintTmp id).
  apply wp_bind, wp_fs_create_trunc; [eauto with files|]. intros w1 Hw1.
  assert (H1 : only_at (hintTmp id) w w1) by eauto with files.
  apply wp_bind, wp_next_fault.
  - intros w2 Hw2. apply wp_ret. split; [done|]. split; [eauto with files|].
    rewrite (proj1 Hw2), (proj1 Hw1). apply lookup_insert_eq.
  - intros Hn k w2 Hw2. apply (wp_drop_tmp (hintTmp id) ErrIO _ w); eauto with files.
Qed.

Lemma only_at_absorb tmp w w' k f : only_at tmp w w' ->
  <[k := f]> (delete tmp (w_fs w')) = <[k := f]> (delete tmp (w_fs w)).
Proof.
  intros [Hsame _]. f_equal. apply map_eq. intros name. destruct (decide (name = tmp)) as [->|Hne].
  - by rewrite !lookup_delete_eq.
  - rewrite !lookup_delete_ne by done. by apply Hsame.
Qed.

(** Every outcome of [buildHint] on a file with log [rs]. *)
Lemma buildHint_wp id w f rs :
  w_fs w !! dataPath id = Some f -> log_file f rs ->
  wp (buildHint id)
    (fun _ w' => (w_faults w = [] -> w_faults w' = []) /\
       exists rs', rs' `prefix_of` rs /\ (w_faults w = [] -> rs' = rs) /\
       w_fs w' = with_hint id rs' (w_fs w))
    (fun _ w' => w_faults w <> [] /\ (only_at (hintTmp id) w w' \/
       exists rs', rs' `prefix_of` rs /\ w_fs w' = with_hint id rs' (w_fs w))) w.
Proof.
  intros Hf Hlog. unfold buildHint. apply wp_bind.
  eapply wp_mono; [apply newHintWriter_wp| |by intros ? ? []; auto].
  intros h w1 (-> & H1 & Htmp). apply wp_bind. eapply wp_mono; [apply (scanDataFile_wp id _ _ w1 f rs)| |done].
  { rewrite (proj1 H1); [done|apply dataPath_hintTmp]. }
  { done. }
  intros out w2 (w1' & Hw1' & Hout).
  assert (H1' : only_at (hintTmp id) w w1') by eauto with files.
  destruct Hout as [(e & -> & -> & Hn)|(rs' & Hpre & Hall & Hvisit)].
  { eapply wp_mono; [eapply (wp_drop_tmp (hintTmp id) e _ w); eauto with files
      |intros ? ? Hq; exact Hq|intros ? ? []; auto]. }
  pose proof (visit_hint id rs' 0 (mkHintWriter hintMagic (hintTmp id) (hintPath id)) w1') as Hh.
  change (visit _ 0 rs' _ = _) with (visit (hint_cb id) 0 rs'
    (mkHintWriter hintMagic (hintTmp id) (hintPath id), w1') = (out.1, (out.2, w2))) in Hvisit.
  rewrite Hvisit in Hh. cbn [fst snd hw_tmp hw_dest hw_buf] in Hh.
  destruct out as [[p o] h']. cbn [fst snd] in Hh. destruct Hh as (Ht & Hd & Hw2 & Hbuf).
  assert (H2 : only_at (hintTmp id) w w2) by eauto with files.
  destruct o as [e|].
  { unfold hw_abort. rewrite Ht. eapply wp_mono;
      [eapply (wp_drop_tmp (hintTmp id) e _ w); eauto with files
      |intros ? ? Hq; exact Hq|intros ? ? []; auto]. }
  apply wp_bind. eapply wp_mono;
    [apply (hw_commit_wp h' w2 w (mkFile [] 0)); rewrite ?Ht; [done| |done]| |].
  { rewrite (proj1 Hw2), (proj1 Hw1'). done. }
  2:{ rewrite Ht. intros ? ? []; auto. }
  intros _ w3 (Hf3 & Hw3).
  assert (Hfs : w_fs w3 = with_hint id rs' (w_fs w)).
  { rewrite Hw3, Ht, Hd, Hbuf. by apply only_at_absorb. }
  apply wp_syncDir.
  - intros w4 Hw4. split; [intros Hno; by apply Hw4, Hf3|]. exists rs'. split; [done|].
    split; [intros Hno; by apply Hall, H1|]. by rewrite (proj1 Hw4).
  - intros Hn w4 Hw4. split; [intros Hno; by apply Hn, Hf3|]. right. exists rs'.
    split; [done|]. by rewrite (proj1 Hw4).
Qed.

(** Every file has a log, if only an empty one. *)
Lemma log_file_of f : exists rs, log_file f rs.
Proof. destruct (log_split (f_data f)) as (rs & tail & Hd & Hv & Ht). by exists rs, tail. Qed.

Lemma scanDataFile_missing {T} id fn (t : T) w : w_fs w !! dataPath id = None ->
  exists e w', scanDataFile id fn t w = (Ok ((0, Some e), t), w') /\ advance w w'.
Proof.
  intros Hn. unfold scanDataFile.
  assert (Hopen : wp (fs_open (dataPath id)) (fun _ _ => False) (fun _ w' => advance w w') w).
  { apply wp_syscall; [|done]. intros w' Hw. apply wp_bind, wp_lookup_file.
    - intros f Hf. rewrite (proj1 Hw) in Hf. congruence.
    - done. }
  unfold wp in Hopen. destruct (fs_open (dataPath id) w) as [[[]|e] w']; [done|]. by exists e, w'.
Qed.

(** Whatever the data file holds, [buildHint] reaches only the hint and its
    temporary. *)
Lemma buildHint_frame id w :
  (forall name, name <> hintPath id -> name <> hintTmp id ->
     w_fs (buildHint id w).2 !! name = w_fs w !! name) /\
  (w_faults w = [] -> w_faults (buildHint id w).2 = []).
Proof.
  destruct (w_fs w !! dataPath id) as [f|] eqn:Ef.
  - destruct (log_file_of f) as [rs Hlog]. pose proof (buildHint_wp id w f rs Ef Hlog) as Hb.
    unfold wp in Hb.
    assert (Hwh : forall rs' fs, fs = with_hint id rs' (w_fs w) -> forall name,
      name <> hintPath id -> name <> hintTmp id -> fs !! name = w_fs w !! name).
    { intros rs' fs -> name H1 H2. unfold with_hint. by rewrite lookup_insert_ne, lookup_delete_ne. }
    destruct (buildHint id w) as [[[]|e] w']; simpl.
    + destruct Hb as (Hf & rs' & _ & _ & Hfs). split; [by apply (Hwh rs')|done].
    + destruct Hb as (Hf & [[Ho Hof]|(rs' & _ & Hfs)]); (split; [|done]); [auto|by apply (Hwh rs')].
  - enough (Hw : wp (buildHint id) (fun _ _ => False) (fun _ w' => only_at (hintTmp id) w w') w).
    { unfold wp in Hw. destruct (buildHint id w) as [[[]|e] w']; [done|].
      destruct Hw as [Ho Hof]. simpl. split; [by auto|done]. }
    unfold buildHint. apply wp_bind. eapply wp_mono; [apply newHintWriter_wp| |by intros ? ? []].
    intros h w1 (-> & H1 & Htmp). apply wp_bind.
    assert (Hm : w_fs w1 !! dataPath id = None)
      by (rewrite (proj1 H1); [exact Ef|apply dataPath_hintTmp]).
    unfold wp at 1. match goal with |- context [scanDataFile id ?fn ?t w1] =>
      destruct (scanDataFile_missing id fn t w1 Hm) as (e & w2 & -> & Hw2) end.
    unfold hw_abort. apply wp_bind, wp_remove_ignored; intros w3 Hw3; apply wp_throw; eauto with files.
Qed.

(** C29: hint files round-trip: when no system call fails, [buildHint] succeeds,
    changes nothing in the directory but the hint, and [readHint] on the result
    hands its callback every record of the data file, in file order, with the
    offset, size, sequence number and flags the record has there. *)
Theorem hint_roundtrip {S} (fn : bytes -> entry -> byte -> S -> S) id w f rs s :
  w_faults w = [] -> w_fs w !! dataPath id = Some f -> log_file f rs ->
  zlen (encode_all rs) < 2 ^ 63 ->
  let w' := (buildHint id w).2 in
  (buildHint id w).1 = Ok tt /\
  (forall name, name <> hintPath id -> name <> hintTmp id -> w_fs w' !! name = w_fs w !! name) /\
  readHint fn id s w' = (Ok (Ok tt, replay fn id (placed 0 rs) s), w').
Proof.
  intros Hno Hf Hlog Hlen w'. pose proof (buildHint_wp id w f rs Hf Hlog) as Hb.
  unfold w'. clear w'. unfold wp in Hb. destruct (buildHint id w) as [[[]|e] w']; [|by destruct Hb].
  destruct Hb as (Hf' & rs' & _ & Hall & Hfs). cbn [fst snd]. rewrite (Hall Hno) in Hfs. specialize (Hf' Hno).
  split; [done|]. split.
  { intros name H1 H2. rewrite Hfs. unfold with_hint.
    by rewrite lookup_insert_ne, lookup_delete_ne by done. }
  unfold readHint, fs_open, fs_read_stream, syscall, sm_bind, next_fault, lookup_file.
  rewrite Hf'. rewrite Hfs at 1. unfold with_hint. rewrite lookup_insert_eq. cbn [fst].
  unfold sm_ret. rewrite Hfs at 1. unfold with_hint. rewrite lookup_insert_eq, Hf'. cbn [f_data].
  destruct Hlog as (_ & _ & _ & Hv). by rewrite hint_parse_of.
Qed.
