(* ===== verification/Listing.v ===== *)
(** * Listing the data directory

    What [listDataFiles] and [removeOrphanHints] do on a directory: the ids of
    the data files, each once and in order, and the removal of hints that no
    data file needs. *)

From S2P Require Import Prelude Bytes Decimal Record Datafile.

Local Open Scope Z_scope.
Local Open Scope gokv_scope.

(** The ids of the data files of a directory, ascending. *)
Definition dir_ids (fs : gmap bytes file) : list Z :=
  merge_sort Z.le (omap data_id (elements (dom fs))).

(** Every data file has its canonical name. *)
Definition canonical (fs : gmap bytes file) : Prop :=
  forall name id, name ∈ dom fs -> data_id name = Some id -> name = dataPath id.

Lemma elem_dir_ids fs id : canonical fs ->
  id ∈ dir_ids fs <-> is_Some (fs !! dataPath id) /\ data_id (dataPath id) = Some id.
Proof.
  intros Hc. unfold dir_ids. rewrite merge_sort_Permutation, list_elem_of_omap. split.
  - intros (name & Hin & Hid). apply elem_of_elements in Hin.
    pose proof (Hc name id Hin Hid) as ->. by apply elem_of_dom in Hin.
  - intros [Hs Hid]. exists (dataPath id). split; [|done]. by apply elem_of_elements, elem_of_dom.
Qed.

Lemma NoDup_omap_inj {A B} (f : A -> option B) l :
  (forall x y z, x ∈ l -> y ∈ l -> f x = Some z -> f y = Some z -> x = y) ->
  NoDup l -> NoDup (omap f l).
Proof.
  intros Hinj Hnd. induction Hnd as [|x l Hx Hnd IH]; simpl; [constructor|].
  assert (IH' : NoDup (omap f l)) by (apply IH; intros; eapply Hinj; eauto; by right).
  destruct (f x) as [z|] eqn:E; [|done]. constructor; [|done].
  intros (y & Hy & Hfy)%list_elem_of_omap. apply Hx.
  rewrite (Hinj x y z); [done| |by right|done..]. by left.
Qed.

Lemma NoDup_dir_ids fs : canonical fs -> NoDup (dir_ids fs).
Proof.
  intros Hc. unfold dir_ids. rewrite merge_sort_Permutation.
  apply NoDup_omap_inj; [|apply NoDup_elements].
  intros x y z Hx%elem_of_elements Hy%elem_of_elements Ex Ey.
  by rewrite (Hc x z Hx Ex), (Hc y z Hy Ey).
Qed.

Lemma sorted_dir_ids fs : StronglySorted Z.le (dir_ids fs).
Proof. apply StronglySorted_merge_sort; apply _. Qed.

(** The listing depends only on which data files there are. *)
Lemma dir_ids_ext fs fs' : canonical fs -> canonical fs' ->
  (forall id, is_Some (fs !! dataPath id) <-> is_Some (fs' !! dataPath id)) ->
  dir_ids fs = dir_ids fs'.
Proof.
  intros Hc Hc' Hsame. apply (StronglySorted_unique Z.le); try apply sorted_dir_ids.
  apply NoDup_Permutation; [by apply NoDup_dir_ids..|].
  intros id. rewrite !elem_dir_ids by done. by rewrite Hsame.
Qed.

(** ** Orphans *)

Lemma has_suffix_last s suf c : last suf = Some c -> has_suffix s suf = true -> last s = Some c.
Proof.
  intros Hc Hs. unfold has_suffix in Hs. apply andb_prop in Hs as [_ Hs].
  apply bool_decide_eq_true in Hs. rewrite <- (take_drop (length s - length suf) s), Hs.
  rewrite last_app. by rewrite Hc.
Qed.

Lemma orphan_dataPath ids id : orphan_hint ids (dataPath id) = false.
Proof.
  assert (Hl : last (dataPath id) = Some x61)
    by (unfold dataPath; rewrite last_app; done).
  unfold orphan_hint.
  destruct (has_suffix (dataPath id) (hintSuffix ++ str ".tmp")) eqn:E1.
  { apply (has_suffix_last _ _ x70) in E1; [|done]. congruence. }
  destruct (has_suffix (dataPath id) hintSuffix) eqn:E2; [|done].
  apply (has_suffix_last _ _ x74) in E2; [|done]. congruence.
Qed.

Lemma orphan_hintPath ids id : is_u32 id -> id ∈ ids -> orphan_hint ids (hintPath id) = false.
Proof.
  intros Hid Hin. assert (Hl : last (hintPath id) = Some x74)
    by (unfold hintPath; rewrite last_app; done).
  unfold orphan_hint.
  destruct (has_suffix (hintPath id) (hintSuffix ++ str ".tmp")) eqn:E1.
  { apply (has_suffix_last _ _ x70) in E1; [|done]. congruence. }
  unfold hintPath. rewrite has_suffix_app, trim_suffix_app, ParseUint_pad10.
  - by rewrite bool_decide_true.
  - exact Hid.
  - unfold is_u32 in Hid. lia.
Qed.

Lemma orphan_hintPath_other ids id : is_u32 id -> id ∉ ids -> orphan_hint ids (hintPath id) = true.
Proof.
  intros Hid Hin. unfold orphan_hint. destruct (has_suffix (hintPath id) _); [done|].
  unfold hintPath. rewrite has_suffix_app, trim_suffix_app, ParseUint_pad10.
  - by rewrite bool_decide_false.
  - exact Hid.
  - unfold is_u32 in Hid. lia.
Qed.

(** A directory that lost only some of the files [P] holds of. *)
Definition pruned (P : bytes -> bool) (fs fs' : gmap bytes file) : Prop :=
  forall name, if P name then fs' !! name = fs !! name \/ fs' !! name = None
               else fs' !! name = fs !! name.

Lemma pruned_lookup P fs fs' name : pruned P fs fs' -> P name = false ->
  fs' !! name = fs !! name.
Proof. intros Hp E. specialize (Hp name). by rewrite E in Hp. Qed.

Lemma remove_all_wp P names : (forall n, n ∈ names -> P n = true) -> forall w,
  wp (remove_all names)
    (fun _ w' => pruned P (w_fs w) (w_fs w') /\ (w_faults w = [] -> w_faults w' = []) /\
       (w_faults w = [] -> forall n, n ∈ names -> w_fs w' !! n = None))
    (fun _ _ => False) w.
Proof.
  induction names as [|n ns IH]; intros HP w; cbn [remove_all].
  { apply wp_ret. split; [intros name; case_goal; auto|]. split; [done|].
    by intros _ ? ?%not_elem_of_nil. }
  assert (Hn : P n = true) by (apply HP; by left).
  assert (Hdel : wp (sm_ignore (fs_remove n))
    (fun _ w1 => pruned P (w_fs w) (w_fs w1) /\ (w_faults w = [] -> w_faults w1 = [] /\
       w_fs w1 !! n = None)) (fun _ _ => False) w).
  { apply wp_ignore, wp_syscall.
    - intros w1 Hw1. apply wp_bind, wp_lookup_file.
      + intros f Hf. apply wp_modify. simpl. rewrite (proj1 Hw1). split.
        * intros name. destruct (decide (name = n)) as [->|Hne].
          -- rewrite Hn, lookup_delete_eq. auto.
          -- rewrite lookup_delete_ne by done. case_goal; auto.
        * intros Hno. split; [by apply Hw1|apply lookup_delete_eq].
      + intros Hnone. rewrite (proj1 Hw1) in *. split; [intros name; case_goal; auto|].
        intros Hno. split; [by apply Hw1|done].
    - intros Hf w1 Hw1. rewrite (proj1 Hw1). split; [intros name; case_goal; auto|done]. }
  apply wp_bind. eapply wp_mono; [exact Hdel| |done].
  intros [] w1 [Hp1 Hf1]. eapply wp_mono; [apply IH| |done].
  { intros n' Hn'. apply HP. by right. }
  intros [] w2 (Hp2 & Hf2 & Hgone2). split; [|split].
  - intros name. specialize (Hp1 name). specialize (Hp2 name).
    destruct (P name); intuition congruence.
  - intros Hno. by apply Hf2, Hf1.
  - intros Hno n' [->|Hn']%elem_of_cons; [|by apply Hgone2; [apply Hf1|]].
    specialize (Hp2 n). rewrite Hn in Hp2. destruct (Hf1 Hno) as [_ Hg].
    destruct Hp2; congruence.
Qed.

Lemma removeOrphanHints_wp w ids :
  wp (removeOrphanHints ids)
    (fun _ w' => pruned (orphan_hint ids) (w_fs w) (w_fs w') /\
       (w_faults w = [] -> w_faults w' = [] /\
          forall name, orphan_hint ids name = true -> w_fs w' !! name = None))
    (fun _ w' => w_faults w <> [] /\ w_fs w' = w_fs w) w.
Proof.
  unfold removeOrphanHints, fs_read_dir. apply wp_bind, wp_syscall.
  2:{ intros Hf w1 Hw1. split; [done|apply Hw1]. }
  intros w1 Hw1. apply wp_bind, wp_get, wp_ret.
  eapply wp_mono; [apply (remove_all_wp (orphan_hint ids))| |done].
  { by intros n [? _]%list_elem_of_filter. }
  intros [] w2 (Hp & Hf & Hgone). rewrite (proj1 Hw1) in Hp. split; [done|]. intros Hno.
  assert (Hno1 : w_faults w1 = []) by (by apply Hw1). split; [by apply Hf|].
  intros name Hor. destruct (w_fs w !! name) as [f|] eqn:E.
  - apply Hgone; [done|]. apply list_elem_of_filter. split; [done|].
    rewrite (proj1 Hw1). apply elem_of_elements, elem_of_dom. eauto.
  - specialize (Hp name). rewrite Hor, E in Hp. by destruct Hp.
Qed.

(** Tidying hints is safe and thorough: whatever calls fail, only hints
    without a data file and unfinished temporaries disappear; a data file, a
    hint of a listed data file or any other file is untouched; and when no call
    fails no orphan is left. *)
Theorem removeOrphanHints_correct w ids :
  let out := removeOrphanHints ids w in
  pruned (orphan_hint ids) (w_fs w) (w_fs out.2) /\
  (forall id, w_fs out.2 !! dataPath id = w_fs w !! dataPath id) /\
  (forall id, is_u32 id -> id ∈ ids -> w_fs out.2 !! hintPath id = w_fs w !! hintPath id) /\
  (w_faults w = [] -> is_ok out.1 = true /\
     forall name, orphan_hint ids name = true -> w_fs out.2 !! name = None).
Proof.
  intros out. pose proof (removeOrphanHints_wp w ids) as Hwp. unfold wp in Hwp. fold out in Hwp.
  assert (Hp : pruned (orphan_hint ids) (w_fs w) (w_fs out.2)).
  { destruct out as [[[]|e] w']; [apply Hwp|]. simpl. destruct Hwp as [_ ->].
    intros name. case_goal; auto. }
  split; [done|]. split; [|split].
  - intros id. apply (pruned_lookup _ _ _ _ Hp), orphan_dataPath.
  - intros id Hid Hin. by apply (pruned_lookup _ _ _ _ Hp), orphan_hintPath.
  - intros Hno. destruct out as [[[]|e] w']; [split; [done|]; by apply Hwp|].
    by destruct Hwp as [? _].
Qed.

Lemma removeOrphanHints_correct_witness :
  let fs := <[hintPath 7 := mkFile [] 0]> (<[dataPath 3 := mkFile [] 0]> ∅) in
  w_fs (removeOrphanHints [3] (mkWorld fs [] false)).2 !! hintPath 7 = None.
Proof.
  intros fs. destruct (removeOrphanHints_correct (mkWorld fs [] false) [3]) as (_ & _ & _ & Hgone).
  apply Hgone; vm_compute; reflexivity.
Defined.

Lemma listDataFiles_calm w : w_faults w = [] -> listDataFiles w = (Ok (dir_ids (w_fs w)), w).
Proof.
  intros Hno. unfold listDataFiles, fs_read_dir, syscall, sm_bind, next_fault.
  rewrite Hno. done.
Qed.

(** [listDataFiles] returns exactly the ids of the data files, each once and
    in ascending order: the order in which recovery replays them. *)
Theorem listDataFiles_correct w : w_faults w = [] -> canonical (w_fs w) ->
  exists ids, listDataFiles w = (Ok ids, w) /\ StronglySorted Z.lt ids /\
    forall id, is_u32 id -> id ∈ ids <-> is_Some (w_fs w !! dataPath id).
Proof.
  intros Hno Hc. exists (dir_ids (w_fs w)). split; [by apply listDataFiles_calm|]. split.
  - pose proof (sorted_dir_ids (w_fs w)) as Hs. pose proof (NoDup_dir_ids _ Hc) as Hnd.
    induction Hs as [|x l Hs IH Hx]; [constructor|]. apply NoDup_cons in Hnd as [Hni Hnd].
    constructor; [by apply IH|]. rewrite Forall_forall in *. intros y Hy.
    specialize (Hx y Hy). assert (x <> y) by (intros ->; done). lia.
  - intros id Hid. rewrite elem_dir_ids by done. rewrite data_id_dataPath by done. tauto.
Qed.

Lemma listDataFiles_correct_witness :
  let fs := <[dataPath 12 := mkFile [] 0]> (<[dataPath 3 := mkFile [] 0]> ∅) in
  exists ids, listDataFiles (mkWorld fs [] false) = (Ok ids, mkWorld fs [] false) /\
    StronglySorted Z.lt ids /\ 12 ∈ ids.
Proof.
  intros fs. destruct (listDataFiles_correct (mkWorld fs [] false)) as (ids & Hl & Hs & Hin).
  - reflexivity.
  - intros name id. cbn [w_fs]. unfold fs. rewrite !dom_insert_L, dom_empty_L.
    intros [->%elem_of_singleton|[->%elem_of_singleton|[]%elem_of_empty]%elem_of_union]%elem_of_union
      E; vm_compute in E; injection E as <-; reflexivity.
  - exists ids. split; [exact Hl|]. split; [exact Hs|]. apply Hin; [unfold is_u32; lia|].
    unfold fs. cbn [w_fs]. rewrite lookup_insert_eq. eauto.
Defined.
