(* ===== verification/Manifest.v ===== *)
(** * The compaction watermark (internal/engine/manifest.go)

    [readManifest] and [writeManifest], with the string functions the reader
    goes through.  The writer replaces the file by renaming a temporary over
    it, so that whatever system call fails the reader sees either the old
    watermark or the new one. *)

From S2P Require Import Prelude Bytes Decimal Datafile.

Local Open Scope Z_scope.
Local Open Scope gokv_scope.

Definition manifestPath : bytes := str "MANIFEST".

(** ** Strings *)

(** [strings.Split(s, sep)] for a one-byte separator. *)
Fixpoint split_on (sep : byte) (s : bytes) : list bytes :=
  match s with
  | [] => [[]]
  | c :: s' =>
      if bool_decide (c = sep) then [] :: split_on sep s'
      else match split_on sep s' with
           | l :: ls => (c :: l) :: ls
           | [] => [[c]]
           end
  end.

(** [strings.Cut(s, sep)] for a one-byte separator; [None] when it is absent. *)
Fixpoint cut_at (sep : byte) (s : bytes) : option (bytes * bytes) :=
  match s with
  | [] => None
  | c :: s' =>
      if bool_decide (c = sep) then Some ([], s')
      else kv ← cut_at sep s'; Some (c :: kv.1, kv.2)
  end.

(** The UTF-8 encodings of the characters [unicode.IsSpace] holds of. *)
Definition spaces : list bytes := map (map Z_byte)
  [[9]; [10]; [11]; [12]; [13]; [32]; [194; 133]; [194; 160]; [225; 154; 128];
   [226; 128; 128]; [226; 128; 129]; [226; 128; 130]; [226; 128; 131];
   [226; 128; 132]; [226; 128; 133]; [226; 128; 134]; [226; 128; 135];
   [226; 128; 136]; [226; 128; 137]; [226; 128; 138]; [226; 128; 168];
   [226; 128; 169]; [226; 128; 175]; [226; 129; 159]; [227; 128; 128]].

Definition has_prefix (s pre : bytes) : bool := bool_decide (take (length pre) s = pre).

(** [strings.TrimSpace]; each round drops at least one byte, so the length of
    the string is enough fuel. *)
Fixpoint trim_left (fuel : nat) (s : bytes) : bytes :=
  match fuel with
  | O => s
  | S fuel' =>
      match List.find (has_prefix s) spaces with
      | Some p => trim_left fuel' (drop (length p) s)
      | None => s
      end
  end.
Fixpoint trim_right (fuel : nat) (s : bytes) : bytes :=
  match fuel with
  | O => s
  | S fuel' =>
      match List.find (has_suffix s) spaces with
      | Some p => trim_right fuel' (take (length s - length p) s)
      | None => s
      end
  end.
Definition TrimSpace (s : bytes) : bytes :=
  let s := trim_left (length s) s in trim_right (length s) s.

(** ** Reading and writing *)

(** The body of the loop over lines: the watermark the line gives, if any. *)
Definition manifest_line (line : bytes) : option Z :=
  kv ← cut_at (Z_byte 61) (TrimSpace line);
  if bool_decide (kv.1 = str "merge_seq") then ParseUint 64 kv.2 else None.

Definition parse_manifest (b : bytes) : Z :=
  default 0 (head (omap manifest_line (split_on (Z_byte 10) b))).

Definition readManifest : wio Z := fun w =>
  match fs_read_file manifestPath w with
  | (Err _, w') => (Ok 0, w')
  | (Ok b, w') => (Ok (parse_manifest b), w')
  end.

Definition format_manifest (mergeSeq : Z) : bytes :=
  str "merge_seq=" ++ format_uint mergeSeq ++ [Z_byte 10].

Definition writeManifest (mergeSeq : Z) : wio unit :=
  let tmp := manifestPath ++ str ".tmp" in
  fs_create_trunc tmp;;;
  sm_catch (fs_write_at tmp (format_manifest mergeSeq) 0)
    (fun e => sm_ignore (fs_remove tmp);;; sm_throw e);;;
  sm_catch (fs_sync tmp) (fun e => sm_ignore (fs_remove tmp);;; sm_throw e);;;
  fs_rename tmp manifestPath;;;
  syncDir.

(** ** Lemmas *)

Lemma split_on_app sep l s : Forall (fun c => c <> sep) l ->
  split_on sep (l ++ sep :: s) = l :: split_on sep s.
Proof.
  intros Hl. induction Hl as [|c l Hc Hl IH]; simpl.
  - by rewrite bool_decide_true.
  - by rewrite bool_decide_false, IH.
Qed.

Lemma cut_at_app sep l s : Forall (fun c => c <> sep) l ->
  cut_at sep (l ++ sep :: s) = Some (l, s).
Proof.
  intros Hl. induction Hl as [|c l Hc Hl IH]; simpl.
  - by rewrite bool_decide_true.
  - by rewrite bool_decide_false, IH.
Qed.

(** No space ends in a digit, and none starts with a lower-case letter. *)
Lemma find_none {A} (f : A -> bool) l : Forall (fun x => f x = false) l -> List.find f l = None.
Proof. induction 1 as [|x l Hx Hl IH]; simpl; [done|]. by rewrite Hx. Qed.

Definition last_not_digit (p : bytes) : bool :=
  match last p with
  | Some c => (byte_Z c <? 48) || (57 <? byte_Z c)
  | None => false
  end.

Lemma has_suffix_inv s p : has_suffix s p = true -> exists s', s = s' ++ p.
Proof.
  unfold has_suffix. intros [_ H]%andb_prop. apply bool_decide_eq_true in H.
  exists (take (length s - length p) s). 
  rewrite <- (take_drop (length s - length p) s) at 1. by rewrite H.
Qed.

Lemma trim_right_digit fuel s d : 48 <= byte_Z d <= 57 ->
  trim_right fuel (s ++ [d]) = s ++ [d].
Proof.
  intros Hd. destruct fuel as [|fuel]; [done|]. cbn [trim_right].
  rewrite find_none; [done|].
  assert (Hsp : Forall (fun p => last_not_digit p = true) spaces)
    by (apply List.Forall_forall, forallb_forall; reflexivity).
  eapply Forall_impl; [exact Hsp|]. intros p Hp. destruct (has_suffix _ _) eqn:E; [|done].
  apply has_suffix_inv in E as [s' E]. apply (f_equal last) in E.
  unfold last_not_digit in Hp. rewrite last_snoc, last_app in E.
  destruct (last p) as [c|]; [|done]. injection E as <-.
  apply orb_true_iff in Hp as [Hp|Hp]; reflect_bools; lia.
Qed.

Lemma trim_left_m fuel s : trim_left fuel (x6d :: s) = x6d :: s.
Proof. by destruct fuel. Qed.

Lemma format_uint_snoc n : 0 <= n ->
  exists s d, format_uint n = s ++ [d] /\ 48 <= byte_Z d <= 57.
Proof.
  intros Hn. destruct (format_uint n) as [|d s _] eqn:E using rev_ind.
  - by apply digits_nonempty in E.
  - exists s, d. split; [done|]. apply (format_uint_digit n); [done|].
    rewrite E. set_solver.
Qed.

Lemma manifest_line_format n : is_u64 n ->
  manifest_line (str "merge_seq=" ++ format_uint n) = Some n.
Proof.
  intros Hn. destruct (format_uint_snoc n) as (s & d & E & Hd); [apply Hn|].
  unfold manifest_line, TrimSpace.
  change (str "merge_seq=" ++ format_uint n) with (x6d :: str "erge_seq=" ++ format_uint n).
  rewrite trim_left_m, E, (app_assoc (str "erge_seq=")), app_comm_cons, trim_right_digit by done.
  rewrite <- app_comm_cons, <- app_assoc, <- E.
  change (x6d :: str "erge_seq=" ++ format_uint n) with
    (str "merge_seq" ++ Z_byte 61 :: format_uint n).
  rewrite cut_at_app.
  - cbn [mbind option_bind fst snd]. rewrite bool_decide_true by done.
    apply ParseUint_format; unfold is_u64 in Hn; lia.
  - apply (bool_decide_unpack _). vm_compute. done.
Qed.

Lemma parse_format_manifest n : is_u64 n -> parse_manifest (format_manifest n) = n.
Proof.
  intros Hn. unfold parse_manifest, format_manifest. rewrite app_assoc.
  rewrite split_on_app. { cbn [omap list_omap]. by rewrite manifest_line_format. }
  apply Forall_app. split; [apply (bool_decide_unpack _); vm_compute; done|].
  apply Forall_forall. intros c Hc ->. apply format_uint_digit in Hc; [|apply Hn].
  change (byte_Z (Z_byte 10)) with 10 in Hc. lia.
Qed.

(** ** The watermark a restart would read *)

(** What [readManifest] returns once the faults have stopped. *)
Definition watermark (fs : gmap bytes file) : Z :=
  match fs !! manifestPath with Some f => parse_manifest (f_data f) | None => 0 end.

Lemma readManifest_heal w : readManifest (heal w) = (Ok (watermark (w_fs w)), heal w).
Proof.
  unfold readManifest, watermark, heal, fs_read_file, syscall, sm_bind, next_fault, lookup_file.
  cbn [w_faults w_fs]. by destruct (w_fs w !! manifestPath).
Qed.

Definition tmpPath : bytes := manifestPath ++ str ".tmp".

Definition manifest_file (n : Z) : file :=
  mkFile (format_manifest n) (zlen (format_manifest n)).

(** Every outcome of [writeManifest], in terms of the files it leaves: a failure
    before the rename touches only the temporary; after it the new file, flushed
    to stable storage, is in place. *)
Lemma writeManifest_wp n w :
  wp (writeManifest n)
     (fun _ w' => w_fs w' = <[manifestPath := manifest_file n]> (delete tmpPath (w_fs w)))
     (fun _ w' => w_faults w <> [] /\ (only_at tmpPath w w' \/
        w_fs w' = <[manifestPath := manifest_file n]> (delete tmpPath (w_fs w)))) w.
Proof.
  unfold writeManifest. fold tmpPath.
  apply wp_bind, wp_fs_create_trunc; [eauto 10 with files|]. intros w1 Hw1.
  assert (H1 : only_at tmpPath w w1) by eauto with files.
  apply wp_bind, wp_catch.
  eapply wp_fs_write_at; [rewrite (proj1 Hw1); apply lookup_insert_eq| |].
  2:{ intros Hf k w2 Hw2. eapply wp_mono; [eapply (wp_drop_tmp tmpPath _ _ w); eauto with files|intros ? ? Hq; exact Hq|].
      intros ? ? []. auto. }
  intros w2 Hw2. assert (H2 : only_at tmpPath w w2) by eauto with files.
  rewrite (proj1 Hw1), insert_insert_eq, write_bytes_fresh in Hw2.
  apply wp_bind, wp_catch. eapply wp_fs_sync; [|rewrite (proj1 Hw2); apply lookup_insert_eq|].
  { intros Hf w3 Hw3. eapply wp_mono; [eapply (wp_drop_tmp tmpPath _ _ w); eauto with files|intros ? ? Hq; exact Hq|].
    intros ? ? []. auto. }
  intros w3 Hw3. assert (H3 : only_at tmpPath w w3) by eauto with files.
  rewrite (proj1 Hw2), insert_insert_eq in Hw3. cbn [f_data] in Hw3.
  apply wp_bind. eapply wp_fs_rename; [|rewrite (proj1 Hw3); apply lookup_insert_eq|].
  { intros Hf w4 Hw4. eauto 10 with files. }
  intros w4 Hw4. rewrite (proj1 Hw3), delete_insert_eq in Hw4.
  assert (Hflt : w_faults w4 <> [] -> w_faults w <> [])
    by (intros Hf; eapply only_at_faults, to_fs_faults; eauto with files).
  apply wp_syncDir; intros; [|split; [auto|right]];
    match goal with H : advance _ _ |- _ => rewrite (proj1 H) end; apply Hw4.
Qed.

Lemma tmp_not_manifest : manifestPath <> tmpPath.
Proof. vm_compute. done. Qed.

(** C30: replacing the watermark is atomic under any pattern of system call
    failures: a successful [writeManifest n] leaves a file from which a restart
    reads [n]; a failed one leaves the old watermark or [n], nothing in between;
    it succeeds when no call fails, and it touches no file but the manifest and
    its temporary. *)
Theorem writeManifest_atomic w n : is_u64 n ->
  let out := writeManifest n w in
  let seen := (readManifest (heal out.2)).1 in
  (is_ok out.1 = true -> seen = Ok n) /\
  (is_ok out.1 = false -> w_faults w <> [] /\
     (seen = Ok n \/ seen = (readManifest (heal w)).1)) /\
  (forall name, name <> manifestPath -> name <> tmpPath ->
     w_fs out.2 !! name = w_fs w !! name).
Proof.
  intros Hn out seen. unfold seen, out. rewrite !readManifest_heal. cbn [fst].
  pose proof tmp_not_manifest as Htmp. pose proof (writeManifest_wp n w) as H. unfold wp in H.
  assert (Hnew : forall w', w_fs w' = <[manifestPath := manifest_file n]>
                                       (delete tmpPath (w_fs w)) ->
    watermark (w_fs w') = n /\
    forall name, name <> manifestPath -> name <> tmpPath -> w_fs w' !! name = w_fs w !! name).
  { intros w' ->. unfold watermark. rewrite lookup_insert_eq. split.
    - by apply parse_format_manifest.
    - intros. by rewrite lookup_insert_ne, lookup_delete_ne by done. }
  destruct (writeManifest n w) as [[[]|e] w']; cbn [fst snd is_ok].
  - destruct (Hnew w' H) as [-> ?]. done.
  - destruct H as [Hf [[Hsame _]|Heq]].
    + split; [done|]. split; [|auto]. intros _. split; [done|]. right.
      unfold watermark. by rewrite Hsame.
    + destruct (Hnew w' Heq) as [-> ?]. auto.
Qed.

Lemma writeManifest_atomic_witness :
  (readManifest (heal (writeManifest 42 (mkWorld ∅ [None; Some 5%nat] false)).2)).1 = Ok 0.
Proof.
  destruct (writeManifest_atomic (mkWorld ∅ [None; Some 5%nat] false) 42) as (_ & Herr & _).
  { unfold is_u64. lia. }
  destruct Herr as [_ [H|H]]; [vm_compute; reflexivity| |].
  - vm_compute in H. discriminate.
  - rewrite H. vm_compute. reflexivity.
Defined.
