(* ===== verification/Lock.v ===== *)
(** * The directory lock (internal/engine/lock.go)

    [w_locked] stands for the advisory flock on the LOCK file: at most one
    process holds it, and the kernel refuses a second one. *)

From S2P Require Import Prelude Bytes Decimal Datafile.

Local Open Scope Z_scope.
Local Open Scope gokv_scope.

Definition lockPath : bytes := str "LOCK".

Definition set_locked (b : bool) (w : world) : world :=
  mkWorld (w_fs w) (w_faults w) b.

(** [os.OpenFile] with [O_RDWR|O_CREATE]. *)
Definition fs_open_create (name : bytes) : wio unit :=
  syscall (w <- sm_get;;
    match w_fs w !! name with
    | Some _ => sm_ret tt
    | None => store_file name (mkFile [] 0)
    end).

(** [syscall.Flock] with [LOCK_EX|LOCK_NB]. *)
Definition flock : wio unit :=
  syscall (w <- sm_get;;
    if w_locked w then sm_throw ErrLocked else sm_modify (set_locked true)).

(** Any failure of flock is reported as [ErrLocked]; the process id is written
    for the operator's benefit, and a failure to write it is ignored. *)
Definition acquireLock (pid : Z) : wio unit :=
  fs_open_create lockPath;;;
  sm_catch flock (fun _ => sm_throw ErrLocked);;;
  sm_ignore (fs_truncate lockPath 0);;;
  sm_ignore (fs_write_at lockPath (format_uint pid ++ [Z_byte 10]) 0).

Definition releaseLock : wio unit :=
  sm_modify (set_locked false);;;
  sm_ignore (fs_remove lockPath).

(** ** Operations that leave the lock alone *)

Definition lock_neutral {A} (m : wio A) : Prop := forall w, w_locked (m w).2 = w_locked w.

Create HintDb lock.

Lemma neutral_bind {A B} (m : wio A) (k : A -> wio B) :
  lock_neutral m -> (forall a, lock_neutral (k a)) -> lock_neutral (sm_bind m k).
Proof.
  intros Hm Hk w. unfold sm_bind. specialize (Hm w).
  destruct (m w) as [[a|e] w']; [by rewrite Hk|done].
Qed.
Lemma neutral_ignore {A} (m : wio A) : lock_neutral m -> lock_neutral (sm_ignore m).
Proof. intros Hm w. apply Hm. Qed.
Lemma neutral_ret {A} (a : A) : lock_neutral (sm_ret a).
Proof. done. Qed.
Lemma neutral_throw {A} e : lock_neutral (A := A) (sm_throw e).
Proof. done. Qed.
Lemma neutral_get : lock_neutral sm_get.
Proof. done. Qed.
Lemma neutral_set_fs f : lock_neutral (sm_modify (set_fs f)).
Proof. done. Qed.
Lemma neutral_next_fault : lock_neutral next_fault.
Proof. intros w. unfold next_fault. by destruct (w_faults w). Qed.
Lemma neutral_lookup_file name : lock_neutral (lookup_file name).
Proof. intros w. unfold lookup_file. by destruct (w_fs w !! name). Qed.
#[export] Hint Resolve neutral_bind neutral_ignore neutral_ret neutral_throw neutral_get
  neutral_set_fs neutral_next_fault neutral_lookup_file : lock.

Ltac lock_neutral :=
  repeat first [ progress intros | apply neutral_bind | solve [auto with lock]
               | case_goal ].

Lemma neutral_truncate name n : lock_neutral (fs_truncate name n).
Proof. unfold fs_truncate, syscall. lock_neutral. Qed.
Lemma neutral_write_at name buf off : lock_neutral (fs_write_at name buf off).
Proof. unfold fs_write_at, store_file. lock_neutral. Qed.
Lemma neutral_open_create name : lock_neutral (fs_open_create name).
Proof. unfold fs_open_create, syscall, store_file. lock_neutral. Qed.
#[export] Hint Resolve neutral_truncate neutral_write_at : lock.

Lemma acquireLock_wp pid w :
  wp (acquireLock pid) (fun _ w' => w_locked w = false /\ w_locked w' = true)
     (fun _ w' => w_locked w' = w_locked w /\ (w_locked w = true \/ w_faults w <> [])) w.
Proof.
  unfold acquireLock. apply wp_bind, wp_syscall.
  2:{ intros Hf w1 Hw1. split; [apply Hw1|auto]. }
  intros w1 Hw1.
  assert (H1 : wp (w <- sm_get;;
    match w_fs w !! lockPath with Some _ => sm_ret tt | None => store_file lockPath (mkFile [] 0) end)
    (fun _ w2 => w_locked w2 = w_locked w /\ (w_faults w = [] -> w_faults w2 = []))
    (fun _ _ => False) w1).
  { destruct Hw1 as (_ & Hl & Hf). apply wp_bind, wp_get. case_goal; [by apply wp_ret|].
    by apply wp_store_file. }
  eapply wp_mono; [exact H1|clear H1|done]. intros _ w2 [Hl2 Hf2].
  apply wp_bind, wp_catch, wp_syscall.
  2:{ intros Hf w3 Hw3. apply wp_throw. destruct Hw3 as (_ & -> & _). auto 6. }
  intros w3 (_ & Hl3 & _). apply wp_bind, wp_get. rewrite Hl3, Hl2.
  destruct (w_locked w) eqn:El.
  { do 2 apply wp_throw. rewrite Hl3, Hl2. auto. }
  apply wp_modify.
  assert (Hn : lock_neutral (sm_ignore (fs_truncate lockPath 0);;;
      sm_ignore (fs_write_at lockPath (format_uint pid ++ [Z_byte 10]) 0))) by lock_neutral.
  specialize (Hn (set_locked true w3)). unfold wp.
  unfold sm_bind, sm_ignore in *. simpl in *. auto.
Qed.



