(* ===== verification/Skiplist.v ===== *)
(** * The skip list (internal/engine/skiplist.go)

    The ordered half of the in-memory index, with its pointer structure: nodes
    live in a heap, [next] is an array of pointers per node, and the list is
    the head pointer, the level, the element count and the generator's state.
    Dereferencing nil, a dangling pointer or an index out of range is a panic
    in Go and [None] here, so the safety half of each theorem is that the
    result is [Some]. *)

From S2P Require Import Prelude Bytes Datafile.

Local Open Scope Z_scope.

Definition slMaxLevel : nat := 20.
Definition slBranchMask : Z := 3.

Abbreviation loc := positive.

Record slnode := mkNode {
  n_key : bytes;
  n_ent : entry;
  n_next : list (option loc)
}.

Abbreviation heap := (gmap loc slnode).

Record skiplist := mkSkiplist {
  sl_heap : heap;
  sl_head : loc;
  sl_level : nat;
  sl_n : Z;
  sl_rnd : Z
}.

(** Allocation: a location the heap does not use. *)
Definition alloc (h : heap) : loc := fresh (dom h : gset loc).

Definition newSkiplist : skiplist :=
  let head := 1%positive in
  mkSkiplist {[head := mkNode [] entry_zero (replicate slMaxLevel None)]} head 1 0
    0x9E3779B97F4A7C15.

(** ** The generator *)

Definition xorshift (rnd : Z) : Z :=
  let rnd := Z.lxor rnd (u64 (Z.shiftl rnd 13)) in
  let rnd := Z.lxor rnd (Z.shiftr rnd 7) in
  Z.lxor rnd (u64 (Z.shiftl rnd 17)).

(** The promotion loop: [lvl] only grows, up to [slMaxLevel]. *)
Fixpoint promote (fuel lvl : nat) (x : Z) : nat :=
  match fuel with
  | O => lvl
  | S fuel' =>
      if (lvl <? slMaxLevel)%nat && (Z.land x slBranchMask =? 0)
      then promote fuel' (S lvl) (Z.shiftr x 2) else lvl
  end.

Definition randomLevel (s : skiplist) : nat * skiplist :=
  let rnd := xorshift (sl_rnd s) in
  (promote slMaxLevel 1 rnd, mkSkiplist (sl_heap s) (sl_head s) (sl_level s) (sl_n s) rnd).

(** ** Pointers *)

(** [x.next[i]] *)
Definition next_of (h : heap) (x : loc) (i : nat) : option (option loc) :=
  nd ← h !! x; n_next nd !! i.

(** [x.next[i] = v] *)
Definition set_next (h : heap) (x : loc) (i : nat) (v : option loc) : option heap :=
  nd ← h !! x;
  if (i <? length (n_next nd))%nat
  then Some (<[x := mkNode (n_key nd) (n_ent nd) (<[i := v]> (n_next nd))]> h)
  else None.

(** [x.ent = e] *)
Definition set_ent (h : heap) (x : loc) (e : entry) : option heap :=
  nd ← h !! x; Some (<[x := mkNode (n_key nd) e (n_next nd)]> h).

(** ** Searching *)

(** [for x.next[i] != nil && x.next[i].key < key { x = x.next[i] }] *)
Fixpoint walk (fuel : nat) (h : heap) (key : bytes) (i : nat) (x : loc) : option loc :=
  match fuel with
  | O => None
  | S fuel' =>
      nx ← next_of h x i;
      match nx with
      | None => Some x
      | Some y =>
          ny ← h !! y;
          if bytes_ltb (n_key ny) key then walk fuel' h key i y else Some x
      end
  end.

(** [for i := level-1; i >= 0; i--], recording the predecessor of each level. *)
Fixpoint descend (h : heap) (key : bytes) (i : nat) (x : loc) (prev : list (option loc))
  : option (loc * list (option loc)) :=
  match i with
  | O => Some (x, prev)
  | S i' =>
      x' ← walk (S (size h)) h key i' x;
      descend h key i' x' (<[i' := Some x']> prev)
  end.

Definition find_prev (s : skiplist) (key : bytes) : option (loc * list (option loc)) :=
  descend (sl_heap s) key (sl_level s) (sl_head s) (replicate slMaxLevel None).

(** ** Insertion *)

(** [for i := from; i < lvl; i++ { prev[i] = s.head }] *)
Definition raise_prev (head : loc) (from lvl : nat) (prev : list (option loc))
  : list (option loc) :=
  foldl (fun p i => <[i := Some head]> p) prev (seq from (lvl - from)).

(** [for i := 0; i < lvl; i++ { n.next[i] = prev[i].next[i]; prev[i].next[i] = n }] *)
Fixpoint link (h : heap) (n : loc) (prev : list (option loc)) (is_ : list nat) : option heap :=
  match is_ with
  | [] => Some h
  | i :: is' =>
      p ← prev !! i; p ← p;
      nx ← next_of h p i;
      h ← set_next h n i nx;
      h ← set_next h p i (Some n);
      link h n prev is'
  end.

(** The second half of [insert], for a key that is not in the list. *)
Definition insert_node (s : skiplist) (prev : list (option loc)) (key : bytes) (e : entry)
  : option (loc * skiplist) :=
  let '(lvl, s) := randomLevel s in
  let prev := if (sl_level s <? lvl)%nat
              then raise_prev (sl_head s) (sl_level s) lvl prev else prev in
  let level := if (sl_level s <? lvl)%nat then lvl else sl_level s in
  let n := alloc (sl_heap s) in
  let h := <[n := mkNode key e (replicate lvl None)]> (sl_heap s) in
  h ← link h n prev (seq 0 lvl);
  Some (n, mkSkiplist h (sl_head s) level (sl_n s + 1) (sl_rnd s)).

Definition insert (s : skiplist) (key : bytes) (e : entry) : option (loc * skiplist) :=
  xp ← find_prev s key;
  let '(x, prev) := xp in
  nx ← next_of (sl_heap s) x 0;
  hit ← match nx with
        | None => Some None
        | Some nl => nd ← sl_heap s !! nl;
                     Some (if bool_decide (n_key nd = key) then Some nl else None)
        end;
  match hit with
  | Some nl =>
      h ← set_ent (sl_heap s) nl e;
      Some (nl, mkSkiplist h (sl_head s) (sl_level s) (sl_n s) (sl_rnd s))
  | None => insert_node s prev key e
  end.

(** ** Removal *)

(** [for i := 0; i < level; i++ { if prev[i].next[i] == target { ... } }] *)
Fixpoint unlink (h : heap) (target : loc) (prev : list (option loc)) (is_ : list nat)
  : option heap :=
  match is_ with
  | [] => Some h
  | i :: is' =>
      p ← prev !! i; p ← p;
      nx ← next_of h p i;
      h ← (if bool_decide (nx = Some target)
           then tn ← next_of h target i; set_next h p i tn
           else Some h);
      unlink h target prev is'
  end.

(** [for s.level > 1 && s.head.next[s.level-1] == nil { s.level-- }] *)
Fixpoint lower (h : heap) (head : loc) (level : nat) : option nat :=
  match level with
  | S ((S _) as l) =>
      nx ← next_of h head l;
      match nx with None => lower h head l | Some _ => Some level end
  | _ => Some level
  end.

Definition remove (s : skiplist) (key : bytes) : option (bool * skiplist) :=
  xp ← find_prev s key;
  let '(x, prev) := xp in
  nx ← next_of (sl_heap s) x 0;
  match nx with
  | None => Some (false, s)
  | Some target =>
      nd ← sl_heap s !! target;
      if bool_decide (n_key nd = key) then
        h ← unlink (sl_heap s) target prev (seq 0 (sl_level s));
        level ← lower h (sl_head s) (sl_level s);
        Some (true, mkSkiplist h (sl_head s) level (sl_n s - 1) (sl_rnd s))
      else Some (false, s)
  end.

(** ** Reading in order *)

Definition seek (s : skiplist) (key : bytes) : option (option loc) :=
  xp ← find_prev s key; next_of (sl_heap s) xp.1 0.

(** The nodes from [x] on, following [next[0]]. *)
Fixpoint chain (fuel : nat) (h : heap) (x : option loc) : option (list (bytes * entry)) :=
  match x with
  | None => Some []
  | Some l =>
      match fuel with
      | O => None
      | S fuel' =>
          nd ← h !! l; nx ← n_next nd !! 0%nat;
          rest ← chain fuel' h nx;
          Some ((n_key nd, n_ent nd) :: rest)
      end
  end.

(** [scan]: the callback gets each node of [start, end] until it says stop. *)
Fixpoint scan_nodes {S} (end_ : bytes) (fn : bytes -> entry -> S -> bool * S)
  (nodes : list (bytes * entry)) (st : S) : S :=
  match nodes with
  | [] => st
  | (k, e) :: rest =>
      if negb (bool_decide (end_ = [])) && bytes_ltb end_ k then st
      else let '(continue, st) := fn k e st in
           if continue then scan_nodes end_ fn rest st else st
  end.

Definition scan {S} (s : skiplist) (start end_ : bytes)
  (fn : bytes -> entry -> S -> bool * S) (st : S) : option S :=
  x ← seek s start;
  nodes ← chain (size (sl_heap s)) (sl_heap s) x;
  Some (scan_nodes end_ fn nodes st).

(** ** Linked segments

    [seg nx x ls]: following [nx] from [x] visits exactly [ls] and then nil. *)

Fixpoint seg (nx : loc -> option (option loc)) (x : loc) (ls : list loc) : Prop :=
  match ls with
  | [] => nx x = Some None
  | y :: ls' => nx x = Some (Some y) /\ seg nx y ls'
  end.

(** The last location of [x :: ls]. *)
Fixpoint lst (x : loc) (ls : list loc) : loc :=
  match ls with [] => x | y :: ls' => lst y ls' end.

Lemma lst_app x a b : lst x (a ++ b) = lst (lst x a) b.
Proof. revert x. induction a; simpl; auto. Qed.
Lemma lst_in x a : lst x a ∈ x :: a.
Proof. revert x. induction a as [|y a IH]; intros x; simpl; [set_solver|]. specialize (IH y). set_solver. Qed.

Section segments.
Implicit Type nx : loc -> option (option loc).

Lemma seg_app_r nx x a b : seg nx x (a ++ b) -> seg nx (lst x a) b.
Proof. revert x. induction a; simpl; [done|]. intros x [_ ?]. auto. Qed.

Lemma seg_head nx x ls : seg nx x ls -> nx x = Some (head ls).
Proof. destruct ls; simpl; tauto. Qed.

Lemma seg_ext nx nx' x ls :
  (forall y, y ∈ x :: ls -> nx' y = nx y) -> seg nx x ls -> seg nx' x ls.
Proof.
  revert x. induction ls as [|y ls IH]; intros x Hext; simpl.
  - by rewrite Hext by set_solver.
  - intros [H1 H2]. rewrite Hext by set_solver. split; [done|].
    apply IH; [|done]. set_solver.
Qed.

Lemma seg_insert nx nx' x a b n :
  NoDup (x :: a ++ b) -> n ∉ x :: a ++ b -> seg nx x (a ++ b) ->
  nx' n = nx (lst x a) -> nx' (lst x a) = Some (Some n) ->
  (forall y, y ∈ x :: a ++ b -> y <> lst x a -> nx' y = nx y) ->
  seg nx' x (a ++ n :: b).
Proof.
  revert x. induction a as [|y a IH]; intros x Hnd Hn Hs Hnx Hp Hoth; simpl in *.
  - split; [done|]. destruct b as [|y b]; simpl in *; [by rewrite Hnx|].
    destruct Hs as [Hx Hs]. rewrite Hnx. split; [done|].
    apply (seg_ext nx); [|done]. intros z Hz. apply Hoth; [set_solver|].
    apply NoDup_cons in Hnd as [Hnd _]. set_solver.
  - destruct Hs as [Hx Hs]. apply NoDup_cons in Hnd as [Hxn Hnd].
    pose proof (lst_in y a) as Hl. rewrite Hoth by set_solver. split; [done|].
    apply IH; auto; set_solver.
Qed.

Lemma seg_remove nx nx' x a t b :
  NoDup (x :: a ++ t :: b) -> seg nx x (a ++ t :: b) ->
  nx' (lst x a) = nx t ->
  (forall y, y ∈ x :: a ++ t :: b -> y <> lst x a -> nx' y = nx y) ->
  seg nx' x (a ++ b).
Proof.
  revert x. induction a as [|y a IH]; intros x Hnd Hs Hp Hoth; simpl in *.
  - destruct Hs as [Hx Hs]. destruct b as [|z b]; simpl in *; [by rewrite Hp|].
    destruct Hs as [Ht Hs]. rewrite Hp. split; [done|].
    apply (seg_ext nx); [|done]. intros w Hw.
    apply NoDup_cons in Hnd as [Hnd _]. apply Hoth; set_solver.
  - destruct Hs as [Hx Hs]. apply NoDup_cons in Hnd as [Hxn Hnd].
    pose proof (lst_in y a) as Hl. rewrite Hoth by set_solver. split; [done|].
    apply IH; auto; set_solver.
Qed.
End segments.

(** ** The invariant *)

Definition height (h : heap) (l : loc) : nat :=
  match h !! l with Some nd => length (n_next nd) | None => 0 end.
Definition key_of (h : heap) (l : loc) : bytes :=
  match h !! l with Some nd => n_key nd | None => [] end.
Definition ent_of (h : heap) (l : loc) : entry :=
  match h !! l with Some nd => n_ent nd | None => entry_zero end.

(** The nodes that take part in level [i]. *)
Definition tall (h : heap) (i : nat) (ns : list loc) : list loc :=
  filter (fun l => (i < height h l)%nat) ns.

(** [ns] are the nodes in list order: strictly ascending keys, and level [i]
    links exactly the nodes of height above [i], in the same order. *)
Record sl_wf (s : skiplist) (ns : list loc) : Prop := {
  wf_head : height (sl_heap s) (sl_head s) = slMaxLevel;
  wf_nodup : NoDup (sl_head s :: ns);
  wf_heights : forall l, l ∈ ns -> (1 <= height (sl_heap s) l <= sl_level s)%nat;
  wf_level : (1 <= sl_level s <= slMaxLevel)%nat;
  wf_sorted : StronglySorted bytes_lt (key_of (sl_heap s) <$> ns);
  wf_chain : forall i, (i < slMaxLevel)%nat ->
    seg (fun x => next_of (sl_heap s) x i) (sl_head s) (tall (sl_heap s) i ns);
  wf_n : sl_n s = zlen ns
}.

Definition contents (h : heap) (ns : list loc) : list (bytes * entry) :=
  (fun l => (key_of h l, ent_of h l)) <$> ns.

(** [s] represents the strictly sorted association list [l]. *)
Definition sl_rep (s : skiplist) (l : list (bytes * entry)) : Prop :=
  exists ns, sl_wf s ns /\ l = contents (sl_heap s) ns.

(** ** The specification: a strictly sorted association list *)

Fixpoint al_insert (k : bytes) (e : entry) (l : list (bytes * entry)) :=
  match l with
  | [] => [(k, e)]
  | (k', e') :: l' =>
      match bytes_compare k k' with
      | Lt => (k, e) :: l
      | Eq => (k, e) :: l'
      | Gt => (k', e') :: al_insert k e l'
      end
  end.

Definition al_remove (k : bytes) (l : list (bytes * entry)) :=
  filter (fun p => p.1 <> k) l.

Definition al_from (k : bytes) (l : list (bytes * entry)) :=
  filter (fun p => bytes_le k p.1) l.

(** ** Levels and shapes *)

Lemma height_heap h l : (1 <= height h l)%nat -> is_Some (h !! l).
Proof. unfold height. destruct (h !! l); [eauto|lia]. Qed.

Lemma tall_app h i a b : tall h i (a ++ b) = tall h i a ++ tall h i b.
Proof. apply filter_app. Qed.

Lemma tall_subset h i ns l : l ∈ tall h i ns -> l ∈ ns.
Proof. unfold tall. rewrite list_elem_of_filter. tauto. Qed.

Lemma tall_all h i ns : (forall l, l ∈ ns -> (i < height h l)%nat) -> tall h i ns = ns.
Proof.
  induction ns as [|l ns IH]; intros H; [done|]. unfold tall in *.
  rewrite filter_cons_True, IH; [done| |]; intros; apply H; set_solver.
Qed.

Lemma tall_none h i ns : (forall l, l ∈ ns -> (height h l <= i)%nat) -> tall h i ns = [].
Proof.
  induction ns as [|l ns IH]; intros H; [done|]. unfold tall in *.
  rewrite filter_cons_False, IH; [done| |].
  - intros; apply H; set_solver.
  - specialize (H l ltac:(set_solver)). lia.
Qed.

(** Going down one level: the nodes of level [i+1] end at a node of level [i]. *)
Lemma tall_down h i hd pre :
  exists a b, tall h i pre = a ++ b /\ lst hd a = lst hd (tall h (S i) pre).
Proof.
  induction pre as [|y pre IH] using rev_ind; [by exists [], []|].
  destruct IH as (a & b & Hab & Hl). rewrite !tall_app, Hab.
  unfold tall at 1 3. rewrite !filter_cons, !filter_nil.
  destruct (decide (S i < height h y)%nat) as [H1|H1].
  - rewrite decide_True by lia. exists ((a ++ b) ++ [y]), [].
    rewrite app_nil_r. split; [done|]. by rewrite !lst_app.
  - rewrite app_nil_r. exists a. destruct (decide (i < height h y)%nat).
    + exists (b ++ [y]). by rewrite app_assoc.
    + exists b. by rewrite app_nil_r.
Qed.

Definition shape (h : heap) (l : loc) : option (bytes * entry * nat) :=
  (fun nd => (n_key nd, n_ent nd, length (n_next nd))) <$> h !! l.
Definition same_shape (h h' : heap) : Prop := forall l, shape h' l = shape h l.

Lemma shape_height h h' l : shape h' l = shape h l -> height h' l = height h l.
Proof. unfold shape, height. destruct (h !! l), (h' !! l); simpl; congruence. Qed.
Lemma shape_key h h' l : shape h' l = shape h l -> key_of h' l = key_of h l.
Proof. unfold shape, key_of. destruct (h !! l), (h' !! l); simpl; congruence. Qed.
Lemma shape_ent h h' l : shape h' l = shape h l -> ent_of h' l = ent_of h l.
Proof. unfold shape, ent_of. destruct (h !! l), (h' !! l); simpl; congruence. Qed.

#[global] Instance same_shape_trans : Transitive same_shape.
Proof. intros a b c H1 H2 l. by rewrite H2, H1. Qed.

Lemma next_of_height h x i v : next_of h x i = Some v -> (i < height h x)%nat.
Proof.
  unfold next_of, height. destruct (h !! x); simpl; [|done].
  apply lookup_lt_Some.
Qed.

Lemma set_next_spec h x i v : (i < height h x)%nat ->
  exists h', set_next h x i v = Some h' /\ same_shape h h' /\
    forall y j, next_of h' y j = if decide (y = x /\ j = i) then Some v else next_of h y j.
Proof.
  unfold height, set_next. destruct (h !! x) as [nd|] eqn:Hx; [|lia]. intros Hi. simpl.
  destruct (Nat.ltb_spec i (length (n_next nd))); [|lia].
  eexists; split; [done|]. split.
  - intros l. unfold shape. destruct (decide (l = x)) as [->|].
    + rewrite lookup_insert_eq, Hx. simpl. by rewrite length_insert.
    + by rewrite lookup_insert_ne.
  - intros y j. unfold next_of. destruct (decide (y = x)) as [->|Hyx].
    + rewrite lookup_insert_eq, Hx. simpl. destruct (decide (j = i)) as [->|].
      * rewrite decide_True by done. by apply list_lookup_insert_eq.
      * rewrite decide_False by tauto. by apply list_lookup_insert_ne.
    + rewrite decide_False by tauto. by rewrite lookup_insert_ne.
Qed.

(** ** Searching *)

(** [pre] and [post] split the nodes at [key]. *)
Definition split_at_key (h : heap) (key : bytes) (ns pre post : list loc) : Prop :=
  ns = pre ++ post /\ (forall l, l ∈ pre -> bytes_lt (key_of h l) key) /\
  (forall l, l ∈ post -> bytes_le key (key_of h l)).

Lemma split_exists h key ns : StronglySorted bytes_lt (key_of h <$> ns) ->
  exists pre post, split_at_key h key ns pre post.
Proof.
  induction ns as [|l ns IH]; intros Hs; simpl in Hs.
  - exists [], []. split; [done|]. split; set_solver.
  - apply StronglySorted_inv in Hs as [Hs Hl]. rewrite Forall_fmap, Forall_forall in Hl.
    destruct (bytes_ltb (key_of h l) key) eqn:E.
    + destruct (IH Hs) as (pre & post & -> & H1 & H2). exists (l :: pre), post.
      split; [done|]. split; [|done]. intros x [->|]%elem_of_cons; auto.
    + exists [], (l :: ns). split; [done|]. split; [set_solver|].
      intros x [->|Hx]%elem_of_cons; [done|].
      apply bytes_lt_le, (bytes_le_lt_trans _ (key_of h l)); [done|].
      by apply Hl.
Qed.

Lemma walk_spec h key i x b c fuel :
  seg (fun x => next_of h x i) x (b ++ c) ->
  (forall l, l ∈ b -> bytes_lt (key_of h l) key) ->
  (forall l, l ∈ c -> bytes_le key (key_of h l)) ->
  (forall l, l ∈ b ++ c -> is_Some (h !! l)) ->
  (length b < fuel)%nat ->
  walk fuel h key i x = Some (lst x b).
Proof.
  revert x fuel. induction b as [|y b IH]; intros x fuel Hs Hb Hc Hh Hf;
    (destruct fuel as [|fuel]; [simpl in Hf; lia|]); cbn [walk].
  - simpl in Hs. rewrite (seg_head _ _ _ Hs). destruct c as [|y c]; [done|]. simpl.
    destruct (Hh y ltac:(set_solver)) as [ny Hy]. rewrite Hy. simpl.
    specialize (Hc y ltac:(set_solver)). unfold bytes_le, key_of in Hc.
    rewrite Hy in Hc. by rewrite Hc.
  - destruct Hs as [Hx Hs]. rewrite Hx. simpl.
    destruct (Hh y ltac:(set_solver)) as [ny Hy]. rewrite Hy. simpl.
    specialize (Hb y ltac:(set_solver)) as Hby. unfold bytes_lt, key_of in Hby.
    rewrite Hy in Hby. rewrite Hby. apply IH; auto; try set_solver. simpl in Hf. lia.
Qed.

Lemma nodes_bound h (ns : list loc) :
  NoDup ns -> (forall l, l ∈ ns -> is_Some (h !! l)) -> (length ns <= size (h : heap))%nat.
Proof.
  intros Hnd Hh. rewrite <- (size_list_to_set (C:=gset loc) ns) by done.
  rewrite <- size_dom. apply subseteq_size. intros l Hl.
  apply elem_of_list_to_set in Hl. apply elem_of_dom. auto.
Qed.

Section search.
Context (s : skiplist) (ns : list loc) (Hwf : sl_wf s ns).
Context (key : bytes) (pre post : list loc).
Context (Hsplit : split_at_key (sl_heap s) key ns pre post).
Let h := sl_heap s.

Lemma wf_in_heap l : l ∈ ns -> is_Some (h !! l).
Proof. intros Hl. apply height_heap. destruct (wf_heights s ns Hwf l Hl). done. Qed.

Lemma pred_at i : (i < slMaxLevel)%nat ->
  next_of h (lst (sl_head s) (tall h i pre)) i = Some (head (tall h i post)).
Proof.
  intros Hi. destruct Hsplit as (-> & _ & _).
  pose proof (wf_chain s _ Hwf i Hi) as Hc. rewrite tall_app in Hc.
  apply seg_app_r in Hc. by apply seg_head in Hc.
Qed.

Lemma descend_spec i prev :
  (i <= slMaxLevel)%nat -> length prev = slMaxLevel ->
  exists prev',
    descend h key i (lst (sl_head s) (tall h i pre)) prev =
      Some (lst (sl_head s) (tall h 0 pre), prev') /\
    length prev' = slMaxLevel /\
    (forall j, (j < i)%nat -> prev' !! j = Some (Some (lst (sl_head s) (tall h j pre)))) /\
    (forall j, (i <= j)%nat -> prev' !! j = prev !! j).
Proof.
  revert prev. induction i as [|i IH]; intros prev Hi Hl.
  - exists prev. split; [done|]. split; [done|]. split; [lia|done].
  - cbn [descend]. destruct (tall_down h i (sl_head s) pre) as (a & b & Hab & Hla).
    rewrite <- Hla. destruct Hsplit as (Hns & Hpre & Hpost).
    pose proof (wf_chain s ns Hwf i ltac:(lia)) as Hc. fold h in Hc.
    rewrite Hns, tall_app, Hab, <- app_assoc in Hc.
    assert (Hb : forall l, l ∈ b -> l ∈ pre).
    { intros l Hb. apply (tall_subset h i). rewrite Hab. set_solver. }
    rewrite (walk_spec h key i _ b (tall h i post)).
    + simpl. rewrite <- lst_app, <- Hab.
      destruct (IH (<[i := Some (lst (sl_head s) (tall h i pre))]> prev))
        as (prev' & Hd & Hl' & Hj & Hj'); [lia|by rewrite length_insert|].
      exists prev'. split; [done|]. split; [done|]. split.
      * intros j Hji. destruct (decide (j = i)) as [->|]; [|apply Hj; lia].
        rewrite Hj' by lia. apply list_lookup_insert_eq. lia.
      * intros j Hji. rewrite Hj' by lia. apply list_lookup_insert_ne. lia.
    + by apply seg_app_r in Hc.
    + auto.
    + intros l Hc'%tall_subset. auto.
    + intros l Hin. apply wf_in_heap. rewrite Hns.
      apply elem_of_app in Hin as [?|?%tall_subset]; set_solver.
    + apply Nat.lt_succ_r. etransitivity; [|apply (nodes_bound h ns)].
      * rewrite Hns, length_app. transitivity (length (tall h i pre)).
        -- rewrite Hab, length_app. lia.
        -- unfold tall. etransitivity; [apply length_filter|lia].
      * apply NoDup_cons_1_2 with (sl_head s). apply (wf_nodup _ _ Hwf).
      * apply wf_in_heap.
Qed.

Lemma pre_in l : l ∈ pre -> l ∈ ns.
Proof. destruct Hsplit as (-> & _). set_solver. Qed.

Lemma tall_0_pre : tall h 0 pre = pre.
Proof. apply tall_all. intros l Hl%pre_in. apply (wf_heights s ns Hwf) in Hl. fold h in Hl. lia. Qed.

Lemma tall_above_level i : (sl_level s <= i)%nat -> tall h i ns = [].
Proof. intros Hi. apply tall_none. intros l Hl%(wf_heights s ns Hwf). fold h in Hl. lia. Qed.

Lemma tall_above_pre i : (sl_level s <= i)%nat -> tall h i pre = [].
Proof.
  intros Hi. apply tall_none. intros l Hl%pre_in%(wf_heights s ns Hwf). fold h in Hl. lia.
Qed.

(** The search ends at the last node below [key], having recorded on every
    level of the list the last node of that level below [key]. *)
Lemma find_prev_spec :
  exists prev,
    find_prev s key = Some (lst (sl_head s) pre, prev) /\
    length prev = slMaxLevel /\
    (forall j, (j < sl_level s)%nat ->
       prev !! j = Some (Some (lst (sl_head s) (tall h j pre)))).
Proof.
  destruct (descend_spec (sl_level s) (replicate slMaxLevel None))
    as (prev & Hd & Hl & Hj & _).
  - apply (wf_level s ns Hwf).
  - apply length_replicate.
  - rewrite tall_above_pre, tall_0_pre in Hd by lia. exists prev. auto.
Qed.

Lemma next_0 : next_of h (lst (sl_head s) pre) 0 = Some (head post).
Proof.
  pose proof (pred_at 0 ltac:(unfold slMaxLevel; lia)) as H.
  rewrite tall_0_pre in H. rewrite H. do 2 f_equal. apply tall_all.
  intros l Hl. assert (l ∈ ns) as Hn by (destruct Hsplit as (-> & _); set_solver).
  apply (wf_heights s ns Hwf) in Hn. fold h in Hn. lia.
Qed.
End search.

(** ** Reading in order *)

Lemma chain_spec h x ls fuel :
  seg (fun x => next_of h x 0) x ls -> (forall l, l ∈ ls -> is_Some (h !! l)) ->
  (length ls <= fuel)%nat -> chain fuel h (head ls) = Some (contents h ls).
Proof.
  revert x fuel. induction ls as [|y ls IH]; intros x fuel Hs Hh Hf; [by destruct fuel|].
  destruct Hs as [_ Hs]. destruct fuel as [|fuel]; simpl in Hf; [lia|]. cbn [head chain].
  destruct (Hh y ltac:(set_solver)) as [nd Hy]. rewrite Hy. simpl.
  pose proof (seg_head _ _ _ Hs) as Hn. unfold next_of in Hn. rewrite Hy in Hn. simpl in Hn.
  rewrite Hn. simpl. rewrite (IH y) by (auto; set_solver || lia). simpl.
  unfold contents. simpl. unfold key_of, ent_of. by rewrite Hy.
Qed.

Lemma wf_nodup_ns s ns : sl_wf s ns -> NoDup ns.
Proof. intros H%wf_nodup. by apply NoDup_cons in H as [_ ?]. Qed.

Lemma seek_chain s ns key pre post :
  sl_wf s ns -> split_at_key (sl_heap s) key ns pre post ->
  seek s key = Some (head post) /\
  chain (size (sl_heap s)) (sl_heap s) (head post) = Some (contents (sl_heap s) post).
Proof.
  intros Hwf Hsp. split.
  - unfold seek. destruct (find_prev_spec s ns Hwf key pre post Hsp) as (prev & -> & _).
    simpl. by apply next_0 with ns key.
  - pose proof (wf_chain s ns Hwf 0 ltac:(unfold slMaxLevel; lia)) as Hc.
    assert (H0 : tall (sl_heap s) 0 ns = ns).
    { apply tall_all. intros l Hl%(wf_heights s ns Hwf). lia. }
    rewrite H0 in Hc. destruct Hsp as (-> & _). apply seg_app_r in Hc.
    apply (chain_spec _ _ _ _ Hc).
    + intros l Hl. apply (wf_in_heap s _ Hwf). set_solver.
    + etransitivity; [|apply (nodes_bound _ (pre ++ post))].
      * rewrite length_app. lia.
      * by apply (wf_nodup_ns s).
      * apply (wf_in_heap s _ Hwf).
Qed.

Lemma contents_app h a b : contents h (a ++ b) = contents h a ++ contents h b.
Proof. apply fmap_app. Qed.

Lemma contents_from h key ns pre post :
  split_at_key h key ns pre post -> al_from key (contents h ns) = contents h post.
Proof.
  intros (-> & Hpre & Hpost). unfold al_from. rewrite contents_app, filter_app.
  assert (H1 : filter (fun p => bytes_le key p.1) (contents h pre) = []).
  { clear Hpost. induction pre as [|l pre IH]; [done|]. cbn [contents fmap list_fmap].
    rewrite filter_cons_False; [apply IH; set_solver|].
    cbn [fst]. apply bytes_lt_not_le. apply Hpre. set_solver. }
  assert (H2 : filter (fun p => bytes_le key p.1) (contents h post) = contents h post).
  { clear Hpre H1. induction post as [|l post IH]; [done|]. cbn [contents fmap list_fmap].
    rewrite filter_cons_True; [f_equal; apply IH; set_solver|].
    cbn [fst]. apply Hpost. set_solver. }
  by rewrite H1, H2.
Qed.

(** The list of nodes [seek] leads to is the suffix of keys from [key] on. *)
Lemma seek_rep s l key : sl_rep s l ->
  exists x, seek s key = Some x /\
    chain (size (sl_heap s)) (sl_heap s) x = Some (al_from key l).
Proof.
  intros (ns & Hwf & ->).
  destruct (split_exists _ key _ (wf_sorted s ns Hwf)) as (pre & post & Hsp).
  destruct (seek_chain s ns key pre post Hwf Hsp) as [H1 H2].
  exists (head post). split; [done|]. rewrite H2. f_equal. symmetry.
  by eapply contents_from.
Qed.

(** ** Changing an entry in place *)

Lemma set_ent_spec h x e : is_Some (h !! x) ->
  exists h', set_ent h x e = Some h' /\ (forall y i, next_of h' y i = next_of h y i) /\
    (forall y, height h' y = height h y) /\ (forall y, key_of h' y = key_of h y) /\
    (forall y, ent_of h' y = if decide (y = x) then e else ent_of h y).
Proof.
  intros [nd Hx]. unfold set_ent. rewrite Hx. simpl. eexists. split; [done|].
  unfold next_of, height, key_of, ent_of.
  repeat split; intros y; intros; destruct (decide (y = x)) as [->|];
    rewrite ?lookup_insert_eq, ?lookup_insert_ne, ?Hx by done; done.
Qed.

(** The invariant only depends on the links, the heights and the keys. *)
Lemma wf_same_links s ns h' :
  sl_wf s ns ->
  (forall y i, next_of h' y i = next_of (sl_heap s) y i) ->
  (forall y, height h' y = height (sl_heap s) y) ->
  (forall y, key_of h' y = key_of (sl_heap s) y) ->
  sl_wf (mkSkiplist h' (sl_head s) (sl_level s) (sl_n s) (sl_rnd s)) ns.
Proof.
  intros Hwf Hn Hh Hk. split; simpl; try apply Hwf.
  - rewrite Hh. apply Hwf.
  - intros l Hl. rewrite Hh. by apply Hwf.
  - rewrite (list_fmap_ext _ (key_of (sl_heap s))); [apply Hwf|]. intros; apply Hk.
  - intros i Hi. assert (Ht : tall h' i ns = tall (sl_heap s) i ns).
    { apply list_filter_iff. intros l. by rewrite Hh. }
    rewrite Ht. apply (seg_ext (fun x => next_of (sl_heap s) x i)); [auto|]. by apply Hwf.
Qed.

(** ** Linking a new node *)

(** The effect of the link loop: on each of its levels the new node takes over
    its predecessor's successor and the predecessor points at the new node. *)
Lemma link_spec n prev p is_ h :
  NoDup is_ ->
  (forall j, j ∈ is_ -> prev !! j = Some (Some (p j)) /\ p j <> n /\
     (j < height h (p j))%nat /\ (j < height h n)%nat) ->
  exists h', link h n prev is_ = Some h' /\ same_shape h h' /\
    forall x j, next_of h' x j =
      if decide (j ∈ is_) then
        if decide (x = n) then next_of h (p j) j
        else if decide (x = p j) then Some (Some n) else next_of h x j
      else next_of h x j.
Proof.
  revert h. induction is_ as [|i is_ IH]; intros h Hnd Hp.
  { exists h. split; [done|]. split; [by intros l|]. intros x j.
    by rewrite decide_False by set_solver. }
  apply NoDup_cons in Hnd as [Hi Hnd].
  destruct (Hp i ltac:(set_solver)) as (Hpi & Hne & Hh1 & Hh2).
  cbn [link]. rewrite Hpi. simpl.
  assert (exists nx, next_of h (p i) i = Some nx) as [nx Hnx].
  { unfold next_of, height in *. destruct (h !! p i) as [nd|]; [|lia]. simpl.
    destruct (lookup_lt_is_Some_2 (n_next nd) i Hh1); eauto. }
  rewrite Hnx. simpl.
  destruct (set_next_spec h n i nx Hh2) as (h1 & -> & Hs1 & Hn1). simpl.
  destruct (set_next_spec h1 (p i) i (Some n)) as (h2 & -> & Hs2 & Hn2).
  { by rewrite (shape_height _ _ _ (Hs1 _)). }
  simpl. destruct (IH h2 Hnd) as (h' & -> & Hs & Hn').
  { intros j Hj. destruct (Hp j ltac:(set_solver)) as (? & ? & ? & ?).
    by rewrite !(shape_height _ _ _ (Hs2 _)), !(shape_height _ _ _ (Hs1 _)). }
  exists h'. split; [done|]. split; [by do 2 (etransitivity; [eassumption|])|].
  intros x j. rewrite Hn'. destruct (decide (j ∈ is_)) as [Hj|Hj].
  - rewrite (decide_True (P:=j ∈ i :: is_)) by set_solver.
    assert (j <> i) by set_solver.
    assert (Hsame : forall y, next_of h2 y j = next_of h y j).
    { intros y. by rewrite Hn2, Hn1, !decide_False by tauto. }
    by rewrite !Hsame.
  - rewrite Hn2, Hn1. destruct (decide (j = i)) as [->|Hji].
    + rewrite (decide_True (P:=i ∈ i :: is_)) by set_solver.
      destruct (decide (x = n)) as [->|]; [|destruct (decide (x = p i)) as [->|]].
      * rewrite decide_False by (intros [? _]; congruence).
        by rewrite decide_True.
      * by rewrite decide_True.
      * by rewrite !decide_False by tauto.
    + rewrite (decide_False (P:=j ∈ i :: is_)) by set_solver.
      by rewrite !decide_False by tauto.
Qed.

Lemma raise_prev_spec head from lvl prev j :
  (lvl <= length prev)%nat -> (from <= lvl)%nat ->
  raise_prev head from lvl prev !! j =
    if decide (from <= j < lvl)%nat then Some (Some head) else prev !! j.
Proof.
  intros Hl Hf. unfold raise_prev. remember (lvl - from)%nat as m eqn:Hm.
  revert from prev Hl Hf Hm. induction m as [|m IH]; intros from prev Hl Hf Hm; simpl.
  - by rewrite decide_False by lia.
  - rewrite IH; [|by rewrite length_insert|lia|lia].
    destruct (decide (j = from)) as [->|].
    + rewrite decide_False, decide_True by lia. apply list_lookup_insert_eq. lia.
    + rewrite list_lookup_insert_ne by done.
      destruct (decide (from <= j < lvl)%nat).
      * by rewrite decide_True by lia.
      * by rewrite decide_False by lia.
Qed.

Lemma promote_bounds fuel lvl x : (1 <= lvl <= slMaxLevel)%nat ->
  (lvl <= promote fuel lvl x <= slMaxLevel)%nat.
Proof.
  revert lvl x. induction fuel as [|fuel IH]; intros lvl x Hl; cbn [promote]; [lia|].
  destruct (_ && _) eqn:E; [|lia]. reflect_bools. specialize (IH (S lvl) (Z.shiftr x 2)). lia.
Qed.

Lemma alloc_fresh h : h !! alloc h = None.
Proof. apply (not_elem_of_dom (D:=gset loc)). unfold alloc. apply is_fresh. Qed.

Lemma tall_ext h h' i ns :
  (forall l, l ∈ ns -> height h' l = height h l) -> tall h' i ns = tall h i ns.
Proof.
  intros H. induction ns as [|l ns IH]; [done|]. unfold tall in *.
  rewrite !filter_cons, (H l), IH by set_solver. done.
Qed.

(** What [insert] builds when [key] is new: the node [n] of height [lvl] linked
    in between [pre] and [post]. *)
Section new_node.
#[local] Set Default Proof Using "All".
Context (s : skiplist) (ns : list loc) (Hwf : sl_wf s ns).
Context (key : bytes) (e : entry) (pre post : list loc).
Context (Hsp : split_at_key (sl_heap s) key ns pre post).
Context (Hneq : forall l, l ∈ post -> key_of (sl_heap s) l <> key).
Context (lvl : nat) (Hlvl : (1 <= lvl <= slMaxLevel)%nat).
Context (n : loc) (Hfresh : sl_heap s !! n = None).
Let h0 := sl_heap s.
Let h1 := <[n := mkNode key e (replicate lvl None)]> h0.
Let p (j : nat) := lst (sl_head s) (tall h0 j pre).

Lemma nn_ns l : l ∈ ns -> l <> n.
Proof. intros Hl ->. destruct (wf_in_heap s ns Hwf n Hl). congruence. Qed.

Lemma nn_sub l : l ∈ pre ++ post -> l <> n.
Proof. destruct Hsp as (Hns & _). rewrite <- Hns. apply nn_ns. Qed.

Lemma nn_head : sl_head s <> n.
Proof.
  intros Heq. pose proof (wf_head s ns Hwf) as H. unfold height in H.
  by rewrite Heq, Hfresh in H.
Qed.

Lemma nn_pred j : p j <> n.
Proof.
  unfold p. pose proof (lst_in (sl_head s) (tall h0 j pre)) as Hl.
  apply elem_of_cons in Hl as [Hl|Hl%tall_subset].
  - rewrite Hl. apply nn_head.
  - apply nn_sub. set_solver.
Qed.

Lemma nn_old l : l <> n -> h1 !! l = h0 !! l.
Proof. intros. unfold h1. by rewrite lookup_insert_ne. Qed.
Lemma nn_new : h1 !! n = Some (mkNode key e (replicate lvl None)).
Proof. unfold h1. by rewrite lookup_insert_eq. Qed.

Lemma nn_link prev :
  (forall j, (j < lvl)%nat -> prev !! j = Some (Some (p j))) ->
  exists h', link h1 n prev (seq 0 lvl) = Some h' /\ same_shape h1 h' /\
    forall x j, (x <> n -> next_of h' x j =
        if decide ((j < lvl)%nat /\ x = p j) then Some (Some n) else next_of h0 x j) /\
      ((j < lvl)%nat -> next_of h' n j = next_of h0 (p j) j).
Proof.
  intros Hprev. assert (Hx : forall x j, x <> n -> next_of h1 x j = next_of h0 x j).
  { intros x j Hx. unfold next_of. by rewrite nn_old. }
  destruct (link_spec n prev p (seq 0 lvl) h1) as (h' & Hl & Hsh & Hnx).
  - apply NoDup_seq.
  - intros j Hj%elem_of_seq. split; [apply Hprev; lia|]. split; [apply nn_pred|].
    unfold height. rewrite nn_new, (nn_old (p j)) by apply nn_pred.
    simpl. rewrite length_replicate. split; [|lia].
    apply (next_of_height h0 _ _ (head (tall h0 j post))).
    apply (pred_at s ns Hwf key pre post Hsp). lia.
  - exists h'. split; [done|]. split; [done|]. intros x j. split.
    + intros Hxn. rewrite Hnx, (decide_False (P:=x = n)), Hx by done.
      destruct (decide (j ∈ seq 0 lvl)) as [Hj|Hj]; rewrite elem_of_seq in Hj.
      * destruct (decide (x = p j)).
        -- by rewrite decide_True by (split; [lia|done]).
        -- by rewrite decide_False by tauto.
      * by rewrite decide_False by lia.
    + intros Hj. rewrite Hnx, decide_True by (apply elem_of_seq; lia).
      rewrite decide_True by done. apply Hx, nn_pred.
Qed.

Section linked.
Context (h' : heap) (Hsh : same_shape h1 h').
Context (Hnx : forall x j, (x <> n -> next_of h' x j =
      if decide ((j < lvl)%nat /\ x = p j) then Some (Some n) else next_of h0 x j) /\
    ((j < lvl)%nat -> next_of h' n j = next_of h0 (p j) j)).

Lemma nn_key l : key_of h' l = if decide (l = n) then key else key_of h0 l.
Proof.
  rewrite (shape_key _ _ _ (Hsh l)). unfold key_of.
  destruct (decide (l = n)) as [->|Hl]; [by rewrite nn_new|by rewrite nn_old].
Qed.
Lemma nn_ent l : ent_of h' l = if decide (l = n) then e else ent_of h0 l.
Proof.
  rewrite (shape_ent _ _ _ (Hsh l)). unfold ent_of.
  destruct (decide (l = n)) as [->|Hl]; [by rewrite nn_new|by rewrite nn_old].
Qed.
Lemma nn_height l : height h' l = if decide (l = n) then lvl else height h0 l.
Proof.
  rewrite (shape_height _ _ _ (Hsh l)). unfold height.
  destruct (decide (l = n)) as [->|Hl]; [|by rewrite nn_old].
  rewrite nn_new. apply length_replicate.
Qed.

Lemma nn_contents : contents h' (pre ++ n :: post) =
  contents h0 pre ++ (key, e) :: contents h0 post.
Proof.
  rewrite contents_app.
  change (contents h' (n :: post)) with ((key_of h' n, ent_of h' n) :: contents h' post).
  rewrite nn_key, nn_ent, !decide_True by done.
  assert (Hc : forall ls : list loc, (forall l, l ∈ ls -> l ∈ pre ++ post) ->
    contents h' ls = contents h0 ls).
  { intros ls Hls. apply list_fmap_ext. intros i l Hl%list_elem_of_lookup_2.
    by rewrite nn_key, nn_ent, !decide_False by (apply nn_sub; auto). }
  rewrite !Hc by set_solver. done.
Qed.

Lemma nn_sorted : StronglySorted bytes_lt (key_of h' <$> pre ++ n :: post).
Proof.
  assert (Hc : forall ls : list loc, (forall l, l ∈ ls -> l ∈ pre ++ post) ->
    key_of h' <$> ls = key_of h0 <$> ls).
  { intros ls Hls. apply list_fmap_ext. intros i l Hl%list_elem_of_lookup_2.
    by rewrite nn_key, decide_False by (apply nn_sub; auto). }
  rewrite fmap_app, fmap_cons, nn_key, decide_True by done.
  rewrite !Hc by set_solver.
  pose proof (wf_sorted s ns Hwf) as Hs. destruct Hsp as (-> & Hpre & Hpost).
  rewrite fmap_app in Hs. fold h0 in Hs, Hpre, Hpost.
  apply StronglySorted_app in Hs as (Hs1 & Hs2 & Hs3).
  assert (Hlt : forall k, k ∈ key_of h0 <$> post -> bytes_lt key k).
  { intros k (l & -> & Hl)%list_elem_of_fmap. specialize (Hpost l Hl) as H.
    apply bytes_le_iff in H as [H|H]; [done|]. by destruct (Hneq l Hl). }
  apply StronglySorted_app. split; [|split; [done|]].
  - intros x1 x2 Hx1 [->|Hx2]%elem_of_cons; [|by apply Hs1].
    apply list_elem_of_fmap in Hx1 as (l & -> & Hl). by apply Hpre.
  - constructor; [done|]. by apply Forall_forall.
Qed.

Lemma nn_tall i : tall h' i (pre ++ n :: post) =
  tall h0 i pre ++ (if decide (i < lvl)%nat then [n] else []) ++ tall h0 i post.
Proof.
  assert (Hc : forall ls : list loc, (forall l, l ∈ ls -> l ∈ pre ++ post) ->
    tall h' i ls = tall h0 i ls).
  { intros ls Hls. apply tall_ext. intros l Hl.
    by rewrite nn_height, decide_False by (apply nn_sub; auto). }
  rewrite tall_app, (Hc pre) by set_solver. f_equal.
  change (n :: post) with ([n] ++ post). rewrite tall_app, (Hc post) by set_solver. f_equal.
  assert (Hh : height h' n = lvl) by (rewrite nn_height; by rewrite decide_True).
  unfold tall. by rewrite filter_cons, filter_nil, Hh.
Qed.

Lemma nn_chain i : (i < slMaxLevel)%nat ->
  seg (fun x => next_of h' x i) (sl_head s) (tall h' i (pre ++ n :: post)).
Proof.
  intros Hi. rewrite nn_tall. pose proof (wf_chain s ns Hwf i Hi) as Hc. fold h0 in Hc.
  assert (Hnd : NoDup (sl_head s :: tall h0 i (pre ++ post))).
  { pose proof (wf_nodup s ns Hwf) as Hnd. destruct Hsp as (<- & _).
    apply NoDup_cons in Hnd as [H1 H2]. apply NoDup_cons.
    split; [by intros ?%tall_subset|]. by apply NoDup_filter. }
  assert (Hnn : n ∉ sl_head s :: tall h0 i (pre ++ post)).
  { intros [?|?%tall_subset%nn_sub]%elem_of_cons; [by destruct nn_head|done]. }
  destruct Hsp as (Hns & _). rewrite Hns in Hc. rewrite tall_app in Hc, Hnd, Hnn.
  assert (Hoth : forall y, y ∈ sl_head s :: tall h0 i pre ++ tall h0 i post -> y <> n)
    by (intros y Hy ->; done).
  destruct (decide (i < lvl)%nat) as [Hil|Hil]; cbn [app].
  - apply (seg_insert (fun x => next_of h0 x i)); auto.
    + by apply Hnx.
    + fold (p i). destruct (Hnx (p i) i) as [Hp _]. rewrite Hp by apply nn_pred.
      by rewrite decide_True.
    + intros y Hy Hyp. destruct (Hnx y i) as [Hn' _]. rewrite Hn' by (by apply Hoth).
      rewrite decide_False; [done|]. by intros [_ ?].
  - apply (seg_ext (fun x => next_of h0 x i)); [|done].
    intros y Hy. destruct (Hnx y i) as [Hn' _]. rewrite Hn' by (by apply Hoth).
    rewrite decide_False; [done|]. tauto.
Qed.

Lemma nn_wf rnd :
  sl_wf (mkSkiplist h' (sl_head s) (Nat.max lvl (sl_level s)) (sl_n s + 1) rnd)
        (pre ++ n :: post).
Proof.
  pose proof Hsp as (Hns & _). split; cbn [sl_heap sl_head sl_level sl_n].
  - rewrite nn_height, decide_False by apply nn_head. apply Hwf.
  - pose proof (wf_nodup s ns Hwf) as Hnd. rewrite Hns in Hnd.
    rewrite <- Permutation_middle, Permutation_swap. apply NoDup_cons. split; [|done].
    intros [?|?%nn_sub]%elem_of_cons; [by destruct nn_head|done].
  - intros l Hl. rewrite nn_height. destruct (decide (l = n)) as [->|Hln]; [lia|].
    assert (Hl' : l ∈ ns) by (rewrite Hns; set_solver).
    apply (wf_heights s ns Hwf) in Hl'. unfold h0. lia.
  - pose proof (wf_level s ns Hwf). lia.
  - apply nn_sorted.
  - apply nn_chain.
  - rewrite (wf_n s ns Hwf), Hns, !zlen_app, zlen_cons. lia.
Qed.
End linked.
End new_node.

(** ** The specification on split lists *)

Lemma compare_lt k k' : bytes_lt k k' -> bytes_compare k k' = Lt.
Proof. unfold bytes_lt, bytes_ltb. by destruct (bytes_compare k k'). Qed.
Lemma compare_gt k k' : bytes_lt k' k -> bytes_compare k k' = Gt.
Proof. intros H. rewrite bytes_compare_antisym, compare_lt; done. Qed.
Lemma compare_refl k : bytes_compare k k = Eq.
Proof. by apply bytes_compare_eq. Qed.

Lemma al_insert_app k e a b :
  (forall p, p ∈ a -> bytes_lt p.1 k) -> al_insert k e (a ++ b) = a ++ al_insert k e b.
Proof.
  induction a as [|[k' e'] a IH]; intros Ha; [done|]. cbn [app al_insert].
  rewrite compare_gt by (apply (Ha (k', e')); set_solver). f_equal. apply IH. set_solver.
Qed.

Lemma al_insert_new k e b :
  (forall p, p ∈ b -> bytes_lt k p.1) -> al_insert k e b = (k, e) :: b.
Proof.
  destruct b as [|[k' e'] b]; intros Hb; [done|]. cbn [al_insert].
  by rewrite compare_lt by (apply (Hb (k', e')); set_solver).
Qed.

Lemma contents_elem h ls p : p ∈ contents h ls -> exists l, l ∈ ls /\ p = (key_of h l, ent_of h l).
Proof. intros (l & -> & Hl)%list_elem_of_fmap. eauto. Qed.

Lemma sorted_nodup_key h ns l l' :
  StronglySorted bytes_lt (key_of h <$> ns) -> l ∈ ns -> l' ∈ ns ->
  key_of h l = key_of h l' -> l = l'.
Proof.
  induction ns as [|x ns IH]; intros Hs Hl Hl' Hk; [set_solver|].
  simpl in Hs. apply StronglySorted_inv in Hs as [Hs Hx].
  rewrite Forall_fmap, Forall_forall in Hx.
  apply elem_of_cons in Hl as [->|Hl]; apply elem_of_cons in Hl' as [->|Hl']; auto.
  - exfalso. specialize (Hx l' Hl'). simpl in Hx. rewrite Hk in Hx. by apply bytes_lt_irrefl in Hx.
  - exfalso. specialize (Hx l Hl). simpl in Hx. rewrite Hk in Hx. by apply bytes_lt_irrefl in Hx.
Qed.

(** ** [insert] *)

(** How the set of nodes changes: [n] holds [key], every old node is still
    there with its key, and nothing else is. *)
Definition nodes_insert (h h' : heap) (ns ns' : list loc) (n : loc) (key : bytes)
  (e : entry) : Prop :=
  n ∈ ns' /\ key_of h' n = key /\ ent_of h' n = e /\
  (forall l, l ∈ ns -> l ∈ ns' /\ key_of h' l = key_of h l /\
     (l <> n -> ent_of h' l = ent_of h l)) /\
  (forall l, l ∈ ns' -> l = n \/ l ∈ ns).

Lemma insert_hit_contents s ns key e pre t post h' :
  sl_wf s ns -> split_at_key (sl_heap s) key ns pre (t :: post) ->
  key_of (sl_heap s) t = key ->
  (forall y, key_of h' y = key_of (sl_heap s) y) ->
  (forall y, ent_of h' y = if decide (y = t) then e else ent_of (sl_heap s) y) ->
  contents h' ns = al_insert key e (contents (sl_heap s) ns).
Proof.
  intros Hwf (-> & Hpre & _) Hk Hkey Hent.
  pose proof (wf_nodup_ns s _ Hwf) as Hnd.
  assert (Hc : forall ls : list loc, t ∉ ls -> contents h' ls = contents (sl_heap s) ls).
  { intros ls Hls. apply list_fmap_ext. intros i l Hl%list_elem_of_lookup_2.
    rewrite Hkey, Hent, decide_False; [done|]. intros ->. done. }
  apply NoDup_app in Hnd as (_ & Hdis & Hnd). apply NoDup_cons in Hnd as [Ht _].
  rewrite !contents_app. cbn [contents fmap list_fmap].
  rewrite (Hc pre) by (intros Hp; apply (Hdis t Hp); set_solver).
  rewrite al_insert_app.
  2:{ intros p (l & Hl & ->)%contents_elem. by apply Hpre. }
  f_equal. cbn [al_insert]. rewrite Hk, compare_refl.
  rewrite Hkey, Hent, Hk, decide_True by done. f_equal. by apply Hc.
Qed.

Lemma post_neq s ns key pre t post :
  sl_wf s ns -> split_at_key (sl_heap s) key ns pre (t :: post) ->
  key_of (sl_heap s) t <> key -> forall l, l ∈ t :: post -> bytes_lt key (key_of (sl_heap s) l).
Proof.
  intros Hwf (-> & _ & Hpost) Hk. pose proof (wf_sorted s _ Hwf) as Hs.
  rewrite fmap_app in Hs. apply StronglySorted_app in Hs as (_ & _ & Hs).
  simpl in Hs. apply StronglySorted_inv in Hs as [_ Hs].
  rewrite Forall_fmap, Forall_forall in Hs.
  assert (Ht : bytes_lt key (key_of (sl_heap s) t)).
  { destruct (proj1 (bytes_le_iff _ _) (Hpost t ltac:(set_solver))) as [|H]; [done|congruence]. }
  intros l [->|Hl]%elem_of_cons; [done|]. eapply bytes_lt_trans; [exact Ht|].
  by apply Hs.
Qed.

Lemma insert_node_wf s ns key e pre post prev :
  sl_wf s ns -> split_at_key (sl_heap s) key ns pre post ->
  (forall l, l ∈ post -> bytes_lt key (key_of (sl_heap s) l)) ->
  length prev = slMaxLevel ->
  (forall j, (j < sl_level s)%nat ->
     prev !! j = Some (Some (lst (sl_head s) (tall (sl_heap s) j pre)))) ->
  exists n s' ns', insert_node s prev key e = Some (n, s') /\ sl_wf s' ns' /\
    contents (sl_heap s') ns' = al_insert key e (contents (sl_heap s) ns) /\
    nodes_insert (sl_heap s) (sl_heap s') ns ns' n key e.
Proof.
  intros Hwf Hsp Hpost Hlen Hprev. unfold insert_node, randomLevel.
  cbn [sl_heap sl_head sl_level sl_n sl_rnd].
  set (lvl := promote slMaxLevel 1 (xorshift (sl_rnd s))).
  assert (Hlvl : (1 <= lvl <= slMaxLevel)%nat) by (apply promote_bounds; unfold slMaxLevel; lia).
  set (prev' := if (sl_level s <? lvl)%nat then _ else prev).
  set (n := alloc (sl_heap s)). pose proof (alloc_fresh (sl_heap s)) as Hfresh. fold n in Hfresh.
  assert (Hneq : forall l, l ∈ post -> key_of (sl_heap s) l <> key).
  { intros l Hl Heq. specialize (Hpost l Hl). rewrite Heq in Hpost.
    by apply bytes_lt_irrefl in Hpost. }
  destruct (nn_link s ns Hwf key e pre post Hsp Hneq lvl Hlvl n Hfresh prev')
    as (h' & Hlink & Hsh & Hnx).
  { intros j Hj. unfold prev'. destruct (Nat.ltb_spec (sl_level s) lvl); [|apply Hprev; lia].
    rewrite raise_prev_spec by lia. destruct (decide _) as [Hj'|]; [|apply Hprev; lia].
    by rewrite (tall_above_pre s ns Hwf key pre post Hsp) by lia. }
  rewrite Hlink. cbn [mbind option_bind].
  assert (Hmax : (if (sl_level s <? lvl)%nat then lvl else sl_level s) = Nat.max lvl (sl_level s))
    by (destruct (Nat.ltb_spec (sl_level s) lvl); lia).
  rewrite Hmax. do 2 eexists. exists (pre ++ n :: post). split; [done|].
  cbn [sl_heap]. split; [by apply (nn_wf s ns Hwf key e pre post Hsp Hneq lvl Hlvl n Hfresh)|].
  rewrite (nn_contents s ns Hwf key e pre post Hsp Hneq lvl Hlvl n Hfresh h' Hsh Hnx). pose proof Hsp as (Hns & Hpre & _).
  split.
  - rewrite Hns, contents_app, al_insert_app, al_insert_new; [done| |].
    + intros q (l & Hl & ->)%contents_elem. by apply Hpost.
    + intros q (l & Hl & ->)%contents_elem. by apply Hpre.
  - pose proof (nn_key s ns Hwf key e pre post Hsp Hneq lvl Hlvl n Hfresh h' Hsh Hnx) as Hkey.
    pose proof (nn_ent s ns Hwf key e pre post Hsp Hneq lvl Hlvl n Hfresh h' Hsh Hnx) as Hent.
    split; [clear; set_solver|]. split; [by rewrite Hkey, decide_True|].
    split; [by rewrite Hent, decide_True|]. split.
    + intros l Hl. split; [rewrite Hns in Hl; clear -Hl; set_solver|].
      pose proof (nn_ns s ns Hwf key e pre post Hsp Hneq lvl Hlvl n Hfresh l Hl).
      by rewrite Hkey, Hent, !decide_False.
    + rewrite Hns. clear. set_solver.
Qed.

Lemma insert_wf s ns key e : sl_wf s ns ->
  exists n s' ns', insert s key e = Some (n, s') /\ sl_wf s' ns' /\
    contents (sl_heap s') ns' = al_insert key e (contents (sl_heap s) ns) /\
    nodes_insert (sl_heap s) (sl_heap s') ns ns' n key e.
Proof.
  intros Hwf. destruct (split_exists _ key _ (wf_sorted s ns Hwf)) as (pre & post & Hsp).
  destruct (find_prev_spec s ns Hwf key pre post Hsp) as (prev & Hf & Hlen & Hprev).
  unfold insert. rewrite Hf. cbn [mbind option_bind].
  rewrite (next_0 s ns Hwf key pre post Hsp). cbn [mbind option_bind].
  destruct post as [|t post]; cbn [head].
  { apply (insert_node_wf s ns key e pre []); auto. set_solver. }
  assert (Ht : t ∈ ns) by (destruct Hsp as (-> & _); set_solver).
  destruct (wf_in_heap s ns Hwf t Ht) as [nd Hnd]. rewrite Hnd. cbn [mbind option_bind].
  assert (Hk : key_of (sl_heap s) t = n_key nd) by (unfold key_of; by rewrite Hnd).
  destruct (bool_decide_reflect (n_key nd = key)) as [Heq|Hne].
  2:{ apply (insert_node_wf s ns key e pre (t :: post)); auto.
      apply (post_neq s ns key pre t post); auto. congruence. }
  destruct (set_ent_spec (sl_heap s) t e) as (h' & -> & Hn & Hh & Hkey & Hent); [eauto|].
  cbn [mbind option_bind]. do 2 eexists. exists ns. split; [done|]. cbn [sl_heap].
  split; [by apply wf_same_links|]. split.
  - apply (insert_hit_contents s ns key e pre t post); auto. congruence.
  - split; [done|]. split; [rewrite Hkey; congruence|].
    split; [by rewrite Hent, decide_True|]. split; [|auto].
    intros l Hl. split; [done|]. split; [done|]. intros. by rewrite Hent, decide_False.
Qed.

(** ** Unlinking a node *)

Lemma unlink_spec t prev p is_ h :
  NoDup is_ ->
  (forall j, j ∈ is_ -> prev !! j = Some (Some (p j)) /\
     exists nx, next_of h (p j) j = Some nx /\ (nx = Some t <-> (j < height h t)%nat)) ->
  exists h', unlink h t prev is_ = Some h' /\ same_shape h h' /\
    forall x j, next_of h' x j =
      if decide (j ∈ is_ /\ (j < height h t)%nat /\ x = p j)
      then next_of h t j else next_of h x j.
Proof.
  revert h. induction is_ as [|i is_ IH]; intros h Hnd Hp.
  { exists h. split; [done|]. split; [by intros l|]. intros x j.
    rewrite decide_False; [done|]. intros [[]%not_elem_of_nil _]. }
  apply NoDup_cons in Hnd as [Hi Hnd].
  destruct (Hp i ltac:(set_solver)) as (Hpi & nx & Hnx & Hiff).
  cbn [unlink]. rewrite Hpi. cbn [mbind option_bind]. rewrite Hnx. cbn [mbind option_bind].
  assert (Hstep : exists h1, (if bool_decide (nx = Some t)
      then tn ← next_of h t i; set_next h (p i) i tn else Some h) = Some h1 /\
      same_shape h h1 /\ forall x j, next_of h1 x j =
        if decide (j = i /\ (i < height h t)%nat /\ x = p i) then next_of h t i else next_of h x j).
  { destruct (bool_decide_reflect (nx = Some t)) as [Hx|Hx].
    - apply Hiff in Hx. assert (exists tn, next_of h t i = Some tn) as [tn Htn].
      { unfold next_of, height in *. destruct (h !! t) as [nd|]; [|lia]. simpl.
        destruct (lookup_lt_is_Some_2 (n_next nd) i Hx); eauto. }
      rewrite Htn. cbn [mbind option_bind].
      destruct (set_next_spec h (p i) i tn (next_of_height _ _ _ _ Hnx)) as (h1 & -> & Hs & Hn).
      exists h1. split; [done|]. split; [done|]. intros x j. rewrite Hn.
      destruct (decide (x = p i /\ j = i)).
      + by rewrite decide_True by tauto.
      + by rewrite decide_False by tauto.
    - exists h. split; [done|]. split; [by intros l|]. intros x j.
      rewrite decide_False; [done|]. tauto. }
  destruct Hstep as (h1 & -> & Hs1 & Hn1). cbn [mbind option_bind].
  assert (Hht : height h1 t = height h t) by (apply shape_height, Hs1).
  assert (Hsame : forall y j, j ∈ is_ -> next_of h1 y j = next_of h y j).
  { intros y j Hj. rewrite Hn1, decide_False; [done|]. intros (-> & _). done. }
  destruct (IH h1 Hnd) as (h' & -> & Hs & Hn').
  { intros j Hj. destruct (Hp j ltac:(set_solver)) as (? & nx' & ? & ?).
    split; [done|]. exists nx'. by rewrite Hsame, Hht. }
  exists h'. split; [done|]. split; [by etransitivity|].
  intros x j. rewrite Hn', Hht. destruct (decide (j ∈ is_)) as [Hj|Hj].
  - rewrite !Hsame by done. destruct (decide (x = p j)), (decide (j < height h t)%nat).
    + by rewrite !decide_True by set_solver.
    + by rewrite !decide_False by tauto.
    + by rewrite !decide_False by tauto.
    + by rewrite !decide_False by tauto.
  - rewrite decide_False by tauto. rewrite Hn1.
    destruct (decide (j = i)) as [->|Hji].
    + destruct (decide (x = p i)), (decide (i < height h t)%nat).
      * by rewrite !decide_True by set_solver.
      * by rewrite !decide_False by tauto.
      * by rewrite !decide_False by tauto.
      * by rewrite !decide_False by tauto.
    + rewrite !decide_False; [done| |]; [set_solver|tauto].
Qed.

Lemma lower_spec h hd level :
  (1 <= level)%nat -> (forall i, (i < level)%nat -> is_Some (next_of h hd i)) ->
  exists lv, lower h hd level = Some lv /\ (1 <= lv <= level)%nat /\
    forall i, (lv <= i < level)%nat -> next_of h hd i = Some None.
Proof.
  induction level as [|[|l] IH]; intros Hl Hs; [lia| |].
  - exists 1%nat. split; [done|]. split; [lia|]. lia.
  - change (lower h hd (S (S l))) with
      (nx ← next_of h hd (S l);
       match nx with None => lower h hd (S l) | Some _ => Some (S (S l)) end).
    destruct (Hs (S l) ltac:(lia)) as [nx Hnx]. rewrite Hnx.
    cbn [mbind option_bind]. destruct nx.
    + exists (S (S l)). split; [done|]. split; [lia|]. lia.
    + destruct IH as (lv & -> & Hlv & Hi); [lia|intros; apply Hs; lia|].
      exists lv. split; [done|]. split; [lia|]. intros i Hi'.
      destruct (decide (i = S l)) as [->|]; [done|]. apply Hi. lia.
Qed.

Section removed_node.
#[local] Set Default Proof Using "All".
Context (s : skiplist) (key : bytes) (pre post : list loc) (t : loc).
Context (Hwf : sl_wf s (pre ++ t :: post)).
Context (Hsp : split_at_key (sl_heap s) key (pre ++ t :: post) pre (t :: post)).
Let h0 := sl_heap s.
Let p (j : nat) := lst (sl_head s) (tall h0 j pre).

Lemma rn_tall i : tall h0 i (t :: post) =
  (if decide (i < height h0 t)%nat then [t] else []) ++ tall h0 i post.
Proof. unfold tall. rewrite filter_cons. by destruct (decide _). Qed.

Lemma rn_notin : t ∉ pre /\ t ∉ post /\ t <> sl_head s /\ NoDup (sl_head s :: pre ++ post).
Proof.
  pose proof (wf_nodup s _ Hwf) as Hnd.
  rewrite <- Permutation_middle, Permutation_swap in Hnd.
  apply NoDup_cons in Hnd as [H1 H2]. clear -H1 H2. set_solver.
Qed.

Lemma rn_unlink prev :
  (forall j, (j < sl_level s)%nat -> prev !! j = Some (Some (p j))) ->
  exists h', unlink h0 t prev (seq 0 (sl_level s)) = Some h' /\ same_shape h0 h' /\
    forall x j, next_of h' x j =
      if decide ((j < height h0 t)%nat /\ x = p j) then next_of h0 t j else next_of h0 x j.
Proof.
  intros Hprev. pose proof (wf_level s _ Hwf) as Hlev.
  assert (Ht : (1 <= height h0 t <= sl_level s)%nat)
    by (apply (wf_heights s _ Hwf); clear; set_solver).
  destruct (unlink_spec t prev p (seq 0 (sl_level s)) h0) as (h' & Hu & Hsh & Hn).
  - apply NoDup_seq.
  - intros j Hj%elem_of_seq. split; [apply Hprev; lia|].
    eexists. split; [apply (pred_at s _ Hwf key pre (t :: post) Hsp); lia|].
    fold h0. rewrite rn_tall. destruct (decide (j < height h0 t)%nat); simpl; [done|].
    split; [|lia]. intros Hh. exfalso. destruct rn_notin as (_ & Hp & _). apply Hp.
    apply (tall_subset h0 j). destruct (tall h0 j post); simplify_eq/=. clear; set_solver.
  - exists h'. split; [done|]. split; [done|]. intros x j. rewrite Hn.
    destruct (decide ((j < height h0 t)%nat /\ x = p j)) as [[H1 H2]|H].
    + rewrite decide_True; [done|]. split; [apply elem_of_seq; lia|done].
    + rewrite decide_False; [done|]. tauto.
Qed.

Section unlinked.
Context (h' : heap) (Hsh : same_shape h0 h').
Context (Hnx : forall x j, next_of h' x j =
    if decide ((j < height h0 t)%nat /\ x = p j) then next_of h0 t j else next_of h0 x j).

Lemma rn_chain i : (i < slMaxLevel)%nat ->
  seg (fun x => next_of h' x i) (sl_head s) (tall h' i (pre ++ post)).
Proof.
  intros Hi. rewrite (tall_ext h0) by (intros; apply shape_height, Hsh).
  pose proof (wf_chain s _ Hwf i Hi) as Hc. fold h0 in Hc.
  rewrite tall_app, rn_tall in Hc. rewrite tall_app.
  destruct (decide (i < height h0 t)%nat) as [Hit|Hit]; cbn [app] in Hc.
  - apply (seg_remove (fun x => next_of h0 x i) _ _ _ t); [|done| |].
    + destruct rn_notin as (H1 & H2 & H3 & H4).
      rewrite <- Permutation_middle, Permutation_swap. apply NoDup_cons. split.
      * intros Hin. apply elem_of_cons in Hin as [|Hin]; [done|].
        rewrite <- tall_app in Hin. apply tall_subset in Hin. clear -Hin H1 H2. set_solver.
      * apply NoDup_cons in H4 as [H4 H5]. apply NoDup_cons. rewrite <- tall_app.
        split; [by intros ?%tall_subset|]. by apply NoDup_filter.
    + rewrite Hnx, decide_True by done. done.
    + intros y _ Hy. rewrite Hnx, decide_False; [done|]. by intros [_ ?].
  - apply (seg_ext (fun x => next_of h0 x i)); [|done].
    intros y _. rewrite Hnx, decide_False; [done|]. tauto.
Qed.

Lemma rn_wf :
  exists lv, lower h' (sl_head s) (sl_level s) = Some lv /\
    sl_wf (mkSkiplist h' (sl_head s) lv (sl_n s - 1) (sl_rnd s)) (pre ++ post).
Proof.
  pose proof (wf_level s _ Hwf) as Hlev.
  destruct (lower_spec h' (sl_head s) (sl_level s)) as (lv & Hlow & Hlv & Hnone); [lia| |].
  { intros i Hi. rewrite (seg_head _ _ _ (rn_chain i ltac:(lia))). eauto. }
  exists lv. split; [done|]. split; cbn [sl_heap sl_head sl_level sl_n].
  - rewrite (shape_height _ _ _ (Hsh _)). apply Hwf.
  - apply rn_notin.
  - intros l Hl. rewrite (shape_height _ _ _ (Hsh _)).
    assert (Hl' : l ∈ pre ++ t :: post) by (clear -Hl; set_solver).
    apply (wf_heights s _ Hwf) in Hl' as Hh. fold h0 in Hh. split; [lia|].
    destruct (decide (height h0 l <= lv)%nat) as [|Hgt]; [done|]. exfalso.
    pose proof (Hnone (height h0 l - 1)%nat ltac:(lia)) as Hn.
    rewrite (seg_head _ _ _ (rn_chain (height h0 l - 1) ltac:(lia))) in Hn.
    assert (Hin : l ∈ tall h' (height h0 l - 1) (pre ++ post)).
    { apply list_elem_of_filter. split; [|done].
      rewrite (shape_height _ _ _ (Hsh l)). lia. }
    destruct (tall h' _ _); [|done]. by apply not_elem_of_nil in Hin.
  - lia.
  - rewrite (list_fmap_ext _ (key_of h0)) by (intros; apply shape_key, Hsh).
    pose proof (wf_sorted s _ Hwf) as Hs. fold h0 in Hs.
    rewrite fmap_app in *. apply StronglySorted_app in Hs as (H1 & H2 & H3).
    apply StronglySorted_app. simpl in H3. apply StronglySorted_inv in H3 as [H3 _].
    split; [|done]. intros; apply H1; [done|]. simpl. clear -H0. set_solver.
  - apply rn_chain.
  - rewrite (wf_n s _ Hwf), !zlen_app, zlen_cons. lia.
Qed.
End unlinked.
End removed_node.

(** ** [remove] *)

Lemma al_remove_none k l : (forall p, p ∈ l -> p.1 <> k) -> al_remove k l = l.
Proof.
  unfold al_remove. induction l as [|p l IH]; intros H; [done|].
  rewrite filter_cons_True by (apply H; set_solver). f_equal. apply IH. set_solver.
Qed.

Lemma lt_neq k k' : bytes_lt k k' -> k <> k'.
Proof. intros H ->. by apply bytes_lt_irrefl in H. Qed.

(** How the set of nodes changes: exactly the node of [key] goes. *)
Definition nodes_remove (h h' : heap) (ns ns' : list loc) (key : bytes) : Prop :=
  (forall l, l ∈ ns' <-> l ∈ ns /\ key_of h l <> key) /\
  (forall l, l ∈ ns' -> key_of h' l = key_of h l /\ ent_of h' l = ent_of h l).

Lemma remove_miss s ns key pre post :
  split_at_key (sl_heap s) key ns pre post ->
  (forall l, l ∈ post -> bytes_lt key (key_of (sl_heap s) l)) ->
  contents (sl_heap s) ns = al_remove key (contents (sl_heap s) ns) /\
  nodes_remove (sl_heap s) (sl_heap s) ns ns key.
Proof.
  intros (-> & Hpre & _) Hpost.
  assert (Hne : forall l, l ∈ pre ++ post -> key_of (sl_heap s) l <> key).
  { intros l [Hl|Hl]%elem_of_app; [by apply lt_neq, Hpre|].
    intros Heq. apply (lt_neq _ _ (Hpost l Hl)). done. }
  split.
  - symmetry. apply al_remove_none. intros p (l & Hl & ->)%contents_elem. by apply Hne.
  - split; [|done]. intros l. split; [auto|tauto].
Qed.

Lemma remove_hit s key pre t post h' :
  sl_wf s (pre ++ t :: post) ->
  split_at_key (sl_heap s) key (pre ++ t :: post) pre (t :: post) ->
  key_of (sl_heap s) t = key -> same_shape (sl_heap s) h' ->
  contents h' (pre ++ post) = al_remove key (contents (sl_heap s) (pre ++ t :: post)) /\
  nodes_remove (sl_heap s) h' (pre ++ t :: post) (pre ++ post) key.
Proof.
  intros Hwf (_ & Hpre & _) Hk Hsh.
  assert (Hc : contents h' (pre ++ post) = contents (sl_heap s) (pre ++ post)).
  { apply list_fmap_ext. intros i l _.
    by rewrite (shape_key _ _ _ (Hsh l)), (shape_ent _ _ _ (Hsh l)). }
  pose proof (wf_nodup_ns s _ Hwf) as Hnd. rewrite <- Permutation_middle in Hnd.
  apply NoDup_cons in Hnd as [Ht _].
  assert (Hne : forall l, l ∈ pre ++ post -> key_of (sl_heap s) l <> key).
  { intros l Hl Heq. apply Ht. rewrite <- (sorted_nodup_key (sl_heap s) (pre ++ t :: post) l t);
      [done|apply Hwf|clear -Hl; set_solver|clear; set_solver|congruence]. }
  split.
  - rewrite Hc, !contents_app. unfold al_remove. rewrite filter_app.
    change (contents (sl_heap s) (t :: post)) with
      ((key_of (sl_heap s) t, ent_of (sl_heap s) t) :: contents (sl_heap s) post).
    rewrite filter_cons_False by (simpl; tauto). f_equal; symmetry; apply al_remove_none;
      intros p (l & Hl & ->)%contents_elem; apply Hne; clear -Hl; set_solver.
  - split; [|intros; split; [apply shape_key, Hsh|apply shape_ent, Hsh]]. intros l. split.
    + intros Hl. split; [clear -Hl; set_solver|auto].
    + intros [Hl Hkl]. apply elem_of_app in Hl as [Hl|[->|Hl]%elem_of_cons];
        [clear -Hl; set_solver|done|clear -Hl; set_solver].
Qed.

Lemma remove_wf s ns key : sl_wf s ns ->
  exists b s' ns', remove s key = Some (b, s') /\ sl_wf s' ns' /\
    contents (sl_heap s') ns' = al_remove key (contents (sl_heap s) ns) /\
    nodes_remove (sl_heap s) (sl_heap s') ns ns' key /\
    (b = true <-> exists l, l ∈ ns /\ key_of (sl_heap s) l = key).
Proof.
  intros Hwf. destruct (split_exists _ key _ (wf_sorted s ns Hwf)) as (pre & post & Hsp).
  destruct (find_prev_spec s ns Hwf key pre post Hsp) as (prev & Hf & Hlen & Hprev).
  unfold remove. rewrite Hf. cbn [mbind option_bind].
  rewrite (next_0 s ns Hwf key pre post Hsp). cbn [mbind option_bind].
  assert (Hmiss : (forall l, l ∈ post -> bytes_lt key (key_of (sl_heap s) l)) ->
    ~ exists l, l ∈ ns /\ key_of (sl_heap s) l = key).
  { intros Hpost (l & Hl & Hk). destruct Hsp as (-> & Hpre & _).
    apply elem_of_app in Hl as [Hl|Hl].
    - by apply (lt_neq _ _ (Hpre l Hl)).
    - by apply (lt_neq _ _ (Hpost l Hl)). }
  destruct post as [|t post]; cbn [head].
  { destruct (remove_miss s ns key pre [] Hsp) as [H1 H2]; [set_solver|].
    exists false, s, ns. split; [done|]. split; [done|]. split; [done|]. split; [done|].
    split; [done|]. intros Hex. exfalso. revert Hex. apply Hmiss. set_solver. }
  assert (Ht : t ∈ ns) by (destruct Hsp as (-> & _); set_solver).
  destruct (wf_in_heap s ns Hwf t Ht) as [nd Hnd]. rewrite Hnd. cbn [mbind option_bind].
  assert (Hk : key_of (sl_heap s) t = n_key nd) by (unfold key_of; by rewrite Hnd).
  destruct (bool_decide_reflect (n_key nd = key)) as [Heq|Hne].
  2:{ assert (Hpost : forall l, l ∈ t :: post -> bytes_lt key (key_of (sl_heap s) l))
        by (apply (post_neq s ns key pre t post); auto; congruence).
      destruct (remove_miss s ns key pre (t :: post) Hsp Hpost) as [H1 H2].
      exists false, s, ns. split; [done|]. split; [done|]. split; [done|]. split; [done|].
      split; [done|]. intros Hex. by destruct (Hmiss Hpost). }
  pose proof Hsp as (Hns & _). rewrite Hns in Hwf, Hsp |- *.
  destruct (rn_unlink s key pre post t Hwf Hsp prev Hprev) as (h' & -> & Hsh & Hnx).
  cbn [mbind option_bind].
  destruct (rn_wf s key pre post t Hwf Hsp h' Hsh Hnx) as (lv & -> & Hwf').
  destruct (remove_hit s key pre t post h' Hwf Hsp) as [H1 H2]; [congruence|done|].
  cbn [mbind option_bind]. do 2 eexists. exists (pre ++ post).
  split; [done|]. cbn [sl_heap]. split; [done|]. split; [done|]. split; [done|].
  split; [|done]. intros _. exists t. split; [clear; set_solver|congruence].
Qed.

(** ** The empty list *)

Lemma newSkiplist_wf : sl_wf newSkiplist [].
Proof.
  split; try done.
  - constructor; [set_solver|constructor].
  - set_solver.
  - unfold slMaxLevel. simpl. lia.
  - constructor.
  - intros i Hi. unfold tall. rewrite filter_nil. cbn [seg newSkiplist sl_heap sl_head].
    unfold next_of. rewrite lookup_singleton_eq. cbn [mbind option_bind n_next].
    by apply lookup_replicate_2.
Qed.

Lemma newSkiplist_rep : sl_rep newSkiplist [].
Proof. exists []. split; [apply newSkiplist_wf|done]. Qed.

(** ** Properties *)

(** C34: [insert] refines insertion into a sorted map.  On every list that
    satisfies the representation invariant it neither panics nor loops, keeps
    the invariant (all twenty levels consistently linked), and the entries it
    then holds are the old ones with the key added or overwritten in place; the
    returned node is the one that holds the key. *)
Theorem skiplist_insert_refines s l key e :
  sl_rep s l ->
  exists n s', insert s key e = Some (n, s') /\ sl_rep s' (al_insert key e l) /\
    key_of (sl_heap s') n = key /\ ent_of (sl_heap s') n = e.
Proof.
  intros (ns & Hwf & ->).
  destruct (insert_wf s ns key e Hwf) as (n & s' & ns' & Hi & Hwf' & Hc & Hn).
  exists n, s'. split; [done|]. split; [by exists ns'|]. split; apply Hn.
Qed.

Definition demo_entry : entry := mkEntry 0 1 0 30 false.

Lemma skiplist_insert_refines_witness :
  exists n s', insert newSkiplist [x62] demo_entry = Some (n, s') /\
               sl_rep s' [([x62], demo_entry)].
Proof.
  destruct (skiplist_insert_refines newSkiplist [] [x62] demo_entry newSkiplist_rep)
    as (n & s' & H1 & H2 & _).
  exists n, s'. split; [exact H1|exact H2].
Defined.

(** C35: [remove] refines deletion from a sorted map: it neither panics nor
    loops, unlinks the key's node from every level (and lowers the list's level)
    while keeping the invariant, reports whether the key was there, and leaves
    every other entry in place. *)
Theorem skiplist_remove_refines s l key :
  sl_rep s l ->
  exists b s', remove s key = Some (b, s') /\ sl_rep s' (al_remove key l) /\
    (b = true <-> key ∈ l.*1).
Proof.
  intros (ns & Hwf & ->).
  destruct (remove_wf s ns key Hwf) as (b & s' & ns' & Hr & Hwf' & Hc & _ & Hb).
  exists b, s'. split; [done|]. split; [by exists ns'|]. rewrite Hb. unfold contents.
  rewrite <- list_fmap_compose, list_elem_of_fmap. simpl.
  split; intros (x & H1 & H2); exists x; auto.
Qed.

Lemma skiplist_remove_refines_witness :
  exists b s', remove newSkiplist [x62] = Some (b, s') /\ sl_rep s' [] /\ b = false.
Proof.
  destruct (skiplist_remove_refines newSkiplist [] [x62] newSkiplist_rep)
    as (b & s' & H1 & H2 & H3).
  exists b, s'. split; [exact H1|]. split; [exact H2|].
  destruct b; [|reflexivity]. destruct (not_elem_of_nil [x62] (proj1 H3 eq_refl)).
Defined.



(** C37: [randomLevel] always returns a level between 1 and [slMaxLevel], and
    keeps the generator's state a 64-bit word, so the arrays indexed by level
    are never overrun. *)
Theorem randomLevel_bounds s :
  is_u64 (sl_rnd s) ->
  (1 <= (randomLevel s).1 <= slMaxLevel)%nat /\ is_u64 (sl_rnd (randomLevel s).2) /\
  sl_heap (randomLevel s).2 = sl_heap s.
Proof.
  intros Hr. split; [apply promote_bounds; unfold slMaxLevel; lia|]. split; [|done].
  cbn [randomLevel snd sl_rnd]. unfold xorshift.
  assert (Hx : forall a b, is_u64 a -> is_u64 b -> is_u64 (Z.lxor a b))
    by (intros; apply lxor_range; auto; lia).
  assert (Hs : forall a, is_u64 a -> is_u64 (Z.shiftr a 7)).
  { unfold is_u64. intros a Ha. rewrite Z.shiftr_div_pow2 by lia.
    change (2 ^ 7) with 128. Z.div_mod_to_equations; lia. }
  auto 10 using u64_range.
Qed.

Lemma randomLevel_bounds_witness : (1 <= (randomLevel newSkiplist).1 <= slMaxLevel)%nat.
Proof. apply (randomLevel_bounds newSkiplist). vm_compute. split; congruence. Defined.
