(* ===== verification/Index.v ===== *)
(** * The in-memory index: hash map plus skip list (Store.keys and Store.order)

    store.go keeps two structures over the same nodes: [keys], a hash map from
    keys to node pointers, and [order], the skip list those nodes are linked
    in.  An entry is changed by writing through the pointer found in [keys];
    the skip list sees the change because it is the same node.  [KeyIndex] is
    the interface the store uses, [KeyIndexSpec] what the store may rely on:
    the pair behaves as one finite map, traversed in key order.  The instance
    discharges the laws from the skip list's lemmas and the invariant that
    [keys] points at exactly the linked nodes. *)

From S2P Require Import Prelude Bytes Datafile Skiplist.

Local Open Scope Z_scope.

(** ** The interface *)

Class KeyIndex (I : Type) := {
  idx_empty : I;
  (** [n, ok := s.keys[key]], then [n.ent] *)
  idx_get : bytes -> I -> option entry;
  (** [n.ent = e] for the node [n] of [key] *)
  idx_set : bytes -> entry -> I -> I;
  (** [s.keys[k] = s.order.insert(k, e)] *)
  idx_insert : bytes -> entry -> I -> I;
  (** [delete(s.keys, k); s.order.remove(k)] *)
  idx_delete : bytes -> I -> I;
  (** [for n := s.order.seek(k); n != nil; n = n.next[0]] *)
  idx_from : bytes -> I -> list (bytes * entry);
  (** [for _, node := range s.keys] *)
  idx_elems : I -> list (bytes * entry)
}.

Class KeyIndexSpec (I : Type) `{KeyIndex I} := {
  idx_wf : I -> Prop;
  idx_view : I -> gmap bytes entry;
  idx_empty_ok : idx_wf idx_empty /\ idx_view idx_empty = ∅;
  idx_get_ok i k : idx_wf i -> idx_get k i = idx_view i !! k;
  idx_set_ok i k e : idx_wf i -> is_Some (idx_view i !! k) ->
    idx_wf (idx_set k e i) /\ idx_view (idx_set k e i) = <[k := e]> (idx_view i);
  idx_insert_ok i k e : idx_wf i -> idx_view i !! k = None ->
    idx_wf (idx_insert k e i) /\ idx_view (idx_insert k e i) = <[k := e]> (idx_view i);
  idx_delete_ok i k : idx_wf i ->
    idx_wf (idx_delete k i) /\ idx_view (idx_delete k i) = delete k (idx_view i);
  idx_from_sorted i k : idx_wf i -> StronglySorted bytes_lt (idx_from k i).*1;
  idx_from_elem i k k' e : idx_wf i ->
    (k', e) ∈ idx_from k i <-> idx_view i !! k' = Some e /\ bytes_le k k';
  idx_elems_ok i : idx_wf i -> idx_elems i ≡ₚ map_to_list (idx_view i)
}.

(** ** The implementation *)

Record index := mkIndex { ix_keys : gmap bytes loc; ix_order : skiplist }.

Definition ix_empty : index := mkIndex ∅ newSkiplist.

Definition ix_get (k : bytes) (ix : index) : option entry :=
  l ← ix_keys ix !! k; nd ← sl_heap (ix_order ix) !! l; Some (n_ent nd).

Definition with_heap (s : skiplist) (h : heap) : skiplist :=
  mkSkiplist h (sl_head s) (sl_level s) (sl_n s) (sl_rnd s).

(** A panic would leave the index as it was; none occurs on a well-formed one. *)
Definition ix_set (k : bytes) (e : entry) (ix : index) : index :=
  default ix (l ← ix_keys ix !! k; h ← set_ent (sl_heap (ix_order ix)) l e;
              Some (mkIndex (ix_keys ix) (with_heap (ix_order ix) h))).

Definition ix_insert (k : bytes) (e : entry) (ix : index) : index :=
  default ix (ns ← insert (ix_order ix) k e;
              Some (mkIndex (<[k := ns.1]> (ix_keys ix)) ns.2)).

Definition ix_delete (k : bytes) (ix : index) : index :=
  default ix (bs ← remove (ix_order ix) k;
              Some (mkIndex (delete k (ix_keys ix)) bs.2)).

Definition ix_from (k : bytes) (ix : index) : list (bytes * entry) :=
  default [] (x ← seek (ix_order ix) k;
              chain (size (sl_heap (ix_order ix))) (sl_heap (ix_order ix)) x).

Definition ix_elems (ix : index) : list (bytes * entry) :=
  (fun kl => (kl.1, ent_of (sl_heap (ix_order ix)) kl.2)) <$> map_to_list (ix_keys ix).

#[global] Instance skip_index : KeyIndex index := {
  idx_empty := ix_empty;
  idx_get := ix_get;
  idx_set := ix_set;
  idx_insert := ix_insert;
  idx_delete := ix_delete;
  idx_from := ix_from;
  idx_elems := ix_elems
}.

(** ** Its invariant and abstraction *)

(** [keys] maps each key to the linked node that holds it, and nothing else. *)
Definition keys_match (keys : gmap bytes loc) (h : heap) (ns : list loc) : Prop :=
  forall k l, keys !! k = Some l <-> l ∈ ns /\ key_of h l = k.

Definition ix_wf (ix : index) : Prop :=
  exists ns, sl_wf (ix_order ix) ns /\ keys_match (ix_keys ix) (sl_heap (ix_order ix)) ns.

Definition ix_view (ix : index) : gmap bytes entry :=
  ent_of (sl_heap (ix_order ix)) <$> ix_keys ix.

Lemma ix_view_lookup ix k :
  ix_view ix !! k = ent_of (sl_heap (ix_order ix)) <$> ix_keys ix !! k.
Proof. apply lookup_fmap. Qed.

Lemma ix_empty_ok : ix_wf ix_empty /\ ix_view ix_empty = ∅.
Proof.
  split; [|apply fmap_empty]. exists []. split; [apply newSkiplist_wf|].
  intros k l. cbn [ix_empty ix_keys]. rewrite lookup_empty. split; [done|].
  by intros [?%not_elem_of_nil _].
Qed.

Lemma ix_get_ok ix k : ix_wf ix -> ix_get k ix = ix_view ix !! k.
Proof.
  intros (ns & Hwf & Hk). rewrite ix_view_lookup. unfold ix_get.
  destruct (ix_keys ix !! k) as [l|] eqn:E; cbn [mbind option_bind fmap option_fmap option_map];
    [|done].
  apply Hk in E as [Hl _]. destruct (wf_in_heap _ ns Hwf l Hl) as [nd Hnd].
  unfold ent_of. by rewrite Hnd.
Qed.

Lemma ix_set_ok ix k e : ix_wf ix -> is_Some (ix_view ix !! k) ->
  ix_wf (ix_set k e ix) /\ ix_view (ix_set k e ix) = <[k := e]> (ix_view ix).
Proof.
  intros (ns & Hwf & Hk) Hs. rewrite ix_view_lookup in Hs.
  destruct (ix_keys ix !! k) as [l|] eqn:E; [|by destruct Hs].
  pose proof E as E'. apply Hk in E' as [Hl Hkl].
  destruct (set_ent_spec (sl_heap (ix_order ix)) l e) as (h' & Hset & Hn & Hh & Hkey & Hent);
    [by apply (wf_in_heap _ ns Hwf)|].
  unfold ix_set. rewrite E. cbn [mbind option_bind]. rewrite Hset.
  cbn [mbind option_bind from_option id]. split.
  - exists ns. split; [by apply wf_same_links|]. intros k' l'. cbn.
    rewrite Hkey. apply Hk.
  - apply map_eq. intros k'. rewrite ix_view_lookup. cbn [ix_keys ix_order sl_heap with_heap].
    destruct (decide (k' = k)) as [->|Hne].
    + rewrite lookup_insert_eq, E. simpl. by rewrite Hent, decide_True.
    + rewrite lookup_insert_ne, ix_view_lookup by done.
      destruct (ix_keys ix !! k') as [l'|] eqn:E'; [|done]. simpl.
      rewrite Hent, decide_False; [done|]. intros ->. apply Hk in E' as [_ ?]. congruence.
Qed.

Lemma ix_insert_ok ix k e : ix_wf ix -> ix_view ix !! k = None ->
  ix_wf (ix_insert k e ix) /\ ix_view (ix_insert k e ix) = <[k := e]> (ix_view ix).
Proof.
  intros (ns & Hwf & Hk) Hnone. rewrite ix_view_lookup in Hnone.
  destruct (ix_keys ix !! k) eqn:E; [done|]. clear Hnone.
  destruct (insert_wf (ix_order ix) ns k e Hwf)
    as (n & s' & ns' & Hi & Hwf' & _ & Hn & Hkn & Hen & Hold & Hnew).
  unfold ix_insert. rewrite Hi. cbn [mbind option_bind from_option id fst snd].
  assert (Hnn : n ∉ ns).
  { intros Hin. assert (ix_keys ix !! k = Some n); [|congruence]. apply Hk.
    split; [done|]. destruct (Hold n Hin) as (_ & Hko & _). congruence. }
  split.
  - exists ns'. split; [done|]. intros k' l. cbn [ix_keys ix_order].
    destruct (decide (k' = k)) as [->|Hne].
    + rewrite lookup_insert_eq. split; [by intros [= <-]|]. intros [Hl Hkl]. f_equal.
      apply (sorted_nodup_key (sl_heap s') ns'); [apply Hwf'|done..|congruence].
    + rewrite lookup_insert_ne by done. rewrite (Hk k' l). split.
      * intros [Hl Hkl]. destruct (Hold l Hl) as (? & ? & _). split; [done|congruence].
      * intros [Hl Hkl]. destruct (Hnew l Hl) as [->|Hl']; [congruence|].
        destruct (Hold l Hl') as (? & ? & _). split; [done|congruence].
  - apply map_eq. intros k'. rewrite ix_view_lookup. cbn [ix_keys ix_order].
    destruct (decide (k' = k)) as [->|Hne].
    + rewrite !lookup_insert_eq. simpl. by rewrite Hen.
    + rewrite !lookup_insert_ne, ix_view_lookup by done.
      destruct (ix_keys ix !! k') as [l|] eqn:E'; [|done]. simpl. f_equal.
      apply Hk in E' as [Hl _]. apply (Hold l Hl). by intros ->.
Qed.

Lemma ix_delete_ok ix k : ix_wf ix ->
  ix_wf (ix_delete k ix) /\ ix_view (ix_delete k ix) = delete k (ix_view ix).
Proof.
  intros (ns & Hwf & Hk).
  destruct (remove_wf (ix_order ix) ns k Hwf) as (b & s' & ns' & Hr & Hwf' & _ & [Hin Hsame] & _).
  unfold ix_delete. rewrite Hr. cbn [mbind option_bind from_option id fst snd]. split.
  - exists ns'. split; [done|]. intros k' l. cbn [ix_keys ix_order].
    destruct (decide (k' = k)) as [->|Hne].
    + rewrite lookup_delete_eq. split; [done|]. intros [Hl Hkl]. destruct (Hsame l Hl) as [Hs _].
      apply Hin in Hl as [_ Hl]. congruence.
    + rewrite lookup_delete_ne by done. rewrite (Hk k' l). split.
      * intros [Hl Hkl]. assert (Hl' : l ∈ ns') by (apply Hin; split; [done|congruence]).
        split; [done|]. destruct (Hsame l Hl'). congruence.
      * intros [Hl Hkl]. destruct (Hsame l Hl) as [Hs _]. apply Hin in Hl as [Hl _].
        split; [done|congruence].
  - apply map_eq. intros k'. rewrite ix_view_lookup. cbn [ix_keys ix_order].
    destruct (decide (k' = k)) as [->|Hne].
    + by rewrite !lookup_delete_eq.
    + rewrite !lookup_delete_ne, ix_view_lookup by done.
      destruct (ix_keys ix !! k') as [l|] eqn:E'; [|done]. simpl. f_equal.
      apply Hk in E' as [Hl Hkl]. apply Hsame, Hin. split; [done|congruence].
Qed.

Lemma ix_from_contents ix k ns :
  sl_wf (ix_order ix) ns -> ix_from k ix = al_from k (contents (sl_heap (ix_order ix)) ns).
Proof.
  intros Hwf. destruct (seek_rep (ix_order ix) (contents (sl_heap (ix_order ix)) ns) k)
    as (x & Hx & Hc); [by exists ns|].
  unfold ix_from. rewrite Hx. cbn [mbind option_bind]. by rewrite Hc.
Qed.

Lemma sorted_filter_keys (P : bytes * entry -> Prop) `{!forall x, Decision (P x)} l :
  StronglySorted bytes_lt l.*1 -> StronglySorted bytes_lt (filter P l).*1.
Proof.
  induction l as [|p l IH]; intros Hs; [done|]. simpl in Hs.
  apply StronglySorted_inv in Hs as [Hs Hp]. rewrite filter_cons.
  destruct (decide (P p)); [|by apply IH]. simpl. constructor; [by apply IH|].
  rewrite Forall_fmap, Forall_forall in *. intros x Hx. apply Hp.
  by apply list_elem_of_filter in Hx as [_ ?].
Qed.

Lemma ix_from_sorted ix k : ix_wf ix -> StronglySorted bytes_lt (ix_from k ix).*1.
Proof.
  intros (ns & Hwf & _). rewrite (ix_from_contents ix k ns Hwf).
  apply sorted_filter_keys. unfold contents. rewrite <- list_fmap_compose.
  apply (wf_sorted _ ns Hwf).
Qed.

Lemma ix_from_elem ix k k' e : ix_wf ix ->
  (k', e) ∈ ix_from k ix <-> ix_view ix !! k' = Some e /\ bytes_le k k'.
Proof.
  intros (ns & Hwf & Hk). rewrite (ix_from_contents ix k ns Hwf).
  unfold al_from. rewrite list_elem_of_filter, ix_view_lookup, fmap_Some. simpl.
  assert (Hc : (k', e) ∈ contents (sl_heap (ix_order ix)) ns <->
    exists l, ix_keys ix !! k' = Some l /\ e = ent_of (sl_heap (ix_order ix)) l).
  { unfold contents. rewrite list_elem_of_fmap. split.
    - intros (l & [= -> ->] & Hl). exists l. split; [by apply Hk|done].
    - intros (l & Hl & ->). apply Hk in Hl as [Hl <-]. eauto. }
  rewrite Hc. tauto.
Qed.

Lemma ix_elems_ok ix : ix_wf ix -> ix_elems ix ≡ₚ map_to_list (ix_view ix).
Proof.
  intros _. unfold ix_elems, ix_view. rewrite map_to_list_fmap.
  apply Permutation_refl'. apply list_fmap_ext. by intros i [k l] _.
Qed.

#[global] Instance skip_index_spec : KeyIndexSpec index := {
  idx_wf := ix_wf;
  idx_view := ix_view;
  idx_empty_ok := ix_empty_ok;
  idx_get_ok := ix_get_ok;
  idx_set_ok := ix_set_ok;
  idx_insert_ok := ix_insert_ok;
  idx_delete_ok := ix_delete_ok;
  idx_from_sorted := ix_from_sorted;
  idx_from_elem := ix_from_elem;
  idx_elems_ok := ix_elems_ok
}.
