(* ===== verification/Store.v ===== *)
(** * The store (internal/engine/store.go)

    The state of a [Store] and one definition per method: the write path
    (Put, BatchPut, Delete, ApplyRaw and the locked helpers they share), the
    read path (Get, Scan), housekeeping (Sync, Stats, Close, Reset) and
    observers.  The index is used through [KeyIndex] only.  A method is a
    function from a store to a result and the store after it; a method that
    runs under one lock is one function, and where a lock is released and
    taken again an environment may run in between (see [Get]).

    A Go pointer to a datafile is its id: [st_dfs] holds the objects and
    [st_files] the ids in the map [s.files], so that the active file and the
    file in the map are one object, as in the source.  The scratch buffers
    [wbuf], [offs], [recs], the logger and [lastRot], which nothing reads,
    are left out; the time of day is an argument. *)

From Stdlib Require Import SpecFloat.
From S2P Require Import Prelude Bytes Record Datafile Hint Manifest Lock Index.

Local Open Scope Z_scope.
Local Open Scope gokv_scope.

(** ** Options *)

Inductive SyncMode := SyncInterval | SyncAlways | SyncNever.

#[global] Instance SyncMode_eq_dec : EqDecision SyncMode.
Proof. solve_decision. Defined.

(** float64: the binary64 format of IEEE 754. *)
Definition float64 := spec_float.
Definition f64_of_Z (z : Z) : float64 := binary_normalize 53 1024 z 0 false.
Definition f64_div : float64 -> float64 -> float64 := SFdiv 53 1024.
Definition f64_leb : float64 -> float64 -> bool := SFleb.

(** The constant 0.4. *)
Definition f64_0_4 : float64 := f64_div (f64_of_Z 4) (f64_of_Z 10).

Record Options := mkOptions {
  o_Dir : bytes;
  o_MaxFileSize : Z;
  o_SyncMode : SyncMode;
  o_SyncEvery : Z;
  o_CompactionThreshold : float64;
  o_CompactionInterval : Z
}.

(** Durations are nanoseconds. *)
Definition applyDefaults (o : Options) : Options :=
  mkOptions (o_Dir o)
    (if o_MaxFileSize o <=? 0 then Z.shiftl 256 20 else o_MaxFileSize o)
    (o_SyncMode o)
    (if o_SyncEvery o <=? 0 then 200 * 1000000 else o_SyncEvery o)
    (if f64_leb (o_CompactionThreshold o) (f64_of_Z 0) then f64_0_4
     else o_CompactionThreshold o)
    (if o_CompactionInterval o <=? 0 then 30 * 1000000000 else o_CompactionInterval o).

(** ** The store *)

Record counters := mkCounters { nPut : Z; nGet : Z; nDel : Z; nScan : Z; nMiss : Z }.

(** Atomic 64-bit additions. *)
Definition add_put (n : Z) (c : counters) : counters :=
  mkCounters (u64 (nPut c + n)) (nGet c) (nDel c) (nScan c) (nMiss c).
Definition add_get (c : counters) : counters :=
  mkCounters (nPut c) (u64 (nGet c + 1)) (nDel c) (nScan c) (nMiss c).
Definition add_del (c : counters) : counters :=
  mkCounters (nPut c) (nGet c) (u64 (nDel c + 1)) (nScan c) (nMiss c).
Definition add_scan (c : counters) : counters :=
  mkCounters (nPut c) (nGet c) (nDel c) (u64 (nScan c + 1)) (nMiss c).
Definition add_miss (c : counters) : counters :=
  mkCounters (nPut c) (nGet c) (nDel c) (nScan c) (u64 (nMiss c + 1)).

Definition validateKey (key : bytes) : option error :=
  if zlen key =? 0 then Some ErrEmptyKey
  else if MaxKeySize <? zlen key then Some ErrKeyTooLarge
  else None.

(** [le32]. *)
Definition le32 (b : bytes) : Z :=
  let at_ i := byte_Z (nth i b x00) in
  Z.lor (Z.lor (Z.lor (at_ 0%nat) (Z.shiftl (at_ 1%nat) 8)) (Z.shiftl (at_ 2%nat) 16))
        (Z.shiftl (at_ 3%nat) 24).

(** Where [Scan] holds no lock, counted by what is left to do. *)
Inductive scan_point :=
| ScanChunk (left : nat)
| ScanRead (chunk left : nat)
| ScanReread (chunk left : nat).

Section store.
Context {I : Type} `{KeyIndex I}.

Record store := mkStore {
  st_opts : Options;
  st_idx : I;  (* keys and order *)
  st_active : option Z;  (* the active file's id *)
  st_nextID : Z;
  st_seq : Z;
  st_dirty : bool;
  st_dfs : gmap Z datafile;  (* the datafile objects, by id *)
  st_files : gset Z;  (* ids in s.files *)
  st_obs : gset Z;
  st_obsID : Z;
  st_notes : list (Z * Z * bytes);  (* what each observer was called with *)
  st_live : Z;
  st_total : Z;
  st_nLive : Z;
  st_cnt : counters;
  st_mergeSeq : Z;
  st_compacting : bool;
  st_closed : bool;
  st_tasks : list Z;  (* hint builds spawned and not yet run *)
  st_w : world  (* the directory *)
}.

Definition set_idx (v : I) (s : store) : store :=
  mkStore (st_opts s) v (st_active s) (st_nextID s) (st_seq s) (st_dirty s) (st_dfs s)
    (st_files s) (st_obs s) (st_obsID s) (st_notes s) (st_live s) (st_total s) (st_nLive
    s) (st_cnt s) (st_mergeSeq s) (st_compacting s) (st_closed s) (st_tasks s) (st_w s).
Definition set_active (v : option Z) (s : store) : store :=
  mkStore (st_opts s) (st_idx s) v (st_nextID s) (st_seq s) (st_dirty s) (st_dfs s)
    (st_files s) (st_obs s) (st_obsID s) (st_notes s) (st_live s) (st_total s) (st_nLive
    s) (st_cnt s) (st_mergeSeq s) (st_compacting s) (st_closed s) (st_tasks s) (st_w s).
Definition set_nextID (v : Z) (s : store) : store :=
  mkStore (st_opts s) (st_idx s) (st_active s) v (st_seq s) (st_dirty s) (st_dfs s)
    (st_files s) (st_obs s) (st_obsID s) (st_notes s) (st_live s) (st_total s) (st_nLive
    s) (st_cnt s) (st_mergeSeq s) (st_compacting s) (st_closed s) (st_tasks s) (st_w s).
Definition set_seq (v : Z) (s : store) : store :=
  mkStore (st_opts s) (st_idx s) (st_active s) (st_nextID s) v (st_dirty s) (st_dfs s)
    (st_files s) (st_obs s) (st_obsID s) (st_notes s) (st_live s) (st_total s) (st_nLive
    s) (st_cnt s) (st_mergeSeq s) (st_compacting s) (st_closed s) (st_tasks s) (st_w s).
Definition set_dirty (v : bool) (s : store) : store :=
  mkStore (st_opts s) (st_idx s) (st_active s) (st_nextID s) (st_seq s) v (st_dfs s)
    (st_files s) (st_obs s) (st_obsID s) (st_notes s) (st_live s) (st_total s) (st_nLive
    s) (st_cnt s) (st_mergeSeq s) (st_compacting s) (st_closed s) (st_tasks s) (st_w s).
Definition set_dfs (v : gmap Z datafile) (s : store) : store :=
  mkStore (st_opts s) (st_idx s) (st_active s) (st_nextID s) (st_seq s) (st_dirty s) v
    (st_files s) (st_obs s) (st_obsID s) (st_notes s) (st_live s) (st_total s) (st_nLive
    s) (st_cnt s) (st_mergeSeq s) (st_compacting s) (st_closed s) (st_tasks s) (st_w s).
Definition set_files (v : gset Z) (s : store) : store :=
  mkStore (st_opts s) (st_idx s) (st_active s) (st_nextID s) (st_seq s) (st_dirty s)
    (st_dfs s) v (st_obs s) (st_obsID s) (st_notes s) (st_live s) (st_total s) (st_nLive
    s) (st_cnt s) (st_mergeSeq s) (st_compacting s) (st_closed s) (st_tasks s) (st_w s).
Definition set_obs (v : gset Z) (s : store) : store :=
  mkStore (st_opts s) (st_idx s) (st_active s) (st_nextID s) (st_seq s) (st_dirty s)
    (st_dfs s) (st_files s) v (st_obsID s) (st_notes s) (st_live s) (st_total s) (st_nLive
    s) (st_cnt s) (st_mergeSeq s) (st_compacting s) (st_closed s) (st_tasks s) (st_w s).
Definition set_obsID (v : Z) (s : store) : store :=
  mkStore (st_opts s) (st_idx s) (st_active s) (st_nextID s) (st_seq s) (st_dirty s)
    (st_dfs s) (st_files s) (st_obs s) v (st_notes s) (st_live s) (st_total s) (st_nLive
    s) (st_cnt s) (st_mergeSeq s) (st_compacting s) (st_closed s) (st_tasks s) (st_w s).
Definition set_notes (v : list (Z * Z * bytes)) (s : store) : store :=
  mkStore (st_opts s) (st_idx s) (st_active s) (st_nextID s) (st_seq s) (st_dirty s)
    (st_dfs s) (st_files s) (st_obs s) (st_obsID s) v (st_live s) (st_total s) (st_nLive
    s) (st_cnt s) (st_mergeSeq s) (st_compacting s) (st_closed s) (st_tasks s) (st_w s).
Definition set_live (v : Z) (s : store) : store :=
  mkStore (st_opts s) (st_idx s) (st_active s) (st_nextID s) (st_seq s) (st_dirty s)
    (st_dfs s) (st_files s) (st_obs s) (st_obsID s) (st_notes s) v (st_total s) (st_nLive
    s) (st_cnt s) (st_mergeSeq s) (st_compacting s) (st_closed s) (st_tasks s) (st_w s).
Definition set_total (v : Z) (s : store) : store :=
  mkStore (st_opts s) (st_idx s) (st_active s) (st_nextID s) (st_seq s) (st_dirty s)
    (st_dfs s) (st_files s) (st_obs s) (st_obsID s) (st_notes s) (st_live s) v (st_nLive
    s) (st_cnt s) (st_mergeSeq s) (st_compacting s) (st_closed s) (st_tasks s) (st_w s).
Definition set_nLive (v : Z) (s : store) : store :=
  mkStore (st_opts s) (st_idx s) (st_active s) (st_nextID s) (st_seq s) (st_dirty s)
    (st_dfs s) (st_files s) (st_obs s) (st_obsID s) (st_notes s) (st_live s) (st_total s)
    v (st_cnt s) (st_mergeSeq s) (st_compacting s) (st_closed s) (st_tasks s) (st_w s).
Definition set_cnt (v : counters) (s : store) : store :=
  mkStore (st_opts s) (st_idx s) (st_active s) (st_nextID s) (st_seq s) (st_dirty s)
    (st_dfs s) (st_files s) (st_obs s) (st_obsID s) (st_notes s) (st_live s) (st_total s)
    (st_nLive s) v (st_mergeSeq s) (st_compacting s) (st_closed s) (st_tasks s) (st_w s).
Definition set_mergeSeq (v : Z) (s : store) : store :=
  mkStore (st_opts s) (st_idx s) (st_active s) (st_nextID s) (st_seq s) (st_dirty s)
    (st_dfs s) (st_files s) (st_obs s) (st_obsID s) (st_notes s) (st_live s) (st_total s)
    (st_nLive s) (st_cnt s) v (st_compacting s) (st_closed s) (st_tasks s) (st_w s).
Definition set_compacting (v : bool) (s : store) : store :=
  mkStore (st_opts s) (st_idx s) (st_active s) (st_nextID s) (st_seq s) (st_dirty s)
    (st_dfs s) (st_files s) (st_obs s) (st_obsID s) (st_notes s) (st_live s) (st_total s)
    (st_nLive s) (st_cnt s) (st_mergeSeq s) v (st_closed s) (st_tasks s) (st_w s).
Definition set_closed (v : bool) (s : store) : store :=
  mkStore (st_opts s) (st_idx s) (st_active s) (st_nextID s) (st_seq s) (st_dirty s)
    (st_dfs s) (st_files s) (st_obs s) (st_obsID s) (st_notes s) (st_live s) (st_total s)
    (st_nLive s) (st_cnt s) (st_mergeSeq s) (st_compacting s) v (st_tasks s) (st_w s).
Definition set_tasks (v : list Z) (s : store) : store :=
  mkStore (st_opts s) (st_idx s) (st_active s) (st_nextID s) (st_seq s) (st_dirty s)
    (st_dfs s) (st_files s) (st_obs s) (st_obsID s) (st_notes s) (st_live s) (st_total s)
    (st_nLive s) (st_cnt s) (st_mergeSeq s) (st_compacting s) (st_closed s) v (st_w s).
Definition set_w (v : world) (s : store) : store :=
  mkStore (st_opts s) (st_idx s) (st_active s) (st_nextID s) (st_seq s) (st_dirty s)
    (st_dfs s) (st_files s) (st_obs s) (st_obsID s) (st_notes s) (st_live s) (st_total s)
    (st_nLive s) (st_cnt s) (st_mergeSeq s) (st_compacting s) (st_closed s) (st_tasks s) v.


Definition sto (A : Type) : Type := sm store error A.

(** An operation on the directory. *)
Definition io {A} (m : wio A) : sto A := fun s =>
  let out := m (st_w s) in (out.1, set_w out.2 s).

Definition throw_if (e : option error) : sto unit :=
  match e with Some x => sm_throw x | None => sm_ret tt end.

(** [if s.closed.Load() { return ErrClosed }] *)
Definition check_open : sto unit :=
  s <- sm_get;; if st_closed s then sm_throw ErrClosed else sm_ret tt.

(** The active file's object; a nil active file would panic. *)
Definition get_active : sto datafile := s <- sm_get;;
  match st_active s ≫= fun id => st_dfs s !! id with
  | Some d => sm_ret d
  | None => sm_throw ErrPanic
  end.

(** Store through the pointer of a datafile. *)
Definition put_df (d : datafile) (s : store) : store :=
  set_dfs (<[df_id d := d]> (st_dfs s)) s.

(** *** The index *)

(** [indexApplyLocked]: the counters are atomic 64-bit integers. *)
Definition indexApplyLocked (key : bytes) (e : entry) (tomb : bool) (s : store) : store :=
  let e := set_tomb tomb e in
  let grow s := if tomb then s
                else set_nLive (i64 (st_nLive s + 1))
                       (set_live (i64 (st_live s + e_size e)) s) in
  match idx_get key (st_idx s) with
  | Some old =>
      if e_seq e <=? e_seq old then s
      else
        let s := if e_tomb old then s
                 else set_nLive (i64 (st_nLive s - 1))
                        (set_live (i64 (st_live s - e_size old)) s) in
        grow (set_idx (idx_set key e (st_idx s)) s)
  | None => grow (set_idx (idx_insert key e (st_idx s)) s)
  end.

Definition recountLocked (s : store) : store :=
  let '(live, n) :=
    foldl (fun acc kv => if e_tomb kv.2 then acc
                         else (i64 (acc.1 + e_size kv.2), i64 (acc.2 + 1)))
          (0, 0) (idx_elems (st_idx s)) in
  set_nLive n (set_live live s).

(** *** Observers *)

(** [AddObserver]; [cancelObserver id] is the function it returns. *)
Definition AddObserver (s : store) : Z * store :=
  let id := u64 (st_obsID s + 1) in
  (id, set_obs ({[id]} ∪ st_obs s) (set_obsID id s)).
Definition cancelObserver (id : Z) (s : store) : store :=
  set_obs (st_obs s ∖ {[id]}) s.

Definition notify (maxSeq : Z) (raw : bytes) (s : store) : store :=
  set_notes (st_notes s ++ ((fun id => (id, maxSeq, raw)) <$> elements (st_obs s))) s.

(** *** Appending *)

Definition openNewActive : sto unit :=
  s <- sm_get;;
  df <- io (createDataFile (st_nextID s));;
  sm_modify (fun s => set_nextID (u32 (st_nextID s + 1)) s);;;
  sm_modify (fun s => set_files ({[df_id df]} ∪ st_files s) (put_df df s));;;
  sm_modify (set_active (Some (df_id df)));;;
  io syncDir.

Definition maybeRotateLocked (incoming : Z) : sto unit :=
  s <- sm_get;;
  old <- get_active;;
  let cur := df_size old in
  if (cur =? 0) || (cur + incoming <=? o_MaxFileSize (st_opts s)) then sm_ret tt
  else
    io (df_sync old);;;
    openNewActive;;;
    sm_modify (set_dirty false);;;
    sm_modify (fun s => set_tasks (st_tasks s ++ [df_id old]) s).

(** The offsets, as [uint32]s, and the buffer [writeLocked] builds. *)
Fixpoint encode_batch (offs : list Z) (buf : bytes) (recs : list record)
  : list Z * bytes :=
  match recs with
  | [] => (offs, buf)
  | r :: recs' => encode_batch (offs ++ [u32 (zlen buf)]) (appendRecord buf r) recs'
  end.

(** The index updates of one append. *)
Fixpoint index_batch (id base : Z) (offs : list Z) (recs : list record) (s : store) : store :=
  match offs, recs with
  | off :: offs', r :: recs' =>
      let e := {| e_pos := base + off; e_seq := r_seq r; e_fileID := id;
                  e_size := encodedSize (zlen (r_key r)) (zlen (r_value r));
                  e_tomb := false |} in
      index_batch id base offs' recs' (indexApplyLocked (r_key r) e (tombstone r) s)
  | _, _ => s
  end.

(** [writeLocked] from the choice of the active file on. *)
Definition append_active (offs : list Z) (buf : bytes) (recs : list record) : sto unit :=
  af <- get_active;;
  let base := df_size af in
  sm_catch (io (df_writeAt af buf base))
    (fun e => sm_ignore (io (df_truncate af base));;; sm_throw e);;;
  let af := df_set_size (base + zlen buf) af in
  sm_modify (put_df af);;;
  sm_modify (fun s => set_total (i64 (st_total s + zlen buf)) s);;;
  sm_modify (set_dirty true);;;
  s <- sm_get;;
  sm_when (bool_decide (o_SyncMode (st_opts s) = SyncAlways))
    (io (df_sync af);;; sm_modify (set_dirty false));;;
  sm_modify (index_batch (df_id af) base offs recs);;;
  match last recs with
  | Some r => sm_modify (notify (r_seq r) buf)
  | None => sm_throw ErrPanic
  end.

Definition writeLocked (recs : list record) : sto unit :=
  let '(offs, buf) := encode_batch [] [] recs in
  maybeRotateLocked (zlen buf);;;
  append_active offs buf recs.

(** The sequence numbers [appendLocked] assigns, and the counter after it. *)
Fixpoint assign_seqs (seq : Z) (recs : list record) : list record * Z :=
  match recs with
  | [] => ([], seq)
  | r :: recs' =>
      let seq := u64 (seq + 1) in
      let out := assign_seqs seq recs' in
      (mkRecord (r_ts r) seq (r_flags r) (r_key r) (r_value r) :: out.1, out.2)
  end.

Definition appendLocked (recs : list record) : sto unit :=
  s <- sm_get;;
  let out := assign_seqs (st_seq s) recs in
  sm_modify (set_seq out.2);;;
  writeLocked out.1.

(** *** Writers *)

Definition count (f : counters -> counters) : sto unit :=
  sm_modify (fun s => set_cnt (f (st_cnt s)) s).

Definition Put (now : Z) (key value : bytes) : sto unit :=
  throw_if (validateKey key);;;
  throw_if (if MaxValueSize <? zlen value then Some ErrValueTooLong else None);;;
  check_open;;;
  appendLocked [mkRecord now 0 x00 key value];;;
  count (add_put 1).

(** The validation loop of [BatchPut]: its first error. *)
Fixpoint batch_error (keys values : list bytes) : option error :=
  match keys, values with
  | k :: ks, v :: vs =>
      match validateKey k with
      | Some e => Some e
      | None => if MaxValueSize <? zlen v then Some ErrValueTooLong else batch_error ks vs
      end
  | _, _ => None
  end.

Fixpoint batch_records (now : Z) (keys values : list bytes) : list record :=
  match keys, values with
  | k :: ks, v :: vs =>
      let flags := match ks with
                   | [] => Z_byte (Z.lor flagBatch flagBatchEnd)
                   | _ => Z_byte flagBatch
                   end in
      mkRecord now 0 flags k v :: batch_records now ks vs
  | _, _ => []
  end.

Definition BatchPut (now : Z) (keys values : list bytes) : sto unit :=
  if negb (zlen keys =? zlen values) then sm_throw ErrBatchLen
  else if zlen keys =? 0 then sm_ret tt
  else
    throw_if (batch_error keys values);;;
    check_open;;;
    appendLocked (batch_records now keys values);;;
    count (add_put (zlen keys)).

Definition Delete (now : Z) (key : bytes) : sto unit :=
  throw_if (validateKey key);;;
  s <- sm_get;;
  let live := match idx_get key (st_idx s) with Some e => negb (e_tomb e) | None => false end in
  if negb live then sm_throw ErrKeyNotFound
  else
    check_open;;;
    appendLocked [mkRecord now 0 (Z_byte flagTombstone) key []];;;
    count add_del.

(** The parsing loop of [ApplyRaw] on the unread bytes; each record takes at
    least thirty bytes, so the length is enough fuel. *)
Fixpoint parse_raw (fuel : nat) (rest : bytes) (recs : list record) (max : Z)
  : result error (list record * Z) :=
  match fuel with
  | O => Ok (recs, max)
  | Datatypes.S fuel' =>
      if zlen rest =? 0 then Ok (recs, max)
      else if zlen rest <? Z.of_nat recordHeaderSize then Err (ErrRecord ErrCorrupt)
      else
        let keyLen := le32 (drop 21 rest) in
        let valLen := le32 (drop 25 rest) in
        if (keyLen =? 0) || (MaxKeySize <? keyLen) || (MaxValueSize <? valLen)
        then Err (ErrRecord ErrCorrupt)
        else
          let size := Z.of_nat recordHeaderSize + keyLen + valLen in
          if zlen rest <? size then Err (ErrRecord ErrCorrupt)
          else
            match decodeRecord (take (Z.to_nat size) rest) with
            | Err e => Err (ErrRecord e)
            | Ok rec => parse_raw fuel' (drop (Z.to_nat size) rest) (recs ++ [rec])
                          (if max <? r_seq rec then r_seq rec else max)
            end
  end.

Definition ApplyRaw (raw : bytes) : sto Z :=
  match parse_raw (length raw) raw [] 0 with
  | Err e => sm_throw e
  | Ok ([], _) => sm_ret 0
  | Ok (recs, max) =>
      check_open;;;
      writeLocked recs;;;
      sm_modify (fun s => if st_seq s <? max then set_seq max s else s);;;
      sm_ret max
  end.

(** *** Readers *)

Definition readValue (e : entry) : sto bytes :=
  s <- sm_get;;
  match (if bool_decide (e_fileID e ∈ st_files s) then st_dfs s !! e_fileID e else None) with
  | None => sm_throw errFileGone
  | Some df =>
      rb <- io (readRecord df e);;
      let rec := fst rb in
      if negb (r_seq rec =? e_seq e) then sm_throw (ErrSeqMismatch (e_seq e) (r_seq rec))
      else if tombstone rec then sm_throw ErrKeyNotFound
      else sm_ret (r_value rec)
  end.

(** The retry loop of [Get]: [env i] is what other goroutines do between the
    index lookup of attempt [i] and its disk read. *)
Fixpoint get_attempts (env : nat -> store -> store) (attempts : nat) (key : bytes) : sto bytes :=
  match attempts with
  | O => sm_throw ErrRace
  | Datatypes.S n =>
      s <- sm_get;;
      let e := idx_get key (st_idx s) in
      match e with
      | None => count add_miss;;; sm_throw ErrKeyNotFound
      | Some e =>
          if e_tomb e then count add_miss;;; sm_throw ErrKeyNotFound
          else
            sm_modify (env n);;;
            sm_catch (readValue e)
              (fun x => if bool_decide (x = errFileGone) then get_attempts env n key
                        else sm_throw x)
      end
  end.

Definition Get (env : nat -> store -> store) (key : bytes) : sto bytes :=
  throw_if (validateKey key);;;
  count add_get;;;
  get_attempts env 4 key.

Definition scanChunk : Z := 512.

(** One chunk of [Scan]: walk the nodes from the cursor on and collect the
    locators of live keys. *)
Record chunk := mkChunk {
  ck_refs : list (bytes * entry);
  ck_cursor : bytes;
  ck_exclusive : bool;
  ck_examined : Z;
  ck_atEnd : bool
}.

Fixpoint chunk_loop (endKey : bytes) (nodes : list (bytes * entry)) (c : chunk) : chunk :=
  match nodes with
  | [] => c
  | (k, e) :: nodes' =>
      if ck_exclusive c && bool_decide (k = ck_cursor c) then chunk_loop endKey nodes' c
      else if negb (zlen endKey =? 0) && bytes_ltb endKey k then
        mkChunk (ck_refs c) (ck_cursor c) (ck_exclusive c) (ck_examined c) true
      else
        let examined := ck_examined c + 1 in
        let refs := if e_tomb e then ck_refs c else ck_refs c ++ [(k, e)] in
        let c := mkChunk refs k true examined (ck_atEnd c) in
        if (zlen refs =? scanChunk) || (examined =? scanChunk * 8) then c
        else chunk_loop endKey nodes' c
  end.

Definition scan_chunk (endKey cursor : bytes) (exclusive : bool) (s : store) : chunk :=
  chunk_loop endKey (idx_from cursor (st_idx s)) (mkChunk [] cursor exclusive 0 false).

Definition reread (key : bytes) : sto bytes :=
  s <- sm_get;;
  match idx_get key (st_idx s) with
  | None => sm_throw ErrKeyNotFound
  | Some e => if e_tomb e then sm_throw ErrKeyNotFound else readValue e
  end.

Section scan.
Context {T : Type} (fn : bytes -> bytes -> T -> result error unit * T) (limit : Z).

(** No lock is held between two chunks, two reads, and a read and its second
    attempt: what others do there. *)
Variable env : scan_point -> store -> store.

(** How the loop over the chunk's locators ends. *)
Inductive sent_out :=
| SReturn (r : result error unit) (t : T)
| SContinue (sent : Z) (t : T).

Fixpoint send_refs (round : nat) (refs : list (bytes * entry)) (sent : Z) (t : T) (s : store)
  : sent_out * store :=
  match refs with
  | [] => (SContinue sent t, s)
  | r :: refs' =>
      match sm_catch (readValue r.2)
              (fun x => if bool_decide (x = errFileGone)
                        then sm_modify (env (ScanReread round (length refs')));;; reread r.1
                        else sm_throw x)
              (env (ScanRead round (length refs')) s) with
      | (Err x, s') =>
          if bool_decide (x = errFileGone) || bool_decide (x = ErrKeyNotFound)
          then send_refs round refs' sent t s'
          else (SReturn (Err x) t, s')
      | (Ok v, s') =>
          match fn r.1 v t with
          | (Err x, t') => (SReturn (Err x) t', s')
          | (Ok _, t') =>
              let sent := sent + 1 in
              if (0 <? limit) && (limit <=? sent) then (SReturn (Ok tt) t', s')
              else send_refs round refs' sent t' s'
          end
      end
  end.

(** The chunk loop; every chunk but the last moves the cursor past a key, so
    one more round than there are keys is enough fuel, counting those that are
    added meanwhile. *)
Fixpoint scan_rounds (fuel : nat) (endKey cursor : bytes) (exclusive : bool) (sent : Z) (t : T)
  (s : store) : (result error unit * T) * store :=
  match fuel with
  | O => ((Err ErrPanic, t), s)
  | Datatypes.S fuel' =>
      let s := env (ScanChunk fuel') s in
      let c := scan_chunk endKey cursor exclusive s in
      if ck_examined c =? 0 then ((Ok tt, t), s)
      else
        match send_refs fuel' (ck_refs c) sent t s with
        | (SReturn r t', s') => ((r, t'), s')
        | (SContinue sent' t', s') =>
            if ck_atEnd c then ((Ok tt, t'), s')
            else scan_rounds fuel' endKey (ck_cursor c) (ck_exclusive c) sent' t' s'
        end
  end.

Definition Scan_beside (fuel : nat) (start end_ : bytes) (t : T) (s : store) : (result error unit * T) * store :=
  let s := set_cnt (add_scan (st_cnt s)) s in
  if negb (zlen end_ =? 0) && bytes_ltb end_ start then ((Ok tt, t), s)
  else scan_rounds fuel end_ start false 0 t s.
End scan.

(** A scan that nobody interferes with. *)
Definition undisturbed_scan : scan_point -> store -> store := fun _ s => s.
Definition Scan {T} (fn : bytes -> bytes -> T -> result error unit * T) (limit : Z) (start end_ : bytes) (t : T) (s : store)
  : (result error unit * T) * store :=
  Scan_beside fn limit undisturbed_scan (Datatypes.S (length (idx_elems (st_idx s)))) start end_ t s.

(** A [KV] is a key and a value. *)
Definition ScanSlice (start end_ : bytes) (limit : Z) (s : store)
  : (result error unit * list (bytes * bytes)) * store :=
  Scan (fun k v out => (Ok tt, out ++ [(k, v)])) limit start end_ [] s.

(** *** Housekeeping *)

Definition Sync : sto unit :=
  s <- sm_get;;
  if negb (st_dirty s) then sm_ret tt
  else match st_active s with
       | None => sm_ret tt
       | Some _ =>
           af <- get_active;;
           io (df_sync af);;;
           sm_modify (set_dirty false)
       end.

Definition Seq (s : store) : Z := st_seq s.
Definition MergeSeq (s : store) : Z := st_mergeSeq s.

Definition deadBytes (s : store) : Z :=
  let d := i64 (st_total s - st_live s) in if 0 <? d then d else 0.

Definition Len (s : store) : Z := st_nLive s.

Record Stats_ := mkStats {
  ss_Keys : Z; ss_Tombstones : Z; ss_Files : Z; ss_LiveBytes : Z; ss_DeadBytes : Z;
  ss_Seq : Z; ss_Puts : Z; ss_Gets : Z; ss_Deletes : Z; ss_Scans : Z; ss_Misses : Z;
  ss_Reclaimable : float64; ss_Compacting : bool
}.

Definition Stats (s : store) : Stats_ :=
  let indexed := zlen (idx_elems (st_idx s)) in
  let files := zlen (elements (st_files s)) in
  let live := st_live s in
  let dead := deadBytes s in
  let ratio := if 0 <? i64 (live + dead)
               then f64_div (f64_of_Z dead) (f64_of_Z (i64 (live + dead)))
               else f64_of_Z 0 in
  {| ss_Keys := st_nLive s; ss_Tombstones := indexed - st_nLive s; ss_Files := files;
     ss_LiveBytes := live; ss_DeadBytes := dead; ss_Seq := Seq s;
     ss_Puts := nPut (st_cnt s); ss_Gets := nGet (st_cnt s); ss_Deletes := nDel (st_cnt s);
     ss_Scans := nScan (st_cnt s); ss_Misses := nMiss (st_cnt s);
     ss_Reclaimable := ratio; ss_Compacting := st_compacting s |}.

(** The hint builds spawned by rotations; [wg.Wait] lets them all finish. *)
Definition run_task : sto unit := s <- sm_get;;
  match st_tasks s with
  | [] => sm_ret tt
  | id :: ids => sm_modify (set_tasks ids);;; sm_ignore (io (buildHint id))
  end.
Fixpoint run_tasks (n : nat) : sto unit :=
  match n with
  | O => sm_ret tt
  | Datatypes.S n' => run_task;;; run_tasks n'
  end.

(** Close every handle of [s.files]. *)
Definition close_dfs (ids : gset Z) (m : gmap Z datafile) : gmap Z datafile :=
  map_imap (fun id d => Some (if bool_decide (id ∈ ids) then df_close d else d)) m.

Definition closeFiles (s : store) : store :=
  set_files ∅ (set_dfs (close_dfs (st_files s) (st_dfs s)) s).

Definition Close : sto unit :=
  s <- sm_get;;
  if st_closed s then sm_ret tt
  else
    sm_modify (set_closed true);;;
    r <- (fun s => match st_active s with
                   | Some _ =>
                       if st_dirty s
                       then let out := (af <- get_active;; io (df_sync af)) s in
                            (Ok out.1, set_dirty false out.2)
                       else (Ok (Ok tt), s)
                   | None => (Ok (Ok tt), s)
                   end);;
    s <- sm_get;;
    run_tasks (length (st_tasks s));;;
    sm_modify closeFiles;;;
    io releaseLock;;;
    match r with Ok _ => sm_ret tt | Err e => sm_throw e end.

(** The file loop of [Reset]: close the handle, remove the file and its hint. *)
Fixpoint reset_files (ids : list Z) : sto unit :=
  match ids with
  | [] => sm_ret tt
  | id :: ids' =>
      sm_modify (fun s => set_dfs (close_dfs {[id]} (st_dfs s)) s);;;
      sm_ignore (io (fs_remove (dataPath id)));;;
      sm_ignore (io (fs_remove (hintPath id)));;;
      reset_files ids'
  end.

Definition Reset : sto unit :=
  check_open;;;
  sm_modify (set_idx idx_empty);;;
  s <- sm_get;;
  reset_files (elements (st_files s));;;
  sm_modify (set_files ∅);;;
  sm_modify (fun s => set_nLive 0 (set_total 0 (set_live 0 s)));;;
  sm_modify (fun s => set_mergeSeq 0 (set_seq 0 s));;;
  sm_ignore (io (writeManifest 0));;;
  openNewActive;;;
  sm_modify (set_dirty false).
End store.

#[global] Arguments store : clear implicits.
#[global] Arguments sto : clear implicits.
