(* ===== verification/StoreInv.v ===== *)
(** * The store invariant

    [store_inv s L M] relates a store to two abstractions.  [L] gives the
    records each open data file holds; [M] gives the newest record of every
    indexed key.  The index points, for every key of [M] and no other, at the
    place in [L] where that record is.  [kv M] forgets deleted keys and
    sequence numbers: it is the map a client of the store sees. *)

From S2P Require Import Prelude Bytes Record Datafile Manifest Index Store.

Local Open Scope Z_scope.
Local Open Scope gokv_scope.

Notation logs := (gmap Z (list record)).
Notation newest := (gmap bytes record).

(** ** The abstract state *)

(** The client's view. *)
Definition live_value (r : record) : option bytes :=
  if tombstone r then None else Some (r_value r).
Definition kv (M : newest) : gmap bytes bytes := omap live_value M.

(** A record takes effect unless an equally new one is known. *)
Definition absorb (M : newest) (r : record) : newest :=
  match M !! r_key r with
  | Some old => if r_seq r <=? r_seq old then M else <[r_key r := r]> M
  | None => <[r_key r := r]> M
  end.

Definition absorb_all (M : newest) (rs : list record) : newest := foldl absorb M rs.

(** [e] is where the log holds [r], the record of key [k]. *)
Definition locates (L : logs) (k : bytes) (e : entry) (r : record) : Prop :=
  r_key r = k /\ e_seq e = r_seq r /\ e_tomb e = tombstone r /\ e_size e = zlen (encode r) /\
  exists pre post, L !! e_fileID e = Some (pre ++ r :: post) /\ e_pos e = zlen (encode_all pre).

(** The log may grow: files get records appended, and files may be added. *)
Definition grows (L L' : logs) : Prop :=
  forall id rs, L !! id = Some rs -> exists rs', L' !! id = Some (rs ++ rs').

(** The records of one file. *)
Definition log_of (L : logs) (id : Z) : list record := default [] (L !! id).

(** ** The concrete state *)

(** An open data file that starts with the records [rs]. *)
Definition file_inv (dfs : gmap Z datafile) (fs : gmap bytes file) (id : Z)
  (rs : list record) : Prop :=
  is_u32 id /\ Forall valid_record rs /\
  exists d f, dfs !! id = Some d /\ df_id d = id /\ df_open d = true /\
    fs !! dataPath id = Some f /\ encode_all rs `prefix_of` f_data f.

Definition files_inv (dfs : gmap Z datafile) (fs : gmap bytes file) (L : logs) : Prop :=
  forall id rs, L !! id = Some rs -> file_inv dfs fs id rs.

Definition log_size (rs : list record) : Z := zlen (encode_all rs).

(** The active file is one of the open files, opened for writing, and its
    append offset is the end of its records. *)
Definition active_inv (active : option Z) (dfs : gmap Z datafile) (L : logs) : Prop :=
  exists id d rs, active = Some id /\ L !! id = Some rs /\ dfs !! id = Some d /\
    df_write d = true /\ df_size d = log_size rs.

(** Every data file of the directory has an id below the next one. *)
Definition fresh_inv (nextID : Z) (fs : gmap bytes file) : Prop :=
  is_u32 nextID /\
  forall id, is_u32 id -> is_Some (fs !! dataPath id) -> id < nextID.

Section inv.
Context {I : Type} `{KeyIndexSpec I}.

Definition index_inv (ix : I) (L : logs) (M : newest) : Prop :=
  idx_wf ix /\
  forall k, match idx_view ix !! k, M !! k with
            | Some e, Some r => locates L k e r
            | None, None => True
            | _, _ => False
            end.

Record store_inv (s : store I) (L : logs) (M : newest) : Prop := {
  si_index : index_inv (st_idx s) L M;
  si_files : files_inv (st_dfs s) (w_fs (st_w s)) L;
  si_dom : dom L = st_files s;
  si_active : active_inv (st_active s) (st_dfs s) L;
  si_fresh : fresh_inv (st_nextID s) (w_fs (st_w s))
}.

(** The invariant of a store that has no active file yet. *)
Record base_inv (s : store I) (L : logs) (M : newest) : Prop := {
  bi_index : index_inv (st_idx s) L M;
  bi_files : files_inv (st_dfs s) (w_fs (st_w s)) L;
  bi_dom : dom L = st_files s;
  bi_fresh : fresh_inv (st_nextID s) (w_fs (st_w s))
}.

(** No record is newer than the store's sequence counter. *)
Definition seq_inv (s : store I) (M : newest) : Prop :=
  is_u64 (st_seq s) /\ forall k r, M !! k = Some r -> r_seq r <= st_seq s.

(** The byte accounting: modulo the 64 bits of the counters, they are what a
    recount of the index and of the files gives. *)
Definition live_size (e : entry) : Z := if e_tomb e then 0 else e_size e.
Definition live_one (e : entry) : Z := if e_tomb e then 0 else 1.
Definition live_inv (s : store I) : Prop :=
  st_live s = i64 (map_sum live_size (idx_view (st_idx s))) /\
  st_nLive s = i64 (map_sum live_one (idx_view (st_idx s))).
Definition open_dfs (s : store I) : gmap Z datafile :=
  filter (fun p => p.1 ∈ st_files s) (st_dfs s).
Definition total_inv (s : store I) : Prop :=
  st_total s = i64 (map_sum df_size (open_dfs s)).

(** The first [n] bytes of data file [id] are on stable storage. *)
Definition flushed (fs : gmap bytes file) (id n : Z) : Prop :=
  exists f, fs !! dataPath id = Some f /\ n <= f_synced f.

(** Every file but the active one is on stable storage, and the active one is
    unless the store is dirty. *)
Definition sync_inv (s : store I) (L : logs) : Prop :=
  forall id rs, L !! id = Some rs -> st_active s <> Some id \/ st_dirty s = false ->
    flushed (w_fs (st_w s)) id (log_size rs).

Definition all_flushed (s : store I) (L : logs) : Prop :=
  forall id rs, L !! id = Some rs -> flushed (w_fs (st_w s)) id (log_size rs).

(** What a step that may append [recs] to a file keeps: the files' records,
    what was on stable storage, the meaning of the dirty flag, the accounting. *)
Definition appended (recs : list record) (L L' : logs) : Prop :=
  dom L ⊆ dom L' /\
  forall id rs', L' !! id = Some rs' ->
    rs' = default [] (L !! id) \/ rs' = default [] (L !! id) ++ recs.

Definition keeps (L : logs) (fs fs' : gmap bytes file) : Prop :=
  forall id rs n, L !! id = Some rs -> n <= log_size rs ->
    flushed fs id n -> flushed fs' id n.

Record wstep (recs : list record) (s : store I) (L : logs) (s' : store I) (L' : logs) : Prop := {
  ws_logs : appended recs L L';
  ws_keeps : keeps L (w_fs (st_w s)) (w_fs (st_w s'));
  ws_faults : w_faults (st_w s) = [] -> w_faults (st_w s') = [];
  ws_sync : sync_inv s L -> sync_inv s' L';
  ws_total : total_inv s -> total_inv s'
}.

(** The fields a client can observe, the index and its counters apart. *)
Definition visible (s : store I) :=
  (st_opts s, st_seq s, st_obs s, st_obsID s, st_notes s, st_cnt s, st_mergeSeq s,
   st_compacting s, st_closed s).
Definition indexed (s : store I) := (st_idx s, st_live s, st_nLive s).
End inv.

(** ** Absorbing records *)

Section absorb.
Implicit Types (M : newest) (r : record).

Lemma absorb_newer M r :
  (forall old, M !! r_key r = Some old -> r_seq old < r_seq r) -> absorb M r = <[r_key r := r]> M.
Proof.
  intros Hr. unfold absorb. destruct (M !! r_key r) as [old|] eqn:E; [|done].
  specialize (Hr old eq_refl). destruct (Z.leb_spec (r_seq r) (r_seq old)); [lia|done].
Qed.

Lemma absorb_all_app M rs rs' : absorb_all M (rs ++ rs') = absorb_all (absorb_all M rs) rs'.
Proof. apply foldl_app. Qed.

Lemma absorb_lookup M r k :
  absorb M r !! k =
    if decide (k = r_key r) then
      match M !! k with
      | Some old => if r_seq r <=? r_seq old then Some old else Some r
      | None => Some r
      end
    else M !! k.
Proof.
  unfold absorb. destruct (decide (k = r_key r)) as [->|Hne].
  - destruct (M !! r_key r) as [old|] eqn:E; [|by rewrite lookup_insert_eq].
    destruct (r_seq r <=? r_seq old); [done|by rewrite lookup_insert_eq].
  - destruct (M !! r_key r) as [old|]; [destruct (_ <=? _)|];
      rewrite ?lookup_insert_ne by done; done.
Qed.

Lemma absorb_all_elem M rs k r :
  absorb_all M rs !! k = Some r -> M !! k = Some r \/ r ∈ rs.
Proof.
  revert M. induction rs as [|r0 rs IH]; intros M Hr; [by left|]. simpl in Hr.
  apply IH in Hr as [Hr|Hr]; [|right; set_solver]. rewrite absorb_lookup in Hr.
  destruct (decide (k = r_key r0)) as [->|]; [|by left].
  destruct (M !! r_key r0) as [old|] eqn:E; [destruct (_ <=? _)|]; simplify_eq; auto;
    right; set_solver.
Qed.

(** Every record is filed under its own key. *)
Definition keyed M : Prop := forall k r, M !! k = Some r -> r_key r = k.

Lemma absorb_all_keyed rs : forall M, keyed M -> keyed (absorb_all M rs).
Proof.
  induction rs as [|r0 rs IH]; intros M HM; [done|]. simpl. apply IH. intros k r Hr.
  rewrite absorb_lookup in Hr. destruct (decide (k = r_key r0)) as [->|]; [|by apply HM].
  destruct (M !! r_key r0) as [old|] eqn:E; [destruct (_ <=? _)|]; simplify_eq; auto.
Qed.

(** Records with the same key and sequence number are the same record. *)
Definition consistent (rs : list record) : Prop :=
  forall r r', r ∈ rs -> r' ∈ rs -> r_key r = r_key r' -> r_seq r = r_seq r' -> r = r'.

Lemma absorb_comm M r r' :
  (r_key r = r_key r' -> r_seq r = r_seq r' -> r = r') ->
  absorb (absorb M r) r' = absorb (absorb M r') r.
Proof.
  intros Hc. apply map_eq. intros k. rewrite !absorb_lookup.
  destruct (decide (k = r_key r)) as [Hk|], (decide (k = r_key r')) as [Hk'|]; try done.
  assert (Heq : r_seq r = r_seq r' -> r = r') by (intros; apply Hc; congruence).
  destruct (M !! k) as [old|];
    [destruct (Z.leb_spec (r_seq r) (r_seq old)), (Z.leb_spec (r_seq r') (r_seq old))|];
    repeat match goal with |- context [?x <=? ?y] => destruct (Z.leb_spec x y) end;
    try done; try lia; f_equal; first [apply Heq; lia | symmetry; apply Heq; lia].
Qed.

Lemma absorb_all_perm rs rs' : rs ≡ₚ rs' -> forall M, consistent rs ->
  absorb_all M rs = absorb_all M rs'.
Proof.
  induction 1 as [|r rs rs' Hp IH|r r' rs|rs rs' rs'' Hp1 IH1 Hp2 IH2]; intros M Hc; simpl; [done|..].
  - apply IH. intros x y Hx Hy. apply Hc; set_solver.
  - f_equal. apply absorb_comm. intros. apply Hc; set_solver.
  - rewrite IH1 by done. apply IH2. intros x y Hx Hy. rewrite <- Hp1 in Hx, Hy. by apply Hc.
Qed.

Definition dominates M r : Prop := exists old, M !! r_key r = Some old /\ r_seq r <= r_seq old.

Lemma absorb_dominated M r : dominates M r -> absorb M r = M.
Proof.
  intros (old & Ho & Hle). unfold absorb. rewrite Ho.
  destruct (Z.leb_spec (r_seq r) (r_seq old)); [done|lia].
Qed.

Lemma dominates_absorb M r r' : dominates M r -> dominates (absorb M r') r.
Proof.
  intros (old & Ho & Hle). unfold dominates. rewrite absorb_lookup.
  destruct (decide (r_key r = r_key r')); rewrite Ho; [|by exists old].
  destruct (Z.leb_spec (r_seq r') (r_seq old)); eexists; split; try done; lia.
Qed.

Lemma dominates_absorb_self M r : dominates (absorb M r) r.
Proof.
  unfold dominates. rewrite absorb_lookup, decide_True by done.
  destruct (M !! r_key r) as [old|]; [|exists r; split; [done|lia]].
  destruct (Z.leb_spec (r_seq r) (r_seq old)); eexists; (split; [done|lia]).
Qed.

Lemma dominates_absorb_all M rs r : dominates M r -> dominates (absorb_all M rs) r.
Proof. revert M. induction rs; simpl; eauto using dominates_absorb. Qed.

Lemma absorb_all_dominates M rs r : r ∈ rs -> dominates (absorb_all M rs) r.
Proof.
  revert M. induction rs as [|r0 rs IH]; intros M Hr; [by apply not_elem_of_nil in Hr|].
  apply elem_of_cons in Hr as [->|Hr]; simpl; [|by apply IH].
  apply dominates_absorb_all, dominates_absorb_self.
Qed.

Lemma absorb_all_dominated M rs : (forall r, r ∈ rs -> dominates M r) -> absorb_all M rs = M.
Proof.
  induction rs as [|r rs IH]; intros Hd; simpl; [done|].
  rewrite absorb_dominated by (apply Hd; set_solver). apply IH. intros. apply Hd. set_solver.
Qed.

(** Only the set of records matters, not their order or repetition. *)
Lemma absorb_all_set M rs rs' : consistent rs -> (forall r, r ∈ rs' <-> r ∈ rs) ->
  absorb_all M rs = absorb_all M rs'.
Proof.
  intros Hc Hset.
  rewrite <- (absorb_all_dominated (absorb_all M rs) rs')
    by (intros; apply absorb_all_dominates; by apply Hset).
  rewrite <- (absorb_all_dominated (absorb_all M rs') rs)
    by (intros; apply absorb_all_dominates; by apply Hset).
  rewrite <- !absorb_all_app. apply absorb_all_perm; [apply Permutation_app_comm|].
  intros x y Hx Hy. apply Hc; rewrite elem_of_app, Hset in *; tauto.
Qed.

Lemma absorb_all_idem M rs : absorb_all (absorb_all M rs) rs = absorb_all M rs.
Proof. apply absorb_all_dominated. intros r Hr. by apply absorb_all_dominates. Qed.
End absorb.

(** ** The log *)

Lemma locates_grows L L' k e r : grows L L' -> locates L k e r -> locates L' k e r.
Proof.
  intros Hg (? & ? & ? & ? & pre & post & HL & ?). do 4 (split; [done|]).
  destruct (Hg _ _ HL) as [rs' HL']. exists pre, (post ++ rs').
  by rewrite <- app_assoc in HL'.
Qed.

Lemma grows_refl L : grows L L.
Proof. intros id rs HL. exists []. by rewrite app_nil_r. Qed.

Lemma grows_trans L L' L'' : grows L L' -> grows L' L'' -> grows L L''.
Proof.
  intros H1 H2 id rs HL. destruct (H1 _ _ HL) as [rs1 H1']. destruct (H2 _ _ H1') as [rs2 H2'].
  exists (rs1 ++ rs2). by rewrite app_assoc.
Qed.

Lemma grows_append L id rs rs' : L !! id = Some rs -> grows L (<[id := rs ++ rs']> L).
Proof.
  intros HL id' rs0 HL'. destruct (decide (id' = id)) as [->|Hne].
  - rewrite HL in HL'. injection HL' as <-. exists rs'. by rewrite lookup_insert_eq.
  - exists []. by rewrite lookup_insert_ne, app_nil_r by done.
Qed.

Lemma grows_new L id : L !! id = None -> grows L (<[id := []]> L).
Proof.
  intros HL id' rs0 HL'. exists []. rewrite app_nil_r.
  by rewrite lookup_insert_ne by congruence.
Qed.

(** The bytes at a located entry are the record's encoding. *)
Lemma located_bytes L k e r dfs fs : files_inv dfs fs L -> locates L k e r ->
  exists d f, dfs !! e_fileID e = Some d /\ df_id d = e_fileID e /\ df_open d = true /\
    fs !! dataPath (e_fileID e) = Some f /\ valid_record r /\
    0 <= e_pos e /\ 0 < e_size e /\ e_pos e + e_size e <= zlen (f_data f) /\
    slice (Z.to_nat (e_pos e)) (Z.to_nat (e_pos e + e_size e)) (f_data f) = encode r.
Proof.
  intros Hf (Hk & _ & _ & Hsz & pre & post & HL & Hpos).
  destruct (Hf _ _ HL) as (_ & Hv & d & f & Hd & Hid & Ho & Hfs & [tl Hpre]).
  exists d, f. do 4 (split; [done|]). apply Forall_app in Hv as [_ Hv].
  apply Forall_cons in Hv as [Hv _]. split; [done|].
  rewrite encode_all_app, encode_all_cons, <- !app_assoc in Hpre.
  rewrite Hpre, Hpos, Hsz. pose proof (zlen_nonneg (encode_all pre)).
  pose proof (zlen_nonneg (encode_all post)). pose proof (zlen_nonneg tl).
  assert (0 < zlen (encode r)) by (rewrite zlen_encode; pose proof (zlen_nonneg (r_key r));
    pose proof (zlen_nonneg (r_value r)); lia).
  rewrite !zlen_app. do 3 (split; [lia|]).
  apply slice_app_exact; [apply zlen_to_nat|]. rewrite Z2Nat.inj_add, !zlen_to_nat by lia. done.
Qed.

(** ** Steps *)

Lemma log_size_nonneg rs : 0 <= log_size rs.
Proof. apply zlen_nonneg. Qed.
Lemma log_size_app rs rs' : log_size (rs ++ rs') = log_size rs + log_size rs'.
Proof. apply zlen_encode_all_app. Qed.

Lemma appended_grows recs L L' : appended recs L L' -> grows L L'.
Proof.
  intros [Hd Ha] id rs HL.
  assert (Hin : id ∈ dom L') by (apply Hd, elem_of_dom; eauto).
  apply elem_of_dom in Hin as [rs' HL']. rewrite HL'.
  destruct (Ha _ _ HL') as [->| ->]; rewrite HL; simpl; [exists []|by exists recs].
  by rewrite app_nil_r.
Qed.

Lemma appended_refl recs L : appended recs L L.
Proof. split; [done|]. intros id rs' ->. by left. Qed.
Lemma appended_nil_eq L L' id rs' :
  appended [] L L' -> L' !! id = Some rs' -> rs' = default [] (L !! id).
Proof. intros [_ Ha] HL. destruct (Ha _ _ HL) as [->| ->]; by rewrite ?app_nil_r. Qed.
Lemma appended_nil_default L L' id :
  appended [] L L' -> default [] (L' !! id) = default [] (L !! id).
Proof.
  intros Ha. destruct (L' !! id) as [rs'|] eqn:E; [by apply appended_nil_eq with L'|].
  destruct (L !! id) as [rs|] eqn:E'; [|done].
  assert (Hin : id ∈ dom L') by (apply (proj1 Ha), elem_of_dom; eauto).
  apply elem_of_dom in Hin as [? ?]. congruence.
Qed.
Lemma appended_trans_l recs L L1 L2 :
  appended [] L L1 -> appended recs L1 L2 -> appended recs L L2.
Proof.
  intros H1 [Hd2 Ha2]. split; [etrans; [apply H1|done]|].
  intros id rs' HL. rewrite <- (appended_nil_default L L1 id H1). by apply Ha2.
Qed.
Lemma appended_trans_r recs L L1 L2 :
  appended recs L L1 -> appended [] L1 L2 -> appended recs L L2.
Proof.
  intros [Hd1 Ha1] H2. split; [etrans; [done|apply H2]|].
  intros id rs' HL. rewrite (appended_nil_eq _ _ _ _ H2 HL).
  destruct (L1 !! id) as [rs1|] eqn:E; [by apply Ha1|].
  destruct (L !! id) eqn:E'; [|by left].
  assert (Hin : id ∈ dom L1) by (apply Hd1, elem_of_dom; eauto).
  apply elem_of_dom in Hin as [? ?]. congruence.
Qed.

Lemma keeps_refl L fs : keeps L fs fs.
Proof. by intros id rs n _ _. Qed.
Lemma keeps_trans L L' fs fs' fs'' :
  grows L L' -> keeps L fs fs' -> keeps L' fs' fs'' -> keeps L fs fs''.
Proof.
  intros Hg H1 H2 id rs n HL Hn Hf. destruct (Hg _ _ HL) as [rs' HL'].
  eapply H2; [done| |by eapply H1]. rewrite log_size_app.
  pose proof (log_size_nonneg rs'). lia.
Qed.

Section steps.
Context {I : Type} `{KeyIndexSpec I}.
Implicit Types (s : store I) (L : logs) (M : newest).

Lemma wstep_refl recs s L : wstep recs s L s L.
Proof. split; auto using appended_refl, keeps_refl. Qed.

Lemma wstep_trans_l recs s L s1 L1 s2 L2 :
  wstep [] s L s1 L1 -> wstep recs s1 L1 s2 L2 -> wstep recs s L s2 L2.
Proof.
  intros [] []. split; eauto using appended_trans_l, keeps_trans, appended_grows.
Qed.
Lemma wstep_trans_r recs s L s1 L1 s2 L2 :
  wstep recs s L s1 L1 -> wstep [] s1 L1 s2 L2 -> wstep recs s L s2 L2.
Proof.
  intros [] []. split; eauto using appended_trans_r, keeps_trans, appended_grows.
Qed.

Lemma store_inv_base s L M : store_inv s L M -> base_inv s L M.
Proof. intros []. by split. Qed.

Lemma wp_io {A} (m : wio A) (Q : A -> store I -> Prop) X s :
  wp m (fun a w' => Q a (set_w w' s)) (fun e w' => X e (set_w w' s)) (st_w s) ->
  wp (io m) Q X s.
Proof. unfold wp, io. by destruct (m (st_w s)) as [[a|e] w']. Qed.

Lemma wp_get_active Q X s id d :
  st_active s = Some id -> st_dfs s !! id = Some d -> Q d s -> wp get_active Q X s.
Proof.
  intros Ha Hd HQ. apply wp_bind, wp_get. rewrite Ha. cbn [mbind option_bind]. by rewrite Hd.
Qed.

(** *** Changes to the directory *)

Lemma inv_advance s L M w' : store_inv s L M -> advance (st_w s) w' ->
  store_inv (set_w w' s) L M /\ wstep [] s L (set_w w' s) L.
Proof.
  intros [] (Hfs & _ & Hflt). split.
  - split; simpl; rewrite ?Hfs; done.
  - split; simpl; auto using appended_refl.
    + rewrite Hfs. apply keeps_refl.
    + unfold sync_inv. simpl. by rewrite Hfs.
Qed.

(** Rewriting one data file, its records kept and nothing that was on stable
    storage lost. *)
Lemma inv_update_file s L M id rs f f' w' :
  store_inv s L M -> L !! id = Some rs -> w_fs (st_w s) !! dataPath id = Some f ->
  to_fs (<[dataPath id := f']> (w_fs (st_w s))) (st_w s) w' ->
  encode_all rs `prefix_of` f_data f' -> Z.min (log_size rs) (f_synced f) <= f_synced f' ->
  store_inv (set_w w' s) L M /\ wstep [] s L (set_w w' s) L.
Proof.
  intros [Hix Hfiles Hdom Hact Hfresh] HL Hf (Hfs & _ & Hflt) Hpre Hsyn.
  assert (Hid : is_u32 id) by (destruct (Hfiles _ _ HL); done).
  assert (Hkeep : keeps L (w_fs (st_w s)) (w_fs w')).
  { intros id' rs' n HL' Hn (f0 & Hf0 & Hn0). unfold flushed. rewrite Hfs.
    destruct (decide (id' = id)) as [->|Hne].
    - rewrite lookup_insert_eq. exists f'. split; [done|].
      rewrite Hf in Hf0. injection Hf0 as ->. rewrite HL in HL'. injection HL' as ->. lia.
    - exists f0. split; [|done]. rewrite lookup_insert_ne; [done|].
      intros Heq. apply Hne. symmetry. apply dataPath_inj; auto.
      destruct (Hfiles _ _ HL'); done. }
  split.
  - split; simpl; try done; rewrite Hfs.
    + intros id' rs' HL'. destruct (Hfiles _ _ HL') as (Hid' & Hv & d & f0 & Hd & ? & ? & Hf0 & ?).
      split; [done|]. split; [done|]. exists d.
      destruct (decide (id' = id)) as [->|Hne].
      * rewrite HL in HL'. injection HL' as <-. exists f'. by rewrite lookup_insert_eq.
      * exists f0. rewrite lookup_insert_ne; [done|]. intros Heq. apply Hne. symmetry.
        by apply dataPath_inj.
    + destruct Hfresh as [Hn Hlt]. split; [done|]. intros id' Hid' Hs. apply Hlt; [done|].
      destruct (decide (dataPath id = dataPath id')) as [Heq|Hne].
      * rewrite <- Heq. eauto.
      * by rewrite lookup_insert_ne in Hs.
  - split; simpl; auto using appended_refl. intros Hs id' rs' HL' Ha.
    eapply Hkeep; [done|lia|]. by apply Hs.
Qed.
End steps.
