(* ===== verification/WritePath.v ===== *)
(** * The write path

    What every append does to the invariant: under any pattern of system call
    failures a write either takes effect as a whole or leaves the abstract
    state as it was, and the counters stay those a recount would give. *)

From S2P Require Import Prelude Bytes Record Datafile Manifest Index Store StoreInv.

Local Open Scope Z_scope.
Local Open Scope gokv_scope.

Section write_path.
Context {I : Type} `{KeyIndexSpec I}.
Implicit Types (s : store I) (L : logs) (M : newest).

(** ** The index *)

(** Updates that reach only the index and its counters. *)
Definition only_index s s' : Prop :=
  exists ix live n, s' = set_nLive n (set_live live (set_idx ix s)).

Lemma only_index_refl s : only_index s s.
Proof. exists (st_idx s), (st_live s), (st_nLive s). by destruct s. Qed.
Lemma only_index_intro s s' :
  s' = set_nLive (st_nLive s') (set_live (st_live s') (set_idx (st_idx s') s)) -> only_index s s'.
Proof. by eexists _, _, _. Qed.
Lemma only_index_trans s s' s'' : only_index s s' -> only_index s' s'' -> only_index s s''.
Proof. intros (? & ? & ? & ->) (ix & live & n & ->). by exists ix, live, n. Qed.

Lemma indexApply_frame k e tomb s : only_index s (indexApplyLocked k e tomb s).
Proof.
  unfold indexApplyLocked.
  destruct (idx_get k (st_idx s)) as [old|]; [destruct (_ <=? _); [apply only_index_refl|]|];
    repeat case_goal; apply only_index_intro; by destruct s.
Qed.

Lemma index_batch_frame id base offs recs s : only_index s (index_batch id base offs recs s).
Proof.
  revert offs s. induction recs as [|r recs IH]; intros [|off offs] s; simpl;
    try apply only_index_refl.
  eapply only_index_trans; [apply indexApply_frame|apply IH].
Qed.

(** Storing an entry for [k], whether or not [k] is known. *)
Lemma index_store_ok ix L M k e r : index_inv ix L M -> locates L k e r ->
  let ix' := match idx_get k ix with Some _ => idx_set k e ix | None => idx_insert k e ix end in
  index_inv ix' L (<[k := r]> M) /\ idx_view ix' = <[k := e]> (idx_view ix).
Proof.
  intros [Hwf Hv] Hloc. simpl. rewrite (idx_get_ok ix k Hwf).
  set (ix' := match _ with Some _ => _ | None => _ end).
  assert (Hix : idx_wf ix' /\ idx_view ix' = <[k := e]> (idx_view ix)).
  { unfold ix'. destruct (idx_view ix !! k) eqn:E.
    - apply idx_set_ok; [done|]. eauto.
    - by apply idx_insert_ok. }
  destruct Hix as [Hwf' Hview]. split; [|done]. split; [done|]. intros k'. rewrite Hview.
  destruct (decide (k' = k)) as [->|Hne].
  - by rewrite !lookup_insert_eq.
  - rewrite !lookup_insert_ne by done. apply Hv.
Qed.

Lemma indexApply_inv k e r s L M :
  index_inv (st_idx s) L M -> locates L k (set_tomb (tombstone r) e) r ->
  index_inv (st_idx (indexApplyLocked k e (tombstone r) s)) L (absorb M r).
Proof.
  intros Hinv Hloc. pose proof (index_store_ok _ _ _ _ _ _ Hinv Hloc) as [Hst _].
  pose proof Hloc as (Hk & Hseq & _). cbn [set_tomb e_seq] in Hseq.
  unfold indexApplyLocked, absorb. rewrite Hk. pose proof Hinv as [Hwf Hv].
  rewrite (idx_get_ok _ k Hwf) in *. specialize (Hv k). cbn [set_tomb e_seq].
  destruct (idx_view (st_idx s) !! k) as [old|], (M !! k) as [ro|]; try done.
  - destruct Hv as (_ & Ho & _). rewrite Ho, Hseq.
    destruct (r_seq r <=? r_seq ro); [done|]. by destruct (tombstone r), (e_tomb old).
  - by destruct (tombstone r).
Qed.

(** The counters follow the index. *)
Lemma indexApply_live k e tomb s :
  idx_wf (st_idx s) -> live_inv s -> live_inv (indexApplyLocked k e tomb s).
Proof.
  intros Hwf [Hlive Hn]. unfold indexApplyLocked, live_inv.
  rewrite (idx_get_ok _ k Hwf).
  destruct (idx_view (st_idx s) !! k) as [old|] eqn:E.
  - destruct (_ <=? _); [done|].
    destruct (idx_set_ok (st_idx s) k (set_tomb tomb e) Hwf) as [_ Hview]; [eauto|].
    destruct (e_tomb old) eqn:Eo, tomb; simpl; rewrite Hview, !(map_sum_update _ _ _ old) by done;
      rewrite ?Hlive, ?Hn, ?i64_sub, ?i64_add, ?i64_sub; unfold live_size, live_one; rewrite Eo;
      simpl; split; f_equal; lia.
  - destruct (idx_insert_ok (st_idx s) k (set_tomb tomb e) Hwf E) as [_ Hview].
    destruct tomb; simpl; rewrite Hview, !map_sum_insert by done;
      rewrite ?Hlive, ?Hn, ?i64_add; unfold live_size, live_one; simpl; split; f_equal; lia.
Qed.

(** A recount gives what the counters should be. *)
Lemma recount_fold l : forall a b,
  foldl (fun acc (p : bytes * entry) => if e_tomb p.2 then acc
           else (i64 (acc.1 + e_size p.2), i64 (acc.2 + 1))) (i64 a, i64 b) l =
  (i64 (a + zsum (fun p => live_size p.2) l), i64 (b + zsum (fun p => live_one p.2) l)).
Proof.
  induction l as [|p l IH]; intros a b; simpl; [by rewrite !Z.add_0_r|].
  unfold live_size at 1, live_one at 1. destruct (e_tomb p.2).
  - rewrite IH. f_equal; f_equal; lia.
  - rewrite !i64_add, IH. f_equal; f_equal; lia.
Qed.

Lemma recountLocked_live s : idx_wf (st_idx s) -> live_inv (recountLocked s).
Proof.
  intros Hwf. unfold recountLocked. change (0, 0) with (i64 0, i64 0). rewrite recount_fold.
  pose proof (idx_elems_ok _ Hwf) as Hp.
  split; simpl; by rewrite (map_sum_elems _ _ _ Hp).
Qed.

Lemma recountLocked_frame s : only_index s (recountLocked s).
Proof.
  unfold recountLocked. destruct (foldl _ _ _). apply only_index_intro. by destruct s.
Qed.

(** ** A batch of records at the end of a file *)

Lemma zlen_encode_all_nil : zlen (encode_all []) = 0.
Proof. done. Qed.
Lemma zlen_encode_all_cons r rs :
  zlen (encode_all (r :: rs)) = zlen (encode r) + zlen (encode_all rs).
Proof. apply zlen_app. Qed.

Lemma encode_batch_spec offs buf recs :
  zlen (buf ++ encode_all recs) < 2 ^ 32 ->
  encode_batch offs buf recs =
    (offs ++ imap (fun i _ => zlen (buf ++ encode_all (take i recs))) recs,
     buf ++ encode_all recs).
Proof.
  revert offs buf. induction recs as [|r recs IH]; intros offs buf Hlen; simpl.
  - unfold encode_all. simpl. by rewrite !app_nil_r.
  - rewrite encode_all_cons, app_assoc in Hlen |- *.
    rewrite appendRecord_encode, IH by done. rewrite u32_small.
    2:{ rewrite !zlen_app in Hlen. pose proof (zlen_nonneg (encode_all recs)).
        pose proof (zlen_nonneg (encode r)). pose proof (zlen_nonneg buf). unfold is_u32. lia. }
    f_equal. rewrite <- app_assoc. f_equal. cbn [app]. f_equal.
    + unfold encode_all. simpl. by rewrite app_nil_r.
    + apply imap_ext. intros i x _. simpl. by rewrite encode_all_cons, app_assoc.
Qed.

Lemma tomb_false_locates L k e r : locates L k e r ->
  locates L k (set_tomb (tombstone r) (set_tomb false e)) r.
Proof. intros (? & ? & ? & ? & ?). done. Qed.

(** Indexing the records [recs] that follow [pre] in file [id]. *)
Lemma index_batch_inv id recs : forall pre base offs s L M post,
  L !! id = Some (pre ++ recs ++ post) ->
  Forall valid_record recs ->
  offs = imap (fun i _ => zlen (encode_all pre) - base + zlen (encode_all (take i recs))) recs ->
  index_inv (st_idx s) L M -> live_inv s ->
  let s' := index_batch id base offs recs s in
  index_inv (st_idx s') L (absorb_all M recs) /\ live_inv s'.
Proof.
  induction recs as [|r recs IH]; intros pre base offs s L M post HL Hv -> Hinv Hlive; [done|].
  apply Forall_cons in Hv as [Hr Hv]. cbn [imap index_batch].
  apply (IH (pre ++ [r]) _ _ _ _ _ post).
  - by rewrite <- app_assoc.
  - done.
  - apply imap_ext. intros i x _. cbn [compose take].
    rewrite zlen_encode_all_app, !zlen_encode_all_cons, zlen_encode_all_nil. lia.
  - apply indexApply_inv; [done|]. split; [done|]. split; [done|]. split; [done|].
    pose proof (valid_sizes r Hr). split.
    { unfold encodedSize. rewrite zlen_encode. apply u32_small.
      unfold is_u32, recordHeaderSize. simpl. lia. }
    exists pre, (recs ++ post). split; [done|].
    cbn [set_tomb e_pos take]. rewrite zlen_encode_all_nil. lia.
  - apply indexApply_live; [apply Hinv|done].
Qed.

(** ** Files *)

(** fsync of an open data file: on success all of its records are on stable
    storage. *)
Lemma df_sync_wp s L M id rs d :
  store_inv s L M -> L !! id = Some rs -> st_dfs s !! id = Some d ->
  wp (io (df_sync d))
    (fun _ s' => exists w', s' = set_w w' s /\ store_inv s' L M /\ wstep [] s L s' L /\
       flushed (w_fs w') id (log_size rs))
    (fun e s' => w_faults (st_w s) <> [] /\
       exists w', s' = set_w w' s /\ store_inv s' L M /\ wstep [] s L s' L) s.
Proof.
  intros Hinv HL Hd. apply wp_io. pose proof (si_files _ _ _ Hinv _ _ HL)
    as (_ & _ & d' & f & Hd' & Hid & Ho & Hf & Hpre).
  rewrite Hd in Hd'. injection Hd' as <-. unfold df_sync. rewrite Ho. simpl. rewrite Hid.
  eapply wp_fs_sync; [|done|].
  - intros Hflt w' Hw. split; [done|]. exists w'. split; [done|]. by apply inv_advance.
  - intros w' Hw. exists w'. split; [done|].
    assert (Hlen : log_size rs <= zlen (f_data f)).
    { destruct Hpre as [tl Htl]. rewrite Htl, zlen_app. pose proof (zlen_nonneg tl).
      unfold log_size. lia. }
    apply and_assoc. split.
    + eapply inv_update_file; [done..|]. simpl. lia.
    + destruct Hw as [-> _]. eexists. rewrite lookup_insert_eq. done.
Qed.

Lemma visible_set_w w s : visible (set_w w s) = visible s /\ indexed (set_w w s) = indexed s.
Proof. done. Qed.

(** The sum of the open files' sizes, when a file is added and when one grows. *)
Lemma open_sum_new s id w' :
  id ∉ st_files s ->
  map_sum df_size (open_dfs (set_active (Some id) (set_files ({[id]} ∪ st_files s)
    (put_df (mkDatafile id 0 true true) (set_nextID (u32 (id + 1)) (set_w w' s)))))) =
  map_sum df_size (open_dfs s).
Proof.
  unfold open_dfs. simpl. intros Hn.
  rewrite map_filter_insert_True by (simpl; set_solver).
  rewrite <- insert_delete_eq, map_sum_insert by apply lookup_delete_eq. simpl.
  rewrite Z.add_0_l. f_equal. apply map_eq. intros i. destruct (decide (i = id)) as [->|Hne].
  - rewrite lookup_delete_eq. symmetry. apply map_lookup_filter_None. right. simpl. by intros ? _.
  - rewrite lookup_delete_ne by done. apply option_eq. intros d.
    rewrite !map_lookup_filter_Some. simpl. set_solver.
Qed.

Lemma open_dfs_grow s id d n : df_id d = id -> id ∈ st_files s -> st_dfs s !! id = Some d ->
  total_inv s ->
  total_inv (set_dirty true (set_total (i64 (st_total s + n))
    (put_df (df_set_size (df_size d + n) d) s))).
Proof.
  unfold total_inv, open_dfs. simpl. intros -> Hin Hd ->.
  rewrite map_filter_insert_True by done. rewrite (map_sum_update _ _ _ d).
  - rewrite i64_add. simpl. f_equal. lia.
  - apply map_lookup_filter_Some. done.
Qed.

(** A new, empty active file. *)
Lemma add_file_inv s L M w' :
  base_inv s L M -> st_nextID s + 1 < 2 ^ 32 ->
  w_fs (st_w s) !! dataPath (st_nextID s) = None ->
  to_fs (<[dataPath (st_nextID s) := mkFile [] 0]> (w_fs (st_w s))) (st_w s) w' ->
  (sync_inv s L -> all_flushed s L) ->
  let id := st_nextID s in
  let d := mkDatafile id 0 true true in
  let s' := set_active (Some id) (set_files ({[id]} ∪ st_files s)
              (put_df d (set_nextID (u32 (id + 1)) (set_w w' s)))) in
  store_inv s' (<[id := []]> L) M /\ wstep [] s L s' (<[id := []]> L) /\ L !! id = None /\
  (sync_inv s L -> all_flushed s' (<[id := []]> L)).
Proof.
  intros [Hix Hfiles Hdom Hfresh] Hnext Hnone (Hfs & _ & Hflt) Hflu id d s'.
  destruct Hfresh as [Hid Hlt].
  assert (HLn : L !! id = None).
  { destruct (L !! id) eqn:E; [|done]. destruct (Hfiles _ _ E) as (_ & _ & ? & ? & _ & _ & _ & Hf & _).
    unfold id in Hf. congruence. }
  assert (Hother : forall id' rs', L !! id' = Some rs' -> id' <> id /\ dataPath id <> dataPath id').
  { intros id' rs' HL'. assert (Hne : id' <> id) by congruence. split; [done|].
    intros Heq. apply Hne. symmetry. apply dataPath_inj; auto. destruct (Hfiles _ _ HL'); done. }
  assert (Hu : u32 (id + 1) = id + 1).
  { apply u32_small. unfold is_u32 in Hid |- *. unfold id in *. lia. }
  assert (Hkeep : keeps L (w_fs (st_w s)) (w_fs w')).
  { intros id' rs' n HL' _ (f0 & Hf0 & Hn). exists f0. rewrite Hfs, lookup_insert_ne; [done|].
    apply (Hother _ _ HL'). }
  assert (Hall : sync_inv s L -> all_flushed s' (<[id := []]> L)).
  { intros Hs id' rs' HL'. simpl. destruct (decide (id' = id)) as [->|Hne].
    - rewrite lookup_insert_eq in HL'. injection HL' as <-. exists (mkFile [] 0).
      rewrite Hfs. fold id. by rewrite lookup_insert_eq.
    - rewrite lookup_insert_ne in HL' by done. eapply Hkeep; [done|lia|]. by apply Hflu. }
  split; [|split; [|done]].
  - split.
    + destruct Hix as [Hwf Hv]. split; [done|]. intros k. specialize (Hv k). simpl.
      destruct (idx_view (st_idx s) !! k), (M !! k); try done.
      eapply locates_grows; [by apply grows_new|done].
    + intros id' rs' HL'. simpl. rewrite Hfs. destruct (decide (id' = id)) as [->|Hne].
      * rewrite lookup_insert_eq in HL'. injection HL' as <-.
        split; [done|]. split; [constructor|]. exists d, (mkFile [] 0). simpl. fold id.
        rewrite !lookup_insert_eq. repeat split; done || apply prefix_nil.
      * rewrite lookup_insert_ne in HL' by done.
        destruct (Hfiles _ _ HL') as (? & ? & d0 & f0 & ? & ? & ? & ? & ?).
        destruct (Hother _ _ HL'). split; [done|]. split; [done|]. exists d0, f0. simpl. fold id.
        by rewrite !lookup_insert_ne by done.
    + rewrite dom_insert_L, Hdom. done.
    + exists id, d, []. simpl. fold id. by rewrite !lookup_insert_eq.
    + simpl. fold id. rewrite Hu, Hfs. split; [unfold is_u32 in *; fold id in Hid; lia|].
      intros id' Hid' Hs. destruct (decide (id' = id)) as [->|Hne]; [lia|].
      rewrite lookup_insert_ne in Hs.
      * specialize (Hlt id' Hid' Hs). fold id in Hlt. lia.
      * intros Heq. apply Hne. symmetry. by apply dataPath_inj.
  - split; simpl; auto.
    + split; [rewrite dom_insert_L; set_solver|]. intros id' rs' HL'. left.
      destruct (decide (id' = id)) as [->|Hne].
      * rewrite lookup_insert_eq in HL'. by rewrite HLn; simplify_eq.
      * rewrite lookup_insert_ne in HL' by done. by rewrite HL'.
    + intros Hs id' rs' HL' _. by apply Hall.
    + intros Ht. unfold total_inv in *. etrans; [exact Ht|]. f_equal. symmetry.
      apply open_sum_new. rewrite <- Hdom. by apply not_elem_of_dom.
Qed.

(** Opening a new active file, once the old one is on stable storage. *)
Lemma openNewActive_wp s L M :
  store_inv s L M -> st_nextID s + 1 < 2 ^ 32 ->
  (sync_inv s L -> all_flushed s L) ->
  wp openNewActive
    (fun _ s' => exists id, L !! id = None /\ st_active s' = Some id /\
       st_dfs s' !! id = Some (mkDatafile id 0 true true) /\
       store_inv s' (<[id := []]> L) M /\ wstep [] s L s' (<[id := []]> L) /\
       (sync_inv s L -> all_flushed s' (<[id := []]> L)) /\
       visible s' = visible s /\ indexed s' = indexed s)
    (fun e s' => w_faults (st_w s) <> [] /\ exists L', store_inv s' L' M /\ wstep [] s L s' L' /\
       visible s' = visible s /\ indexed s' = indexed s) s.
Proof.
  intros Hinv Hnext Hflu. unfold openNewActive. apply wp_bind, wp_get, wp_bind, wp_io.
  unfold createDataFile. apply wp_bind, wp_fs_create_excl.
  - intros Hf w' Hw. split; [done|]. exists L. destruct (inv_advance _ _ _ _ Hinv Hw). done.
  - intros Hnone w' Hw. apply wp_ret. cbn [df_id].
    destruct (add_file_inv s L M w' (store_inv_base _ _ _ Hinv) Hnext Hnone Hw Hflu) as (Hinv' & Hstep & HLn & Hall).
    do 3 apply wp_bind, wp_modify. apply wp_io, wp_syncDir.
    + intros w2 Hw2. exists (st_nextID s). split; [done|]. split; [done|].
      split; [simpl; by rewrite lookup_insert_eq|].
      destruct (inv_advance _ _ _ w2 Hinv' Hw2) as [Hinv2 Hstep2].
      split; [exact Hinv2|].
      split; [eapply wstep_trans_l; [exact Hstep|exact Hstep2]|].
      split; [|done]. intros Hs id rs HL. eapply (ws_keeps _ _ _ _ _ Hstep2); [done..|].
      by apply Hall.
    + intros Hf w2 Hw2. split.
      { intros Hno. apply Hf. simpl. by apply (ws_faults _ _ _ _ _ Hstep). }
      destruct (inv_advance _ _ _ w2 Hinv' Hw2) as [Hinv2 Hstep2].
      exists (<[st_nextID s := []]> L). split; [exact Hinv2|]. split; [|done].
      eapply wstep_trans_l; [exact Hstep|exact Hstep2].
  - intros Hs w' Hw. exfalso. destruct (si_fresh _ _ _ Hinv) as [Hid Hlt].
    specialize (Hlt _ Hid Hs). lia.
Qed.

(** ** Rotation *)

(** What a failing append leaves: the abstract state as it was. *)
Definition failed recs s L M s' : Prop :=
  w_faults (st_w s) <> [] /\ exists L', store_inv s' L' M /\ wstep recs s L s' L' /\
    visible s' = visible s /\ indexed s' = indexed s.

Lemma failed_after recs s L s1 L1 M s' : wstep [] s L s1 L1 ->
  visible s1 = visible s -> indexed s1 = indexed s ->
  failed recs s1 L1 M s' -> failed recs s L M s'.
Proof.
  intros Hstep Hv Hi (Hf & L' & Hinv & Hstep' & Hv' & Hi'). split.
  - intros Hno. apply Hf, (ws_faults _ _ _ _ _ Hstep), Hno.
  - exists L'. split; [done|]. split; [by eapply wstep_trans_l|]. split; congruence.
Qed.

Lemma set_dirty_inv b s L M : store_inv s L M -> store_inv (set_dirty b s) L M.
Proof. intros []. by split. Qed.
Lemma set_tasks_inv b s L M : store_inv s L M -> store_inv (set_tasks b s) L M.
Proof. intros []. by split. Qed.

Lemma maybeRotate_wp incoming s L M :
  store_inv s L M -> st_nextID s + 1 < 2 ^ 32 ->
  wp (maybeRotateLocked incoming)
    (fun _ s' => exists L', store_inv s' L' M /\ wstep [] s L s' L' /\
       visible s' = visible s /\ indexed s' = indexed s /\
       exists a, st_active s' = Some a /\ L' = <[a := log_of L a]> L)
    (fun _ s' => failed [] s L M s') s.
Proof.
  intros Hinv Hnext. pose proof (si_active _ _ _ Hinv) as (a & d & rs & Ha & HL & Hd & _).
  unfold maybeRotateLocked. apply wp_bind, wp_get, wp_bind.
  apply (wp_get_active _ _ _ a d Ha Hd). destruct (_ || _).
  { apply wp_ret. exists L. do 4 (split; [by auto using wstep_refl|]). exists a. split; [done|].
    unfold log_of. rewrite HL. by rewrite insert_id. }
  apply wp_bind. eapply wp_mono; [apply (df_sync_wp s L M a rs d); done| |].
  2:{ intros e s' (Hf & w' & -> & Hinv' & Hstep). split; [done|]. by exists L. }
  intros _ s1 (w1 & -> & Hinv1 & Hstep1 & Hflu).
  apply wp_bind. eapply wp_mono; [apply (openNewActive_wp _ L M); [done|done|]| |].
  - intros Hs id rs' HL'. destruct (decide (id = a)) as [->|Hne].
    + rewrite HL in HL'. injection HL' as <-. exact Hflu.
    + apply Hs; [done|]. left. simpl. congruence.
  - intros _ s2 (id & HLn & Ha2 & _ & Hinv2 & Hstep2 & Hall & Hv & Hi).
    do 2 apply wp_bind || apply wp_modify. apply wp_modify.
    exists (<[id := []]> L). split; [by apply set_tasks_inv, set_dirty_inv|]. split.
    + eapply wstep_trans_l; [exact Hstep1|].
      destruct Hstep2. split; auto. intros Hs id' rs' HL' _. by apply Hall.
    + split; [done|]. split; [done|]. exists id. split; [done|]. unfold log_of. by rewrite HLn.
  - intros e s2 Hfail. by eapply failed_after; [exact Hstep1| | |].
Qed.

(** ** Appending *)

(** Bytes written beyond the records of the active file, or a truncation back
    to them, leave the invariant alone. *)
Lemma active_update s L M a rs f w' buf :
  store_inv s L M -> L !! a = Some rs -> w_fs (st_w s) !! dataPath a = Some f ->
  encode_all rs `prefix_of` f_data f ->
  to_fs (<[dataPath a := mkFile (write_bytes (log_size rs) buf (f_data f))
            (Z.min (log_size rs) (f_synced f))]> (w_fs (st_w s))) (st_w s) w' ->
  store_inv (set_w w' s) L M /\ wstep [] s L (set_w w' s) L /\
  exists f', w_fs w' !! dataPath a = Some f' /\ encode_all rs ++ buf `prefix_of` f_data f'.
Proof.
  intros Hinv HL Hf [tl Hpre] Hw. rewrite Hpre, write_bytes_at in Hw by done.
  apply and_assoc. split.
  - eapply inv_update_file; [done..| |]; simpl; [by apply prefix_app_r|lia].
  - destruct Hw as [-> _]. eexists. rewrite lookup_insert_eq. split; [done|]. simpl.
    exists (drop (length buf) tl). by rewrite <- app_assoc.
Qed.

Lemma df_truncate_wp s L M a rs d f :
  store_inv s L M -> L !! a = Some rs -> st_dfs s !! a = Some d ->
  w_fs (st_w s) !! dataPath a = Some f ->
  wp (sm_ignore (io (df_truncate d (log_size rs))))
    (fun _ s' => exists w', s' = set_w w' s /\ store_inv s' L M /\ wstep [] s L s' L)
    (fun _ _ => False) s.
Proof.
  intros Hinv HL Hd Hf. apply wp_ignore, wp_io.
  pose proof (si_files _ _ _ Hinv _ _ HL)
    as (_ & _ & d' & f' & Hd' & Hid & Ho & Hf' & [tl Hpre]).
  simplify_eq. unfold df_truncate, df_guard. destruct (df_open d && df_write d).
  2:{ apply wp_throw. exists (st_w s). replace (set_w (st_w s) s) with s by (by destruct s).
      auto using wstep_refl. }
  eapply wp_fs_truncate; [|done|].
  - intros _ w' Hw. exists w'. split; [done|]. by apply inv_advance.
  - intros w' Hw. exists w'. split; [done|].
    eapply inv_update_file; [done..| |]; simpl; [|lia]. exists [].
    rewrite Hpre, app_nil_r. apply take_app_length'. unfold log_size. by rewrite zlen_to_nat.
Qed.

(** The append becomes part of the file's log. *)
Lemma extend_inv s L M a rs recs d f :
  store_inv s L M -> L !! a = Some rs -> st_active s = Some a -> st_dfs s !! a = Some d ->
  df_size d = log_size rs ->
  w_fs (st_w s) !! dataPath a = Some f -> encode_all (rs ++ recs) `prefix_of` f_data f ->
  Forall valid_record recs ->
  let d' := df_set_size (log_size rs + log_size recs) d in
  let s' := set_dirty true (set_total (i64 (st_total s + log_size recs)) (put_df d' s)) in
  store_inv s' (<[a := rs ++ recs]> L) M /\ wstep recs s L s' (<[a := rs ++ recs]> L).
Proof.
  intros [Hix Hfiles Hdom Hact Hfresh] HL Ha Hd Hsz Hf Hpre Hv d' s'.
  destruct (Hfiles _ _ HL) as (Hid & Hv0 & d0 & f0 & Hd0 & Hidd & Ho & Hf0 & _). simplify_eq.
  assert (Hdfs : st_dfs s' = <[df_id d := d']> (st_dfs s)) by done. split.
  - split.
    + destruct Hix as [Hwf Hview]. split; [done|]. intros k. specialize (Hview k). simpl.
      destruct (idx_view (st_idx s) !! k), (M !! k); try done.
      eapply locates_grows; [by apply grows_append|done].
    + intros id rs' HL'. rewrite Hdfs. simpl.
      destruct (decide (id = df_id d)) as [->|Hne].
      * rewrite lookup_insert_eq in HL'. injection HL' as <-.
        split; [done|]. split; [by apply Forall_app|]. exists d', f.
        by rewrite lookup_insert_eq.
      * rewrite lookup_insert_ne in HL' by done.
        destruct (Hfiles _ _ HL') as (? & ? & d1 & f1 & ?).
        split; [done|]. split; [done|]. exists d1, f1. by rewrite lookup_insert_ne by done.
    + rewrite dom_insert_lookup_L by eauto. done.
    + destruct Hact as (a' & d1 & rs1 & Ha' & _ & Hd1 & Hw & _).
      rewrite Ha in Ha'. injection Ha' as <-. rewrite Hd in Hd1. injection Hd1 as <-.
      exists (df_id d), d', (rs ++ recs). rewrite Hdfs, !lookup_insert_eq.
      repeat split; try done. simpl. by rewrite <- log_size_app.
    + done.
  - split; simpl; auto using keeps_refl.
    + split; [rewrite dom_insert_L; set_solver|]. intros id rs' HL'.
      destruct (decide (id = df_id d)) as [->|Hne].
      * rewrite lookup_insert_eq in HL'. rewrite HL. injection HL' as <-. by right.
      * rewrite lookup_insert_ne in HL' by done. rewrite HL'. by left.
    + intros Hs id rs' HL' [Hact'|Hdirty]; [|done]. simpl in *.
      rewrite lookup_insert_ne in HL' by congruence. apply Hs; auto.
    + intros Ht. unfold s', d'. rewrite <- Hsz.
      apply (open_dfs_grow s (df_id d) d); [done| |done..].
      rewrite <- Hdom. apply elem_of_dom. eauto.
Qed.

(** The fsync of SyncAlways: with it the store is clean again. *)
Lemma sync_always_wp s L M a rs d :
  store_inv s L M -> L !! a = Some rs -> st_active s = Some a -> st_dfs s !! a = Some d ->
  let b := bool_decide (o_SyncMode (st_opts s) = SyncAlways) in
  wp (sm_when b (io (df_sync d);;; sm_modify (set_dirty false)))
    (fun _ s' => exists w' b', s' = set_dirty b' (set_w w' s) /\ (b = true -> b' = false) /\
       store_inv s' L M /\ wstep [] s L s' L)
    (fun _ s' => failed [] s L M s') s.
Proof.
  intros Hinv HL Ha Hd b. apply wp_when.
  2:{ intros Hb. exists (st_w s), (st_dirty s).
      replace (set_dirty _ _) with s by (by destruct s). rewrite Hb.
      split; [done|]. split; [done|]. auto using wstep_refl. }
  intros _. apply wp_bind. eapply wp_mono; [apply (df_sync_wp s L M a rs d); done| |].
  - intros _ s1 (w1 & -> & Hinv1 & [Hlogs Hkeep Hf Hsync Htot] & Hflu).
    apply wp_modify. exists w1, false. split; [done|]. split; [done|].
    split; [by apply set_dirty_inv|]. split; auto.
    intros Hs id rs' HL' _. simpl. destruct (decide (id = a)) as [->|Hne].
    + rewrite HL in HL'. by injection HL' as <-.
    + apply Hsync; [done..|]. left. simpl. congruence.
  - intros e s1 (Hf & w1 & -> & Hinv1 & Hstep). split; [done|]. by exists L.
Qed.

(** Indexing an append and telling the observers. *)
Lemma index_notify_inv s L M a rs recs r :
  store_inv s L M -> live_inv s -> L !! a = Some (rs ++ recs) -> Forall valid_record recs ->
  let s' := notify (r_seq r) (encode_all recs)
    (index_batch a (log_size rs) (imap (fun i _ => zlen (encode_all (take i recs))) recs) recs s) in
  store_inv s' L (absorb_all M recs) /\ live_inv s' /\ wstep [] s L s' L /\
  visible s' = visible (notify (r_seq r) (encode_all recs) s).
Proof.
  intros [Hix Hfiles Hdom Hact Hfresh] Hlive HL Hv s'. set (offs := imap _ _) in s'.
  destruct (index_batch_inv a recs rs (log_size rs) offs s L M []) as [Hix' Hlive'].
  - by rewrite app_nil_r.
  - done.
  - apply imap_ext. intros i x _. unfold log_size. lia.
  - done.
  - done.
  - assert (Hfr := index_batch_frame a (log_size rs) offs recs s).
    destruct Hfr as (ix & live & n & Heq). unfold s'. rewrite Heq in *.
    split; [by split|]. split; [done|]. split; [|done].
    split; simpl; auto using appended_refl, keeps_refl.
Qed.

(** The write itself: the bytes follow the file's records, or the write failed
    and what it left is beyond them. *)
Lemma write_buf_wp s L M a rs d buf :
  store_inv s L M -> L !! a = Some rs -> st_dfs s !! a = Some d -> df_write d = true ->
  wp (sm_catch (io (df_writeAt d buf (log_size rs)))
        (fun e => sm_ignore (io (df_truncate d (log_size rs)));;; sm_throw e))
    (fun _ s' => exists w' f, s' = set_w w' s /\ store_inv s' L M /\ wstep [] s L s' L /\
       w_fs w' !! dataPath a = Some f /\ encode_all rs ++ buf `prefix_of` f_data f)
    (fun _ s' => failed [] s L M s') s.
Proof.
  intros Hinv HL Hd Hwr. pose proof (si_files _ _ _ Hinv _ _ HL)
    as (_ & _ & d' & f & Hd' & Hid & Ho & Hf & Hpre).
  rewrite Hd in Hd'. injection Hd' as <-. apply wp_catch, wp_io.
  unfold df_writeAt. rewrite Ho, Hwr, Hid. cbn [andb df_guard].
  eapply wp_fs_write_at; [exact Hf| |].
  - intros w2 Hw2. destruct (active_update _ _ _ _ _ _ _ _ Hinv HL Hf Hpre Hw2)
      as (Hinv2 & Hstep2 & f2 & Hf2 & Hpre2). exists w2, f2. done.
  - intros Hflt k w2 Hw2. destruct (active_update _ _ _ _ _ _ _ _ Hinv HL Hf Hpre Hw2)
      as (Hinv2 & Hstep2 & f2 & Hf2 & _).
    apply wp_bind. eapply wp_mono; [by eapply (df_truncate_wp _ L M a rs d f2)| |done].
    intros _ s3 (w3 & -> & Hinv3 & Hstep3). apply wp_throw. split; [done|].
    exists L. split; [done|]. split; [|done]. eapply wstep_trans_l; [exact Hstep2|exact Hstep3].
Qed.

Lemma failed_weaken recs s L M s' : failed [] s L M s' -> failed recs s L M s'.
Proof.
  intros (Hf & L' & Hinv & Hstep & Hvi). split; [done|]. exists L'. split; [done|].
  split; [|done]. eapply wstep_trans_l; [exact Hstep|apply wstep_refl].
Qed.

(** What a successful append of [recs] establishes. *)
Definition wrote recs s L M s' : Prop :=
  exists L' r, last recs = Some r /\
    store_inv s' L' (absorb_all M recs) /\ wstep recs s L s' L' /\ live_inv s' /\
    visible s' = visible (notify (r_seq r) (encode_all recs) s) /\
    (o_SyncMode (st_opts s) = SyncAlways -> st_dirty s' = false) /\
    exists a, st_active s' = Some a /\ L' = <[a := log_of L a ++ recs]> L.

Lemma append_active_wp recs s L M :
  store_inv s L M -> live_inv s -> recs <> [] -> Forall valid_record recs ->
  forall a0, st_active s = Some a0 ->
  wp (append_active (imap (fun i _ => zlen (encode_all (take i recs))) recs) (encode_all recs) recs)
    (fun _ s' => wrote recs s L M s' /\ st_active s' = Some a0) (fun _ s' => failed recs s L M s') s.
Proof.
  intros Hinv Hlive Hne Hv a0 Ha0. unfold append_active.
  pose proof (si_active _ _ _ Hinv) as (a & d & rs & Ha & HL & Hd & Hwr & Hsize).
  pose proof (si_files _ _ _ Hinv _ _ HL) as (_ & _ & d' & f & Hd' & Hid & _).
  rewrite Hd in Hd'. injection Hd' as <-.
  apply wp_bind, (wp_get_active _ _ _ a d Ha Hd). rewrite Hsize. apply wp_bind.
  eapply wp_mono; [by apply (write_buf_wp s L M a rs d)| |by intros; apply failed_weaken].
  intros _ s2 (w2 & f2 & -> & Hinv2 & Hstep2 & Hf2 & Hpre2).
  rewrite <- encode_all_app in Hpre2. fold (log_size recs).
  destruct (extend_inv (set_w w2 s) L M a rs recs d f2) as [Hinv3 Hstep3]; [done..|].
  do 3 apply wp_bind, wp_modify. apply wp_bind, wp_get, wp_bind.
  set (s3 := set_dirty true _) in *. set (L3 := <[a := rs ++ recs]> L) in *.
  set (d3 := df_set_size _ d) in *.
  assert (HL3 : L3 !! a = Some (rs ++ recs)) by apply lookup_insert_eq.
  assert (Hd3 : st_dfs s3 !! a = Some d3)
    by (unfold s3, put_df; simpl; rewrite Hid; apply lookup_insert_eq).
  assert (Hstep13 : wstep recs s L s3 L3) by (eapply wstep_trans_l; [exact Hstep2|done]).
  eapply wp_mono; [apply (sync_always_wp s3 L3 M a (rs ++ recs) d3); done| |].
  2:{ intros e s4 (Hf4 & L4 & Hinv4 & Hstep4 & Hv4 & Hi4). split.
      { intros Hno. by apply Hf4, (ws_faults _ _ _ _ _ Hstep13). }
      exists L4. split; [done|]. split; [by eapply wstep_trans_r|]. rewrite Hv4, Hi4. done. }
  intros _ s4 (w4 & b4 & -> & Hb4 & Hinv4 & Hstep4). apply wp_bind, wp_modify.
  destruct (last recs) as [r|] eqn:Hlast; [|by apply last_None in Hlast].
  apply wp_modify. change (df_id d3) with (df_id d). rewrite Hid.
  destruct (index_notify_inv (set_dirty b4 (set_w w4 s3)) L3 M a rs recs r Hinv4)
    as (Hinv5 & Hlive5 & Hstep5 & Hv5); [done..|].
  rewrite Ha in Ha0. injection Ha0 as <-.
  enough (Hw : wrote recs s L M (notify (r_seq r) (encode_all recs) (index_batch a (log_size rs)
    (imap (fun i _ => zlen (encode_all (take i recs))) recs) recs (set_dirty b4 (set_w w4 s3))))).
  { split; [done|]. destruct (index_batch_frame a (log_size rs)
      (imap (fun i _ => zlen (encode_all (take i recs))) recs) recs (set_dirty b4 (set_w w4 s3)))
      as (? & ? & ? & ->). done. }
  exists L3, r. split; [done|]. split; [exact Hinv5|].
  split; [eapply wstep_trans_r; [eapply wstep_trans_r; [exact Hstep13|exact Hstep4]|exact Hstep5]|].
  split; [exact Hlive5|]. split; [rewrite Hv5; done|].
  destruct (index_batch_frame a (log_size rs) (imap (fun i _ => zlen (encode_all (take i recs))) recs)
    recs (set_dirty b4 (set_w w4 s3))) as (? & ? & ? & ->).
  split; [intros Hm; simpl; by apply Hb4, bool_decide_eq_true|].
  exists a. split; [done|]. unfold L3, log_of. by rewrite HL.
Qed.

(** [writeLocked]: the whole append, or nothing the index can see. *)
Lemma writeLocked_wp recs s L M :
  store_inv s L M -> live_inv s -> st_nextID s + 1 < 2 ^ 32 ->
  recs <> [] -> Forall valid_record recs -> log_size recs < 2 ^ 32 ->
  wp (writeLocked recs) (fun _ s' => wrote recs s L M s') (fun _ s' => failed recs s L M s') s.
Proof.
  intros Hinv Hlive Hnext Hne Hv Hlen. unfold writeLocked.
  rewrite (encode_batch_spec [] [] recs) by done. cbn [app].
  apply wp_bind. eapply wp_mono; [by apply maybeRotate_wp| |by intros; apply failed_weaken].
  intros _ s1 (L1 & Hinv1 & Hstep1 & Hv1 & Hi1 & a1 & Ha1 & HL1).
  assert (Hlive1 : live_inv s1)
    by (unfold indexed in Hi1; unfold live_inv in *; simplify_eq; congruence).
  assert (Hopts : st_opts s1 = st_opts s) by (unfold visible in Hv1; congruence).
  eapply wp_mono; [by apply (append_active_wp recs s1 L1 M Hinv1 Hlive1 Hne Hv a1)| |by intros; eapply failed_after].
  intros _ s2 [(L2 & r & Hr & Hinv2 & Hstep2 & Hlive2 & Hv2 & Hm & a & Ha & HL2) Hact].
  exists L2, r. split; [done|]. split; [done|]. split; [by eapply wstep_trans_l|].
  split; [done|]. rewrite <- Hopts. split; [|split; [done|]].
  - rewrite Hv2. unfold visible, notify in *. simpl in *. congruence.
  - exists a. split; [done|]. rewrite Hact in Ha. injection Ha as <-.
    rewrite HL2, HL1. unfold log_of. by rewrite lookup_insert_eq, insert_insert_eq.
Qed.

(** ** File ids *)

(** A method that allocates no file id. *)
Definition id_neutral {A} (m : sto I A) : Prop := forall s, st_nextID (m s).2 = st_nextID s.

Lemma id_bind {A B} (m : sto I A) (k : A -> sto I B) :
  id_neutral m -> (forall a, id_neutral (k a)) -> id_neutral (sm_bind m k).
Proof.
  intros Hm Hk s. unfold sm_bind. specialize (Hm s).
  destruct (m s) as [[a|e] s']; [by rewrite Hk|done].
Qed.
Lemma id_catch {A} (m : sto I A) h :
  id_neutral m -> (forall e, id_neutral (h e)) -> id_neutral (sm_catch m h).
Proof.
  intros Hm Hk s. unfold sm_catch. specialize (Hm s).
  destruct (m s) as [[a|e] s']; [done|by rewrite Hk].
Qed.
Lemma id_when b m : id_neutral m -> id_neutral (sm_when b m).
Proof. by destruct b. Qed.
Lemma id_ignore {A} (m : sto I A) : id_neutral m -> id_neutral (sm_ignore m).
Proof. intros Hm s. apply Hm. Qed.
Lemma id_io {A} (m : wio A) : id_neutral (io m).
Proof. done. Qed.
Lemma id_get_active : id_neutral (get_active (I := I)).
Proof. apply id_bind; [done|]. intros s. by case_goal. Qed.

Lemma append_active_id offs buf recs : id_neutral (append_active offs buf recs).
Proof.
  unfold append_active. apply id_bind; [apply id_get_active|]. intros d.
  apply id_bind; [apply id_catch; [apply id_io|intros e; apply id_bind; [apply id_ignore, id_io|done]]|].
  intros _. do 3 (apply id_bind; [done|intros _]). apply id_bind; [done|]. intros s0.
  apply id_bind; [apply id_when, id_bind; [apply id_io|done]|]. intros _.
  apply id_bind; [|intros _; by case_goal].
  intros s. unfold sm_modify. cbn [snd].
  destruct (index_batch_frame (df_id (df_set_size (df_size d + zlen buf) d)) (df_size d) offs recs s)
    as (? & ? & ? & ->). done.
Qed.

(** An append allocates at most one file id. *)
Lemma writeLocked_next recs s : 0 <= st_nextID s -> st_nextID s + 1 < 2 ^ 32 ->
  st_nextID s <= st_nextID (writeLocked recs s).2 <= st_nextID s + 1.
Proof.
  intros Hn Hb. set (P s' := st_nextID s <= st_nextID s' <= st_nextID s + 1).
  assert (Hrot : forall n, wp (maybeRotateLocked n) (fun _ => P) (fun _ => P) s).
  { intros n. unfold maybeRotateLocked. apply wp_bind, wp_get, wp_bind.
    pose proof (id_get_active s) as Hga. unfold wp at 1.
    destruct (get_active s) as [[d|e] s1]; simpl in Hga; [|unfold P; lia].
    destruct (_ || _); [apply wp_ret; unfold P; lia|]. apply wp_bind, wp_io. unfold wp at 1.
    destruct (df_sync d (st_w s1)) as [[[]|e] w1]; [|unfold P; simpl; lia].
    apply wp_bind. unfold openNewActive. apply wp_bind, wp_get, wp_bind, wp_io. unfold wp at 1.
    destruct (createDataFile _ _) as [[df|e] w2]; [|unfold P; simpl; lia].
    do 3 apply wp_bind, wp_modify. apply wp_io. simpl. rewrite Hga, u32_small by (unfold is_u32; lia).
    unfold wp at 1. destruct (syncDir _) as [[[]|e] w3]; [|unfold P; simpl; lia].
    apply wp_bind, wp_modify, wp_modify. unfold P. simpl. lia. }
  unfold writeLocked. destruct (encode_batch [] [] recs) as [offs buf].
  specialize (Hrot (zlen buf)). unfold wp in Hrot. unfold sm_bind.
  destruct (maybeRotateLocked (zlen buf) s) as [[[]|e] s1]; [|exact Hrot].
  rewrite (append_active_id offs buf recs s1). exact Hrot.
Qed.
End write_path.
