(* ===== verification/Ops.v ===== *)
(** * The client operations refine a finite map

    [refines s m]: the store [s] stands for the map [m] from keys to values.
    Put, BatchPut, Delete, Get and ApplyRaw are shown to act on the store as
    the obvious operations act on the map, and to fail without effect. *)

From S2P Require Import Prelude Bytes Record Datafile Manifest Index Store StoreInv WritePath.

Local Open Scope Z_scope.
Local Open Scope gokv_scope.

(** ** Sequence numbers *)

(** The record with sequence number [q]. *)
Definition with_seq (q : Z) (r : record) : record :=
  mkRecord (r_ts r) q (r_flags r) (r_key r) (r_value r).

Lemma assign_seqs_spec q recs : 0 <= q -> q + zlen recs < 2 ^ 64 ->
  assign_seqs q recs = (imap (fun i => with_seq (q + 1 + Z.of_nat i)) recs, q + zlen recs).
Proof.
  revert q. induction recs as [|r recs IH]; intros q Hq Hb; simpl.
  - by rewrite zlen_nil, Z.add_0_r.
  - rewrite zlen_cons in Hb. pose proof (zlen_nonneg recs).
    rewrite u64_small by (unfold is_u64; lia). rewrite IH by lia.
    cbn [fst snd]. f_equal; [|rewrite zlen_cons; lia]. f_equal.
    + unfold with_seq. f_equal. lia.
    + apply imap_ext. intros i x _. simpl. f_equal. lia.
Qed.

(** Storing records unconditionally, in order. *)
Definition insert_all (M : newest) (rs : list record) : newest :=
  foldl (fun M r => <[r_key r := r]> M) M rs.

(** Freshly numbered records are newer than all the store knows. *)
Lemma absorb_numbered q recs : forall M,
  0 <= q -> (forall k r, M !! k = Some r -> r_seq r <= q) ->
  let rs := imap (fun i => with_seq (q + 1 + Z.of_nat i)) recs in
  absorb_all M rs = insert_all M rs /\
  (forall k r, insert_all M rs !! k = Some r -> r_seq r <= q + zlen recs).
Proof.
  revert q. induction recs as [|r recs IH]; intros q M Hq Hb; simpl.
  - split; [done|]. intros k r Hr. apply Hb in Hr. rewrite zlen_nil. lia.
  - rewrite absorb_newer.
    2:{ intros old Ho. apply Hb in Ho. simpl. lia. }
    destruct (IH (q + 1) (<[r_key r := with_seq (q + 1 + 0) r]> M)) as [He Hs]; [lia| |].
    { intros k r' Hr'. apply lookup_insert_Some in Hr' as [[_ <-]|[_ Hr']]; simpl; [lia|].
      apply Hb in Hr'. lia. }
    assert (Heq : imap (fun i => with_seq (q + 1 + 1 + Z.of_nat i)) recs =
      imap ((fun i => with_seq (q + 1 + Z.of_nat i)) ∘ S) recs).
    { apply imap_ext. intros i x _. simpl. f_equal. lia. }
    rewrite Heq in He, Hs. simpl. split; [exact He|].
    intros k r' Hr'. apply Hs in Hr'. rewrite zlen_cons. lia.
Qed.

(** ** The client's map *)

Lemma kv_insert M k r : kv (<[k := r]> M) =
  match live_value r with Some v => <[k := v]> (kv M) | None => delete k (kv M) end.
Proof. unfold kv. rewrite omap_insert. by destruct (live_value r). Qed.

Lemma kv_lookup M k : kv M !! k = (r ← M !! k; live_value r).
Proof. apply lookup_omap. Qed.

Section ops.
Context {I : Type} `{KeyIndexSpec I}.
Implicit Types (s : store I) (L : logs) (M : newest) (m : gmap bytes bytes).

(** The store's state as a whole. *)
Record store_ok s L M : Prop := {
  ok_inv : store_inv s L M;
  ok_live : live_inv s;
  ok_seq : seq_inv s M;
  ok_total : total_inv s
}.

Definition refines s m : Prop := exists L M, store_ok s L M /\ kv M = m.

(** Room for [n] more records and one more file before a counter wraps. *)
Definition room s (n : Z) : Prop := st_seq s + n < 2 ^ 64 /\ st_nextID s + 1 < 2 ^ 32.

(** Records as [appendLocked]'s callers build them: valid but for the number. *)
Definition valid_unnumbered (r : record) : Prop :=
  is_i64 (r_ts r) /\ 0 < zlen (r_key r) <= MaxKeySize /\ zlen (r_value r) <= MaxValueSize.

Lemma numbered_valid q recs : 0 <= q -> q + zlen recs < 2 ^ 64 ->
  Forall valid_unnumbered recs ->
  Forall valid_record (imap (fun i => with_seq (q + 1 + Z.of_nat i)) recs).
Proof.
  intros Hq Hb Hv. apply Forall_lookup. intros i r' Hr'. rewrite list_lookup_imap in Hr'.
  destruct (recs !! i) as [r|] eqn:E; [|done]. simpl in Hr'. injection Hr' as <-.
  apply lookup_lt_Some in E as Hi. rewrite Forall_lookup in Hv.
  destruct (Hv _ _ E) as (? & ? & ?). split; [done|]. split; [|done].
  unfold is_u64. simpl. unfold zlen in Hb. lia.
Qed.

Lemma numbered_size q recs :
  log_size (imap (fun i => with_seq (q + 1 + Z.of_nat i)) recs) = log_size recs.
Proof.
  revert q. induction recs as [|r recs IH]; intros q; [done|].
  cbn [imap]. unfold log_size in *. rewrite !zlen_encode_all_cons, !zlen_encode. simpl. f_equal.
  rewrite <- (IH (q + 1)). do 2 f_equal. apply imap_ext. intros i x _. simpl. f_equal. lia.
Qed.

Lemma set_seq_inv q s L M : store_inv s L M -> store_inv (set_seq q s) L M.
Proof. intros []. by split. Qed.

(** [appendLocked]: the records, freshly numbered, are stored in order. *)
Lemma appendLocked_wp recs s L M :
  store_ok s L M -> room s (zlen recs) -> recs <> [] -> Forall valid_unnumbered recs ->
  log_size recs < 2 ^ 32 ->
  let rs := imap (fun i => with_seq (st_seq s + 1 + Z.of_nat i)) recs in
  let s0 := set_seq (st_seq s + zlen recs) s in
  wp (appendLocked recs)
    (fun _ s' => wrote rs s0 L M s' /\ exists L' a, store_ok s' L' (insert_all M rs) /\
       st_active s' = Some a /\ L' = <[a := log_of L a ++ rs]> L)
    (fun _ s' => failed rs s0 L M s' /\ exists L', store_ok s' L' M) s.
Proof.
  intros [Hinv Hlive [Hseq Hb] Htot] [Hr1 Hr2] Hne Hv Hlen rs s0.
  pose proof (zlen_nonneg recs). unfold is_u64 in Hseq.
  unfold appendLocked. apply wp_bind, wp_get, wp_bind, wp_modify.
  rewrite assign_seqs_spec by lia. cbn [fst snd]. fold s0 rs.
  destruct (absorb_numbered (st_seq s) recs M) as [Habs Hb']; [lia|done|]. fold rs in Habs, Hb'.
  eapply wp_mono; [apply (writeLocked_wp rs s0 L M)| |].
  - by apply set_seq_inv.
  - done.
  - done.
  - intros Hnil. apply Hne. unfold rs in Hnil. by destruct recs.
  - apply numbered_valid; [lia|done..].
  - unfold rs. by rewrite numbered_size.
  - intros [] s' Hw. split; [done|].
    pose proof Hw as (L' & r & _ & Hinv' & Hstep & Hlive' & Hv' & _ & a & Ha & HL'). exists L', a.
    split; [|done].
    rewrite Habs in Hinv'. split; [done..| |by apply (ws_total _ _ _ _ _ Hstep)].
    assert (Hs' : st_seq s' = st_seq s + zlen recs)
      by (unfold visible, notify in Hv'; simpl in Hv'; congruence).
    split; rewrite Hs'; [unfold is_u64; lia|done].
  - intros e s' Hf. split; [done|]. pose proof Hf as (_ & L' & Hinv' & Hstep & Hv' & Hi').
    exists L'. unfold indexed in Hi'. simpl in Hi'.
    split; [done| | |by apply (ws_total _ _ _ _ _ Hstep)].
    + unfold live_inv in *. simplify_eq. simpl in *. congruence.
    + assert (Hs' : st_seq s' = st_seq s + zlen recs)
        by (unfold visible in Hv'; simpl in Hv'; congruence).
      split; rewrite Hs'; [unfold is_u64; lia|]. intros k r Hk. apply Hb in Hk. lia.
Qed.

(** ** Storing records in the client's map *)

Definition put_pair m (p : bytes * bytes) : gmap bytes bytes := <[p.1 := p.2]> m.

Lemma kv_insert_all rs M : Forall (fun r => tombstone r = false) rs ->
  kv (insert_all M rs) = foldl put_pair (kv M) ((fun r => (r_key r, r_value r)) <$> rs).
Proof.
  intros Hrs. revert M. induction Hrs as [|r rs Hr Hrs IH]; intros M; simpl; [done|].
  rewrite IH, kv_insert. unfold live_value. by rewrite Hr.
Qed.

Lemma numbered_pairs q recs :
  (fun r => (r_key r, r_value r)) <$> imap (fun i => with_seq (q + 1 + Z.of_nat i)) recs =
  (fun r => (r_key r, r_value r)) <$> recs.
Proof.
  rewrite fmap_imap, <- (imap_const (fun r => (r_key r, r_value r))). by apply imap_ext.
Qed.

Lemma numbered_tombstone q recs : Forall (fun r => tombstone r = false) recs ->
  Forall (fun r => tombstone r = false) (imap (fun i => with_seq (q + 1 + Z.of_nat i)) recs).
Proof.
  rewrite !Forall_lookup. intros Ht i r. rewrite list_lookup_imap.
  destruct (recs !! i) as [r0|] eqn:E; [|done]. simpl. intros [= <-]. exact (Ht i r0 E).
Qed.

Lemma validateKey_ok k : validateKey k = None -> 0 < zlen k <= MaxKeySize.
Proof.
  unfold validateKey. pose proof (zlen_nonneg k).
  destruct (Z.eqb_spec (zlen k) 0); [done|]. destruct (Z.ltb_spec MaxKeySize (zlen k)); [done|].
  intros _. lia.
Qed.

Lemma count_ok f s L M : store_ok s L M -> store_ok (set_cnt f s) L M.
Proof. intros [[] ? ? ?]. by split. Qed.

(** What an operation that failed half way through leaves: a fault was met,
    the map is as it was and nothing was counted. *)
Definition unchanged s m s' : Prop :=
  w_faults (st_w s) <> [] /\ refines s' m /\ st_cnt s' = st_cnt s /\ st_closed s' = st_closed s.

(** How far a write moves the bounds on room and faults. *)
Definition spends (n : Z) s s' : Prop :=
  st_seq s' = st_seq s + n /\ st_closed s' = st_closed s /\
  0 <= st_nextID s' <= st_nextID s + 1 /\
  (w_faults (st_w s) = [] -> w_faults (st_w s') = []).

(** Appending and counting, as the three writers do. *)
Lemma append_count_wp recs f s L M :
  store_ok s L M -> room s (zlen recs) -> recs <> [] -> Forall valid_unnumbered recs ->
  log_size recs < 2 ^ 32 ->
  wp (appendLocked recs;;; count f)
    (fun _ s' => refines s' (kv (insert_all M
         (imap (fun i => with_seq (st_seq s + 1 + Z.of_nat i)) recs))) /\
       st_cnt s' = f (st_cnt s) /\ spends (zlen recs) s s')
    (fun _ s' => unchanged s (kv M) s') s.
Proof.
  intros Hok Hroom Hne Hv Hlen. apply wp_bind.
  pose proof (appendLocked_wp recs s L M Hok Hroom Hne Hv Hlen) as Hwp.
  assert (Hid : 0 <= st_nextID (appendLocked recs s).2 <= st_nextID s + 1).
  { destruct (si_fresh _ _ _ (ok_inv _ _ _ Hok)) as [Hu _]. unfold is_u32 in Hu.
    unfold appendLocked. rewrite sm_bind_get.
    pose proof (writeLocked_next (assign_seqs (st_seq s) recs).1
      (set_seq (assign_seqs (st_seq s) recs).2 s) (proj1 Hu) (proj2 Hroom)) as Hn. simpl in Hn.
    unfold sm_bind, sm_modify. simpl. lia. }
  unfold wp in Hwp |- *. destruct (appendLocked recs s) as [[[]|e] s'].
  - destruct Hwp as [(L' & r & _ & _ & Hst & _ & Hv' & _) (L'' & a & Hok' & _)].
    unfold visible, notify in Hv'. simpl in Hv'. injection Hv' as _ Hs _ _ _ Hc _ _ Hcl.
    simpl. rewrite Hc. split; [|split; [done|]].
    + eexists _, _. split; [by apply count_ok|done].
    + split; [done|]. split; [done|]. split; [done|]. apply (ws_faults _ _ _ _ _ Hst).
  - destruct Hwp as [(Hf & L' & _ & _ & Hv' & _) [L'' Hok']].
    unfold visible in Hv'. simpl in Hv'. injection Hv' as _ _ _ _ _ Hc _ _ Hcl.
    split; [done|]. split; [|done]. by eexists _, _.
Qed.

Lemma wp_throw_if e Q X s :
  (e = None -> Q tt s) -> (forall x, e = Some x -> X x s) -> wp (throw_if (I := I) e) Q X s.
Proof. intros Hn Hs. destruct e; [by apply wp_throw, Hs|by apply wp_ret, Hn]. Qed.

Lemma wp_check_open Q X s : st_closed s = false -> Q tt s -> wp (check_open (I := I)) Q X s.
Proof. intros Hc HQ. apply wp_bind, wp_get. by rewrite Hc. Qed.

(** The argument errors of Put. *)
Definition put_error (k v : bytes) : option error :=
  match validateKey k with
  | Some e => Some e
  | None => if MaxValueSize <? zlen v then Some ErrValueTooLong else None
  end.

Lemma Put_wp s L M now k v :
  store_ok s L M -> st_closed s = false -> room s 1 -> is_i64 now -> put_error k v = None ->
  wp (Put now k v)
    (fun _ s' => refines s' (<[k := v]> (kv M)) /\ st_cnt s' = add_put 1 (st_cnt s) /\ spends 1 s s')
    (fun _ s' => unchanged s (kv M) s') s.
Proof.
  intros Hok Hc Hroom Hnow He. unfold put_error in He. unfold Put.
  destruct (validateKey k) as [e|] eqn:Ek; [done|]. apply validateKey_ok in Ek.
  destruct (Z.ltb_spec MaxValueSize (zlen v)) as [|Hlen]; [done|].
  do 2 (apply wp_bind, wp_throw_if; [intros _|done]). apply wp_bind, wp_check_open; [done|].
  eapply wp_mono; [apply (append_count_wp [mkRecord now 0 x00 k v] _ s L M)| |done].
  - done.
  - done.
  - done.
  - by apply Forall_singleton.
  - unfold log_size. rewrite zlen_encode_all_cons, zlen_encode_all_nil, zlen_encode. simpl.
    destruct max_sizes as [E1 E2]. lia.
  - intros [] s' (Href & Hcnt & Hsp). simpl in Href. by rewrite kv_insert in Href.
Qed.

Lemma Put_bad s now k v e : put_error k v = Some e -> Put now k v s = (Err e, s).
Proof.
  unfold put_error, Put, sm_bind, throw_if. destruct (validateKey k); [by intros [= <-]|].
  destruct (_ <? _); [by intros [= <-]|done].
Qed.

(** C15: [Put] acts as insertion into the client's map.  A bad argument is
    reported and changes nothing; otherwise the pair is stored, the put counted
    and one sequence number used, or a system call failed and the map and the
    counters are as before. *)
Theorem Put_refines s m now k v :
  refines s m -> st_closed s = false -> room s 1 -> is_i64 now ->
  match put_error k v, Put now k v s with
  | Some e, out => out = (Err e, s)
  | None, (Ok _, s') => refines s' (<[k := v]> m) /\ st_cnt s' = add_put 1 (st_cnt s) /\
                        st_seq s' = st_seq s + 1 /\ st_closed s' = false
  | None, (Err _, s') => unchanged s m s'
  end.
Proof.
  intros (L & M & Hok & <-) Hc Hroom Hnow. destruct (put_error k v) as [e|] eqn:E.
  { by apply Put_bad. }
  pose proof (Put_wp s L M now k v Hok Hc Hroom Hnow E) as Hwp. unfold wp in Hwp.
  destruct (Put now k v s) as [[[]|e] s']; [|done].
  destruct Hwp as (Href & Hcnt & Hs & Hcl & _). split; [done|]. split; [done|]. split; [done|congruence].
Qed.

(** ** Batches *)

Lemma batch_records_ok now ks vs :
  length ks = length vs -> is_i64 now -> batch_error ks vs = None ->
  Forall valid_unnumbered (batch_records now ks vs) /\
  Forall (fun r => tombstone r = false) (batch_records now ks vs) /\
  (fun r => (r_key r, r_value r)) <$> batch_records now ks vs = zip ks vs /\
  length (batch_records now ks vs) = length ks.
Proof.
  revert vs. induction ks as [|k ks IH]; intros [|v vs] Hl Hnow He; simpl in *; try done.
  destruct (validateKey k) eqn:Ek; [done|]. apply validateKey_ok in Ek.
  destruct (Z.ltb_spec MaxValueSize (zlen v)); [done|].
  destruct (IH vs) as (Hv & Ht & Hz & Hn); [lia|done..|].
  split; [by constructor|]. split; [|split; [f_equal; exact Hz|lia]].
  constructor; [|done]. by destruct ks.
Qed.

Lemma BatchPut_wp s L M now ks vs :
  store_ok s L M -> st_closed s = false -> room s (zlen ks) -> is_i64 now ->
  log_size (batch_records now ks vs) < 2 ^ 32 ->
  length ks = length vs -> batch_error ks vs = None -> ks <> [] ->
  wp (BatchPut now ks vs)
    (fun _ s' => refines s' (foldl put_pair (kv M) (zip ks vs)) /\
       st_cnt s' = add_put (zlen ks) (st_cnt s) /\ spends (zlen ks) s s')
    (fun _ s' => unchanged s (kv M) s') s.
Proof.
  intros Hok Hc Hroom Hnow Hlen Hl He Hne. unfold BatchPut.
  assert (Hz : zlen ks = zlen vs) by (unfold zlen; by rewrite Hl).
  destruct (Z.eqb_spec (zlen ks) (zlen vs)); [|done]. cbn [negb].
  destruct (Z.eqb_spec (zlen ks) 0) as [H0'|_]; [by apply zlen_0_inv in H0'|].
  apply wp_bind, wp_throw_if; [intros _|by rewrite He].
  destruct (batch_records_ok now ks vs Hl Hnow He) as (Hv & Ht & Hzip & Hn).
  apply wp_bind, wp_check_open; [done|].
  assert (Hzn : zlen (batch_records now ks vs) = zlen ks) by (unfold zlen; by rewrite Hn).
  eapply wp_mono; [apply (append_count_wp (batch_records now ks vs) _ s L M); try done| |done].
  - by rewrite Hzn.
  - intros Hnil. rewrite Hnil in Hn. by destruct ks.
  - intros [] s' (Href & Hcnt & Hsp).
    rewrite kv_insert_all, numbered_pairs, Hzip in Href by (by apply numbered_tombstone).
    rewrite Hzn in Hsp. done.
Qed.

(** The errors and the empty batch. *)
Lemma BatchPut_other s now ks vs :
  length ks <> length vs \/ ks = [] \/ batch_error ks vs <> None ->
  BatchPut now ks vs s =
    (if negb (zlen ks =? zlen vs) then Err ErrBatchLen
     else if zlen ks =? 0 then Ok tt
     else match batch_error ks vs with Some e => Err e | None => Ok tt end, s).
Proof.
  intros Hcase. unfold BatchPut. destruct (Z.eqb_spec (zlen ks) (zlen vs)) as [Hl|Hl]; [|done].
  destruct (Z.eqb_spec (zlen ks) 0) as [Hz|Hz]; [done|]. cbn [negb].
  destruct Hcase as [Hc|[->|Hc]]; [|done|].
  - exfalso. apply Hc. unfold zlen in Hl. lia.
  - by destruct (batch_error ks vs).
Qed.

(** C16: [BatchPut] acts as inserting the pairs in order, all of them or none.
    Argument errors change nothing; a batch whose encoding exceeds the 32-bit
    offsets of the engine is outside the statement. *)
Theorem BatchPut_refines s m now ks vs :
  refines s m -> st_closed s = false -> room s (zlen ks) -> is_i64 now ->
  log_size (batch_records now ks vs) < 2 ^ 32 ->
  match BatchPut now ks vs s with
  | (Ok _, s') => length ks = length vs /\ batch_error ks vs = None /\
      refines s' (foldl put_pair m (zip ks vs)) /\ st_closed s' = false /\
      nPut (st_cnt s') = (if zlen ks =? 0 then nPut (st_cnt s) else u64 (nPut (st_cnt s) + zlen ks))
  | (Err e, s') =>
      s' = s /\ (length ks <> length vs /\ e = ErrBatchLen \/ batch_error ks vs = Some e) \/
      unchanged s m s'
  end.
Proof.
  intros (L & M & Hok & <-) Hc Hroom Hnow Hlen.
  destruct (decide (length ks = length vs)) as [Hl|Hl].
  2:{ rewrite BatchPut_other by auto. assert (Hz : zlen ks <> zlen vs) by (unfold zlen; lia).
      apply Z.eqb_neq in Hz. rewrite Hz. left. auto. }
  assert (Hz : zlen ks = zlen vs) by (unfold zlen; by rewrite Hl).
  destruct (decide (ks = [])) as [->|Hne].
  { destruct vs; [|done]. rewrite BatchPut_other by auto.
    split; [done|]. split; [done|]. split; [by exists L, M|done]. }
  assert (Hnz : zlen ks <> 0) by (intros ?%zlen_0_inv; done).
  destruct (batch_error ks vs) as [e|] eqn:He.
  { rewrite BatchPut_other by (rewrite He; auto). rewrite Hz, Z.eqb_refl, <- Hz, He.
    apply Z.eqb_neq in Hnz. rewrite Hnz. simpl. auto. }
  pose proof (BatchPut_wp s L M now ks vs Hok Hc Hroom Hnow Hlen Hl He Hne) as Hwp. unfold wp in Hwp.
  destruct (BatchPut now ks vs s) as [[[]|e] s']; [|by right].
  destruct Hwp as (Href & Hcnt & _ & Hcl & _). apply Z.eqb_neq in Hnz. rewrite Hnz, Hcnt.
  split; [done|]. split; [done|]. split; [done|]. split; [congruence|done].
Qed.

(** ** Deletion *)

Lemma idx_get_kv s L M k : store_ok s L M ->
  match idx_get k (st_idx s) with
  | Some e => exists r, M !! k = Some r /\ locates L k e r /\
                kv M !! k = if e_tomb e then None else Some (r_value r)
  | None => kv M !! k = None
  end.
Proof.
  intros [[[Hwf Hview] _ _ _ _] _ _ _]. rewrite (idx_get_ok _ k Hwf). specialize (Hview k).
  rewrite kv_lookup. destruct (idx_view (st_idx s) !! k), (M !! k) as [r|]; try done.
  exists r. split; [done|]. split; [done|]. destruct Hview as (_ & _ & Ht & _). simpl.
  unfold live_value. by rewrite Ht.
Qed.

Lemma Delete_wp s L M now k v :
  store_ok s L M -> st_closed s = false -> room s 1 -> is_i64 now ->
  validateKey k = None -> kv M !! k = Some v ->
  wp (Delete now k)
    (fun _ s' => refines s' (delete k (kv M)) /\ st_cnt s' = add_del (st_cnt s) /\ spends 1 s s')
    (fun _ s' => unchanged s (kv M) s') s.
Proof.
  intros Hok Hc Hroom Hnow Ek Hkv. unfold Delete. rewrite Ek. apply validateKey_ok in Ek.
  apply wp_bind, wp_throw_if; [intros _|done]. apply wp_bind, wp_get.
  pose proof (idx_get_kv s L M k Hok) as Hk.
  destruct (idx_get k (st_idx s)) as [e|]; [destruct Hk as (r & Hr & Hloc & Hk)|congruence].
  destruct (e_tomb e); [congruence|]. cbn [negb].
  apply wp_bind, wp_check_open; [done|].
  eapply wp_mono;
    [apply (append_count_wp [mkRecord now 0 (Z_byte flagTombstone) k []] _ s L M)| |done].
  - done.
  - done.
  - done.
  - apply Forall_singleton. done.
  - unfold log_size. rewrite zlen_encode_all_cons, zlen_encode_all_nil, zlen_encode. simpl.
    destruct max_sizes as [E1 E2]. rewrite zlen_nil. lia.
  - intros [] s' (Href & Hcnt & Hsp). simpl in Href. by rewrite kv_insert in Href.
Qed.

Lemma Delete_other s L M now k :
  store_ok s L M -> validateKey k <> None \/ kv M !! k = None ->
  Delete now k s = (Err (default ErrKeyNotFound (validateKey k)), s).
Proof.
  intros Hok Hcase. unfold Delete. destruct (validateKey k) as [e|]; [done|].
  destruct Hcase as [?|Hn]; [done|]. cbn [throw_if]. rewrite sm_bind_ret, sm_bind_get.
  pose proof (idx_get_kv s L M k Hok) as Hk.
  destruct (idx_get k (st_idx s)) as [e|]; [destruct Hk as (r & Hr & Hloc & Hk)|done].
  destruct (e_tomb e); [done|congruence].
Qed.

(** C17: [Delete] acts as deletion from the client's map: a bad key or a key
    that is not there is reported without effect; otherwise the key is gone,
    or a system call failed and the map is as before. *)
Theorem Delete_refines s m now k :
  refines s m -> st_closed s = false -> room s 1 -> is_i64 now ->
  match validateKey k, m !! k, Delete now k s with
  | Some e, _, out => out = (Err e, s)
  | None, None, out => out = (Err ErrKeyNotFound, s)
  | None, Some _, (Ok _, s') => refines s' (delete k m) /\ st_cnt s' = add_del (st_cnt s) /\
                                st_seq s' = st_seq s + 1 /\ st_closed s' = false
  | None, Some _, (Err _, s') => unchanged s m s'
  end.
Proof.
  intros (L & M & Hok & <-) Hc Hroom Hnow.
  destruct (validateKey k) as [e|] eqn:Ek.
  { rewrite (Delete_other s L M) by (done || left; congruence). by rewrite Ek. }
  destruct (kv M !! k) as [v|] eqn:Ev.
  2:{ rewrite (Delete_other s L M) by auto. by rewrite Ek. }
  pose proof (Delete_wp s L M now k v Hok Hc Hroom Hnow Ek Ev) as Hwp. unfold wp in Hwp.
  destruct (Delete now k s) as [[[]|e] s']; [|done].
  destruct Hwp as (Href & Hcnt & Hs & Hcl & _). split; [done|]. split; [done|]. split; [done|congruence].
Qed.

(** ** Records from another node *)

Lemma lor_shiftl_add x y n : 0 <= n -> 0 <= x < 2 ^ n ->
  Z.lor x (Z.shiftl y n) = x + y * 2 ^ n.
Proof.
  intros Hn Hx. rewrite <- Z.shiftl_mul_pow2 by lia.
  assert (Hland : Z.land x (Z.shiftl y n) = 0).
  { apply Z.bits_inj'. intros i Hi. rewrite Z.land_spec, Z.bits_0.
    destruct (Z.ltb_spec i n).
    - rewrite Z.shiftl_spec_low by lia. by rewrite andb_false_r.
    - rewrite <- (Z.mod_small x (2 ^ n)), Z.mod_pow2_bits_high by lia. done. }
  rewrite Z.add_nocarry_lxor by done. by rewrite Z.lxor_lor.
Qed.

Lemma decode_err (buf : bytes) e :
  (recordHeaderSize <= length buf)%nat -> decodeRecord buf = Err e -> e = ErrCorrupt.
Proof.
  intros Hl. unfold decodeRecord.
  destruct (Nat.ltb_spec (length buf) recordHeaderSize); [lia|].
  repeat (destruct (negb _); [congruence|]). done.
Qed.

Lemma le32_get (b : bytes) : (4 <= length b)%nat -> le32 b = le_get (take 4 b).
Proof.
  destruct b as [|b0 [|b1 [|b2 [|b3 b]]]]; cbn [length]; try lia. intros _. unfold le32.
  change (take 4 (b0 :: b1 :: b2 :: b3 :: b)) with [b0; b1; b2; b3]. cbn [nth].
  unfold le_get.
  assert (Hb : forall b, 0 <= byte_Z b < 2 ^ 8) by apply byte_Z_range.
  pose proof (Hb b0). pose proof (Hb b1). pose proof (Hb b2). pose proof (Hb b3). clear Hb.
  set (a := byte_Z b0) in *. set (c := byte_Z b1) in *.
  set (d := byte_Z b2) in *. set (e := byte_Z b3) in *. clearbody a c d e.
  rewrite (lor_shiftl_add a c 8), (lor_shiftl_add _ d 16), (lor_shiftl_add _ e 24) by lia. lia.
Qed.

(** One round of [parse_raw] is one step of a log scan, except that what the
    scan takes for the end of the log is an error here. *)
Lemma parse_raw_step fuel rest recs max :
  parse_raw (S fuel) rest recs max =
  if zlen rest =? 0 then Ok (recs, max) else
  match scan_next rest with
  | Some (_, rec, rest') =>
      parse_raw fuel rest' (recs ++ [rec]) (if max <? r_seq rec then r_seq rec else max)
  | None => Err (ErrRecord ErrCorrupt)
  end.
Proof.
  cbn [parse_raw]. destruct (zlen rest =? 0); [done|]. unfold scan_next.
  replace (zlen rest <? Z.of_nat recordHeaderSize) with (length rest <? recordHeaderSize)%nat.
  2:{ unfold zlen. destruct (Nat.ltb_spec (length rest) recordHeaderSize),
        (Z.ltb_spec (Z.of_nat (length rest)) (Z.of_nat recordHeaderSize)); lia. }
  destruct (Nat.ltb_spec (length rest) recordHeaderSize) as [|Hl]; [done|].
  unfold recordHeaderSize in *. rewrite !le32_get by (rewrite length_drop; lia).
  change (take 4 (drop 21 rest)) with (slice 21 25 rest).
  change (take 4 (drop 25 rest)) with (slice 25 29 rest).
  rewrite !slice_take by lia. destruct (_ || _); [done|].
  pose proof (le_get_range (slice 21 25 rest)). pose proof (le_get_range (slice 25 29 rest)).
  destruct (Z.ltb_spec (zlen rest) (Z.of_nat 29 + le_get (slice 21 25 rest) +
    le_get (slice 25 29 rest))) as [|Hsz]; [done|].
  set (size := Z.of_nat 29 + _ + _) in *.
  rewrite <- (take_slice 29 (Z.to_nat size)) by lia.
  destruct (decodeRecord (take (Z.to_nat size) rest)) eqn:E; [done|].
  apply decode_err in E as ->; [done|]. unfold zlen, recordHeaderSize in *.
  rewrite length_take. lia.
Qed.

Lemma zlen_encode_pos r : 0 < zlen (encode r).
Proof.
  rewrite zlen_encode. pose proof (zlen_nonneg (r_key r)). pose proof (zlen_nonneg (r_value r)). lia.
Qed.

Lemma parse_raw_err fuel rest recs mx e :
  parse_raw fuel rest recs mx = Err e -> e = ErrRecord ErrCorrupt.
Proof.
  revert rest recs mx. induction fuel as [|fuel IH]; intros rest recs mx; [done|].
  rewrite parse_raw_step. destruct (zlen rest =? 0); [done|].
  destruct (scan_next rest) as [[[raw r] rest']|]; [apply IH|congruence].
Qed.

Definition max_seq (q : Z) (rs : list record) : Z :=
  foldl (fun q r => if q <? r_seq r then r_seq r else q) q rs.

Lemma max_seq_app q rs rs' : max_seq q (rs ++ rs') = max_seq (max_seq q rs) rs'.
Proof. apply foldl_app. Qed.

Lemma max_seq_max rs : forall q, 0 <= q -> max_seq q rs = Z.max q (max_seq 0 rs).
Proof.
  assert (Hmono : forall l a b, a <= b -> max_seq b l = Z.max b (max_seq a l)).
  { induction l as [|r l IH]; intros a b Hab; simpl; [lia|].
    destruct (Z.ltb_spec a (r_seq r)), (Z.ltb_spec b (r_seq r)); try lia.
    - pose proof (IH (r_seq r) (r_seq r) ltac:(lia)). lia.
    - by rewrite (IH (r_seq r) b).
    - by rewrite (IH a b). }
  intros q Hq. by apply Hmono.
Qed.

(** [ApplyRaw] accepts exactly the concatenations of valid encoded records. *)
Lemma parse_raw_encode rs fuel recs max : Forall valid_record rs ->
  (length (encode_all rs) <= fuel)%nat ->
  parse_raw fuel (encode_all rs) recs max = Ok (recs ++ rs, max_seq max rs).
Proof.
  intros Hrs. revert fuel recs max. induction Hrs as [|r rs Hr Hrs IH]; intros fuel recs max Hf.
  - rewrite app_nil_r. by destruct fuel.
  - rewrite encode_all_cons in *. pose proof (zlen_encode_pos r) as Hpos. unfold zlen in Hpos.
    rewrite length_app in Hf. destruct fuel as [|fuel]; [lia|].
    rewrite parse_raw_step, scan_next_encode by done.
    destruct (Z.eqb_spec (zlen (encode r ++ encode_all rs)) 0) as [Hz|_].
    { rewrite zlen_app in Hz. pose proof (zlen_nonneg (encode_all rs)). unfold zlen in *. lia. }
    rewrite IH by lia. by rewrite <- app_assoc.
Qed.

Lemma encode_all_inj rs rs' : Forall valid_record rs -> Forall valid_record rs' ->
  encode_all rs = encode_all rs' -> rs = rs'.
Proof.
  intros H1 H2 E. pose proof (parse_raw_encode rs _ [] 0 H1 (Nat.le_refl _)) as P1.
  pose proof (parse_raw_encode rs' _ [] 0 H2 (Nat.le_refl _)) as P2.
  rewrite E in P1. rewrite P1 in P2. by injection P2.
Qed.

Lemma parse_raw_inv fuel : forall rest recs max recs' max',
  (length rest <= fuel)%nat -> parse_raw fuel rest recs max = Ok (recs', max') ->
  exists rs, recs' = recs ++ rs /\ rest = encode_all rs /\ Forall valid_record rs /\
    max' = max_seq max rs.
Proof.
  induction fuel as [|fuel IH]; intros rest recs max recs' max' Hf Hp.
  - destruct rest; [|simpl in Hf; lia]. injection Hp as <- <-. exists [].
    by rewrite app_nil_r.
  - rewrite parse_raw_step in Hp. destruct (Z.eqb_spec (zlen rest) 0) as [Hz|_].
    { injection Hp as <- <-. exists []. apply zlen_0_inv in Hz as ->. by rewrite app_nil_r. }
    destruct (scan_next rest) as [[[raw r] rest']|] eqn:E; [|done].
    apply scan_next_inv in E as (-> & -> & Hr).
    pose proof (zlen_encode_pos r) as Hpos. unfold zlen in Hpos. rewrite length_app in Hf.
    apply IH in Hp as (rs & -> & -> & Hrs & ->); [|lia].
    exists (r :: rs). rewrite <- app_assoc. split; [done|].
    split; [done|]. split; [by constructor|done].
Qed.

Lemma max_seq_ge rs : forall q, q <= max_seq q rs /\ forall r, r ∈ rs -> r_seq r <= max_seq q rs.
Proof.
  induction rs as [|r rs IH]; intros q; simpl.
  - split; [done|]. by intros ? ?%not_elem_of_nil.
  - destruct (IH (if q <? r_seq r then r_seq r else q)) as [Hq Hr].
    assert (r_seq r <= max_seq (if q <? r_seq r then r_seq r else q) rs /\
      q <= max_seq (if q <? r_seq r then r_seq r else q) rs)
      by (destruct (Z.ltb_spec q (r_seq r)); lia).
    split; [tauto|]. intros r' [->|Hr']%elem_of_cons; [tauto|by apply Hr].
Qed.

Lemma max_seq_range rs q : Forall valid_record rs -> is_u64 q -> is_u64 (max_seq q rs).
Proof.
  intros Hv. revert q. induction Hv as [|r rs Hr Hv IH]; intros q Hq; simpl; [done|].
  apply IH. destruct (q <? r_seq r); [apply Hr|done].
Qed.

Definition not_records (raw : bytes) : Prop :=
  forall rs, Forall valid_record rs -> raw <> encode_all rs.

(** What a write that numbers nothing keeps. *)
Definition kept_room s s' : Prop :=
  st_closed s' = st_closed s /\ st_mergeSeq s' = st_mergeSeq s /\
  st_nextID s' <= st_nextID s + 1 /\ (w_faults (st_w s) = [] -> w_faults (st_w s') = []).

(** [ApplyRaw] on a stream of records. *)
Lemma ApplyRaw_wp rs s L M :
  store_ok s L M -> st_closed s = false -> st_nextID s + 1 < 2 ^ 32 ->
  Forall valid_record rs -> log_size rs < 2 ^ 32 ->
  wp (ApplyRaw (encode_all rs))
    (fun q s' => q = max_seq 0 rs /\ st_seq s' = Z.max (st_seq s) q /\ kept_room s s' /\
       exists L', store_ok s' L' (absorb_all M rs))
    (fun _ s' => w_faults (st_w s) <> [] /\ exists L', store_ok s' L' M) s.
Proof.
  intros Hok Hc Hnext Hv Hlen. unfold ApplyRaw.
  rewrite (parse_raw_encode rs _ [] 0) by done. cbn [app].
  pose proof (max_seq_ge rs 0) as [Hmax0 Hmax].
  pose proof (max_seq_range rs 0 Hv ltac:(unfold is_u64; lia)) as Hmaxr.
  pose proof Hok as [Hinv Hlive [Hseq Hb] Htot].
  destruct rs as [|r rs'].
  { apply wp_ret. unfold is_u64 in Hseq. split; [done|]. split.
    - change (max_seq 0 []) with 0. lia.
    - unfold kept_room. split; [|by exists L]. do 2 (split; [done|]). split; [lia|done]. }
  set (rs := r :: rs') in *. apply wp_bind, wp_check_open; [done|]. apply wp_bind.
  assert (Hn : st_nextID (writeLocked rs s).2 <= st_nextID s + 1).
  { destruct (si_fresh _ _ _ Hinv) as [Hu _]. unfold is_u32 in Hu. apply writeLocked_next; lia. }
  eapply wp_mono; [apply wp_result, (writeLocked_wp rs s L M); done| |].
  - intros [] s' [(L' & r0 & _ & Hinv' & Hstep & Hlive' & Hv' & _) Hr].
    rewrite Hr in Hn. cbn [snd] in Hn.
    assert (Hs' : st_seq s' = st_seq s /\ st_closed s' = st_closed s /\ st_mergeSeq s' = st_mergeSeq s)
      by (unfold visible, notify in Hv'; simpl in Hv'; split; [|split]; congruence).
    destruct Hs' as (Hs' & Hcl & Hms).
    apply wp_bind, wp_modify, wp_ret. split; [done|].
    assert (Hset : (if st_seq s' <? max_seq 0 rs then set_seq (max_seq 0 rs) s' else s') =
      set_seq (Z.max (st_seq s) (max_seq 0 rs)) s').
    { rewrite Hs'. destruct (Z.ltb_spec (st_seq s) (max_seq 0 rs)).
      - by rewrite Z.max_r by lia.
      - rewrite Z.max_l, <- Hs' by lia. by destruct s'. }
    rewrite Hset. split; [done|]. split; [by repeat split; try done; apply (ws_faults _ _ _ _ _ Hstep)|].
    exists L'. split.
    + by apply set_seq_inv.
    + done.
    + split; cbn [st_seq set_seq]; [unfold is_u64 in *; lia|]. intros k r1 Hr1.
      apply absorb_all_elem in Hr1 as [Hr1|Hr1]; [apply Hb in Hr1|apply Hmax in Hr1]; lia.
    + by apply (ws_total _ _ _ _ _ Hstep).
  - intros e s' [(Hf & L' & Hinv' & Hstep & Hv' & Hi') _]. split; [done|]. exists L'.
    unfold indexed in Hi'. unfold visible in Hv'. injection Hi' as Hi1 Hi2 Hi3.
    injection Hv' as _ Hs' _ _ _ _ _ _ _.
    split; [done| | |by apply (ws_total _ _ _ _ _ Hstep)].
    + unfold live_inv in *. by rewrite Hi1, Hi2, Hi3.
    + unfold seq_inv. by rewrite Hs'.
Qed.

(** C22: [ApplyRaw] accepts exactly the concatenations of valid records and
    rejects anything else without effect.  The records it accepts enter the
    store under newest-wins, whatever the store held, and the sequence counter
    follows; a failing system call leaves the known records as they were. *)
Theorem ApplyRaw_correct s L M raw :
  store_ok s L M -> st_closed s = false -> st_nextID s + 1 < 2 ^ 32 -> zlen raw < 2 ^ 32 ->
  match ApplyRaw raw s with
  | (Ok q, s') => exists rs L', raw = encode_all rs /\ Forall valid_record rs /\
      q = max_seq 0 rs /\ st_seq s' = Z.max (st_seq s) q /\ store_ok s' L' (absorb_all M rs)
  | (Err e, s') => (not_records raw /\ s' = s /\ e = ErrRecord ErrCorrupt) \/
      (w_faults (st_w s) <> [] /\ exists L', store_ok s' L' M)
  end.
Proof.
  intros Hok Hc Hnext Hlen.
  destruct (parse_raw (length raw) raw [] 0) as [[recs max]|e] eqn:E.
  - apply parse_raw_inv in E as (rs & -> & -> & Hv & ->); [|done].
    pose proof (ApplyRaw_wp rs s L M Hok Hc Hnext Hv Hlen) as Hwp. unfold wp in Hwp.
    destruct (ApplyRaw (encode_all rs) s) as [[q|e] s']; [|by right].
    destruct Hwp as (-> & Hq & _ & L' & Hok'). by exists rs, L'.
  - unfold ApplyRaw. rewrite E. left. split; [|split; [done|]].
    + intros rs Hv ->. by rewrite parse_raw_encode in E.
    + by apply parse_raw_err in E.
Qed.

Lemma max_seq_set rs rs' q : (forall r, r ∈ rs' <-> r ∈ rs) -> max_seq q rs = max_seq q rs'.
Proof.
  assert (Hle : forall l l', (forall r, r ∈ l -> r ∈ l') -> max_seq q l <= max_seq q l').
  { intros l l' Hsub. destruct (max_seq_ge l' q) as [Hq Hr].
    assert (Hall : forall r, r ∈ l -> r_seq r <= max_seq q l') by auto. clear Hsub Hr.
    revert Hq Hall. generalize (max_seq q l') as b. intros b. clear l'.
    revert q. induction l as [|r l IH]; intros q Hq Hall; simpl; [done|].
    apply IH; [|set_solver]. destruct (q <? r_seq r); [apply Hall; set_solver|done]. }
  intros Hset. apply Z.le_antisymm; apply Hle; intros; by apply Hset.
Qed.

(** C23: replication converges: two replicas that know the same records and
    are sent the same set of records, in whatever order and with whatever
    repetitions, end with the same newest record for every key, so with the
    same client map, and acknowledge the same position. *)
Theorem replicas_converge s1 L1 s2 L2 M rs rs' q1 q2 s1' s2' :
  store_ok s1 L1 M -> st_closed s1 = false -> st_nextID s1 + 1 < 2 ^ 32 ->
  store_ok s2 L2 M -> st_closed s2 = false -> st_nextID s2 + 1 < 2 ^ 32 ->
  Forall valid_record rs -> log_size rs < 2 ^ 32 -> log_size rs' < 2 ^ 32 ->
  consistent rs -> (forall r, r ∈ rs' <-> r ∈ rs) ->
  ApplyRaw (encode_all rs) s1 = (Ok q1, s1') -> ApplyRaw (encode_all rs') s2 = (Ok q2, s2') ->
  q1 = q2 /\ exists m, refines s1' m /\ refines s2' m.
Proof.
  intros Hok1 Hc1 Hn1 Hok2 Hc2 Hn2 Hv Hl1 Hl2 Hcons Hset E1 E2.
  assert (Hv' : Forall valid_record rs')
    by (rewrite Forall_forall in *; intros r Hr; by apply Hv, Hset).
  pose proof (ApplyRaw_wp rs s1 L1 M Hok1 Hc1 Hn1 Hv Hl1) as H1.
  pose proof (ApplyRaw_wp rs' s2 L2 M Hok2 Hc2 Hn2 Hv' Hl2) as H2.
  unfold wp in H1, H2. rewrite E1 in H1. rewrite E2 in H2.
  destruct H1 as (-> & _ & _ & L1' & Hok1'), H2 as (-> & _ & _ & L2' & Hok2').
  split; [by apply max_seq_set|]. exists (kv (absorb_all M rs)).
  split; eexists _, _; (split; [done|]); [done|]. by rewrite (absorb_all_set M rs rs').
Qed.

(** A closed store refuses every write, with [ErrClosed] unless the
    arguments are already at fault, and nothing changes. *)
Theorem closed_refuses s now k v ks vs raw : st_closed s = true ->
  (exists e, Put now k v s = (Err e, s) /\ (put_error k v = None -> e = ErrClosed)) /\
  (zlen ks <> 0 -> exists e, BatchPut now ks vs s = (Err e, s)) /\
  (exists e, Delete now k s = (Err e, s)) /\
  (0 < zlen raw -> exists e, ApplyRaw raw s = (Err e, s)) /\
  Reset s = (Err ErrClosed, s).
Proof.
  intros Hc. assert (Hchk : check_open s = (Err ErrClosed, s))
    by (unfold check_open, sm_bind; simpl; by rewrite Hc).
  split; [|split; [|split; [|split]]].
  - unfold Put, put_error, sm_bind, throw_if. destruct (validateKey k); [by eexists|].
    destruct (_ <? _); simpl; [by eexists|]. rewrite Hchk. by eexists.
  - intros Hz. unfold BatchPut. destruct (negb _); [by eexists|].
    destruct (Z.eqb_spec (zlen ks) 0); [done|].
    unfold sm_bind, throw_if. destruct (batch_error ks vs); simpl; [by eexists|].
    rewrite Hchk. by eexists.
  - unfold Delete, sm_bind, throw_if. destruct (validateKey k); simpl; [by eexists|].
    destruct (negb _); [by eexists|]. rewrite Hchk. by eexists.
  - intros Hlen. unfold ApplyRaw. destruct (parse_raw _ _ _ _) as [[[|r recs] max]|e] eqn:E.
    + apply parse_raw_inv in E as (rs & Hnil & -> & _ & _); [|done].
      simpl in Hnil. subst rs. rewrite zlen_encode_all_nil in Hlen. lia.
    + unfold sm_bind. rewrite Hchk. by eexists.
    + by eexists.
  - unfold Reset, sm_bind. by rewrite Hchk.
Qed.
End ops.
