(* ===== verification/Reads.v ===== *)
(** * Point reads

    [Get] against the client's map: alone, and while other goroutines run
    between its index lookup and its disk read. *)

From S2P Require Import Prelude Bytes Record Datafile Manifest Index Store StoreInv WritePath.
From S2P Require Import Ops.

Local Open Scope Z_scope.
Local Open Scope gokv_scope.

Section reads.
Context {I : Type} `{KeyIndexSpec I}.
Implicit Types (s : store I) (L : logs) (M : newest) (m : gmap bytes bytes).

(** Only the fault oracle moved. *)
Definition only_faults s s' : Prop := exists w', s' = set_w w' s /\ advance (st_w s) w'.

Lemma set_w_self s : set_w (st_w s) s = s.
Proof. by destruct s. Qed.

Lemma only_faults_refl s : only_faults s s.
Proof. exists (st_w s). split; [by destruct s|apply to_fs_self]. Qed.

Lemma only_faults_ok s s' L M : only_faults s s' -> store_ok s L M -> store_ok s' L M.
Proof.
  intros (w' & -> & Hw) [Hinv Hlive Hseq Htot]. destruct (inv_advance s L M w' Hinv Hw) as [? _].
  by split.
Qed.

Lemma only_faults_faults s s' : only_faults s s' ->
  w_faults (st_w s) = [] -> w_faults (st_w s') = [].
Proof. intros (w' & -> & _ & _ & Hf). exact Hf. Qed.

Lemma valid_encode_size r : valid_record r -> zlen (encode r) < 2 ^ 32.
Proof. intros Hr. pose proof (valid_sizes r Hr). rewrite zlen_encode. lia. Qed.

(** Reading the record a locator points at. *)
Lemma readValue_located s L M k e r : store_inv s L M -> locates L k e r ->
  wp (readValue e)
    (fun v s' => v = r_value r /\ tombstone r = false /\ only_faults s s')
    (fun x s' => (x = ErrKeyNotFound /\ tombstone r = true \/
                  x = ErrIO /\ w_faults (st_w s) <> []) /\ only_faults s s') s.
Proof.
  intros Hinv Hloc. destruct (located_bytes _ _ _ _ _ _ (si_files _ _ _ Hinv) Hloc)
    as (d & f & Hd & Hid & Ho & Hf & Hr & Hpos & Hsz & Hend & Hbytes).
  assert (Hin : e_fileID e ∈ st_files s).
  { rewrite <- (si_dom _ _ _ Hinv). destruct Hloc as (_ & _ & _ & _ & ? & ? & HL & _).
    apply elem_of_dom. eauto. }
  unfold readValue. apply wp_bind, wp_get. rewrite bool_decide_true, Hd by done.
  apply wp_bind, wp_io. unfold readRecord, df_readAt. rewrite Ho, Hid. cbn [df_guard].
  apply wp_bind. eapply wp_fs_read_at; [|exact Hf|done..|].
  { intros Hflt w' Hw. split; [auto|]. by exists w'. }
  intros w' Hw. rewrite Hbytes, decode_encode by done. apply wp_ret. cbn [fst].
  destruct Hloc as (_ & -> & _). rewrite Z.eqb_refl. simpl.
  destruct (tombstone r); [apply wp_throw|apply wp_ret]; (split; [auto|]); [by exists w'|].
  split; [done|]. by exists w'.
Qed.

(** A locator into a file that is no longer open. *)
Lemma readValue_gone s e : e_fileID e ∉ st_files s -> readValue e s = (Err errFileGone, s).
Proof. intros Hn. unfold readValue, sm_bind. simpl. by rewrite bool_decide_false. Qed.

(** What may change under a reader: files come and go, but a file that stays
    keeps its records, and file ids are not reused. *)
Definition extends L L' : Prop :=
  forall id rs rs', L !! id = Some rs -> L' !! id = Some rs' -> rs `prefix_of` rs'.

Lemma locates_extends L L' k e r : extends L L' -> locates L k e r ->
  is_Some (L' !! e_fileID e) -> locates L' k e r.
Proof.
  intros Hext (? & ? & ? & ? & pre & post & HL & ?) [rs' HL'].
  do 4 (split; [done|]). destruct (Hext _ _ _ HL HL') as [tl ->].
  exists pre, (post ++ tl). by rewrite <- app_assoc in HL'.
Qed.

(** An environment that keeps the store sound, never touches a record in
    place, and keeps the value of [k] within [P]. *)
Definition benign (P : option bytes -> Prop) (k : bytes) (env : nat -> store I -> store I) : Prop :=
  forall n s L M, store_ok s L M -> P (kv M !! k) ->
    exists L' M', store_ok (env n s) L' M' /\ P (kv M' !! k) /\ extends L L' /\
      (w_faults (st_w s) = [] -> w_faults (st_w (env n s)) = []).

Definition get_post (P : option bytes -> Prop) (faulty : Prop)
  (out : result error bytes) : Prop :=
  match out with
  | Ok v => P (Some v)
  | Err ErrKeyNotFound => P None
  | Err ErrRace => True
  | Err e => e = ErrIO /\ faulty
  end.

Lemma get_attempts_post P k env : benign P k env -> forall n s L M,
  store_ok s L M -> P (kv M !! k) ->
  get_post P (w_faults (st_w s) <> []) (get_attempts env n k s).1 /\
  exists L' M', store_ok (get_attempts env n k s).2 L' M' /\ P (kv M' !! k).
Proof.
  intros Hbenign. induction n as [|n IH]; intros s L M Hok HP.
  { split; [done|]. by exists L, M. }
  cbn [get_attempts]. rewrite sm_bind_get. pose proof (idx_get_kv s L M k Hok) as Hk.
  destruct (idx_get k (st_idx s)) as [e|]; [destruct Hk as (r & Hr & Hloc & Hk)|].
  2:{ rewrite Hk in HP. split; [done|]. exists L, M. rewrite Hk. split; [by apply count_ok|done]. }
  destruct (e_tomb e) eqn:Et.
  { rewrite Hk in HP. split; [done|]. exists L, M. rewrite Hk. split; [by apply count_ok|done]. }
  unfold sm_bind, sm_modify. destruct (Hbenign n s L M Hok HP) as (L1 & M1 & Hok1 & HP1 & Hext & Hflt).
  unfold sm_catch. destruct (L1 !! e_fileID e) as [rs1|] eqn:EL.
  - assert (Hloc1 : locates L1 k e r) by (apply (locates_extends L); eauto).
    pose proof (readValue_located (env n s) L1 M1 k e r (ok_inv _ _ _ Hok1) Hloc1) as Hrd.
    unfold wp in Hrd. destruct (readValue e (env n s)) as [[v|x] s2].
    + destruct Hrd as (-> & _ & Hof). rewrite Hk in HP. split; [done|].
      exists L1, M1. split; [by eapply only_faults_ok|done].
    + destruct Hrd as [Hx Hof]. assert (Ht : tombstone r = false).
      { destruct Hloc as (_ & _ & Ht & _). congruence. }
      destruct Hx as [[_ ?]|[-> Hf]]; [congruence|]. rewrite bool_decide_false by done.
      split; [split; [done|tauto]|]. exists L1, M1. split; [by eapply only_faults_ok|done].
  - rewrite readValue_gone.
    2:{ rewrite <- (si_dom _ _ _ (ok_inv _ _ _ Hok1)). by apply not_elem_of_dom. }
    rewrite bool_decide_true by done.
    destruct (IH (env n s) L1 M1 Hok1 HP1) as [Hpost Hfin]. split; [|done].
    destruct (get_attempts env n k (env n s)) as [[v|x] s2]; [done|]. simpl in *.
    destruct x; try done; simpl in *; tauto.
Qed.


Lemma get_alone n k s L M : store_ok s L M ->
  wp (get_attempts (fun _ s => s) (S n) k)
    (fun v s' => kv M !! k = Some v /\ store_ok s' L M /\ st_cnt s' = st_cnt s /\
       (w_faults (st_w s) = [] -> w_faults (st_w s') = []))
    (fun x s' => store_ok s' L M /\ (w_faults (st_w s) = [] -> w_faults (st_w s') = []) /\
       (x = ErrKeyNotFound /\ kv M !! k = None /\ st_cnt s' = add_miss (st_cnt s) \/
        x = ErrIO /\ w_faults (st_w s) <> [])) s.
Proof.
  intros Hok. cbn [get_attempts]. apply wp_bind, wp_get.
  pose proof (idx_get_kv s L M k Hok) as Hk.
  destruct (idx_get k (st_idx s)) as [e|]; [destruct Hk as (r & Hr & Hloc & Hk)|].
  2:{ apply wp_bind, wp_modify, wp_throw. split; [by apply count_ok|auto]. }
  destruct (e_tomb e) eqn:Et.
  { apply wp_bind, wp_modify, wp_throw. split; [by apply count_ok|auto]. }
  apply wp_bind, wp_modify, wp_catch.
  eapply wp_mono; [by eapply readValue_located; [apply Hok|]| |].
  - intros v s' (-> & _ & Hof). split; [done|]. split; [by eapply only_faults_ok|].
    split; [by destruct Hof as (? & -> & _)|by apply only_faults_faults].
  - intros x s' [Hx Hof]. assert (Ht : tombstone r = false)
      by (destruct Hloc as (_ & _ & Ht & _); congruence).
    destruct Hx as [[_ ?]|[-> Hf]]; [congruence|]. rewrite bool_decide_false by done.
    apply wp_throw. split; [by eapply only_faults_ok|].
    split; [by apply only_faults_faults|auto].
Qed.

Lemma Get_wp k s L M : store_ok s L M -> validateKey k = None ->
  wp (Get (fun _ s => s) k)
    (fun v s' => kv M !! k = Some v /\ store_ok s' L M /\ st_cnt s' = add_get (st_cnt s) /\
       (w_faults (st_w s) = [] -> w_faults (st_w s') = []))
    (fun x s' => store_ok s' L M /\ (w_faults (st_w s) = [] -> w_faults (st_w s') = []) /\
       (x = ErrKeyNotFound /\ kv M !! k = None /\ st_cnt s' = add_miss (add_get (st_cnt s)) \/
        x = ErrIO /\ w_faults (st_w s) <> [])) s.
Proof.
  intros Hok Hk. unfold Get. rewrite Hk. apply wp_bind, wp_throw_if; [intros _|done].
  apply wp_bind, wp_modify.
  exact (get_alone 3 k (set_cnt (add_get (st_cnt s)) s) L M (count_ok _ s L M Hok)).
Qed.

(** [Get] alone is lookup in the client's map: it returns exactly the value
    the map holds, [ErrKeyNotFound] exactly when there is none, a bad key is
    refused, and the map is not changed. *)
Theorem Get_refines s m k :
  refines s m ->
  match validateKey k, Get (fun _ s => s) k s with
  | Some e, out => out = (Err e, s)
  | None, (Ok v, s') => m !! k = Some v /\ refines s' m /\ st_cnt s' = add_get (st_cnt s)
  | None, (Err e, s') => refines s' m /\
      (e = ErrKeyNotFound /\ m !! k = None /\ st_cnt s' = add_miss (add_get (st_cnt s)) \/
       e = ErrIO /\ w_faults (st_w s) <> [])
  end.
Proof.
  intros (L & M & Hok & <-). destruct (validateKey k) as [e|] eqn:Ek.
  { unfold Get. by rewrite Ek. }
  pose proof (Get_wp k s L M Hok Ek) as Hget. unfold wp in Hget.
  destruct (Get _ k s) as [[v|e] s'].
  - destruct Hget as (Hv & Hok2 & Hc & _). split; [done|]. split; [by exists L, M|done].
  - destruct Hget as (Hok2 & _ & Hx). split; [by exists L, M|done].
Qed.
End reads.
