(* ===== verification/Scans.v ===== *)
(** * Range scans

    [Scan] walks the index in chunks and reads each value from disk.  Against
    the client's map: the callback sees exactly the pairs of the range, in key
    order, up to the limit or its first error. *)

From S2P Require Import Prelude Bytes Record Datafile Manifest Index Store StoreInv WritePath.
From S2P Require Import Ops Reads.

Local Open Scope Z_scope.
Local Open Scope gokv_scope.

(** ** The specification *)

(** Hand the pairs of [l] to the callback until it fails or the limit is
    reached, [sent] pairs having gone before. *)
Fixpoint feed {T} (fn : bytes -> bytes -> T -> result error unit * T) (limit : Z)
  (l : list (bytes * bytes)) (sent : Z) (t : T) : result error unit * T :=
  match l with
  | [] => (Ok tt, t)
  | (k, v) :: l' =>
      match fn k v t with
      | (Err e, t') => (Err e, t')
      | (Ok _, t') => if (0 <? limit) && (limit <=? sent + 1) then (Ok tt, t')
                      else feed fn limit l' (sent + 1) t'
      end
  end.

(** The pairs of [m] with keys from [start] to [end_] (empty: no upper bound),
    in key order. *)
Definition range_of (m : gmap bytes bytes) (start end_ : bytes) (l : list (bytes * bytes)) : Prop :=
  StronglySorted bytes_lt l.*1 /\
  forall k v, (k, v) ∈ l <->
    m !! k = Some v /\ bytes_le start k /\ (end_ = [] \/ bytes_le k end_).

(** ** Sorted lists of pairs *)

Lemma sorted_pairs_unique {A} (l l' : list (bytes * A)) :
  StronglySorted bytes_lt l.*1 -> StronglySorted bytes_lt l'.*1 ->
  (forall p, p ∈ l <-> p ∈ l') -> l = l'.
Proof.
  revert l'. induction l as [|p l IH]; intros [|p' l'] Hs Hs' Hin; [done| | |].
  - destruct (Hin p') as [_ Hc]. assert (Hx : p' ∈ []) by (apply Hc; by left).
    by apply not_elem_of_nil in Hx.
  - destruct (Hin p) as [Hc _]. assert (Hx : p ∈ []) by (apply Hc; by left).
    by apply not_elem_of_nil in Hx.
  - simpl in Hs, Hs'. apply StronglySorted_inv in Hs as [Hs Hp], Hs' as [Hs' Hp'].
    rewrite Forall_forall in Hp, Hp'.
    assert (Hin1 : forall q, q ∈ l -> bytes_lt p.1 q.1) by (intros q Hq; by apply Hp, list_elem_of_fmap_2).
    assert (Hin2 : forall q, q ∈ l' -> bytes_lt p'.1 q.1) by (intros q Hq; by apply Hp', list_elem_of_fmap_2).
    assert (Heq : p = p').
    { destruct (Hin p) as [H1 _]. destruct (Hin p') as [_ H2].
      assert (Hpl : p ∈ p' :: l') by (apply H1; by left).
      assert (Hpl' : p' ∈ p :: l) by (apply H2; by left).
      apply elem_of_cons in Hpl as [Heq|Hpl]; [done|].
      apply elem_of_cons in Hpl' as [Heq|Hpl']; [done|].
      exfalso. apply (bytes_lt_irrefl p.1). eapply bytes_lt_trans; [by apply Hin1|by apply Hin2]. }
    subst p'. f_equal. apply IH; [done..|]. intros q. specialize (Hin q).
    rewrite !elem_of_cons in Hin. split; intros Hq.
    + destruct Hin as [Hin _]. destruct (Hin (or_intror Hq)) as [->|]; [|done].
      by apply Hin1, bytes_lt_irrefl in Hq.
    + destruct Hin as [_ Hin]. destruct (Hin (or_intror Hq)) as [->|]; [|done].
      by apply Hin2, bytes_lt_irrefl in Hq.
Qed.

Lemma sorted_app_inv {A} (l l' : list (bytes * A)) : StronglySorted bytes_lt (l ++ l').*1 ->
  StronglySorted bytes_lt l.*1 /\ StronglySorted bytes_lt l'.*1 /\
  forall p q, p ∈ l -> q ∈ l' -> bytes_lt p.1 q.1.
Proof.
  induction l as [|x l IH]; simpl; intros Hs.
  - split; [constructor|]. split; [done|]. by intros p q ?%not_elem_of_nil.
  - apply StronglySorted_inv in Hs as [Hs Hx]. destruct (IH Hs) as (H1 & H2 & H3).
    rewrite fmap_app, Forall_app in Hx. destruct Hx as [Hx1 Hx2]. split; [by constructor|].
    split; [done|]. intros p q [->|Hp]%elem_of_cons Hq; [|by apply H3].
    rewrite Forall_forall in Hx2. by apply Hx2, list_elem_of_fmap_2.
Qed.

(** ** One chunk *)

Definition in_range (endKey : bytes) (k : bytes) : Prop := endKey = [] \/ bytes_le k endKey.

Definition over (endKey k : bytes) : bool := negb (zlen endKey =? 0) && bytes_ltb endKey k.

Lemma over_false endKey k : over endKey k = false <-> in_range endKey k.
Proof.
  unfold over, in_range, bytes_le. split.
  - intros [Hz|Hk]%andb_false_iff; [left|by right].
    apply negb_false_iff, Z.eqb_eq in Hz. by apply zlen_0_inv.
  - intros [->|Hk]; [done|]. rewrite Hk. apply andb_false_r.
Qed.

Definition live_refs (l : list (bytes * entry)) : list (bytes * entry) :=
  filter (fun p => e_tomb p.2 = false) l.

(** What a chunk reads of the unexamined nodes [rest]: a prefix [ex] of those in
    range; it stops early only at the end of the range or after some node. *)
Lemma chunk_loop_spec endKey rest : forall refs cursor excl examined,
  StronglySorted bytes_lt rest.*1 ->
  (forall p, p ∈ rest -> excl = true -> bytes_lt cursor p.1) -> 0 <= examined ->
  let c := chunk_loop endKey rest (mkChunk refs cursor excl examined false) in
  exists ex rest', rest = ex ++ rest' /\
    ck_refs c = refs ++ live_refs ex /\ ck_examined c = examined + zlen ex /\
    ck_cursor c = default cursor (last ex.*1) /\
    (excl = true \/ ex <> [] -> ck_exclusive c = true) /\
    (forall p, p ∈ ex -> in_range endKey p.1) /\
    (ck_atEnd c = true -> forall p, p ∈ rest' -> ~ in_range endKey p.1) /\
    (ck_atEnd c = false -> rest' = [] \/ ex <> []).
Proof.
  induction rest as [|[k e] rest IH]; intros refs cursor excl examined Hs Hc Hex.
  { exists [], []. simpl. rewrite app_nil_r, zlen_nil, Z.add_0_r. do 4 (split; [done|]).
    split; [by intros [?|?]|]. split; [by intros p ?%not_elem_of_nil|].
    split; [done|by left]. }
  cbn [chunk_loop ck_exclusive ck_cursor ck_refs ck_examined ck_atEnd].
  assert (Hskip : excl && bool_decide (k = cursor) = false).
  { destruct excl; [|done]. simpl. apply bool_decide_eq_false. intros ->.
    by apply (bytes_lt_irrefl cursor), (Hc (cursor, e)); [left|]. }
  rewrite Hskip. fold (over endKey k). simpl in Hs. apply StronglySorted_inv in Hs as [Hs Hk].
  rewrite Forall_forall in Hk.
  assert (Hk' : forall p, p ∈ rest -> bytes_lt k p.1) by (intros p Hp; by apply Hk, list_elem_of_fmap_2).
  destruct (over endKey k) eqn:Eo.
  { assert (Hk0 : ~ in_range endKey k) by (rewrite <- over_false; congruence).
    exists [], ((k, e) :: rest). simpl. rewrite app_nil_r, zlen_nil, Z.add_0_r.
    do 4 (split; [done|]). split; [by intros [?|?]|].
    split; [by intros p ?%not_elem_of_nil|]. split; [|done].
    intros _ p [->|Hp]%elem_of_cons; [done|]. intros [->|Hle]; [by apply Hk0; left|].
    apply Hk0. right. apply bytes_lt_le. eapply bytes_lt_le_trans; [by apply Hk'|done]. }
  apply over_false in Eo.
  assert (Hrefs : (if e_tomb e then refs else refs ++ [(k, e)]) = refs ++ live_refs [(k, e)]).
  { unfold live_refs. rewrite filter_cons, filter_nil. simpl.
    destruct (e_tomb e); [by rewrite app_nil_r|done]. }
  rewrite Hrefs. destruct (_ || _).
  - exists [(k, e)], rest. simpl. rewrite zlen_cons, zlen_nil. do 5 (split; [done|]).
    split; [by intros p ->%list_elem_of_singleton|]. split; [done|by right].
  - destruct (IH (refs ++ live_refs [(k, e)]) k true (examined + 1))
      as (ex & rest' & -> & Hr & He & Hcu & Hxc & Hin & Hend & Hmore); [done| |lia|].
    { intros p Hp _. by apply Hk'. }
    exists ((k, e) :: ex), rest'. split; [done|].
    rewrite Hr, He, Hcu. split; [|split; [|split; [|split; [|split; [|split]]]]].
    + rewrite <- app_assoc. f_equal. unfold live_refs. by rewrite <- filter_app.
    + rewrite zlen_cons. lia.
    + rewrite fmap_cons, last_cons. by destruct (last ex.*1).
    + intros _. apply Hxc. by left.
    + intros p [->|Hp]%elem_of_cons; [done|by apply Hin].
    + exact Hend.
    + by right.
Qed.

Section scan.
Context {I : Type} `{KeyIndexSpec I} {T : Type}.
Context (fn : bytes -> bytes -> T -> result error unit * T) (limit : Z).
Context (s : store I) (L : logs) (M : newest) (Hok : store_ok s L M).
Context (Hno : w_faults (st_w s) = []).

(** ** Sending a chunk *)

(** The pair the callback sees for a node. *)
Definition pair_of (endKey : bytes) (p : bytes * entry) : option (bytes * bytes) :=
  if over endKey p.1 then None
  else if e_tomb p.2 then None
  else r ← M !! p.1; Some (p.1, r_value r).

Lemma pair_of_key endKey p k v : pair_of endKey p = Some (k, v) -> k = p.1.
Proof.
  unfold pair_of. destruct (over endKey p.1); [done|]. destruct (e_tomb p.2); [done|].
  destruct (M !! p.1); simpl; congruence.
Qed.

Definition indexed_node (p : bytes * entry) : Prop := idx_view (st_idx s) !! p.1 = Some p.2.

Lemma only_faults_calm s' : only_faults s s' -> s' = s.
Proof using Hno.
  intros (w' & -> & Hfs & Hl & Hf). specialize (Hf Hno).
  assert (w' = st_w s) as -> by (destruct w', (st_w s); simpl in *; congruence).
  apply set_w_self.
Qed.

Lemma node_located p : indexed_node p -> exists r, M !! p.1 = Some r /\ locates L p.1 p.2 r.
Proof using Hok.
  intros Hp. destruct Hok as [[[_ Hv] _ _ _ _] _ _ _]. specialize (Hv p.1).
  unfold indexed_node in Hp. rewrite Hp in Hv. destruct (M !! p.1) as [r|]; [by exists r|done].
Qed.

Lemma readValue_ok k e r : locates L k e r -> e_tomb e = false -> readValue e s = (Ok (r_value r), s).
Proof using Hok Hno.
  intros Hloc Ht. pose proof (readValue_located s L M k e r (ok_inv _ _ _ Hok) Hloc) as Hrd.
  unfold wp in Hrd. destruct Hloc as (_ & _ & Htr & _).
  destruct (readValue e s) as [[v|x] s'].
  - destruct Hrd as (-> & _ & Hof). by rewrite (only_faults_calm s' Hof).
  - destruct Hrd as [[[_ Hx]|[_ Hx]] _]; [congruence|done].
Qed.

Lemma read_node p : indexed_node p -> e_tomb p.2 = false ->
  exists r, M !! p.1 = Some r /\ readValue p.2 s = (Ok (r_value r), s).
Proof using Hok Hno.
  intros Hp Ht. destruct (node_located p Hp) as (r & Hr & Hloc). exists r. split; [done|]. by apply (readValue_ok p.1).
Qed.

Definition continue_with (out : sent_out (T := T) * store I)
  (k : Z -> T -> result error unit * T) : result error unit * T :=
  match out.1 with SReturn r t => (r, t) | SContinue n t => k n t end.

Lemma send_refs_feed round endKey ex rest : forall sent t,
  (forall p, p ∈ ex -> indexed_node p /\ over endKey p.1 = false) ->
  let out := send_refs fn limit undisturbed_scan round (live_refs ex) sent t s in
  out.2 = s /\
  feed fn limit (omap (pair_of endKey) ex ++ rest) sent t = continue_with out (feed fn limit rest).
Proof using Hok Hno.
  induction ex as [|p ex IH]; intros sent t Hex; [done|].
  destruct (Hex p ltac:(by left)) as [Hp Ho].
  assert (Hex' : forall q, q ∈ ex -> indexed_node q /\ over endKey q.1 = false)
    by (intros q Hq; apply Hex; by right).
  unfold live_refs in *. cbn [omap list_omap]. unfold pair_of at 1. rewrite Ho.
  destruct (e_tomb p.2) eqn:Et.
  { rewrite filter_cons_False by congruence. by apply IH. }
  rewrite filter_cons_True by done. destruct (read_node p Hp Et) as (r & Hr & Hrd).
  rewrite Hr. cbn [mbind option_bind app feed send_refs]. unfold sm_catch. change (undisturbed_scan (ScanRead ?a ?b) s) with s. rewrite Hrd.
  destruct (fn p.1 (r_value r) t) as [[[]|e] t'].
  - destruct (_ && _); [done|]. by apply IH.
  - done.
Qed.

(** ** The rounds *)

Lemma idx_from_suffix start done p rest :
  idx_from start (st_idx s) = (done ++ [p]) ++ rest ->
  idx_from p.1 (st_idx s) = p :: rest.
Proof using Hok.
  intros HV. pose proof (ok_inv _ _ _ Hok) as [[Hwf _] _ _ _ _].
  pose proof (idx_from_sorted _ start Hwf) as Hs. rewrite HV in Hs.
  pose proof (sorted_app_inv _ _ Hs) as (Hs1 & Hs2 & Hlt).
  pose proof (sorted_app_inv _ _ Hs1) as (_ & _ & Hlt1).
  assert (Hp : forall q, q ∈ rest -> bytes_lt p.1 q.1)
    by (intros q Hq; apply Hlt; [apply elem_of_app; right; by left|done]).
  apply sorted_pairs_unique.
  - by apply idx_from_sorted.
  - simpl. constructor; [done|]. apply Forall_forall.
    intros k (q & -> & Hq)%list_elem_of_fmap. by apply Hp.
  - intros [k e]. rewrite idx_from_elem by done.
    pose proof (idx_from_elem (st_idx s) start k e Hwf) as Hin. rewrite HV in Hin.
    assert (Hpin : p ∈ idx_from start (st_idx s)) 
      by (rewrite HV; apply elem_of_app; left; apply elem_of_app; right; by left).
    destruct p as [kp ep]. apply idx_from_elem in Hpin as [Hvp Hsp]; [|done]. simpl in *.
    rewrite elem_of_cons, !elem_of_app, list_elem_of_singleton in *. split.
    + intros [Hv Hle]. assert (Hstart : bytes_le start k).
      { apply bytes_le_iff in Hle as [Hlt'|<-]; [|done]. apply bytes_lt_le.
        by eapply bytes_le_lt_trans. }
      destruct Hin as [_ Hin]. destruct (Hin (conj Hv Hstart)) as [[Hd|Heq]|Hr]; [|by left|by right].
      exfalso. apply bytes_lt_not_le in Hle; [done|]. apply (Hlt1 (k, e) (kp, ep) Hd). by left.
    + intros [Heq|Hr].
      * injection Heq as -> ->. split; [done|]. apply bytes_le_iff. by right.
      * split; [by apply Hin; right|]. by apply bytes_lt_le, (Hp (k, e)).
Qed.

Definition cursor_at (start : bytes) (done : list (bytes * entry)) (cursor : bytes) (excl : bool)
  : Prop :=
  done = [] /\ cursor = start /\ excl = false \/
  exists done' p, done = done' ++ [p] /\ cursor = p.1 /\ excl = true.

Lemma scan_chunk_rest start done rest endKey cursor excl :
  idx_from start (st_idx s) = done ++ rest -> cursor_at start done cursor excl ->
  scan_chunk endKey cursor excl s = chunk_loop endKey rest (mkChunk [] cursor excl 0 false).
Proof using Hok.
  intros HV [(-> & -> & ->)|(done' & p & -> & -> & ->)]; unfold scan_chunk; [by rewrite HV|].
  rewrite (idx_from_suffix _ _ _ _ HV). destruct p as [k e]. cbn [chunk_loop ck_exclusive ck_cursor].
  by rewrite bool_decide_true.
Qed.

Lemma out_of_range_pairs endKey rest : (forall p, p ∈ rest -> ~ in_range endKey p.1) ->
  omap (pair_of endKey) rest = [].
Proof.
  induction rest as [|p rest IH]; intros Hout; [done|]. cbn [omap list_omap].
  assert (Hp : pair_of endKey p = None).
  { unfold pair_of. destruct (over endKey p.1) eqn:E; [done|].
    apply over_false in E. by destruct (Hout p ltac:(by left)). }
  rewrite Hp. apply IH. intros q Hq. apply Hout. by right.
Qed.

Lemma scan_rounds_feed start endKey : forall fuel rest done cursor excl sent t,
  idx_from start (st_idx s) = done ++ rest -> cursor_at start done cursor excl ->
  (length rest < fuel)%nat ->
  scan_rounds fn limit undisturbed_scan fuel endKey cursor excl sent t s =
    (feed fn limit (omap (pair_of endKey) rest) sent t, s).
Proof using Hok Hno.
  pose proof (ok_inv _ _ _ Hok) as [[Hwf _] _ _ _ _].
  induction fuel as [|fuel IH]; intros rest done cursor excl sent t HV Hcur Hf; [lia|].
  pose proof (idx_from_sorted _ start Hwf) as Hs. rewrite HV in Hs.
  pose proof (sorted_app_inv _ _ Hs) as (_ & Hs2 & Hlt).
  cbn [scan_rounds]. change (undisturbed_scan (ScanChunk fuel) s) with s. rewrite (scan_chunk_rest start done rest) by done.
  destruct (chunk_loop_spec endKey rest [] cursor excl 0)
    as (ex & rest' & Hrest & Hrefs & Hexam & Hcu & Hxc & Hin & Hend & Hmore); [done| |lia|].
  { intros p Hp ->. destruct Hcur as [(_ & _ & ?)|(done' & q & -> & -> & _)]; [done|].
    apply Hlt; [apply elem_of_app; right; by left|done]. }
  cbn [app] in Hrefs. rewrite Z.add_0_l in Hexam.
  set (c := chunk_loop _ _ _) in *. rewrite Hexam, Hrefs, Hrest, omap_app.
  destruct (Z.eqb_spec (zlen ex) 0) as [Hz|Hz].
  { apply zlen_0_inv in Hz as ->. destruct (ck_atEnd c).
    - by rewrite (out_of_range_pairs endKey rest') by auto.
    - destruct (Hmore eq_refl) as [->|?]; done. }
  assert (Hnode : forall p, p ∈ ex -> indexed_node p /\ over endKey p.1 = false).
  { intros [k e] Hp. split; [|by apply over_false, Hin].
    assert (Hp' : (k, e) ∈ idx_from start (st_idx s))
      by (rewrite HV, Hrest, !elem_of_app; auto).
    by apply idx_from_elem in Hp' as [? _]. }
  destruct (send_refs_feed fuel endKey ex (omap (pair_of endKey) rest') sent t Hnode) as [Hst Hfeed].
  rewrite Hfeed. unfold continue_with.
  destruct (send_refs fn limit undisturbed_scan fuel (live_refs ex) sent t s) as [[r t'|sent' t'] s']; simpl in Hst;
    subst s'; [done|]. cbn [fst].
  destruct (ck_atEnd c) eqn:Ee; [by rewrite (out_of_range_pairs endKey rest') by auto|].
  destruct ex as [|p0 ex0 _] using rev_ind; [done|].
  rewrite fmap_app, last_app in Hcu. simpl in Hcu.
  apply (IH rest' (done ++ ex0 ++ [p0])).
  - rewrite HV, Hrest. by rewrite !app_assoc.
  - right. exists (done ++ ex0), p0. split; [by rewrite app_assoc|]. split; [done|].
    apply Hxc. right. by destruct ex0.
  - rewrite Hrest in Hf. rewrite !length_app in Hf. simpl in Hf. lia.
Qed.

Lemma pairs_in_range start endKey :
  range_of (kv M) start endKey (omap (pair_of endKey) (idx_from start (st_idx s))).
Proof using Hok.
  pose proof (ok_inv _ _ _ Hok) as [[Hwf Hv] _ _ _ _]. split.
  - pose proof (idx_from_sorted _ start Hwf) as Hs.
    induction (idx_from start (st_idx s)) as [|p l IH]; [constructor|]. simpl in Hs.
    apply StronglySorted_inv in Hs as [Hs Hp]. cbn [omap list_omap].
    destruct (pair_of endKey p) as [[k v]|] eqn:E; [|by apply IH]. simpl. constructor; [by apply IH|].
    apply pair_of_key in E as ->.
    rewrite Forall_forall in *. intros k' ([k1 v1] & -> & (q & Hq & Eq)%list_elem_of_omap)%list_elem_of_fmap.
    apply pair_of_key in Eq as ->.
    apply (Hp q.1). by apply (list_elem_of_fmap_2 fst).
  - intros k v. rewrite list_elem_of_omap, kv_lookup. split.
    + intros ([k' e] & Hq & E). apply idx_from_elem in Hq as [Hview Hle]; [|done].
      unfold pair_of in E. simpl in E. destruct (over endKey k') eqn:Eo; [done|].
      apply over_false in Eo. destruct (e_tomb e) eqn:Et; [done|].
      specialize (Hv k'). rewrite Hview in Hv. destruct (M !! k') as [r|] eqn:Er; [|done].
      simpl in E. injection E as <- <-. rewrite Er. simpl. destruct Hv as (_ & _ & Htr & _).
      unfold live_value. by rewrite <- Htr, Et.
    + intros (Hkv & Hle & Hr). destruct (M !! k) as [r|] eqn:Er; [|done]. simpl in Hkv.
      specialize (Hv k). rewrite Er in Hv. destruct (idx_view (st_idx s) !! k) as [e|] eqn:Ee; [|done].
      exists (k, e). split; [by apply idx_from_elem|]. unfold pair_of. simpl.
      apply over_false in Hr. rewrite Hr. destruct Hv as (_ & _ & Htr & _).
      unfold live_value in Hkv. rewrite Htr. destruct (tombstone r); [done|]. rewrite Er. simpl.
      congruence.
Qed.
End scan.

Lemma sorted_NoDup (l : list bytes) : StronglySorted bytes_lt l -> NoDup l.
Proof.
  induction 1 as [|k l Hs IH Hk]; constructor; [|done]. intros Hin.
  rewrite Forall_forall in Hk. by apply (bytes_lt_irrefl k), Hk.
Qed.

Lemma idx_from_length {I} `{KeyIndexSpec I} (ix : I) start : idx_wf ix ->
  (length (idx_from start ix) <= length (idx_elems ix))%nat.
Proof.
  intros Hwf. rewrite (idx_elems_ok ix Hwf). apply submseteq_length, NoDup_submseteq.
  - apply (NoDup_fmap_1 fst), sorted_NoDup. by apply idx_from_sorted.
  - intros [k e] Hin. apply idx_from_elem in Hin as [Hv _]; [|done].
    by apply elem_of_map_to_list.
Qed.

Lemma Scan_feed {I} `{KeyIndexSpec I} {T} (fn : bytes -> bytes -> T -> result error unit * T)
  limit start end_ t (s : store I) L M :
  store_ok s L M -> w_faults (st_w s) = [] ->
  exists l, range_of (kv M) start end_ l /\
    Scan fn limit start end_ t s =
      (feed fn limit l 0 t, set_cnt (add_scan (st_cnt s)) s).
Proof.
  intros Hok Hno. unfold Scan, Scan_beside. fold (over end_ start).
  set (s' := set_cnt _ s). assert (Hok' : store_ok s' L M) by (by apply count_ok).
  pose proof (ok_inv _ _ _ Hok') as [[Hwf _] _ _ _ _].
  destruct (over end_ start) eqn:Eo.
  - exists []. split; [|done]. split; [constructor|]. intros k v. split; [by intros ?%not_elem_of_nil|].
    intros (_ & Hle & Hr). exfalso.
    assert (Hin : in_range end_ start); [|by apply over_false in Hin; congruence].
    destruct Hr as [->|Hr]; [by left|right]. apply bytes_le_iff in Hr as [Hr|<-]; [|done].
    apply bytes_lt_le. by eapply bytes_le_lt_trans.
  - exists (omap (pair_of M end_) (idx_from start (st_idx s'))).
    split; [by apply (pairs_in_range s' L M)|].
    rewrite (scan_rounds_feed fn limit s' L M Hok' Hno start end_ _
      (idx_from start (st_idx s')) []).
    + done.
    + done.
    + by left.
    + pose proof (idx_from_length (st_idx s') start Hwf). change (st_idx s') with (st_idx s) in *. lia.
Qed.

(** C19: [Scan] terminates and hands its callback exactly the pairs of the
    client's map whose keys lie between [start] and [end_], inclusive, in
    ascending order, stopping at the callback's first error or at the limit;
    nothing but the scan counter changes. *)
Theorem Scan_refines {I} `{KeyIndexSpec I} {T} (fn : bytes -> bytes -> T -> result error unit * T)
  limit start end_ t (s : store I) m :
  refines s m -> w_faults (st_w s) = [] ->
  exists l, range_of m start end_ l /\
    Scan fn limit start end_ t s =
      (feed fn limit l 0 t, set_cnt (add_scan (st_cnt s)) s).
Proof.
  intros (L & M & Hok & <-) Hno. by apply (Scan_feed fn limit start end_ t s L M).
Qed.

(** Collecting pairs keeps the first [limit] of them. *)
Lemma feed_collect limit l : forall sent out, 0 <= sent -> (0 < limit -> sent < limit) ->
  feed (fun k v out => (Ok tt, out ++ [(k, v)])) limit l sent out =
    (Ok tt, out ++ (if 0 <? limit then take (Z.to_nat (limit - sent)) l else l)).
Proof.
  induction l as [|[k v] l IH]; intros sent out Hs Hl; cbn [feed].
  - destruct (0 <? limit); rewrite ?take_nil, ?firstn_nil, app_nil_r; done.
  - destruct (Z.ltb_spec 0 limit) as [Hlim|Hlim]; simpl.
    + destruct (Z.leb_spec limit (sent + 1)).
      * replace (Z.to_nat (limit - sent)) with 1%nat by lia. done.
      * rewrite IH by lia. destruct (Z.ltb_spec 0 limit); [|lia].
        replace (Z.to_nat (limit - sent)) with (S (Z.to_nat (limit - (sent + 1)))) by lia.
        simpl. by rewrite <- app_assoc.
    + rewrite IH by lia. destruct (Z.ltb_spec 0 limit); [lia|]. by rewrite <- app_assoc.
Qed.

(** [ScanSlice] returns the pairs of the range in key order, the first
    [limit] of them when the limit is positive and all of them otherwise. *)
Theorem ScanSlice_refines {I} `{KeyIndexSpec I} start end_ limit (s : store I) m :
  refines s m -> w_faults (st_w s) = [] ->
  exists l, range_of m start end_ l /\
    (ScanSlice start end_ limit s).1 = (Ok tt, if 0 <? limit then take (Z.to_nat limit) l else l).
Proof.
  intros (L & M & Hok & <-) Hno. unfold ScanSlice.
  destruct (Scan_feed (fun k v out => (Ok tt, out ++ [(k, v)])) limit start end_ [] s L M Hok Hno)
    as (l & Hl & ->).
  exists l. split; [done|]. cbn [fst]. rewrite feed_collect by lia. by rewrite Z.sub_0_r.
Qed.
