(* ===== verification/Background.v ===== *)
(** * Background work

    The periodic fsync and the goroutine that builds the hint of a rotated
    file, as steps that may come between any two client operations. *)

From S2P Require Import Prelude Bytes Record Datafile Hint Manifest Index Store StoreInv.
From S2P Require Import WritePath Ops.

Local Open Scope Z_scope.
Local Open Scope gokv_scope.

Section background.
Context {I : Type} `{KeyIndexSpec I}.
Implicit Types (s : store I) (L : logs) (M : newest).

(** Changes to the directory that spare the data files. *)
Lemma store_ok_fs s L M w' : store_ok s L M ->
  (forall id, w_fs w' !! dataPath id = w_fs (st_w s) !! dataPath id) -> store_ok (set_w w' s) L M.
Proof.
  intros [[Hix Hfiles Hdom Hact Hfresh] Hlive Hseq Htot] Hfs. split; [|done..].
  split; [done| |done|done|].
  - intros id rs HL. simpl. unfold file_inv. rewrite Hfs. by apply Hfiles.
  - destruct Hfresh as [Hn Hlt]. split; [done|]. intros id Hid. simpl. rewrite Hfs. by apply Hlt.
Qed.

Lemma store_ok_tasks ids s L M : store_ok s L M -> store_ok (set_tasks ids s) L M.
Proof. intros [Hinv Hlive Hseq Htot]. split; [by apply set_tasks_inv|done..]. Qed.

Lemma store_ok_dirty b s L M : store_ok s L M -> store_ok (set_dirty b s) L M.
Proof. intros [Hinv Hlive Hseq Htot]. split; [by apply set_dirty_inv|done..]. Qed.

Lemma run_task_wp s L M : store_ok s L M ->
  wp run_task
    (fun _ s' => store_ok s' L M /\ (exists ids w', s' = set_tasks ids (set_w w' s)) /\
       (w_faults (st_w s) = [] -> w_faults (st_w s') = []))
    (fun _ _ => False) s.
Proof.
  intros Hok. unfold run_task. apply wp_bind, wp_get. destruct (st_tasks s) as [|id ids].
  { apply wp_ret. split; [done|]. split; [|done]. exists (st_tasks s), (st_w s). by destruct s. }
  apply wp_bind, wp_modify, wp_ignore, wp_io.
  destruct (buildHint_frame id (st_w (set_tasks ids s))) as [Hfs Hflt].
  assert (Hpost : store_ok (set_w (buildHint id (st_w s)).2 (set_tasks ids s)) L M).
  { apply store_ok_fs; [by apply store_ok_tasks|]. intros id'. apply Hfs;
      [apply dataPath_hintPath|apply not_eq_sym, hintTmp_dataPath]. }
  unfold wp. simpl in *. destruct (buildHint id (st_w s)) as [[[]|e] w']; simpl in *;
    (split; [exact Hpost|]; split; [|exact Hflt]); by exists ids, w'.
Qed.

(** fsync leaves everything the client can see alone, and a clean store has
    all of its records on stable storage. *)
Lemma Sync_wp s L M : store_ok s L M ->
  wp Sync
    (fun _ s' => store_ok s' L M /\ st_dirty s' = false /\ (sync_inv s L -> all_flushed s' L) /\
       (exists b w', s' = set_dirty b (set_w w' s)) /\
       (w_faults (st_w s) = [] -> w_faults (st_w s') = []))
    (fun _ s' => w_faults (st_w s) <> [] /\ store_ok s' L M) s.
Proof.
  intros Hok. unfold Sync. apply wp_bind, wp_get.
  pose proof (si_active _ _ _ (ok_inv _ _ _ Hok)) as (a & d & rs & Ha & HL & Hd & _).
  rewrite Ha. destruct (st_dirty s) eqn:Ed; cbn [negb].
  2:{ apply wp_ret. split; [done|]. split; [done|]. split; [intros Hs id rs' HL'; apply Hs; auto|].
      split; [|done]. exists false, (st_w s). destruct s. simpl in *. by subst. }
  apply wp_bind, (wp_get_active _ _ _ a d Ha Hd), wp_bind.
  eapply wp_mono; [by apply (df_sync_wp s L M a rs d); [apply Hok|..]| |].
  - intros [] s1 (w1 & -> & Hinv1 & Hstep & Hfl). apply wp_modify.
    assert (Hok1 : store_ok (set_w w1 s) L M) by (destruct Hok; by split).
    split; [by apply store_ok_dirty|]. split; [done|]. split; [|split].
    + intros Hs id rs' HL'. simpl. destruct (decide (id = a)) as [->|Hne].
      * rewrite HL in HL'. by injection HL' as <-.
      * apply (ws_sync _ _ _ _ _ Hstep Hs); [done|]. left. simpl. congruence.
    + by exists false, w1.
    + apply (ws_faults _ _ _ _ _ Hstep).
  - intros e s1 (Hf & w1 & -> & Hinv1 & _). split; [done|]. destruct Hok. by split.
Qed.

End background.
