(* ===== verification/Recovery.v ===== *)
(** * Recovery (Open, recover, scanIntoIndex and applyRecovered of store.go)

    Rebuilding the index from the files of the data directory: hint files are
    replayed, other data files scanned, the torn tail of the last file is cut
    off, and the newest record of each key wins. *)

From S2P Require Import Prelude Bytes Decimal Record Datafile Hint Listing Manifest Lock Index.
From S2P Require Import Store StoreInv WritePath Ops.

Local Open Scope Z_scope.
Local Open Scope gokv_scope.

Section recovery_ops.
Context {I : Type} `{KeyIndex I}.

(** [applyRecovered]. *)
Definition applyRecovered (key : bytes) (e : entry) (tomb : bool) (s : store I) : store I :=
  let e := set_tomb tomb e in
  match idx_get key (st_idx s) with
  | Some old =>
      if e_seq e <=? e_seq old then s else set_idx (idx_set key e (st_idx s)) s
  | None => set_idx (idx_insert key e (st_idx s)) s
  end.

(** The closure state of [scanIntoIndex]: the store, [*maxSeq], the staged
    records of an unfinished batch and the offset after the last commit. *)
Record scan_state := mkScanState {
  sc_store : store I;
  sc_maxSeq : Z;
  sc_pending : list (bytes * entry * bool);
  sc_commit : Z
}.

Definition apply_staged (pending : list (bytes * entry * bool)) (s : store I) : store I :=
  foldl (fun s p => applyRecovered p.1.1 p.1.2 p.2 s) s pending.

(** The callback [scanIntoIndex] hands to [scanFile]. *)
Definition scan_record (id pos : Z) (raw : bytes) (r : record) (c : scan_state) : scan_state :=
  let size := u32 (zlen raw) in
  let maxSeq := if sc_maxSeq c <? r_seq r then r_seq r else sc_maxSeq c in
  let e := {| e_pos := pos; e_seq := r_seq r; e_fileID := id; e_size := size;
              e_tomb := false |} in
  if has_flag (r_flags r) flagBatch then
    let pending := sc_pending c ++ [(r_key r, e, tombstone r)] in
    if has_flag (r_flags r) flagBatchEnd then
      mkScanState (apply_staged pending (sc_store c)) maxSeq [] (pos + size)
    else mkScanState (sc_store c) maxSeq pending (sc_commit c)
  else
    mkScanState (applyRecovered (r_key r) e (tombstone r) (sc_store c)) maxSeq
      (sc_pending c) (pos + size).

(** [scanIntoIndex]: the commit offset and the new [maxSeq]. *)
Definition scanIntoIndex (id maxSeq : Z) : sto I (Z * Z) := fun s =>
  match scanDataFile id (fun pos raw r tw => (Ok tt, (scan_record id pos raw r tw.1, tw.2)))
          (mkScanState s maxSeq [] 0) (st_w s) with
  | (Ok ((_, Some e), c), w') => (Err e, set_w w' (sc_store c))
  | (Ok ((_, None), c), w') => (Ok (sc_commit c, sc_maxSeq c), set_w w' (sc_store c))
  | (Err e, w') => (Err e, set_w w' s)
  end.

(** The callback [recover] hands to [readHint]. *)
Definition hint_record (key : bytes) (e : entry) (flags : byte) (sm_ : store I * Z)
  : store I * Z :=
  let '(s, maxSeq) := sm_ in
  (applyRecovered key e (has_flag flags flagTombstone) s,
   if maxSeq <? e_seq e then e_seq e else maxSeq).

(** Replay the hint of [id] if there is one: whether it could be used, and the
    new [maxSeq]. *)
Definition tryHint (id maxSeq : Z) : sto I (bool * Z) :=
  exists_ <- io (hintExists id);;
  if negb exists_ then sm_ret (false, maxSeq)
  else fun s =>
    match readHint hint_record id (s, maxSeq) (st_w s) with
    | (Ok (r, (s', maxSeq')), w') => (Ok (is_ok r, maxSeq'), set_w w' s')
    | (Err e, w') => (Err e, set_w w' s)
    end.

Record rec_acc := mkRecAcc { ra_total : Z; ra_maxSeq : Z; ra_reuse : option Z }.

(** Open the file; the last one, if it was scanned, loses its torn tail. *)
Definition open_recovered (id : Z) (isLast scanned : bool) (commit : Z) : sto I datafile :=
  df <- io (openDataFile id isLast);;
  if isLast && negb scanned && (commit <? df_size df) then
    io (df_truncate df commit);;;
    io (df_sync df);;;
    sm_ret (df_set_size commit df)
  else sm_ret df.

(** The body of [recover]'s loop over the file ids. *)
Definition recover_file (id : Z) (isLast : bool) (a : rec_acc) : sto I rec_acc :=
  hint <- tryHint id (ra_maxSeq a);;
  let '(scanned, maxSeq) := hint in
  scan <- (if scanned then sm_ret (0, maxSeq) else scanIntoIndex id maxSeq);;
  let '(commit, maxSeq) := scan in
  df <- open_recovered id isLast scanned commit;;
  sm_modify (fun s => set_files ({[id]} ∪ st_files s) (put_df df s));;;
  sm_modify (fun s => if st_nextID s <=? id then set_nextID (u32 (id + 1)) s else s);;;
  s <- sm_get;;
  sm_ret (mkRecAcc (i64 (ra_total a + df_size df)) maxSeq
            (if isLast && negb scanned && (df_size df <? o_MaxFileSize (st_opts s))
             then Some id else ra_reuse a)).

Fixpoint recover_files (ids : list Z) (a : rec_acc) : sto I rec_acc :=
  match ids with
  | [] => sm_ret a
  | id :: ids' =>
      let isLast := match ids' with [] => true | _ => false end in
      a <- recover_file id isLast a;;
      recover_files ids' a
  end.

Definition recover : sto I unit :=
  m <- io readManifest;;
  sm_modify (set_mergeSeq m);;;
  ids <- io listDataFiles;;
  sm_ignore (io (removeOrphanHints ids));;;
  a <- recover_files ids (mkRecAcc 0 0 None);;
  sm_modify (set_seq (ra_maxSeq a));;;
  match ra_reuse a with
  | Some id => sm_modify (set_active (Some id))
  | None => openNewActive
  end;;;
  sm_modify (set_total (ra_total a));;;
  sm_modify recountLocked.

(** A store with nothing in it yet. *)
Definition newStore (opts : Options) (w : world) : store I :=
  mkStore opts idx_empty None 0 0 false ∅ ∅ ∅ 0 [] 0 0 0 (mkCounters 0 0 0 0 0) 0
    false false [] w.

(** [Open]: create the directory, lock it, recover; a failed recovery closes
    what it opened and gives the lock back. *)
Definition Open (opts : Options) (pid : Z) (w : world) : result error (store I) * world :=
  let opts := applyDefaults opts in
  if zlen (o_Dir opts) =? 0 then (Err ErrNoDir, w) else
  match (syscall (sm_ret tt);;; acquireLock pid) w with
  | (Err e, w') => (Err e, w')
  | (Ok _, w') =>
      match recover (newStore opts w') with
      | (Ok _, s) => (Ok s, st_w s)
      | (Err e, s) => (Err e, (releaseLock (st_w (closeFiles s))).2)
      end
  end.
End recovery_ops.

(** ** What a scan commits *)

(** A record that waits for the terminator of its batch. *)
Definition is_open (r : record) : bool :=
  has_flag (r_flags r) flagBatch && negb (has_flag (r_flags r) flagBatchEnd).

(** The records applied and the records staged after one more record. *)
Definition commit_step (st : list record * list record) (r : record) : list record * list record :=
  if has_flag (r_flags r) flagBatch then
    if has_flag (r_flags r) flagBatchEnd then (st.1 ++ st.2 ++ [r], [])
    else (st.1, st.2 ++ [r])
  else (st.1 ++ [r], st.2).

Definition commit_state (rs : list record) : list record * list record :=
  foldl commit_step ([], []) rs.

(** The records a scan of [rs] applies to the index. *)
Definition committed (rs : list record) : list record := (commit_state rs).1.

(** [rs] up to its last record that does not wait for a terminator: what is
    left of the last file after the torn tail has been cut off. *)
Fixpoint trim_open (rs : list record) : list record :=
  match rs with
  | [] => []
  | r :: rs' => match trim_open rs' with
                | [] => if is_open r then [] else [r]
                | t => r :: t
                end
  end.

Lemma commit_state_snoc rs r : commit_state (rs ++ [r]) = commit_step (commit_state rs) r.
Proof. unfold commit_state. by rewrite foldl_app. Qed.

Lemma trim_open_snoc rs r : trim_open (rs ++ [r]) = if is_open r then trim_open rs else rs ++ [r].
Proof.
  induction rs as [|r0 rs IH]; simpl; [done|]. rewrite IH. destruct (is_open r) eqn:E; [done|].
  by destruct rs.
Qed.

Lemma trim_open_prefix rs : trim_open rs `prefix_of` rs.
Proof.
  induction rs as [|r rs IH]; simpl; [done|]. destruct (trim_open rs) as [|r' t] eqn:E.
  - destruct (is_open r); [apply prefix_nil|]. apply prefix_cons, prefix_nil.
  - by apply prefix_cons.
Qed.

Section recovery.
Context {I : Type} `{KeyIndexSpec I}.
Implicit Types (s : store I) (L : logs) (M : newest).

(** ** Applying records *)

Lemma applyRecovered_frame k e tomb s :
  exists ix, applyRecovered k e tomb s = set_idx ix s.
Proof.
  unfold applyRecovered. destruct (idx_get k (st_idx s)); [destruct (_ <=? _)|]; eauto.
  exists (st_idx s). by destruct s.
Qed.

Lemma applyRecovered_inv k e r s L M :
  index_inv (st_idx s) L M -> locates L k (set_tomb (tombstone r) e) r ->
  index_inv (st_idx (applyRecovered k e (tombstone r) s)) L (absorb M r).
Proof.
  intros Hinv Hloc. pose proof (index_store_ok _ _ _ _ _ _ Hinv Hloc) as [Hst _].
  pose proof Hloc as (Hk & Hseq & _). cbn [set_tomb e_seq] in Hseq.
  unfold applyRecovered, absorb. rewrite Hk. pose proof Hinv as [Hwf Hv].
  rewrite (idx_get_ok _ k Hwf) in *. specialize (Hv k). cbn [set_tomb e_seq].
  destruct (idx_view (st_idx s) !! k) as [old|], (M !! k) as [ro|]; try done.
  destruct Hv as (_ & Ho & _). rewrite Ho, Hseq. by destruct (r_seq r <=? r_seq ro).
Qed.

(** A staged record and where it is. *)
Definition staged (L : logs) (p : bytes * entry * bool) (r : record) : Prop :=
  p.2 = tombstone r /\ locates L p.1.1 (set_tomb (tombstone r) p.1.2) r.

Lemma apply_staged_inv L ps rs : Forall2 (staged L) ps rs -> forall s M,
  index_inv (st_idx s) L M ->
  exists ix, apply_staged ps s = set_idx ix s /\ index_inv ix L (absorb_all M rs).
Proof.
  induction 1 as [|p r ps rs [Ht Hloc] _ IH]; intros s M Hinv.
  - exists (st_idx s). split; [by destruct s|done].
  - change (apply_staged (p :: ps) s) with (apply_staged ps (applyRecovered p.1.1 p.1.2 p.2 s)).
    rewrite Ht. destruct (applyRecovered_frame p.1.1 p.1.2 (tombstone r) s) as [ix Hix].
    destruct (IH (applyRecovered p.1.1 p.1.2 (tombstone r) s) (absorb M r)) as (ix' & Heq & Hinv').
    { by apply applyRecovered_inv. }
    exists ix'. split; [|done]. by rewrite Heq, Hix.
Qed.

Lemma index_inv_grows ix L L' M : grows L L' -> index_inv ix L M -> index_inv ix L' M.
Proof.
  intros Hg [Hwf Hv]. split; [done|]. intros k. specialize (Hv k).
  destruct (idx_view ix !! k), (M !! k); try done. by eapply locates_grows.
Qed.

Lemma grows_insert L id rs rs' : rs `prefix_of` rs' -> grows (<[id := rs]> L) (<[id := rs']> L).
Proof.
  intros [tl ->] id' rs0 HL. destruct (decide (id' = id)) as [->|Hne].
  - rewrite lookup_insert_eq in *. injection HL as <-. by exists tl.
  - rewrite lookup_insert_ne in * by done. exists []. by rewrite app_nil_r.
Qed.

(** ** Scanning one file *)

Lemma scan_entry_locates L id pre r :
  valid_record r ->
  locates (<[id := pre ++ [r]]> L) (r_key r)
    (set_tomb (tombstone r) {| e_pos := log_size pre; e_seq := r_seq r; e_fileID := id;
       e_size := u32 (zlen (encode r)); e_tomb := false |}) r.
Proof.
  intros Hr. split; [done|]. split; [done|]. split; [done|]. split.
  - simpl. apply u32_small. pose proof (valid_sizes r Hr). unfold is_u32. rewrite zlen_encode. lia.
  - exists pre, []. simpl. by rewrite lookup_insert_eq.
Qed.

(** The state of a scan that has visited [pre]: what is applied is located in
    the part of the file that will be kept. *)
Definition scan_inv (s0 : store I) (m0 : Z) L (id : Z) M (pre : list record) (c : scan_state) : Prop :=
  (exists ix, sc_store c = set_idx ix s0) /\
  index_inv (st_idx (sc_store c)) (<[id := trim_open pre]> L) (absorb_all M (committed pre)) /\
  Forall2 (staged (<[id := pre]> L)) (sc_pending c) (commit_state pre).2 /\
  sc_commit c = log_size (trim_open pre) /\ sc_maxSeq c = max_seq m0 pre.

Lemma scan_record_inv s0 m0 L id M pre c r :
  valid_record r -> scan_inv s0 m0 L id M pre c ->
  scan_inv s0 m0 L id M (pre ++ [r]) (scan_record id (log_size pre) (encode r) r c).
Proof.
  intros Hr ((ix & Hs) & Hix & Hpend & Hcom & Hmax).
  assert (Hu : u32 (zlen (encode r)) = zlen (encode r)).
  { apply u32_small. pose proof (valid_sizes r Hr). unfold is_u32. rewrite zlen_encode. lia. }
  assert (Hmax' : (if sc_maxSeq c <? r_seq r then r_seq r else sc_maxSeq c) = max_seq m0 (pre ++ [r])).
  { unfold max_seq in *. rewrite foldl_app. simpl. by rewrite Hmax. }
  assert (Hend : log_size pre + u32 (zlen (encode r)) = log_size (pre ++ [r])).
  { rewrite Hu, log_size_app. f_equal. unfold log_size. rewrite encode_all_cons, zlen_app.
    unfold encode_all. simpl. rewrite zlen_nil. lia. }
  pose proof (scan_entry_locates L id pre r Hr) as Hloc.
  assert (Hix1 : index_inv (st_idx (sc_store c)) (<[id := pre ++ [r]]> L) (absorb_all M (committed pre))).
  { eapply index_inv_grows; [|exact Hix]. apply grows_insert.
    etrans; [apply trim_open_prefix|by exists [r]]. }
  assert (Hpend1 : Forall2 (staged (<[id := pre ++ [r]]> L)) (sc_pending c) (commit_state pre).2).
  { eapply Forall2_impl; [exact Hpend|]. intros p r' [Ht Hl]. split; [done|].
    eapply locates_grows; [|done]. apply grows_insert. by exists [r]. }
  set (e := mkEntry (log_size pre) (r_seq r) id (u32 (zlen (encode r))) false) in *.
  assert (Hpend2 : Forall2 (staged (<[id := pre ++ [r]]> L))
    (sc_pending c ++ [(r_key r, e, tombstone r)]) ((commit_state pre).2 ++ [r])).
  { apply Forall2_app; [done|]. constructor; [done|constructor]. }
  unfold scan_record, scan_inv, committed, trim_open in *. fold trim_open in *.
  rewrite commit_state_snoc, trim_open_snoc, Hmax', Hend. fold e. unfold commit_step, is_open.
  destruct (has_flag (r_flags r) flagBatch); [destruct (has_flag (r_flags r) flagBatchEnd)|]; simpl.
  - destruct (apply_staged_inv _ _ _ Hpend2 (sc_store c) _ Hix1) as (ix' & Heq & Hix').
    rewrite Heq. split; [exists ix'; by rewrite Hs|]. split; [by rewrite absorb_all_app|]. done.
  - split; [by exists ix|]. done.
  - destruct (applyRecovered_frame (r_key r) e (tombstone r) (sc_store c)) as [ix' Heq].
    split; [exists ix'; by rewrite Heq, Hs|]. split; [|done].
    rewrite absorb_all_app. by apply applyRecovered_inv.
Qed.

Definition scan_cb (id pos : Z) (raw : bytes) (r : record) : sm (scan_state (I := I) * world) error unit :=
  fun tw => (Ok tt, (scan_record id pos raw r tw.1, tw.2)).

Lemma visit_scan_inv s0 m0 L id M w rs :
  Forall valid_record rs -> index_inv (st_idx s0) L M -> L !! id = None ->
  exists c, visit (scan_cb id) 0 rs (mkScanState s0 m0 [] 0, w) = ((log_size rs, None), (c, w)) /\
    scan_inv s0 m0 L id M rs c.
Proof.
  intros Hv Hix HL. induction rs as [|r rs IH] using rev_ind.
  - exists (mkScanState s0 m0 [] 0). split; [done|]. split; [exists (st_idx s0); by destruct s0|].
    split; [|done]. simpl. eapply index_inv_grows; [by apply grows_new|done].
  - apply Forall_app in Hv as [Hv Hr]. apply Forall_cons in Hr as [Hr _].
    destruct (IH Hv) as (c & Hvis & Hc). rewrite visit_app, Hvis. simpl.
    exists (scan_record id (log_size rs) (encode r) r c).
    split; [|by apply scan_record_inv]. do 3 f_equal.
    rewrite log_size_app. f_equal. unfold log_size. rewrite encode_all_cons, zlen_app.
    unfold encode_all. simpl. rewrite zlen_nil. lia.
Qed.

(** What recovering one file establishes of the index; [kept] is the part of
    the file's log that stays, [applied] the records that took effect. *)
Definition indexed_file s L M (id : Z) (kept applied : list record) s' : Prop :=
  exists ix w', s' = set_w w' (set_idx ix s) /\ advance (st_w s) w' /\
    index_inv ix (<[id := kept]> L) (absorb_all M applied).

Lemma scanIntoIndex_wp id m0 s L M f rs :
  w_faults (st_w s) = [] -> w_fs (st_w s) !! dataPath id = Some f -> log_file f rs ->
  index_inv (st_idx s) L M -> L !! id = None ->
  wp (scanIntoIndex id m0)
    (fun out s' => out = (log_size (trim_open rs), max_seq m0 rs) /\
       indexed_file s L M id (trim_open rs) (committed rs) s')
    (fun _ _ => False) s.
Proof.
  intros Hno Hf Hlog Hix HL. pose proof Hlog as (_ & _ & _ & Hv).
  pose proof (scanDataFile_wp id (scan_cb id) (mkScanState s m0 [] 0) (st_w s) f rs Hf Hlog) as Hscan.
  unfold wp in *. unfold scanIntoIndex. fold (scan_cb id).
  destruct (scanDataFile id (scan_cb id) _ _) as [[out|e] w']; [|done].
  destruct Hscan as (w1 & Hw1 & [(e & _ & _ & ?)|(rs' & _ & Hall & Hvis)]); [done|].
  rewrite (Hall Hno) in Hvis. destruct (visit_scan_inv s m0 L id M w1 rs Hv Hix HL) as (c & Hvis' & Hc).
  rewrite Hvis' in Hvis. destruct out as [[p o] c']. simpl in Hvis. injection Hvis as <- <- <- <-.
  destruct Hc as ((ix & Hs) & Hix' & _ & -> & ->). split; [done|].
  exists ix, w1. rewrite Hs in *. done.
Qed.

(** ** Replaying a hint *)

Lemma placed_snoc pos rs r :
  placed pos (rs ++ [r]) = placed pos rs ++ [(pos + log_size rs, r)].
Proof.
  revert pos. induction rs as [|r0 rs IH]; intros pos; simpl.
  - unfold log_size, encode_all. simpl. by rewrite zlen_nil, Z.add_0_r.
  - rewrite IH. unfold log_size. rewrite encode_all_cons, zlen_app.
    by rewrite Z.add_assoc.
Qed.

Lemma replay_inv s0 m0 L id M rs :
  Forall valid_record rs -> index_inv (st_idx s0) L M -> L !! id = None ->
  exists ix, replay hint_record id (placed 0 rs) (s0, m0) = (set_idx ix s0, max_seq m0 rs) /\
    index_inv ix (<[id := rs]> L) (absorb_all M rs).
Proof.
  intros Hv Hix HL. induction rs as [|r rs IH] using rev_ind.
  - exists (st_idx s0). split; [by destruct s0|]. eapply index_inv_grows; [by apply grows_new|done].
  - apply Forall_app in Hv as [Hv Hr]. apply Forall_cons in Hr as [Hr _].
    destruct (IH Hv) as (ix & Hrep & Hix'). rewrite placed_snoc. unfold replay in *.
    rewrite foldl_app, Hrep. cbn [foldl hint_record fst snd].
    change (has_flag (r_flags r) flagTombstone) with (tombstone r).
    assert (Hloc := scan_entry_locates L id rs r Hr).
    assert (Hix2 : index_inv ix (<[id := rs ++ [r]]> L) (absorb_all M rs)).
    { eapply index_inv_grows; [|exact Hix']. apply grows_insert. by exists [r]. }
    pose proof (applyRecovered_inv (r_key r) (hint_entry id (0 + log_size rs, r)) r (set_idx ix s0)
      (<[id := rs ++ [r]]> L) (absorb_all M rs) Hix2 Hloc) as Hfin.
    destruct (applyRecovered_frame (r_key r) (hint_entry id (0 + log_size rs, r)) (tombstone r)
      (set_idx ix s0)) as [ix' Heq].
    rewrite Heq in *. exists ix'. split; [|by rewrite absorb_all_app].
    f_equal. unfold max_seq. by rewrite foldl_app.
Qed.

(** A hint, if there is one, lists the records of its data file. *)
Definition hint_ok (fs : gmap bytes file) (id : Z) (rs : list record) : Prop :=
  forall f, fs !! hintPath id = Some f -> f_data f = hint_of id rs /\ log_size rs < 2 ^ 63.
Definition has_hint (fs : gmap bytes file) (id : Z) : bool := bool_decide (is_Some (fs !! hintPath id)).

Lemma tryHint_wp id m0 s L M rs :
  w_faults (st_w s) = [] -> Forall valid_record rs -> hint_ok (w_fs (st_w s)) id rs ->
  index_inv (st_idx s) L M -> L !! id = None ->
  wp (tryHint id m0)
    (fun out s' => out = (has_hint (w_fs (st_w s)) id,
                          if has_hint (w_fs (st_w s)) id then max_seq m0 rs else m0) /\
       (if has_hint (w_fs (st_w s)) id then indexed_file s L M id rs rs s' else
        exists w', s' = set_w w' s /\ advance (st_w s) w'))
    (fun _ _ => False) s.
Proof.
  intros Hno Hv Hh Hix HL. unfold tryHint, has_hint. apply wp_bind, wp_io.
  unfold wp, hintExists, fs_stat_size, syscall, sm_bind, next_fault. rewrite Hno.
  unfold lookup_file. destruct (w_fs (st_w s) !! hintPath id) as [f|] eqn:Ef.
  2:{ rewrite bool_decide_false by (by intros [? ?]). simpl. split; [done|].
      exists (st_w s). split; [done|apply to_fs_self]. }
  rewrite bool_decide_true by eauto. cbn [sm_ret negb].
  unfold readHint, fs_open, fs_read_stream, syscall, sm_bind, next_fault, lookup_file.
  cbn [set_w st_w]. rewrite Hno, Ef. cbn [sm_ret]. rewrite Ef, Hno.
  destruct (Hh f Ef) as [-> Hlen].
  replace (set_w (st_w s) s) with s by (by destruct s).
  unfold sm_ret. rewrite hint_parse_of by done.
  destruct (replay_inv s m0 L id M rs Hv Hix HL) as (ix & -> & Hix'). cbn [is_ok].
  split; [done|]. exists ix, (st_w s). split; [done|]. split; [apply to_fs_self|done].
Qed.

(** ** Recovering one file *)

(** The store while its files are being loaded; [all] is every record seen. *)
Record loading s L M (a : rec_acc) (all : list record) : Prop := {
  ld_index : index_inv (st_idx s) L M;
  ld_files : files_inv (st_dfs s) (w_fs (st_w s)) L;
  ld_dom : dom L = st_files s;
  ld_next : (0 <= st_nextID s /\ st_nextID s + 1 < 2 ^ 32) /\ forall id rs, L !! id = Some rs -> id < st_nextID s;
  ld_faults : w_faults (st_w s) = [];
  ld_total : ra_total a = i64 (map_sum df_size (open_dfs s));
  ld_max : ra_maxSeq a = max_seq 0 all
}.

(** Loading changes the index, the directory and the set of files only. *)
Definition only_load s s' : Prop :=
  exists ix w D F n, s' = set_nextID n (set_files F (set_dfs D (set_w w (set_idx ix s)))).

Lemma only_load_refl s : only_load s s.
Proof. exists (st_idx s), (st_w s), (st_dfs s), (st_files s), (st_nextID s). by destruct s. Qed.
Lemma only_load_trans s s1 s2 : only_load s s1 -> only_load s1 s2 -> only_load s s2.
Proof.
  intros (? & ? & ? & ? & ? & ->) (ix & w & D & F & n & ->). by exists ix, w, D, F, n.
Qed.

(** What is kept of a file's log, and what of it takes effect. *)
Definition kept (hint isLast : bool) (rs : list record) : list record :=
  if negb hint && isLast then trim_open rs else rs.
Definition applied (hint : bool) (rs : list record) : list record :=
  if hint then rs else committed rs.

Lemma kept_prefix hint isLast rs : kept hint isLast rs `prefix_of` rs.
Proof. unfold kept. destruct (_ && _); [apply trim_open_prefix|done]. Qed.

Lemma prefix_log_size rs' rs : rs' `prefix_of` rs -> log_size rs' <= log_size rs.
Proof. intros [tl ->]. rewrite log_size_app. pose proof (log_size_nonneg tl). lia. Qed.

Lemma prefix_encode rs' rs : rs' `prefix_of` rs -> encode_all rs' `prefix_of` encode_all rs.
Proof. intros [tl ->]. rewrite encode_all_app. by apply prefix_app_r. Qed.

(** Cutting off the torn tail leaves exactly the kept records. *)
Lemma truncate_kept f rs : log_file f rs ->
  take (Z.to_nat (log_size (trim_open rs))) (f_data f) = encode_all (trim_open rs).
Proof.
  intros (tail & -> & _ & _). destruct (prefix_encode _ _ (trim_open_prefix rs)) as [tl ->].
  rewrite <- app_assoc. apply take_app_length'. unfold log_size. by rewrite zlen_to_nat.
Qed.

(** What becomes of the file itself: the last one, when it was scanned, holds
    exactly the records that are kept, on stable storage if it was there. *)
Definition mended_file (mend : bool) (f : file) (rs : list record) (f' : file) : Prop :=
  if mend then f_data f' = encode_all (trim_open rs) /\
    (f_synced f = zlen (f_data f) -> f_synced f' = zlen (f_data f'))
  else f' = f.

Lemma log_size_zero rs : log_size rs <= 0 -> rs = [].
Proof.
  destruct rs as [|r rs]; [done|]. unfold log_size. rewrite zlen_encode_all_cons.
  pose proof (zlen_encode_pos r). pose proof (zlen_nonneg (encode_all rs)). lia.
Qed.

(** Nothing to cut off: the file was whole. *)
Lemma whole_file f rs : log_file f rs -> zlen (f_data f) <= log_size (trim_open rs) ->
  f_data f = encode_all (trim_open rs).
Proof.
  intros (tail & Hd & _ & _) Hle. destruct (trim_open_prefix rs) as [t Ht].
  rewrite Hd, zlen_app in Hle. fold (log_size rs) in Hle. rewrite Ht in Hle at 1.
  rewrite log_size_app in Hle. pose proof (zlen_nonneg tail). pose proof (log_size_nonneg t).
  rewrite (log_size_zero t) in Ht by lia. rewrite app_nil_r in Ht.
  assert (zlen tail = 0) as Hz%zlen_0_inv by lia. by rewrite Hd, Hz, app_nil_r, <- Ht.
Qed.

(** Opening the file and, for the last one, cutting its tail off. *)
Lemma open_file_wp id isLast hint commit s f rs :
  w_faults (st_w s) = [] -> w_fs (st_w s) !! dataPath id = Some f -> log_file f rs ->
  (hint = false -> commit = log_size (trim_open rs)) ->
  wp (open_recovered id isLast hint commit)
    (fun df s' => exists w' f', s' = set_w w' s /\ w_faults w' = [] /\
       w_fs w' = <[dataPath id := f']> (w_fs (st_w s)) /\
       encode_all (kept hint isLast rs) `prefix_of` f_data f' /\
       df_id df = id /\ df_open df = true /\ df_write df = isLast /\
       (isLast && negb hint = true -> df_size df = log_size (kept hint isLast rs)) /\
       mended_file (isLast && negb hint) f rs f')
    (fun _ _ => False) s.
Proof.
  intros Hno Hf Hlog Hcom. pose proof Hlog as (tail & Hdata & _ & Hv).
  apply wp_bind, wp_io. unfold openDataFile. apply wp_bind.
  eapply wp_fs_open; [by intros|done|]. intros w1 Hw1. apply wp_bind.
  assert (Hno1 : w_faults w1 = []) by (by apply Hw1).
  assert (Hf1 : w_fs w1 !! dataPath id = Some f) by (by rewrite (proj1 Hw1)).
  eapply wp_fs_stat_size; [by intros|done|]. intros w2 Hw2. apply wp_ret. cbn [df_size].
  assert (Hno2 : w_faults w2 = []) by (by apply Hw2).
  assert (Hfs2 : w_fs w2 = w_fs (st_w s)) by (by rewrite (proj1 Hw2), (proj1 Hw1)).
  pose proof (zlen_nonneg tail). pose proof (prefix_log_size _ _ (trim_open_prefix rs)) as Hle.
  assert (Hlen : zlen (f_data f) = log_size rs + zlen tail) by (by rewrite Hdata, zlen_app).
  destruct (isLast && negb hint && (commit <? zlen (f_data f))) eqn:Ec.
  - apply andb_prop in Ec as [Ec _]. apply andb_prop in Ec as [-> ->%negb_true_iff].
    rewrite (Hcom eq_refl) in *. apply wp_bind, wp_io. cbn [df_truncate df_open df_write df_guard andb].
    eapply wp_fs_truncate; [by intros|simpl; rewrite Hfs2; exact Hf|]. intros w3 Hw3.
    assert (Hno3 : w_faults w3 = []) by (by apply Hw3). simpl in Hw3.
    apply wp_bind, wp_io. cbn [df_sync df_open df_guard df_id set_w st_w].
    eapply wp_fs_sync; [by intros|rewrite (proj1 Hw3); apply lookup_insert_eq|]. intros w4 Hw4.
    apply wp_ret. exists w4. eexists. split; [done|]. split; [by apply Hw4|].
    rewrite (proj1 Hw4), (proj1 Hw3), insert_insert_eq, Hfs2. split; [done|]. simpl.
    rewrite (truncate_kept f rs Hlog). do 5 (split; [done|]). split; done.
  - apply wp_ret. exists w2, f. split; [done|]. split; [done|].
    rewrite Hfs2, insert_id by done. split; [done|]. split.
    { rewrite Hdata. apply prefix_app_r, prefix_encode, kept_prefix. }
    do 3 (split; [done|]). unfold mended_file. destruct (isLast && negb hint) eqn:Em; [|done].
    apply andb_prop in Em as [-> ->%negb_true_iff]. simpl in Ec. reflect_bools.
    rewrite (Hcom eq_refl) in Ec. unfold kept. simpl. split; [lia|]. split; [|done].
    apply whole_file; [done|lia].
Qed.

(** The file joins the open files. *)
Lemma add_recovered s L M a all id isLast h rs d w' f' ix :
  loading s L M a all -> L !! id = None -> 0 <= id -> id + 2 < 2 ^ 32 ->
  Forall valid_record rs ->
  w_fs w' = <[dataPath id := f']> (w_fs (st_w s)) -> w_faults w' = [] ->
  is_Some (w_fs (st_w s) !! dataPath id) ->
  encode_all (kept h isLast rs) `prefix_of` f_data f' -> df_id d = id -> df_open d = true ->
  index_inv ix (<[id := kept h isLast rs]> L) (absorb_all M (applied h rs)) ->
  let s1 := set_files ({[id]} ∪ st_files s) (put_df d (set_w w' (set_idx ix s))) in
  let s' := if st_nextID s1 <=? id then set_nextID (u32 (id + 1)) s1 else s1 in
  forall reuse,
  loading s' (<[id := kept h isLast rs]> L) (absorb_all M (applied h rs))
    (mkRecAcc (i64 (ra_total a + df_size d)) (max_seq (ra_maxSeq a) rs) reuse) (all ++ rs) /\
  only_load s s' /\ st_dfs s' = <[id := d]> (st_dfs s) /\ st_w s' = w'.
Proof.
  intros [Hix Hfiles Hdom [Hu32 Hnext] Hno Htot Hmax] HL Hid0 Hid Hv Hfs Hno' Hex Hpre Hdid Hdo Hix' s1 s' reuse.
  assert (Hidu : is_u32 id) by (unfold is_u32; lia).
  assert (Hs' : s' = set_nextID (if st_nextID s <=? id then id + 1 else st_nextID s) s1).
  { unfold s'. change (st_nextID s1) with (st_nextID s).
    destruct (st_nextID s <=? id); [by rewrite u32_small by (unfold is_u32; lia)|by destruct s]. }
  assert (Hnid : id ∉ st_files s) by (rewrite <- Hdom; by apply not_elem_of_dom).
  rewrite Hs'. clear Hs' s'. unfold s1. clear s1. split; [|split; [|split]].
  - split; simpl; try done.
    + intros id' rs' HL'. rewrite Hfs. destruct (decide (id' = id)) as [->|Hne].
      * rewrite lookup_insert_eq in HL'. injection HL' as <-.
        split; [done|]. split; [by eapply prefix_valid; [apply kept_prefix|]|].
        exists d, f'. rewrite Hdid, !lookup_insert_eq. done.
      * rewrite lookup_insert_ne in HL' by done.
        destruct (Hfiles _ _ HL') as (Hid' & ? & d0 & f0 & ?). split; [done|]. split; [done|].
        exists d0, f0. rewrite Hdid, !lookup_insert_ne; [done| |done].
        intros Heq. apply Hne. symmetry. by apply dataPath_inj.
    + rewrite dom_insert_L, Hdom. done.
    + split; [destruct (Z.leb_spec (st_nextID s) id); lia|].
      intros id' rs' HL'. destruct (decide (id' = id)) as [->|Hne].
      * destruct (Z.leb_spec (st_nextID s) id); lia.
      * rewrite lookup_insert_ne in HL' by done. apply Hnext in HL'.
        destruct (Z.leb_spec (st_nextID s) id); lia.
    + rewrite Htot, i64_add. f_equal. unfold open_dfs. simpl. rewrite Hdid.
      rewrite map_filter_insert_True by (simpl; set_solver).
      rewrite <- insert_delete_eq, map_sum_insert by apply lookup_delete_eq.
      rewrite Z.add_comm. do 2 f_equal. apply map_eq. intros i.
      destruct (decide (i = id)) as [->|Hne].
      { rewrite lookup_delete_eq. apply map_lookup_filter_None. right. simpl. by intros ? _. }
      rewrite lookup_delete_ne by done. apply option_eq. intros d0.
      rewrite !map_lookup_filter_Some. simpl. set_solver.
    + unfold max_seq in *. by rewrite Hmax, foldl_app.
  - by eexists _, _, _, _, _.
  - simpl. by rewrite Hdid.
  - done.
Qed.

Lemma recover_file_wp id isLast a all s L M f rs :
  loading s L M a all -> w_fs (st_w s) !! dataPath id = Some f -> log_file f rs ->
  hint_ok (w_fs (st_w s)) id rs -> L !! id = None -> 0 <= id -> id + 2 < 2 ^ 32 ->
  let h := has_hint (w_fs (st_w s)) id in
  wp (recover_file id isLast a)
    (fun a' s' => loading s' (<[id := kept h isLast rs]> L) (absorb_all M (applied h rs)) a' (all ++ rs) /\
       only_load s s' /\ (exists f', w_fs (st_w s') = <[dataPath id := f']> (w_fs (st_w s)) /\
         mended_file (isLast && negb h) f rs f') /\
       (ra_reuse a' = ra_reuse a \/
        isLast = true /\ h = false /\ ra_reuse a' = Some id /\
        log_size (kept h isLast rs) < o_MaxFileSize (st_opts s) /\
        exists d, st_dfs s' !! id = Some d /\ df_write d = true /\
          df_size d = log_size (kept h isLast rs)))
    (fun _ _ => False) s.
Proof.
  intros Hld Hf Hlog Hh HL Hid0 Hid h. pose proof Hld as [Hix _ _ _ Hno _ _].
  pose proof Hlog as (_ & _ & _ & Hv).
  unfold recover_file. apply wp_bind. eapply wp_mono; [by apply (tryHint_wp id _ s L M rs)| |done].
  fold h. intros out s1 [-> Hs1].
  (* the index after the hint or the scan *)
  apply wp_bind. apply (wp_mono _ (fun out s2 => (h = false -> out.1 = log_size (trim_open rs)) /\
    out.2 = max_seq (ra_maxSeq a) rs /\
    indexed_file s L M id (kept h isLast rs) (applied h rs) s2) _ (fun _ _ => False) _); [|..|done].
  { destruct h.
    - apply wp_ret. split; [done|]. split; [done|]. exact Hs1.
    - destruct Hs1 as (w1 & -> & Hw1).
      eapply wp_mono; [apply (scanIntoIndex_wp id _ (set_w w1 s) L M f rs); try done| |done].
      + by apply Hw1.
      + simpl. by rewrite (proj1 Hw1).
      + intros out s2 (-> & ix & w2 & -> & Hw2 & Hix2). split; [done|]. split; [done|].
        exists ix, w2. split; [done|]. split.
        { unfold advance in *. simpl in Hw2. rewrite (proj1 Hw1) in Hw2. by eapply to_fs_trans. }
        eapply index_inv_grows; [|exact Hix2]. apply grows_insert. unfold kept.
        destruct isLast; [done|apply trim_open_prefix]. }
  intros [commit maxSeq] s2 (Hcom & Hmax & ix & w2 & -> & Hw2 & Hix2). cbn [fst snd] in *.
  apply wp_bind. eapply wp_mono; [apply (open_file_wp id isLast h commit _ f rs)| |done].
  { by apply Hw2. }
  { simpl. by rewrite (proj1 Hw2). }
  { done. }
  { done. }
  intros d s3 (w3 & f3 & -> & Hno3 & Hfs3 & Hpre & Hdid & Hdo & Hdw & Hdsz & Hmend).
  simpl in Hfs3. rewrite (proj1 Hw2) in Hfs3.
  apply wp_bind, wp_modify, wp_bind, wp_modify, wp_bind, wp_get, wp_ret. subst maxSeq.
  set (reuse := if isLast && negb h && _ then Some id else ra_reuse a).
  destruct (add_recovered s L M a all id isLast h rs d w3 f3 ix Hld HL Hid0 Hid Hv Hfs3 Hno3
    ltac:(eauto) Hpre Hdid Hdo Hix2 reuse) as (Hld' & Hol & Hdfs & Hst).
  split; [exact Hld'|]. split; [exact Hol|]. split; [exists f3; split; [exact (eq_trans (f_equal w_fs Hst) Hfs3)|done]|].
  cbn [ra_reuse]. unfold reuse. destruct (isLast && negb h) eqn:Eh; [|by left]. cbn [andb].
  match goal with |- context [df_size d <? ?x] => destruct (Z.ltb_spec (df_size d) x) as [Hlt|] end;
    [right|by left].
  split; [by apply andb_prop in Eh as [-> _]|]. split; [by apply andb_prop in Eh as [_ Eh%negb_true_iff]|].
  split; [done|]. split.
  { rewrite <- Hdsz by done. eapply Z.lt_le_trans; [exact Hlt|].
    change (st_opts s) with (st_opts (set_idx ix s)). by case_goal. }
  exists d.
  split; [exact (eq_trans (f_equal (lookup id) Hdfs) (lookup_insert_eq _ _ _))|].
  apply andb_prop in Eh as [-> Eh]. split; [done|]. by apply Hdsz.
Qed.

(** ** Recovering all files *)

(** A data file of the directory with its log and, if there is one, its hint. *)
Definition disk_file (fs : gmap bytes file) (id : Z) (rs : list record) : Prop :=
  0 <= id /\ id + 2 < 2 ^ 32 /\ hint_ok fs id rs /\
  exists f, fs !! dataPath id = Some f /\ log_file f rs.

(** The records a recovery of the files [ids] lets take effect, in order. *)
Definition recovered (fs : gmap bytes file) (D : logs) (ids : list Z) : list record :=
  mjoin ((fun id => applied (has_hint fs id) (log_of D id)) <$> ids).

Lemma disk_file_other fs id id' rs' f : is_u32 id -> id' <> id ->
  disk_file fs id' rs' ->
  disk_file (<[dataPath id := f]> fs) id' rs' /\ has_hint (<[dataPath id := f]> fs) id' = has_hint fs id'.
Proof.
  intros Hid Hne (H1 & H2 & Hh & f' & Hf & Hlog).
  assert (Hne' : dataPath id <> dataPath id').
  { intros Heq. apply Hne. symmetry. apply dataPath_inj; [done|unfold is_u32; lia|done]. }
  unfold disk_file, hint_ok, has_hint.
  rewrite !(lookup_insert_ne _ (dataPath id) (hintPath id')) by apply dataPath_hintPath.
  rewrite lookup_insert_ne by done. eauto 10.
Qed.

Definition reuse_ok s L (a : rec_acc) : Prop :=
  match ra_reuse a with
  | None => True
  | Some id => exists d rs, L !! id = Some rs /\ st_dfs s !! id = Some d /\
                 df_write d = true /\ df_size d = log_size rs
  end.

(** The directory and the logs after the files [ids] have been loaded: only the
    last file may have changed, and only if it had no hint. *)
Record loaded (fs : gmap bytes file) (D : logs) (ids : list Z) (max : Z)
  (fs' : gmap bytes file) L (a : rec_acc) : Prop := {
  lo_same : forall name,
    (forall id, last ids = Some id -> has_hint fs id = false -> name <> dataPath id) ->
    fs' !! name = fs !! name;
  lo_last : forall id, last ids = Some id -> has_hint fs id = false ->
    exists f f', fs !! dataPath id = Some f /\ fs' !! dataPath id = Some f' /\
      mended_file true f (log_of D id) f';
  lo_logs : forall id, id ∈ ids ->
    L !! id = Some (kept (has_hint fs id) (bool_decide (last ids = Some id)) (log_of D id));
  lo_reuse : forall id, ra_reuse a = Some id ->
    last ids = Some id /\ has_hint fs id = false /\ log_size (log_of L id) < max
}.

Lemma recover_files_wp D ids : forall s L M a all,
  loading s L M a all -> ra_reuse a = None -> NoDup ids ->
  (forall id, id ∈ ids -> L !! id = None /\ is_Some (D !! id) /\
     disk_file (w_fs (st_w s)) id (log_of D id)) ->
  wp (recover_files ids a)
    (fun a' s' => exists L',
       loading s' L' (absorb_all M (recovered (w_fs (st_w s)) D ids)) a' (all ++ mjoin (log_of D <$> ids)) /\
       only_load s s' /\ dom L' = list_to_set ids ∪ dom L /\
       dom (w_fs (st_w s')) = dom (w_fs (st_w s)) /\ reuse_ok s' L' a' /\
       (forall id, id ∉ ids -> L' !! id = L !! id) /\
       loaded (w_fs (st_w s)) D ids (o_MaxFileSize (st_opts s)) (w_fs (st_w s')) L' a')
    (fun _ _ => False) s.
Proof.
  induction ids as [|id ids IH]; intros s L M a all Hld Hre Hnd Hids.
  { apply wp_ret. exists L. rewrite app_nil_r. split; [done|]. split; [apply only_load_refl|].
    split; [set_solver|]. split; [done|]. split; [unfold reuse_ok; by rewrite Hre|]. split; [done|].
    split; [done|done| |by rewrite Hre]. by intros ? ?%not_elem_of_nil. }
  apply NoDup_cons in Hnd as [Hni Hnd].
  destruct (Hids id ltac:(set_solver)) as (HL & _ & Hd0 & Hd1 & Hh & f & Hf & Hlog).
  cbn [recover_files]. apply wp_bind.
  eapply wp_mono; [apply (recover_file_wp id _ a all s L M f (log_of D id)); try done; lia| |done].
  set (isLast := match ids with [] => true | _ => false end).
  set (h := has_hint (w_fs (st_w s)) id).
  intros a1 s1 (Hld1 & Hol1 & (f1 & Hfs1 & Hmend) & Hre1).
  destruct ids as [|id2 ids'].
  { apply wp_ret. exists (<[id := kept h isLast (log_of D id)]> L).
    unfold recovered. cbn [fmap list_fmap mjoin list_join]. rewrite !app_nil_r.
    split; [exact Hld1|]. split; [done|]. split; [rewrite dom_insert_L; set_solver|].
    split; [rewrite Hfs1; apply dom_insert_lookup_L; eauto|]. split; [|split].
    - unfold reuse_ok. destruct Hre1 as [->|(_ & _ & -> & _ & d & Hd & Hw & Hsz)]; [by rewrite Hre|].
      eexists d, _. rewrite lookup_insert_eq. done.
    - intros id' Hid'. rewrite lookup_insert_ne; [done|]. intros ->. apply Hid'. by left.
    - fold h in Hmend. split.
      + intros name Hn. rewrite Hfs1. destruct h eqn:Eh.
        * simpl in Hmend. rewrite Hmend. by rewrite insert_id.
        * rewrite lookup_insert_ne; [done|]. apply not_eq_sym. by apply Hn.
      + intros id' [= <-] Hh'. fold h in Hh'. rewrite Hh' in Hmend. exists f, f1.
        split; [done|]. split; [|done]. rewrite Hfs1. apply lookup_insert_eq.
      + intros id' ->%list_elem_of_singleton. fold h. rewrite lookup_insert_eq.
        by rewrite bool_decide_true.
      + intros id' Hr'. destruct Hre1 as [Hn|(_ & Hh' & Hs & Hlt & _)]; [congruence|].
        rewrite Hs in Hr'. injection Hr' as <-. split; [done|]. split; [done|].
        unfold log_of at 1. rewrite lookup_insert_eq. done. }
  (* a file that is not the last is left as it was *)
  simpl in Hmend. assert (Hfs : w_fs (st_w s1) = w_fs (st_w s)) by (rewrite Hfs1, Hmend; by apply insert_id).
  clear f1 Hfs1 Hmend. destruct Hre1 as [Hre1|(? & _)]; [|done]. rewrite Hre in Hre1.
  eapply wp_mono; [apply (IH s1 _ _ _ _ Hld1 Hre1 Hnd)| |done].
  { intros id' Hin. destruct (Hids id' ltac:(set_solver)) as (HL' & HD' & Hdisk).
    assert (Hne : id' <> id) by (intros ->; done). rewrite lookup_insert_ne by done. by rewrite Hfs. }
  intros a2 s2 (L2 & Hld2 & Hol2 & HdomL & Hdom2 & Hre2 & Hoth & [Hlo1 Hlo2 Hlo3 Hlo4]). exists L2.
  rewrite Hfs in *. assert (Ho : st_opts s1 = st_opts s)
    by (destruct Hol1 as (? & ? & ? & ? & ? & ->); done). rewrite Ho in Hlo4.
  assert (Hrec : recovered (w_fs (st_w s)) D (id :: id2 :: ids') =
    applied h (log_of D id) ++ recovered (w_fs (st_w s)) D (id2 :: ids')) by done.
  rewrite Hrec, absorb_all_app. rewrite fmap_cons. cbn [mjoin list_join]. rewrite app_assoc.
  split; [exact Hld2|]. split; [by eapply only_load_trans|].
  split; [rewrite HdomL, dom_insert_L; set_solver|]. split; [done|]. split; [done|]. split.
  - intros id' Hn. apply not_elem_of_cons in Hn as [Hn1 Hn2]. rewrite Hoth by done.
    by rewrite lookup_insert_ne.
  - split; [done|done| |done]. intros id' [->|Hin]%elem_of_cons; [|by apply Hlo3].
    rewrite Hoth, lookup_insert_eq by done. fold h. f_equal.
    rewrite bool_decide_false; [done|]. intros E. apply Hni.
    change (last (id2 :: ids') = Some id) in E. by apply last_Some_elem_of in E.
Qed.

(** ** The directory as a whole *)

(** The data files of the directory are those of [D], with their logs and, for
    the files that have one, a complete hint. *)
Definition dir_ok (fs : gmap bytes file) (D : logs) : Prop :=
  canonical fs /\
  (forall id, is_u32 id -> is_Some (fs !! dataPath id) -> is_Some (D !! id)) /\
  (forall id rs, D !! id = Some rs -> disk_file fs id rs).

Lemma dir_ids_ok fs D id : dir_ok fs D -> id ∈ dir_ids fs ->
  is_Some (D !! id) /\ disk_file fs id (log_of D id).
Proof.
  intros (Hc & Hall & Hdisk) Hin. apply elem_dir_ids in Hin as [Hs Hid]; [|done].
  assert (Hu : is_u32 id).
  { unfold data_id in Hid. destruct (has_suffix _ _); [|done]. unfold ParseUint in Hid.
    destruct (trim_suffix _ _); [done|]. apply parse_digits_range in Hid; [|lia].
    unfold is_u32. lia. }
  destruct (Hall id Hu Hs) as [rs HD]. unfold log_of. rewrite HD. split; [done|].
  by apply Hdisk.
Qed.

Lemma pruned_disk_file P fs fs' id rs : pruned P fs fs' ->
  P (dataPath id) = false -> P (hintPath id) = false ->
  disk_file fs id rs -> disk_file fs' id rs /\ has_hint fs' id = has_hint fs id.
Proof.
  intros Hp Hd Hh (? & ? & Hok & f & Hf & Hlog).
  pose proof (pruned_lookup _ _ _ _ Hp Hd) as Ed. pose proof (pruned_lookup _ _ _ _ Hp Hh) as Eh.
  unfold disk_file, hint_ok, has_hint. rewrite Ed, Eh. eauto 10.
Qed.

Lemma committed_elem rs r : r ∈ committed rs -> r ∈ rs.
Proof.
  unfold committed. assert (Hboth : forall rs r, r ∈ (commit_state rs).1 \/ r ∈ (commit_state rs).2 -> r ∈ rs).
  { clear. intros rs. induction rs as [|r0 rs IH] using rev_ind; intros r.
    - simpl. by intros [?%not_elem_of_nil|?%not_elem_of_nil].
    - rewrite commit_state_snoc. unfold commit_step. specialize (IH r).
      rewrite elem_of_app, list_elem_of_singleton.
      repeat case_goal; simpl; rewrite ?elem_of_app, ?list_elem_of_singleton;
        (intuition idtac); exfalso; by eapply not_elem_of_nil. }
  auto.
Qed.

Lemma recovered_elem fs D ids r : r ∈ recovered fs D ids -> r ∈ mjoin (log_of D <$> ids).
Proof.
  unfold recovered. rewrite !list_elem_of_join.
  intros (l & Hr & (id & -> & Hid)%list_elem_of_fmap). exists (log_of D id). split.
  - unfold applied in Hr. destruct (has_hint fs id); [done|by apply committed_elem].
  - by apply list_elem_of_fmap_2.
Qed.

(** The file that became active: the reused one, or a new, empty one. *)
Record activated (reuse : option Z) s L s' L' : Prop := {
  ac_quiet : st_dirty s' = st_dirty s /\ st_tasks s' = st_tasks s;
  ac_dfs : forall id, is_Some (L !! id) -> st_dfs s' !! id = st_dfs s !! id;
  ac_file : match reuse with
    | Some id => st_active s' = Some id /\ w_fs (st_w s') = w_fs (st_w s) /\ L' = L
    | None => st_active s' = Some (st_nextID s) /\
        w_fs (st_w s) !! dataPath (st_nextID s) = None /\
        w_fs (st_w s') = <[dataPath (st_nextID s) := mkFile [] 0]> (w_fs (st_w s)) /\
        L' = <[st_nextID s := []]> L
    end
}.

(** Opening an active file in a store that has none, or a forgotten one. *)
Lemma openNewActive_base s L M :
  base_inv s L M -> (forall id, st_active s = Some id -> L !! id = None) -> st_nextID s + 1 < 2 ^ 32 -> w_faults (st_w s) = [] ->
  wp openNewActive
    (fun _ s' => store_inv s' (<[st_nextID s := []]> L) M /\
       map_sum df_size (open_dfs s') = map_sum df_size (open_dfs s) /\
       visible s' = visible s /\ indexed s' = indexed s /\ w_faults (st_w s') = [] /\
       activated None s L s' (<[st_nextID s := []]> L))
    (fun _ _ => False) s.
Proof.
  intros Hb Ha Hnext Hno. unfold openNewActive. apply wp_bind, wp_get, wp_bind, wp_io.
  unfold createDataFile. apply wp_bind, wp_fs_create_excl; [by intros| |].
  2:{ intros Hs w' Hw. destruct (bi_fresh _ _ _ Hb) as [Hid Hlt]. specialize (Hlt _ Hid Hs). lia. }
  intros Hnone w' Hw. apply wp_ret. cbn [df_id].
  destruct (add_file_inv s L M w' Hb Hnext Hnone Hw) as (Hinv & Hstep & HLn & _).
  { intros Hs id rs HL. apply Hs; [done|]. left. intros E%Ha. congruence. }
  do 3 apply wp_bind, wp_modify. assert (Hno' : w_faults w' = []) by (by apply Hw).
  apply wp_io, wp_syncDir; [|by intros ?]. intros w2 Hw2.
  destruct (inv_advance _ _ _ w2 Hinv Hw2) as [Hinv2 _].
  split; [exact Hinv2|]. split.
  { rewrite <- (open_sum_new s (st_nextID s) w'); [done|].
    rewrite <- (bi_dom _ _ _ Hb). by apply not_elem_of_dom. }
  split; [done|]. split; [done|]. split; [by apply Hw2|]. split; [done| |].
  - intros id [rs HL]. simpl. apply lookup_insert_ne. congruence.
  - simpl. split; [done|]. split; [done|]. split; [|done].
    rewrite (proj1 Hw2). simpl. by rewrite (proj1 Hw).
Qed.

(** Choosing the file to append to. *)
Lemma activate_wp s L M a :
  base_inv s L M -> st_active s = None -> st_nextID s + 1 < 2 ^ 32 -> w_faults (st_w s) = [] ->
  reuse_ok s L a ->
  wp (match ra_reuse a with
      | Some id => sm_modify (set_active (Some id))
      | None => openNewActive
      end)
    (fun _ s' => exists L', store_inv s' L' M /\
       map_sum df_size (open_dfs s') = map_sum df_size (open_dfs s) /\
       visible s' = visible s /\ indexed s' = indexed s /\ w_faults (st_w s') = [] /\
       activated (ra_reuse a) s L s' L')
    (fun _ _ => False) s.
Proof.
  intros Hb Ha Hnext Hno Hre. unfold reuse_ok in Hre. destruct (ra_reuse a) as [id|].
  - apply wp_modify. exists L. split; [|done]. destruct Hb as [Hix Hfiles Hdom Hfresh].
    split; try done. destruct Hre as (d & rs & ?). exists id, d, rs. simpl. tauto.
  - eapply wp_mono; [apply (openNewActive_base s L M); [done|intros id0 E0; congruence|done..]| |done].
    intros [] s' ?. by exists (<[st_nextID s := []]> L).
Qed.

(** What follows the loop over the files. *)
Lemma recover_tail_wp s L M a all :
  loading s L M a all -> st_active s = None -> fresh_inv (st_nextID s) (w_fs (st_w s)) ->
  reuse_ok s L a -> Forall valid_record all -> (forall k r, M !! k = Some r -> r ∈ all) ->
  wp (sm_modify (set_seq (ra_maxSeq a));;;
      match ra_reuse a with
      | Some id => sm_modify (set_active (Some id))
      | None => openNewActive
      end;;;
      sm_modify (set_total (ra_total a));;;
      sm_modify recountLocked)
    (fun _ s' => exists L', store_ok s' L' M /\ st_seq s' = max_seq 0 all /\
       st_mergeSeq s' = st_mergeSeq s /\ st_closed s' = st_closed s /\ st_opts s' = st_opts s /\
       w_faults (st_w s') = [] /\ activated (ra_reuse a) s L s' L')
    (fun _ _ => False) s.
Proof.
  intros [Hix Hfiles Hdom [Hnu Hnext] Hno2 Htot Hmax] Hact Hfresh Hre Hvall Hin.
  apply wp_bind, wp_modify, wp_bind.
  eapply wp_mono; [apply (activate_wp (set_seq (ra_maxSeq a) s) L M a)| |done];
    [by split|done|simpl; lia|done|done|].
  intros [] s3 (L3 & Hinv3 & Hsum3 & Hv3 & Hi3 & Hno3 & [Hq Hdf Hfile]).
  apply wp_bind, wp_modify, wp_modify. set (s4 := set_total (ra_total a) s3).
  destruct (recountLocked_frame s4) as (ix & live & n & Heq).
  assert (Hwf3 : idx_wf (st_idx s4)) by apply Hinv3.
  pose proof (recountLocked_live s4 Hwf3) as Hlive. rewrite Heq in *.
  assert (Hix4 : ix = st_idx s3).
  { unfold recountLocked in Heq. destruct (foldl _ _ _). by injection Heq as <- _ _. }
  unfold visible in Hv3. simpl in Hv3. injection Hv3 as Ho Hs _ _ _ _ Hm _ Hc.
  exists L3. rewrite Hix4 in *. split.
  2:{ do 5 (split; [simpl; congruence|]). split; [exact Hq|exact Hdf|exact Hfile]. }
  split.
  - destruct Hinv3 as [? ? ? ? ?]. by split.
  - exact Hlive.
  - unfold seq_inv. simpl. rewrite Hs, Hmax. split.
    + apply max_seq_range; [done|unfold is_u64; lia].
    + intros k r Hr. by apply max_seq_ge, (Hin k).
  - unfold total_inv. simpl. rewrite Htot. f_equal. symmetry. exact Hsum3.
Qed.

(** The directory and the store after recovery: orphans are gone, the files
    are loaded and one of them is active. *)
Definition reopened (fs : gmap bytes file) (D : logs) s' L' : Prop :=
  exists fs1 s2 L a,
    (pruned (orphan_hint (dir_ids fs)) fs fs1 /\
     forall name, orphan_hint (dir_ids fs) name = true -> fs1 !! name = None) /\
    loaded fs1 D (dir_ids fs) (o_MaxFileSize (st_opts s')) (w_fs (st_w s2)) L a /\
    dom L = list_to_set (dir_ids fs) /\
    (forall id rs, L !! id = Some rs -> id < st_nextID s2) /\
    st_dirty s2 = false /\ st_tasks s2 = [] /\
    activated (ra_reuse a) s2 L s' L'.

(** Without the hints nobody needs the files say the same. *)
Lemma pruned_ids fs fs1 D : dir_ok fs D -> pruned (orphan_hint (dir_ids fs)) fs fs1 ->
  (forall id, id ∈ dir_ids fs -> is_Some (D !! id) /\ disk_file fs1 id (log_of D id) /\ has_hint fs1 id = has_hint fs id) /\
  recovered fs1 D (dir_ids fs) = recovered fs D (dir_ids fs).
Proof.
  intros Hdir Hp. assert (Hids : forall id, id ∈ dir_ids fs ->
    is_Some (D !! id) /\ disk_file fs1 id (log_of D id) /\ has_hint fs1 id = has_hint fs id).
  { intros id Hin. destruct (dir_ids_ok fs D id Hdir Hin) as [HD Hdf]. split; [done|].
    apply (pruned_disk_file (orphan_hint (dir_ids fs))); [done|apply orphan_dataPath| |done].
    apply orphan_hintPath; [|done]. destruct Hdf as (? & ? & _). unfold is_u32. lia. }
  split; [done|]. unfold recovered, mjoin. f_equal. apply list_fmap_ext. intros i id Hi.
  apply list_elem_of_lookup_2 in Hi. by destruct (Hids id Hi) as (_ & _ & ->).
Qed.

(** [recover] on a directory whose files are those of [D]. *)
Lemma recover_wp opts fs D lk : dir_ok fs D ->
  wp recover
    (fun _ s' => exists L,
       store_ok s' L (absorb_all ∅ (recovered fs D (dir_ids fs))) /\
       st_seq s' = max_seq 0 (mjoin (log_of D <$> dir_ids fs)) /\
       st_mergeSeq s' = watermark fs /\ st_closed s' = false /\ st_opts s' = opts /\
       w_faults (st_w s') = [] /\ reopened fs D s' L)
    (fun _ _ => False) (newStore (I := I) opts (mkWorld fs [] lk)).
Proof.
  intros Hdir. set (w := mkWorld fs [] lk). set (ids := dir_ids fs).
  pose proof Hdir as (Hcan & Hall & Hdisk).
  unfold recover. apply wp_bind, wp_io. cbn [newStore st_w].
  assert (Hman : readManifest w = (Ok (watermark fs), w)) by apply (readManifest_heal w).
  unfold wp at 1. rewrite Hman.
  apply wp_bind, wp_modify, wp_bind, wp_io. unfold wp at 1. cbn [set_w set_mergeSeq st_w].
  rewrite listDataFiles_calm by done. fold ids.
  (* the hints that nobody needs *)
  apply wp_bind, wp_ignore, wp_io. cbn [set_w st_w w_fs].
  eapply wp_mono; [apply removeOrphanHints_wp| |by intros ? ? [? _]].
  cbn [w_faults w_fs]. intros _ w1 [Hp Hno]. destruct (Hno eq_refl) as [Hno1 Hgone]. clear Hno.
  set (s1 := set_w w1 _).
  destruct (pruned_ids fs (w_fs w1) D Hdir Hp) as [Hids Hrec]. fold ids in Hids, Hrec.
  destruct (idx_empty_ok (I := I)) as [Hwf Hview].
  assert (Hld : loading s1 ∅ ∅ (mkRecAcc 0 0 None) []).
  { split; try done. split; [done|]. intros k. simpl. rewrite Hview. by rewrite !lookup_empty. }
  apply wp_bind. eapply wp_mono; [apply (recover_files_wp D ids s1 ∅ ∅ _ [] Hld)| |done].
  { done. }
  { by apply NoDup_dir_ids. }
  { intros id Hin. destruct (Hids id Hin) as (? & ? & _). rewrite lookup_empty. done. }
  intros a s2 (L & Hld2 & Hol & HdomL & Hdomfs & Hre & _ & Hlo).
  change (w_fs (st_w s1)) with (w_fs w1) in *. rewrite Hrec in Hld2. cbn [app] in Hld2.
  pose proof (ld_next _ _ _ _ _ Hld2) as [Hnu Hnext].
  assert (Hfresh : fresh_inv (st_nextID s2) (w_fs (st_w s2))).
  { split; [unfold is_u32; lia|]. intros id Hid Hs. apply elem_of_dom in Hs. rewrite Hdomfs in Hs.
    apply elem_of_dom in Hs as [f Hf].
    rewrite (pruned_lookup _ _ _ _ Hp (orphan_dataPath _ id)) in Hf.
    assert (Hin : id ∈ dom L).
    { rewrite HdomL. apply elem_of_union_l, elem_of_list_to_set, elem_dir_ids; [done|].
      rewrite data_id_dataPath by done. eauto. }
    apply elem_of_dom in Hin as [rs HL]. by eapply Hnext. }
  pose proof Hol as (? & ? & ? & ? & ? & Hs2).
  eapply wp_mono; [apply (recover_tail_wp s2 L _ a _ Hld2); try done; [by rewrite Hs2|..]| |done].
  - apply Forall_forall. intros r (l & Hr & (id & -> & Hid)%list_elem_of_fmap)%list_elem_of_join.
    destruct (dir_ids_ok fs D id Hdir Hid) as (_ & _ & _ & _ & f & _ & _ & _ & _ & Hvl).
    rewrite Forall_forall in Hvl. by apply Hvl.
  - intros k r Hr. apply absorb_all_elem in Hr as [Hr|Hr]; [by rewrite lookup_empty in Hr|].
    by apply recovered_elem in Hr.
  - intros [] s3 (L3 & Hok & Hseq & Hm & Hc & Ho & Hno3 & Hac). exists L3.
    rewrite Hs2 in Hm, Hc, Ho. do 6 (split; [done|]).
    exists (w_fs w1), s2, L, a. split; [done|]. split; [by rewrite Ho|].
    split; [rewrite HdomL; set_solver|]. split; [done|]. split; [by rewrite Hs2|].
    split; [by rewrite Hs2|done].
Qed.

(** ** Open *)

Lemma lockPath_names id : lockPath <> dataPath id /\ lockPath <> hintPath id.
Proof.
  split; intros E%(f_equal last); unfold dataPath, hintPath in E; rewrite last_app in E;
    vm_compute in E; discriminate.
Qed.

(** Taking the lock changes the LOCK file only. *)
Lemma acquireLock_calm pid fs :
  exists f, acquireLock pid (mkWorld fs [] false) = (Ok tt, mkWorld (<[lockPath := f]> fs) [] true).
Proof.
  unfold acquireLock, fs_open_create, flock, fs_truncate, fs_write_at, syscall, sm_bind, sm_catch,
    sm_ignore, sm_get, next_fault, lookup_file, store_file, sm_modify, sm_ret, set_fs, set_locked.
  cbn [w_faults w_fs w_locked fst snd].
  destruct (fs !! lockPath) as [f0|] eqn:E; cbn [w_faults w_fs w_locked fst snd].
  - rewrite E. cbn [w_faults w_fs w_locked fst snd]. rewrite lookup_insert_eq.
    cbn [w_faults w_fs w_locked fst snd]. eexists. by rewrite insert_insert_eq.
  - rewrite lookup_insert_eq. cbn [w_faults w_fs w_locked fst snd]. rewrite lookup_insert_eq.
    cbn [w_faults w_fs w_locked fst snd]. eexists. by rewrite !insert_insert_eq.
Qed.

Lemma dir_ok_lock fs D f : dir_ok fs D ->
  dir_ok (<[lockPath := f]> fs) D /\ dir_ids (<[lockPath := f]> fs) = dir_ids fs /\
  recovered (<[lockPath := f]> fs) D (dir_ids fs) = recovered fs D (dir_ids fs) /\
  watermark (<[lockPath := f]> fs) = watermark fs.
Proof.
  intros (Hc & Hall & Hdisk).
  assert (Hd : forall id, <[lockPath := f]> fs !! dataPath id = fs !! dataPath id)
    by (intros; apply lookup_insert_ne, lockPath_names).
  assert (Hh : forall id, <[lockPath := f]> fs !! hintPath id = fs !! hintPath id)
    by (intros; apply lookup_insert_ne, lockPath_names).
  assert (Hc' : canonical (<[lockPath := f]> fs)).
  { intros name id. rewrite dom_insert_L. intros [->%elem_of_singleton|Hin]%elem_of_union Hid;
      [by vm_compute in Hid|by apply Hc]. }
  split; [|split; [|split]].
  - split; [done|]. unfold disk_file, hint_ok. setoid_rewrite Hd. setoid_rewrite Hh. done.
  - symmetry. apply dir_ids_ext; [done..|]. intros id. by rewrite Hd.
  - unfold recovered, mjoin. f_equal. apply list_fmap_ext. intros i id _. unfold has_hint.
    by rewrite Hh.
  - unfold watermark. rewrite lookup_insert_ne; [done|]. by vm_compute.
Qed.

Lemma Open_calm opts pid fs D : dir_ok fs D -> o_Dir opts <> [] ->
  exists s L, Open (I := I) opts pid (mkWorld fs [] false) = (Ok s, st_w s) /\
    store_ok s L (absorb_all ∅ (recovered fs D (dir_ids fs))) /\
    st_seq s = max_seq 0 (mjoin (log_of D <$> dir_ids fs)) /\
    st_mergeSeq s = watermark fs /\ st_closed s = false /\ st_opts s = applyDefaults opts /\
    w_faults (st_w s) = [] /\ exists f, reopened (<[lockPath := f]> fs) D s L.
Proof.
  intros Hdir Hname. unfold Open.
  destruct (Z.eqb_spec (zlen (o_Dir (applyDefaults opts))) 0) as [Hz|_].
  { by apply zlen_0_inv in Hz. }
  destruct (acquireLock_calm pid fs) as [f Hlock].
  assert (Hpre : (syscall (sm_ret tt);;; acquireLock pid) (mkWorld fs [] false) =
    acquireLock pid (mkWorld fs [] false)) by done.
  rewrite Hpre, Hlock. destruct (dir_ok_lock fs D f Hdir) as (Hdir' & Hids & Hrec & Hwm).
  pose proof (recover_wp (applyDefaults opts) _ D true Hdir') as Hwp. unfold wp in Hwp.
  destruct (recover _) as [[[]|e] s]; [|done]. destruct Hwp as (L & Hok & Hseq & Hm & Hc & Ho & Hno & Hre).
  rewrite Hids, Hrec in Hok. rewrite Hids in Hseq. rewrite Hwm in Hm. exists s, L.
  do 7 (split; [done|]). by exists f.
Qed.

(** C14: recovery is correct: opening a directory whose data files hold the logs
    [D] succeeds when no call fails, and the store then knows, for every key,
    exactly the newest record among those that count: all records of a file
    with a hint, and of a file without one the records a scan commits.  The
    sequence counter is the largest number in any file and the compaction
    watermark the manifest's. *)
Theorem Open_recovers opts pid fs D : dir_ok fs D -> o_Dir opts <> [] ->
  exists s, Open (I := I) opts pid (mkWorld fs [] false) = (Ok s, st_w s) /\
    refines s (kv (absorb_all ∅ (recovered fs D (dir_ids fs)))) /\
    st_seq s = max_seq 0 (mjoin (log_of D <$> dir_ids fs)) /\
    st_mergeSeq s = watermark fs /\ st_closed s = false.
Proof.
  intros Hdir Hname. destruct (Open_calm opts pid fs D Hdir Hname)
    as (s & L & Hopen & Hok & Hseq & Hm & Hc & _).
  exists s. split; [done|]. split; [by eexists _, _|done].
Qed.
End recovery.
