(* ===== verification/Engine.v ===== *)
(** * The engine as a whole

    Any history of client operations on an open store gets the answers a
    finite map gives.  The operations are those of store.go; the reference is
    [answers] and [after], which mention nothing but the map. *)

From S2P Require Import Prelude Bytes Record Datafile Manifest Index Store StoreInv WritePath.
From S2P Require Import Ops Reads Scans Background.

Local Open Scope Z_scope.
Local Open Scope gokv_scope.

(** ** Commands *)

Inductive cmd :=
| CPut (now : Z) (k v : bytes)
| CBatch (now : Z) (ks vs : list bytes)
| CDelete (now : Z) (k : bytes)
| CGet (k : bytes)
| CScan (start end_ : bytes) (limit : Z)
| CLen
| CSync  (* the application's, or the timer's of background *)
| CHint.  (* a hint goroutine runs *)

Inductive reply :=
| RDone (r : result error unit)
| RValue (r : result error bytes)
| RPairs (r : result error unit * list (bytes * bytes))
| RLen (n : Z).

(** ** The reference *)

Definition refuse (e : option error) : result error unit :=
  match e with Some e => Err e | None => Ok tt end.

Definition batch_refusal (ks vs : list bytes) : option error :=
  if decide (length ks = length vs) then batch_error ks vs else Some ErrBatchLen.

Definition delete_refusal (m : gmap bytes bytes) (k : bytes) : option error :=
  match validateKey k, m !! k with
  | Some e, _ => Some e
  | None, None => Some ErrKeyNotFound
  | None, Some _ => None
  end.

Definition lookup_reply (m : gmap bytes bytes) (k : bytes) : result error bytes :=
  match validateKey k, m !! k with
  | Some e, _ => Err e
  | None, None => Err ErrKeyNotFound
  | None, Some v => Ok v
  end.

(** The reply a map gives; the pairs of a range are determined by being
    sorted and being those of the map. *)
Definition answers (m : gmap bytes bytes) (c : cmd) (r : reply) : Prop :=
  match c with
  | CPut _ k v => r = RDone (refuse (put_error k v))
  | CBatch _ ks vs => r = RDone (refuse (batch_refusal ks vs))
  | CDelete _ k => r = RDone (refuse (delete_refusal m k))
  | CGet k => r = RValue (lookup_reply m k)
  | CScan start end_ limit => exists l, range_of m start end_ l /\
      r = RPairs (Ok tt, if 0 <? limit then take (Z.to_nat limit) l else l)
  | CLen => r = RLen (i64 (Z.of_nat (size m)))
  | CSync | CHint => r = RDone (Ok tt)
  end.

(** The map afterwards. *)
Definition after (m : gmap bytes bytes) (c : cmd) : gmap bytes bytes :=
  match c with
  | CPut _ k v => if put_error k v then m else <[k := v]> m
  | CBatch _ ks vs => if batch_refusal ks vs then m else foldl put_pair m (zip ks vs)
  | CDelete _ k => if delete_refusal m k then m else delete k m
  | _ => m
  end.

Inductive history (m : gmap bytes bytes) : list cmd -> list reply -> gmap bytes bytes -> Prop :=
| history_nil : history m [] [] m
| history_cons c r cs rs m' :
    answers m c r -> history (after m c) cs rs m' -> history m (c :: cs) (r :: rs) m'.

(** What a command may use up, and what it must respect. *)
Definition cost (c : cmd) : Z :=
  match c with
  | CPut _ _ _ | CDelete _ _ => 1
  | CBatch _ ks _ => zlen ks
  | _ => 0
  end.
Definition costs (cs : list cmd) : Z := zsum cost cs.

Definition cmd_ok (c : cmd) : Prop :=
  match c with
  | CPut now _ _ | CDelete now _ => is_i64 now
  | CBatch now ks vs => is_i64 now /\ log_size (batch_records now ks vs) < 2 ^ 32
  | _ => True
  end.

Lemma cost_nonneg c : 0 <= cost c.
Proof. destruct c; simpl; try lia. apply zlen_nonneg. Qed.

Lemma costs_nonneg cs : 0 <= costs cs.
Proof.
  induction cs as [|c cs IH]; [done|]. unfold costs in *. simpl. pose proof (cost_nonneg c). lia.
Qed.

Section engine.
Context {I : Type} `{KeyIndexSpec I}.
Implicit Types (s : store I) (L : logs) (M : newest) (m : gmap bytes bytes).

Definition exec (c : cmd) (s : store I) : reply * store I :=
  match c with
  | CPut now k v => let out := Put now k v s in (RDone out.1, out.2)
  | CBatch now ks vs => let out := BatchPut now ks vs s in (RDone out.1, out.2)
  | CDelete now k => let out := Delete now k s in (RDone out.1, out.2)
  | CGet k => let out := Get (fun _ s => s) k s in (RValue out.1, out.2)
  | CScan start end_ limit => let out := ScanSlice start end_ limit s in (RPairs out.1, out.2)
  | CLen => (RLen (Len s), s)
  | CSync => let out := Sync s in (RDone out.1, out.2)
  | CHint => let out := run_task s in (RDone out.1, out.2)
  end.

Fixpoint exec_all (cs : list cmd) (s : store I) : list reply * store I :=
  match cs with
  | [] => ([], s)
  | c :: cs' => let out := exec c s in
                let rest := exec_all cs' out.2 in (out.1 :: rest.1, rest.2)
  end.

(** ** The number of keys *)

Lemma live_count s L M : store_ok s L M ->
  map_sum live_one (idx_view (st_idx s)) = Z.of_nat (size (kv M)).
Proof.
  intros [[[_ Hview] _ _ _ _] _ _ _]. revert M Hview.
  induction (idx_view (st_idx s)) as [|k e v Hk IH] using map_ind; intros M Hview.
  - assert (M = ∅) as ->; [|by rewrite map_sum_empty].
    apply map_eq. intros k. specialize (Hview k). rewrite lookup_empty in *. by destruct (M !! k).
  - pose proof (Hview k) as Hkv. rewrite lookup_insert_eq in Hkv.
    destruct (M !! k) as [r|] eqn:Er; [|done].
    rewrite map_sum_insert by done. rewrite (IH (delete k M)).
    2:{ intros k'. specialize (Hview k'). destruct (decide (k' = k)) as [->|Hne].
        - by rewrite lookup_delete_eq, Hk.
        - by rewrite lookup_delete_ne, lookup_insert_ne in * by done. }
    assert (Hkv' : kv M = match live_value r with
      | Some v => <[k := v]> (kv (delete k M)) | None => kv (delete k M) end).
    { rewrite <- (insert_delete_id M k r) at 1 by done. rewrite kv_insert.
      destruct (live_value r); [done|]. apply delete_id. rewrite kv_lookup.
      by rewrite lookup_delete_eq. }
    rewrite Hkv'. destruct Hkv as (_ & _ & Ht & _). unfold live_one, live_value.
    rewrite Ht. destruct (tombstone r); [lia|].
    rewrite map_size_insert_None; [lia|]. rewrite kv_lookup. by rewrite lookup_delete_eq.
Qed.

Lemma Len_size s L M : store_ok s L M -> Len s = i64 (Z.of_nat (size (kv M))).
Proof.
  intros Hok. unfold Len. destruct (ok_live _ _ _ Hok) as [_ ->]. by erewrite live_count.
Qed.

(** ** One command *)

(** Within the bounds, and calm. *)
Definition calm (n : Z) s s' : Prop :=
  st_closed s' = false /\ w_faults (st_w s') = [] /\ st_seq s' <= st_seq s + n /\
  st_nextID s' <= st_nextID s + 1.

Lemma calm_self n s : 0 <= n -> st_closed s = false -> w_faults (st_w s) = [] -> calm n s s.
Proof. intros. split; [done|]. split; [done|]. lia. Qed.

Lemma spends_calm n s s' : spends n s s' -> st_closed s = false -> w_faults (st_w s) = [] ->
  calm n s s'.
Proof. intros (? & ? & ? & Hf) ? ?. split; [congruence|]. split; [by apply Hf|]. lia. Qed.

(** A writer that succeeds whenever the calls do. *)
Lemma calm_write (m : sto I unit) (n : Z) (Q : store I -> Prop) s (mm : gmap bytes bytes) :
  wp m (fun _ s' => Q s' /\ spends n s s') (fun _ s' => unchanged s mm s') s ->
  st_closed s = false -> w_faults (st_w s) = [] ->
  exists s', m s = (Ok tt, s') /\ Q s' /\ calm n s s'.
Proof.
  unfold wp. intros Hwp Hc Hno. destruct (m s) as [[[]|e] s']; [|by destruct Hwp].
  destruct Hwp as [HQ Hsp]. exists s'. split; [done|]. split; [done|]. by apply spends_calm.
Qed.

Definition step_ok c s m : Prop :=
  answers m c (exec c s).1 /\ refines (exec c s).2 (after m c) /\ calm (cost c) s (exec c s).2.

(** The state of a store between two commands. *)
Record ready (n : Z) s L M : Prop := {
  rd_ok : store_ok s L M;
  rd_open : st_closed s = false;
  rd_calm : w_faults (st_w s) = [];
  rd_room : room s n
}.

Lemma ready_refines n s L M : ready n s L M -> refines s (kv M).
Proof. intros []. by exists L, M. Qed.

Lemma exec_put s L M now k v : ready 1 s L M -> is_i64 now -> step_ok (CPut now k v) s (kv M).
Proof.
  intros Hrd Hnow. pose proof Hrd as [Hok Hc Hno Hroom]. unfold step_ok. simpl.
  destruct (put_error k v) as [e|] eqn:E.
  - rewrite (Put_bad s now k v e E). split; [done|]. split; [by eapply ready_refines|by apply calm_self].
  - destruct (calm_write (Put now k v) 1 (fun s' => refines s' (<[k := v]> (kv M))) s (kv M))
      as (s' & -> & Href & Hcalm); [|done..].
    eapply wp_mono; [by apply (Put_wp s L M)| |done]. by intros [] s' (? & _ & ?).
Qed.

Lemma exec_batch s L M now ks vs : ready (zlen ks) s L M -> cmd_ok (CBatch now ks vs) ->
  step_ok (CBatch now ks vs) s (kv M).
Proof.
  intros Hrd [Hnow Hlen]. pose proof Hrd as [Hok Hc Hno Hroom]. unfold step_ok. cbn [exec].
  pose proof (zlen_nonneg ks). unfold answers, after, batch_refusal. cbn [cost].
  destruct (decide (length ks = length vs)) as [Hl|Hl].
  2:{ rewrite BatchPut_other by auto. assert (Hz : zlen ks <> zlen vs) by (unfold zlen; lia).
      apply Z.eqb_neq in Hz. rewrite Hz. split; [done|].
      split; [by eapply ready_refines|by apply calm_self]. }
  assert (Hz : zlen ks = zlen vs) by (unfold zlen; by rewrite Hl).
  destruct (decide (ks = [])) as [->|Hne].
  { destruct vs; [|done]. split; [done|]. split; [by eapply ready_refines|by apply calm_self]. }
  destruct (batch_error ks vs) as [e|] eqn:He.
  - rewrite BatchPut_other by (rewrite He; auto). rewrite Hz, Z.eqb_refl, <- Hz, He.
    destruct (Z.eqb_spec (zlen ks) 0) as [H0'|_]; [by apply zlen_0_inv in H0'|].
    split; [done|]. split; [by eapply ready_refines|by apply calm_self].
  - destruct (calm_write (BatchPut now ks vs) (zlen ks)
      (fun s' => refines s' (foldl put_pair (kv M) (zip ks vs))) s (kv M))
      as (s' & -> & Href & Hcalm); [|done..].
    eapply wp_mono; [by apply (BatchPut_wp s L M)| |done]. by intros [] s' (? & _ & ?).
Qed.

Lemma exec_delete s L M now k : ready 1 s L M -> is_i64 now -> step_ok (CDelete now k) s (kv M).
Proof.
  intros Hrd Hnow. pose proof Hrd as [Hok Hc Hno Hroom]. unfold step_ok. simpl.
  unfold delete_refusal. destruct (validateKey k) as [e|] eqn:Ek.
  { rewrite (Delete_other s L M) by (done || left; congruence). rewrite Ek.
    split; [done|]. split; [by eapply ready_refines|by apply calm_self]. }
  destruct (kv M !! k) as [v|] eqn:Ev.
  - destruct (calm_write (Delete now k) 1 (fun s' => refines s' (delete k (kv M))) s (kv M))
      as (s' & -> & Href & Hcalm); [|done..].
    eapply wp_mono; [by apply (Delete_wp s L M now k v)| |done]. by intros [] s' (? & _ & ?).
  - rewrite (Delete_other s L M) by auto. rewrite Ek.
    split; [done|]. split; [by eapply ready_refines|by apply calm_self].
Qed.

(** A reader alone touches the fault oracle and the counters only. *)
Definition read_frame s s' : Prop :=
  exists w' c', s' = set_w w' (set_cnt c' s) /\ w_fs w' = w_fs (st_w s).

Lemma read_frame_self s : read_frame s s.
Proof. exists (st_w s), (st_cnt s). split; [by destruct s|done]. Qed.

Lemma readRecord_fs d e w : w_fs (readRecord d e w).2 = w_fs w.
Proof.
  enough (Hw : wp (readRecord d e) (fun _ w' => w_fs w' = w_fs w) (fun _ w' => w_fs w' = w_fs w) w)
    by (unfold wp in Hw; by destruct (readRecord d e w) as [[?|?] ?]).
  unfold readRecord, df_readAt, df_guard. apply wp_bind. destruct (df_open d); [|done].
  apply wp_syscall; [|by intros _ w' [? _]]. intros w' [Hfs _]. apply wp_bind, wp_lookup_file; [|done].
  intros f _. repeat case_goal; try done; apply wp_ret; destruct (decodeRecord _); done.
Qed.

Lemma readValue_frame e s : read_frame s (readValue e s).2.
Proof.
  unfold readValue. rewrite sm_bind_get.
  destruct (if bool_decide _ then _ else _) as [df|]; [|apply read_frame_self].
  unfold sm_bind at 1, io. pose proof (readRecord_fs df e (st_w s)) as Hfs.
  destruct (readRecord df e (st_w s)) as [[rb|x] w']; cbn [fst snd] in *.
  - repeat case_goal; exists w', (st_cnt s); (split; [by destruct s|done]).
  - exists w', (st_cnt s). split; [by destruct s|done].
Qed.

Lemma get_attempts_frame n k s : read_frame s (get_attempts (fun _ s => s) n k s).2.
Proof.
  revert s. induction n as [|n IH]; intros s; cbn [get_attempts]; [apply read_frame_self|].
  rewrite sm_bind_get.
  assert (Hmiss : read_frame s ((count add_miss;;; sm_throw ErrKeyNotFound : sto I bytes) s).2)
    by (exists (st_w s), (add_miss (st_cnt s)); split; [by destruct s|done]).
  destruct (idx_get k (st_idx s)) as [e|]; [destruct (e_tomb e)|]; [done| |done].
  unfold sm_bind, sm_modify, sm_catch. pose proof (readValue_frame e s) as (w1 & c1 & Hf & Hfs).
  destruct (readValue e s) as [[v|x] s1]; simpl in Hf; subst s1; [by exists w1, c1|].
  destruct (bool_decide _); [|by exists w1, c1].
  destruct (IH (set_w w1 (set_cnt c1 s))) as (w2 & c2 & -> & Hfs2). exists w2, c2.
  split; [done|]. by rewrite Hfs2.
Qed.

Lemma Get_frame k s : read_frame s (Get (fun _ s => s) k s).2.
Proof.
  unfold Get. destruct (validateKey k); [apply read_frame_self|]. cbn [throw_if]. rewrite sm_bind_ret.
  unfold sm_bind, count, sm_modify.
  destruct (get_attempts_frame 4 k (set_cnt (add_get (st_cnt s)) s)) as (w & c & -> & Hfs).
  by exists w, c.
Qed.

Lemma exec_get s L M k : ready 0 s L M -> step_ok (CGet k) s (kv M).
Proof.
  intros [Hok Hc Hno _]. unfold step_ok. simpl. unfold lookup_reply.
  destruct (validateKey k) as [e|] eqn:Ek.
  { unfold Get. rewrite Ek. split; [done|]. split; [by exists L, M|by apply calm_self]. }
  pose proof (Get_wp k s L M Hok Ek) as Hget.
  pose proof (Get_frame k s) as Hfr.
  unfold wp in Hget. destruct Hfr as (w' & c' & Hfr & _).
  destruct (Get _ k s) as [[v|e] s']; cbn [snd] in Hfr; subst s'.
  - destruct Hget as (Hv & Hok2 & _ & Hf). rewrite Hv. split; [done|]. split; [by exists L, M|].
    split; [done|]. split; [by apply Hf|]. simpl. lia.
  - destruct Hget as (Hok2 & Hf & [(-> & Hv & _)|[_ ?]]); [|done]. rewrite Hv. split; [done|].
    split; [by exists L, M|]. split; [done|]. split; [by apply Hf|]. simpl. lia.
Qed.

Lemma exec_scan s L M start end_ limit : ready 0 s L M ->
  step_ok (CScan start end_ limit) s (kv M).
Proof.
  intros [Hok Hc Hno _]. unfold step_ok. cbn [exec]. unfold ScanSlice.
  destruct (Scan_feed (fun k v out => (Ok tt, out ++ [(k, v)])) limit start end_ [] s L M Hok Hno)
    as (l & Hl & ->).
  cbn [fst snd]. rewrite feed_collect by lia. rewrite Z.sub_0_r. split; [by exists l|].
  split; [eexists _, _; split; [by apply count_ok|done]|]. by apply (calm_self 0 (set_cnt (add_scan (st_cnt s)) s)).
Qed.

Lemma exec_sync s L M : ready 0 s L M -> step_ok CSync s (kv M).
Proof.
  intros [Hok Hc Hno _]. pose proof (Sync_wp s L M Hok) as Hw. unfold wp in Hw. unfold step_ok. simpl.
  destruct (Sync s) as [[[]|e] s']; [|by destruct Hw].
  destruct Hw as (Hok' & _ & _ & (b & w' & ->) & Hf). split; [done|]. split; [by exists L, M|].
  split; [done|]. split; [by apply Hf|]. simpl. lia.
Qed.

Lemma exec_hint s L M : ready 0 s L M -> step_ok CHint s (kv M).
Proof.
  intros [Hok Hc Hno _]. pose proof (run_task_wp s L M Hok) as Hw. unfold wp in Hw. unfold step_ok. simpl.
  destruct (run_task s) as [[[]|e] s']; [|done].
  destruct Hw as (Hok' & (ids & w' & ->) & Hf). split; [done|]. split; [by exists L, M|].
  split; [done|]. split; [by apply Hf|]. simpl. lia.
Qed.

Lemma exec_step c s m : refines s m -> st_closed s = false -> w_faults (st_w s) = [] ->
  room s (cost c) -> cmd_ok c -> step_ok c s m.
Proof.
  intros (L & M & Hok & <-) Hc Hno Hroom Hcmd. assert (Hrd : ready (cost c) s L M) by done.
  destruct c; [by apply (exec_put s L M)|by apply (exec_batch s L M)|by apply (exec_delete s L M)
    |by apply (exec_get s L M)|by apply (exec_scan s L M)| |by apply (exec_sync s L M)
    |by apply (exec_hint s L M)].
  unfold step_ok. simpl. rewrite (Len_size s L M Hok). split; [done|].
  split; [by exists L, M|by apply calm_self].
Qed.

(** C1: the engine is a map.  From any state that stands for the map [m], every
    sequence of puts, batches, deletes, gets, scans, length queries and syncs,
    with the background hint builds at any point between them, gets, one by one, exactly the replies the map gives, errors included, and leaves
    the store standing for the resulting map; the bounds say that no counter
    wraps and no batch outgrows its 32-bit offsets. *)
Theorem engine_is_a_map cs : forall s m,
  refines s m -> st_closed s = false -> w_faults (st_w s) = [] -> Forall cmd_ok cs ->
  st_seq s + costs cs < 2 ^ 64 -> st_nextID s + zlen cs < 2 ^ 32 ->
  exists m', history m cs (exec_all cs s).1 m' /\ refines (exec_all cs s).2 m'.
Proof.
  induction cs as [|c cs IH]; intros s m Href Hc Hno Hcmds Hseq Hid.
  { exists m. by split; [constructor|]. }
  apply Forall_cons in Hcmds as [Hcmd Hcmds]. rewrite zlen_cons in Hid.
  unfold costs in Hseq. simpl in Hseq. fold (costs cs) in Hseq.
  pose proof (costs_nonneg cs). pose proof (zlen_nonneg cs).
  destruct (exec_step c s m Href Hc Hno) as (Hans & Href' & Hc' & Hno' & Hs & Hn);
    [split; lia|done|].
  destruct (IH (exec c s).2 (after m c)) as (m' & Hh & Hr'); [done..|lia|lia|].
  exists m'. split; [by constructor|done].
Qed.
End engine.
