(* ===== verification/Settled.v ===== *)
(** * Settled logs

    A log is settled when a scan of it commits every record and leaves none
    staged, and framed when whatever prefix of it survives a crash is cut back
    to exactly the records a scan commits.  Appending whole units, single
    records or complete batches, keeps both. *)

From S2P Require Import Prelude Bytes Record Datafile Manifest Index Store StoreInv WritePath.
From S2P Require Import Ops Recovery.

Local Open Scope Z_scope.
Local Open Scope gokv_scope.

Definition settled (rs : list record) : Prop := commit_state rs = (rs, []).

Definition framed (rs : list record) : Prop :=
  forall p, p `prefix_of` rs -> committed p = trim_open p.

Definition ends_batch (r : record) : bool :=
  has_flag (r_flags r) flagBatch && has_flag (r_flags r) flagBatchEnd.

(** What one write appends. *)
Definition unit_log (recs : list record) : Prop :=
  exists pre r, recs = pre ++ [r] /\ Forall (fun r => is_open r = true) pre /\
    (pre = [] /\ is_open r = false \/ ends_batch r = true).

Lemma commit_fold rs : forall a b,
  foldl commit_step (a, b) rs =
    (a ++ (foldl commit_step ([], b) rs).1, (foldl commit_step ([], b) rs).2).
Proof.
  induction rs as [|r rs IH]; intros a b; simpl; [by rewrite app_nil_r|].
  unfold commit_step at 2 4 6. simpl. case_goal; [case_goal|].
  - rewrite (IH (a ++ b ++ [r])), (IH (b ++ [r])). simpl. by rewrite !app_assoc.
  - apply IH.
  - rewrite (IH (a ++ [r])), (IH [r]). simpl. by rewrite <- app_assoc.
Qed.

Lemma commit_state_settled rs rs' : settled rs ->
  commit_state (rs ++ rs') = (rs ++ (commit_state rs').1, (commit_state rs').2).
Proof.
  intros Hs. unfold commit_state. rewrite foldl_app. fold (commit_state rs). rewrite Hs.
  apply commit_fold.
Qed.

Lemma settled_app rs rs' : settled rs -> settled rs' -> settled (rs ++ rs').
Proof. intros Hs Hs'. unfold settled. by rewrite commit_state_settled, Hs'. Qed.

Lemma is_open_batch r : is_open r = true ->
  has_flag (r_flags r) flagBatch = true /\ has_flag (r_flags r) flagBatchEnd = false.
Proof. unfold is_open. by intros [-> ->%negb_true_iff]%andb_prop. Qed.

Lemma commit_open p : Forall (fun r => is_open r = true) p -> commit_state p = ([], p).
Proof.
  induction p as [|r p IH] using rev_ind; intros Hp; [done|].
  apply Forall_app in Hp as [Hp Hr]. apply Forall_cons in Hr as [Hr _].
  rewrite commit_state_snoc, IH by done. unfold commit_step.
  by destruct (is_open_batch r Hr) as [-> ->].
Qed.

Lemma trim_app_open rs p : Forall (fun r => is_open r = true) p -> trim_open (rs ++ p) = trim_open rs.
Proof.
  induction p as [|r p IH] using rev_ind; intros Hp; [by rewrite app_nil_r|].
  apply Forall_app in Hp as [Hp Hr]. apply Forall_cons in Hr as [Hr _].
  rewrite app_assoc, trim_open_snoc, Hr. by apply IH.
Qed.

Lemma settled_trim rs : settled rs -> trim_open rs = rs.
Proof.
  destruct rs as [|r rs _] using rev_ind; [done|]. intros Hs. rewrite trim_open_snoc.
  destruct (is_open r) eqn:E; [|done]. unfold settled in Hs. rewrite commit_state_snoc in Hs.
  unfold commit_step in Hs. destruct (is_open_batch r E) as [Hb He]. rewrite Hb, He in Hs.
  injection Hs as _ Hs. by apply app_eq_nil in Hs as [_ ?].
Qed.

(** The records are either applied or staged. *)
Lemma commit_length rs :
  (length (commit_state rs).1 + length (commit_state rs).2 = length rs)%nat.
Proof.
  induction rs as [|r rs IH] using rev_ind; [done|]. rewrite commit_state_snoc, length_app.
  unfold commit_step. repeat case_goal; simpl; rewrite ?length_app; simpl; lia.
Qed.

Lemma trim_open_split rs :
  exists p, rs = trim_open rs ++ p /\ Forall (fun r => is_open r = true) p.
Proof.
  induction rs as [|r rs IH] using rev_ind; [by exists []|]. rewrite trim_open_snoc.
  destruct (is_open r) eqn:E; [|exists []; by rewrite app_nil_r].
  destruct IH as (p & Hp & Ho). exists (p ++ [r]). split; [|by apply Forall_app; split; [|constructor]].
  by rewrite app_assoc, <- Hp.
Qed.

Lemma mended_settled rs : committed rs = trim_open rs -> settled (trim_open rs).
Proof.
  intros Hc. destruct (trim_open_split rs) as (p & Hp & Ho). unfold committed in Hc.
  pose proof (commit_length (trim_open rs)) as Hlen.
  assert (Hcs : (commit_state (trim_open rs)).1 = trim_open rs).
  { rewrite <- Hc at 2. rewrite Hp at 2. clear -Ho. induction p as [|r p IH] using rev_ind.
    - by rewrite app_nil_r.
    - apply Forall_app in Ho as [Ho Hr]. apply Forall_cons in Hr as [Hr _].
      rewrite app_assoc, commit_state_snoc. unfold commit_step.
      destruct (is_open_batch r Hr) as [-> ->]. simpl. by apply IH. }
  unfold settled. destruct (commit_state (trim_open rs)) as [c q]. simpl in *. subst c.
  destruct q; [done|]. simpl in Hlen. lia.
Qed.

Lemma unit_prefix recs p : unit_log recs -> p `prefix_of` recs ->
  p = recs \/ Forall (fun r => is_open r = true) p.
Proof.
  intros (pre & r & -> & Hpre & _) [q Hq]. destruct q as [|x q _] using rev_ind.
  - left. by rewrite app_nil_r in Hq.
  - right. rewrite app_assoc in Hq. apply app_inj_tail in Hq as [-> _].
    by apply Forall_app in Hpre as [? _].
Qed.

Lemma unit_settled recs : unit_log recs -> settled recs.
Proof.
  intros (pre & r & -> & Hpre & Hr). unfold settled. rewrite commit_state_snoc, commit_open by done.
  unfold commit_step. destruct Hr as [[-> Ho]|[Hb He]%andb_prop].
  - unfold is_open in Ho. destruct (has_flag (r_flags r) flagBatch); [|done].
    by destruct (has_flag (r_flags r) flagBatchEnd).
  - by rewrite Hb, He.
Qed.

(** Every prefix of the log after a write: one from before it, the old log
    with part of a batch, or all of it. *)
Lemma append_prefix rs recs p : settled rs -> unit_log recs -> p `prefix_of` rs ++ recs ->
  p `prefix_of` rs \/ (rs `prefix_of` p /\ committed p = rs /\ trim_open p = rs) \/ p = rs ++ recs.
Proof.
  intros Hs Hu [Hp|(p' & -> & Hp')]%prefix_app_cases; [by left|right].
  destruct (unit_prefix _ _ Hu Hp') as [->|Ho]; [by right|left].
  split; [by apply prefix_app_r|]. unfold committed. rewrite commit_state_settled, commit_open by done.
  simpl. rewrite app_nil_r. split; [done|]. rewrite trim_app_open by done. by apply settled_trim.
Qed.

Lemma framed_app rs recs : settled rs -> framed rs -> unit_log recs -> framed (rs ++ recs).
Proof.
  intros Hs Hf Hu p Hp.
  destruct (append_prefix _ _ _ Hs Hu Hp) as [Hp'|[(_ & -> & ->)| ->]]; [by apply Hf|done|].
  assert (Hset : settled (rs ++ recs)) by (apply settled_app; [done|by apply unit_settled]).
  unfold committed. rewrite Hset. simpl. symmetry. by apply settled_trim.
Qed.

Lemma framed_nil : framed [].
Proof. intros p ->%prefix_nil_inv. done. Qed.

Lemma framed_prefix rs p : framed rs -> p `prefix_of` rs -> framed p.
Proof. intros Hf Hp q Hq. apply Hf. by etrans. Qed.

Lemma settled_committed rs : settled rs -> committed rs = rs.
Proof. intros Hs. unfold committed. by rewrite Hs. Qed.

Lemma applied_settled h rs : settled rs -> applied h rs = rs.
Proof. intros Hs. unfold applied. destruct h; [done|by apply settled_committed]. Qed.
