(* ===== verification/Crash.v ===== *)
(** * Crashes

    What a power failure leaves of the data directory, and what the logs in it
    are then.  A crash keeps every file's bytes up to the last fsync and any
    part of what was written after it; directory entries survive. *)

From S2P Require Import Prelude Bytes Decimal Record Datafile Hint Listing Manifest Index Store.
From S2P Require Import StoreInv WritePath Ops Recovery Settled.

Local Open Scope Z_scope.
Local Open Scope gokv_scope.

(** One file after a crash: what is still there is on stable storage. *)
Definition survived (f f' : file) : Prop :=
  f_data f' `prefix_of` f_data f /\ f_synced f <= zlen (f_data f') /\
  f_synced f' = zlen (f_data f').

Definition crashed (fs fs' : gmap bytes file) : Prop :=
  forall name, option_relation survived (fun _ => False) (fun _ => False)
    (fs !! name) (fs' !! name).

(** The records that may be left of a log of which [n] bytes are safe. *)
Definition survives (n : Z) (rs p : list record) : Prop :=
  p `prefix_of` rs /\ forall q, q `prefix_of` rs -> log_size q <= n -> q `prefix_of` p.

(** A directory the engine can be opened on after any crash: every log may be
    cut back to what its scan commits, only the newest file can end in an
    unfinished batch, and everything in it is on stable storage. *)
Record sound_dir (fs : gmap bytes file) (D : logs) : Prop := {
  sd_ok : dir_ok fs D;
  sd_framed : forall id rs, D !! id = Some rs -> framed rs;
  sd_settled : forall id rs, D !! id = Some rs ->
    has_hint fs id = true \/ (exists id', is_Some (D !! id') /\ id < id') -> settled rs;
  sd_durable : forall id f, is_u32 id ->
    fs !! dataPath id = Some f \/ fs !! hintPath id = Some f -> f_synced f = zlen (f_data f)
}.

(** A directory in use: [a] is the active file. *)
Record running_dir (fs : gmap bytes file) (L : logs) (a : Z) : Prop := {
  rn_ok : dir_ok fs L;
  rn_in : is_Some (L !! a);
  rn_last : forall id rs, L !! id = Some rs -> id <= a;
  rn_nohint : fs !! hintPath a = None;
  rn_exact : exists f, fs !! dataPath a = Some f /\ f_data f = encode_all (log_of L a);
  rn_hints : forall id f, is_u32 id -> fs !! hintPath id = Some f ->
    is_Some (L !! id) /\ f_synced f = zlen (f_data f);
  rn_flushed : forall id rs, L !! id = Some rs -> id <> a -> flushed fs id (log_size rs);
  rn_logs : forall id rs, L !! id = Some rs -> settled rs /\ framed rs
}.

(** The records of all files, in the order of their ids. *)
Definition all_logs (fs : gmap bytes file) (L : logs) : list record :=
  mjoin (log_of L <$> dir_ids fs).
Definition older (fs : gmap bytes file) (a : Z) : list Z :=
  filter (fun id => id <> a) (dir_ids fs).

(** ** One file *)

Lemma crashed_lookup fs fs' name f : crashed fs fs' -> fs !! name = Some f ->
  exists f', fs' !! name = Some f' /\ survived f f'.
Proof.
  intros Hc Hf. specialize (Hc name). rewrite Hf in Hc.
  destruct (fs' !! name) as [f'|]; [|done]. by exists f'.
Qed.

Lemma crashed_lookup_back fs fs' name f' : crashed fs fs' -> fs' !! name = Some f' ->
  exists f, fs !! name = Some f /\ survived f f'.
Proof.
  intros Hc Hf. specialize (Hc name). rewrite Hf in Hc.
  destruct (fs !! name) as [f|]; [|done]. by exists f.
Qed.

Lemma crashed_some fs fs' name : crashed fs fs' -> is_Some (fs' !! name) <-> is_Some (fs !! name).
Proof.
  intros Hc. split; intros [f Hf].
  - destruct (crashed_lookup_back _ _ _ _ Hc Hf) as (? & ? & _). eauto.
  - destruct (crashed_lookup _ _ _ _ Hc Hf) as (? & ? & _). eauto.
Qed.

Lemma survived_full f f' : survived f f' -> f_synced f = zlen (f_data f) -> f_data f' = f_data f.
Proof.
  intros ([tl Htl] & Hle & _) Hs. rewrite Hs in Hle. rewrite Htl, zlen_app in Hle.
  assert (zlen tl = 0) as ->%zlen_0_inv by (pose proof (zlen_nonneg tl); lia).
  by rewrite app_nil_r in Htl.
Qed.

(** A log whose records are all on stable storage keeps them. *)
Lemma survived_flushed f f' rs : log_file f rs -> log_size rs <= f_synced f -> survived f f' ->
  log_file f' rs.
Proof.
  intros (tail & Hd & Ht & Hv) Hs ([tl Htl] & Hle & _). rewrite Hd in Htl.
  apply app_eq_app in Htl as (t & [(He & Htl)|(He & ->)]).
  - exists []. split; [|done]. rewrite app_nil_r. unfold log_size in Hs.
    rewrite He, zlen_app in Hs.
    assert (zlen t = 0) as ->%zlen_0_inv by (pose proof (zlen_nonneg t); lia).
    by rewrite app_nil_r in He.
  - exists t. split; [done|]. split; [by eapply scan_next_prefix|done].
Qed.

(** Otherwise some of its records are left, the flushed ones among them. *)
Lemma survived_log f f' rs : f_data f = encode_all rs -> Forall valid_record rs -> survived f f' ->
  exists p, log_file f' p /\ survives (f_synced f) rs p.
Proof.
  intros Hd Hv ([tl Htl] & Hle & _).
  assert (Hlog : log_file f rs) by (exists []; by rewrite app_nil_r).
  destruct (log_file_take f rs (length (f_data f')) Hlog) as (p & tail & Htake & Hn & Hp).
  rewrite Htl, take_app_length in Htake. exists p. split.
  { exists tail. split; [done|]. split; [done|]. by eapply prefix_valid. }
  split; [done|]. intros q Hq Hsz.
  destruct (prefix_weak_total _ _ _ Hq Hp) as [|[[|x u] ->]]; [done|by rewrite app_nil_r|].
  exfalso. destruct Hq as [v ->]. rewrite Hd, Htake in Htl.
  rewrite !encode_all_app, encode_all_cons, <- !app_assoc in Htl. apply app_inv_head in Htl.
  assert (Hx : valid_record x).
  { rewrite !Forall_app in Hv. destruct Hv as [[_ Hv] _]. by apply Forall_cons in Hv as [? _]. }
  assert (Hlen : zlen (encode x) <= zlen tail).
  { rewrite Htake, zlen_app in Hle. rewrite log_size_app in Hsz. unfold log_size in Hsz.
    rewrite encode_all_cons, zlen_app in Hsz. pose proof (zlen_nonneg (encode_all u)). lia. }
  symmetry in Htl. apply app_eq_app in Htl as (t & [(-> & _)|(He & _)]).
  - by rewrite scan_next_encode in Hn.
  - rewrite He, zlen_app in Hlen.
    assert (zlen t = 0) as ->%zlen_0_inv by (pose proof (zlen_nonneg t); lia).
    rewrite app_nil_r in He. subst tail. rewrite <- (app_nil_r (encode x)) in Hn.
    by rewrite scan_next_encode in Hn.
Qed.

(** ** The directory *)

Lemma crashed_canonical fs fs' : crashed fs fs' -> canonical fs -> canonical fs'.
Proof.
  intros Hcr Hc name id Hin%elem_of_dom. apply Hc, elem_of_dom. by apply (crashed_some fs fs').
Qed.

Lemma crashed_dir_ids fs fs' : crashed fs fs' -> canonical fs -> dir_ids fs' = dir_ids fs.
Proof.
  intros Hcr Hc. apply dir_ids_ext; [by eapply crashed_canonical|done|].
  intros id. by apply crashed_some.
Qed.

Lemma crashed_has_hint fs fs' id : crashed fs fs' -> has_hint fs' id = has_hint fs id.
Proof. intros Hcr. apply bool_decide_ext. by apply crashed_some. Qed.

Lemma StronglySorted_filter {A} (R : A -> A -> Prop) (P : A -> Prop) `{!forall x, Decision (P x)} l :
  StronglySorted R l -> StronglySorted R (filter P l).
Proof.
  induction 1 as [|x l Hs IH Hx]; [constructor|]. rewrite filter_cons.
  destruct (decide (P x)); [|done]. constructor; [done|]. rewrite Forall_forall in *.
  intros y [_ Hy]%list_elem_of_filter. by apply Hx.
Qed.

(** The newest file comes last. *)
Lemma dir_ids_last fs a : canonical fs -> a ∈ dir_ids fs -> (forall id, id ∈ dir_ids fs -> id <= a) ->
  dir_ids fs = older fs a ++ [a].
Proof.
  intros Hc Ha Hmax. apply (StronglySorted_unique Z.le); [apply sorted_dir_ids| |].
  - apply StronglySorted_app_2.
    + intros x y Hx ->%list_elem_of_singleton. apply list_elem_of_filter in Hx as [_ Hx]. by apply Hmax.
    + apply StronglySorted_filter, sorted_dir_ids.
    + repeat constructor.
  - apply NoDup_Permutation; [by apply NoDup_dir_ids| |].
    + apply NoDup_app. split; [by apply NoDup_filter, NoDup_dir_ids|]. split.
      * intros x [Hx _]%list_elem_of_filter ->%list_elem_of_singleton. done.
      * apply NoDup_singleton.
    + intros x. rewrite elem_of_app, list_elem_of_singleton. unfold older.
      rewrite list_elem_of_filter. destruct (decide (x = a)) as [->|]; tauto.
Qed.

Lemma dir_ids_log fs L id : dir_ok fs L -> id ∈ dir_ids fs <-> is_Some (L !! id).
Proof.
  intros Hd. split; [by intros [? _]%(dir_ids_ok fs L id Hd)|]. intros [rs HL].
  pose proof Hd as (Hc & _ & Hdisk). destruct (Hdisk _ _ HL) as (? & ? & _ & f & Hf & _).
  apply elem_dir_ids; [done|]. rewrite data_id_dataPath by (unfold is_u32; lia). eauto.
Qed.

Lemma running_ids fs L a : running_dir fs L a -> dir_ids fs = older fs a ++ [a].
Proof.
  intros Hr. pose proof (rn_ok _ _ _ Hr) as Hd. pose proof Hd as (Hc & _).
  apply dir_ids_last; [done|apply (dir_ids_log fs L a Hd), (rn_in _ _ _ Hr)|].
  intros id Hin. apply (dir_ids_log fs L id Hd) in Hin as [rs HL]. by eapply (rn_last _ _ _ Hr).
Qed.

Lemma older_logs fs L a p : (log_of (<[a := p]> L) <$> older fs a) = log_of L <$> older fs a.
Proof.
  apply list_fmap_ext. intros i id Hi. apply list_elem_of_lookup_2, list_elem_of_filter in Hi as [Hne _].
  unfold log_of. by rewrite lookup_insert_ne.
Qed.

Lemma recovered_settled fs L ids : (forall id, id ∈ ids -> settled (log_of L id)) ->
  recovered fs L ids = mjoin (log_of L <$> ids).
Proof.
  intros Hs. unfold recovered, mjoin. f_equal. apply list_fmap_ext. intros i id Hi.
  apply applied_settled, Hs. by eapply list_elem_of_lookup_2.
Qed.

Lemma settled_log_of fs L a id : running_dir fs L a -> settled (log_of L id) /\ framed (log_of L id).
Proof.
  intros Hr. unfold log_of. destruct (L !! id) as [rs|] eqn:E; [by eapply (rn_logs _ _ _ Hr)|].
  split; [done|apply framed_nil].
Qed.

Lemma running_valid fs L a id : running_dir fs L a -> Forall valid_record (log_of L id).
Proof.
  intros Hr. unfold log_of. destruct (L !! id) as [rs|] eqn:E; [|constructor].
  destruct (rn_ok _ _ _ Hr) as (_ & _ & Hdisk).
  by destruct (Hdisk _ _ E) as (_ & _ & _ & ? & _ & ? & _ & _ & ?).
Qed.

Lemma recovered_app fs D ids ids' : recovered fs D (ids ++ ids') = recovered fs D ids ++ recovered fs D ids'.
Proof. unfold recovered. by rewrite fmap_app, join_app. Qed.

(** The files of the directory after a crash. *)
Lemma crash_disk_file fs fs' L a p id rs : running_dir fs L a -> crashed fs fs' ->
  (forall f', fs' !! dataPath a = Some f' -> log_file f' p) ->
  <[a := p]> L !! id = Some rs -> disk_file fs' id rs.
Proof.
  intros Hr Hcr Hp HL. pose proof (rn_ok _ _ _ Hr) as (Hc & Hall & Hdisk).
  destruct (decide (id = a)) as [->|Hne].
  - rewrite lookup_insert_eq in HL. injection HL as <-. destruct (rn_in _ _ _ Hr) as [rs0 HL0].
    destruct (Hdisk _ _ HL0) as (? & ? & _ & f & Hf & _). split; [done|]. split; [done|]. split.
    + intros fh Hfh. destruct (crashed_lookup_back _ _ _ _ Hcr Hfh) as (? & Hx & _).
      by rewrite (rn_nohint _ _ _ Hr) in Hx.
    + destruct (crashed_lookup _ _ _ _ Hcr Hf) as (f' & Hf' & _). exists f'. auto.
  - rewrite lookup_insert_ne in HL by done.
    destruct (Hdisk _ _ HL) as (? & ? & Hh & f & Hf & Hlog). split; [done|]. split; [done|]. split.
    + intros fh Hfh. destruct (crashed_lookup_back _ _ _ _ Hcr Hfh) as (f0 & Hf0 & Hs0).
      rewrite (survived_full _ _ Hs0) by (eapply (rn_hints _ _ _ Hr id); [unfold is_u32; lia|done]). by apply Hh.
    + destruct (crashed_lookup _ _ _ _ Hcr Hf) as (f' & Hf' & Hs'). exists f'. split; [done|].
      destruct (rn_flushed _ _ _ Hr _ _ HL Hne) as (f0 & Hf0 & Hle). rewrite Hf in Hf0.
      injection Hf0 as <-. by eapply survived_flushed.
Qed.

(** After a crash the directory is sound, with some prefix of the active log
    in place of it, and recovery gives the older files and what that prefix
    commits. *)
Lemma crash_sound fs fs' L a f : running_dir fs L a -> crashed fs fs' ->
  fs !! dataPath a = Some f ->
  exists p, survives (f_synced f) (log_of L a) p /\ sound_dir fs' (<[a := p]> L) /\
    recovered fs' (<[a := p]> L) (dir_ids fs') = mjoin (log_of L <$> older fs a) ++ committed p.
Proof.
  intros Hr Hcr Hf. pose proof (rn_ok _ _ _ Hr) as (Hc & Hall & Hdisk).
  destruct (rn_in _ _ _ Hr) as [rs HLa].
  destruct (rn_exact _ _ _ Hr) as (f0 & Hf0 & Hdata). rewrite Hf in Hf0. injection Hf0 as <-.
  destruct (crashed_lookup _ _ _ _ Hcr Hf) as (f' & Hf' & Hs).
  pose proof (running_valid _ _ _ a Hr) as Hv.
  destruct (survived_log f f' (log_of L a) Hdata Hv Hs) as (p & Hp & Hsur). exists p.
  assert (Hpf : p `prefix_of` log_of L a) by apply Hsur.
  assert (Hdisk' : forall id rs, <[a := p]> L !! id = Some rs -> disk_file fs' id rs).
  { intros id rs'. apply (crash_disk_file fs fs' L a p); [done..|]. intros f2 Hf2.
    rewrite Hf' in Hf2. by injection Hf2 as <-. }
  assert (Hset : forall id rs, <[a := p]> L !! id = Some rs -> id <> a -> settled rs).
  { intros id rs' HL' Hne. rewrite lookup_insert_ne in HL' by done. by eapply (rn_logs _ _ _ Hr). }
  split; [done|]. split; [split|].
  - split; [by eapply crashed_canonical|]. split; [|done]. intros id Hid Hs'.
    apply (crashed_some _ _ _ Hcr) in Hs'. destruct (decide (id = a)) as [->|];
      [by rewrite lookup_insert_eq|rewrite lookup_insert_ne by done; by apply Hall].
  - intros id rs' HL'. destruct (decide (id = a)) as [->|Hne].
    + rewrite lookup_insert_eq in HL'. injection HL' as <-.
      eapply framed_prefix; [|done]. by eapply settled_log_of.
    + rewrite lookup_insert_ne in HL' by done. by eapply (rn_logs _ _ _ Hr).
  - intros id rs' HL' Hwhy. apply (Hset id); [done|]. intros ->.
    destruct Hwhy as [Hh|(id' & [rs2 HL2] & Hlt)].
    + rewrite (crashed_has_hint fs fs') in Hh by done. unfold has_hint in Hh.
      rewrite (rn_nohint _ _ _ Hr) in Hh. by apply bool_decide_eq_true in Hh as [? ?].
    + rewrite lookup_insert_ne in HL2 by lia. apply (rn_last _ _ _ Hr) in HL2. lia.
  - intros id f2 _ [Hf2|Hf2]; by destruct (crashed_lookup_back _ _ _ _ Hcr Hf2) as (? & _ & _ & _ & ?).
  - rewrite (crashed_dir_ids fs fs') by done. rewrite (running_ids fs L a Hr), recovered_app.
    f_equal.
    + rewrite recovered_settled, older_logs; [done|]. intros id [Hne _]%list_elem_of_filter.
      unfold log_of. rewrite lookup_insert_ne by done. by eapply settled_log_of.
    + unfold recovered. simpl. rewrite app_nil_r. unfold log_of. rewrite lookup_insert_eq. simpl.
      rewrite (crashed_has_hint fs fs') by done. unfold has_hint.
      rewrite (rn_nohint _ _ _ Hr). done.
Qed.

(** ** Steps of a running directory *)

Lemma data_id_hintPath id : data_id (hintPath id) = None.
Proof.
  unfold data_id. destruct (has_suffix (hintPath id) dataSuffix) eqn:E; [|done].
  apply (has_suffix_last _ _ x61) in E; [|done].
  unfold hintPath in E. rewrite last_app in E. by vm_compute in E.
Qed.

Lemma canonical_insert_data fs id f : is_u32 id -> canonical fs -> canonical (<[dataPath id := f]> fs).
Proof.
  intros Hid Hc name id'. rewrite dom_insert_L. intros [->%elem_of_singleton|Hin]%elem_of_union Hn.
  - rewrite data_id_dataPath in Hn by done. by injection Hn as <-.
  - by apply Hc.
Qed.

Lemma running_u32 fs L a id rs : running_dir fs L a -> L !! id = Some rs -> is_u32 id /\ id + 2 < 2 ^ 32.
Proof.
  intros Hr HL. destruct (rn_ok _ _ _ Hr) as (_ & _ & Hd). destruct (Hd _ _ HL) as (? & ? & _).
  unfold is_u32. lia.
Qed.

Lemma flushed_other fs id id' f n : is_u32 id -> is_u32 id' -> id' <> id ->
  flushed fs id' n -> flushed (<[dataPath id := f]> fs) id' n.
Proof.
  intros Hid Hid' Hne (f' & Hf' & Hn). exists f'. rewrite lookup_insert_ne; [done|].
  intros E. apply Hne. symmetry. by apply dataPath_inj.
Qed.

(** The active file gets new contents, or is fsynced. *)
Lemma running_update fs L a rs n : running_dir fs L a -> settled rs -> framed rs ->
  Forall valid_record rs ->
  running_dir (<[dataPath a := mkFile (encode_all rs) n]> fs) (<[a := rs]> L) a.
Proof.
  intros Hr Hs Hfr Hv. pose proof (rn_ok _ _ _ Hr) as (Hc & Hall & Hdisk).
  destruct (rn_in _ _ _ Hr) as [rs0 HLa]. destruct (running_u32 _ _ _ _ _ Hr HLa) as [Hau Ha2].
  assert (Hh : forall id, <[dataPath a := mkFile (encode_all rs) n]> fs !! hintPath id = fs !! hintPath id)
    by (intros; apply lookup_insert_ne, dataPath_hintPath).
  split.
  - split; [by apply canonical_insert_data|]. split.
    + intros id Hid Hsome. destruct (decide (id = a)) as [->|Hne]; [by rewrite lookup_insert_eq|].
      rewrite lookup_insert_ne by done. apply Hall; [done|].
      rewrite lookup_insert_ne in Hsome; [done|]. intros E. apply Hne. symmetry. by apply dataPath_inj.
    + intros id rs' HL'. destruct (decide (id = a)) as [->|Hne].
      * rewrite lookup_insert_eq in HL'. injection HL' as <-. split; [apply Hau|]. split; [done|].
        split; [intros f; rewrite Hh, (rn_nohint _ _ _ Hr); done|].
        eexists. split; [apply lookup_insert_eq|]. exists []. by rewrite app_nil_r.
      * rewrite lookup_insert_ne in HL' by done. apply disk_file_other; [done..|]. by apply Hdisk.
  - by rewrite lookup_insert_eq.
  - intros id rs' HL'. destruct (decide (id = a)) as [->|Hne]; [done|].
    rewrite lookup_insert_ne in HL' by done. by eapply (rn_last _ _ _ Hr).
  - rewrite Hh. apply (rn_nohint _ _ _ Hr).
  - eexists. split; [apply lookup_insert_eq|]. unfold log_of. by rewrite lookup_insert_eq.
  - intros id f Hid Hf. rewrite Hh in Hf. destruct (rn_hints _ _ _ Hr id f Hid Hf) as [Hsome Hsy].
    split; [|done]. destruct (decide (id = a)) as [->|]; [by rewrite lookup_insert_eq|].
    by rewrite lookup_insert_ne.
  - intros id rs' HL' Hne. rewrite lookup_insert_ne in HL' by done.
    apply flushed_other; [done|by eapply running_u32|done|]. by apply (rn_flushed _ _ _ Hr).
  - intros id rs' HL'. destruct (decide (id = a)) as [->|Hne].
    + rewrite lookup_insert_eq in HL'. by injection HL' as <-.
    + rewrite lookup_insert_ne in HL' by done. by eapply (rn_logs _ _ _ Hr).
Qed.

(** A directory in which every log is on stable storage. *)
Record closed_dir (fs : gmap bytes file) (L : logs) : Prop := {
  cd_ok : dir_ok fs L;
  cd_hints : forall id f, is_u32 id -> fs !! hintPath id = Some f ->
    is_Some (L !! id) /\ f_synced f = zlen (f_data f);
  cd_flushed : forall id rs, L !! id = Some rs -> flushed fs id (log_size rs);
  cd_logs : forall id rs, L !! id = Some rs -> settled rs /\ framed rs
}.

Lemma running_closed fs L a : running_dir fs L a -> flushed fs a (log_size (log_of L a)) ->
  closed_dir fs L.
Proof.
  intros Hr Hfl. split; [apply (rn_ok _ _ _ Hr)|apply (rn_hints _ _ _ Hr)| |apply (rn_logs _ _ _ Hr)].
  intros id rs HL. destruct (decide (id = a)) as [->|Hne]; [|by apply (rn_flushed _ _ _ Hr)].
  unfold log_of in Hfl. by rewrite HL in Hfl.
Qed.

(** A new active file. *)
Lemma running_new fs L b : closed_dir fs L ->
  fs !! dataPath b = None -> (forall id rs, L !! id = Some rs -> id < b) ->
  is_u32 b -> b + 2 < 2 ^ 32 ->
  running_dir (<[dataPath b := mkFile [] 0]> fs) (<[b := []]> L) b.
Proof.
  intros [(Hc & Hall & Hdisk) Hhints Hflush Hlogs] Hnone Hlt Hbu Hb.
  assert (Hh : forall id, <[dataPath b := mkFile [] 0]> fs !! hintPath id = fs !! hintPath id)
    by (intros; apply lookup_insert_ne, dataPath_hintPath).
  assert (Hold : forall id rs, <[b := []]> L !! id = Some rs -> id <> b -> L !! id = Some rs)
    by (intros id rs HL Hne; by rewrite lookup_insert_ne in HL).
  assert (Hnh : fs !! hintPath b = None).
  { destruct (fs !! hintPath b) as [f|] eqn:E; [|done].
    destruct (Hhints b f Hbu E) as [[rs HL] _]. apply Hlt in HL. lia. }
  split.
  - split; [by apply canonical_insert_data|]. split.
    + intros id Hid Hsome. destruct (decide (id = b)) as [->|Hne]; [by rewrite lookup_insert_eq|].
      rewrite lookup_insert_ne by done. apply Hall; [done|].
      rewrite lookup_insert_ne in Hsome; [done|]. intros E. apply Hne. symmetry. by apply dataPath_inj.
    + intros id rs' HL'. destruct (decide (id = b)) as [->|Hne].
      * rewrite lookup_insert_eq in HL'. injection HL' as <-. split; [apply Hbu|]. split; [done|].
        split; [intros f; rewrite Hh, Hnh; done|].
        eexists. split; [apply lookup_insert_eq|]. by exists [].
      * apply disk_file_other; [done..|]. by apply Hdisk, Hold.
  - by rewrite lookup_insert_eq.
  - intros id rs' HL'. destruct (decide (id = b)) as [->|Hne]; [done|].
    apply Hold, Hlt in HL'; [lia|done].
  - by rewrite Hh.
  - eexists. split; [apply lookup_insert_eq|]. unfold log_of. by rewrite lookup_insert_eq.
  - intros id f Hid Hf. rewrite Hh in Hf. destruct (Hhints id f Hid Hf) as [[rs HL] Hsy].
    split; [|done]. rewrite lookup_insert_ne; [eauto|]. apply Hlt in HL. lia.
  - intros id rs' HL' Hne. apply Hold in HL'; [|done].
    destruct (Hdisk _ _ HL') as (? & ? & _).
    apply flushed_other; [done|unfold is_u32; lia|done|]. by apply Hflush.
  - intros id rs' HL'. destruct (decide (id = b)) as [->|Hne].
    + rewrite lookup_insert_eq in HL'. injection HL' as <-. split; [done|apply framed_nil].
    + apply Hold in HL'; [|done]. by eapply Hlogs.
Qed.

(** A hint for a file that is no longer written to. *)
Lemma running_hint fs L a id rs : running_dir fs L a -> L !! id = Some rs -> id <> a ->
  log_size rs < 2 ^ 63 -> running_dir (with_hint id rs fs) L a.
Proof.
  intros Hr HL Hne Hsz. pose proof (rn_ok _ _ _ Hr) as (Hc & Hall & Hdisk).
  destruct (running_u32 _ _ _ _ _ Hr HL) as [Hidu _].
  destruct (rn_in _ _ _ Hr) as [rsa HLa]. destruct (running_u32 _ _ _ _ _ Hr HLa) as [Hau _].
  assert (Hd : forall id', with_hint id rs fs !! dataPath id' = fs !! dataPath id').
  { intros id'. unfold with_hint. rewrite lookup_insert_ne by (apply not_eq_sym, dataPath_hintPath).
    apply lookup_delete_ne, hintTmp_other. }
  assert (Hh : forall id', is_u32 id' -> id' <> id -> with_hint id rs fs !! hintPath id' = fs !! hintPath id').
  { intros id' Hid' Hne'. unfold with_hint. rewrite lookup_insert_ne.
    - apply lookup_delete_ne, hintTmp_other.
    - intros E. apply Hne'. symmetry. by apply hintPath_inj. }
  assert (Hhid : with_hint id rs fs !! hintPath id = Some (mkFile (hint_of id rs) (zlen (hint_of id rs))))
    by apply lookup_insert_eq.
  split.
  - split; [|split].
    + intros name id' Hin Hn. unfold with_hint in Hin. rewrite dom_insert_L in Hin.
      apply elem_of_union in Hin as [->%elem_of_singleton|Hin]; [by rewrite data_id_hintPath in Hn|].
      rewrite dom_delete_L in Hin. apply elem_of_difference in Hin as [Hin _]. by apply Hc.
    + intros id' Hid'. rewrite Hd. by apply Hall.
    + intros id' rs' HL'. destruct (Hdisk _ _ HL') as (H1 & H2 & Hhk & Hfile).
      unfold disk_file, hint_ok. rewrite Hd. split; [done|]. split; [done|]. split; [|done].
      intros f Hf. destruct (decide (id' = id)) as [->|Hne'].
      * rewrite Hhid in Hf. injection Hf as <-. rewrite HL in HL'. by injection HL' as <-.
      * rewrite Hh in Hf by (done || unfold is_u32; lia). by apply Hhk.
  - done.
  - apply (rn_last _ _ _ Hr).
  - rewrite Hh by done. apply (rn_nohint _ _ _ Hr).
  - rewrite Hd. apply (rn_exact _ _ _ Hr).
  - intros id' f Hid' Hf. destruct (decide (id' = id)) as [->|Hne'].
    + rewrite Hhid in Hf. injection Hf as <-. eauto.
    + rewrite Hh in Hf by done. by apply (rn_hints _ _ _ Hr).
  - intros id' rs' HL' Hna. destruct (rn_flushed _ _ _ Hr _ _ HL' Hna) as (f & Hf & Hn).
    exists f. by rewrite Hd.
  - apply (rn_logs _ _ _ Hr).
Qed.
