(* ===== verification/Disk.v ===== *)
(** * Writes on a running directory

    Where system calls succeed: what rotating and appending do to the logs on
    disk, and which logs a crash could leave at each point. *)

From S2P Require Import Prelude Bytes Decimal Record Datafile Hint Listing Manifest Index Store.
From S2P Require Import StoreInv WritePath Ops Recovery Settled Crash.

Local Open Scope Z_scope.
Local Open Scope gokv_scope.

(** ** Listings *)

Lemma ids_eq (l l' : list Z) : StronglySorted Z.le l -> StronglySorted Z.le l' ->
  NoDup l -> NoDup l' -> (forall id, id ∈ l <-> id ∈ l') -> l = l'.
Proof. intros. by apply (StronglySorted_unique Z.le), NoDup_Permutation. Qed.

Lemma dir_ids_same fs L fs' L' : dir_ok fs L -> dir_ok fs' L' ->
  (forall id, is_Some (L !! id) <-> is_Some (L' !! id)) -> dir_ids fs' = dir_ids fs.
Proof.
  intros Hd Hd' Hs. pose proof Hd as (Hc & _). pose proof Hd' as (Hc' & _).
  apply ids_eq; auto using sorted_dir_ids, NoDup_dir_ids.
  intros id. rewrite (dir_ids_log fs L id Hd), (dir_ids_log fs' L' id Hd'). by rewrite Hs.
Qed.

Lemma older_new fs L fs' b rs : dir_ok fs L -> dir_ok fs' (<[b := rs]> L) -> L !! b = None ->
  older fs' b = dir_ids fs.
Proof.
  intros Hd Hd' Hb. pose proof Hd as (Hc & _). pose proof Hd' as (Hc' & _). unfold older.
  apply ids_eq; auto using sorted_dir_ids, NoDup_dir_ids.
  - apply StronglySorted_filter, sorted_dir_ids.
  - by apply NoDup_filter, NoDup_dir_ids.
  - intros id. rewrite list_elem_of_filter, (dir_ids_log fs L id Hd), (dir_ids_log fs' _ id Hd').
    destruct (decide (id = b)) as [->|Hne]; [|rewrite lookup_insert_ne by done; tauto].
    rewrite Hb. split; [tauto|by intros [? ?]].
Qed.

Lemma is_Some_insert_same {V} (L : gmap Z V) a v : is_Some (L !! a) ->
  forall id, is_Some (L !! id) <-> is_Some (<[a := v]> L !! id).
Proof.
  intros Ha id. destruct (decide (id = a)) as [->|Hne]; [by rewrite lookup_insert_eq|].
  by rewrite lookup_insert_ne.
Qed.

Lemma log_of_insert L a rs : log_of (<[a := rs]> L) a = rs.
Proof. unfold log_of. by rewrite lookup_insert_eq. Qed.

Lemma log_of_id L a : is_Some (L !! a) -> <[a := log_of L a]> L = L.
Proof. intros [rs HL]. unfold log_of. rewrite HL. simpl. by apply insert_id. Qed.

Lemma all_logs_split fs L a : running_dir fs L a ->
  all_logs fs L = mjoin (log_of L <$> older fs a) ++ log_of L a.
Proof.
  intros Hr. unfold all_logs. rewrite (running_ids fs L a Hr), fmap_app, join_app. simpl.
  by rewrite app_nil_r.
Qed.

Section disk.
Context {I : Type} `{KeyIndexSpec I}.
Implicit Types (s : store I) (L : logs).

Notation fs_of s := (w_fs (st_w s)).

(** The store's side of a running directory. *)
Record disk s L (a : Z) : Prop := {
  dk_run : running_dir (fs_of s) L a;
  dk_active : st_active s = Some a;
  dk_calm : w_faults (st_w s) = [];
  dk_df : exists d, st_dfs s !! a = Some d /\ df_id d = a /\ df_open d = true /\
    df_write d = true /\ df_size d = log_size (log_of L a);
  dk_dirty : st_dirty s = false -> flushed (fs_of s) a (log_size (log_of L a));
  dk_always : o_SyncMode (st_opts s) = SyncAlways -> st_dirty s = false;
  dk_fresh : forall id rs, L !! id = Some rs -> id < st_nextID s;
  dk_size : log_size (log_of L a) < 2 ^ 63;
  dk_max : o_MaxFileSize (st_opts s) < 2 ^ 63;
  dk_tasks : forall id, id ∈ st_tasks s ->
    id <> a /\ exists rs, L !! id = Some rs /\ log_size rs < 2 ^ 63
}.

(** The records a recovery after a crash at this point would let take effect. *)
Definition crash_logs s L (a : Z) (rl : list record) : Prop :=
  exists f p, fs_of s !! dataPath a = Some f /\ survives (f_synced f) (log_of L a) p /\
    rl = mjoin (log_of L <$> older (fs_of s) a) ++ committed p.

(** Once the active file is flushed nothing can be lost. *)
Lemma crash_flushed s L a rl : running_dir (fs_of s) L a ->
  flushed (fs_of s) a (log_size (log_of L a)) -> crash_logs s L a rl -> rl = all_logs (fs_of s) L.
Proof.
  intros Hr (f & Hf & Hn) (f' & p & Hf' & [Hp Hq] & ->). rewrite Hf in Hf'. injection Hf' as <-.
  assert (p = log_of L a) as ->.
  { apply (prefix_length_eq p _ Hp). apply prefix_length. by apply Hq. }
  rewrite (all_logs_split _ _ a Hr). f_equal. apply settled_committed.
  by eapply settled_log_of.
Qed.

(** ** Rotation *)

Definition rotated s (a : Z) (w1 : world) : store I :=
  let b := st_nextID s in
  set_tasks (st_tasks s ++ [a]) (set_dirty false (set_active (Some b)
    (set_files ({[b]} ∪ st_files s)
      (put_df (mkDatafile b 0 true true) (set_nextID (u32 (b + 1)) (set_w w1 s)))))).

Lemma rotate_effect incoming s L a f : disk s L a -> is_u32 (st_nextID s) ->
  fs_of s !! dataPath a = Some f ->
  wp (maybeRotateLocked incoming)
    (fun _ s1 =>
       s1 = s /\ (log_size (log_of L a) = 0 \/
                  log_size (log_of L a) + incoming <= o_MaxFileSize (st_opts s)) \/
       exists w1, s1 = rotated s a w1 /\ w_faults w1 = [] /\
         fs_of s !! dataPath (st_nextID s) = None /\
         w_fs w1 = <[dataPath (st_nextID s) := mkFile [] 0]>
                     (<[dataPath a := mkFile (f_data f) (zlen (f_data f))]> (fs_of s)))
    (fun _ _ => False) s.
Proof.
  intros Hdk Hu Hf. destruct (dk_df _ _ _ Hdk) as (d & Hd & Hid & Ho & Hw & Hsz).
  pose proof (dk_calm _ _ _ Hdk) as Hno.
  unfold maybeRotateLocked. apply wp_bind, wp_get, wp_bind.
  apply (wp_get_active _ _ _ a d (dk_active _ _ _ Hdk) Hd). rewrite Hsz.
  destruct (_ || _) eqn:Ec.
  { apply wp_ret. left. split; [done|]. apply orb_prop in Ec as [?%Z.eqb_eq|?%Z.leb_le]; auto. }
  apply wp_bind, wp_io. unfold df_sync. rewrite Ho, Hid. cbn [df_guard].
  eapply wp_fs_sync; [by intros|exact Hf|]. intros w1 Hw1.
  assert (Hno1 : w_faults w1 = []) by (by apply Hw1).
  apply wp_bind. unfold openNewActive. apply wp_bind, wp_get, wp_bind, wp_io. cbn [set_w st_w st_nextID].
  assert (Hne : dataPath (st_nextID s) <> dataPath a).
  { destruct (rn_in _ _ _ (dk_run _ _ _ Hdk)) as [rs HL].
    destruct (running_u32 _ _ _ _ _ (dk_run _ _ _ Hdk) HL) as [Hau _].
    intros E. apply dataPath_inj in E; [|done..]. apply (dk_fresh _ _ _ Hdk) in HL. lia. }
  assert (Hnone : fs_of s !! dataPath (st_nextID s) = None).
  { destruct (fs_of s !! dataPath (st_nextID s)) eqn:E; [|done].
    destruct (rn_ok _ _ _ (dk_run _ _ _ Hdk)) as (_ & Hall & _).
    destruct (Hall (st_nextID s) Hu) as [rs HL]; [eauto|]. apply (dk_fresh _ _ _ Hdk) in HL. lia. }
  unfold createDataFile. apply wp_bind, wp_fs_create_excl; [by intros| |].
  2:{ rewrite (proj1 Hw1), lookup_insert_ne, Hnone by done. by intros [? ?]. }
  intros _ w2 Hw2. apply wp_ret. do 3 apply wp_bind, wp_modify. apply wp_io, wp_syncDir.
  2:{ intros Hn. exfalso. apply Hn. by apply Hw2. }
  intros w3 Hw3. simpl in Hw3. apply wp_bind, wp_modify, wp_modify. right. exists w3.
  split; [done|]. split; [by apply Hw3, Hw2|]. split; [done|].
  by rewrite (proj1 Hw3), (proj1 Hw2), (proj1 Hw1).
Qed.

(** The old file is flushed and a new, empty one is active. *)
Lemma rotated_disk s L a w1 f : disk s L a -> is_u32 (st_nextID s) -> st_nextID s + 2 < 2 ^ 32 ->
  fs_of s !! dataPath a = Some f -> fs_of s !! dataPath (st_nextID s) = None ->
  w_faults w1 = [] ->
  w_fs w1 = <[dataPath (st_nextID s) := mkFile [] 0]>
              (<[dataPath a := mkFile (f_data f) (zlen (f_data f))]> (fs_of s)) ->
  let s1 := rotated s a w1 in
  let L1 := <[st_nextID s := []]> L in
  disk s1 L1 (st_nextID s) /\ all_logs (fs_of s1) L1 = all_logs (fs_of s) L /\
  L !! st_nextID s = None.
Proof.
  intros Hdk Hu Hb Hf Hnone Hno Hfs s1 L1. pose proof (dk_run _ _ _ Hdk) as Hr.
  destruct (rn_in _ _ _ Hr) as [rs HL]. destruct (rn_exact _ _ _ Hr) as (f0 & Hf0 & Hdata).
  rewrite Hf in Hf0. injection Hf0 as <-.
  assert (HLb : L !! st_nextID s = None).
  { destruct (L !! st_nextID s) eqn:E; [|done]. apply (dk_fresh _ _ _ Hdk) in E. lia. }
  destruct (settled_log_of _ _ _ a Hr) as [Hset Hfra].
  pose proof (running_valid _ _ _ a Hr) as Hv.
  pose proof (running_update _ _ _ (log_of L a) (zlen (f_data f)) Hr Hset Hfra Hv) as Hr1.
  rewrite <- Hdata, log_of_id in Hr1 by eauto.
  assert (Hne : dataPath a <> dataPath (st_nextID s)) by congruence.
  assert (Hr2 : running_dir (w_fs w1) L1 (st_nextID s)).
  { rewrite Hfs. apply running_new; [| |apply (dk_fresh _ _ _ Hdk)|done..].
    - apply (running_closed _ _ a); [done|]. eexists. rewrite lookup_insert_eq.
      split; [done|]. simpl. rewrite Hdata. done.
    - by rewrite lookup_insert_ne. }
  assert (Hold : older (w_fs w1) (st_nextID s) = dir_ids (fs_of s))
    by (apply (older_new (fs_of s) L (w_fs w1) _ []); [exact (rn_ok _ _ _ Hr)|exact (rn_ok _ _ _ Hr2)|done]).
  assert (Hlb : log_of L1 (st_nextID s) = []) by apply log_of_insert.
  split; [|split; [|done]].
  - split; simpl; try done.
    + exists (mkDatafile (st_nextID s) 0 true true). rewrite lookup_insert_eq, Hlb. done.
    + intros _. eexists. rewrite Hfs, lookup_insert_eq, Hlb. done.
    + intros id rs' HL'. rewrite u32_small by (unfold is_u32 in *; lia).
      destruct (decide (id = st_nextID s)) as [->|Hne']; [lia|].
      unfold L1 in HL'. rewrite lookup_insert_ne in HL' by done. apply (dk_fresh _ _ _ Hdk) in HL'. lia.
    + rewrite Hlb. done.
    + apply (dk_max _ _ _ Hdk).
    + intros id [Hid| ->%list_elem_of_singleton]%elem_of_app.
      * destruct (dk_tasks _ _ _ Hdk id Hid) as (_ & rs' & HL' & Hsz). split; [congruence|].
        exists rs'. by unfold L1; rewrite lookup_insert_ne by congruence.
      * split; [congruence|]. exists rs. unfold L1. rewrite lookup_insert_ne by congruence.
        split; [done|]. pose proof (dk_size _ _ _ Hdk) as Hsz. unfold log_of in Hsz. by rewrite HL in Hsz.
  - change (fs_of s1) with (w_fs w1). rewrite (all_logs_split _ _ _ Hr2), Hold, Hlb, app_nil_r. unfold all_logs. f_equal. apply list_fmap_ext.
    intros i id Hi. apply list_elem_of_lookup_2 in Hi.
    apply (dir_ids_log _ L id (rn_ok _ _ _ Hr)) in Hi as [rs' HL'].
    unfold log_of, L1. rewrite lookup_insert_ne by congruence. done.
Qed.

Lemma rotate_disk incoming s L a : disk s L a -> is_u32 (st_nextID s) -> st_nextID s + 2 < 2 ^ 32 ->
  wp (maybeRotateLocked incoming)
    (fun _ s1 => exists a1, let L1 := <[a1 := log_of L a1]> L in
       disk s1 L1 a1 /\
       (log_size (log_of L1 a1) = 0 \/
        log_size (log_of L1 a1) + incoming <= o_MaxFileSize (st_opts s1)) /\
       st_nextID s1 <= st_nextID s + 1 /\ st_opts s1 = st_opts s /\
       all_logs (fs_of s1) L1 = all_logs (fs_of s) L /\
       forall rl, crash_logs s1 L1 a1 rl -> crash_logs s L a rl \/ rl = all_logs (fs_of s) L)
    (fun _ _ => False) s.
Proof.
  intros Hdk Hu Hb. pose proof (dk_run _ _ _ Hdk) as Hr. destruct (rn_exact _ _ _ Hr) as (f & Hf & _).
  eapply wp_mono; [by apply (rotate_effect incoming s L a f)| |done].
  intros [] s1 [[-> Hfit]|(w1 & -> & Hno & Hnone & Hfs)].
  - exists a. cbn zeta. rewrite (log_of_id L a (rn_in _ _ _ Hr)). split; [done|]. split; [done|].
    split; [lia|]. split; [done|]. split; [done|]. auto.
  - destruct (rotated_disk s L a w1 f) as (Hdk1 & Hall & HLb); [done..|].
    exists (st_nextID s). cbn zeta. replace (log_of L (st_nextID s)) with (@nil record)
      by (unfold log_of; by rewrite HLb).
    split; [done|]. split; [left; by rewrite log_of_insert|].
    split; [simpl; rewrite u32_small by (unfold is_u32 in *; lia); lia|]. split; [done|]. split; [done|].
    intros rl Hcr. right. rewrite <- Hall. apply (crash_flushed _ _ (st_nextID s)); [exact (dk_run _ _ _ Hdk1)| |done].
    by apply (dk_dirty _ _ _ Hdk1).
Qed.

(** ** Appending *)

(** What an append leaves: the state apart from the index, its counters and
    the notifications. *)
Record extended s (a : Z) (f : file) (recs : list record) s' : Prop := {
  ex_fs : exists n, fs_of s' =
    <[dataPath a := mkFile (f_data f ++ encode_all recs) n]> (fs_of s) /\
    Z.min (zlen (f_data f)) (f_synced f) <= n /\
    (st_dirty s' = false -> n = zlen (f_data f ++ encode_all recs));
  ex_faults : w_faults (st_w s') = [];
  ex_active : st_active s' = st_active s;
  ex_next : st_nextID s' = st_nextID s;
  ex_opts : st_opts s' = st_opts s;
  ex_tasks : st_tasks s' = st_tasks s;
  ex_always : o_SyncMode (st_opts s) = SyncAlways -> st_dirty s' = false;
  ex_df : exists d d', st_dfs s !! a = Some d /\ st_dfs s' !! a = Some d' /\
    d' = df_set_size (df_size d + zlen (encode_all recs)) d
}.

Lemma append_effect offs recs s L a f : disk s L a -> recs <> [] -> fs_of s !! dataPath a = Some f ->
  wp (append_active offs (encode_all recs) recs)
    (fun _ s' => extended s a f recs s') (fun _ _ => False) s.
Proof.
  intros Hdk Hne Hf. destruct (dk_df _ _ _ Hdk) as (d & Hd & Hid & Ho & Hw & Hsz).
  pose proof (dk_calm _ _ _ Hdk) as Hno. pose proof (dk_run _ _ _ Hdk) as Hr.
  destruct (rn_exact _ _ _ Hr) as (f0 & Hf0 & Hdata). rewrite Hf in Hf0. injection Hf0 as <-.
  unfold append_active. apply wp_bind, (wp_get_active _ _ _ a d (dk_active _ _ _ Hdk) Hd), wp_bind.
  apply wp_catch, wp_io. unfold df_writeAt. rewrite Ho, Hw, Hid, Hsz. cbn [andb df_guard].
  eapply wp_fs_write_at; [exact Hf| |by intros]. intros w1 Hw1.
  assert (Hwb : write_bytes (log_size (log_of L a)) (encode_all recs) (f_data f) =
    f_data f ++ encode_all recs).
  { rewrite <- (app_nil_r (f_data f)) at 1. rewrite Hdata, write_bytes_at by done.
    by rewrite skipn_nil, app_nil_r. }
  rewrite Hwb in Hw1. clear Hwb. assert (Hlen : log_size (log_of L a) = zlen (f_data f))
    by (by rewrite Hdata). rewrite Hlen in *.
  do 3 apply wp_bind, wp_modify. apply wp_bind, wp_get, wp_bind.
  set (d1 := df_set_size (zlen (f_data f) + zlen (encode_all recs)) d).
  set (s1 := set_dirty true _).
  assert (Hd1 : st_dfs s1 !! a = Some d1) by (unfold s1, put_df; simpl; rewrite Hid; apply lookup_insert_eq).
  assert (Hno1 : w_faults (st_w s1) = []) by (by apply Hw1).
  apply (wp_mono _ (fun _ s2 => exists w2 b, s2 = set_dirty b (set_w w2 s1) /\ w_faults w2 = [] /\
    (o_SyncMode (st_opts s) = SyncAlways -> b = false) /\
    exists n, w_fs w2 = <[dataPath a := mkFile (f_data f ++ encode_all recs) n]> (fs_of s) /\
      Z.min (zlen (f_data f)) (f_synced f) <= n /\
      (b = false -> n = zlen (f_data f ++ encode_all recs))) _ (fun _ _ => False)); [| |done].
  { apply wp_when.
    - intros Hb. apply wp_bind, wp_io. unfold df_sync, d1. cbn [df_set_size df_open df_id].
      rewrite Ho, Hid. cbn [df_guard].
      eapply wp_fs_sync; [by intros|simpl; rewrite (proj1 Hw1); apply lookup_insert_eq|].
      intros w2 Hw2. apply wp_modify. exists w2, false. split; [done|]. split; [by apply Hw2|].
      split; [done|]. eexists. rewrite (proj1 Hw2). simpl. rewrite (proj1 Hw1), insert_insert_eq.
      split; [done|]. split; [|done]. rewrite zlen_app. pose proof (zlen_nonneg (encode_all recs)). lia.
    - intros Hb. exists w1, true. split; [done|]. split; [done|].
      split; [by intros Hal; rewrite bool_decide_true in Hb|]. eexists. split; [by apply Hw1|].
      split; [|done]. lia. }
  intros [] s2 (w2 & b & -> & Hno2 & Hal & Hfs). apply wp_bind, wp_modify.
  destruct (index_batch_frame (df_id d1) (zlen (f_data f)) offs recs (set_dirty b (set_w w2 s1)))
    as (ix & lv & n & ->).
  destruct (last recs) as [r|] eqn:Hlast; [|by apply last_None in Hlast].
  apply wp_modify. split; try done.
  exists d, d1. split; [done|]. split; [done|]. by rewrite Hsz.
Qed.

Lemma flushed_insert fs a d n : flushed (<[dataPath a := mkFile d n]> fs) a n.
Proof. eexists. by rewrite lookup_insert_eq. Qed.

Lemma extended_disk recs s L a f s' : disk s L a -> unit_log recs -> Forall valid_record recs ->
  log_size recs < 2 ^ 32 -> fs_of s !! dataPath a = Some f ->
  log_size (log_of L a) = 0 \/ log_size (log_of L a) + log_size recs <= o_MaxFileSize (st_opts s) ->
  extended s a f recs s' ->
  let L' := <[a := log_of L a ++ recs]> L in
  disk s' L' a /\ older (fs_of s') a = older (fs_of s) a.
Proof.
  intros Hdk Hu Hv Hsz Hf Hfit [(n & Hfs & Hn & Hdirty) Hno Hact Hnext Hopts Htasks Hal (d & d' & Hd & Hd' & ->)] L'.
  pose proof (dk_run _ _ _ Hdk) as Hr. destruct (rn_exact _ _ _ Hr) as (f0 & Hf0 & Hdata).
  rewrite Hf in Hf0. injection Hf0 as <-. destruct (settled_log_of _ _ _ a Hr) as [Hset Hfra].
  pose proof (running_valid _ _ _ a Hr) as Hv0.
  assert (Hr' : running_dir (fs_of s') L' a).
  { rewrite Hfs, Hdata, <- encode_all_app. apply running_update; [done| | |].
    - apply settled_app; [done|by apply unit_settled].
    - by apply framed_app.
    - by apply Forall_app. }
  assert (Hla : log_of L' a = log_of L a ++ recs) by apply log_of_insert.
  assert (Hlen : zlen (f_data f ++ encode_all recs) = log_size (log_of L a ++ recs))
    by (by rewrite Hdata, <- encode_all_app).
  split.
  - split; rewrite ?Hla, ?Hopts; try done.
    + by rewrite Hact, (dk_active _ _ _ Hdk).
    + destruct (dk_df _ _ _ Hdk) as (d0 & Hd0 & Hid & Ho & Hw & Hs0). rewrite Hd in Hd0.
      injection Hd0 as <-. eexists. split; [done|]. simpl. do 3 (split; [done|]).
      by rewrite Hs0, log_size_app.
    + intros Hb. rewrite Hfs, <- Hlen, <- (Hdirty Hb). apply flushed_insert.
    + intros id rs HL'. rewrite Hnext. destruct (decide (id = a)) as [->|Hne].
      * destruct (rn_in _ _ _ Hr) as [rs0 HL0]. by eapply (dk_fresh _ _ _ Hdk).
      * unfold L' in HL'. rewrite lookup_insert_ne in HL' by done. by eapply (dk_fresh _ _ _ Hdk).
    + rewrite log_size_app. pose proof (dk_max _ _ _ Hdk). destruct Hfit; lia.
    + apply (dk_max _ _ _ Hdk).
    + intros id Hid. rewrite Htasks in Hid. destruct (dk_tasks _ _ _ Hdk id Hid) as (Hne & rs & HL & Hs0).
      split; [done|]. exists rs. unfold L'. by rewrite lookup_insert_ne.
  - unfold older. f_equal. apply (dir_ids_same _ L _ L'); [apply (rn_ok _ _ _ Hr)|apply (rn_ok _ _ _ Hr')|].
    apply is_Some_insert_same, (rn_in _ _ _ Hr).
Qed.

Lemma append_disk offs recs s L a : disk s L a -> unit_log recs -> Forall valid_record recs ->
  log_size recs < 2 ^ 32 ->
  log_size (log_of L a) = 0 \/ log_size (log_of L a) + log_size recs <= o_MaxFileSize (st_opts s) ->
  wp (append_active offs (encode_all recs) recs)
    (fun _ s' => let L' := <[a := log_of L a ++ recs]> L in
       disk s' L' a /\ st_nextID s' = st_nextID s /\ st_opts s' = st_opts s /\
       all_logs (fs_of s') L' = all_logs (fs_of s) L ++ recs /\
       forall rl, crash_logs s' L' a rl ->
         crash_logs s L a rl \/ rl = all_logs (fs_of s) L \/ rl = all_logs (fs_of s') L')
    (fun _ _ => False) s.
Proof.
  intros Hdk Hu Hv Hsz Hfit. pose proof (dk_run _ _ _ Hdk) as Hr.
  destruct (rn_exact _ _ _ Hr) as (f & Hf & Hdata).
  assert (Hne : recs <> []) by (destruct Hu as (pre & r & -> & _); by destruct pre).
  eapply wp_mono; [by apply (append_effect offs recs s L a f)| |done].
  intros [] s' Hex. destruct (extended_disk recs s L a f s') as [Hdk' Hold]; [done..|].
  set (L' := <[a := log_of L a ++ recs]> L) in *. pose proof (dk_run _ _ _ Hdk') as Hr'.
  destruct (settled_log_of _ _ _ a Hr) as [Hset _].
  assert (Hol : log_of L' <$> older (fs_of s) a = log_of L <$> older (fs_of s) a) by apply older_logs.
  assert (Hla : log_of L' a = log_of L a ++ recs) by apply log_of_insert.
  cbn zeta. split; [done|]. destruct Hex as [(n & Hfs & Hn & _) _ _ Hnext Hopts _ _ _].
  split; [done|]. split; [done|]. split.
  { rewrite (all_logs_split _ _ a Hr'), (all_logs_split _ _ a Hr), Hold, Hol, Hla. by rewrite app_assoc. }
  intros rl (f' & p & Hf' & [Hp Hq] & ->). rewrite Hfs, lookup_insert_eq in Hf'. injection Hf' as <-.
  cbn [f_synced] in Hq. rewrite Hla in Hp, Hq. rewrite Hold, Hol.
  destruct (append_prefix _ _ _ Hset Hu Hp) as [Hp'|[(_ & -> & _)| ->]].
  - left. exists f, p. split; [done|]. split; [|done]. split; [done|]. intros q Hq1 Hq2.
    apply Hq; [by apply prefix_app_r|]. apply prefix_log_size in Hq1. unfold log_size at 2 in Hq1.
    rewrite <- Hdata in Hq1. lia.
  - right. left. by rewrite (all_logs_split _ _ a Hr).
  - right. right. rewrite (all_logs_split _ _ a Hr'), Hold, Hol, Hla. f_equal.
    apply settled_committed, settled_app; [done|by apply unit_settled].
Qed.

(** The whole write. *)
Lemma write_disk recs s L a : disk s L a -> is_u32 (st_nextID s) -> st_nextID s + 2 < 2 ^ 32 ->
  unit_log recs -> Forall valid_record recs -> log_size recs < 2 ^ 32 ->
  wp (writeLocked recs)
    (fun _ s' => exists a', let L' := <[a' := log_of L a' ++ recs]> L in
       disk s' L' a' /\ st_nextID s' <= st_nextID s + 1 /\ st_opts s' = st_opts s /\
       all_logs (fs_of s') L' = all_logs (fs_of s) L ++ recs /\
       forall rl, crash_logs s' L' a' rl ->
         crash_logs s L a rl \/ rl = all_logs (fs_of s) L \/ rl = all_logs (fs_of s') L')
    (fun _ _ => False) s.
Proof.
  intros Hdk Hid Hb Hu Hv Hsz. unfold writeLocked.
  rewrite (encode_batch_spec [] [] recs) by done. cbn [app]. apply wp_bind.
  eapply wp_mono; [by apply (rotate_disk _ s L a)| |done].
  intros [] s1 (a1 & Hdk1 & Hfit & Hn1 & Ho1 & Hall1 & Hcr1).
  eapply wp_mono; [apply (append_disk _ recs s1 (<[a1 := log_of L a1]> L) a1); done| |done].
  intros [] s2 (Hdk2 & Hn2 & Ho2 & Hall2 & Hcr2).
  rewrite log_of_insert, insert_insert_eq in *. exists a1. cbn zeta.
  split; [done|]. split; [lia|]. split; [congruence|]. split; [congruence|].
  intros rl Hrl. destruct (Hcr2 rl Hrl) as [Hc|[->|Hc]]; [|auto..].
  destruct (Hcr1 rl Hc) as [?| ->]; auto.
Qed.
End disk.
