(* ===== verification/Durability.v ===== *)
(** * Durability

    Histories of client operations, periodic fsyncs and hint builds on a store
    whose system calls succeed, and a crash after any of them: the store that
    is opened afterwards stands for the map after a prefix of the history, with
    everything up to the last fsync in it and no batch in part. *)

From S2P Require Import Prelude Bytes Decimal Record Datafile Hint Listing Manifest Lock Index.
From S2P Require Import Store StoreInv WritePath Ops Reads Scans Background Recovery Engine.
From S2P Require Import Settled Crash Disk.

Local Open Scope Z_scope.
Local Open Scope gokv_scope.

(** ** Units *)

Lemma unit_numbered q recs : unit_log recs ->
  unit_log (imap (fun i => with_seq (q + 1 + Z.of_nat i)) recs).
Proof.
  intros (pre & r & -> & Hpre & Hr). rewrite imap_app. cbn [imap].
  eexists _, _. split; [done|]. split.
  - apply Forall_lookup. intros i x. rewrite list_lookup_imap.
    destruct (pre !! i) as [y|] eqn:E; [|done]. intros [= <-]. rewrite Forall_lookup in Hpre.
    exact (Hpre i y E).
  - destruct Hr as [[-> Hr]|Hr]; [left|right]; auto.
Qed.

Lemma put_unit now k v : unit_log [mkRecord now 0 x00 k v].
Proof. exists [], (mkRecord now 0 x00 k v). split; [done|]. split; [done|]. by left. Qed.

Lemma delete_unit now k : unit_log [mkRecord now 0 (Z_byte flagTombstone) k []].
Proof. eexists [], _. split; [done|]. split; [done|]. by left. Qed.

Lemma batch_unit now ks vs : length ks = length vs -> ks <> [] -> unit_log (batch_records now ks vs).
Proof.
  revert vs. induction ks as [|k ks IH]; intros [|v vs] Hl Hne; try done. simpl in Hl.
  destruct ks as [|k2 ks].
  - destruct vs; [|done]. eexists [], _. split; [done|]. split; [done|]. by right.
  - destruct (IH vs) as (pre & r & Heq & Hpre & Hr); [lia|done|].
    change (batch_records now (k :: k2 :: ks) (v :: vs)) with
      (mkRecord now 0 (Z_byte flagBatch) k v :: batch_records now (k2 :: ks) vs).
    rewrite Heq. exists (mkRecord now 0 (Z_byte flagBatch) k v :: pre), r.
    split; [done|]. split; [by constructor|]. right.
    destruct Hr as [[-> Ho]|Hr]; [|done]. destruct vs as [|v2 vs]; [done|].
    simpl in Heq. injection Heq as Heq _. by rewrite <- Heq in *; destruct ks.
Qed.

Section durability.
Context {I : Type} `{KeyIndexSpec I}.
Implicit Types (s : store I) (L : logs) (M N : newest) (m : gmap bytes bytes).

Notation fs_of s := (w_fs (st_w s)).

(** A store in step with its directory: the index is what the logs say. *)
Record durable s L M (a : Z) : Prop := {
  du_ok : store_ok s L M;
  du_disk : disk s L a;
  du_open : st_closed s = false;
  du_newest : M = absorb_all ∅ (all_logs (fs_of s) L)
}.

(** What the store could know after a crash now. *)
Definition crash_map s L (a : Z) N : Prop := exists rl, crash_logs s L a rl /\ N = absorb_all ∅ rl.

(** How a step moves the possible outcomes of a crash. *)
Definition crash_step (sync : bool) s L M a s' L' M' a' : Prop :=
  forall N, crash_map s' L' a' N ->
    N = M' \/ sync = false /\ (crash_map s L a N \/ N = M).

Lemma disk_seq q s L a : disk s L a -> disk (set_seq q s) L a.
Proof. intros []. by split. Qed.
Lemma disk_cnt c s L a : disk s L a -> disk (set_cnt c s) L a.
Proof. intros []. by split. Qed.

Lemma durable_next s L M a : durable s L M a -> is_u32 (st_nextID s).
Proof. intros Hd. apply (si_fresh _ _ _ (ok_inv _ _ _ (du_ok _ _ _ _ Hd))). Qed.

(** Everything is on stable storage but what the active file got since the
    last fsync. *)
Lemma durable_sync s L M a : durable s L M a -> sync_inv s L.
Proof.
  intros Hd id rs HL Hwhy. pose proof (du_disk _ _ _ _ Hd) as Hdk.
  destruct (decide (id = a)) as [->|Hne]; [|by apply (rn_flushed _ _ _ (dk_run _ _ _ Hdk))].
  destruct Hwhy as [Hn|Hdi]; [by rewrite (dk_active _ _ _ Hdk) in Hn|].
  pose proof (dk_dirty _ _ _ Hdk Hdi) as Hf. unfold log_of in Hf. by rewrite HL in Hf.
Qed.

(** ** Writes *)

(** [rs] was appended: the logs have it at their end, the observers were told
    of it, and what the writers do not touch is as it was. *)
Record appended_to s L (rs : list record) s' L' : Prop := {
  ap_logs : all_logs (fs_of s') L' = all_logs (fs_of s) L ++ rs;
  ap_grows : grows L L';
  ap_next : st_nextID s' <= st_nextID s + 1;
  ap_seq : st_seq s' = st_seq s + zlen rs;
  ap_seqs : r_seq <$> rs = seqZ (st_seq s + 1) (zlen rs);
  ap_valid : Forall valid_record rs /\ log_size rs < 2 ^ 32;
  ap_obs : st_obs s' = st_obs s;
  ap_merge : st_mergeSeq s' = st_mergeSeq s;
  ap_notes : exists q, st_notes s' = st_notes s ++ ((fun id => (id, q, encode_all rs)) <$> elements (st_obs s))
}.

Lemma numbered_length q recs : zlen (imap (fun i => with_seq (q + 1 + Z.of_nat i)) recs) = zlen recs.
Proof. unfold zlen. by rewrite length_imap. Qed.

Lemma numbered_seqs q recs : r_seq <$> imap (fun i => with_seq (q + 1 + Z.of_nat i)) recs =
  seqZ (q + 1) (zlen (imap (fun i => with_seq (q + 1 + Z.of_nat i)) recs)).
Proof.
  apply list_eq. intros i. rewrite list_lookup_fmap, list_lookup_imap. symmetry.
  destruct (recs !! i) as [r|] eqn:E; simpl.
  - apply lookup_seqZ. rewrite numbered_length. apply lookup_lt_Some in E. unfold zlen. split; [done|lia].
  - apply lookup_seqZ_ge. rewrite numbered_length. apply lookup_ge_None in E. unfold zlen. lia.
Qed.

Lemma append_durable recs f s L M a : durable s L M a -> room s (zlen recs) ->
  st_nextID s + 2 < 2 ^ 32 -> unit_log recs -> Forall valid_unnumbered recs ->
  log_size recs < 2 ^ 32 ->
  wp (appendLocked recs;;; count f)
    (fun _ s' => exists L' a', let M' := insert_all M
         (imap (fun i => with_seq (st_seq s + 1 + Z.of_nat i)) recs) in
       durable s' L' M' a' /\ crash_step false s L M a s' L' M' a' /\ st_opts s' = st_opts s /\
       appended_to s L (imap (fun i => with_seq (st_seq s + 1 + Z.of_nat i)) recs) s' L')
    (fun _ _ => False) s.
Proof.
  intros Hd Hroom Hn Hu Hv Hsz. pose proof Hd as [Hok Hdk Hc HM].
  assert (Hne : recs <> []) by (destruct Hu as (pre & r & -> & _); by destruct pre).
  pose proof (appendLocked_wp recs s L M Hok Hroom Hne Hv Hsz) as Hwp.
  destruct (ok_seq _ _ _ Hok) as [Hseq Hb]. pose proof (zlen_nonneg recs). destruct Hroom as [Hr1 Hr2].
  unfold is_u64 in Hseq. destruct (absorb_numbered (st_seq s) recs M) as [Habs _]; [lia|done|].
  set (rs := imap (fun i => with_seq (st_seq s + 1 + Z.of_nat i)) recs) in *.
  assert (Hdisk : wp (appendLocked recs)
    (fun _ s' => exists a', let L' := <[a' := log_of L a' ++ rs]> L in
       disk s' L' a' /\ st_nextID s' <= st_nextID s + 1 /\ st_opts s' = st_opts s /\
       all_logs (fs_of s') L' = all_logs (fs_of s) L ++ rs /\
       forall rl, crash_logs s' L' a' rl ->
         crash_logs s L a rl \/ rl = all_logs (fs_of s) L \/ rl = all_logs (fs_of s') L')
    (fun _ _ => False) s).
  { unfold appendLocked. apply wp_bind, wp_get, wp_bind, wp_modify.
    rewrite assign_seqs_spec by lia. cbn [fst snd]. fold rs.
    apply (write_disk rs (set_seq (st_seq s + zlen recs) s) L a).
    - by apply disk_seq.
    - exact (durable_next s L M a Hd).
    - done.
    - by apply unit_numbered.
    - apply numbered_valid; [lia|done..].
    - unfold rs. by rewrite numbered_size. }
  apply wp_bind. unfold wp in *. destruct (appendLocked recs s) as [[[]|e] s']; [|done].
  destruct Hwp as [(L0 & r & _ & _ & _ & _ & Hvis & _) (L' & a1 & Hok' & Ha1 & HL')].
  destruct Hdisk as (a' & Hdk' & Hnext & Hopts & Hall & Hcr).
  rewrite (dk_active _ _ _ Hdk') in Ha1. injection Ha1 as ->. rewrite <- HL' in *.
  unfold visible, notify in Hvis. simpl in Hvis. injection Hvis as _ Hq Hob _ Hnt _ Hms _ Hcl.
  simpl. exists L', a1. rewrite <- Habs in Hok' |- *.
  assert (HM' : absorb_all M rs = absorb_all ∅ (all_logs (fs_of s') L'))
    by (by rewrite Hall, absorb_all_app, HM).
  split; [|split; [|split; [done|]]].
  - split; [by apply count_ok|by apply disk_cnt|simpl; congruence|done].
  - intros N (rl & Hrl & ->). destruct (Hcr rl Hrl) as [Hc'|[->| ->]].
    + right. split; [done|]. left. by exists rl.
    + right. split; [done|]. right. by rewrite HM.
    + left. by rewrite HM'.
  - split; simpl; [done| | |unfold rs; by rewrite Hq, numbered_length|apply numbered_seqs| |done|done|].
    + intros id l Hid. rewrite HL'. destruct (decide (id = a1)) as [->|Hida].
      * rewrite lookup_insert_eq. exists rs. unfold log_of. by rewrite Hid.
      * rewrite lookup_insert_ne by done. exists []. by rewrite app_nil_r.
    + done.
    + split; [apply numbered_valid; [lia|done..]|]. unfold rs. by rewrite numbered_size.
    + exists (r_seq r). done.
Qed.

Lemma check_open_bind {A} (k : sto I A) s : st_closed s = false -> (check_open;;; k) s = k s.
Proof. intros Hc. unfold check_open, sm_bind, sm_get. by rewrite Hc. Qed.

Lemma Put_valid s now k v : put_error k v = None -> st_closed s = false ->
  Put now k v s = (appendLocked [mkRecord now 0 x00 k v];;; count (add_put 1)) s.
Proof.
  intros He Hc. unfold put_error in He. unfold Put, throw_if.
  destruct (validateKey k); [done|]. destruct (MaxValueSize <? zlen v); [done|].
  rewrite !sm_bind_ret. by rewrite check_open_bind.
Qed.

Lemma BatchPut_valid s now ks vs : length ks = length vs -> ks <> [] -> batch_error ks vs = None ->
  st_closed s = false ->
  BatchPut now ks vs s = (appendLocked (batch_records now ks vs);;; count (add_put (zlen ks))) s.
Proof.
  intros Hl Hne He Hc. unfold BatchPut, throw_if.
  assert (Hz : zlen ks = zlen vs) by (unfold zlen; by rewrite Hl).
  destruct (Z.eqb_spec (zlen ks) (zlen vs)); [|done]. cbn [negb].
  destruct (Z.eqb_spec (zlen ks) 0) as [H0'|_]; [by apply zlen_0_inv in H0'|].
  rewrite He, !sm_bind_ret. by rewrite check_open_bind.
Qed.

Lemma Delete_valid s L M now k v : store_ok s L M -> validateKey k = None -> kv M !! k = Some v ->
  st_closed s = false ->
  Delete now k s =
    (appendLocked [mkRecord now 0 (Z_byte flagTombstone) k []];;; count add_del) s.
Proof.
  intros Hok Hk Hv Hc. unfold Delete, throw_if. rewrite Hk, sm_bind_ret, sm_bind_get.
  pose proof (idx_get_kv s L M k Hok) as Hg.
  destruct (idx_get k (st_idx s)) as [e|]; [destruct Hg as (r & _ & _ & Hg)|congruence].
  destruct (e_tomb e); [congruence|]. cbn [negb]. by rewrite check_open_bind.
Qed.

(** The records a command appends, when it appends any. *)
Definition appends m (c : cmd) : option (list record * (counters -> counters)) :=
  match c with
  | CPut now k v => if put_error k v then None
                    else Some ([mkRecord now 0 x00 k v], add_put 1)
  | CBatch now ks vs => if batch_refusal ks vs then None else
                        match ks with [] => None | _ =>
                          Some (batch_records now ks vs, add_put (zlen ks)) end
  | CDelete now k => if delete_refusal m k then None
                     else Some ([mkRecord now 0 (Z_byte flagTombstone) k []], add_del)
  | _ => None
  end.

Lemma small_record now fl k v : validateKey k = None -> zlen v <= MaxValueSize ->
  log_size [mkRecord now 0 fl k v] < 2 ^ 32.
Proof.
  intros Hk%validateKey_ok Hv. unfold log_size.
  rewrite zlen_encode_all_cons, zlen_encode_all_nil, zlen_encode. simpl.
  destruct max_sizes as [E1 E2]. lia.
Qed.

Lemma appends_ok c s L M recs f : store_ok s L M -> st_closed s = false -> cmd_ok c ->
  appends (kv M) c = Some (recs, f) ->
  (exec c s).2 = ((appendLocked recs;;; count f) s).2 /\ c <> CSync /\
  unit_log recs /\ Forall valid_unnumbered recs /\ log_size recs < 2 ^ 32 /\ zlen recs = cost c /\
  forall q, kv (insert_all M (imap (fun i => with_seq (q + 1 + Z.of_nat i)) recs)) = after (kv M) c.
Proof.
  intros Hok Hc Hcmd Ha. destruct c as [now k v|now ks vs|now k| | | | |]; try done; cbn [appends] in Ha.
  - destruct (put_error k v) as [e|] eqn:E; [done|]. injection Ha as <- <-.
    cbn [exec]. rewrite (Put_valid s now k v E Hc). split; [done|]. split; [done|].
    unfold put_error in E. destruct (validateKey k) eqn:Ek; [done|].
    destruct (Z.ltb_spec MaxValueSize (zlen v)); [done|]. pose proof (validateKey_ok k Ek).
    split; [apply put_unit|]. split; [by apply Forall_singleton|]. split; [by apply small_record|].
    split; [done|]. intros q. simpl. rewrite kv_insert. unfold put_error. rewrite Ek.
    by destruct (Z.ltb_spec MaxValueSize (zlen v)); [lia|].
  - unfold batch_refusal in *. destruct (decide (length ks = length vs)) as [Hl|]; [|done].
    destruct (batch_error ks vs) as [e|] eqn:He; [done|]. destruct ks as [|k0 ks0]; [done|].
    set (ks := k0 :: ks0) in *.
    assert (Hr : recs = batch_records now ks vs) by congruence.
    assert (Hf : f = add_put (zlen ks)) by congruence. subst recs f. clear Ha. destruct Hcmd as [Hnow Hsz].
    destruct (batch_records_ok now ks vs Hl Hnow He) as (Hv & Ht & Hzip & Hn).
    cbn [exec]. rewrite (BatchPut_valid s now ks vs Hl ltac:(done) He Hc). split; [done|]. split; [done|].
    split; [by apply batch_unit|]. split; [done|]. split; [done|].
    split; [unfold zlen; by rewrite Hn|]. intros q. unfold after, batch_refusal.
    rewrite decide_True, He by done.
    by rewrite kv_insert_all, numbered_pairs, Hzip by (by apply numbered_tombstone).
  - unfold delete_refusal in *. destruct (validateKey k) eqn:Ek; [done|].
    destruct (kv M !! k) as [v|] eqn:Ev; [|done]. injection Ha as <- <-.
    cbn [exec]. rewrite (Delete_valid s L M now k v Hok Ek Ev Hc). split; [done|]. split; [done|].
    pose proof (validateKey_ok k Ek).
    split; [apply delete_unit|]. split; [by apply Forall_singleton|].
    split; [by apply small_record|]. split; [done|]. intros q. simpl. rewrite kv_insert.
    unfold delete_refusal. by rewrite Ek, Ev.
Qed.

(** ** Steps that write no record *)

(** The active file and the directory stay. *)
Lemma durable_same s L M a s' : durable s L M a -> store_ok s' L M ->
  w_faults (st_w s') = [] -> fs_of s' = fs_of s ->
  st_active s' = st_active s -> st_dfs s' = st_dfs s -> st_dirty s' = st_dirty s ->
  st_opts s' = st_opts s -> st_nextID s' = st_nextID s -> st_tasks s' = st_tasks s ->
  st_closed s' = st_closed s ->
  durable s' L M a /\ crash_step false s L M a s' L M a.
Proof.
  intros [Hok [Hr Ha Hno Hdf Hdi Hal Hfr Hsz Hmx Htk] Hc HM] Hok' Hno' Hfs E1 E2 E3 E4 E5 E6 E7.
  split.
  - split; [done| |congruence|by rewrite Hfs].
    split; rewrite ?Hfs, ?E1, ?E2, ?E3, ?E4, ?E5, ?E6; done.
  - intros N (rl & (f & p & Hf & Hp & Hrl) & HN). right. split; [done|]. left. exists rl.
    split; [|done]. exists f, p. by rewrite <- Hfs.
Qed.

Lemma read_durable s L M a s' : durable s L M a -> read_frame s s' -> refines s' (kv M) ->
  w_faults (st_w s') = [] -> durable s' L M a /\ crash_step false s L M a s' L M a.
Proof.
  intros Hd (w' & c' & -> & Hfs) _ Hno. apply (durable_same s); try done.
  assert (Hok : store_ok (set_cnt c' s) L M) by (apply count_ok, Hd).
  destruct Hok as [[] ? ? ?]. split; [|done..]. split; simpl; rewrite ?Hfs; done.
Qed.

(** fsync: afterwards there is one outcome. *)
Lemma sync_durable s L M a : durable s L M a ->
  durable (Sync s).2 L M a /\ crash_step true s L M a (Sync s).2 L M a /\
  st_opts (Sync s).2 = st_opts s.
Proof.
  intros Hd. pose proof Hd as [Hok Hdk Hc HM].
  pose proof (dk_run _ _ _ Hdk) as Hr. destruct (rn_exact _ _ _ Hr) as (f & Hf & Hdata).
  destruct (dk_df _ _ _ Hdk) as (d & Hdd & Hid & Ho & Hw & Hsz). pose proof (dk_calm _ _ _ Hdk) as Hno.
  assert (Hone : forall s', durable s' L M a -> st_dirty s' = false -> crash_step true s L M a s' L M a).
  { intros s' Hd' Hdi N (rl & Hrl & ->). left. rewrite (du_newest _ _ _ _ Hd').
    f_equal. apply (crash_flushed _ _ a); [apply (dk_run _ _ _ (du_disk _ _ _ _ Hd'))| |done].
    by apply (dk_dirty _ _ _ (du_disk _ _ _ _ Hd')). }
  destruct (st_dirty s) eqn:Ed.
  2:{ assert (Hs : Sync s = (Ok tt, s)) by (unfold Sync; rewrite sm_bind_get, Ed; done).
      rewrite Hs. simpl. auto. }
  pose proof (Sync_wp s L M Hok) as Hwp.
  assert (Hwp2 : wp Sync (fun _ s' => exists w', s' = set_dirty false (set_w w' s) /\ w_faults w' = [] /\
     w_fs w' = <[dataPath a := mkFile (f_data f) (zlen (f_data f))]> (fs_of s)) (fun _ _ => False) s).
  { unfold Sync. apply wp_bind, wp_get. rewrite Ed, (dk_active _ _ _ Hdk). cbn [negb].
    apply wp_bind, (wp_get_active _ _ _ a d (dk_active _ _ _ Hdk) Hdd), wp_bind, wp_io.
    unfold df_sync. rewrite Ho, Hid. cbn [df_guard]. eapply wp_fs_sync; [by intros|exact Hf|].
    intros w' Hw'. apply wp_modify. exists w'. split; [done|]. split; [by apply Hw'|apply Hw']. }
  unfold wp in Hwp, Hwp2. destruct (Sync s) as [[[]|e] s']; [|done]. cbn [snd].
  destruct Hwp as (Hok' & _). destruct Hwp2 as (w' & -> & Hno' & Hfs').
  pose proof (running_valid _ _ _ a Hr) as Hv.
  destruct (settled_log_of _ _ _ a Hr) as [Hset Hfra].
  assert (Hr' : running_dir (w_fs w') L a).
  { pose proof (running_update _ _ _ (log_of L a) (zlen (f_data f)) Hr Hset Hfra Hv) as Hu.
    rewrite (log_of_id L a (rn_in _ _ _ Hr)), <- Hdata in Hu. by rewrite Hfs'. }
  assert (Hd' : durable (set_dirty false (set_w w' s)) L M a).
  { split; [done| |done|].
    - destruct Hdk. split; try done. intros _. simpl. rewrite Hfs'. eexists.
      rewrite lookup_insert_eq. split; [done|]. simpl. by rewrite Hdata.
    - simpl. rewrite HM. unfold all_logs. do 3 f_equal. symmetry.
      by apply (dir_ids_same _ L _ L); [apply (rn_ok _ _ _ Hr)|apply (rn_ok _ _ _ Hr')|]. }
  split; [done|]. split; [by apply Hone|done].
Qed.

(** A hint goroutine runs: the hint of a file no longer written to appears. *)
Lemma hint_durable s L M a : durable s L M a ->
  durable (run_task s).2 L M a /\ crash_step false s L M a (run_task s).2 L M a /\
  st_opts (run_task s).2 = st_opts s.
Proof.
  intros Hd. pose proof Hd as [Hok Hdk Hc HM]. pose proof (dk_run _ _ _ Hdk) as Hr.
  pose proof (run_task_wp s L M Hok) as Hwp.
  destruct (st_tasks s) as [|id ids] eqn:Et.
  { assert (Hs : run_task s = (Ok tt, s)) by (unfold run_task; rewrite sm_bind_get, Et; done).
    rewrite Hs. simpl. split; [done|]. split; [|done]. intros N HN. right. auto. }
  destruct (dk_tasks _ _ _ Hdk id) as (Hne & rs & HL & Hsz); [rewrite Et; by left|].
  destruct (rn_ok _ _ _ Hr) as (_ & _ & Hdisk).
  destruct (Hdisk _ _ HL) as (_ & _ & _ & f & Hf & Hlog).
  pose proof (buildHint_wp id (st_w s) f rs Hf Hlog) as Hb. pose proof (dk_calm _ _ _ Hdk) as Hno.
  assert (Hs : exists w', (run_task s).2 = set_w w' (set_tasks ids s) /\ w_faults w' = [] /\
    w_fs w' = with_hint id rs (fs_of s)).
  { unfold run_task. rewrite sm_bind_get, Et. unfold sm_bind, sm_modify, sm_ignore, io. simpl.
    unfold wp in Hb. destruct (buildHint id (st_w s)) as [[[]|e] w']; [|by destruct Hb].
    destruct Hb as (Hf' & rs' & _ & Hall & Hfs). exists w'. rewrite (Hall Hno) in Hfs.
    split; [done|]. split; [by apply Hf'|done]. }
  destruct Hs as (w' & Hs & Hno' & Hfs). unfold wp in Hwp.
  destruct (run_task s) as [[[]|e] s']; [|done]. cbn [snd] in *. subst s'. destruct Hwp as (Hok' & _).
  pose proof (running_hint _ _ _ _ _ Hr HL Hne Hsz) as Hr'.
  assert (Hdata : forall id', with_hint id rs (fs_of s) !! dataPath id' = fs_of s !! dataPath id').
  { intros id'. unfold with_hint. rewrite lookup_insert_ne by (apply not_eq_sym, dataPath_hintPath).
    apply lookup_delete_ne, hintTmp_other. }
  assert (Hids : dir_ids (with_hint id rs (fs_of s)) = dir_ids (fs_of s))
    by (apply (dir_ids_same _ L _ L); [apply (rn_ok _ _ _ Hr)|apply (rn_ok _ _ _ Hr')|done]).
  split; [|split; [|done]].
  - split; [done| |done|].
    + destruct Hdk as [_ Ha _ Hdf Hdi Hal Hfr Hsza Hmx Htk]. split; try done; simpl.
      * by rewrite Hfs.
      * intros Hdirty. destruct (Hdi Hdirty) as (f' & Hf' & Hn'). exists f'. by rewrite Hfs, Hdata.
      * intros id' Hid'. apply Htk. rewrite Et. by right.
    + simpl. rewrite HM. unfold all_logs. by rewrite Hfs, Hids.
  - intros N (rl & (f' & p & Hf' & Hp & Hrl) & HN). right. split; [done|]. left. exists rl.
    split; [|done]. exists f', p. simpl in Hf', Hrl. rewrite Hfs, Hdata in Hf'. split; [done|].
    split; [done|]. rewrite Hrl. unfold older. by rewrite Hfs, Hids.
Qed.

(** Commands that append nothing and are not background work. *)
Lemma quiet_frame c s L M : store_ok s L M -> w_faults (st_w s) = [] ->
  appends (kv M) c = None -> c <> CSync -> c <> CHint ->
  read_frame s (exec c s).2 /\ after (kv M) c = kv M.
Proof.
  intros Hok Hno Ha Hs Hh. pose proof (read_frame_self s) as Hself.
  destruct c as [now k v|now ks vs|now k|k|start end_ limit| | |]; try done;
    cbn [appends after exec] in *.
  - destruct (put_error k v) as [e|] eqn:E; [|done]. by rewrite (Put_bad s now k v e E).
  - assert (Hcase : length ks <> length vs \/ ks = [] \/ batch_error ks vs <> None).
    { unfold batch_refusal in Ha. destruct (decide (length ks = length vs)); [|by left]. right.
      destruct (batch_error ks vs); [by right|]. left. by destruct ks. }
    rewrite BatchPut_other by done. split; [done|]. destruct (batch_refusal ks vs); [done|].
    by destruct ks.
  - destruct (delete_refusal (kv M) k) as [e|] eqn:E; [|done].
    rewrite (Delete_other s L M now k Hok); [done|]. unfold delete_refusal in E.
    destruct (validateKey k); [by left|]. destruct (kv M !! k); [done|]. by right.
  - split; [apply Get_frame|done].
  - split; [|done]. unfold ScanSlice.
    destruct (Scan_feed (fun k v out => (Ok tt, out ++ [(k, v)])) limit start end_ [] s L M Hok Hno)
      as (l & _ & ->).
    exists (st_w s), (add_scan (st_cnt s)). split; [by destruct s|done].
Qed.

Definition is_sync (c : cmd) : bool := match c with CSync => true | _ => false end.

Lemma exec_durable c s L M a : durable s L M a -> room s (cost c) -> st_nextID s + 2 < 2 ^ 32 ->
  cmd_ok c ->
  exists L' M' a', durable (exec c s).2 L' M' a' /\ kv M' = after (kv M) c /\
    crash_step (is_sync c) s L M a (exec c s).2 L' M' a' /\ calm (cost c) s (exec c s).2 /\
    st_opts (exec c s).2 = st_opts s.
Proof.
  intros Hd Hroom Hn Hcmd. pose proof Hd as [Hok Hdk Hc HM]. pose proof (dk_calm _ _ _ Hdk) as Hno.
  assert (Href : refines s (kv M)) by (by exists L, M).
  destruct (exec_step c s (kv M) Href Hc Hno Hroom Hcmd) as (_ & Href' & Hcalm).
  destruct (appends (kv M) c) as [[recs f]|] eqn:Ea.
  - destruct (appends_ok c s L M recs f Hok Hc Hcmd Ea) as (Hex & Hns & Hu & Hv & Hsz & Hlen & Hkv).
    rewrite <- Hlen in Hroom. pose proof (append_durable recs f s L M a Hd Hroom Hn Hu Hv Hsz) as Hwp.
    unfold wp in Hwp. rewrite Hex in *.
    destruct ((appendLocked recs;;; count f) s) as [[[]|e] s']; [|done].
    destruct Hwp as (L' & a' & Hd' & Hcs & Ho & _). eexists L', _, a'. split; [exact Hd'|].
    split; [apply Hkv|]. split; [by destruct c|done].
  - destruct (decide (is_sync c = true)) as [Hs|Hs].
    { destruct c; try done. destruct (sync_durable s L M a Hd) as (Hd' & Hcs & Ho).
      by exists L, M, a. }
    assert (Hcase : c = CHint \/ c <> CSync /\ c <> CHint) by (destruct c; auto).
    destruct Hcase as [->|[Hns Hnh]].
    { destruct (hint_durable s L M a Hd) as (Hd' & Hcs & Ho). by exists L, M, a. }
    destruct (quiet_frame c s L M Hok Hno Ea Hns Hnh) as [Hfr Haf].
    destruct (read_durable s L M a _ Hd Hfr) as [Hd' Hcs]; [by rewrite <- Haf|apply Hcalm|].
    exists L, M, a. split; [done|]. split; [done|]. split; [by destruct c|]. split; [done|].
    by destruct Hfr as (w' & c' & -> & _).
Qed.

(** ** Histories *)

(** The maps a crash after the history [cs] may lead to: the result of a
    prefix that nothing was synced after. *)
Definition possible m (cs : list cmd) (m' : gmap bytes bytes) : Prop :=
  exists cs1 cs2, cs = cs1 ++ cs2 /\ CSync ∉ cs2 /\ m' = foldl after m cs1.

Lemma possible_now m cs : possible m cs (foldl after m cs).
Proof. exists cs, []. rewrite app_nil_r. split; [done|]. split; [apply not_elem_of_nil|done]. Qed.

Lemma possible_snoc m cs c m' : is_sync c = false -> possible m cs m' -> possible m (cs ++ [c]) m'.
Proof.
  intros Hc (cs1 & cs2 & -> & Hn & ->). exists cs1, (cs2 ++ [c]). rewrite app_assoc. split; [done|].
  split; [|done]. rewrite elem_of_app, list_elem_of_singleton. intros [?|<-]; done.
Qed.

Lemma run_durable cs : forall s L M a m done,
  durable s L M a -> kv M = foldl after m done ->
  (forall N, crash_map s L a N -> possible m done (kv N)) ->
  Forall cmd_ok cs -> st_seq s + costs cs < 2 ^ 64 -> st_nextID s + zlen cs + 1 < 2 ^ 32 ->
  exists L' M' a', durable (exec_all cs s).2 L' M' a' /\ kv M' = foldl after m (done ++ cs) /\
    (forall N, crash_map (exec_all cs s).2 L' a' N -> possible m (done ++ cs) (kv N)) /\
    st_opts (exec_all cs s).2 = st_opts s.
Proof.
  induction cs as [|c cs IH]; intros s L M a m dn Hd Hkv Hpos Hcmds Hseq Hid.
  { exists L, M, a. by rewrite app_nil_r. }
  apply Forall_cons in Hcmds as [Hcmd Hcmds]. rewrite zlen_cons in Hid.
  unfold costs in Hseq. simpl in Hseq. fold (costs cs) in Hseq.
  pose proof (costs_nonneg cs). pose proof (zlen_nonneg cs).
  destruct (exec_durable c s L M a Hd) as (L1 & M1 & a1 & Hd1 & Hkv1 & Hcs & Hcalm & Ho);
    [split; lia|lia|done|].
  destruct Hcalm as (_ & _ & Hs & Hn).
  assert (Hkv1' : kv M1 = foldl after m (dn ++ [c])) by (by rewrite foldl_app, Hkv1, Hkv).
  destruct (IH (exec c s).2 L1 M1 a1 m (dn ++ [c]) Hd1 Hkv1') as (L' & M' & a' & Hd' & Hkv' & Hp' & Ho').
  { intros N HN. destruct (Hcs N HN) as [->|[Hns [Hc| ->]]].
    - rewrite Hkv1'. apply possible_now.
    - apply possible_snoc; [done|]. by apply Hpos.
    - apply possible_snoc; [done|]. rewrite Hkv. apply possible_now. }
  { done. } { lia. } { lia. }
  rewrite <- app_assoc in Hkv', Hp'. exists L', M', a'. split; [exact Hd'|]. split; [exact Hkv'|].
  split; [exact Hp'|]. by rewrite <- Ho.
Qed.

(** A crash after a history that started clean. *)
Lemma crash_outcome cs s L M a fs' :
  durable s L M a -> st_dirty s = false ->
  Forall cmd_ok cs -> st_seq s + costs cs < 2 ^ 64 -> st_nextID s + zlen cs + 1 < 2 ^ 32 ->
  crashed (fs_of (exec_all cs s).2) fs' ->
  exists D', sound_dir fs' D' /\
    let m' := kv (absorb_all ∅ (recovered fs' D' (dir_ids fs'))) in
    possible (kv M) cs m' /\
    (o_SyncMode (st_opts s) = SyncAlways -> m' = foldl after (kv M) cs).
Proof.
  intros Hd Hdirty Hcmds Hseq Hid Hcr.
  destruct (run_durable cs s L M a (kv M) [] Hd) as (L' & M' & a' & Hd' & Hkv & Hpos & Ho); [done| |done..|].
  { intros N (rl & Hrl & ->). apply (crash_flushed s L a) in Hrl.
    - rewrite Hrl, <- (du_newest _ _ _ _ Hd). apply (possible_now (kv M) []).
    - apply (dk_run _ _ _ (du_disk _ _ _ _ Hd)).
    - by apply (dk_dirty _ _ _ (du_disk _ _ _ _ Hd)). }
  pose proof (du_disk _ _ _ _ Hd') as Hdk'. pose proof (dk_run _ _ _ Hdk') as Hr'.
  destruct (rn_exact _ _ _ Hr') as (f & Hf & _).
  destruct (crash_sound _ _ _ _ _ Hr' Hcr Hf) as (p & Hp & Hsd & Hrec).
  exists (<[a' := p]> L'). split; [done|]. cbn zeta. rewrite Hrec.
  assert (Hcm : crash_logs (exec_all cs s).2 L' a'
    (mjoin (log_of L' <$> older (fs_of (exec_all cs s).2) a') ++ committed p)) by (by exists f, p).
  split; [apply Hpos; eexists; by split|]. intros Hal.
  apply crash_flushed in Hcm; [|done|].
  - by rewrite Hcm, <- (du_newest _ _ _ _ Hd').
  - apply (dk_dirty _ _ _ Hdk'), (dk_always _ _ _ Hdk'). by rewrite Ho.
Qed.
End durability.
