(* ===== verification/Writers.v ===== *)
(** * Writers beside a reader

    What a component that holds no lock may rely on: between its steps the
    store's clients run, and what they append goes to the ends of the logs, to
    the map and to the observers, and removes nothing.  [Writers] is that
    promise; any schedule of client operations that fits in the number space
    keeps it. *)

From S2P Require Import Prelude Bytes Decimal Record Datafile Hint Listing Index Store StoreInv.
From S2P Require Import WritePath Ops Reads Scans Background Recovery Engine Settled Crash Disk Durability.

Local Open Scope Z_scope.
Local Open Scope gokv_scope.

(** Records with consecutive fresh numbers are told apart by them. *)
Definition fresh (q : Z) (R : list record) : Prop := r_seq <$> R = seqZ (q + 1) (zlen R).

Lemma fresh_above q R r : fresh q R -> r ∈ R -> q < r_seq r.
Proof.
  intros Hf Hr. assert (Hs : r_seq r ∈ (r_seq <$> R)) by (apply list_elem_of_fmap; eauto).
  rewrite Hf in Hs. apply elem_of_seqZ in Hs. lia.
Qed.
Lemma fresh_eq q R r r' : fresh q R -> r ∈ R -> r' ∈ R -> r_seq r = r_seq r' -> r = r'.
Proof.
  intros Hf (i & Hi)%list_elem_of_lookup (j & Hj)%list_elem_of_lookup E.
  assert (Hnd : NoDup (r_seq <$> R)) by (rewrite Hf; apply NoDup_seqZ).
  assert (i = j) as ->; [|congruence].
  apply (NoDup_lookup _ i j (r_seq r) Hnd); rewrite list_lookup_fmap; [by rewrite Hi|rewrite Hj, E; done].
Qed.

Section writers.
Context {I : Type} `{KeyIndexSpec I}.
Implicit Types (s : store I) (L : logs) (M : newest).

Notation fs_of s := (w_fs (st_w s)).

(** What observer [o] was told and has not heard yet. *)
Definition told (o : Z) s : list bytes :=
  omap (fun note => if note.1.1 =? o then Some note.2 else None) (st_notes s).

(** Records one call appends. *)
Definition appendable (rs : list record) : Prop :=
  rs <> [] /\ Forall valid_record rs /\ log_size rs < 2 ^ 32.

(** Clients wrote [R], and nothing else happened to what is known and stored. *)
Record wrote s L M (R : list record) s' L' M' : Prop := {
  wo_map : M' = absorb_all M R;
  wo_logs : all_logs (fs_of s') L' = all_logs (fs_of s) L ++ R;
  wo_grows : grows L L';
  wo_seq : st_seq s' = st_seq s + zlen R;
  wo_fresh : fresh (st_seq s) R;
  wo_obs : st_obs s' = st_obs s;
  wo_merge : st_mergeSeq s' = st_mergeSeq s
}.

(** They did so in the calls [rss], and the observers were told. *)
Record ran s L M (rss : list (list record)) s' L' M' : Prop := {
  ra_wrote :> wrote s L M (mjoin rss) s' L' M';
  ra_valid : Forall appendable rss;
  ra_told : forall o, o ∈ st_obs s -> told o s' = told o s ++ (encode_all <$> rss)
}.

Lemma wrote_refl s L M : wrote s L M [] s L M.
Proof.
  split; try done.
  - by rewrite app_nil_r.
  - intros id rs E. exists []. by rewrite app_nil_r.
  - change (zlen (A := record) []) with 0. lia.
Qed.

Lemma wrote_trans s1 L1 M1 R1 s2 L2 M2 R2 s3 L3 M3 :
  wrote s1 L1 M1 R1 s2 L2 M2 -> wrote s2 L2 M2 R2 s3 L3 M3 -> wrote s1 L1 M1 (R1 ++ R2) s3 L3 M3.
Proof.
  intros [-> Hl Hg Hq Hqs Ho Hm] [-> Hl' Hg' Hq' Hqs' Ho' Hm']. split.
  - by rewrite absorb_all_app.
  - by rewrite Hl', Hl, app_assoc.
  - intros id rs E. destruct (Hg id rs E) as [r1 E1]. destruct (Hg' _ _ E1) as [r2 E2].
    exists (r1 ++ r2). by rewrite app_assoc.
  - rewrite zlen_app. lia.
  - unfold fresh in *. rewrite fmap_app, Hqs, Hqs', zlen_app, seqZ_app by apply zlen_nonneg. do 2 f_equal. lia.
  - congruence.
  - congruence.
Qed.

(** What the observers were told is no part of it. *)
Lemma wrote_notes s L M R s' L' M' l l' : wrote s L M R s' L' M' -> wrote (set_notes l s) L M R (set_notes l' s') L' M'.
Proof. intros []. by split. Qed.

Lemma ran_refl s L M : ran s L M [] s L M.
Proof. split; [apply wrote_refl|done|]. intros o _. by rewrite app_nil_r. Qed.

Lemma ran_trans s1 L1 M1 rss1 s2 L2 M2 rss2 s3 L3 M3 :
  ran s1 L1 M1 rss1 s2 L2 M2 -> ran s2 L2 M2 rss2 s3 L3 M3 -> ran s1 L1 M1 (rss1 ++ rss2) s3 L3 M3.
Proof.
  intros [Hw Hv Ht] [Hw' Hv' Ht']. split.
  - rewrite join_app. by eapply wrote_trans.
  - by apply Forall_app.
  - intros o Hin. rewrite Ht', Ht by (rewrite ?(wo_obs _ _ _ _ _ _ _ Hw); done). by rewrite fmap_app, app_assoc.
Qed.

(** The call's observers hear of it once each. *)
Lemma told_once o q raw l : NoDup l -> o ∈ l ->
  omap (fun note : Z * Z * bytes => if note.1.1 =? o then Some note.2 else None) ((fun id => (id, q, raw)) <$> l) = [raw].
Proof.
  intros Hnd Hin. apply list_elem_of_split in Hin as (l1 & l2 & ->).
  apply NoDup_app in Hnd as (_ & Hd & Hnd). apply NoDup_cons in Hnd as [Hn _].
  assert (Hnone : forall l, o ∉ l ->
    omap (fun note : Z * Z * bytes => if note.1.1 =? o then Some note.2 else None) ((fun id => (id, q, raw)) <$> l) = []).
  { induction l as [|x l IH]; [done|]. intros Hx. apply not_elem_of_cons in Hx as [Hx Hl].
    cbn [fmap list_fmap omap list_omap fst snd]. destruct (Z.eqb_spec x o); [congruence|by apply IH]. }
  rewrite fmap_app, omap_app, Hnone.
  - cbn [fmap list_fmap omap list_omap fst snd app]. rewrite Z.eqb_refl. f_equal. by apply Hnone.
  - intros Hx. by apply (Hd o Hx); left.
Qed.

Lemma appended_ran s L M rs s' L' M' : appended_to s L rs s' L' -> rs <> [] -> M' = absorb_all M rs ->
  ran s L M [rs] s' L' M'.
Proof.
  intros [Hl Hg Hn Hq Hqs Hv Ho Hm [q Hnt]] Hne ->.
  assert (mjoin [rs] = rs) as Hj by (cbn [mjoin list_join]; apply app_nil_r).
  split; rewrite ?Hj; [done| |].
  - by apply Forall_singleton.
  - intros o Hin. unfold told. rewrite Hnt, omap_app. f_equal.
    apply told_once; [apply NoDup_elements|by apply elem_of_elements].
Qed.

(** ** The promise *)

(** Sequence numbers up to [limit] may be given out: there are file numbers
    enough for that. *)
Record fits (limit : Z) s : Prop := {
  fi_seq : st_seq s <= limit;
  fi_limit : limit < 2 ^ 64;
  fi_next : st_nextID s + (limit - st_seq s) + 2 < 2 ^ 32
}.

Class Writers (limit : Z) {P : Type} (env : P -> store I -> store I) : Prop :=
  writers_run : forall p s L M a, durable s L M a -> fits limit s ->
    exists rss L' M' a', ran s L M rss (env p s) L' M' /\ durable (env p s) L' M' a' /\ fits limit (env p s).

(** ** Client operations keep it *)

(** The same logs in the same files. *)
Lemma all_logs_same s L M a s' M' a' : durable s L M a -> durable s' L M' a' ->
  all_logs (fs_of s') L = all_logs (fs_of s) L.
Proof.
  intros Hd Hd'. unfold all_logs. do 2 f_equal.
  apply (dir_ids_same _ L _ L); [apply (rn_ok _ _ _ (dk_run _ _ _ (du_disk _ _ _ _ Hd)))
    |apply (rn_ok _ _ _ (dk_run _ _ _ (du_disk _ _ _ _ Hd')))|done].
Qed.

Definition outward s := (st_seq s, st_obs s, st_mergeSeq s, st_notes s, st_nextID s).

Lemma ran_quiet s L M a s' a' : durable s L M a -> durable s' L M a' -> outward s' = outward s ->
  ran s L M [] s' L M.
Proof.
  intros Hd Hd' [= Hq Ho Hm Hn _]. split; [split; try done|done|].
  - by rewrite (all_logs_same s L M a s' M a'), app_nil_r.
  - intros id rs E. exists []. by rewrite app_nil_r.
  - change (zlen (mjoin (M := list) (A := record) [])) with 0. lia.
  - intros o _. unfold told. by rewrite Hn, app_nil_r.
Qed.

Lemma Sync_outward s : outward (Sync s).2 = outward s.
Proof.
  unfold Sync. rewrite sm_bind_get. destruct (negb (st_dirty s)); [done|]. destruct (st_active s) as [a|] eqn:Ea; [|done].
  unfold sm_bind at 1, get_active. rewrite sm_bind_get, Ea. cbn [mbind option_bind].
  destruct (st_dfs s !! a) as [d|]; [|done]. unfold sm_ret, sm_bind, io, sm_modify.
  by destruct (df_sync d (st_w s)) as [[[]|e] w].
Qed.

Lemma run_task_outward s : outward (run_task s).2 = outward s.
Proof.
  unfold run_task. rewrite sm_bind_get. destruct (st_tasks s) as [|id ids]; [done|].
  unfold sm_bind, sm_modify, sm_ignore, io. cbn [fst snd set_tasks st_w].
  by destruct (buildHint id (st_w s)) as [[[]|e] w].
Qed.

Lemma exec_ran c s L M a : durable s L M a -> room s (cost c) -> st_nextID s + 2 < 2 ^ 32 -> cmd_ok c ->
  exists rss L' M' a', ran s L M rss (exec c s).2 L' M' /\ durable (exec c s).2 L' M' a' /\
    zlen (mjoin rss) <= cost c /\ st_nextID (exec c s).2 <= st_nextID s + zlen (mjoin rss).
Proof.
  intros Hd Hroom Hn Hcmd. pose proof Hd as [Hok Hdk Hc HM]. pose proof (cost_nonneg c) as Hcost.
  assert (Hquiet : forall s', durable s' L M a -> outward s' = outward s ->
    exists rss L' M' a', ran s L M rss s' L' M' /\ durable s' L' M' a' /\
      zlen (mjoin rss) <= cost c /\ st_nextID s' <= st_nextID s + zlen (mjoin rss)).
  { intros s' Hd' Ho. exists [], L, M, a. split; [by eapply ran_quiet|]. split; [done|].
    injection Ho as _ _ _ _ ->. change (zlen (mjoin (M := list) (A := record) [])) with 0. lia. }
  destruct (appends (kv M) c) as [[recs f]|] eqn:Ea.
  - clear Hquiet. destruct (appends_ok c s L M recs f Hok Hc Hcmd Ea) as (Hex & _ & Hu & Hv & Hsz & Hlen & _).
    rewrite <- Hlen in Hroom |- *. pose proof (append_durable recs f s L M a Hd Hroom Hn Hu Hv Hsz) as Hwp.
    unfold wp in Hwp. rewrite Hex. destruct ((appendLocked recs;;; count f) s) as [[[]|e] s']; [|done].
    destruct Hwp as (L' & a' & Hd' & _ & _ & Hap). cbn [snd]. set (rs := imap _ recs) in *.
    assert (Hj : zlen (mjoin [rs]) = zlen recs)
      by (cbn [mjoin list_join]; rewrite app_nil_r; apply numbered_length).
    exists [rs], L', (insert_all M rs), a'. split; [|split; [done|]].
    + apply (appended_ran _ _ _ _ _ _ _ Hap); [intros ->; by destruct Hu as ([|? ?] & ? & -> & _)|]. symmetry. destruct (ok_seq _ _ _ Hok) as [Hseq Hb].
      unfold is_u64 in Hseq. destruct Hroom as [? ?]. apply (absorb_numbered (st_seq s) recs M); [lia|done].
    + rewrite Hj. split; [done|]. pose proof (ap_next _ _ _ _ _ Hap).
      destruct Hu as (pre & r & -> & _). rewrite zlen_app. pose proof (zlen_nonneg pre). unfold zlen at 2. simpl. lia.
  - assert (Hcase : c = CSync \/ c = CHint \/ c <> CSync /\ c <> CHint) by (destruct c; auto).
    destruct Hcase as [->|[->|[Hs Hh]]].
    + destruct (sync_durable s L M a Hd) as (Hd' & _). apply Hquiet; [done|apply Sync_outward].
    + destruct (hint_durable s L M a Hd) as (Hd' & _). apply Hquiet; [done|apply run_task_outward].
    + pose proof (dk_calm _ _ _ Hdk) as Hno.
      destruct (quiet_frame c s L M Hok Hno Ea Hs Hh) as [Hfr Haf].
      assert (Href : refines s (kv M)) by (by exists L, M).
      destruct (exec_step c s (kv M) Href Hc Hno Hroom Hcmd) as (_ & Href' & Hcalm).
      destruct (read_durable s L M a _ Hd Hfr) as [Hd' _]; [by rewrite <- Haf|apply Hcalm|].
      apply Hquiet; [done|]. by destruct Hfr as (w' & c' & -> & _).
Qed.

(** A client's call, made only while the numbers last. *)
Definition call (limit : Z) s (c : cmd) : store I :=
  if st_seq s + cost c <=? limit then (exec c s).2 else s.
Definition calls (limit : Z) (cs : list cmd) s : store I := foldl (call limit) s cs.

Lemma calls_ran limit cs : Forall cmd_ok cs -> forall s L M a, durable s L M a -> fits limit s ->
  exists rss L' M' a', ran s L M rss (calls limit cs s) L' M' /\ durable (calls limit cs s) L' M' a' /\
    fits limit (calls limit cs s).
Proof.
  intros Hcs. induction Hcs as [|c cs Hc _ IH]; intros s L M a Hd Hf.
  - exists [], L, M, a. split; [apply ran_refl|done].
  - unfold calls. cbn [foldl]. fold (calls limit cs (call limit s c)). unfold call.
    destruct (Z.leb_spec (st_seq s + cost c) limit) as [Hle|_]; [|by eapply IH].
    pose proof Hf as [Hq Hl Hn]. pose proof (cost_nonneg c).
    destruct (exec_ran c s L M a Hd) as (rss & L' & M' & a' & Hr & Hd' & Hz & Hx); [split; lia|lia|done|].
    destruct (IH _ _ _ _ Hd') as (rss2 & L2 & M2 & a2 & Hr2 & Hd2 & Hf2).
    { pose proof (wo_seq _ _ _ _ _ _ _ Hr). split; lia. }
    exists (rss ++ rss2), L2, M2, a2. split; [by eapply ran_trans|done].
Qed.

#[global] Instance calls_writers limit {P} (sched : P -> list cmd) :
  (forall p, Forall cmd_ok (sched p)) -> Writers limit (fun p => calls limit (sched p)).
Proof. intros Hs p s L M a Hd Hf. by eapply calls_ran. Qed.
End writers.
