(* ===== verification/Reopen.v ===== *)
(** * Opening after a crash

    A store opened on a sound directory is in step with it, so that histories,
    crashes and recoveries may follow one another without end. *)

From S2P Require Import Prelude Bytes Decimal Record Datafile Hint Listing Manifest Lock Index.
From S2P Require Import Store StoreInv WritePath Ops Background Recovery Engine.
From S2P Require Import Settled Crash Disk Durability.

Local Open Scope Z_scope.
Local Open Scope gokv_scope.

(** ** What recovery keeps of the logs *)

Section kept.
Context (fs : gmap bytes file) (D : logs) (Hsd : sound_dir fs D).

Notation ids := (dir_ids fs).
Definition kept_of (id : Z) : list record :=
  kept (has_hint fs id) (bool_decide (last ids = Some id)) (log_of D id).

Lemma ids_log id : id ∈ ids -> D !! id = Some (log_of D id).
Proof using Hsd.
  intros Hin. apply (dir_ids_log fs D id (sd_ok _ _ Hsd)) in Hin as [rs HD].
  unfold log_of. by rewrite HD.
Qed.

Lemma last_max id id' : last ids = Some id -> id' ∈ ids -> id' <= id.
Proof using.
  intros Hl Hin. apply last_Some in Hl as [l Hl]. rewrite Hl in Hin.
  apply elem_of_app in Hin as [Hin| ->%list_elem_of_singleton]; [|done].
  pose proof (sorted_dir_ids fs) as Hs. rewrite Hl in Hs.
  apply (StronglySorted_app_1_elem_of _ _ _ _ _ Hs); [done|]. by left.
Qed.

(** Only the last file can be unsettled, and then it is mended. *)
Lemma kept_settled id : id ∈ ids -> settled (kept_of id).
Proof using Hsd.
  intros Hin. pose proof (ids_log id Hin) as HD. unfold kept_of, kept.
  destruct (has_hint fs id) eqn:Eh; cbn [negb andb].
  { apply (sd_settled _ _ Hsd id); auto. }
  destruct (bool_decide_reflect (last ids = Some id)) as [Hl|Hl].
  - apply mended_settled. by apply (sd_framed _ _ Hsd id (log_of D id) HD).
  - apply (sd_settled _ _ Hsd id); [done|]. right.
    destruct (last ids) as [m|] eqn:El.
    + exists m. assert (Hm : m ∈ ids) by (by apply last_Some_elem_of).
      split; [apply (dir_ids_log fs D m (sd_ok _ _ Hsd)), Hm|].
      pose proof (last_max m id El Hin). assert (m <> id) by congruence. lia.
    + apply last_None in El. rewrite El in Hin. by apply not_elem_of_nil in Hin.
Qed.

Lemma kept_framed id : id ∈ ids -> framed (kept_of id).
Proof using Hsd.
  intros Hin. eapply framed_prefix; [|apply kept_prefix].
  by apply (sd_framed _ _ Hsd id), ids_log.
Qed.

(** What takes effect is what is kept. *)
Lemma applied_kept id : id ∈ ids -> applied (has_hint fs id) (log_of D id) = kept_of id.
Proof using Hsd.
  intros Hin. pose proof (kept_settled id Hin) as Hs. unfold kept_of, kept, applied in *.
  destruct (has_hint fs id); cbn [negb andb] in *; [done|].
  destruct (bool_decide (last ids = Some id)).
  - by apply (sd_framed _ _ Hsd id (log_of D id) (ids_log id Hin)).
  - by apply settled_committed.
Qed.

Lemma recovered_kept L : (forall id, id ∈ ids -> L !! id = Some (kept_of id)) ->
  recovered fs D ids = mjoin (log_of L <$> ids).
Proof using Hsd.
  intros HL. unfold recovered, mjoin. f_equal. apply list_fmap_ext. intros i id Hi.
  apply list_elem_of_lookup_2 in Hi. rewrite applied_kept by done. unfold log_of at 1.
  by rewrite (HL id Hi).
Qed.
End kept.

(** ** The loaded directory *)


(** Taking the lock leaves the directory sound. *)
Lemma sound_dir_lock fs D f : sound_dir fs D -> sound_dir (<[lockPath := f]> fs) D.
Proof.
  intros [Hok Hfr Hset Hdur]. destruct (dir_ok_lock fs D f Hok) as (Hok' & _).
  assert (Hd : forall id, <[lockPath := f]> fs !! dataPath id = fs !! dataPath id)
    by (intros; apply lookup_insert_ne, lockPath_names).
  assert (Hh : forall id, <[lockPath := f]> fs !! hintPath id = fs !! hintPath id)
    by (intros; apply lookup_insert_ne, lockPath_names).
  split; [done|done| |].
  - intros id rs HD. unfold has_hint. rewrite Hh. by apply Hset.
  - intros id f0. rewrite Hd, Hh. apply Hdur.
Qed.

Section closed.
Context (fs fs1 fs2 : gmap bytes file) (D L : logs) (max : Z) (a : rec_acc).
Context (Hsd : sound_dir fs D).
Context (Hprune : pruned (orphan_hint (dir_ids fs)) fs fs1).
Context (Hgone : forall name, orphan_hint (dir_ids fs) name = true -> fs1 !! name = None).
Context (Hlo : loaded fs1 D (dir_ids fs) max fs2 L a).
Context (Hdom : dom L = list_to_set (dir_ids fs)).

Notation ids := (dir_ids fs).

Lemma loaded_ids id : is_Some (L !! id) <-> id ∈ ids.
Proof using Hdom. by rewrite <- elem_of_dom, Hdom, elem_of_list_to_set. Qed.

Lemma loaded_u32 id : id ∈ ids -> is_u32 id /\ id + 2 < 2 ^ 32.
Proof using Hsd.
  intros Hin. destruct (dir_ids_ok fs D id (sd_ok _ _ Hsd) Hin) as (_ & ? & ? & _).
  unfold is_u32. lia.
Qed.

Lemma loaded_hint id : fs2 !! hintPath id = fs1 !! hintPath id.
Proof using Hlo. apply (lo_same _ _ _ _ _ _ _ Hlo). intros id' _ _. apply not_eq_sym, dataPath_hintPath. Qed.

Lemma kept_hint id : id ∈ ids -> fs1 !! hintPath id = fs !! hintPath id /\ has_hint fs1 id = has_hint fs id.
Proof using Hsd Hprune.
  intros Hin. assert (E : fs1 !! hintPath id = fs !! hintPath id).
  { eapply pruned_lookup; [done|]. apply orphan_hintPath; [by apply loaded_u32|done]. }
  split; [done|]. unfold has_hint. by rewrite E.
Qed.

Lemma loaded_log id rs : L !! id = Some rs -> rs = kept_of fs D id.
Proof using Hsd Hprune Hlo Hdom.
  intros HL. assert (Hin : id ∈ ids) by (apply loaded_ids; eauto).
  pose proof (lo_logs _ _ _ _ _ _ _ Hlo id Hin) as E. rewrite (proj2 (kept_hint id Hin)), HL in E.
  by injection E as ->.
Qed.

(** A data file is the one that was there or, for the last file without a
    hint, what is left of it. *)
Lemma loaded_data id : id ∈ ids ->
  exists f f', fs !! dataPath id = Some f /\ fs2 !! dataPath id = Some f' /\
    mended_file (bool_decide (last ids = Some id) && negb (has_hint fs id)) f (log_of D id) f'.
Proof using Hsd Hprune Hlo.
  intros Hin. destruct (dir_ids_ok fs D id (sd_ok _ _ Hsd) Hin) as (_ & _ & _ & _ & f & Hf & _).
  assert (Hf1 : fs1 !! dataPath id = Some f)
    by (rewrite <- Hf; eapply pruned_lookup; [done|apply orphan_dataPath]).
  destruct (bool_decide_reflect (last ids = Some id)) as [Hl|Hl]; [destruct (has_hint fs id) eqn:Eh|].
  2:{ rewrite <- (proj2 (kept_hint id Hin)) in Eh.
      destruct (lo_last _ _ _ _ _ _ _ Hlo id Hl Eh) as (f1 & f' & Hf1' & Hf' & Hm).
      rewrite Hf1 in Hf1'. injection Hf1' as <-. by exists f, f'. }
  all: exists f, f; split; [done|]; split; [|done]; rewrite <- Hf1;
    apply (lo_same _ _ _ _ _ _ _ Hlo); intros id' Hl' Hh' E;
    assert (Hin' : id' ∈ ids) by (by apply last_Some_elem_of);
    apply dataPath_inj in E; [|by apply loaded_u32..]; subst id';
    rewrite (proj2 (kept_hint id Hin)) in Hh'; congruence.
Qed.

Lemma loaded_files id : id ∈ ids ->
  disk_file fs2 id (kept_of fs D id) /\ flushed fs2 id (log_size (kept_of fs D id)).
Proof using Hsd Hprune Hlo.
  intros Hin. destruct (loaded_u32 id Hin) as [Hu Hid].
  destruct (dir_ids_ok fs D id (sd_ok _ _ Hsd) Hin) as (_ & _ & _ & Hh & f0 & Hf0 & Hlog).
  destruct (loaded_data id Hin) as (f & f' & Hf & Hf' & Hm). rewrite Hf in Hf0. injection Hf0 as <-.
  assert (Hsy : f_synced f = zlen (f_data f)) by (eapply (sd_durable _ _ Hsd id); eauto).
  assert (Hlog' : log_file f' (kept_of fs D id) /\ f_synced f' = zlen (f_data f')).
  { unfold kept_of, kept. destruct (has_hint fs id); cbn [negb] in *.
    - rewrite andb_false_r in Hm. simpl in Hm. by subst f'.
    - rewrite andb_true_r in Hm. destruct (bool_decide _); simpl in *; [|by subst f'].
      destruct Hm as [Hd Hs']. split; [|auto]. exists []. rewrite app_nil_r. split; [done|].
      split; [done|]. destruct Hlog as (_ & _ & _ & Hv).
      eapply prefix_valid; [apply trim_open_prefix|done]. }
  destruct Hlog' as [Hlog' Hsy']. split.
  - split; [apply Hu|]. split; [done|]. split; [|eauto].
    intros fh Hfh. rewrite loaded_hint, (proj1 (kept_hint id Hin)) in Hfh.
    assert (Eh : has_hint fs id = true) by (apply bool_decide_true; eauto).
    unfold kept_of, kept. rewrite Eh. cbn [negb andb]. by apply Hh.
  - exists f'. split; [done|]. rewrite Hsy'. destruct Hlog' as (tail & -> & _).
    rewrite zlen_app. unfold log_size. pose proof (zlen_nonneg tail). lia.
Qed.

Lemma loaded_names name : is_Some (fs2 !! name) -> is_Some (fs !! name).
Proof using Hsd Hprune Hlo.
  intros [f2 Hf2]. destruct (fs1 !! name) as [f1|] eqn:E1.
  - specialize (Hprune name). rewrite E1 in Hprune. destruct (orphan_hint ids name).
    + destruct Hprune as [<-|?]; [eauto|done].
    + rewrite <- Hprune. eauto.
  - assert (Hor : name = dataPath (default 0 (last ids)) \/ forall id, last ids = Some id -> name <> dataPath id).
    { destruct (last ids) as [id|]; [|by right]. simpl.
      destruct (decide (name = dataPath id)); [by left|right]. by intros ? [= <-]. }
    destruct Hor as [->|Hn].
    + destruct (last ids) as [id|] eqn:El; simpl in *.
      * destruct (loaded_data id (last_Some_elem_of _ _ El)) as (f & ? & Hf & _). eauto.
      * rewrite (lo_same _ _ _ _ _ _ _ Hlo) in Hf2; [congruence|]. intros id Hl. congruence.
    + rewrite (lo_same _ _ _ _ _ _ _ Hlo) in Hf2; [congruence|]. auto.
Qed.

(** After the files are loaded everything that will count is on stable storage. *)
Lemma loaded_closed : closed_dir fs2 L.
Proof using Hsd Hprune Hgone Hlo Hdom.
  pose proof (sd_ok _ _ Hsd) as (Hc & Hall & _). split.
  - split; [|split].
    + intros name id Hin%elem_of_dom. apply Hc, elem_of_dom. by apply loaded_names.
    + intros id Hid Hs. apply loaded_ids. apply (dir_ids_log fs D id (sd_ok _ _ Hsd)).
      by apply Hall, loaded_names.
    + intros id rs HL. rewrite (loaded_log id rs HL). apply loaded_files, loaded_ids. eauto.
  - intros id f Hid Hf. rewrite loaded_hint in Hf. destruct (decide (id ∈ ids)) as [Hin|Hin].
    + split; [by apply loaded_ids|]. rewrite (proj1 (kept_hint id Hin)) in Hf.
      eapply (sd_durable _ _ Hsd id); eauto.
    + by rewrite Hgone in Hf by (by apply orphan_hintPath_other).
  - intros id rs HL. rewrite (loaded_log id rs HL). apply loaded_files, loaded_ids. eauto.
  - intros id rs HL. assert (Hin : id ∈ ids) by (apply loaded_ids; eauto).
    rewrite (loaded_log id rs HL). split; [by apply kept_settled|by apply kept_framed].
Qed.

(** When the last file is reused it becomes the active one. *)
Lemma loaded_reuse id : ra_reuse a = Some id -> running_dir fs2 L id /\ log_size (log_of L id) < max.
Proof using Hsd Hprune Hgone Hlo Hdom.
  intros Hre. destruct (lo_reuse _ _ _ _ _ _ _ Hlo id Hre) as (Hl & Hh & Hsz). split; [|done].
  assert (Hin : id ∈ ids) by (by apply last_Some_elem_of).
  destruct loaded_closed as [Hok Hhints Hfl Hlogs].
  rewrite (proj2 (kept_hint id Hin)) in Hh. split; try done.
  - by apply loaded_ids.
  - intros id' rs HL. eapply last_max; [done|]. apply loaded_ids. eauto.
  - rewrite loaded_hint, (proj1 (kept_hint id Hin)). unfold has_hint in Hh.
    apply bool_decide_eq_false in Hh. by apply eq_None_not_Some.
  - destruct (loaded_data id Hin) as (? & f' & _ & Hf' & Hm). exists f'. split; [done|].
    rewrite bool_decide_true, Hh in Hm by done. destruct Hm as [-> _]. f_equal.
    destruct (proj2 (loaded_ids id) Hin) as [rs HL]. unfold log_of at 2. rewrite HL. simpl.
    rewrite (loaded_log id rs HL). unfold kept_of, kept. by rewrite Hh, bool_decide_true.
  - auto.
Qed.

Lemma loaded_dir_ids : dir_ids fs2 = ids.
Proof using Hsd Hprune Hgone Hlo Hdom.
  apply (dir_ids_same fs D fs2 L); [apply (sd_ok _ _ Hsd)|apply (cd_ok _ _ loaded_closed)|].
  intros id. rewrite loaded_ids. symmetry. apply dir_ids_log, (sd_ok _ _ Hsd).
Qed.

Lemma loaded_all : all_logs fs2 L = recovered fs D ids.
Proof using Hsd Hprune Hgone Hlo Hdom.
  unfold all_logs. rewrite loaded_dir_ids. symmetry. apply recovered_kept; [done|].
  intros id Hin. destruct (proj2 (loaded_ids id) Hin) as [rs HL]. rewrite HL. f_equal.
  by apply loaded_log.
Qed.
End closed.

(** ** The opened store *)

Section reopen.
Context {I : Type} `{KeyIndexSpec I}.
Implicit Types (s : store I) (L : logs) (M : newest).

Notation fs_of s := (w_fs (st_w s)).

(** The active file of a store is open for writing at the end of its log. *)
Lemma active_df s L M a : store_inv s L M -> st_active s = Some a ->
  exists d, st_dfs s !! a = Some d /\ df_id d = a /\ df_open d = true /\
    df_write d = true /\ df_size d = log_size (log_of L a).
Proof.
  intros Hinv Ha. destruct (si_active _ _ _ Hinv) as (id & d & rs & Ha' & HL & Hd & Hw & Hsz).
  rewrite Ha in Ha'. injection Ha' as <-. destruct (si_files _ _ _ Hinv _ _ HL) as (_ & _ & d' & ? & Hd' & Hid & Ho & _).
  rewrite Hd in Hd'. injection Hd' as <-. exists d. unfold log_of. by rewrite HL.
Qed.

Lemma log_below_next s L M id rs : store_inv s L M -> L !! id = Some rs -> is_u32 id /\ id < st_nextID s.
Proof.
  intros Hinv HL. destruct (si_files _ _ _ Hinv _ _ HL) as (Hu & _ & ? & f & _ & _ & _ & Hf & _).
  split; [done|]. apply (si_fresh _ _ _ Hinv); eauto.
Qed.

(** The directory is in use by the opened store, with the logs kept. *)
Lemma reopened_running fs D s L M : sound_dir fs D -> reopened fs D s L -> store_inv s L M ->
  st_nextID s + 1 < 2 ^ 32 ->
  exists a, st_active s = Some a /\ running_dir (fs_of s) L a /\
    flushed (fs_of s) a (log_size (log_of L a)) /\
    all_logs (fs_of s) L = recovered fs D (dir_ids fs) /\
    st_dirty s = false /\ st_tasks s = [] /\
    (log_size (log_of L a) = 0 \/ log_size (log_of L a) < o_MaxFileSize (st_opts s)).
Proof.
  intros Hsd (fs1 & s2 & L2 & ac & [Hprune Hgone] & Hlo & Hdom & Hlt & Hdirty & Htasks & [[Hq1 Hq2] _ Hfile])
    Hinv Hnext.
  pose proof (loaded_closed _ _ _ _ _ _ _ Hsd Hprune Hgone Hlo Hdom) as Hcl.
  pose proof (loaded_all _ _ _ _ _ _ _ Hsd Hprune Hgone Hlo Hdom) as Hall.
  rewrite Hq1, Hq2. destruct (ra_reuse ac) as [id|] eqn:Hre.
  - destruct Hfile as (Ha & Hfs & ->). rewrite Hfs.
    destruct (loaded_reuse _ _ _ _ _ _ _ Hsd Hprune Hgone Hlo Hdom id Hre) as [Hr Hsz].
    exists id. do 2 (split; [done|]). split; [|auto].
    destruct (rn_in _ _ _ Hr) as [rs HL]. unfold log_of. rewrite HL. by apply (cd_flushed _ _ Hcl).
  - destruct Hfile as (Ha & Hnone & Hfs & ->). set (b := st_nextID s2) in *. rewrite Hfs.
    destruct (log_below_next _ _ _ b [] Hinv (lookup_insert_eq _ _ _)) as [Hbu Hb].
    assert (Hr : running_dir (<[dataPath b := mkFile [] 0]> (fs_of s2)) (<[b := []]> L2) b)
      by (apply running_new; [done..|lia]).
    assert (HLb : L2 !! b = None).
    { destruct (L2 !! b) eqn:E; [|done]. apply Hlt in E. lia. }
    exists b. do 2 (split; [done|]). rewrite log_of_insert. split; [apply flushed_insert|].
    split; [|auto]. rewrite <- Hall, (all_logs_split _ _ _ Hr), log_of_insert, app_nil_r.
    rewrite (older_new (fs_of s2) L2 _ b []); [|apply (cd_ok _ _ Hcl)|apply (rn_ok _ _ _ Hr)|done].
    unfold all_logs. f_equal. apply list_fmap_ext. intros i id Hi. apply list_elem_of_lookup_2 in Hi.
    apply (dir_ids_log _ L2 id (cd_ok _ _ Hcl)) in Hi as [rs HL]. unfold log_of.
    rewrite lookup_insert_ne by congruence. done.
Qed.

(** Opening a sound directory gives a store in step with it. *)
Lemma Open_durable opts pid fs D s w : sound_dir fs D -> o_Dir opts <> [] ->
  o_MaxFileSize (applyDefaults opts) < 2 ^ 63 ->
  Open (I := I) opts pid (mkWorld fs [] false) = (Ok s, w) -> st_nextID s + 1 < 2 ^ 32 ->
  exists L a, durable s L (absorb_all ∅ (recovered fs D (dir_ids fs))) a /\ st_dirty s = false /\
    st_opts s = applyDefaults opts.
Proof.
  intros Hsd Hname Hmax Hopen Hnext.
  destruct (Open_calm (I := I) opts pid fs D (sd_ok _ _ Hsd) Hname)
    as (s' & L & Hopen' & Hok & _ & _ & Hc & Ho & Hno & f & Hre).
  rewrite Hopen in Hopen'. injection Hopen' as <- _.
  pose proof (sound_dir_lock fs D f Hsd) as Hsd'. pose proof (ok_inv _ _ _ Hok) as Hinv.
  destruct (reopened_running _ _ _ _ _ Hsd' Hre Hinv Hnext) as (a & Ha & Hr & Hfl & Hall & Hdi & Htk & Hsz).
  destruct (dir_ok_lock fs D f (sd_ok _ _ Hsd)) as (_ & Hids & Hrec & _).
  exists L, a. split; [|done]. split; [done| |done|by rewrite Hall, Hids, Hrec].
  split; try done.
  - by eapply active_df.
  - intros id rs HL. by eapply log_below_next.
  - rewrite Ho in Hsz. destruct Hsz; lia.
  - by rewrite Ho.
  - rewrite Htk. by intros ? ?%not_elem_of_nil.
Qed.

(** C2: crash safety.  Open a directory that a crash may have left, run any
    history of client operations, fsyncs and hint builds, and crash: the
    directory is again one that can be opened, and the store opened on it
    holds the map after a prefix of the history in which everything up to the
    last fsync is included and every batch is present whole or not at all;
    with SyncAlways nothing is lost. *)
Theorem crash_safety opts pid pid' fs D cs s w fs' : sound_dir fs D -> o_Dir opts <> [] ->
  o_MaxFileSize (applyDefaults opts) < 2 ^ 63 ->
  Open (I := I) opts pid (mkWorld fs [] false) = (Ok s, w) ->
  Forall cmd_ok cs -> st_seq s + costs cs < 2 ^ 64 -> st_nextID s + zlen cs + 1 < 2 ^ 32 ->
  crashed (w_fs (st_w (exec_all cs s).2)) fs' ->
  let m := kv (absorb_all ∅ (recovered fs D (dir_ids fs))) in
  exists D' s' m', sound_dir fs' D' /\
    Open (I := I) opts pid' (mkWorld fs' [] false) = (Ok s', st_w s') /\ refines s' m' /\
    possible m cs m' /\
    (o_SyncMode (applyDefaults opts) = SyncAlways -> m' = foldl after m cs).
Proof.
  intros Hsd Hname Hmax Hopen Hcmds Hseq Hid Hcr m. pose proof (zlen_nonneg cs).
  destruct (Open_durable opts pid fs D s w Hsd Hname Hmax Hopen) as (L & a & Hd & Hdi & Ho); [lia|].
  destruct (crash_outcome cs s L _ a fs' Hd Hdi Hcmds Hseq Hid Hcr) as (D' & Hsd' & Hpos & Hal).
  destruct (Open_calm (I := I) opts pid' fs' D' (sd_ok _ _ Hsd') Hname) as (s' & L' & Hopen' & Hok' & _).
  exists D', s'. eexists. split; [done|]. split; [done|]. split; [by eexists _, _|].
  split; [done|]. by rewrite <- Ho.
Qed.
End reopen.
