(* ===== verification/Compact.v ===== *)
(** * Compaction and replication sources (internal/engine/compact.go)

    [Compact] rewrites the immutable files into new ones that hold only what
    the index still reaches; [RecordsSince] and [SnapshotRecords] stream
    records to a replica.  These run beside the writers: they take a lock for
    a short stretch at a time, and other goroutines run in between.  Each such
    place is a [point], and [env p] is what the others do to the store there. *)

From S2P Require Import Prelude Bytes Record Datafile Hint Manifest Index Store.

Local Open Scope Z_scope.
Local Open Scope gokv_scope.

(** Where [Compact] holds no lock.  [i] counts items, [n] the items left. *)
Inductive point :=
| AfterSeal | AfterList | AfterSnapshot
| BeforeCopy (i : nat) | BeforeWrite (i : nat) | BeforeSync
| BeforeRepoint (n : nat) | BeforeRetire (n : nat)
| BeforeManifest | BeforeDelete | BeforeUsage.

#[global] Instance point_eq_dec : EqDecision point.
Proof. solve_decision. Defined.

(** Where the replication sources hold no lock: before a file of
    [RecordsSince], and before a chunk, a read and a retry of
    [SnapshotRecords]. *)
Inductive stream_point :=
| BeforeFile (left : nat)
| BeforeChunk (left : nat)
| BeforeRead (chunk left : nat)
| BeforeRetry (chunk left attempt : nat).

#[global] Instance stream_point_eq_dec : EqDecision stream_point.
Proof. solve_decision. Defined.

Section compact.
Context {I : Type} `{KeyIndex I}.
Notation store := (store I).
Notation sto := (sto I).

(** ** When to compact *)

Definition shouldCompact (s : store) : bool :=
  if st_closed s then false
  else if zlen (elements (st_files s)) <? 2 then false
  else
    let live := st_live s in
    let dead := deadBytes s in
    if i64 (live + dead) =? 0 then false
    else f64_leb (o_CompactionThreshold (st_opts s))
           (f64_div (f64_of_Z dead) (f64_of_Z (i64 (live + dead)))).

Definition Compacting (s : store) : bool := st_compacting s.

Definition allocFileID : sto Z := fun s =>
  (Ok (st_nextID s), set_nextID (u32 (st_nextID s + 1)) s).

(** ** The merge *)

(** The variables of the copying loop.  [out] and [hw] are the last elements of
    [outs] and [hws]; [moved] has an entry per item seen so far. *)
Record merge := mkMerge {
  mg_outs : list Z;
  mg_hws : list hintWriter;
  mg_moved : list entry;
  mg_copied : Z
}.

(** [newOut]. *)
Definition newOut (c : merge) : sto merge :=
  id <- allocFileID;;
  df <- io (createDataFile id);;
  h <- sm_catch (io (newHintWriter id))
         (fun e => sm_ignore (io (fs_remove (dataPath id)));;; sm_throw e);;
  sm_modify (fun s => set_files ({[id]} ∪ st_files s) (put_df df s));;;
  sm_ret (mkMerge (mg_outs c ++ [id]) (mg_hws c ++ [h]) (mg_moved c) (mg_copied c)).

(** [cleanup]. *)
Fixpoint abort_all (hws : list hintWriter) : sto unit :=
  match hws with
  | [] => sm_ret tt
  | h :: hws' => io (hw_abort h);;; abort_all hws'
  end.

(** Take the file out of [s.files] and close its handle. *)
Definition forget_file (id : Z) (s : store) : store :=
  set_dfs (close_dfs {[id]} (st_dfs s)) (set_files (st_files s ∖ {[id]}) s).

Fixpoint drop_outs (ids : list Z) : sto unit :=
  match ids with
  | [] => sm_ret tt
  | id :: ids' =>
      sm_modify (forget_file id);;;
      sm_ignore (io (fs_remove (dataPath id)));;;
      drop_outs ids'
  end.

Definition cleanup (c : merge) : sto unit :=
  abort_all (mg_hws c);;; drop_outs (mg_outs c).

(** [if err != nil { cleanup(); return err }] *)
Definition or_cleanup {A} (c : merge) (m : sto A) : sto A :=
  sm_catch m (fun e => cleanup c;;; sm_throw e).

(** The object of a file id, if the file is in [s.files]. *)
Definition file_of (id : Z) (s : store) : option datafile :=
  if bool_decide (id ∈ st_files s) then st_dfs s !! id else None.

(** The object behind an output file's pointer. *)
Definition out_df (id : Z) : sto datafile := s <- sm_get;;
  match st_dfs s !! id with Some d => sm_ret d | None => sm_throw ErrPanic end.

(** Append one encoded record to the current output file and its hint. *)
Definition emit (rec : record) (buf : bytes) (c : merge) : sto merge :=
  match last (mg_outs c), last (mg_hws c) with
  | Some id, Some hw =>
      out <- out_df id;;
      let pos := df_size out in
      or_cleanup c (io (df_writeAt out buf pos));;;
      sm_modify (put_df (df_set_size (pos + zlen buf) out));;;
      let newEnt := mkEntry pos (r_seq rec) id (u32 (zlen buf)) false in
      hw' <- or_cleanup c (io (hw_add (r_key rec) newEnt (nth 20 buf x00) hw));;
      sm_ret (mkMerge (mg_outs c) (removelast (mg_hws c) ++ [hw']) (mg_moved c ++ [newEnt])
                      (mg_copied c + 1))
  | _, _ => sm_throw ErrPanic
  end.

Section merging.
Variable env : point -> store -> store.
Definition pause (p : point) : sto unit := sm_modify (env p).

Definition copy_item (i : nat) (e : entry) (c : merge) : sto merge :=
  s <- sm_get;;
  match file_of (e_fileID e) s with
  | None => sm_ret (mkMerge (mg_outs c) (mg_hws c) (mg_moved c ++ [entry_zero]) (mg_copied c))
  | Some src =>
      buf <- or_cleanup c (io (df_readAt src (e_size e) (e_pos e)));;
      match decodeRecord buf with
      | Err x => cleanup c;;; sm_throw (ErrRecord x)
      | Ok rec =>
          let buf := clearBatchFlags buf in
          pause (BeforeWrite i);;;
          s <- sm_get;;
          let full := match last (mg_outs c) with
                      | None => true
                      | Some id =>
                          let size := match st_dfs s !! id with Some d => df_size d | None => 0 end in
                          o_MaxFileSize (st_opts s) <? size + zlen buf
                      end in
          c <- (if full then or_cleanup c (newOut c) else sm_ret c);;
          emit rec buf c
      end
  end.

Fixpoint copy_items (i : nat) (items : list (bytes * entry)) (c : merge) : sto merge :=
  match items with
  | [] => sm_ret c
  | it :: items' =>
      pause (BeforeCopy i);;;
      c <- copy_item i it.2 c;;
      copy_items (S i) items' c
  end.

Fixpoint sync_outs (c : merge) (ids : list Z) : sto unit :=
  match ids with
  | [] => sm_ret tt
  | id :: ids' =>
      df <- out_df id;;
      or_cleanup c (io (df_sync df));;;
      sync_outs c ids'
  end.

Fixpoint commit_hints (c : merge) (hws : list hintWriter) : sto unit :=
  match hws with
  | [] => sm_ret tt
  | h :: hws' => or_cleanup c (io (hw_commit h));;; commit_hints c hws'
  end.

(** Phase two: move the index onto the copies, and forget the tombstones. *)
Definition repointChunk : nat := 1024.

Definition repoint (s : store) (it : (bytes * entry) * entry) : store :=
  if e_size it.2 =? 0 then s
  else match idx_get it.1.1 (st_idx s) with
       | Some ent =>
           if (e_seq ent =? e_seq it.1.2) && (e_fileID ent =? e_fileID it.1.2)
           then set_idx (idx_set it.1.1 it.2 (st_idx s)) s else s
       | None => s
       end.

Definition retire (s : store) (it : bytes * entry) : store :=
  match idx_get it.1 (st_idx s) with
  | Some ent =>
      if (e_seq ent =? e_seq it.2) && (e_fileID ent =? e_fileID it.2)
      then set_idx (idx_delete it.1 (st_idx s)) s else s
  | None => s
  end.

(** A loop over a list in locked chunks; the length is enough fuel. *)
Fixpoint chunked {A} (p : nat -> point) (f : store -> A -> store) (fuel : nat) (l : list A) : sto unit :=
  match fuel, l with
  | S fuel', _ :: _ =>
      pause (p (length l));;;
      sm_modify (fun s => foldl f s (take repointChunk l));;;
      chunked p f fuel' (drop repointChunk l)
  | _, _ => sm_ret tt
  end.

(** Delete the merged files. *)
Fixpoint drop_merged (ids : list Z) : sto unit :=
  match ids with
  | [] => sm_ret tt
  | id :: ids' =>
      s <- sm_get;;
      sm_when (bool_decide (id ∈ st_files s))
        (sm_modify (forget_file id);;; sm_ignore (io (fs_remove (dataPath id))));;;
      sm_ignore (io (fs_remove (hintPath id)));;;
      drop_merged ids'
  end.

(** [recomputeUsage]. *)
Definition recomputeUsage : sto unit :=
  sm_modify recountLocked;;;
  pause BeforeUsage;;;
  sm_modify (fun s =>
    set_total (foldl (fun t id => i64 (t + match st_dfs s !! id with
                                           | Some d => df_size d
                                           | None => 0
                                           end)) 0 (elements (st_files s))) s).

(** Seal the active file: the sequence number and the active file after it. *)
Definition seal : sto (Z * Z) :=
  af <- get_active;;
  sm_when (0 <? df_size af)
    (io (df_sync af);;; openNewActive;;; sm_modify (set_dirty false));;;
  s <- sm_get;;
  af <- get_active;;
  sm_ret (st_seq s, df_id af).

(** [Compact] from the listing of the files on. *)
Definition merge_files (barrier : Z) (mergeIDs : list Z) : sto unit :=
  pause AfterList;;;
  s <- sm_get;;
  let found := filter (fun it => it.2.(e_fileID) ∈ mergeIDs) (idx_from [] (st_idx s)) in
  let items := filter (fun it => it.2.(e_tomb) = false) found in
  let retired := filter (fun it => it.2.(e_tomb) = true) found in
  pause AfterSnapshot;;;
  c <- copy_items 0 items (mkMerge [] [] [] 0);;
  pause BeforeSync;;;
  sync_outs c (mg_outs c);;;
  commit_hints c (mg_hws c);;;
  or_cleanup c (io syncDir);;;
  chunked BeforeRepoint repoint (length items) (zip items (mg_moved c));;;
  chunked BeforeRetire retire (length retired) retired;;;
  pause BeforeManifest;;;
  sm_modify (set_mergeSeq barrier);;;
  sm_ignore (io (writeManifest barrier));;;
  pause BeforeDelete;;;
  drop_merged mergeIDs;;;
  sm_ignore (io syncDir);;;
  recomputeUsage.

Definition Compact : sto unit :=
  check_open;;;
  ba <- seal;;
  pause AfterSeal;;;
  s <- sm_get;;
  let mergeIDs := merge_sort Z.le (elements (st_files s ∖ {[ba.2]})) in
  match mergeIDs with
  | [] => sm_ret tt
  | _ => merge_files ba.1 mergeIDs
  end.

(** [StartCompaction] and the goroutine it starts. *)
Definition StartCompaction (s : store) : bool * store :=
  if st_compacting s then (false, s) else (true, set_compacting true s).
Definition compaction_task : sto unit :=
  sm_ignore Compact;;; sm_modify (set_compacting false).
End merging.

(** The two tickers of [background]: a flush, and a look at whether to merge;
    whether a merge was started is returned. *)
Definition sync_tick : sto unit :=
  s <- sm_get;;
  sm_when (bool_decide (o_SyncMode (st_opts s) = SyncInterval)) (sm_ignore Sync).
Definition compact_tick (s : store) : bool * store :=
  if shouldCompact s then StartCompaction s else (false, s).

(** ** Replication sources *)

(** The scan of one file in [RecordsSince]; the callback keeps its own state. *)
Section stream.
Context {T : Type} (fn : bytes -> T -> result error unit * T).

Definition since_cb (fromSeq : Z) : Z -> bytes -> record -> sm (T * world) error unit :=
  fun _ raw r tw =>
    if r_seq r <=? fromSeq then (Ok tt, tw)
    else let out := fn raw tw.1 in (out.1, (out.2, tw.2)).

(** No lock is held between two files, two chunks of keys or two reads: the
    places where others run, counted by what is left to do, and what they do
    there. *)
Variable env : stream_point -> store -> store.

Fixpoint since_files (fromSeq : Z) (ids : list Z) (t : T) (s : store)
  : (result error unit * T) * store :=
  match ids with
  | [] => ((Ok tt, t), s)
  | id :: ids' =>
      match io (scanDataFile id (since_cb fromSeq) t) (env (BeforeFile (length ids')) s) with
      | (Err e, s') => ((Err e, t), s')
      | (Ok ((_, None), t'), s') => since_files fromSeq ids' t' s'
      | (Ok ((_, Some e), t'), s') =>
          if bool_decide (e = ErrNotExist) then since_files fromSeq ids' t' s'
          else ((Err e, t'), s')
      end
  end.

Definition RecordsSince (fromSeq : Z) (t : T) (s : store)
  : (result error unit * T) * store :=
  if fromSeq <? st_mergeSeq s then ((Err ErrNeedFullSync, t), s)
  else since_files fromSeq (merge_sort Z.le (elements (st_files s))) t s.

(** [rawRecord]: [others i] is what others do before retry [i]. *)
Fixpoint raw_attempts (others : nat -> store -> store) (attempts : nat) (key : bytes) (e : entry)
  : sto bytes :=
  match attempts with
  | O => sm_throw errFileGone
  | S n =>
      let retry : sto bytes :=
        sm_modify (others n);;;
        s <- sm_get;;
        match idx_get key (st_idx s) with
        | Some e' => raw_attempts others n key e'
        | None => sm_throw ErrKeyNotFound
        end in
      s <- sm_get;;
      match file_of (e_fileID e) s with
      | None => retry
      | Some df =>
          fun s => match io (df_readAt df (e_size e) (e_pos e)) s with
                   | (Ok buf, s') =>
                       match decodeRecord buf with
                       | Ok _ => (Ok (clearBatchFlags buf), s')
                       | Err _ => retry s'
                       end
                   | (Err _, s') => retry s'
                   end
      end
  end.

Definition rawRecord (others : nat -> store -> store) (key : bytes) (e : entry) : sto bytes :=
  raw_attempts others 3 key e.

Definition snapChunk : Z := 512.

(** One chunk of [SnapshotRecords]: as in [Scan], without an end key. *)
Fixpoint snap_loop (nodes : list (bytes * entry)) (c : chunk) : chunk :=
  match nodes with
  | [] => c
  | (k, e) :: nodes' =>
      if ck_exclusive c && bool_decide (k = ck_cursor c) then snap_loop nodes' c
      else
        let examined := ck_examined c + 1 in
        let refs := if e_tomb e then ck_refs c else ck_refs c ++ [(k, e)] in
        let c := mkChunk refs k true examined false in
        if (zlen refs =? snapChunk) || (examined =? snapChunk * 8) then c
        else snap_loop nodes' c
  end.

Definition snap_chunk (cursor : bytes) (exclusive : bool) (s : store) : chunk :=
  snap_loop (idx_from cursor (st_idx s)) (mkChunk [] cursor exclusive 0 false).

(** The records of one chunk: [None] when the loop goes on. *)
Fixpoint snap_refs (round : nat) (refs : list (bytes * entry)) (t : T) (s : store)
  : (option error * T) * store :=
  match refs with
  | [] => ((None, t), s)
  | r :: refs' =>
      match rawRecord (fun i => env (BeforeRetry round (length refs') i)) r.1 r.2
              (env (BeforeRead round (length refs')) s) with
      | (Err x, s') =>
          if bool_decide (x = ErrKeyNotFound) || bool_decide (x = errFileGone)
          then snap_refs round refs' t s'
          else ((Some x, t), s')
      | (Ok buf, s') =>
          match fn buf t with
          | (Err x, t') => ((Some x, t'), s')
          | (Ok _, t') => snap_refs round refs' t' s'
          end
      end
  end.

(** The loop over the chunks, at most [fuel] of them: one more than there are
    keys ahead is enough, counting those that are added meanwhile. *)
Fixpoint snap_rounds (fuel : nat) (cursor : bytes) (exclusive : bool) (t : T) (s : store)
  : (result error unit * T) * store :=
  match fuel with
  | O => ((Err ErrPanic, t), s)
  | S fuel' =>
      let s := env (BeforeChunk fuel') s in
      let c := snap_chunk cursor exclusive s in
      if ck_examined c =? 0 then ((Ok tt, t), s)
      else match snap_refs fuel' (ck_refs c) t s with
           | ((Some x, t'), s') => ((Err x, t'), s')
           | ((None, t'), s') => snap_rounds fuel' (ck_cursor c) (ck_exclusive c) t' s'
           end
  end.

Definition SnapshotRecords (fuel : nat) (t : T) (s : store) : (result error unit * T) * store :=
  snap_rounds fuel [] false t s.
End stream.
End compact.
