(* ===== verification/Merging.v ===== *)
(** * The invariant of a merge

    [Compact] shares the store with the writers.  This file states what the
    store is like while a merge is under way, what the other goroutines may do
    to it in between ([quiet], [benign_env]), and the steps of the merge one by
    one: adding an output file, appending to it, and forgetting a file nobody
    points into. *)

From S2P Require Import Prelude Bytes Decimal Record Datafile Hint Manifest Index Store StoreInv.
From S2P Require Import WritePath Ops Reads Recovery Compact.

Local Open Scope Z_scope.
Local Open Scope gokv_scope.

Lemma Forall2_impl_elem {A B} (R Q : A -> B -> Prop) l k : Forall2 R l k ->
  (forall x y, x ∈ l -> y ∈ k -> R x y -> Q x y) -> Forall2 Q l k.
Proof.
  induction 1 as [|x y l k HR _ IH]; intros HQ; constructor.
  - apply HQ; [left..|done].
  - apply IH. intros x' y' Hx Hy. apply HQ; by right.
Qed.

Section merging.
Context {I : Type} `{KeyIndexSpec I}.
Implicit Types (s : store I) (L : logs) (M : newest) (outs mgd : gset Z).

Notation fs_of s := (w_fs (st_w s)).
Notation view s := (idx_view (st_idx s)).

(** The store between two steps of a merge: sound but for the byte count. *)
Record mid s L M : Prop := {
  md_inv : store_inv s L M;
  md_live : live_inv s;
  md_seq : seq_inv s M
}.

(** The byte count leaves the output files out. *)
Definition kept_dfs outs s : gmap Z datafile :=
  filter (fun p => p.1 ∈ st_files s /\ p.1 ∉ outs) (st_dfs s).
Definition total_without outs s : Prop := st_total s = i64 (map_sum df_size (kept_dfs outs s)).

Lemma total_without_ext outs outs' s s' : st_total s' = st_total s ->
  kept_dfs outs' s' = kept_dfs outs s -> total_without outs s -> total_without outs' s'.
Proof. unfold total_without. by intros -> ->. Qed.

Lemma kept_dfs_ext outs outs' s s' :
  (forall id, id ∈ st_files s /\ id ∉ outs <-> id ∈ st_files s' /\ id ∉ outs') ->
  (forall id, id ∈ st_files s -> id ∉ outs -> st_dfs s' !! id = st_dfs s !! id) ->
  kept_dfs outs' s' = kept_dfs outs s.
Proof.
  intros Hin Hsame. apply map_eq. intros id. apply option_eq. intros d.
  unfold kept_dfs. rewrite !map_lookup_filter_Some. simpl. rewrite <- (Hin id).
  split; intros [Hd [H1 H2]]; (split; [|done]); [rewrite <- (Hsame id)|rewrite (Hsame id)]; done.
Qed.

Lemma total_without_none s : total_without ∅ s <-> total_inv s.
Proof.
  unfold total_without, total_inv. replace (kept_dfs ∅ s) with (open_dfs s); [done|].
  apply map_eq. intros id. apply option_eq. intros d. unfold kept_dfs, open_dfs.
  rewrite !map_lookup_filter_Some. simpl. set_solver.
Qed.

Lemma mid_ok s L M : mid s L M -> total_without ∅ s -> store_ok s L M.
Proof. intros [Hi Hl Hs] Ht. split; [done..|]. by apply total_without_none. Qed.
Lemma ok_mid s L M : store_ok s L M -> mid s L M /\ total_without ∅ s.
Proof. intros [Hi Hl Hs Ht]. split; [done|]. by apply total_without_none. Qed.

(** ** Steps on the directory *)

(** Changes that spare the data files. *)
Lemma inv_other_files s L M w' : store_inv s L M ->
  (forall id, w_fs w' !! dataPath id = fs_of s !! dataPath id) -> store_inv (set_w w' s) L M.
Proof.
  intros [Hix Hfiles Hdom Hact Hfresh] Hfs. split; [done| |done|done|].
  - intros id rs HL. simpl. unfold file_inv. rewrite Hfs. by apply Hfiles.
  - destruct Hfresh as [Hn Hlt]. split; [done|]. intros id Hid. simpl. rewrite Hfs. by apply Hlt.
Qed.

Lemma mid_other_files s L M w' : mid s L M ->
  (forall id, w_fs w' !! dataPath id = fs_of s !! dataPath id) -> mid (set_w w' s) L M.
Proof. intros [Hi Hl Hs] Hfs. split; [by apply inv_other_files|done..]. Qed.

Lemma close_dfs_lookup ids m id : close_dfs ids m !! id =
  (fun d => if bool_decide (id ∈ ids) then df_close d else d) <$> m !! id.
Proof.
  unfold close_dfs. rewrite map_lookup_imap. by destruct (m !! id).
Qed.

(** No entry of the index points into [id]. *)
Definition unreferenced s (id : Z) : Prop := forall k e, view s !! k = Some e -> e_fileID e <> id.

(** A file nobody points into is taken out, and its data file removed or not. *)
Lemma forget_inv s L M id w' : store_inv s L M -> st_active s <> Some id -> unreferenced s id ->
  (forall name, w_fs w' !! name = fs_of s !! name \/ name = dataPath id /\ w_fs w' !! name = None) ->
  is_u32 id -> store_inv (set_w w' (forget_file id s)) (delete id L) M.
Proof.
  intros [[Hwf Hix] Hfiles Hdom Hact [Hn Hlt]] Hna Hun Hfs Hid.
  assert (Hdfs : forall id', id' <> id -> close_dfs {[id]} (st_dfs s) !! id' = st_dfs s !! id').
  { intros id' Hne. rewrite close_dfs_lookup, bool_decide_false by set_solver.
    by destruct (st_dfs s !! id'). }
  split; simpl.
  - split; [done|]. intros k. specialize (Hix k). destruct (view s !! k) as [e|] eqn:Ev; [|done].
    destruct (M !! k) as [r|]; [|done]. destruct Hix as (? & ? & ? & ? & pre & post & HL & ?).
    do 4 (split; [done|]). exists pre, post. rewrite lookup_delete_ne by (by apply not_eq_sym, (Hun k)).
    done.
  - intros id' rs [Hne HL]%lookup_delete_Some. destruct (Hfiles _ _ HL) as (Hu & Hv & d & f & Hd & Hdi & Ho & Hf & Hp).
    split; [done|]. split; [done|]. exists d, f. rewrite Hdfs by done. do 3 (split; [done|]).
    split; [|done]. destruct (Hfs (dataPath id')) as [E|[E _]]; [by rewrite E|].
    exfalso. apply Hne. symmetry. by apply dataPath_inj.
  - rewrite dom_delete_L, Hdom. done.
  - destruct Hact as (a & d & rs & Ha & HL & Hd & ?). exists a, d, rs.
    assert (a <> id) by congruence. by rewrite lookup_delete_ne, Hdfs.
  - split; [done|]. intros id' Hid' [f Hf]. apply Hlt; [done|].
    destruct (Hfs (dataPath id')) as [E|[_ E]]; rewrite Hf in E; [by rewrite <- E|done].
Qed.

Lemma forget_wp s L M id : mid s L M -> st_active s <> Some id -> unreferenced s id ->
  is_u32 id ->
  wp (sm_ignore (io (fs_remove (dataPath id))))
    (fun _ s' => mid s' (delete id L) M /\
       (w_faults (st_w s) = [] -> w_faults (st_w s') = []) /\
       exists w', s' = set_w w' (forget_file id s) /\
         forall name, name <> dataPath id -> w_fs w' !! name = fs_of s !! name)
    (fun _ _ => False) (forget_file id s).
Proof.
  intros [Hinv Hl Hs] Hna Hun Hid.
  assert (Hdone : forall w', (forall name, name <> dataPath id -> w_fs w' !! name = fs_of s !! name) ->
    (forall name, w_fs w' !! name = fs_of s !! name \/ name = dataPath id /\ w_fs w' !! name = None) ->
    (w_faults (st_w s) = [] -> w_faults w' = []) ->
    mid (set_w w' (forget_file id s)) (delete id L) M /\
    (w_faults (st_w s) = [] -> w_faults w' = []) /\
    exists w1, set_w w' (forget_file id s) = set_w w1 (forget_file id s) /\
      forall name, name <> dataPath id -> w_fs w1 !! name = fs_of s !! name).
  { intros w' H1 H2 H3. split; [|split; [done|by exists w']]. split; [by apply forget_inv|done..]. }
  assert (Hio : wp (sm_ignore (fs_remove (dataPath id)))
    (fun _ w' => mid (set_w w' (forget_file id s)) (delete id L) M /\
       (w_faults (st_w s) = [] -> w_faults w' = []) /\
       exists w1, set_w w' (forget_file id s) = set_w w1 (forget_file id s) /\
         forall name, name <> dataPath id -> w_fs w1 !! name = fs_of s !! name)
    (fun _ _ => False) (st_w s)).
  { apply wp_remove_ignored; intros w' (Hfs & _ & Hf); apply Hdone; rewrite ?Hfs; auto.
    - intros name Hne. by rewrite lookup_delete_ne.
    - intros name. destruct (decide (name = dataPath id)) as [->|Hne].
      + right. by rewrite lookup_delete_eq.
      + left. by rewrite lookup_delete_ne. }
  apply wp_ignore, wp_io. unfold wp, sm_ignore in *. simpl.
  destruct (fs_remove (dataPath id) (st_w s)) as [[[]|e] w']; exact Hio.
Qed.

(** ** The other goroutines *)

(** What they leave alone while a merge reads the files [mgd] and writes the
    files [outs], [B] bounding the files they create. *)
Record quiet (B : Z) mgd outs s L s' L' : Prop := {
  qu_logs : forall id, id ∈ mgd ∪ outs -> L' !! id = L !! id;
  qu_outs : forall id, id ∈ outs ->
    st_dfs s' !! id = st_dfs s !! id /\ fs_of s' !! dataPath id = fs_of s !! dataPath id /\
    fs_of s' !! hintTmp id = fs_of s !! hintTmp id;
  qu_index : forall k e, view s' !! k = Some e -> e_fileID e ∈ mgd ∪ outs -> view s !! k = Some e;
  qu_active : forall a, st_active s' = Some a -> a ∈ mgd ∪ outs -> st_active s = Some a;
  qu_total : total_without outs s -> total_without outs s';
  qu_next : st_nextID s <= st_nextID s' <= st_nextID s + B;
  qu_faults : w_faults (st_w s) = [] -> w_faults (st_w s') = []
}.

(** They keep the store sound and a property [P] of the client's map, which
    they may change otherwise; between the sealing of the active file and the
    listing of the files they do not rotate ([Compact] relies on it). *)
Definition benign_env (B : Z) (P : gmap bytes bytes -> Prop) (env : point -> store I -> store I)
  : Prop :=
  forall p mgd outs s L M, mid s L M -> P (kv M) -> mgd ∪ outs ⊆ st_files s ->
    (forall a, st_active s = Some a -> a ∉ mgd ∪ outs) ->
    exists L' M', mid (env p s) L' M' /\ P (kv M') /\ quiet B mgd outs s L (env p s) L' /\
      (p = AfterSeal -> st_active (env p s) = st_active s /\ st_files (env p s) = st_files s).

Section hold.
Context (calm : Prop) (P : gmap bytes bytes -> Prop).

(** A store whose files [mgd] and [outs] the merge holds. *)
Record hold mgd outs s L M : Prop := {
  hd_mid : mid s L M;
  hd_P : P (kv M);
  hd_sub : mgd ∪ outs ⊆ st_files s;
  hd_active : forall a, st_active s = Some a -> a ∉ mgd ∪ outs;
  hd_total : total_without outs s;
  hd_calm : calm -> w_faults (st_w s) = []
}.

(** A merge that was given up: there was a fault, and the store is sound. *)
Definition aborted s : Prop := ~ calm /\ exists L M, store_ok s L M /\ P (kv M).

Lemma hold_u32 mgd outs s L M id : hold mgd outs s L M -> id ∈ mgd ∪ outs ->
  is_u32 id /\ is_Some (L !! id).
Proof.
  intros Hh Hin. pose proof (md_inv _ _ _ (hd_mid _ _ _ _ _ Hh)) as Hinv.
  assert (HL : is_Some (L !! id)).
  { apply elem_of_dom. rewrite (si_dom _ _ _ Hinv). by apply (hd_sub _ _ _ _ _ Hh). }
  split; [|done]. destruct HL as [rs HL]. by destruct (si_files _ _ _ Hinv _ _ HL).
Qed.

Lemma hold_pause B env p mgd outs s L M : benign_env B P env -> hold mgd outs s L M ->
  exists L' M', hold mgd outs (env p s) L' M' /\ quiet B mgd outs s L (env p s) L' /\
    (p = AfterSeal -> st_active (env p s) = st_active s /\ st_files (env p s) = st_files s).
Proof.
  intros Hb [Hmid HP Hsub Hact Htot Hcalm].
  destruct (Hb p mgd outs s L M Hmid HP Hsub Hact) as (L' & M' & Hmid' & HP' & Hq & Hseal).
  exists L', M'. split; [|done]. split; try done.
  - intros id Hin. rewrite <- (si_dom _ _ _ (md_inv _ _ _ Hmid')). apply elem_of_dom.
    rewrite (qu_logs _ _ _ _ _ _ _ Hq id Hin). apply elem_of_dom.
    rewrite (si_dom _ _ _ (md_inv _ _ _ Hmid)). by apply Hsub.
  - intros a Ha Hin. eapply Hact; [|exact Hin]. by eapply (qu_active _ _ _ _ _ _ _ Hq).
  - by apply (qu_total _ _ _ _ _ _ _ Hq).
  - intros Hc. by apply (qu_faults _ _ _ _ _ _ _ Hq), Hcalm.
Qed.

(** ** Giving up *)

Definition tmp_writer (h : hintWriter) : Prop := exists id, hw_tmp h = hintTmp id.

Lemma abort_all_wp hws : Forall tmp_writer hws -> forall s L M, mid s L M ->
  wp (abort_all hws)
    (fun _ s' => mid s' L M /\ (w_faults (st_w s) = [] -> w_faults (st_w s') = []) /\
       exists w', s' = set_w w' s)
    (fun _ _ => False) s.
Proof.
  induction 1 as [|h hws [id Hid] _ IH]; intros s L M Hmid; cbn [abort_all].
  { apply wp_ret. split; [done|]. split; [done|]. exists (st_w s). by destruct s. }
  apply wp_bind, wp_io. unfold hw_abort.
  assert (Hnext : forall w', (forall name, name <> hw_tmp h -> w_fs w' !! name = fs_of s !! name) ->
    (w_faults (st_w s) = [] -> w_faults w' = []) ->
    wp (abort_all hws) (fun _ s' => mid s' L M /\ (w_faults (st_w s) = [] -> w_faults (st_w s') = []) /\
       exists w', s' = set_w w' s) (fun _ _ => False) (set_w w' s)).
  { intros w' Hfs Hf. eapply wp_mono; [apply (IH (set_w w' s) L M)| |done].
    - apply mid_other_files; [done|]. intros id'. apply Hfs. rewrite Hid.
      apply not_eq_sym, hintTmp_dataPath.
    - intros [] s' (Hm & Hf' & w2 & ->). split; [done|]. split; [auto|]. by exists w2. }
  apply wp_remove_ignored; intros w' (Hfs & _ & Hf); apply Hnext; rewrite ?Hfs; auto.
  intros name Hne. by rewrite lookup_delete_ne.
Qed.

Lemma drop_outs_wp ids : forall s L M, mid s L M ->
  (forall id, id ∈ ids -> is_u32 id /\ st_active s <> Some id /\ unreferenced s id) ->
  total_without (list_to_set ids) s ->
  wp (drop_outs ids)
    (fun _ s' => (exists L', store_ok s' L' M) /\ (w_faults (st_w s) = [] -> w_faults (st_w s') = []))
    (fun _ _ => False) s.
Proof.
  induction ids as [|id ids IH]; intros s L M Hmid Hids Htot; cbn [drop_outs].
  { apply wp_ret. split; [|done]. exists L. by apply mid_ok. }
  destruct (Hids id ltac:(set_solver)) as (Hu & Hna & Hun).
  apply wp_bind, wp_modify, wp_bind.
  eapply wp_mono; [exact (forget_wp s L M id Hmid Hna Hun Hu)| |done].
  intros [] s' (Hmid' & Hflt & w' & -> & _).
  eapply wp_mono; [apply (IH _ (delete id L) M Hmid')| |done].
  - intros id' Hin. destruct (Hids id' ltac:(set_solver)) as (? & ? & ?). done.
  - revert Htot. apply total_without_ext; [done|]. apply kept_dfs_ext.
    + intros id'. simpl. set_solver.
    + intros id' _ Hn. simpl. rewrite close_dfs_lookup, bool_decide_false by set_solver.
      by destruct (st_dfs s !! id').
  - intros [] s2 (Hok & Hf2). split; [done|]. auto.
Qed.

Lemma cleanup_wp mgd c s L M :
  hold mgd (list_to_set (mg_outs c)) s L M -> Forall tmp_writer (mg_hws c) ->
  (forall id, id ∈ mg_outs c -> unreferenced s id) ->
  wp (cleanup c) (fun _ s' => exists L' M', store_ok s' L' M' /\ P (kv M')) (fun _ _ => False) s.
Proof.
  intros Hh Hws Hun. unfold cleanup. apply wp_bind.
  eapply wp_mono; [apply (abort_all_wp _ Hws s L M), Hh| |done].
  intros [] s1 (Hmid1 & _ & w1 & ->).
  eapply wp_mono; [apply (drop_outs_wp _ _ L M Hmid1)| |done].
  - intros id Hin. split; [apply (hold_u32 _ _ _ _ _ id Hh); set_solver|]. split.
    + intros Ha. apply (hd_active _ _ _ _ _ Hh id Ha). set_solver.
    + by apply Hun.
  - apply (hd_total _ _ _ _ _ Hh).
  - intros [] s' [[L' Hok] _]. exists L', M. split; [done|apply Hh].
Qed.

(** The state in which a step of the copying may fail. *)
Definition abortable mgd c s : Prop :=
  ~ calm /\ exists L M, hold mgd (list_to_set (mg_outs c)) s L M /\ Forall tmp_writer (mg_hws c) /\
    forall id, id ∈ mg_outs c -> unreferenced s id.

Lemma wp_or_cleanup {A} mgd c (m : sto I A) Q s :
  wp m Q (fun _ s' => abortable mgd c s') s -> wp (or_cleanup c m) Q (fun _ s' => aborted s') s.
Proof.
  intros Hm. apply wp_catch. eapply wp_mono; [exact Hm|done|].
  intros e s' (Hc & L & M & Hh & Hws & Hun). apply wp_bind.
  eapply wp_mono; [by apply (cleanup_wp mgd c s' L M)| |done].
  intros [] s2 Hok. by apply wp_throw.
Qed.

(** ** Output files *)

(** The next file id is taken, and perhaps a file of that name created. *)
Lemma bump_mid s L M w' : mid s L M -> st_nextID s + 1 < 2 ^ 32 ->
  (forall id, is_u32 id -> id <> st_nextID s -> w_fs w' !! dataPath id = fs_of s !! dataPath id) ->
  mid (set_nextID (u32 (st_nextID s + 1)) (set_w w' s)) L M.
Proof.
  intros [[Hix Hfiles Hdom Hact [Hn Hlt]] Hl Hs] Hroom Hfs. split; [|done..].
  assert (Hu : u32 (st_nextID s + 1) = st_nextID s + 1) by (apply u32_small; unfold is_u32 in *; lia).
  split; simpl; try done.
  - intros id rs HL. destruct (Hfiles _ _ HL) as (Hid & Hv & d & f & ? & ? & ? & Hf & ?).
    split; [done|]. split; [done|]. exists d, f. rewrite Hfs; [done..|]. intros ->.
    pose proof (Hlt _ Hid (mk_is_Some _ _ Hf)). lia.
  - rewrite Hu. split; [unfold is_u32 in *; lia|]. intros id Hid Hsome.
    destruct (decide (id = st_nextID s)) as [->|Hne]; [lia|]. rewrite Hfs in Hsome by done.
    specialize (Hlt id Hid Hsome). lia.
Qed.

(** An empty file joins the open files without becoming active. *)
Lemma add_out_mid s L M id : mid s L M -> L !! id = None -> is_u32 id ->
  fs_of s !! dataPath id = Some (mkFile [] 0) ->
  mid (set_files ({[id]} ∪ st_files s) (put_df (mkDatafile id 0 true true) s)) (<[id := []]> L) M.
Proof.
  intros [[[Hwf Hix] Hfiles Hdom Hact Hfresh] Hl Hs] HL Hid Hf. split; [|done..].
  split; simpl; try done.
  - split; [done|]. intros k. specialize (Hix k). destruct (view s !! k), (M !! k); try done.
    by eapply locates_grows; [apply grows_new|].
  - intros id' rs' HL'. destruct (decide (id' = id)) as [->|Hne].
    + rewrite lookup_insert_eq in HL'. injection HL' as <-. split; [done|]. split; [constructor|].
      exists (mkDatafile id 0 true true), (mkFile [] 0). rewrite lookup_insert_eq.
      repeat split; done.
    + rewrite lookup_insert_ne in HL' by done. destruct (Hfiles _ _ HL') as (? & ? & d & f & ?).
      split; [done|]. split; [done|]. exists d, f. by rewrite lookup_insert_ne.
  - by rewrite dom_insert_L, Hdom.
  - destruct Hact as (a & d & rs & Ha & HLa & Hd & ?). exists a, d, rs.
    assert (a <> id) by congruence. by rewrite !lookup_insert_ne.
Qed.

(** Records that are in the file become part of its log. *)
Lemma extend_out_mid s L M id rs recs d f : mid s L M -> L !! id = Some rs ->
  st_active s <> Some id -> st_dfs s !! id = Some d -> df_id d = id -> df_open d = true ->
  fs_of s !! dataPath id = Some f -> encode_all (rs ++ recs) `prefix_of` f_data f ->
  Forall valid_record recs ->
  mid (put_df (df_set_size (log_size (rs ++ recs)) d) s) (<[id := rs ++ recs]> L) M.
Proof.
  intros [[[Hwf Hix] Hfiles Hdom Hact Hfresh] Hl Hs] HL Hna Hd Hdi Ho Hf Hpre Hv. split; [|done..].
  split; simpl; rewrite ?Hdi; try done.
  - split; [done|]. intros k. specialize (Hix k). destruct (view s !! k), (M !! k); try done.
    by eapply locates_grows; [apply grows_append|].
  - intros id' rs' HL'. destruct (decide (id' = id)) as [->|Hne].
    + rewrite lookup_insert_eq in HL'. injection HL' as <-.
      destruct (Hfiles _ _ HL) as (? & ? & _). split; [done|]. split; [by apply Forall_app|].
      eexists _, f. by rewrite lookup_insert_eq.
    + rewrite lookup_insert_ne in HL' by done. destruct (Hfiles _ _ HL') as (? & ? & d0 & f0 & ?).
      split; [done|]. split; [done|]. exists d0, f0. by rewrite lookup_insert_ne.
  - rewrite dom_insert_lookup_L by eauto. done.
  - destruct Hact as (a & d0 & rs0 & Ha & HLa & Hd0 & ?). exists a, d0, rs0.
    assert (a <> id) by congruence. by rewrite !lookup_insert_ne.
Qed.

(** ** Copying *)

Section copy.
Context (mgd : gset Z) (items retired : list (bytes * entry)).

(** The copy of an item: the same record, no longer part of a batch. *)
Definition moved_to L (ids : list Z) (it : bytes * entry) (mv : entry) : Prop :=
  exists r, locates L it.1 it.2 r /\ locates L it.1 mv (strip_batch r) /\ e_fileID mv ∈ ids.

(** An output file with its hint writer: the file holds its log and nothing
    else, and the hint written so far lists it. *)
Definition out_ok s L (id : Z) (h : hintWriter) : Prop :=
  hw_tmp h = hintTmp id /\ hw_dest h = hintPath id /\ hw_buf h = hint_of id (log_of L id) /\
  fs_of s !! hintTmp id = Some (mkFile [] 0) /\
  exists d f, st_dfs s !! id = Some d /\ df_id d = id /\ df_open d = true /\ df_write d = true /\
    df_size d = log_size (log_of L id) /\
    fs_of s !! dataPath id = Some f /\ f_data f = encode_all (log_of L id).

Record copying s L M (c : merge) : Prop := {
  cy_hold : hold mgd (list_to_set (mg_outs c)) s L M;
  cy_index : forall id, id ∈ mg_outs c -> unreferenced s id;
  cy_covered : forall k e, view s !! k = Some e -> e_fileID e ∈ mgd -> (k, e) ∈ items ++ retired;
  cy_items : forall k e, (k, e) ∈ items ++ retired -> e_fileID e ∈ mgd /\ exists r, locates L k e r;
  cy_moved : Forall2 (moved_to L (mg_outs c)) (take (length (mg_moved c)) items) (mg_moved c);
  cy_outs : Forall2 (out_ok s L) (mg_outs c) (mg_hws c);
  cy_nodup : NoDup (mg_outs c);
  cy_disj : forall id, id ∈ mg_outs c -> id ∉ mgd
}.

Lemma out_tmp s L ids hws : Forall2 (out_ok s L) ids hws -> Forall tmp_writer hws.
Proof. induction 1 as [|id h ids hws (Ht & _)]; constructor; [by exists id|done]. Qed.

Lemma copying_abortable s L M c : ~ calm -> copying s L M c -> abortable mgd c s.
Proof.
  intros Hc Hcy. split; [done|]. exists L, M. split; [apply Hcy|]. split; [by eapply out_tmp, Hcy|apply Hcy].
Qed.

Lemma locates_same L L' k e r : L' !! e_fileID e = L !! e_fileID e -> locates L k e r -> locates L' k e r.
Proof. unfold locates. by intros ->. Qed.

(** Logs that agree on the held files serve as well. *)
Lemma moved_same L L' ids its mvs : Forall2 (moved_to L ids) its mvs ->
  (forall it, it ∈ its -> e_fileID it.2 ∈ mgd) ->
  (forall id, id ∈ mgd \/ id ∈ ids -> L' !! id = L !! id) -> Forall2 (moved_to L' ids) its mvs.
Proof.
  intros Hm Hin HL. induction Hm as [|it mv its mvs (r & H1 & H2 & H3) _ IH]; constructor.
  - exists r. split; [|split; [|done]]; (eapply locates_same; [apply HL|done]).
    + left. apply Hin. by left.
    + by right.
  - apply IH. intros it' Hit'. apply Hin. by right.
Qed.

Lemma copying_pause B env p s L M c : benign_env B P env -> copying s L M c ->
  exists L' M', copying (env p s) L' M' c /\ quiet B mgd (list_to_set (mg_outs c)) s L (env p s) L'.
Proof.
  intros Hb [Hh Hix Hcov Hit Hmv Ho Hnd Hdj].
  destruct (hold_pause B env p _ _ s L M Hb Hh) as (L' & M' & Hh' & Hq & _). exists L', M'.
  split; [|done].
  assert (HL : forall id, id ∈ mgd \/ id ∈ mg_outs c -> L' !! id = L !! id).
  { intros id Hin. apply (qu_logs _ _ _ _ _ _ _ Hq). set_solver. }
  split; try done.
  - intros id Hin k e Hk E. apply (Hix id Hin k e); [|done].
    apply (qu_index _ _ _ _ _ _ _ Hq k e Hk). set_solver.
  - intros k e Hk Hin. apply Hcov; [|done]. apply (qu_index _ _ _ _ _ _ _ Hq k e Hk). set_solver.
  - intros k e Hin. destruct (Hit k e Hin) as (Hm & r & Hr). split; [done|]. exists r.
    eapply locates_same; [|done]. apply HL. by left.
  - apply (moved_same L); [done| |done]. intros it Hin. apply (Hit it.1 it.2). rewrite <- surjective_pairing.
    apply elem_of_app. left. eapply subseteq_take; done.
  - assert (Hsame : forall id, id ∈ mg_outs c -> L' !! id = L !! id) by auto.
    apply (Forall2_impl_elem _ _ _ _ Ho). intros id h Hin _ (H1 & H2 & H3 & H4 & d & f & Hd & ? & ? & ? & ? & Hf & ?).
    destruct (qu_outs _ _ _ _ _ _ _ Hq id ltac:(set_solver)) as (E1 & E2 & E3).
    unfold out_ok, log_of. rewrite E1, E2, E3, Hsame by done. eauto 15.
Qed.

(** *** A new output file *)

Lemma hold_world outs s L M s' : hold mgd outs s L M -> mid s' L M ->
  st_files s' = st_files s -> st_active s' = st_active s -> st_dfs s' = st_dfs s ->
  st_total s' = st_total s -> (calm -> w_faults (st_w s') = []) ->
  hold mgd outs s' L M.
Proof.
  intros [Hmid HP Hsub Hact Htot Hcalm] Hmid' Ef Ea Ed Et Hf.
  split; rewrite ?Ef, ?Ea; auto. unfold total_without, kept_dfs in *. by rewrite Ef, Ed, Et.
Qed.

(** The steps of [newOut] that may fail leave a merge that can be given up. *)
Lemma bump_abortable s L M c w' : ~ calm -> copying s L M c -> st_nextID s + 1 < 2 ^ 32 ->
  (forall id, is_u32 id -> id <> st_nextID s -> w_fs w' !! dataPath id = fs_of s !! dataPath id) ->
  abortable mgd c (set_nextID (u32 (st_nextID s + 1)) (set_w w' s)).
Proof.
  intros Hc Hcy Hroom Hfs. split; [done|]. exists L, M.
  split; [|split; [by eapply out_tmp, Hcy|apply Hcy]].
  apply (hold_world _ s); [apply Hcy| |done..].
  apply bump_mid; [apply Hcy|done..].
Qed.

Definition with_out (c : merge) (id : Z) : merge :=
  mkMerge (mg_outs c ++ [id]) (mg_hws c ++ [mkHintWriter hintMagic (hintTmp id) (hintPath id)])
    (mg_moved c) (mg_copied c).

(** The store with a new output file, whose hint has been begun. *)
Definition opened_out s (w' : world) : store I :=
  let id := st_nextID s in
  set_files ({[id]} ∪ st_files s) (put_df (mkDatafile id 0 true true)
    (set_nextID (u32 (id + 1)) (set_w w' s))).

Lemma copying_new s L M c w' : copying s L M c -> st_nextID s + 1 < 2 ^ 32 ->
  let id := st_nextID s in
  (forall id', is_u32 id' -> id' <> id -> w_fs w' !! dataPath id' = fs_of s !! dataPath id' /\
     w_fs w' !! hintTmp id' = fs_of s !! hintTmp id') ->
  w_fs w' !! dataPath id = Some (mkFile [] 0) -> w_fs w' !! hintTmp id = Some (mkFile [] 0) ->
  (calm -> w_faults w' = []) ->
  copying (opened_out s w') (<[id := []]> L) M (with_out c id).
Proof.
  intros [Hh Hix Hcov Hit Hmv Ho Hnd Hdj] Hroom id Hfs Hf Ht Hcalm.
  pose proof (hd_mid _ _ _ _ _ Hh) as Hmid. pose proof (md_inv _ _ _ Hmid) as Hinv.
  destruct (si_fresh _ _ _ Hinv) as [Hu Hlt].
  assert (Hold : forall id', is_Some (L !! id') -> is_u32 id' /\ id' <> id).
  { intros id' [rs HL]. destruct (si_files _ _ _ Hinv _ _ HL) as (Hu' & _ & ? & ? & _ & _ & _ & Hf' & _).
    split; [done|]. specialize (Hlt id' Hu' ltac:(eauto)). unfold id. lia. }
  assert (HLn : L !! id = None).
  { destruct (L !! id) eqn:E; [|done]. by destruct (Hold id ltac:(eauto)) as [_ ?]. }
  assert (Hheld : forall id', id' ∈ mgd \/ id' ∈ mg_outs c -> is_Some (L !! id')).
  { intros id' Hin. apply (hold_u32 _ _ _ _ _ id' Hh). set_solver. }
  assert (Hsame : forall id', is_Some (L !! id') -> <[id := []]> L !! id' = L !! id').
  { intros id' HL. rewrite lookup_insert_ne; [done|]. apply not_eq_sym, Hold, HL. }
  split; simpl.
  - split; simpl.
    + apply (add_out_mid (set_nextID (u32 (id + 1)) (set_w w' s)) L M id); [|done..].
      apply bump_mid; [done..|]. intros. by apply Hfs.
    + apply (hd_P _ _ _ _ _ Hh).
    + pose proof (hd_sub _ _ _ _ _ Hh) as Hsub. rewrite list_to_set_app_L. set_solver.
    + intros a Ha. pose proof (hd_active _ _ _ _ _ Hh a Ha) as Hna.
      destruct (si_active _ _ _ Hinv) as (a' & ? & rs & Ha' & HLa & _). rewrite Ha in Ha'. injection Ha' as <-.
      assert (a <> id) by (apply Hold; eauto). rewrite list_to_set_app_L. set_solver.
    + apply (total_without_ext (list_to_set (mg_outs c)) _ s); [done| |apply Hh]. apply kept_dfs_ext; simpl.
      * intros id'. rewrite list_to_set_app_L. fold id. split; [|set_solver].
        intros [H1 H2]. split; [set_solver|]. assert (id' <> id); [|set_solver].
        apply Hold, elem_of_dom. by rewrite (si_dom _ _ _ Hinv).
      * intros id' Hin _. fold id. rewrite lookup_insert_ne; [done|]. apply not_eq_sym, Hold, elem_of_dom.
        by rewrite (si_dom _ _ _ Hinv).
    + done.
  - intros id' [Hin| ->%list_elem_of_singleton]%elem_of_app k e Hk; [by apply (Hix id' Hin k)|].
    destruct (si_index _ _ _ Hinv) as [_ Hv]. specialize (Hv k). simpl in Hk. rewrite Hk in Hv.
    destruct (M !! k); [|done]. destruct Hv as (_ & _ & _ & _ & ? & ? & HL & _). apply Hold. eauto.
  - done.
  - intros k e Hin. destruct (Hit k e Hin) as (Hm & r & Hr). split; [done|]. exists r.
    eapply locates_same; [|done]. apply Hsame. auto.
  - apply (Forall2_impl (moved_to (<[id := []]> L) (mg_outs c))).
    + apply (moved_same L); [done| |auto]. intros it Hin. apply (Hit it.1 it.2).
      rewrite <- surjective_pairing. apply elem_of_app. left. by eapply subseteq_take.
    + intros it mv (r & ? & ? & ?). exists r. set_solver.
  - apply Forall2_app.
    + apply (Forall2_impl_elem _ _ _ _ Ho).
      intros id' h Hin _ (H1 & H2 & H3 & H4 & d & f & Hd & ? & ? & ? & ? & Hf' & ?).
      destruct (Hold id' ltac:(auto)) as [Hu' Hne]. destruct (Hfs id' Hu' Hne) as [E1 E2].
      unfold out_ok, log_of. simpl. fold id. rewrite Hsame, E1, E2, lookup_insert_ne by auto. eauto 15.
    + constructor; [|constructor]. unfold out_ok, log_of. simpl. fold id.
      rewrite !lookup_insert_eq, Hf, Ht. split; [done|]. split; [done|]. split; [done|]. split; [done|].
      eexists _, _. split; [done|]. repeat split; done.
  - apply NoDup_app. split; [done|]. split; [|apply NoDup_singleton].
    intros id' Hin ->%list_elem_of_singleton. by destruct (Hold id ltac:(auto)).
  - intros id' [Hin| ->%list_elem_of_singleton]%elem_of_app; [by apply Hdj|]. intros Hm.
    by destruct (Hold id ltac:(auto)).
Qed.

Lemma newOut_wp s L M c : copying s L M c -> st_nextID s + 1 < 2 ^ 32 ->
  wp (newOut c)
    (fun c' s' => let id := st_nextID s in
       copying s' (<[id := []]> L) M c' /\ c' = with_out c id /\ st_nextID s' = id + 1)
    (fun _ s' => abortable mgd c s') s.
Proof.
  intros Hcy Hroom. pose proof (cy_hold _ _ _ _ Hcy) as Hh.
  pose proof (md_inv _ _ _ (hd_mid _ _ _ _ _ Hh)) as Hinv. destruct (si_fresh _ _ _ Hinv) as [Hu Hlt].
  assert (Hcalm : w_faults (st_w s) <> [] -> ~ calm) by (intros Hf Hc; by apply Hf, Hh).
  unfold newOut. apply wp_bind. unfold wp at 1. cbn [allocFileID].
  apply wp_bind, wp_io, wp_bind, wp_fs_create_excl; cbn [set_nextID st_w].
  { intros Hf w' Hw. apply (bump_abortable s L M c w'); auto. intros. by rewrite (proj1 Hw). }
  2:{ intros Hs w' Hw. specialize (Hlt _ Hu Hs). lia. }
  intros _ w1 Hw1. apply wp_ret, wp_bind, wp_catch, wp_io. cbn [set_w st_w].
  assert (Hdata : forall w', only_at (hintTmp (st_nextID s)) w1 w' -> forall id, is_u32 id ->
    id <> st_nextID s -> w_fs w' !! dataPath id = fs_of s !! dataPath id).
  { intros w' [Hw' _] id Hid Hne. rewrite Hw', (proj1 Hw1) by apply not_eq_sym, hintTmp_dataPath.
    apply lookup_insert_ne. intros E. apply Hne. symmetry. by apply dataPath_inj. }
  eapply wp_mono; [apply newHintWriter_wp| |].
  - intros h w2 (-> & Hat & Htmp). apply wp_bind, wp_modify, wp_ret. cbn zeta.
    split; [|split; [done|]].
    + apply (copying_new s L M c w2 Hcy Hroom); [| |done|].
      * intros id Hid Hne. split; [by apply Hdata|]. rewrite (proj1 Hat), (proj1 Hw1).
        -- apply lookup_insert_ne, not_eq_sym, hintTmp_dataPath.
        -- intros E. apply Hne. by apply hintTmp_inj.
      * rewrite (proj1 Hat), (proj1 Hw1) by apply not_eq_sym, hintTmp_dataPath. apply lookup_insert_eq.
      * intros Hc. apply Hat, Hw1. by apply Hh.
    + simpl. apply u32_small. unfold is_u32 in *. lia.
  - intros e w2 [Hf Hat]. apply wp_bind, wp_ignore, wp_io. cbn [set_w st_w].
    assert (Hnc : ~ calm) by (apply Hcalm; by eapply to_fs_faults).
    assert (Hrm : wp (sm_ignore (fs_remove (dataPath (st_nextID s))))
      (fun _ w' => forall id, is_u32 id -> id <> st_nextID s -> w_fs w' !! dataPath id = fs_of s !! dataPath id)
      (fun _ _ => False) w2).
    { apply wp_remove_ignored; intros w' Hw' id Hid Hne; rewrite (proj1 Hw').
      - by apply Hdata.
      - rewrite lookup_delete_ne; [by apply Hdata|]. intros E. apply Hne. symmetry. by apply dataPath_inj. }
    unfold wp, sm_ignore in *. destruct (fs_remove _ w2) as [[[]|x] w3]; simpl in *;
      apply (bump_abortable s L M c w3); auto.
Qed.

(** *** One record *)

Lemma hint_of_snoc id rs r : hint_of id (rs ++ [r]) =
  hint_of id rs ++ hint_header (mkEntry (log_size rs) (r_seq r) id (u32 (zlen (encode r))) false)
    (r_flags r) (r_key r) ++ r_key r.
Proof.
  unfold hint_of. rewrite placed_snoc, fmap_app, join_app. simpl. rewrite app_nil_r.
  by rewrite Z.add_0_l.
Qed.

(** The entry and the state after a record has been appended to output [id]. *)
Definition emitted_entry (id : Z) (rs : list record) (r : record) : entry :=
  mkEntry (log_size rs) (r_seq r) id (u32 (zlen (encode (strip_batch r)))) false.

Definition emitted (c : merge) (hws : list hintWriter) (id : Z) (rs : list record) (r : record) : merge :=
  mkMerge (mg_outs c) (hws ++ [mkHintWriter (hint_of id (rs ++ [strip_batch r])) (hintTmp id) (hintPath id)])
    (mg_moved c ++ [emitted_entry id rs r]) (mg_copied c + 1).

Lemma emitted_located L it id rs r : locates L it.1 it.2 r -> tombstone r = false ->
  valid_record r -> L !! id = Some rs ->
  let L' := <[id := rs ++ [strip_batch r]]> L in
  locates L' it.1 it.2 r /\ locates L' it.1 (emitted_entry id rs r) (strip_batch r).
Proof.
  intros Hloc Ht Hv HL L'. split; [eapply locates_grows; [by apply grows_append|done]|].
  destruct Hloc as (Hk & _). split; [done|]. split; [done|].
  split; [unfold tombstone in *; simpl; by rewrite clear_flags_tombstone|].
  split; [apply u32_small; split; [apply zlen_nonneg|by apply valid_encode_size]|].
  exists rs, []. unfold L'. simpl. by rewrite lookup_insert_eq.
Qed.

Lemma hold_emit s L M c id rs r d f' w' :
  hold mgd (list_to_set (mg_outs c)) s L M -> id ∈ mg_outs c -> L !! id = Some rs ->
  st_dfs s !! id = Some d -> df_id d = id -> df_open d = true -> valid_record r ->
  w_fs w' = <[dataPath id := f']> (fs_of s) -> f_data f' = encode_all (rs ++ [strip_batch r]) ->
  (calm -> w_faults w' = []) -> is_Some (fs_of s !! dataPath id) ->
  hold mgd (list_to_set (mg_outs c))
    (put_df (df_set_size (log_size (rs ++ [strip_batch r])) d) (set_w w' s))
    (<[id := rs ++ [strip_batch r]]> L) M.
Proof.
  intros Hh Hin HL Hd Hdi Ho Hv Hfs Hdata Hcalm [f0 Hf0].
  destruct (hold_u32 _ _ _ _ _ id Hh ltac:(set_solver)) as [Hu _].
  pose proof (hd_mid _ _ _ _ _ Hh) as [Hinv Hl Hsq]. split.
  - apply (extend_out_mid (set_w w' s) L M id rs [strip_batch r] d f'); try done.
    + split; [|done..]. destruct Hinv as [Hix Hfiles Hdom Hact [Hn Hlt]]. split; try done.
      * intros id' rs' HL'. simpl. rewrite Hfs. destruct (Hfiles _ _ HL') as (Hu' & Hv' & d0 & f & ? & ? & ? & ? & ?).
        split; [done|]. split; [done|]. destruct (decide (id' = id)) as [->|Hne].
        -- exists d0, f'. rewrite lookup_insert_eq. rewrite HL in HL'. injection HL' as <-.
           do 4 (split; [done|]). rewrite Hdata, encode_all_app. by apply prefix_app_r.
        -- exists d0, f. rewrite lookup_insert_ne; [done|]. intros E. apply Hne. symmetry. by apply dataPath_inj.
      * split; [done|]. intros id' Hid' [f Hf]. simpl in Hf. rewrite Hfs in Hf. apply Hlt; [done|].
        destruct (decide (dataPath id = dataPath id')) as [<-|Hne]; [eauto|].
        rewrite lookup_insert_ne in Hf by done. eauto.
    + intros Ha. apply (hd_active _ _ _ _ _ Hh id Ha). set_solver.
    + simpl. rewrite Hfs. apply lookup_insert_eq.
    + by rewrite Hdata.
    + by constructor.
  - apply (hd_P _ _ _ _ _ Hh).
  - apply (hd_sub _ _ _ _ _ Hh).
  - apply (hd_active _ _ _ _ _ Hh).
  - apply (total_without_ext (list_to_set (mg_outs c)) _ s); [done| |apply Hh].
    apply kept_dfs_ext; [done|]. intros id' _ Hn. simpl. rewrite Hdi.
    apply lookup_insert_ne. set_solver.
  - done.
Qed.

Lemma copying_emit s L M c (ids0 : list Z) hws0 h id rs r it d f' w' :
  copying s L M c -> mg_outs c = ids0 ++ [id] -> mg_hws c = hws0 ++ [h] ->
  items !! length (mg_moved c) = Some it -> locates L it.1 it.2 r -> tombstone r = false ->
  valid_record r -> L !! id = Some rs -> st_dfs s !! id = Some d -> df_open d = true ->
  df_write d = true -> df_id d = id -> is_Some (fs_of s !! dataPath id) ->
  w_fs w' = <[dataPath id := f']> (fs_of s) -> f_data f' = encode_all (rs ++ [strip_batch r]) ->
  (calm -> w_faults w' = []) ->
  copying (put_df (df_set_size (log_size (rs ++ [strip_batch r])) d) (set_w w' s))
    (<[id := rs ++ [strip_batch r]]> L) M (emitted c hws0 id rs r).
Proof.
  intros [Hh Hix Hcov Hit Hmv Ho Hnd Hdj] Houts Hhws Hi Hloc Ht Hv HL Hd Hop Hwr Hdi Hex Hfs Hdata Hcalm.
  assert (Hin : id ∈ mg_outs c) by (rewrite Houts; set_solver).
  destruct (emitted_located L it id rs r Hloc Ht Hv HL) as [Hl1 Hl2].
  assert (Hg : grows L (<[id := rs ++ [strip_batch r]]> L)) by (by apply grows_append).
  split; simpl; try done.
  - by apply (hold_emit s L M c id rs r d f' w').
  - intros k e Hke. destruct (Hit k e Hke) as (Hm & r0 & Hr0). split; [done|]. exists r0.
    by eapply locates_grows.
  - rewrite length_app. simpl. rewrite Nat.add_1_r, (take_S_r _ _ _ Hi). apply Forall2_app.
    + apply (Forall2_impl _ _ _ _ Hmv). intros it0 mv (r0 & H1 & H2 & H3). exists r0.
      split; [by eapply locates_grows|]. split; [by eapply locates_grows|done].
    + constructor; [|constructor]. exists r. done.
  - rewrite Houts, Hhws in *. apply Forall2_app_inv in Ho as [Ho Hlast].
    2:{ apply Forall2_length in Ho. rewrite !length_app in Ho. simpl in Ho. lia. }
    apply NoDup_app in Hnd as (_ & Hni & _). apply Forall2_app.
    + apply (Forall2_impl_elem _ _ _ _ Ho).
      intros id' h' Hin' _ (H1 & H2 & H3 & H4 & d0 & f & Hd0 & ? & ? & ? & ? & Hf & ?).
      assert (Hne : id' <> id) by (intros ->; by apply (Hni id Hin'); left).
      assert (Hne' : dataPath id <> dataPath id').
      { intros E. apply Hne. symmetry. apply dataPath_inj; [| |done].
        - apply (hold_u32 _ _ _ _ _ id Hh). set_solver.
        - apply (hold_u32 _ _ _ _ _ id' Hh). set_solver. }
      unfold out_ok, log_of. simpl. rewrite Hfs, Hdi, !lookup_insert_ne by (done || apply not_eq_sym, hintTmp_dataPath || apply hintTmp_dataPath || auto).
      eauto 15.
    + constructor; [|constructor]. apply Forall2_cons in Hlast as [(H1 & H2 & H3 & H4 & _) _].
      unfold out_ok, log_of. simpl. rewrite Hfs, Hdi, !lookup_insert_eq. simpl.
      rewrite lookup_insert_ne by (apply not_eq_sym, hintTmp_dataPath).
      do 4 (split; [done|]). eexists _, f'. split; [done|]. done.
Qed.

Lemma last_out s L M c id : copying s L M c -> last (mg_outs c) = Some id ->
  exists ids0 hws0 h, mg_outs c = ids0 ++ [id] /\ mg_hws c = hws0 ++ [h] /\ out_ok s L id h.
Proof.
  intros Hcy [ids0 E]%last_Some. pose proof (cy_outs _ _ _ _ Hcy) as Ho. rewrite E in Ho.
  apply Forall2_app_inv_l in Ho as (hws0 & k & _ & Hk & ->). apply Forall2_cons_inv_l in Hk as (h & k' & Hh & Hk & ->).
  apply Forall2_nil_inv_l in Hk as ->. by exists ids0, hws0, h.
Qed.

(** A write that fails leaves a merge that can be given up. *)
Lemma write_abortable s L M c w' : ~ calm -> copying s L M c -> store_inv (set_w w' s) L M ->
  abortable mgd c (set_w w' s).
Proof.
  intros Hc Hcy Hinv. split; [done|]. exists L, M.
  split; [|split; [by eapply out_tmp, Hcy|apply Hcy]].
  apply (hold_world _ s); [apply Hcy| |done..]. destruct (hd_mid _ _ _ _ _ (cy_hold _ _ _ _ Hcy)).
  by split.
Qed.

Lemma emit_wp s L M c it r id : copying s L M c -> last (mg_outs c) = Some id ->
  items !! length (mg_moved c) = Some it -> locates L it.1 it.2 r -> tombstone r = false ->
  wp (emit r (encode (strip_batch r)) c)
    (fun c' s' => exists L', copying s' L' M c' /\ length (mg_moved c') = S (length (mg_moved c)) /\
       st_nextID s' = st_nextID s)
    (fun _ s' => aborted s') s.
Proof.
  intros Hcy Hlast Hi Hloc Ht. pose proof (cy_hold _ _ _ _ Hcy) as Hh.
  pose proof (md_inv _ _ _ (hd_mid _ _ _ _ _ Hh)) as Hinv.
  assert (Hcalm : w_faults (st_w s) <> [] -> ~ calm) by (intros Hf Hc; by apply Hf, Hh).
  destruct (last_out s L M c id Hcy Hlast) as (ids0 & hws0 & h & Eo & Eh & Hout).
  destruct Hout as (Htmp & Hdest & Hbuf & Htf & d & f & Hd & Hdi & Hop & Hwr & Hsz & Hf & Hdata).
  assert (Hin : id ∈ mg_outs c) by (rewrite Eo; set_solver).
  destruct (hold_u32 _ _ _ _ _ id Hh ltac:(set_solver)) as [Hu [rs HL]].
  assert (Hrs : log_of L id = rs) by (unfold log_of; by rewrite HL). rewrite Hrs in *.
  destruct (located_bytes _ _ _ _ _ _ (si_files _ _ _ Hinv) Hloc) as (? & ? & _ & _ & _ & _ & Hv & _).
  unfold emit. rewrite Hlast, Eh, last_snoc. apply wp_bind. unfold out_df. apply wp_bind, wp_get.
  rewrite Hd. apply wp_ret, wp_bind, (wp_or_cleanup mgd), wp_io. unfold df_writeAt.
  rewrite Hop, Hwr, Hdi, Hsz. cbn [andb df_guard].
  eapply wp_fs_write_at; [exact Hf| |].
  2:{ intros Hflt k w1 Hw1. apply (write_abortable s L M); auto.
      eapply (active_update s L M id rs f w1); try done. by rewrite Hdata. }
  intros w1 Hw1. rewrite <- (app_nil_r (f_data f)) in Hw1 at 1.
  rewrite Hdata, write_bytes_at, skipn_nil, app_nil_r in Hw1 by done.
  apply wp_bind, wp_modify.
  set (r' := strip_batch r) in *. set (rs' := rs ++ [r']).
  assert (Hsz' : log_size rs + zlen (encode r') = log_size rs').
  { unfold rs'. rewrite log_size_app. unfold log_size at 3.
    by rewrite zlen_encode_all_cons, zlen_encode_all_nil, Z.add_0_r. }
  rewrite Hsz'. set (s2 := put_df _ (set_w w1 s)).
  assert (Henc : encode_all rs ++ encode r' = encode_all rs').
  { unfold rs'. by rewrite encode_all_app, encode_all_cons, app_nil_r. }
  rewrite Henc in Hw1.
  assert (Hcy2 : forall w2, advance w1 w2 -> copying (set_w w2 s2) (<[id := rs']> L) M (emitted c hws0 id rs r)).
  { intros w2 Hw2. unfold s2. apply (copying_emit s L M c ids0 hws0 h id rs r it d
      (mkFile (encode_all rs') (Z.min (log_size rs) (f_synced f))) w2); try done.
    - by rewrite (proj1 Hw2), (proj1 Hw1).
    - intros Hc. apply Hw2, Hw1, Hh, Hc. }
  apply wp_bind, (wp_or_cleanup mgd), wp_io.
  change (st_w s2) with w1. eapply wp_mono; [apply hw_add_wp| |].
  - intros h' w2 [-> Hw2]. apply wp_ret. exists (<[id := rs']> L). rewrite removelast_last.
    split; [|split; [simpl; rewrite length_app; simpl; lia|done]].
    rewrite Htmp, Hdest, Hbuf. unfold r'. rewrite encode_flags. 
    pose proof (Hcy2 w2 Hw2) as Hcy3. unfold emitted in Hcy3. fold r' in Hcy3.
    rewrite hint_of_snoc in Hcy3. exact Hcy3.
  - intros err w2 [Hflt Hw2]. assert (Hnc : ~ calm) by (apply Hcalm; by eapply to_fs_faults).
    pose proof (copying_abortable _ _ _ _ Hnc (Hcy2 w2 Hw2)) as (_ & L3 & M3 & Hh3 & _ & Hun).
    split; [done|]. exists L3, M3. split; [exact Hh3|]. split; [by eapply out_tmp, Hcy|exact Hun].
Qed.
End copy.
End hold.
End merging.
