(* ===== verification/Compaction.v ===== *)
(** * Compaction keeps the client's map

    [Compact] run to its end beside other goroutines: whatever property of the
    client's map they keep, the merge keeps too, and where it fails, only after
    a system call did, the store is as sound as before. *)

From S2P Require Import Prelude Bytes Decimal Record Datafile Hint Manifest Index Store StoreInv.
From S2P Require Import WritePath Ops Reads Scans Background Recovery Compact Merging.

Local Open Scope Z_scope.
Local Open Scope gokv_scope.

Section compaction.
Context {I : Type} `{KeyIndexSpec I}.
Context (calm : Prop) (P : gmap bytes bytes -> Prop) (B : Z) (env : point -> store I -> store I).
Context (HB : 0 <= B) (Hbenign : benign_env B P env).
Implicit Types (s : store I) (L : logs) (M : newest) (mgd : gset Z).

Notation fs_of s := (w_fs (st_w s)).
Notation view s := (idx_view (st_idx s)).
Notation copying := (copying calm P).
Notation aborted := (aborted calm P).
Notation hold := (hold calm P).

(** ** Phase one: copying *)

Section copy.
Context (mgd : gset Z) (items retired : list (bytes * entry)).
Context (Hlive : forall it, it ∈ items -> e_tomb it.2 = false).

(** The record of an item and the bytes that are read for it. *)
Lemma item_bytes s L M c it : copying mgd items retired s L M c -> it ∈ items ->
  exists r d f, locates L it.1 it.2 r /\ valid_record r /\ tombstone r = false /\
    file_of (e_fileID it.2) s = Some d /\ df_open d = true /\ df_id d = e_fileID it.2 /\
    fs_of s !! dataPath (e_fileID it.2) = Some f /\
    0 <= e_pos it.2 /\ 0 < e_size it.2 /\ e_pos it.2 + e_size it.2 <= zlen (f_data f) /\
    slice (Z.to_nat (e_pos it.2)) (Z.to_nat (e_pos it.2 + e_size it.2)) (f_data f) = encode r.
Proof.
  clear HB Hbenign. intros Hcy Hin. pose proof (cy_hold _ _ _ _ _ _ _ _ _ Hcy) as Hh.
  pose proof (md_inv _ _ _ (hd_mid _ _ _ _ _ _ _ Hh)) as Hinv.
  destruct (cy_items _ _ _ _ _ _ _ _ _ Hcy it.1 it.2) as (Hm & r & Hloc).
  { rewrite <- surjective_pairing. apply elem_of_app. by left. }
  destruct (located_bytes _ _ _ _ _ _ (si_files _ _ _ Hinv) Hloc)
    as (d & f & Hd & Hdi & Ho & Hf & Hv & ? & ? & ? & ?).
  exists r, d, f. split; [done|]. split; [done|].
  split; [destruct Hloc as (_ & _ & Ht & _); by rewrite <- Ht, Hlive|].
  split; [|done]. unfold file_of. rewrite bool_decide_true; [done|].
  apply (hd_sub _ _ _ _ _ _ _ Hh). set_solver.
Qed.

Lemma copy_item_wp i s L M c it : copying mgd items retired s L M c ->
  items !! length (mg_moved c) = Some it -> st_nextID s + B + 1 < 2 ^ 32 ->
  wp (copy_item env i it.2 c)
    (fun c' s' => exists L' M', copying mgd items retired s' L' M' c' /\
       length (mg_moved c') = S (length (mg_moved c)) /\ st_nextID s' <= st_nextID s + B + 1)
    (fun _ s' => aborted s') s.
Proof.
  intros Hcy Hi Hroom. assert (Hin : it ∈ items) by (by eapply list_elem_of_lookup_2).
  destruct (item_bytes s L M c it Hcy Hin) as (r & d & f & Hloc & Hv & Ht & Hfile & Ho & Hdi & Hf & H1 & H2 & H3 & Hb).
  pose proof (cy_hold _ _ _ _ _ _ _ _ _ Hcy) as Hh.
  unfold copy_item. apply wp_bind, wp_get. rewrite Hfile.
  apply wp_bind, (wp_or_cleanup calm P mgd), wp_io. unfold df_readAt. rewrite Ho, Hdi. cbn [df_guard].
  assert (Hadv : forall w', advance (st_w s) w' -> copying mgd items retired (set_w w' s) L M c).
  { intros w' (Hfs & _ & Hflt). destruct Hcy as [_ Hix Hcov Hit Hmv Hout Hnd Hdj]. split; try done.
    - apply (hold_world calm P mgd _ s); try done.
      + apply mid_other_files; [apply Hh|]. intros id. by rewrite Hfs.
      + intros Hc. apply Hflt, Hh, Hc.
    - apply (Forall2_impl _ _ _ _ Hout). intros id h. unfold out_ok. simpl. by rewrite Hfs. }
  eapply wp_fs_read_at; [|exact Hf|done..|].
  { intros Hflt w' Hw. eapply (copying_abortable _ _ _ items retired); [|by apply Hadv].
    intros Hc. by apply Hflt, Hh. }
  intros w' Hw. rewrite Hb, decode_encode by done.
  destruct (copying_pause calm P mgd items retired B env (BeforeWrite i) _ L M c Hbenign (Hadv w' Hw))
    as (L1 & M1 & Hcy1 & Hq1).
  apply wp_bind, wp_modify, wp_bind, wp_get. rewrite clearBatchFlags_encode.
  set (s1 := env _ _) in *.
  assert (Hn1 : st_nextID s1 <= st_nextID s + B) by (apply (qu_next _ _ _ _ _ _ _ Hq1)).
  assert (Hloc1 : locates L1 it.1 it.2 r).
  { eapply locates_same; [|done]. apply (qu_logs _ _ _ _ _ _ _ Hq1), elem_of_union_l.
    apply (cy_items _ _ _ _ _ _ _ _ _ Hcy it.1 it.2). rewrite <- surjective_pairing. apply elem_of_app. by left. }
  apply wp_bind. set (full := match last _ with Some _ => _ | None => _ end).
  apply (wp_mono _ (fun c2 s2 => exists L2 id, copying mgd items retired s2 L2 M1 c2 /\
    mg_moved c2 = mg_moved c /\ last (mg_outs c2) = Some id /\ locates L2 it.1 it.2 r /\
    st_nextID s2 <= st_nextID s1 + 1) _ (fun _ s2 => aborted s2)); [| |done].
  - destruct full eqn:Efull.
    + apply (wp_or_cleanup calm P mgd). eapply wp_mono; [apply (newOut_wp calm P mgd items retired s1 L1 M1 c Hcy1)| |done]; [lia|].
      intros c2 s2 (Hcy2 & -> & Hn2). eexists _, _. split; [exact Hcy2|]. split; [done|].
      split; [apply last_snoc|]. split; [|lia]. eapply locates_grows; [|done]. apply grows_new.
      pose proof (cy_hold _ _ _ _ _ _ _ _ _ Hcy1) as Hh1. pose proof (md_inv _ _ _ (hd_mid _ _ _ _ _ _ _ Hh1)) as Hinv1.
      destruct (L1 !! st_nextID s1) eqn:E; [|done].
      destruct (si_files _ _ _ Hinv1 _ _ E) as (Hu & _ & ? & ? & _ & _ & _ & Hf1 & _).
      destruct (si_fresh _ _ _ Hinv1) as [_ Hlt]. specialize (Hlt _ Hu ltac:(eauto)). lia.
    + apply wp_ret. unfold full in Efull. destruct (last (mg_outs c)) as [id|] eqn:El; [|done].
      exists L1, id. do 4 (split; [done|]). lia.
  - intros c2 s2 (L2 & id & Hcy2 & Emv & Elast & Hloc2 & Hn2).
    eapply wp_mono; [apply (emit_wp calm P mgd items retired s2 L2 M1 c2 it r id Hcy2 Elast)| |done];
      [by rewrite Emv|done|done|].
    intros c3 s3 (L3 & Hcy3 & Hlen3 & Hn3). exists L3, M1. split; [done|]. rewrite Emv in Hlen3. split; [done|lia].
Qed.

Lemma copy_items_wp its : forall i s L M c, copying mgd items retired s L M c ->
  its = drop (length (mg_moved c)) items ->
  st_nextID s + (2 * B + 1) * zlen its + 1 < 2 ^ 32 ->
  wp (copy_items env i its c)
    (fun c' s' => exists L' M', copying mgd items retired s' L' M' c' /\
       length (mg_moved c') = length items /\ st_nextID s' <= st_nextID s + (2 * B + 1) * zlen its)
    (fun _ s' => aborted s') s.
Proof.
  induction its as [|it its IH]; intros i s L M c Hcy Hits Hroom; cbn [copy_items].
  { apply wp_ret. exists L, M. split; [done|]. split; [|rewrite zlen_nil; lia].
    assert (Hle : (length (mg_moved c) <= length items)%nat).
    { pose proof (Forall2_length _ _ _ (cy_moved _ _ _ _ _ _ _ _ _ Hcy)) as Hl.
      rewrite length_take in Hl. lia. }
    apply (f_equal length) in Hits. rewrite length_drop in Hits. simpl in Hits. lia. }
  rewrite zlen_cons in *. pose proof (zlen_nonneg its).
  destruct (copying_pause calm P mgd items retired B env (BeforeCopy i) s L M c Hbenign Hcy)
    as (L1 & M1 & Hcy1 & Hq1).
  apply wp_bind, wp_modify, wp_bind. set (s1 := env _ _) in *.
  assert (Hn1 : st_nextID s1 <= st_nextID s + B) by (apply (qu_next _ _ _ _ _ _ _ Hq1)).
  assert (Hi : items !! length (mg_moved c) = Some it).
  { pose proof (lookup_drop items (length (mg_moved c)) 0) as Hd. rewrite <- Hits, Nat.add_0_r in Hd. done. }
  eapply wp_mono; [apply (copy_item_wp i s1 L1 M1 c it Hcy1 Hi); nia| |done].
  intros c2 s2 (L2 & M2 & Hcy2 & Hlen2 & Hn2).
  eapply wp_mono; [apply (IH (S i) s2 L2 M2 c2 Hcy2)| |done].
  - rewrite Hlen2, <- Nat.add_1_r, <- drop_drop, <- Hits. done.
  - nia.
  - intros c3 s3 (L3 & M3 & Hcy3 & Hlen3 & Hn3). exists L3, M3. split; [done|]. split; [done|nia].
Qed.

(** *** Making the copies durable *)

Record copied s L M (ids : list Z) (moved : list entry) : Prop := {
  cp_hold : hold mgd (list_to_set ids) s L M;
  cp_index : forall id, id ∈ ids -> unreferenced s id;
  cp_covered : forall k e, view s !! k = Some e -> e_fileID e ∈ mgd -> (k, e) ∈ items ++ retired;
  cp_items : forall k e, (k, e) ∈ items ++ retired -> e_fileID e ∈ mgd /\ exists r, locates L k e r;
  cp_moved : Forall2 (moved_to L ids) items moved;
  cp_disj : forall id, id ∈ ids -> id ∉ mgd
}.

(** Hint writers whose temporary file is still there. *)
Definition pending s : list Z -> list hintWriter -> Prop :=
  Forall2 (fun id h => hw_tmp h = hintTmp id /\ hw_dest h = hintPath id /\
    fs_of s !! hintTmp id = Some (mkFile [] 0)).

Lemma copying_copied s L M c : copying mgd items retired s L M c ->
  length (mg_moved c) = length items ->
  copied s L M (mg_outs c) (mg_moved c) /\ pending s (mg_outs c) (mg_hws c).
Proof.
  intros [Hh Hix Hcov Hit Hmv Ho Hnd Hdj] Hlen. split.
  - split; try done. by rewrite Hlen, firstn_all in Hmv.
  - apply (Forall2_impl _ _ _ _ Ho). intros id h (? & ? & _ & ? & _). done.
Qed.

Lemma copied_world s L M ids moved w' : copied s L M ids moved -> store_inv (set_w w' s) L M ->
  (calm -> w_faults w' = []) -> copied (set_w w' s) L M ids moved.
Proof.
  intros [Hh Hix Hcov Hit Hmv Hdj] Hinv Hcalm. split; try done.
  apply (hold_world calm P mgd _ s); try done. destruct (hd_mid _ _ _ _ _ _ _ Hh). by split.
Qed.

Lemma copied_abortable s L M c moved : ~ calm -> copied s L M (mg_outs c) moved ->
  Forall tmp_writer (mg_hws c) -> abortable calm P mgd c s.
Proof. intros Hc [Hh Hix _ _ _ _] Hw. split; [done|]. exists L, M. done. Qed.

Lemma sync_outs_wp c moved ids : (forall id, id ∈ ids -> id ∈ mg_outs c) ->
  Forall tmp_writer (mg_hws c) -> forall s L M, copied s L M (mg_outs c) moved ->
  wp (sync_outs c ids)
    (fun _ s' => copied s' L M (mg_outs c) moved /\ st_nextID s' = st_nextID s /\
       forall id, fs_of s' !! hintTmp id = fs_of s !! hintTmp id)
    (fun _ s' => aborted s') s.
Proof.
  intros Hids Hws. induction ids as [|id ids IH]; intros s L M Hcd; cbn [sync_outs].
  { by apply wp_ret. }
  pose proof (cp_hold _ _ _ _ _ Hcd) as Hh. pose proof (md_inv _ _ _ (hd_mid _ _ _ _ _ _ _ Hh)) as Hinv.
  assert (Hin : id ∈ mg_outs c) by (apply Hids; by left).
  destruct (hold_u32 _ _ _ _ _ _ _ id Hh ltac:(set_solver)) as [Hu [rs HL]].
  destruct (si_files _ _ _ Hinv _ _ HL) as (_ & _ & d & f & Hd & Hdi & Ho & Hf & Hpre).
  apply wp_bind. unfold out_df. apply wp_bind, wp_get. rewrite Hd. apply wp_ret.
  apply wp_bind, (wp_or_cleanup calm P mgd), wp_io. unfold df_sync. rewrite Ho, Hdi. cbn [df_guard].
  eapply wp_fs_sync; [|exact Hf|].
  { intros Hflt w' Hw. eapply (copied_abortable _ L M c moved); [|apply copied_world|done].
    - intros Hc. by apply Hflt, Hh.
    - done.
    - by apply inv_advance.
    - intros Hc. apply Hw, Hh, Hc. }
  intros w' Hw.
  assert (Hle : log_size rs <= zlen (f_data f)).
  { destruct Hpre as [tl ->]. rewrite zlen_app. unfold log_size. pose proof (zlen_nonneg tl). lia. }
  assert (Hcd' : copied (set_w w' s) L M (mg_outs c) moved).
  { apply copied_world; [done| |intros Hc; apply Hw, Hh, Hc].
    eapply (inv_update_file s L M id rs f); try done. simpl. lia. }
  eapply wp_mono; [apply (IH ltac:(intros; apply Hids; by right) (set_w w' s) L M Hcd')| |done].
  intros [] s' (? & ? & Htmp). split; [done|]. split; [done|]. intros id'. rewrite Htmp. simpl.
  rewrite (proj1 Hw). apply lookup_insert_ne, not_eq_sym, hintTmp_dataPath.
Qed.

Lemma commit_hints_wp c moved ids hws : NoDup ids -> (forall id, id ∈ ids -> is_u32 id) ->
  Forall tmp_writer (mg_hws c) ->
  forall s L M, pending s ids hws -> copied s L M (mg_outs c) moved ->
  wp (commit_hints c hws)
    (fun _ s' => copied s' L M (mg_outs c) moved /\ st_nextID s' = st_nextID s)
    (fun _ s' => aborted s') s.
Proof.
  intros Hnd Hu32 Hws. revert hws. induction ids as [|id ids IH]; intros hws s L M Hp Hcd.
  { apply Forall2_nil_inv_l in Hp as ->. by apply wp_ret. }
  apply Forall2_cons_inv_l in Hp as (h & hws' & (Htmp & Hdest & Htf) & Hp & ->). cbn [commit_hints].
  apply NoDup_cons in Hnd as [Hni Hnd].
  pose proof (cp_hold _ _ _ _ _ Hcd) as Hh. pose proof (md_inv _ _ _ (hd_mid _ _ _ _ _ _ _ Hh)) as Hinv.
  apply wp_bind, (wp_or_cleanup calm P mgd), wp_io.
  eapply wp_mono; [apply (hw_commit_wp h (st_w s) (st_w s) (mkFile [] 0)); [apply only_at_self| |done]| |].
  { by rewrite Htmp. }
  - intros [] w' [Hflt Hfs]. rewrite Htmp, Hdest in Hfs.
    assert (Hcd' : copied (set_w w' s) L M (mg_outs c) moved).
    { apply copied_world; [done| |intros Hc; apply Hflt, Hh, Hc].
      apply inv_other_files; [done|]. intros id'. rewrite Hfs, lookup_insert_ne, lookup_delete_ne; [done|..].
      - apply hintTmp_dataPath.
      - apply not_eq_sym, dataPath_hintPath. }
    eapply wp_mono; [apply (IH Hnd ltac:(intros; apply Hu32; by right) hws' (set_w w' s) L M)| |done].
    + apply (Forall2_impl_elem _ _ _ _ Hp). intros id' h' Hin' _ (? & ? & Hf'). split; [done|]. split; [done|].
      simpl. rewrite Hfs, lookup_insert_ne, lookup_delete_ne; [done|..].
      * intros E. apply hintTmp_inj in E as ->; [done|apply Hu32; by left|apply Hu32; by right].
      * apply not_eq_sym, hintTmp_other.
    + done.
    + intros [] s' [? ?]. done.
  - intros e w' [Hflt Hat]. eapply (copied_abortable _ L M c moved); [|apply copied_world|done].
    + intros Hc. by apply Hflt, Hh.
    + done.
    + apply inv_other_files; [done|]. intros id'. apply (proj1 Hat). rewrite Htmp.
      apply not_eq_sym, hintTmp_dataPath.
    + intros Hc. by apply Hat, Hh.
Qed.
End copy.

(** ** Phase two: repointing and retiring *)

(** The same place holds one record. *)
Lemma locates_unique s L M k k' e r r' : store_inv s L M -> locates L k e r -> locates L k' e r' -> r = r'.
Proof.
  intros Hinv Hr Hr'.
  destruct (located_bytes _ _ _ _ _ _ (si_files _ _ _ Hinv) Hr) as (d & f & _ & _ & _ & Hf & Hv & _ & _ & _ & E).
  destruct (located_bytes _ _ _ _ _ _ (si_files _ _ _ Hinv) Hr') as (d' & f' & _ & _ & _ & Hf' & Hv' & _ & _ & _ & E').
  rewrite Hf in Hf'. injection Hf' as <-. rewrite E in E'.
  pose proof (decode_encode r Hv) as D. rewrite E', decode_encode in D by done. by injection D as ->.
Qed.

Lemma live_value_strip r : live_value (strip_batch r) = live_value r.
Proof. unfold live_value, tombstone. simpl. by rewrite clear_flags_tombstone. Qed.

Lemma kv_same_live M k r r' : M !! k = Some r -> live_value r' = live_value r ->
  kv (<[k := r']> M) = kv M.
Proof.
  intros Hk Hv. apply map_eq. intros k'. rewrite !kv_lookup.
  destruct (decide (k' = k)) as [->|Hne]; [|by rewrite lookup_insert_ne].
  rewrite lookup_insert_eq, Hk. simpl. done.
Qed.

Lemma kv_delete_dead M k r : M !! k = Some r -> tombstone r = true -> kv (delete k M) = kv M.
Proof.
  intros Hk Ht. apply map_eq. intros k'. rewrite !kv_lookup.
  destruct (decide (k' = k)) as [->|Hne]; [|by rewrite lookup_delete_ne].
  rewrite lookup_delete_eq, Hk. simpl. unfold live_value. by rewrite Ht.
Qed.

(** One entry of the index is moved to a copy of its record. *)
Lemma mid_repoint s L M k e mv r : mid s L M -> view s !! k = Some e ->
  locates L k e r -> locates L k mv (strip_batch r) ->
  exists M', mid (set_idx (idx_set k mv (st_idx s)) s) L M' /\ kv M' = kv M.
Proof.
  intros [Hinv [Hl1 Hl2] [Hu Hb]] Hk He Hmv. pose proof (si_index _ _ _ Hinv) as [Hwf Hv].
  pose proof (Hv k) as Hk'. rewrite Hk in Hk'. destruct (M !! k) as [r0|] eqn:Em; [|done].
  pose proof (locates_unique _ _ _ _ _ _ _ _ Hinv Hk' He) as ->.
  destruct (index_store_ok (st_idx s) L M k mv (strip_batch r) (conj Hwf Hv) Hmv) as [Hix' Hview].
  rewrite (idx_get_ok _ k Hwf), Hk in Hix', Hview.
  exists (<[k := strip_batch r]> M). split; [|apply (kv_same_live M k r _ Em), live_value_strip].
  assert (Hsz : e_size mv = e_size e /\ e_tomb mv = e_tomb e).
  { destruct Hmv as (_ & _ & -> & -> & _), He as (_ & _ & -> & -> & _).
    rewrite !zlen_encode. unfold tombstone. simpl. by rewrite clear_flags_tombstone. }
  destruct Hsz as [Hsz Htm]. split.
  - destruct Hinv. by split.
  - unfold live_inv. simpl. rewrite Hview, !(map_sum_update _ _ _ e) by done.
    unfold live_size, live_one. rewrite Hsz, Htm.
    split; [rewrite Hl1|rewrite Hl2]; f_equal; unfold live_size, live_one; lia.
  - split; [done|]. intros k' r' Hr'. destruct (decide (k' = k)) as [->|Hne].
    + rewrite lookup_insert_eq in Hr'. injection Hr' as <-. exact (Hb k r Em).
    + rewrite lookup_insert_ne in Hr' by done. by apply (Hb k').
Qed.

(** The entry of a deleted key is dropped. *)
Lemma mid_retire s L M k e : mid s L M -> view s !! k = Some e -> e_tomb e = true ->
  exists M', mid (set_idx (idx_delete k (st_idx s)) s) L M' /\ kv M' = kv M.
Proof.
  intros [Hinv [Hl1 Hl2] [Hu Hb]] Hk Ht. pose proof (si_index _ _ _ Hinv) as [Hwf Hv].
  pose proof (Hv k) as Hk'. rewrite Hk in Hk'. destruct (M !! k) as [r|] eqn:Em; [|done].
  destruct (idx_delete_ok (st_idx s) k Hwf) as [Hwf' Hview].
  exists (delete k M). split.
  2:{ apply (kv_delete_dead M k r Em). destruct Hk' as (_ & _ & E & _). by rewrite <- E. }
  split.
  - destruct Hinv as [_ ? ? ? ?]. split; try done. split; [done|]. intros k'. simpl. rewrite Hview.
    destruct (decide (k' = k)) as [->|Hne]; [by rewrite !lookup_delete_eq|].
    rewrite !lookup_delete_ne by done. apply Hv.
  - unfold live_inv. simpl. rewrite Hview, Hl1, Hl2, (map_sum_delete live_size _ k e Hk), (map_sum_delete live_one _ k e Hk).
    unfold live_size, live_one. rewrite Ht. by rewrite !Z.add_0_l.
  - split; [done|]. intros k' r' [_ Hr']%lookup_delete_Some. by apply (Hb k').
Qed.

Section move.
Context (mgd : gset Z) (ids : list Z) (Hdisj : forall id, id ∈ ids -> id ∉ mgd).

(** What is left to do: items to repoint and entries to retire. *)
Record moving s L M (todo : list ((bytes * entry) * entry)) (ret : list (bytes * entry)) : Prop := {
  mv_hold : hold mgd (list_to_set ids) s L M;
  mv_covered : forall k e, view s !! k = Some e -> e_fileID e ∈ mgd -> (k, e) ∈ todo.*1 ++ ret;
  mv_todo : Forall (fun p => e_fileID p.1.2 ∈ mgd /\ moved_to L ids p.1 p.2) todo;
  mv_ret : Forall (fun it => e_fileID it.2 ∈ mgd /\ e_tomb it.2 = true) ret;
  mv_keys : NoDup (todo.*1 ++ ret).*1
}.

Definition move_state todo ret s : Prop := exists L M, moving s L M todo ret.

Lemma moving_pause p s todo ret : move_state todo ret s ->
  move_state todo ret (env p s) /\ st_nextID s <= st_nextID (env p s) <= st_nextID s + B.
Proof.
  clear Hdisj. intros (L & M & [Hh Hcov Htd Hrt Hkeys]).
  destruct (hold_pause calm P B env p _ _ s L M Hbenign Hh) as (L' & M' & Hh' & Hq & _).
  split; [|apply (qu_next _ _ _ _ _ _ _ Hq)]. exists L', M'. split; try done.
  - intros k e Hk Hin. apply Hcov; [|done]. apply (qu_index _ _ _ _ _ _ _ Hq k e Hk). set_solver.
  - apply (Forall_impl _ _ _ Htd). intros [it mv] [Hm (r & H1 & H2 & H3)]. split; [done|].
    exists r. split; [|split; [|done]]; (eapply locates_same; [apply (qu_logs _ _ _ _ _ _ _ Hq)|done]).
    + simpl in Hm. set_solver.
    + simpl in *. set_solver.
Qed.

(** Keys are unique, so an entry still in the merge set is the one recorded. *)
Lemma covered_unique s L M todo ret k e e0 : moving s L M todo ret -> (k, e0) ∈ todo.*1 ++ ret ->
  view s !! k = Some e -> e_fileID e ∈ mgd -> e = e0.
Proof.
  intros Hmv H0' Hk Hm. pose proof (mv_covered _ _ _ _ _ Hmv k e Hk Hm) as H1'.
  pose proof (mv_keys _ _ _ _ _ Hmv) as Hnd.
  apply list_elem_of_lookup in H0' as [i Hi]. apply list_elem_of_lookup in H1' as [j Hj].
  assert (i = j) as ->.
  { eapply (NoDup_lookup _ _ _ k Hnd); rewrite list_lookup_fmap; [by rewrite Hi|by rewrite Hj]. }
  rewrite Hi in Hj. by injection Hj as ->.
Qed.

Lemma hold_index s L M M' ix : hold mgd (list_to_set ids) s L M ->
  mid (set_idx ix s) L M' -> kv M' = kv M -> hold mgd (list_to_set ids) (set_idx ix s) L M'.
Proof. intros [_ HP ? ? ? ?] Hmid Hkv. split; try done. by rewrite Hkv. Qed.

(** An item that is no longer in the merge set needs no work. *)
Lemma moving_skip s L M p todo ret : moving s L M (p :: todo) ret ->
  (forall e, view s !! p.1.1 = Some e -> e_fileID e ∉ mgd) -> moving s L M todo ret.
Proof.
  intros [Hh Hcov Htd Hrt Hkeys] Hn. apply Forall_cons in Htd as [_ Htd].
  simpl in Hkeys. apply NoDup_cons in Hkeys as [_ Hkeys]. split; try done.
  intros k e Hk Hm. specialize (Hcov k e Hk Hm). simpl in Hcov.
  apply elem_of_cons in Hcov as [E|Hcov]; [|done]. exfalso. apply (Hn e); [|done]. by rewrite <- E.
Qed.

Lemma move_repoint p todo ret s : move_state (p :: todo) ret s -> move_state todo ret (repoint s p).
Proof.
  intros (L & M & Hmv). pose proof (mv_hold _ _ _ _ _ Hmv) as Hh.
  pose proof (md_inv _ _ _ (hd_mid _ _ _ _ _ _ _ Hh)) as Hinv.
  pose proof (si_index _ _ _ Hinv) as [Hwf _].
  pose proof (mv_todo _ _ _ _ _ Hmv) as Htd. apply Forall_cons in Htd as [(Hm & r & H1' & H2 & H3) Htd].
  destruct p as [[k e0] mv]. cbn [fst snd] in *.
  assert (Hin0 : (k, e0) ∈ ((k, e0, mv) :: todo).*1 ++ ret) by (left).
  unfold repoint. cbn [fst snd].
  assert (Hsz : e_size mv <> 0).
  { destruct H2 as (_ & _ & _ & -> & _). pose proof (zlen_encode_pos (strip_batch r)). lia. }
  destruct (Z.eqb_spec (e_size mv) 0); [done|]. rewrite (idx_get_ok _ _ Hwf).
  destruct (view s !! k) as [ent|] eqn:Ek.
  2:{ exists L, M. eapply moving_skip; [exact Hmv|]. simpl. intros e Hk. congruence. }
  destruct (decide (e_fileID ent ∈ mgd)) as [Hin|Hnin].
  2:{ destruct (_ && _) eqn:Ec.
      - apply andb_prop in Ec as [_ E%Z.eqb_eq]. by rewrite E in Hnin.
      - exists L, M. eapply moving_skip; [exact Hmv|]. simpl. intros e Hk. congruence. }
  pose proof (covered_unique _ _ _ _ _ _ _ _ Hmv Hin0 Ek Hin) as ->.
  rewrite !Z.eqb_refl. cbn [andb].
  destruct (mid_repoint s L M k e0 mv r (hd_mid _ _ _ _ _ _ _ Hh) Ek H1' H2) as (M' & Hmid' & Hkv).
  assert (Hmvm : e_fileID mv ∉ mgd) by (by apply Hdisj).
  destruct (idx_set_ok (st_idx s) k mv Hwf) as [_ Hview]; [eauto|].
  exists L, M'. destruct Hmv as [_ Hcov _ Hrt Hkeys]. simpl in Hkeys. apply NoDup_cons in Hkeys as [Hnk Hkeys].
  split; try done; [by apply (hold_index s L M)|].
  intros k' e' Hk' Hm'. simpl in Hk'. rewrite Hview in Hk'.
  destruct (decide (k' = k)) as [->|Hne]; [rewrite lookup_insert_eq in Hk'; congruence|].
  rewrite lookup_insert_ne in Hk' by done. specialize (Hcov k' e' Hk' Hm'). simpl in Hcov.
  apply elem_of_cons in Hcov as [E|Hcov]; [congruence|done].
Qed.

Lemma move_retire it ret s : move_state [] (it :: ret) s -> move_state [] ret (retire s it).
Proof.
  intros (L & M & Hmv). pose proof (mv_hold _ _ _ _ _ Hmv) as Hh.
  pose proof (md_inv _ _ _ (hd_mid _ _ _ _ _ _ _ Hh)) as Hinv.
  pose proof (si_index _ _ _ Hinv) as [Hwf _].
  pose proof (mv_ret _ _ _ _ _ Hmv) as Hrt. apply Forall_cons in Hrt as [[Hm Ht] Hrt].
  destruct it as [k e0]. cbn [fst snd] in *.
  pose proof (mv_keys _ _ _ _ _ Hmv) as Hkeys. simpl in Hkeys. apply NoDup_cons in Hkeys as [Hnk Hkeys].
  pose proof (mv_covered _ _ _ _ _ Hmv) as Hcov. simpl in Hcov.
  assert (Hskip : (forall e, view s !! k = Some e -> e_fileID e ∉ mgd) -> move_state [] ret s).
  { intros Hn. exists L, M. split; try done. intros k' e' Hk' Hm'. specialize (Hcov k' e' Hk' Hm').
    apply elem_of_cons in Hcov as [E|Hcov]; [|done]. injection E as -> ->. by apply Hn in Hk'. }
  unfold retire. cbn [fst snd]. rewrite (idx_get_ok _ _ Hwf).
  destruct (view s !! k) as [ent|] eqn:Ek; [|by apply Hskip].
  destruct (decide (e_fileID ent ∈ mgd)) as [Hin|Hnin].
  2:{ destruct (_ && _) eqn:Ec.
      - apply andb_prop in Ec as [_ E%Z.eqb_eq]. by rewrite E in Hnin.
      - apply Hskip. intros e Hk. congruence. }
  assert (Hin0 : (k, e0) ∈ ([] : list ((bytes * entry) * entry)).*1 ++ (k, e0) :: ret) by left.
  pose proof (covered_unique _ _ _ _ _ _ _ _ Hmv Hin0 Ek Hin) as ->.
  rewrite !Z.eqb_refl. cbn [andb].
  destruct (mid_retire s L M k e0 (hd_mid _ _ _ _ _ _ _ Hh) Ek Ht) as (M' & Hmid' & Hkv).
  destruct (idx_delete_ok (st_idx s) k Hwf) as [_ Hview].
  exists L, M'. split; try done; [by apply (hold_index s L M)|].
  intros k' e' Hk' Hm'. simpl in Hk'. rewrite Hview in Hk'. apply lookup_delete_Some in Hk' as [Hne Hk'].
  specialize (Hcov k' e' Hk' Hm'). apply elem_of_cons in Hcov as [E|Hcov]; [congruence|done].
Qed.
End move.

(** A loop in locked chunks. *)
Section chunks.
Context {A : Type} (Inv : list A -> store I -> Prop) (p : nat -> point) (f : store I -> A -> store I).
Context (Hstep : forall x l s, Inv (x :: l) s -> Inv l (f s x)).
Context (Hpause : forall q l s, Inv l s -> Inv l (env q s)).

Lemma chunk_fold l l' s : Inv (l ++ l') s -> Inv l' (foldl f s l).
Proof. revert s. induction l as [|x l IH]; intros s Hs; [done|]. simpl. by apply IH, Hstep. Qed.

Lemma chunked_wp fuel : forall l s, (length l <= fuel)%nat -> Inv l s ->
  wp (chunked env p f fuel l) (fun _ s' => Inv [] s') (fun _ _ => False) s.
Proof.
  induction fuel as [|fuel IH]; intros l s Hl Hs.
  { destruct l; [by apply wp_ret|simpl in Hl; lia]. }
  destruct l as [|x l]; [by apply wp_ret|]. cbn [chunked].
  apply wp_bind, wp_modify, wp_bind, wp_modify, IH.
  - rewrite length_drop. unfold repointChunk in *. simpl in Hl. cbn [length]. lia.
  - apply chunk_fold. rewrite take_drop. by apply Hpause.
Qed.
End chunks.

(** ** The end of the merge *)

(** Actions of the file system that fail only where a fault was planned. *)
Definition calm_io {A} (m : wio A) : Prop := forall w, w_faults w = [] -> w_faults (m w).2 = [].

Lemma calm_bind {A A'} (m : wio A) (k : A -> wio A') : calm_io m -> (forall a, calm_io (k a)) -> calm_io (sm_bind m k).
Proof.
  intros Hm Hk w Hw. unfold sm_bind. specialize (Hm w Hw). destruct (m w) as [[a|e] w']; [by apply Hk|done].
Qed.
Lemma calm_catch {A} (m : wio A) k : calm_io m -> (forall e, calm_io (k e)) -> calm_io (sm_catch m k).
Proof.
  intros Hm Hk w Hw. unfold sm_catch. specialize (Hm w Hw). destruct (m w) as [[a|e] w']; [done|by apply Hk].
Qed.
Lemma calm_ignore {A} (m : wio A) : calm_io m -> calm_io (sm_ignore m).
Proof. intros Hm w. apply Hm. Qed.
Lemma calm_next : calm_io next_fault.
Proof. intros w Hw. unfold next_fault. by rewrite Hw. Qed.
Lemma calm_syscall {A} (m : wio A) : calm_io m -> calm_io (syscall m).
Proof. intros Hm. apply calm_bind; [apply calm_next|]. intros [k|]; [by intros w Hw|exact Hm]. Qed.
Lemma calm_lookup name : calm_io (lookup_file name).
Proof. intros w Hw. unfold lookup_file. by destruct (w_fs w !! name). Qed.

Lemma calm_same {A} (m : wio A) : (forall w, w_faults (m w).2 = w_faults w) -> calm_io m.
Proof. intros Hm w. by rewrite Hm. Qed.
Lemma calm_remove name : calm_io (fs_remove name).
Proof. apply calm_syscall, calm_bind; [apply calm_lookup|]. intros f. by apply calm_same. Qed.

Lemma writeManifest_calm n : calm_io (writeManifest n).
Proof.
  assert (Hundo : forall (name : bytes) (e : error), calm_io (sm_ignore (fs_remove name);;; sm_throw (A := unit) e)).
  { intros name e. apply calm_bind; [apply calm_ignore, calm_remove|]. intros _. by apply calm_same. }
  unfold writeManifest. apply calm_bind; [by apply calm_syscall, calm_same|intros _].
  apply calm_bind; [apply calm_catch; [|by intros e]|intros _].
  { apply calm_bind; [apply calm_lookup|]. intros f. apply calm_bind; [apply calm_next|].
    intros [k|]; by apply calm_same. }
  apply calm_bind; [apply calm_catch; [|by intros e]|intros _].
  { apply calm_syscall, calm_bind; [apply calm_lookup|]. intros f. by apply calm_same. }
  apply calm_bind; [apply calm_syscall, calm_bind; [apply calm_lookup|intros f; by apply calm_same]|intros _].
  by apply calm_syscall, calm_same.
Qed.

Lemma writeManifest_data n w : forall id,
  w_fs (writeManifest n w).2 !! dataPath id = w_fs w !! dataPath id.
Proof.
  intros id. pose proof (writeManifest_wp n w) as Hw. unfold wp in Hw.
  assert (Hm : manifestPath <> dataPath id /\ tmpPath <> dataPath id).
  { split; intros E%(f_equal last); unfold dataPath in E; rewrite last_app in E; vm_compute in E; discriminate. }
  destruct Hm as [Hm Ht].
  assert (Hnew : forall fs', fs' = <[manifestPath := manifest_file n]> (delete tmpPath (w_fs w)) ->
    fs' !! dataPath id = w_fs w !! dataPath id).
  { intros fs' ->. by rewrite lookup_insert_ne, lookup_delete_ne. }
  destruct (writeManifest n w) as [[[]|e] w']; simpl in *; [by apply Hnew|].
  destruct Hw as [_ [[Ho _]|Hw]]; [apply Ho; by apply not_eq_sym|by apply Hnew].
Qed.

(** The merged files are forgotten one by one. *)
Lemma drop_merged_wp ids : forall s L M, mid s L M ->
  (forall id, id ∈ ids -> is_u32 id /\ st_active s <> Some id /\ unreferenced s id) ->
  wp (drop_merged ids)
    (fun _ s' => (exists L', mid s' L' M) /\ (w_faults (st_w s) = [] -> w_faults (st_w s') = []) /\
       st_files s' = st_files s ∖ list_to_set ids)
    (fun _ _ => False) s.
Proof.
  induction ids as [|id ids IH]; intros s L M Hmid Hids; cbn [drop_merged].
  { apply wp_ret. split; [by exists L|]. split; [done|]. set_solver. }
  destruct (Hids id ltac:(by left)) as (Hu & Hna & Hun).
  apply wp_bind, wp_get, wp_bind.
  apply (wp_mono _ (fun _ s1 => (exists L1, mid s1 L1 M) /\ (w_faults (st_w s) = [] -> w_faults (st_w s1) = []) /\
     st_files s1 = st_files s ∖ {[id]} /\ st_active s1 = st_active s /\ st_idx s1 = st_idx s) _ (fun _ _ => False)); [| |done].
  - apply wp_when.
    + intros _. apply wp_bind, wp_modify. eapply wp_mono; [exact (forget_wp s L M id Hmid Hna Hun Hu)| |done].
      intros [] s1 (Hm1 & Hf1 & w1 & -> & _). split; [by eexists|]. done.
    + intros Hn%bool_decide_eq_false. split; [by exists L|]. split; [done|]. split; [set_solver|done].
  - intros [] s1 ([L1 Hm1] & Hf1 & Hfiles1 & Ha1 & Hi1).
    assert (Hrest : forall w', (forall id', w_fs w' !! dataPath id' = fs_of s1 !! dataPath id') ->
      (w_faults (st_w s1) = [] -> w_faults w' = []) ->
      wp (drop_merged ids) (fun _ s' => (exists L', mid s' L' M) /\
        (w_faults (st_w s) = [] -> w_faults (st_w s') = []) /\
        st_files s' = st_files s ∖ list_to_set (id :: ids)) (fun _ _ => False) (set_w w' s1)).
    { intros w' Hfs Hf. eapply wp_mono; [apply (IH (set_w w' s1) L1 M)| |done].
      - by apply mid_other_files.
      - intros id' Hin. destruct (Hids id' ltac:(by right)) as (? & ? & ?).
        split; [done|]. unfold unreferenced. simpl. by rewrite Ha1, Hi1.
      - intros [] s2 (? & Hf2 & Hfiles2). split; [done|]. split; [auto|].
        rewrite Hfiles2. simpl. rewrite Hfiles1. set_solver. }
    apply wp_bind, wp_ignore, wp_io.
    assert (Hio : wp (sm_ignore (fs_remove (hintPath id)))
      (fun _ w' => (forall id', w_fs w' !! dataPath id' = fs_of s1 !! dataPath id') /\
         (w_faults (st_w s1) = [] -> w_faults w' = [])) (fun _ _ => False) (st_w s1)).
    { apply wp_remove_ignored; intros w' (Hfs & _ & Hf); rewrite Hfs; (split; [|done]); intros id'; [done|].
      apply lookup_delete_ne, not_eq_sym, dataPath_hintPath. }
    unfold wp, sm_ignore in Hio. unfold wp at 1.
    destruct (fs_remove (hintPath id) (st_w s1)) as [[[]|e] w']; destruct Hio as [? ?]; by apply Hrest.
Qed.

(** The recount of the bytes gives the sum over the open files. *)
Definition size_of s (id : Z) : Z := match st_dfs s !! id with Some d => df_size d | None => 0 end.

Lemma total_fold (g : Z -> Z) ids : forall t, foldl (fun t id => i64 (t + g id)) (i64 t) ids = i64 (t + zsum g ids).
Proof.
  induction ids as [|id ids IH]; intros t; simpl; [by rewrite Z.add_0_r|].
  rewrite i64_add, IH. f_equal. lia.
Qed.

Lemma open_sizes s L M : store_inv s L M -> zsum (size_of s) (elements (st_files s)) = map_sum df_size (open_dfs s).
Proof.
  intros Hinv. set (g id := (id, default (mkDatafile 0 0 false false) (st_dfs s !! id))).
  assert (Hd : forall id, id ∈ st_files s -> exists d, st_dfs s !! id = Some d).
  { intros id Hin. rewrite <- (si_dom _ _ _ Hinv) in Hin. apply elem_of_dom in Hin as [rs HL].
    destruct (si_files _ _ _ Hinv _ _ HL) as (_ & _ & d & _ & Hd & _). eauto. }
  rewrite (map_sum_elems df_size (open_dfs s) (g <$> elements (st_files s))).
  - assert (Hall : Forall (fun id => id ∈ st_files s) (elements (st_files s)))
      by (apply Forall_forall; intros id; by rewrite elem_of_elements).
    induction Hall as [|id ids Hid _ IH]; [done|]. simpl. rewrite IH. f_equal. unfold size_of.
    destruct (Hd id Hid) as [d ->]. done.
  - apply NoDup_Permutation.
    + apply NoDup_fmap_2; [|apply NoDup_elements]. intros x y. unfold g. by intros [= -> _].
    + apply NoDup_map_to_list.
    + intros [id d]. rewrite list_elem_of_fmap, elem_of_map_to_list. unfold open_dfs.
      rewrite map_lookup_filter_Some. simpl. split.
      * intros (id' & [= -> ->] & Hin%elem_of_elements). destruct (Hd _ Hin) as [d' ->]. done.
      * intros [Hdd Hin]. exists id. unfold g. rewrite Hdd. by rewrite elem_of_elements.
Qed.

Lemma mid_recount s L M : mid s L M -> mid (recountLocked s) L M.
Proof.
  intros [Hinv Hl Hs]. pose proof (recountLocked_live s (proj1 (si_index _ _ _ Hinv))) as Hl'.
  unfold recountLocked in *. destruct (foldl _ _ _) as [live n]. destruct Hinv. by split.
Qed.

Lemma recomputeUsage_wp s L M : mid s L M -> P (kv M) -> (calm -> w_faults (st_w s) = []) ->
  wp (recomputeUsage env)
    (fun _ s' => (exists L' M', store_ok s' L' M' /\ P (kv M')) /\ (calm -> w_faults (st_w s') = []))
    (fun _ _ => False) s.
Proof.
  intros Hmid HP Hcalm. unfold recomputeUsage. apply wp_bind, wp_modify, wp_bind, wp_modify, wp_modify.
  destruct (Hbenign BeforeUsage ∅ ∅ (recountLocked s) L M (mid_recount s L M Hmid) HP) as (L' & M' & Hmid' & HP' & Hq & _).
  { set_solver. } { set_solver. }
  set (s1 := env BeforeUsage (recountLocked s)) in *. split.
  - exists L', M'. split; [|done]. destruct Hmid' as [Hinv Hl Hs]. split; [destruct Hinv; by split|done..|].
    unfold total_inv. simpl. change (open_dfs (set_total _ s1)) with (open_dfs s1).
    rewrite <- (open_sizes s1 L' M' Hinv). rewrite <- (Z.add_0_l (zsum _ _)), <- total_fold. done.
  - intros Hc. simpl. apply (qu_faults _ _ _ _ _ _ _ Hq). specialize (Hcalm Hc).
    unfold recountLocked. by destruct (foldl _ _ _).
Qed.

(** ** The beginning *)

Lemma openNewActive_next s : is_u32 (st_nextID s) -> st_nextID s + 1 < 2 ^ 32 ->
  st_nextID (openNewActive s).2 <= st_nextID s + 1.
Proof.
  intros Hu Hb. unfold openNewActive, sm_bind, sm_get, io.
  destruct (createDataFile (st_nextID s) (st_w s)) as [[df|e] w1]; simpl; [|lia].
  rewrite u32_small by (unfold is_u32 in *; lia). destruct (syncDir w1) as [[[]|e] w2]; simpl; lia.
Qed.

Lemma seal_wp s L M : store_ok s L M -> st_nextID s + 1 < 2 ^ 32 ->
  wp seal
    (fun ba s' => (exists L', store_ok s' L' M) /\ st_active s' = Some ba.2 /\
       (w_faults (st_w s) = [] -> w_faults (st_w s') = []) /\ st_idx s' = st_idx s /\
       st_nextID s' <= st_nextID s + 1)
    (fun _ s' => w_faults (st_w s) <> [] /\ exists L', store_ok s' L' M) s.
Proof.
  intros Hok Hroom. pose proof (ok_inv _ _ _ Hok) as Hinv.
  destruct (si_active _ _ _ Hinv) as (a & d & rs & Ha & HL & Hd & Hw & Hsz).
  destruct (si_files _ _ _ Hinv _ _ HL) as (_ & _ & d' & f & Hd' & Hdi & Ho & Hf & _).
  rewrite Hd in Hd'. injection Hd' as <-.
  assert (Hend : forall s', (exists L', store_ok s' L' M) -> forall id d', st_active s' = Some id ->
    st_dfs s' !! id = Some d' -> df_id d' = id ->
    (w_faults (st_w s) = [] -> w_faults (st_w s') = []) -> st_idx s' = st_idx s ->
    st_nextID s' <= st_nextID s + 1 ->
    wp (s0 <- sm_get;; af <- get_active;; sm_ret (st_seq s0, df_id af))
      (fun ba s' => (exists L', store_ok s' L' M) /\ st_active s' = Some ba.2 /\
         (w_faults (st_w s) = [] -> w_faults (st_w s') = []) /\ st_idx s' = st_idx s /\
         st_nextID s' <= st_nextID s + 1)
      (fun _ s' => w_faults (st_w s) <> [] /\ exists L', store_ok s' L' M) s').
  { intros s' Hok' id d' Ha' Hd' Hid' Hf' Hi' Hn'. apply wp_bind, wp_get, wp_bind.
    apply (wp_get_active _ _ _ id d' Ha' Hd'), wp_ret. simpl. rewrite Hid'. done. }
  unfold seal. apply wp_bind, (wp_get_active _ _ _ a d Ha Hd), wp_bind, wp_when.
  2:{ intros _. apply (Hend s ltac:(by exists L) a d); try done. lia. }
  intros _. apply wp_bind. eapply wp_mono; [apply (df_sync_wp s L M a rs d Hinv HL Hd)| |].
  2:{ intros e s1 (Hf1 & w1 & -> & Hinv1 & _). split; [done|]. exists L. destruct Hok. by split. }
  intros [] s1 (w1 & -> & Hinv1 & Hstep1 & Hfl1). apply wp_bind.
  assert (Hall : sync_inv (set_w w1 s) L -> all_flushed (set_w w1 s) L).
  { intros Hs id rs' HL'. destruct (decide (id = a)) as [->|Hne].
    - rewrite HL in HL'. injection HL' as <-. exact Hfl1.
    - apply Hs; [done|]. left. simpl. congruence. }
  pose proof (openNewActive_next (set_w w1 s) (proj1 (si_fresh _ _ _ Hinv)) Hroom) as Hnext.
  assert (Hok1 : forall s2 L2, store_inv s2 L2 M -> wstep [] (set_w w1 s) L s2 L2 ->
    visible s2 = visible s -> indexed s2 = indexed s -> store_ok s2 L2 M).
  { intros s2 L2 Hinv2 Hst Hv Hi. destruct Hok as [_ [Hl1 Hl2] Hs Ht].
    unfold visible in Hv. unfold indexed in Hi. injection Hi as E1 E2 E3.
    split; [done|..].
    - unfold live_inv. by rewrite E1, E2, E3.
    - unfold seq_inv in *. injection Hv as _ -> _ _ _ _ _ _ _. done.
    - apply (ws_total _ _ _ _ _ Hst). exact Ht. }
  pose proof (openNewActive_wp (set_w w1 s) L M Hinv1 Hroom Hall) as Hwp.
  unfold wp at 1. unfold wp in Hwp. destruct (openNewActive (set_w w1 s)) as [[[]|e] s2].
  - destruct Hwp as (id & _ & Ha2 & Hd2 & Hinv2 & Hstep2 & _ & Hv2 & Hi2).
    apply wp_modify. apply (Hend _ ltac:(eexists; eapply store_ok_dirty, Hok1; done) id _ Ha2 Hd2); try done.
    + intros Hno. simpl. by apply (ws_faults _ _ _ _ _ Hstep2), (ws_faults _ _ _ _ _ Hstep1).
    + unfold indexed in Hi2. by injection Hi2.
  - destruct Hwp as (Hf2 & L2 & Hinv2 & Hstep2 & Hv2 & Hi2). split.
    + intros Hno. by apply Hf2, (ws_faults _ _ _ _ _ Hstep1).
    + exists L2. by apply Hok1.
Qed.

(** ** The whole merge *)

Lemma items_bound (V : gmap bytes entry) (l : list (bytes * entry)) : NoDup l.*1 ->
  (forall k e, (k, e) ∈ l -> V !! k = Some e) -> (length l <= size V)%nat.
Proof.
  intros Hnd Hin. rewrite <- length_map_to_list. apply submseteq_length, NoDup_submseteq.
  - by eapply NoDup_fmap_1.
  - intros [k e] Hke. apply elem_of_map_to_list. by apply Hin.
Qed.

(** The snapshot of the index: what the merge will work on. *)
Section snapshot.
Context (mgd : gset Z) (mergeIDs : list Z) (Hids : list_to_set mergeIDs = mgd).
Context (s : store I) (L : logs) (M : newest) (Hh : hold mgd ∅ s L M).

Let found := filter (fun it => it.2.(e_fileID) ∈ mergeIDs) (idx_from [] (st_idx s)).
Let items := filter (fun it => it.2.(e_tomb) = false) found.
Let retired := filter (fun it => it.2.(e_tomb) = true) found.

Lemma found_elem k e : (k, e) ∈ found <-> view s !! k = Some e /\ e_fileID e ∈ mgd.
Proof.
  pose proof (si_index _ _ _ (md_inv _ _ _ (hd_mid _ _ _ _ _ _ _ Hh))) as [Hwf _].
  unfold found. rewrite list_elem_of_filter, (idx_from_elem _ _ _ _ Hwf). simpl.
  rewrite <- Hids, elem_of_list_to_set. split; [tauto|]. intros [Hv Hin]. split; [done|]. split; [done|].
  unfold bytes_le, bytes_ltb. by destruct k.
Qed.

Lemma split_elem k e : (k, e) ∈ items ++ retired <-> (k, e) ∈ found.
Proof.
  rewrite elem_of_app. unfold items, retired. rewrite !list_elem_of_filter. simpl.
  destruct (e_tomb e); intuition congruence.
Qed.

Lemma split_keys : NoDup (items ++ retired).*1.
Proof.
  pose proof (si_index _ _ _ (md_inv _ _ _ (hd_mid _ _ _ _ _ _ _ Hh))) as [Hwf _].
  assert (Hf : NoDup found.*1).
  { unfold found. pose proof (sorted_NoDup _ (idx_from_sorted (st_idx s) [] Hwf)) as Hnd.
    clear -Hnd. induction (idx_from [] (st_idx s)) as [|it l IH]; [constructor|].
    simpl in Hnd. apply NoDup_cons in Hnd as [Hn Hnd]. rewrite filter_cons. case_decide; [|by apply IH].
    simpl. apply NoDup_cons. split; [|by apply IH]. intros (x & Hx & [_ Hin]%list_elem_of_filter)%list_elem_of_fmap.
    apply Hn. rewrite Hx. by apply list_elem_of_fmap_2. }
  rewrite (Permutation_app_comm items retired).
  assert (Hp : found.*1 ≡ₚ (retired ++ items).*1); [|by rewrite <- Hp].
  apply fmap_Permutation. unfold retired, items. symmetry.
  rewrite <- (filter_app_complement (fun it : bytes * entry => e_tomb it.2 = true) found) at 3.
  apply Permutation_app_head. apply reflexive_eq, list_filter_iff. intros [k e]. simpl.
  by destruct (e_tomb e).
Qed.

Lemma copying_start : copying mgd items retired s L M (mkMerge [] [] [] 0).
Proof.
  pose proof (hd_mid _ _ _ _ _ _ _ Hh) as Hmid. pose proof (md_inv _ _ _ Hmid) as Hinv.
  split; simpl; try done.
  - by intros ? ?%not_elem_of_nil.
  - intros k e Hk Hm. apply split_elem, found_elem. done.
  - intros k e Hin%split_elem%found_elem. destruct Hin as [Hk Hm]. split; [done|].
    destruct (si_index _ _ _ Hinv) as [_ Hv]. specialize (Hv k). rewrite Hk in Hv.
    destruct (M !! k) as [r|]; [|done]. by exists r.
  - constructor.
  - by intros ? ?%not_elem_of_nil.
Qed.
End snapshot.

Lemma copied_moving mgd items retired s L M ids moved : copied mgd items retired s L M ids moved ->
  NoDup (items ++ retired).*1 -> (forall it, it ∈ retired -> e_tomb it.2 = true) ->
  move_state mgd ids (zip items moved) retired s.
Proof.
  intros [Hh Hix Hcov Hit Hmv Hdj] Hnd Hret. exists L, M.
  assert (Hzip : (zip items moved).*1 = items) by (apply fst_zip; by rewrite (Forall2_length _ _ _ Hmv)).
  split; rewrite ?Hzip; try done.
  - apply Forall_forall. intros [it mv] Hin. simpl.
    apply elem_of_zip_l in Hin as Hit1. split.
    + apply (Hit it.1 it.2). rewrite <- surjective_pairing. apply elem_of_app. by left.
    + apply list_elem_of_lookup in Hin as [i Hi]. apply lookup_zip_with_Some in Hi as (x & y & E & Hx & Hy).
      injection E as -> ->. by eapply (Forall2_lookup_lr _ _ _ i).
  - apply Forall_forall. intros it Hin. split; [|by apply Hret].
    apply (Hit it.1 it.2). rewrite <- surjective_pairing. apply elem_of_app. by right.
Qed.

Definition finished s : Prop := (exists L M, store_ok s L M /\ P (kv M)) /\ (calm -> w_faults (st_w s) = []).

(** The index has left the merge set: the watermark is written and the merged
    files go. *)
Lemma finish_wp barrier mgd (mergeIDs ids : list Z) s : list_to_set mergeIDs = mgd -> move_state mgd ids [] [] s ->
  wp (pause env BeforeManifest;;; sm_modify (set_mergeSeq barrier);;;
      sm_ignore (io (writeManifest barrier));;; pause env BeforeDelete;;;
      drop_merged mergeIDs;;; sm_ignore (io syncDir);;; recomputeUsage env)
    (fun _ s' => finished s') (fun _ _ => False) s.
Proof.
  intros Hids Hs. apply wp_bind, wp_modify.
  destruct (moving_pause mgd ids BeforeManifest s [] [] Hs) as [(L1 & M1 & Hm1) _].
  set (s1 := env _ _) in *. apply wp_bind, wp_modify, wp_bind, wp_ignore, wp_io.
  assert (Hm2 : move_state mgd ids [] [] (set_w (writeManifest barrier (st_w s1)).2 (set_mergeSeq barrier s1))).
  { exists L1, M1. destruct Hm1 as [Hh Hcov Htd Hrt Hk]. split; try done.
    apply (hold_world calm P mgd _ s1); try done.
    - assert (Hmid : mid (set_mergeSeq barrier s1) L1 M1).
      { destruct (hd_mid _ _ _ _ _ _ _ Hh) as [Hinv Hl Hsq]. split; [destruct Hinv; by split|done..]. }
      apply mid_other_files; [exact Hmid|]. apply writeManifest_data.
    - intros Hc. apply writeManifest_calm, Hh, Hc. }
  assert (Hrest : wp (pause env BeforeDelete;;; drop_merged mergeIDs;;; sm_ignore (io syncDir);;; recomputeUsage env)
    (fun _ s' => finished s') (fun _ _ => False)
    (set_w (writeManifest barrier (st_w s1)).2 (set_mergeSeq barrier s1))).
  2:{ unfold wp at 1. change (st_w (set_mergeSeq barrier s1)) with (st_w s1).
      destruct (writeManifest barrier (st_w s1)) as [[[]|e] w']; exact Hrest. }
  clear Hm1. set (s2 := set_w _ _) in *. apply wp_bind, wp_modify.
  destruct (moving_pause mgd ids BeforeDelete s2 [] [] Hm2) as [(L3 & M3 & [Hh3 Hcov3 _ _ _]) _].
  set (s3 := env _ s2) in *. apply wp_bind.
  eapply wp_mono; [apply (drop_merged_wp mergeIDs s3 L3 M3 (hd_mid _ _ _ _ _ _ _ Hh3))| |done].
  - intros id Hin. assert (Hm : id ∈ mgd) by (rewrite <- Hids; by apply elem_of_list_to_set).
    split; [apply (hold_u32 _ _ _ _ _ _ _ id Hh3); set_solver|]. split.
    + intros Ha. apply (hd_active _ _ _ _ _ _ _ Hh3 id Ha). set_solver.
    + intros k e Hk E. specialize (Hcov3 k e Hk). rewrite E in Hcov3. by apply Hcov3, not_elem_of_nil in Hm.
  - intros [] s4 ([L4 Hmid4] & Hf4 & _).
    assert (Hcalm4 : calm -> w_faults (st_w s4) = []) by (intros Hc; apply Hf4, Hh3, Hc).
    apply wp_bind, wp_ignore, wp_io, wp_syncDir.
    + intros w5 Hw5. apply (recomputeUsage_wp (set_w w5 s4) L4 M3); [|apply Hh3|].
      * apply mid_other_files; [done|]. intros id. by rewrite (proj1 Hw5).
      * intros Hc. by apply Hw5, Hcalm4.
    + intros Hf w5 Hw5. apply (recomputeUsage_wp (set_w w5 s4) L4 M3); [|apply Hh3|].
      * apply mid_other_files; [done|]. intros id. by rewrite (proj1 Hw5).
      * intros Hc. by apply Hw5, Hcalm4.
Qed.

(** Once the copies and their hints are on disk: the index is pointed at them. *)
Lemma install_wp mgd (items retired : list (bytes * entry)) L M c (k : sto I unit) s :
  copied mgd items retired s L M (mg_outs c) (mg_moved c) -> NoDup (items ++ retired).*1 ->
  (forall it, it ∈ retired -> e_tomb it.2 = true) -> Forall tmp_writer (mg_hws c) ->
  (forall s', move_state mgd (mg_outs c) [] [] s' -> wp k (fun _ s'' => finished s'') (fun _ s'' => aborted s'') s') ->
  wp (or_cleanup c (io syncDir);;;
      chunked env BeforeRepoint repoint (length items) (zip items (mg_moved c));;;
      chunked env BeforeRetire retire (length retired) retired;;; k)
    (fun _ s' => finished s') (fun _ s' => aborted s') s.
Proof.
  intros Hcd Hkeys Hret Htw Hk. apply wp_bind, (wp_or_cleanup calm P mgd), wp_io.
  pose proof (cp_hold _ _ _ _ _ _ _ _ Hcd) as Hh.
  assert (Hadv : forall w', advance (st_w s) w' -> copied mgd items retired (set_w w' s) L M (mg_outs c) (mg_moved c)).
  { intros w' Hw. apply copied_world; [done| |intros Hc; apply Hw, Hh, Hc].
    apply inv_advance; [apply Hh|done]. }
  apply wp_syncDir.
  2:{ intros Hf w' Hw. eapply (copied_abortable mgd items retired); [|by apply Hadv|done].
      intros Hc. by apply Hf, Hh. }
  intros w' Hw. pose proof (copied_moving _ _ _ _ _ _ _ _ (Hadv w' Hw) Hkeys Hret) as Hmv.
  pose proof (cp_disj _ _ _ _ _ _ _ _ Hcd) as Hdisj.
  apply wp_bind. eapply wp_mono; [apply (chunked_wp (fun l => move_state mgd (mg_outs c) l retired))| |done].
  { intros p l s0. by apply move_repoint. }
  { intros q l s0 Hs. by apply moving_pause. }
  { rewrite length_zip. lia. }
  { exact Hmv. }
  intros [] s1 Hs1. apply wp_bind.
  eapply wp_mono; [apply (chunked_wp (fun l => move_state mgd (mg_outs c) [] l))| |done].
  { intros p l s0. by apply move_retire. }
  { intros q l s0 Hs. by apply moving_pause. }
  { done. }
  { exact Hs1. }
  intros [] s2 Hs2. by apply Hk.
Qed.

Lemma merge_files_wp (barrier : Z) mgd (mergeIDs : list Z) (V : gmap bytes entry) s L M :
  list_to_set mergeIDs = mgd -> hold mgd ∅ s L M ->
  (forall k e, view s !! k = Some e -> e_fileID e ∈ mgd -> V !! k = Some e) ->
  st_nextID s + 2 * B + (2 * B + 1) * Z.of_nat (size V) + 1 < 2 ^ 32 ->
  wp (merge_files env barrier mergeIDs) (fun _ s' => finished s') (fun _ s' => aborted s') s.
Proof.
  intros Hids Hh HV Hroom. unfold merge_files. apply wp_bind, wp_modify.
  destruct (hold_pause calm P B env AfterList mgd ∅ s L M Hbenign Hh) as (L1 & M1 & Hh1 & Hq1 & _).
  set (s1 := env _ _) in *. apply wp_bind, wp_get.
  pose proof (copying_start mgd mergeIDs Hids s1 L1 M1 Hh1) as Hcy1.
  pose proof (split_keys mgd mergeIDs s1 L1 M1 Hh1) as Hkeys.
  pose proof (split_elem mergeIDs s1) as Hsplit. pose proof (found_elem mgd mergeIDs Hids s1 L1 M1 Hh1) as Hfound.
  cbv zeta. set (found := filter (fun it : bytes * entry => e_fileID it.2 ∈ mergeIDs) _) in *.
  set (items := filter (fun it : bytes * entry => e_tomb it.2 = false) found) in *.
  set (retired := filter (fun it : bytes * entry => e_tomb it.2 = true) found) in *.
  assert (Hlive : forall it, it ∈ items -> e_tomb it.2 = false) by (by intros it [? _]%list_elem_of_filter).
  assert (Hret : forall it, it ∈ retired -> e_tomb it.2 = true) by (by intros it [? _]%list_elem_of_filter).
  assert (Hlen : (length items <= size V)%nat).
  { apply items_bound.
    - rewrite fmap_app in Hkeys. by apply NoDup_app in Hkeys as [? _].
    - intros k e Hin. destruct (proj1 (Hfound k e)) as [Hk Hm].
      { apply Hsplit, elem_of_app. by left. }
      apply HV; [|done]. apply (qu_index _ _ _ _ _ _ _ Hq1 k e Hk). set_solver. }
  apply wp_bind, wp_modify.
  destruct (copying_pause calm P mgd items retired B env AfterSnapshot s1 L1 M1 _ Hbenign Hcy1)
    as (L2 & M2 & Hcy2 & Hq2).
  set (s2 := env _ s1) in *. apply wp_bind.
  pose proof (qu_next _ _ _ _ _ _ _ Hq1). pose proof (qu_next _ _ _ _ _ _ _ Hq2).
  eapply wp_mono; [apply (copy_items_wp mgd items retired Hlive items 0 s2 L2 M2 _ Hcy2 eq_refl)| |done].
  { unfold zlen. nia. }
  intros c s3 (L3 & M3 & Hcy3 & Hlen3 & _). apply wp_bind, wp_modify.
  destruct (copying_pause calm P mgd items retired B env BeforeSync s3 L3 M3 c Hbenign Hcy3)
    as (L4 & M4 & Hcy4 & _).
  set (s4 := env _ s3) in *. destruct (copying_copied mgd items retired s4 L4 M4 c Hcy4 Hlen3) as [Hcd4 Hp4].
  pose proof (out_tmp s4 L4 _ _ (cy_outs _ _ _ _ _ _ _ _ _ Hcy4)) as Hws.
  apply wp_bind. eapply wp_mono; [apply (sync_outs_wp mgd items retired Hlive c _ (mg_outs c) ltac:(done) Hws s4 L4 M4 Hcd4)| |done].
  intros [] s5 (Hcd5 & _ & Htmp5). apply wp_bind.
  eapply wp_mono; [apply (commit_hints_wp mgd items retired c (mg_moved c) (mg_outs c) (mg_hws c)) with (L := L4) (M := M4)| |done].
  { apply (cy_nodup _ _ _ _ _ _ _ _ _ Hcy4). }
  { intros id Hin. apply (hold_u32 _ _ _ _ _ _ _ id (cy_hold _ _ _ _ _ _ _ _ _ Hcy4)). set_solver. }
  { done. }
  { apply (Forall2_impl _ _ _ _ Hp4). intros id h. by rewrite Htmp5. }
  { done. }
  intros [] s6 [Hcd6 _]. apply (install_wp mgd items retired L4 M4 c _ s6 Hcd6 Hkeys Hret Hws).
  intros s8 Hs8. eapply wp_mono; [by apply (finish_wp barrier mgd mergeIDs (mg_outs c) s8)|done|done].
Qed.

Lemma Compact_wp s L M : store_ok s L M -> P (kv M) -> st_closed s = false ->
  (calm -> w_faults (st_w s) = []) -> (w_faults (st_w s) = [] -> calm) ->
  st_nextID s + 3 * B + (2 * B + 1) * zlen (idx_elems (st_idx s)) + 2 < 2 ^ 32 ->
  wp (Compact env) (fun _ s' => finished s') (fun _ s' => aborted s') s.
Proof.
  intros Hok HP Hcl Hcalm Hcalm' Hroom. pose proof (si_index _ _ _ (ok_inv _ _ _ Hok)) as [Hwf _].
  assert (Hsize : zlen (idx_elems (st_idx s)) = Z.of_nat (size (view s))).
  { unfold zlen. f_equal. rewrite (Permutation_length (idx_elems_ok _ Hwf)). apply length_map_to_list. }
  rewrite Hsize in Hroom.
  unfold Compact. apply wp_bind, wp_bind, wp_get. rewrite Hcl. apply wp_ret, wp_bind.
  eapply wp_mono; [apply (seal_wp s L M Hok); nia| |].
  2:{ intros e s1 (Hf & L1 & Hok1). split; [intros Hc; by apply Hf, Hcalm|]. exists L1, M. done. }
  intros [barrier a] s1 ([L1 Hok1] & Ha1 & Hf1 & Hi1 & Hn1). cbn [fst snd] in *.
  set (mgd := st_files s1 ∖ {[a]}). destruct (ok_mid s1 L1 M Hok1) as [Hmid1 Htot1].
  assert (Hh1 : hold mgd ∅ s1 L1 M).
  { split; try done.
    - unfold mgd. set_solver.
    - intros a' Ha'. rewrite Ha1 in Ha'. injection Ha' as <-. unfold mgd. set_solver.
    - auto. }
  apply wp_bind, wp_modify.
  destruct (hold_pause calm P B env AfterSeal mgd ∅ s1 L1 M Hbenign Hh1) as (L2 & M2 & Hh2 & Hq2 & Hseal).
  destruct (Hseal eq_refl) as [_ Hfiles2]. set (s2 := env _ _) in *. apply wp_bind, wp_get.
  rewrite Hfiles2. fold mgd. set (mergeIDs := merge_sort Z.le (elements mgd)).
  assert (Hids : list_to_set mergeIDs = mgd).
  { apply set_eq. intros id. unfold mergeIDs. rewrite elem_of_list_to_set, merge_sort_Permutation.
    by rewrite elem_of_elements. }
  destruct mergeIDs as [|id0 rest] eqn:Em.
  { apply wp_ret. split; [|apply Hh2]. exists L2, M2. split; [|apply Hh2].
    apply mid_ok; apply Hh2. }
  rewrite <- Em in *.
  eapply wp_mono; [apply (merge_files_wp barrier mgd mergeIDs (view s) s2 L2 M2 Hids Hh2)| |done].
  - intros k e Hk Hm. rewrite <- Hi1. apply (qu_index _ _ _ _ _ _ _ Hq2 k e Hk). set_solver.
  - pose proof (qu_next _ _ _ _ _ _ _ Hq2). nia.
  - done.
Qed.
End compaction.


(** Alone, [Compact] leaves the client's map as it was. *)
Lemma alone_benign {I : Type} `{KeyIndexSpec I} P : benign_env (I := I) 0 P (fun _ s => s).
Proof. intros p mgd outs s L M Hmid HP _ _. exists L, M. do 2 (split; [done|]). split; [split; try done; lia|done]. Qed.

Lemma Compact_alone {I : Type} `{KeyIndexSpec I} (s : store I) m : refines s m -> st_closed s = false ->
  st_nextID s + zlen (idx_elems (st_idx s)) + 2 < 2 ^ 32 ->
  match Compact (fun _ s => s) s with
  | (Ok _, s') => refines s' m
  | (Err _, s') => w_faults (st_w s) <> [] /\ refines s' m
  end.
Proof.
  intros (L & M & Hok & Hkv) Hc Hroom.
  pose proof (Compact_wp (w_faults (st_w s) = []) (fun m' => m' = m) 0 (fun _ s => s) ltac:(lia)
    (alone_benign _) s L M Hok Hkv Hc (fun x => x) (fun x => x) ltac:(lia)) as Hw.
  unfold wp in Hw. destruct (Compact _ s) as [[[]|e] s'].
  - destruct Hw as [(L' & M' & ? & ?) _]. by exists L', M'.
  - destruct Hw as [Hf (L' & M' & ? & ?)]. split; [done|]. by exists L', M'.
Qed.
