(* ===== verification/Snapshots.v ===== *)
(** * Snapshots beside writers

    What [SnapshotRecords] streams while the store's clients write between its
    chunks and its reads: nothing but records that were newest at some moment,
    and the record of every live key that nobody wrote to meanwhile. *)

From S2P Require Import Prelude Bytes Decimal Record Datafile Hint Listing Manifest Index Store.
From S2P Require Import StoreInv WritePath Ops Reads Scans Recovery Engine Compact Settled Crash Disk.
From S2P Require Import Durability Writers Merging.

Local Open Scope Z_scope.
Local Open Scope gokv_scope.

(** Hand a list to the callback until it fails. *)
Fixpoint push {T} (fn : bytes -> T -> result error unit * T) (l : list bytes) (t : T)
  : result error unit * T :=
  match l with
  | [] => (Ok tt, t)
  | x :: l' => match fn x t with
               | (Err e, t') => (Err e, t')
               | (Ok _, t') => push fn l' t'
               end
  end.

Lemma push_app {T} (fn : bytes -> T -> result error unit * T) l l' t :
  push fn (l ++ l') t = match push fn l t with
                        | (Ok _, t') => push fn l' t'
                        | out => out
                        end.
Proof. revert t. induction l as [|x l IH]; intros t; simpl; [done|]. destruct (fn x t) as [[[]|e] t']; auto. Qed.

Lemma strip_batch_tombstone r : tombstone (strip_batch r) = tombstone r.
Proof. unfold tombstone, strip_batch. cbn [r_flags]. by destruct (r_flags r). Qed.

(** Keys nobody wrote to keep their record, and none is lost. *)
Lemma absorb_all_untouched R : forall (M : newest) k, k ∉ (r_key <$> R) -> absorb_all M R !! k = M !! k.
Proof.
  induction R as [|r R IH]; intros M k Hk; [done|]. cbn [fmap list_fmap] in Hk.
  apply not_elem_of_cons in Hk as [Hne Hk]. simpl. rewrite IH by done. rewrite absorb_lookup.
  by rewrite decide_False.
Qed.
Lemma absorb_all_mono R : forall (M : newest) k, is_Some (M !! k) -> is_Some (absorb_all M R !! k).
Proof.
  induction R as [|r R IH]; intros M k [old Hk]; [by exists old|]. simpl. apply IH. rewrite absorb_lookup.
  destruct (decide (k = r_key r)); [|by exists old]. rewrite Hk. destruct (_ <=? _); eauto.
Qed.

(** A chunk of a snapshot is one of a scan without an end key. *)
Lemma snap_loop_chunk nodes : forall c, ck_atEnd c = false -> snap_loop nodes c = chunk_loop [] nodes c.
Proof.
  induction nodes as [|[k e] nodes IH]; intros c Hc; [done|]. cbn [snap_loop chunk_loop].
  destruct (_ && _); [by apply IH|]. cbn [zlen length Z.of_nat Z.eqb negb andb]. rewrite Hc.
  change snapChunk with scanChunk. destruct (_ || _); [done|]. by apply IH.
Qed.

Section snapshot.
Context {I : Type} `{KeyIndexSpec I}.
Implicit Types (s : store I) (L : logs) (M : newest).

Lemma store_ok_keyed s L M : store_ok s L M -> keyed M.
Proof.
  intros Hok k r Hr. destruct (si_index _ _ _ (ok_inv _ _ _ Hok)) as [_ Hv]. specialize (Hv k).
  rewrite Hr in Hv. destruct (idx_view (st_idx s) !! k) as [e|]; [apply Hv|done].
Qed.

Lemma store_ok_valid s L M k r : store_ok s L M -> M !! k = Some r -> valid_record r.
Proof.
  intros Hok Hr. pose proof (ok_inv _ _ _ Hok) as Hinv. destruct (si_index _ _ _ Hinv) as [_ Hv].
  specialize (Hv k). rewrite Hr in Hv. destruct (idx_view (st_idx s) !! k) as [e|]; [|done].
  by destruct (located_bytes _ _ _ _ _ _ (si_files _ _ _ Hinv) Hv) as (? & ? & _ & _ & _ & _ & ? & _).
Qed.

(** ** The index under the cursor *)

Lemma index_keys start s L M k : store_ok s L M ->
  is_Some (M !! k) /\ bytes_le start k <-> k ∈ (idx_from start (st_idx s)).*1.
Proof.
  intros Hok. destruct (si_index _ _ _ (ok_inv _ _ _ Hok)) as [Hwf Hv]. specialize (Hv k).
  rewrite list_elem_of_fmap. split.
  - intros [[r Hr] Hle]. rewrite Hr in Hv. destruct (idx_view (st_idx s) !! k) as [e|] eqn:E; [|done].
    exists (k, e). split; [done|]. by apply idx_from_elem.
  - intros ([k' e] & -> & [Hk Hle]%idx_from_elem); [|done]. simpl in *. rewrite Hk in Hv.
    destruct (M !! k'); [eauto|done].
Qed.

Lemma bytes_le_nil k : bytes_le [] k.
Proof. unfold bytes_le, bytes_ltb. by destruct k. Qed.

(** A cursor parts the keys from [start] on: those behind it and those ahead. *)
Definition parted (start : bytes) s (done rest : list (bytes * entry)) (cursor : bytes) (excl : bool) : Prop :=
  idx_from start (st_idx s) = done ++ rest /\ cursor_at start done cursor excl.

Lemma parted_ahead start s L M done rest cursor excl k : store_ok s L M -> parted start s done rest cursor excl ->
  k ∈ rest.*1 <-> is_Some (M !! k) /\ bytes_le start k /\ (excl = true -> bytes_lt cursor k).
Proof.
  intros Hok [HV Hcur]. rewrite assoc by apply _. rewrite (index_keys start s L M k Hok), HV.
  destruct (si_index _ _ _ (ok_inv _ _ _ Hok)) as [Hwf _].
  pose proof (idx_from_sorted _ start Hwf) as Hs. rewrite HV in Hs.
  pose proof (sorted_app_inv _ _ Hs) as (Hs1 & _ & Hlt). rewrite fmap_app, elem_of_app. split.
  - intros Hk. split; [by right|]. intros He.
    destruct Hcur as [(_ & _ & ?)|(done' & q & -> & -> & _)]; [congruence|].
    apply list_elem_of_fmap in Hk as (p & -> & Hp). apply Hlt; [|done]. apply elem_of_app. right. by left.
  - intros [[Hk|Hk] Hc]; [|done]. exfalso.
    destruct Hcur as [(-> & _ & _)|(done' & q & -> & -> & ->)]; [by apply not_elem_of_nil in Hk|].
    specialize (Hc eq_refl). rewrite fmap_app in Hk, Hs1. apply elem_of_app in Hk as [Hk|Hk].
    + apply list_elem_of_fmap in Hk as (p & -> & Hp). rewrite <- fmap_app in Hs1.
      destruct (sorted_app_inv _ _ Hs1) as (_ & _ & Hlt'). apply (bytes_lt_irrefl q.1).
      eapply bytes_lt_trans; [exact Hc|]. apply Hlt'; [done|by left].
    + apply list_elem_of_singleton in Hk as ->. by apply (bytes_lt_irrefl q.1).
Qed.

(** The cursor's key is never lost, and each record that was written puts at
    most one more key ahead of it. *)
Lemma parted_wrote start s L M R s' L' M' done rest cursor excl :
  store_ok s L M -> store_ok s' L' M' -> wrote s L M R s' L' M' -> parted start s done rest cursor excl ->
  exists done' rest', parted start s' done' rest' cursor excl /\
    zlen rest' <= zlen rest + zlen R /\ forall k, k ∈ rest.*1 -> k ∈ rest'.*1.
Proof.
  intros Hok Hok' Hr Hp. pose proof (wo_map _ _ _ _ _ _ _ Hr) as HM.
  assert (Hsplit : exists done' rest', parted start s' done' rest' cursor excl).
  { destruct Hp as [HV [(_ & -> & ->)|(d & q & -> & -> & ->)]].
    { exists [], (idx_from start (st_idx s')). split; [done|by left]. }
    assert (Hq : q.1 ∈ (idx_from start (st_idx s')).*1).
    { apply (index_keys start s' L' M' q.1 Hok'). rewrite HM.
      destruct (index_keys start s L M q.1 Hok) as [_ [Hq Hle]]; [|split; [by apply absorb_all_mono|done]].
      rewrite HV, !fmap_app, !elem_of_app. left. right. by left. }
    apply list_elem_of_fmap in Hq as (q' & Eq & (d' & r' & HV')%list_elem_of_split).
    exists (d' ++ [q']), r'. split; [by rewrite HV', <- app_assoc|]. right. by exists d', q'. }
  destruct Hsplit as (done' & rest' & Hp'). exists done', rest'. split; [done|].
  pose proof (parted_ahead start s L M done rest cursor excl) as Ha.
  pose proof (parted_ahead start s' L' M' done' rest' cursor excl) as Ha'. split.
  - unfold zlen. rewrite <- Nat2Z.inj_add, <- (length_fmap fst rest), <- (length_fmap r_key R), <- length_app.
    rewrite <- (length_fmap fst rest'). apply inj_le, submseteq_length, NoDup_submseteq.
    + apply sorted_NoDup. destruct Hp' as [HV' _].
      destruct (si_index _ _ _ (ok_inv _ _ _ Hok')) as [Hwf _]. pose proof (idx_from_sorted _ start Hwf) as Hs.
      rewrite HV' in Hs. by apply sorted_app_inv in Hs as (_ & ? & _).
    + intros k Hk. apply Ha' in Hk as [[r Hk] Hc]; [|done..]. apply elem_of_app. rewrite HM in Hk.
      destruct (absorb_all_elem _ _ _ _ Hk) as [Hold|Hnew]; [left; apply Ha; eauto|right].
      apply list_elem_of_fmap. exists r. split; [|done]. symmetry. rewrite <- HM in Hk.
      by apply (store_ok_keyed s' L' M' Hok').
  - intros k Hk. apply Ha in Hk as [Hk Hc]; [|done..]. apply Ha'; [done..|]. split; [|done].
    rewrite HM. by apply absorb_all_mono.
Qed.

Lemma keys_wrote start s L M R s' L' M' : store_ok s L M -> store_ok s' L' M' -> wrote s L M R s' L' M' ->
  zlen (idx_from start (st_idx s')) <= zlen (idx_from start (st_idx s)) + zlen R.
Proof.
  intros Hok Hok' Hr. destruct (parted_wrote start s L M R s' L' M' [] (idx_from start (st_idx s)) start false)
    as (done' & rest' & [HV Hcur] & Hle & _); [done..|split; [done|by left]|].
  destruct Hcur as [(-> & _ & _)|(? & ? & _ & _ & ?)]; [|done]. by rewrite HV.
Qed.

(** A chunk: what it finds is a stretch of the keys ahead, and the cursor moves
    to its end. *)
Lemma scan_chunk_spec start endKey s L M done rest cursor excl : store_ok s L M -> parted start s done rest cursor excl ->
  exists ex rest', rest = ex ++ rest' /\ let c := scan_chunk endKey cursor excl s in
    ck_refs c = live_refs ex /\ ck_examined c = zlen ex /\ (forall p, p ∈ ex -> indexed_node s p) /\
    (forall p, p ∈ ex -> in_range endKey p.1) /\
    (ex = [] \/ ck_atEnd c = true -> forall p, p ∈ rest' -> ~ in_range endKey p.1) /\
    (ex <> [] -> parted start s (done ++ ex) rest' (ck_cursor c) (ck_exclusive c)).
Proof.
  intros Hok [HV Hcur]. destruct (si_index _ _ _ (ok_inv _ _ _ Hok)) as [Hwf _].
  pose proof (idx_from_sorted _ start Hwf) as Hs. rewrite HV in Hs.
  pose proof (sorted_app_inv _ _ Hs) as (_ & Hs2 & Hlt).
  rewrite (scan_chunk_rest s L M Hok start done rest) by done. destruct (chunk_loop_spec endKey rest [] cursor excl 0)
    as (ex & rest' & Hrest & Hrefs & Hexam & Hcu & Hxc & Hin & Hend & Hmore); [done| |lia|].
  { intros p Hp ->. destruct Hcur as [(_ & _ & ?)|(done' & q & -> & -> & _)]; [done|].
    apply Hlt; [apply elem_of_app; right; by left|done]. }
  cbn [app] in Hrefs. rewrite Z.add_0_l in Hexam. exists ex, rest'. split; [done|]. cbv zeta.
  set (c := chunk_loop _ _ _) in *. split; [done|]. split; [done|]. split; [|split; [done|split]].
  - intros [k e] Hp. assert (Hp' : (k, e) ∈ idx_from start (st_idx s)) by (rewrite HV, Hrest, !elem_of_app; auto).
    by apply idx_from_elem in Hp' as [? _].
  - intros Hwhy. destruct (ck_atEnd c) eqn:Ee; [by apply Hend|]. destruct Hwhy as [->|?]; [|done].
    destruct (Hmore eq_refl) as [->|?]; [|done]. by intros p ?%not_elem_of_nil.
  - intros Hne. split; [by rewrite HV, Hrest, app_assoc|]. right.
    destruct ex as [|p0 ex0 _] using rev_ind; [done|]. rewrite fmap_app, last_app in Hcu. simpl in Hcu.
    exists (done ++ ex0), p0. split; [by rewrite app_assoc|]. split; [done|]. apply Hxc. by right.
Qed.

(** ** Reads *)

(** A locator stays good while the logs only grow. *)
Lemma rawRecord_located others k e r s L M : store_ok s L M -> w_faults (st_w s) = [] -> locates L k e r ->
  rawRecord others k e s = (Ok (encode (strip_batch r)), s).
Proof.
  intros Hok Hno Hloc. pose proof (ok_inv _ _ _ Hok) as Hinv.
  destruct (located_bytes _ _ _ _ _ _ (si_files _ _ _ Hinv) Hloc)
    as (d & f & Hd & Hdi & Ho & Hf & Hv & H1 & H2 & H3 & Hb).
  assert (Hin : e_fileID e ∈ st_files s).
  { rewrite <- (si_dom _ _ _ Hinv). destruct Hloc as (_ & _ & _ & _ & ? & ? & HL & _). apply elem_of_dom. eauto. }
  unfold rawRecord. cbn [raw_attempts]. rewrite sm_bind_get. unfold file_of.
  rewrite bool_decide_true, Hd by done.
  assert (Hrd : df_readAt d (e_size e) (e_pos e) (st_w s) = (Ok (encode r), st_w s)).
  { unfold df_readAt. rewrite Ho, Hdi. cbn [df_guard]. unfold fs_read_at, syscall, sm_bind, next_fault.
    rewrite Hno. unfold lookup_file. rewrite Hf.
    destruct (Z.ltb_spec (e_pos e) 0); [lia|]. destruct (Z.eqb_spec (e_size e) 0); [lia|].
    destruct (Z.ltb_spec (zlen (f_data f)) (e_pos e + e_size e)); [lia|]. by rewrite Hb. }
  unfold io. rewrite Hrd. cbn [fst snd]. rewrite decode_encode by done. rewrite clearBatchFlags_encode.
  by destruct s.
Qed.

Section stream.
Context {T : Type} (fn : bytes -> T -> result error unit * T).
Context (limit : Z) (env : stream_point -> store I -> store I) `{!Writers limit env}.

(** What the callback's outcome makes of the rest of the stream. *)
Definition go_on (out : option error * T) (rest : list bytes) : result error unit * T :=
  match out.1 with Some e => (Err e, out.2) | None => push fn rest out.2 end.

(** The outcome of a stretch beside the writers. *)
Definition beside s L M (rss : list (list record)) s' : Prop :=
  exists L' M' a', ran s L M rss s' L' M' /\ durable s' L' M' a' /\ fits limit s'.

Lemma snap_refs_ran round refs : forall rs t s L M a, durable s L M a -> fits limit s ->
  Forall2 (fun p r => locates L p.1 p.2 r) refs rs ->
  exists out s' rss, snap_refs fn env round refs t s = (out, s') /\ beside s L M rss s' /\
    forall rest, push fn ((encode <$> (strip_batch <$> rs)) ++ rest) t = go_on out rest.
Proof using All.
  induction refs as [|p refs IH]; intros rs t s L M a Hd Hf Hrs; inversion Hrs as [|? r ? rs' Hp Hrs']; subst.
  { exists (None, t), s, []. split; [done|]. split; [|done]. exists L, M, a. split; [apply ran_refl|done]. }
  cbn [snap_refs]. set (s1 := env _ s).
  destruct (writers_run (BeforeRead round (length refs)) s L M a Hd Hf) as (rss & L' & M' & a' & Hr & Hd' & Hf').
  fold s1 in Hr, Hd', Hf'. pose proof (wo_grows _ _ _ _ _ _ _ Hr) as Hg.
  rewrite (rawRecord_located _ _ _ r s1 L' M');
    [|apply Hd'|apply (dk_calm _ _ _ (du_disk _ _ _ _ Hd'))|by eapply locates_grows].
  cbn [fmap list_fmap app push]. destruct (fn (encode (strip_batch r)) t) as [[[]|e] t'].
  - destruct (IH rs' t' s1 L' M' a' Hd' Hf') as (out & s' & rss' & E & (L2 & M2 & a2 & Hr2 & ?) & Hpush).
    { eapply Forall2_impl; [exact Hrs'|]. intros ? ? ?. by eapply locates_grows. }
    exists out, s', (rss ++ rss'). split; [done|]. split; [|done]. exists L2, M2, a2. split; [by eapply ran_trans|done].
  - exists (Some e, t'), s1, rss. split; [done|]. split; [|done]. by exists L', M', a'.
Qed.

(** ** Chunks *)

(** [r] was the live record of its key when it was read. *)
Definition seen M (R : list record) (r : record) : Prop :=
  exists r0, r = strip_batch r0 /\ tombstone r0 = false /\ (M !! r_key r0 = Some r0 \/ r0 ∈ R).

Lemma seen_earlier s L M rss s' L' M' R r : ran s L M rss s' L' M' -> seen M' R r -> seen M (mjoin rss ++ R) r.
Proof.
  intros Hr (r0 & -> & Ht & Hin). exists r0. split; [done|]. split; [done|]. rewrite elem_of_app.
  destruct Hin as [Hin|Hin]; [|auto]. rewrite (wo_map _ _ _ _ _ _ _ Hr) in Hin.
  apply absorb_all_elem in Hin as [?|?]; auto.
Qed.

Lemma untouched_later s L M rss s' L' M' k : ran s L M rss s' L' M' -> k ∉ (r_key <$> mjoin rss) -> M' !! k = M !! k.
Proof. intros Hr Hk. rewrite (wo_map _ _ _ _ _ _ _ Hr). by apply absorb_all_untouched. Qed.

(** The records of the nodes a chunk found live. *)
Definition found_live M (ex : list (bytes * entry)) : list record := omap (fun p => M !! p.1) (live_refs ex).

Lemma found_live_located s L M ex : store_ok s L M -> (forall p, p ∈ ex -> indexed_node s p) ->
  Forall2 (fun p r => locates L p.1 p.2 r) (live_refs ex) (found_live M ex) /\
  forall r, r ∈ found_live M ex -> M !! r_key r = Some r /\ tombstone r = false.
Proof.
  intros Hok Hex. unfold found_live.
  assert (Hlive : forall p, p ∈ live_refs ex -> exists r, M !! p.1 = Some r /\ locates L p.1 p.2 r /\ tombstone r = false).
  { intros p [Ht Hp]%list_elem_of_filter. destruct (node_located s L M Hok p (Hex p Hp)) as (r & Hr & Hloc).
    exists r. split; [done|]. split; [done|]. destruct Hloc as (_ & _ & E & _). congruence. }
  induction (live_refs ex) as [|p l IH]; [split; [constructor|by intros r ?%not_elem_of_nil]|].
  destruct (Hlive p ltac:(by left)) as (r & Hr & Hloc & Ht). cbn [omap list_omap]. rewrite Hr.
  destruct IH as [IH1 IH2]; [intros q Hq; apply Hlive; by right|]. split; [by constructor|].
  intros r' [->|Hr']%elem_of_cons; [|by apply IH2]. split; [|done].
  by rewrite (store_ok_keyed s L M Hok _ _ Hr).
Qed.

(** What a stretch of the stream is to do: it sends nothing but what was live
    when it was read, and every live key of [keys] nobody writes to. *)
Definition streams s L M (keys : list bytes) (t : T) (out : (result error unit * T) * store I) : Prop :=
  exists sent s' rss, out = (push fn (encode <$> sent) t, s') /\ beside s L M rss s' /\
    (forall r, r ∈ sent -> seen M (mjoin rss) r) /\
    ((push fn (encode <$> sent) t).1 = Ok tt -> forall k r, k ∈ keys -> M !! k = Some r ->
       tombstone r = false -> k ∉ (r_key <$> mjoin rss) -> strip_batch r ∈ sent).

(** The writers ran before it. *)
Lemma streams_later s L M rss s1 L1 M1 keys keys1 t out : ran s L M rss s1 L1 M1 ->
  (forall k, k ∈ keys -> k ∈ keys1) -> streams s1 L1 M1 keys1 t out -> streams s L M keys t out.
Proof.
  intros Hr Hk (sent & s' & rss' & E & (L' & M' & a' & Hr' & Hd') & Hseen & Hall).
  exists sent, s', (rss ++ rss'). split; [done|]. split; [exists L', M', a'; split; [by eapply ran_trans|done]|].
  rewrite join_app. split; [intros r Hin; by eapply seen_earlier, Hseen|].
  intros Hp k r Hin HM Ht. rewrite fmap_app, not_elem_of_app. intros [Hn Hn'].
  apply (Hall Hp k r); [by apply Hk| |done|done]. by rewrite (untouched_later _ _ _ _ _ _ _ k Hr).
Qed.

(** The records of a chunk, and what comes after them. *)
Lemma streams_chunk s L M a ex keys t fuel : durable s L M a -> fits limit s -> (forall p, p ∈ ex -> indexed_node s p) ->
  exists out s' rss L' M' a', snap_refs fn env fuel (live_refs ex) t s = (out, s') /\
    ran s L M rss s' L' M' /\ durable s' L' M' a' /\ fits limit s' /\
    match out with
    | (Some e, t') => streams s L M (ex.*1 ++ keys) t ((Err e, t'), s')
    | (None, t') => forall keys' out', (forall k, k ∈ keys -> k ∈ keys') -> streams s' L' M' keys' t' out' ->
                      streams s L M (ex.*1 ++ keys) t out'
    end.
Proof using All.
  intros Hd Hf Hnode. pose proof (du_ok _ _ _ _ Hd) as Hok.
  destruct (found_live_located s L M ex Hok Hnode) as [Hloc Hlive]. set (rs := found_live M ex) in *.
  destruct (snap_refs_ran fuel (live_refs ex) rs t s L M a Hd Hf Hloc) as (out & s' & rss & E & (L' & M' & a' & Hr & Hd' & Hf') & Hpush).
  assert (Hseen : forall R r, r ∈ (strip_batch <$> rs) -> seen M R r).
  { intros R r (r0 & -> & Hr0)%list_elem_of_fmap. exists r0. apply Hlive in Hr0 as [? ?]. auto. }
  exists out, s', rss, L', M', a'. do 4 (split; [done|]). destruct out as [[e|] t'].
  - exists (strip_batch <$> rs), s', rss. specialize (Hpush []). rewrite app_nil_r in Hpush. rewrite Hpush.
    split; [done|]. split; [by exists L', M', a'|]. split; [by apply Hseen|done].
  - intros keys' out' Hkeys Hout. apply (streams_later _ _ _ _ _ _ _ keys _ _ _ Hr Hkeys) in Hout
      as (sent & s2 & rss2 & -> & Hb & Hs2 & Hall).
    exists ((strip_batch <$> rs) ++ sent), s2, rss2. rewrite fmap_app, Hpush. split; [done|]. split; [done|]. split.
    + intros r [Hin|Hin]%elem_of_app; [by apply Hseen|by apply Hs2].
    + intros Hp k r Hk HM Ht Hn. apply elem_of_app. apply elem_of_app in Hk as [Hk|Hk]; [left|right; by apply (Hall Hp k r)].
      apply list_elem_of_fmap. exists r. split; [done|]. apply list_elem_of_fmap in Hk as ([k' e] & -> & Hin).
      apply list_elem_of_omap. exists (k', e). split; [|done]. apply list_elem_of_filter. split; [|done].
      destruct (node_located s L M Hok _ (Hnode _ Hin)) as (r' & Hr' & _ & _ & Et & _). simpl in *. congruence.
Qed.

(** The whole loop.  Every round passes at least one key, and the writers can
    put only so many ahead of the cursor. *)
Lemma snap_rounds_ran : forall fuel s L M a done rest cursor excl t,
  durable s L M a -> fits limit s -> parted [] s done rest cursor excl ->
  zlen rest + (limit - st_seq s) < Z.of_nat fuel ->
  streams s L M rest.*1 t (snap_rounds fn env fuel cursor excl t s).
Proof using All.
  induction fuel as [|fuel IH]; intros s L M a done rest cursor excl t Hd Hf Hp Hfuel.
  { pose proof (zlen_nonneg rest). pose proof (fi_seq _ _ Hf). lia. }
  destruct (writers_run (BeforeChunk fuel) s L M a Hd Hf) as (rss1 & L1 & M1 & a1 & Hr1 & Hd1 & Hf1).
  cbn [snap_rounds]. set (s1 := env _ s) in *.
  pose proof (du_ok _ _ _ _ Hd) as Hok. pose proof (du_ok _ _ _ _ Hd1) as Hok1.
  destruct (parted_wrote [] s L M (mjoin rss1) s1 L1 M1 done rest cursor excl Hok Hok1 Hr1 Hp) as (done1 & rest1 & Hp1 & Hlen1 & Hk1).
  apply (streams_later _ _ _ _ _ _ _ _ _ _ _ Hr1 Hk1).
  assert (Hsame : snap_chunk cursor excl s1 = scan_chunk [] cursor excl s1)
    by (unfold snap_chunk, scan_chunk; by apply snap_loop_chunk).
  destruct (scan_chunk_spec [] [] s1 L1 M1 done1 rest1 cursor excl Hok1 Hp1)
    as (ex & rest1' & -> & Hrefs & Hexam & Hnode & _ & Hend & Hmore).
  rewrite <- Hsame in Hrefs, Hexam, Hend, Hmore. set (c := snap_chunk cursor excl s1) in *.
  rewrite Hexam. rewrite zlen_app in Hlen1. destruct (Z.eqb_spec (zlen ex) 0) as [Hz|Hz].
  { apply zlen_0_inv in Hz as ->. destruct rest1' as [|p rest1']; [|destruct (Hend ltac:(by left) p ltac:(by left)); by left].
    exists [], s1, []. split; [done|]. split; [exists L1, M1, a1; split; [apply ran_refl|done]|].
    split; [by intros r ?%not_elem_of_nil|]. by intros _ k r ?%not_elem_of_nil. }
  assert (Hne : ex <> []) by (intros ->; done). specialize (Hmore Hne).
  destruct (streams_chunk s1 L1 M1 a1 ex rest1'.*1 t fuel Hd1 Hf1 Hnode)
    as (out & s2 & rss2 & L2 & M2 & a2 & E & Hr2 & Hd2 & Hf2 & Hout).
  rewrite Hrefs, E, fmap_app. destruct out as [[e|] t']; [done|].
  destruct (parted_wrote [] s1 L1 M1 (mjoin rss2) s2 L2 M2 (done1 ++ ex) rest1' (ck_cursor c) (ck_exclusive c) Hok1 (du_ok _ _ _ _ Hd2) Hr2 Hmore)
    as (done2 & rest2 & Hp2 & Hlen2 & Hk2).
  apply (Hout rest2.*1); [done|]. apply (IH s2 L2 M2 a2 done2); [done..|].
  pose proof (wo_seq _ _ _ _ _ _ _ Hr1). pose proof (wo_seq _ _ _ _ _ _ _ Hr2). pose proof (zlen_nonneg ex). lia.
Qed.

Lemma SnapshotRecords_ran fuel t s L M a : durable s L M a -> fits limit s ->
  zlen (idx_from [] (st_idx s)) + (limit - st_seq s) < Z.of_nat fuel ->
  exists sent s' rss, SnapshotRecords fn env fuel t s = (push fn (encode <$> sent) t, s') /\
    beside s L M rss s' /\ (forall r, r ∈ sent -> seen M (mjoin rss) r) /\
    ((push fn (encode <$> sent) t).1 = Ok tt -> forall k r, M !! k = Some r ->
       tombstone r = false -> k ∉ (r_key <$> mjoin rss) -> strip_batch r ∈ sent).
Proof using All.
  intros Hd Hf Hfuel. pose proof (du_ok _ _ _ _ Hd) as Hok.
  assert (Hp : parted [] s [] (idx_from [] (st_idx s)) [] false) by (split; [done|by left]).
  unfold SnapshotRecords. destruct (snap_rounds_ran fuel s L M a [] _ [] false t Hd Hf Hp) as (sent & s' & rss & E & Hb & Hs & Hall); [done|].
  exists sent, s', rss. split; [done|]. split; [done|]. split; [done|].
  intros Hp1 k r Hk. apply (Hall Hp1 k r); [|done]. apply (index_keys [] s L M k Hok). eauto using bytes_le_nil.
Qed.
End stream.
End snapshot.

(** ** The map a stream carries *)

(** When the newest of what was sent is what the map holds: nothing sent is
    newer, and the newest record of a key is among what was sent if it is live
    or the key was sent at all. *)
Lemma newest_kv (X : list record) (N : newest) :
  (forall x, x ∈ X -> exists r, N !! r_key x = Some r /\ r_seq x <= r_seq r /\
    (r_seq x = r_seq r -> live_value x = live_value r)) ->
  (forall k r, N !! k = Some r -> tombstone r = false \/ k ∈ (r_key <$> X) ->
    exists x, x ∈ X /\ r_key x = k /\ r_seq x = r_seq r) ->
  kv (absorb_all ∅ X) = kv N.
Proof.
  intros Hle Hhas. pose proof (absorb_all_keyed X ∅) as HK. apply map_eq. intros k. unfold kv. rewrite !lookup_omap.
  destruct (absorb_all ∅ X !! k) as [y|] eqn:Ey; simpl.
  - assert (Hk : r_key y = k) by (apply HK; [by intros ? ?; rewrite lookup_empty|done]).
    destruct (absorb_all_elem _ _ _ _ Ey) as [Hy|Hy]; [by rewrite lookup_empty in Hy|].
    destruct (Hle y Hy) as (r & Hr & Hyr & Heq). rewrite Hk in Hr. rewrite Hr. simpl. apply Heq.
    destruct (Hhas k r Hr) as (x & Hx & Hxk & Hxs); [right; apply list_elem_of_fmap; eauto|].
    destruct (absorb_all_dominates ∅ X x Hx) as (old & Ho & Hxo). rewrite Hxk, Ey in Ho. injection Ho as ->. lia.
  - destruct (N !! k) as [r|] eqn:Er; [|done]. simpl. unfold live_value. destruct (tombstone r) eqn:Et; [done|].
    destruct (Hhas k r Er) as (x & Hx & Hxk & _); [by left|].
    destruct (absorb_all_dominates ∅ X x Hx) as (old & Ho & _). congruence.
Qed.

Section carried.
Context (q : Z) (M : newest) (R : list record).
Context (HM : keyed M) (Hq : forall k r, M !! k = Some r -> r_seq r <= q) (Hf : fresh q R).

(** A key is as it was, or its newest record is one of the fresh. *)
Lemma newest_cases k r : absorb_all M R !! k = Some r ->
  r_key r = k /\ (r ∈ R \/ M !! k = Some r /\ k ∉ (r_key <$> R)).
Proof using All.
  intros Hr. assert (Hk : r_key r = k) by (by apply (absorb_all_keyed R M HM)). split; [done|].
  destruct (absorb_all_elem _ _ _ _ Hr) as [Hold|]; [|by left]. right. split; [done|].
  intros (x & Hx & HxR)%list_elem_of_fmap. destruct (absorb_all_dominates M R x HxR) as (old & Ho & Hle).
  rewrite <- Hx, Hr in Ho. injection Ho as <-. pose proof (fresh_above q R x Hf HxR). specialize (Hq k r Hold). lia.
Qed.

(** [x] is known: the newest record of its key is [x] itself or newer. *)
Lemma newest_known x : M !! r_key x = Some x \/ x ∈ R ->
  exists r, absorb_all M R !! r_key x = Some r /\ r_seq x <= r_seq r /\ (r_seq x = r_seq r -> x = r).
Proof using All.
  intros Hx. assert (Hd : dominates (absorb_all M R) x).
  { destruct Hx as [Hx|Hx]; [|by apply absorb_all_dominates]. apply dominates_absorb_all. exists x. split; [done|lia]. }
  destruct Hd as (r & Hr & Hle). exists r. split; [done|]. split; [done|]. intros E.
  destruct (newest_cases _ _ Hr) as [Hk [HrR|[HrM _]]].
  - destruct Hx as [Hx|Hx]; [|by apply (fresh_eq q R)]. pose proof (fresh_above q R r Hf HrR). specialize (Hq _ _ Hx). lia.
  - destruct Hx as [Hx|Hx]; [congruence|]. pose proof (fresh_above q R x Hf Hx). specialize (Hq _ _ HrM). lia.
Qed.
End carried.

(** A snapshot taken after the writes [R0] and beside the writes [R1], and all
    that was written since before it, carry the map. *)
Lemma snapshot_kv (q : Z) (M : newest) (R0 R1 R2 sent : list record) : let R := R0 ++ R1 ++ R2 in
  keyed M -> (forall k r, M !! k = Some r -> r_seq r <= q) -> fresh q R ->
  (forall r, r ∈ sent -> seen (absorb_all M R0) R1 r) ->
  (forall k r, absorb_all M R0 !! k = Some r -> tombstone r = false -> k ∉ (r_key <$> R1) -> strip_batch r ∈ sent) ->
  kv (absorb_all ∅ (sent ++ R)) = kv (absorb_all M R).
Proof.
  intros R HM Hq Hf Hseen Hall.
  assert (Hsent : forall x, x ∈ sent -> exists r0, x = strip_batch r0 /\ tombstone r0 = false /\ (M !! r_key r0 = Some r0 \/ r0 ∈ R)).
  { intros x (r0 & -> & Ht & Hr0)%Hseen. exists r0. split; [done|]. split; [done|]. unfold R. rewrite !elem_of_app.
    destruct Hr0 as [Hr0|Hr0]; [|auto]. apply absorb_all_elem in Hr0 as [?|?]; auto. }
  apply newest_kv.
  - intros x [Hx|Hx]%elem_of_app.
    + destruct (Hsent x Hx) as (r0 & -> & _ & Hr0). destruct (newest_known q M R HM Hq Hf r0 Hr0) as (r & Hr & Hle & Heq).
      exists r. split; [done|]. split; [done|]. simpl. intros <-%Heq. unfold live_value. by rewrite strip_batch_tombstone.
    + destruct (newest_known q M R HM Hq Hf x) as (r & Hr & Hle & Heq); [by right|]. exists r. split; [done|]. split; [done|].
      by intros <-%Heq.
  - intros k r Hr Hwhy. destruct (newest_cases q M R HM Hq Hf k r Hr) as [Hk [HrR|[HrM Hn]]].
    { exists r. split; [apply elem_of_app; by right|done]. }
    exists (strip_batch r). split; [|done]. apply elem_of_app. left.
    pose proof Hn as Hn'. unfold R in Hn'. rewrite !fmap_app, !not_elem_of_app in Hn'. destruct Hn' as (Hn0 & Hn1 & _).
    apply (Hall k); [by rewrite absorb_all_untouched| |done]. destruct Hwhy as [?|Hx]; [done|].
    apply list_elem_of_fmap in Hx as (x & -> & [Hx|Hx]%elem_of_app); [|by destruct Hn; apply list_elem_of_fmap; eauto].
    destruct (Hsent x Hx) as (r0 & -> & Ht & [Hr0|Hr0]); simpl in *; [congruence|].
    destruct Hn. apply list_elem_of_fmap. eauto.
Qed.
