(* ===== verification/LiveScans.v ===== *)
(** * Scans beside writers

    [Scan] holds no lock between its chunks and its reads.  Beside clients that
    write all the while it ends, hands out ascending keys and no key twice, and
    nothing that was not in the map at some moment; and it misses no key that
    was there all along. *)

From S2P Require Import Prelude Bytes Decimal Record Datafile Hint Listing Manifest Index Store.
From S2P Require Import StoreInv WritePath Ops Reads Scans Recovery Engine Compact Settled Crash Disk.
From S2P Require Import Durability Writers Merging Snapshots.

Local Open Scope Z_scope.
Local Open Scope gokv_scope.

Section live_scan.
Context {I : Type} `{KeyIndexSpec I} {T : Type}.
Context (fn : bytes -> bytes -> T -> result error unit * T) (limit : Z).
Context (bound : Z) (env : scan_point -> store I -> store I) `{!Writers bound env}.
Implicit Types (s : store I) (L : logs) (M : newest).

Definition pairs_of (rs : list record) : list (bytes * bytes) := (fun r => (r_key r, r_value r)) <$> rs.

(** What becomes of the rest once a chunk's records are handed out. *)
Definition scan_on (out : sent_out (T := T)) (rest : list (bytes * bytes)) : result error unit * T :=
  match out with SReturn r t => (r, t) | SContinue n t => feed fn limit rest n t end.

Lemma send_refs_ran round refs : forall rs sent t s L M a, durable s L M a -> fits bound s ->
  Forall2 (fun p r => locates L p.1 p.2 r /\ tombstone r = false) refs rs ->
  exists out s' rss, send_refs fn limit env round refs sent t s = (out, s') /\ beside bound s L M rss s' /\
    (forall rest, feed fn limit (pairs_of rs ++ rest) sent t = scan_on out rest) /\
    match out with
    | SReturn r _ => r = Ok tt -> 0 < limit <= sent + zlen rs
    | SContinue n _ => n = sent + zlen rs
    end.
Proof using All.
  induction refs as [|p refs IH]; intros rs sent t s L M a Hd Hf Hrs; inversion Hrs as [|? r ? rs' [Hp Ht] Hrs']; subst.
  { exists (SContinue sent t), s, []. split; [done|]. split; [exists L, M, a; split; [apply ran_refl|done]|].
    split; [done|]. rewrite zlen_nil. lia. }
  cbn [send_refs]. destruct (writers_run (ScanRead round (length refs)) s L M a Hd Hf) as (rss & L' & M' & a' & Hr & Hd' & Hf').
  set (s1 := env (ScanRead round (length refs)) s) in *. pose proof (wo_grows _ _ _ _ _ _ _ Hr) as Hg.
  assert (Hloc : locates L' p.1 p.2 r) by (by eapply locates_grows). pose proof Hloc as (Hk & _ & Htb & _).
  unfold sm_catch. rewrite (readValue_ok s1 L' M' (du_ok _ _ _ _ Hd') (dk_calm _ _ _ (du_disk _ _ _ _ Hd')) p.1 p.2 r Hloc) by congruence.
  rewrite zlen_cons. pose proof (zlen_nonneg rs'). cbn [pairs_of fmap list_fmap app feed]. rewrite Hk.
  assert (Hb1 : beside bound s L M rss s1) by (by exists L', M', a').
  destruct (fn p.1 (r_value r) t) as [[[]|e] t']; [|by exists (SReturn (Err e) t'), s1, rss].
  destruct (_ && _) eqn:El.
  { exists (SReturn (Ok tt) t'), s1, rss. split; [done|]. split; [done|]. split; [done|]. intros _.
    apply andb_true_iff in El as [?%Z.ltb_lt ?%Z.leb_le]. lia. }
  destruct (IH rs' (sent + 1) t' s1 L' M' a' Hd' Hf') as (out & s' & rss' & E & (L2 & M2 & a2 & Hr2 & ?) & Hfeed & Hout).
  { eapply Forall2_impl; [exact Hrs'|]. intros ? ? [? ?]. split; [by eapply locates_grows|done]. }
  exists out, s', (rss ++ rss'). split; [done|]. split; [exists L2, M2, a2; split; [by eapply ran_trans|done]|].
  split; [done|]. destruct out; [intros Hr0; specialize (Hout Hr0)|]; lia.
Qed.

(** ** What a scan hands out *)

(** The pair was in the map at some moment. *)
Definition once_there M (R : list record) (p : bytes * bytes) : Prop :=
  exists r, r_key r = p.1 /\ r_value r = p.2 /\ tombstone r = false /\ (M !! p.1 = Some r \/ r ∈ R).

(** A scan of the keys that satisfy [ahead], of which [keys] are there now,
    after [sent] pairs. *)
Definition scans s L M (ahead : bytes -> Prop) (keys : list bytes) (endKey : bytes) (sent : Z) (t : T)
  (out : (result error unit * T) * store I) : Prop :=
  exists pairs s' rss, out = (feed fn limit pairs sent t, s') /\ beside bound s L M rss s' /\
    StronglySorted bytes_lt pairs.*1 /\ (forall k, k ∈ pairs.*1 -> ahead k /\ in_range endKey k) /\
    (forall p, p ∈ pairs -> once_there M (mjoin rss) p) /\
    ((feed fn limit pairs sent t).1 = Ok tt -> limit <= 0 \/ sent + zlen pairs < limit ->
     forall k r, k ∈ keys -> in_range endKey k -> M !! k = Some r -> tombstone r = false ->
       k ∉ (r_key <$> mjoin rss) -> (k, r_value r) ∈ pairs).

Lemma scans_later s L M rss s1 L1 M1 ahead keys keys1 endKey sent t out : ran s L M rss s1 L1 M1 ->
  (forall k, k ∈ keys -> k ∈ keys1) -> scans s1 L1 M1 ahead keys1 endKey sent t out ->
  scans s L M ahead keys endKey sent t out.
Proof.
  intros Hr Hk (pairs & s' & rss' & E & (L' & M' & a' & Hr' & Hd') & Hsort & Hin & Hthere & Hall).
  exists pairs, s', (rss ++ rss'). split; [done|]. split; [exists L', M', a'; split; [by eapply ran_trans|done]|].
  rewrite join_app. split; [done|]. split; [done|]. split.
  - intros p Hp. destruct (Hthere p Hp) as (r & Hrk & Hv & Ht & Hwhy). exists r. do 3 (split; [done|]). rewrite elem_of_app.
    destruct Hwhy as [Hm|?]; [|auto]. rewrite (wo_map _ _ _ _ _ _ _ Hr) in Hm. apply absorb_all_elem in Hm as [?|?]; auto.
  - intros Hok Hlim k r Hin' Hrange HM Ht. rewrite fmap_app, not_elem_of_app. intros [Hn Hn'].
    apply (Hall Hok Hlim k r); [by apply Hk|done| |done|done]. by rewrite (untouched_later _ _ _ _ _ _ _ k Hr).
Qed.

Lemma scans_end s L M a ahead keys endKey sent t : durable s L M a -> fits bound s ->
  (forall k, k ∈ keys -> ~ in_range endKey k) -> scans s L M ahead keys endKey sent t ((Ok tt, t), s).
Proof.
  intros Hd Hf Hout. exists [], s, []. split; [done|]. split; [exists L, M, a; split; [apply ran_refl|done]|].
  split; [constructor|]. split; [by intros k ?%not_elem_of_nil|]. split; [by intros p ?%not_elem_of_nil|].
  intros _ _ k r Hk Hin. by destruct (Hout k Hk).
Qed.

(** ** Chunks *)

Lemma live_refs_sorted ex : StronglySorted bytes_lt ex.*1 -> StronglySorted bytes_lt (live_refs ex).*1.
Proof.
  induction ex as [|p ex IH]; intros Hs; [done|]. cbn [fmap list_fmap] in Hs. apply StronglySorted_inv in Hs as [Hs Hp].
  unfold live_refs in *. rewrite filter_cons. destruct (decide _); [|by apply IH]. cbn [fmap list_fmap]. constructor; [by apply IH|].
  rewrite Forall_forall in *. intros k (q & -> & [_ Hq]%list_elem_of_filter)%list_elem_of_fmap. by apply Hp, list_elem_of_fmap_2.
Qed.

Lemma located_keys L refs rs : Forall2 (fun p r => locates L p.1 p.2 r) refs rs -> (pairs_of rs).*1 = refs.*1.
Proof.
  induction 1 as [|p r refs rs (Hk & _) _ IH]; [done|]. cbn [pairs_of fmap list_fmap fst]. unfold pairs_of in IH. by rewrite IH, Hk.
Qed.

Section chunk.
Context (s : store I) (L : logs) (M : newest) (a : Z) (Hd : durable s L M a) (Hf : fits bound s).
Context (ex : list (bytes * entry)) (Hnode : forall p, p ∈ ex -> indexed_node s p).
Context (endKey : bytes) (Hrange : forall p, p ∈ ex -> in_range endKey p.1).
Context (ahead ahead' : bytes -> Prop) (Hsort : StronglySorted bytes_lt ex.*1) (Hex : forall k, k ∈ ex.*1 -> ahead k).
Context (Hahead : forall k, ahead' k -> ahead k /\ forall q, q ∈ ex.*1 -> bytes_lt q k).

(** The pairs of the chunk's live keys. *)
Lemma chunk_hands_out : let pairs := pairs_of (found_live M ex) in
  Forall2 (fun p r => locates L p.1 p.2 r /\ tombstone r = false) (live_refs ex) (found_live M ex) /\
  StronglySorted bytes_lt pairs.*1 /\ (forall k, k ∈ pairs.*1 -> k ∈ ex.*1 /\ in_range endKey k) /\
  (forall R p, p ∈ pairs -> once_there M R p) /\
  (forall k r, k ∈ ex.*1 -> M !! k = Some r -> tombstone r = false -> (k, r_value r) ∈ pairs).
Proof using Hd Hnode Hrange Hsort.
  pose proof (du_ok _ _ _ _ Hd) as Hok. destruct (found_live_located s L M ex Hok Hnode) as [Hloc Hlive].
  pose proof (located_keys L _ _ Hloc) as Hkeys. cbv zeta. split; [|split; [|split; [|split]]].
  - clear Hkeys. induction Hloc as [|p r refs rs Hp _ IH]; constructor; [split; [done|apply Hlive; by left]|].
    apply IH. intros x Hx. apply Hlive. by right.
  - rewrite Hkeys. by apply live_refs_sorted.
  - rewrite Hkeys. intros k (p & -> & [_ Hp]%list_elem_of_filter)%list_elem_of_fmap. split; [by apply list_elem_of_fmap_2|by apply Hrange].
  - intros R p (r & -> & Hr)%list_elem_of_fmap. destruct (Hlive r Hr) as [Hm Ht]. exists r. simpl. auto.
  - intros k r Hk HM Ht. apply list_elem_of_fmap. exists r. split; [by rewrite (store_ok_keyed s L M Hok _ _ HM)|].
    apply list_elem_of_fmap in Hk as ([k' e] & -> & Hin). apply list_elem_of_omap. exists (k', e). split; [|done].
    apply list_elem_of_filter. split; [|done].
    destruct (node_located s L M Hok _ (Hnode _ Hin)) as (r' & Hr' & _ & _ & Et & _). simpl in *. congruence.
Qed.

Lemma scans_chunk fuel keys sent t :
  exists out s' rss L' M' a', send_refs fn limit env fuel (live_refs ex) sent t s = (out, s') /\
    ran s L M rss s' L' M' /\ durable s' L' M' a' /\ fits bound s' /\
    match out with
    | SReturn r t' => scans s L M ahead (ex.*1 ++ keys) endKey sent t ((r, t'), s')
    | SContinue n t' => forall keys' out', (forall k, k ∈ keys -> k ∈ keys') ->
        scans s' L' M' ahead' keys' endKey n t' out' -> scans s L M ahead (ex.*1 ++ keys) endKey sent t out'
    end.
Proof using All.
  destruct chunk_hands_out as (Hloc & Hsorted & Hin & Hthere & Hfound). set (rs := found_live M ex) in *.
  assert (Hlen : zlen (pairs_of rs) = zlen rs) by (unfold zlen, pairs_of; by rewrite length_fmap).
  destruct (send_refs_ran fuel (live_refs ex) rs sent t s L M a Hd Hf Hloc)
    as (out & s' & rss & E & (L' & M' & a' & Hr & Hd' & Hf') & Hfeed & Hout).
  exists out, s', rss, L', M', a'. do 4 (split; [done|]). destruct out as [r t'|n t'].
  - exists (pairs_of rs), s', rss. specialize (Hfeed []). rewrite app_nil_r in Hfeed. rewrite Hfeed. cbn [scan_on fst].
    split; [done|]. split; [by exists L', M', a'|]. split; [done|].
    split; [intros k Hk; destruct (Hin k Hk); auto|]. split; [by intros p Hp; apply Hthere|].
    intros Hr0 Hlim. specialize (Hout Hr0). rewrite Hlen in Hlim. lia.
  - intros keys' out' Hkeys Hrest. apply (scans_later _ _ _ _ _ _ _ _ keys _ _ _ _ _ Hr Hkeys) in Hrest
      as (pairs & s2 & rss2 & -> & Hb & Hs2 & Hin2 & Hth2 & Hall2).
    exists (pairs_of rs ++ pairs), s2, rss2. rewrite Hfeed. cbn [scan_on]. split; [done|]. split; [done|].
    rewrite fmap_app. split; [|split; [|split]].
    + apply StronglySorted_app_2; [|done|done]. intros k k' Hk Hk'. apply Hin in Hk as [Hk _]. apply Hin2 in Hk' as [Hk' _].
      by apply Hahead.
    + intros k [Hk|Hk]%elem_of_app; [destruct (Hin k Hk); auto|]. apply Hin2 in Hk as [Hk Hkr]. split; [by apply Hahead|done].
    + intros p [Hp|Hp]%elem_of_app; [by apply Hthere|by apply Hth2].
    + intros Hokf Hlim k r Hk Hkr HM Ht Hn. apply elem_of_app. apply elem_of_app in Hk as [Hk|Hk]; [left; by apply Hfound|right].
      apply (Hall2 Hokf); [|done..]. rewrite zlen_app in Hlim. lia.
Qed.
End chunk.

(** The keys of a chunk are behind the cursor it leaves. *)
Lemma parted_passed start s L M done ex rest cursor excl c x : store_ok s L M -> ex <> [] ->
  parted start s done (ex ++ rest) cursor excl -> parted start s (done ++ ex) rest c x ->
  StronglySorted bytes_lt ex.*1 /\ x = true /\ c ∈ ex.*1 /\ forall k, k ∈ ex.*1 -> bytes_le k c.
Proof.
  intros Hok Hne [HV _] [HV' Hcur]. destruct (si_index _ _ _ (ok_inv _ _ _ Hok)) as [Hwf _].
  pose proof (idx_from_sorted _ start Hwf) as Hs. rewrite HV in Hs.
  apply sorted_app_inv in Hs as (_ & Hs & _). apply sorted_app_inv in Hs as (Hs & _ & _). split; [done|].
  destruct ex as [|p0 ex0 _] using rev_ind; [done|]. rewrite app_assoc in Hcur.
  destruct Hcur as [(E & _ & _)|(d & p & E & -> & ->)]; [by destruct (done ++ ex0)|].
  apply app_inj_tail in E as [_ ->]. split; [done|]. rewrite fmap_app. split; [apply elem_of_app; right; by left|].
  apply sorted_app_inv in Hs as (_ & _ & Hlt). intros k [Hk|Hk]%elem_of_app.
  - apply list_elem_of_fmap in Hk as (q & -> & Hq). apply bytes_lt_le, Hlt; [done|by left].
  - apply list_elem_of_singleton in Hk as ->. apply bytes_le_iff. by right.
Qed.

(** ** The whole scan *)

(** The keys a scan is still to see. *)
Definition to_come (start cursor : bytes) (excl : bool) (k : bytes) : Prop :=
  bytes_le start k /\ (excl = true -> bytes_lt cursor k).

Lemma scan_rounds_ran start endKey : forall fuel s L M a done rest cursor excl sent t,
  durable s L M a -> fits bound s -> parted start s done rest cursor excl ->
  zlen rest + (bound - st_seq s) < Z.of_nat fuel ->
  scans s L M (to_come start cursor excl) rest.*1 endKey sent t
    (scan_rounds fn limit env fuel endKey cursor excl sent t s).
Proof using All.
  induction fuel as [|fuel IH]; intros s L M a done rest cursor excl sent t Hd Hf Hp Hfuel.
  { pose proof (zlen_nonneg rest). pose proof (fi_seq _ _ Hf). lia. }
  destruct (writers_run (ScanChunk fuel) s L M a Hd Hf) as (rss1 & L1 & M1 & a1 & Hr1 & Hd1 & Hf1).
  cbn [scan_rounds]. set (s1 := env _ s) in *.
  pose proof (du_ok _ _ _ _ Hd) as Hok. pose proof (du_ok _ _ _ _ Hd1) as Hok1.
  destruct (parted_wrote start s L M (mjoin rss1) s1 L1 M1 done rest cursor excl Hok Hok1 Hr1 Hp) as (done1 & rest1 & Hp1 & Hlen1 & Hk1).
  apply (scans_later _ _ _ _ _ _ _ _ _ _ _ _ _ _ Hr1 Hk1).
  destruct (scan_chunk_spec start endKey s1 L1 M1 done1 rest1 cursor excl Hok1 Hp1)
    as (ex & rest1' & -> & Hrefs & Hexam & Hnode & Hrange & Hend & Hmore).
  set (c := scan_chunk endKey cursor excl s1) in *. rewrite Hexam. rewrite zlen_app in Hlen1.
  assert (Hover : ex = [] \/ ck_atEnd c = true -> forall k, k ∈ rest1'.*1 -> ~ in_range endKey k).
  { intros Hwhy k (p & -> & Hpk)%list_elem_of_fmap. by apply Hend. }
  destruct (Z.eqb_spec (zlen ex) 0) as [Hz|Hz].
  { apply zlen_0_inv in Hz as ->. apply (scans_end s1 L1 M1 a1); [done..|]. apply Hover. by left. }
  assert (Hne : ex <> []) by (intros ->; done). specialize (Hmore Hne).
  destruct (parted_passed start s1 L1 M1 done1 ex rest1' cursor excl _ _ Hok1 Hne Hp1 Hmore) as (Hsort & Hx & Hcin & Hle).
  assert (Hcome : forall k, k ∈ ex.*1 -> to_come start cursor excl k).
  { intros k Hk. apply (parted_ahead start s1 L1 M1 done1 (ex ++ rest1') cursor excl k Hok1 Hp1). rewrite fmap_app, elem_of_app. by left. }
  destruct (scans_chunk s1 L1 M1 a1 Hd1 Hf1 ex Hnode endKey Hrange (to_come start cursor excl)
    (to_come start (ck_cursor c) (ck_exclusive c)) Hsort Hcome) with (fuel := fuel) (keys := rest1'.*1) (sent := sent) (t := t)
    as (out & s2 & rss2 & L2 & M2 & a2 & E & Hr2 & Hd2 & Hf2 & Hout).
  { intros k [Hk1' Hk2']. specialize (Hk2' Hx). split; [split; [done|]|].
    - intros Hxx. eapply bytes_lt_trans; [|exact Hk2']. by apply Hcome.
    - intros q Hq. eapply bytes_le_lt_trans; [by apply Hle|done]. }
  rewrite Hrefs, E, fmap_app. destruct out as [r t'|n t']; [done|].
  destruct (parted_wrote start s1 L1 M1 (mjoin rss2) s2 L2 M2 (done1 ++ ex) rest1' (ck_cursor c) (ck_exclusive c) Hok1 (du_ok _ _ _ _ Hd2) Hr2 Hmore)
    as (done2 & rest2 & Hp2 & Hlen2 & Hk2).
  destruct (ck_atEnd c) eqn:Ee.
  - apply (Hout rest1'.*1); [done|]. apply (scans_end s2 L2 M2 a2); [done..|]. apply Hover. by right.
  - apply (Hout rest2.*1); [done|]. apply (IH s2 L2 M2 a2 done2); [done..|].
    pose proof (wo_seq _ _ _ _ _ _ _ Hr1). pose proof (wo_seq _ _ _ _ _ _ _ Hr2). pose proof (zlen_nonneg ex). lia.
Qed.

Lemma over_nothing endKey start k : over endKey start = true -> bytes_le start k -> ~ in_range endKey k.
Proof.
  intros Ho Hle Hr. assert (Hin : in_range endKey start); [|by apply over_false in Hin; congruence].
  destruct Hr as [->|Hr]; [by left|right]. apply bytes_le_iff in Hr as [Hr|<-]; [|done].
  apply bytes_lt_le. by eapply bytes_le_lt_trans.
Qed.

Lemma durable_cnt c s L M a : durable s L M a -> durable (set_cnt c s) L M a.
Proof. intros [Hok Hdk Hc HM]. split; [by apply count_ok|by apply disk_cnt|done|done]. Qed.
End live_scan.

