(* ===== verification/Streams.v ===== *)
(** * Replication sources

    What a replica makes of a stream that it applies with [ApplyRaw], and what
    [RecordsSince] streams while the store's clients write between its files:
    records of the log only, and all that is newer and was there before. *)

From S2P Require Import Prelude Bytes Decimal Record Datafile Hint Listing Manifest Index Store.
From S2P Require Import StoreInv WritePath Ops Reads Scans Recovery Compact Settled Crash Disk.
From S2P Require Import Durability Writers Merging Compaction Snapshots.

Local Open Scope Z_scope.
Local Open Scope gokv_scope.

(** ** The replica's side *)

Section replica.
Context {I : Type} `{KeyIndexSpec I}.
Implicit Types (s : store I) (L : logs) (M : newest).

(** An open store without faults that has room for [n] more files. *)
Record steady (n : Z) s M : Prop := {
  sy_ok : exists L, store_ok s L M;
  sy_open : st_closed s = false;
  sy_calm : w_faults (st_w s) = [];
  sy_room : st_nextID s + n < 2 ^ 32
}.

Lemma ApplyRaw_steady n s M rs : 0 < n -> steady n s M -> Forall valid_record rs -> log_size rs < 2 ^ 32 ->
  exists s', ApplyRaw (encode_all rs) s = (Ok (max_seq 0 rs), s') /\ steady (n - 1) s' (absorb_all M rs) /\
    st_seq s' = Z.max (st_seq s) (max_seq 0 rs).
Proof.
  intros Hn [[L Hok] Hc Hno Hr] Hv Hl.
  assert (Hwp := ApplyRaw_wp rs s L M Hok Hc ltac:(lia) Hv Hl). unfold wp in Hwp.
  destruct (ApplyRaw _ s) as [[q|e] s']; [|by destruct Hwp].
  destruct Hwp as (-> & Hq & (Hc' & _ & Hid & Hf) & L' & Hok'). exists s'.
  split; [done|]. split; [|done]. split; [by exists L'|congruence|by apply Hf|lia].
Qed.

(** [Reset] empties the store. *)
Definition fewer (w w' : world) : Prop :=
  (w_faults w = [] -> w_faults w' = []) /\
  forall id, is_Some (w_fs w' !! dataPath id) -> is_Some (w_fs w !! dataPath id).

Lemma fewer_trans w1 w2 w3 : fewer w1 w2 -> fewer w2 w3 -> fewer w1 w3.
Proof. intros [? ?] [? ?]. split; auto. Qed.

Lemma remove_fewer name w : fewer w (sm_ignore (fs_remove name) w).2.
Proof.
  split; [apply calm_ignore, calm_remove|]. intros id.
  unfold sm_ignore, fs_remove, syscall, sm_bind, next_fault.
  destruct (w_faults w) as [|[k|] l]; simpl; [|done|].
  all: unfold lookup_file; simpl; destruct (w_fs w !! name) as [f|]; simpl; [|done].
  all: intros [f' Hf']; apply lookup_delete_Some in Hf' as [_ ?]; eauto.
Qed.

Lemma reset_files_state ids : forall s,
  exists d w, reset_files ids s = (Ok tt, set_dfs d (set_w w s)) /\ fewer (st_w s) w.
Proof.
  induction ids as [|id ids IH]; intros s.
  - exists (st_dfs s), (st_w s). by destruct s.
  - cbn [reset_files]. unfold sm_bind at 1, sm_modify. unfold sm_bind, io.
    pose proof (remove_fewer (dataPath id) (st_w s)) as H1.
    unfold sm_ignore in *. cbn [set_dfs st_w] in *.
    destruct (fs_remove (dataPath id) (st_w s)) as [r1 w1]. cbn [snd set_w st_w] in *.
    pose proof (remove_fewer (hintPath id) w1) as H2. unfold sm_ignore in *.
    destruct (fs_remove (hintPath id) w1) as [r2 w2]. cbn [snd] in *.
    match goal with |- context [reset_files ids ?s1] => destruct (IH s1) as (d & w & -> & Hw) end.
    exists d, w. split; [done|]. cbn [st_w set_w] in Hw. eauto using fewer_trans.
Qed.

Lemma openNewActive_total s : st_total (openNewActive s).2 = st_total s.
Proof.
  unfold openNewActive, sm_bind, sm_get, io.
  destruct (createDataFile (st_nextID s) (st_w s)) as [[df|e] w1]; simpl; [|done].
  by destruct (syncDir w1) as [[[]|e] w2].
Qed.

(** Before the new active file is opened. *)
Definition emptied s s2 : Prop :=
  base_inv s2 ∅ ∅ /\ st_idx s2 = idx_empty /\ st_live s2 = 0 /\ st_nLive s2 = 0 /\ st_total s2 = 0 /\
  st_seq s2 = 0 /\ st_mergeSeq s2 = 0 /\ st_closed s2 = st_closed s /\ st_nextID s2 = st_nextID s /\
  st_files s2 = ∅ /\ w_faults (st_w s2) = [].

Lemma emptied_new s s2 : emptied s s2 -> st_closed s = false -> st_nextID s + 1 < 2 ^ 32 ->
  wp (openNewActive;;; sm_modify (set_dirty false))
    (fun _ s' => (exists L, store_ok s' L ∅) /\ st_closed s' = false /\ w_faults (st_w s') = [] /\
       st_nextID s' <= st_nextID s + 1 /\ st_seq s' = 0 /\ st_mergeSeq s' = 0)
    (fun _ _ => False) s2.
Proof.
  intros (Hb & Hix & Hl & Hnl & Ht & Hsq & Hms & Hc & Hn & Hfi & Hno) Hcl Hroom.
  destruct (idx_empty_ok (I := I)) as [Hwf Hview]. pose proof (bi_fresh _ _ _ Hb) as [Hu _].
  apply wp_bind. eapply wp_mono; [apply wp_result, (openNewActive_base s2 ∅ ∅); [done|done|lia|done]| |by intros ? ? []].
  intros [] s3 [(Hinv3 & Hsum & Hv & Hi & Hf3 & _) E].
  pose proof (openNewActive_next s2 Hu ltac:(lia)) as Hnx.
  pose proof (openNewActive_total s2) as Htot. rewrite E in Hnx, Htot. cbn [snd] in Hnx, Htot.
  unfold visible in Hv. injection Hv as _ Hs _ _ _ _ Hm _ Hcl3.
  unfold indexed in Hi. injection Hi as Hix3 Hl3 Hnl3.
  apply wp_modify. split; [eexists; split|].
  - destruct Hinv3 as [? ? ? ? ?]. by split.
  - unfold live_inv. cbn [st_live st_nLive st_idx set_dirty].
    rewrite Hix3, Hl3, Hnl3, Hl, Hnl, Hix, Hview, !map_sum_empty. done.
  - split; cbn [st_seq set_dirty]; [rewrite Hs, Hsq; unfold is_u64; lia|]. intros k r. by rewrite lookup_empty.
  - unfold total_inv. change (open_dfs (set_dirty false s3)) with (open_dfs s3).
    cbn [st_total set_dirty]. rewrite Hsum. assert (Hz : open_dfs s2 = ∅).
    { apply map_empty. intros i. apply map_lookup_filter_None. right. intros x _ Hx.
      rewrite Hfi in Hx. by apply elem_of_empty in Hx. }
    by rewrite Hz, map_sum_empty, Htot, Ht.
  - cbn [st_closed st_w st_nextID st_seq st_mergeSeq set_dirty]. rewrite Hcl3, Hm, Hs.
    do 2 (split; [congruence|]). split; [lia|done].
Qed.

Lemma Reset_wp s L M : store_ok s L M -> st_closed s = false -> w_faults (st_w s) = [] ->
  st_nextID s + 1 < 2 ^ 32 ->
  wp Reset
    (fun _ s' => (exists L, store_ok s' L ∅) /\ st_closed s' = false /\ w_faults (st_w s') = [] /\
       st_nextID s' <= st_nextID s + 1 /\ st_seq s' = 0 /\ st_mergeSeq s' = 0)
    (fun _ _ => False) s.
Proof.
  intros Hok Hc Hno Hr. pose proof (ok_inv _ _ _ Hok) as Hinv. destruct (si_fresh _ _ _ Hinv) as [Hu Hlt].
  destruct (idx_empty_ok (I := I)) as [Hwf Hview].
  unfold Reset. apply wp_bind, wp_check_open; [done|]. apply wp_bind, wp_modify, wp_bind, wp_get, wp_bind.
  unfold wp at 1. destruct (reset_files_state (elements (st_files (set_idx idx_empty s))) (set_idx idx_empty s))
    as (d & w & -> & Hf & Hd).
  do 3 apply wp_bind, wp_modify. apply wp_bind, wp_ignore, wp_io.
  cbn [set_files set_nLive set_total set_live set_mergeSeq set_seq st_w set_w set_dfs set_idx] in *.
  pose proof (writeManifest_calm 0 w (Hf Hno)) as Hw0. pose proof (writeManifest_data 0 w) as Hwd.
  unfold wp at 1. destruct (writeManifest 0 w) as [[r0|e0] w0]; cbn [snd] in *.
  all: apply (emptied_new s); [|done|done]; repeat split; try done; 
    cbn [set_files set_nLive set_total set_live set_mergeSeq set_seq st_w set_w set_dfs set_idx st_idx st_files st_nextID].
  all: try (intros k; by rewrite Hview, !lookup_empty).
  all: try (by rewrite dom_empty_L).
  all: try (by apply Hu).
  all: try (intros id Hid; rewrite Hwd; intros Hs; by apply Hlt, Hd).
Qed.

Lemma Reset_steady n s M : 0 < n -> steady n s M ->
  exists s', Reset s = (Ok tt, s') /\ steady (n - 1) s' ∅ /\ st_seq s' = 0 /\ st_mergeSeq s' = 0.
Proof.
  intros Hn [[L Hok] Hc Hno Hr]. pose proof (Reset_wp s L M Hok Hc Hno ltac:(lia)) as Hwp. unfold wp in Hwp.
  destruct (Reset s) as [[[]|e] s']; [|done]. destruct Hwp as (Hok' & Hc' & Hf' & Hn' & Hq). exists s'.
  split; [done|]. split; [|done]. split; [done..|lia].
Qed.

(** The frames of a stream, one [ApplyRaw] each. *)
Fixpoint apply_frames (frames : list bytes) : sto I unit :=
  match frames with
  | [] => sm_ret tt
  | raw :: frames' => ApplyRaw raw;;; apply_frames frames'
  end.

Lemma apply_frames_steady groups : forall n s M, zlen groups <= n -> steady n s M ->
  Forall (fun rs => Forall valid_record rs /\ log_size rs < 2 ^ 32) groups ->
  exists s', apply_frames (encode_all <$> groups) s = (Ok tt, s') /\
    steady (n - zlen groups) s' (absorb_all M (mjoin groups)) /\
    st_seq s' = max_seq (st_seq s) (mjoin groups).
Proof.
  induction groups as [|rs groups IH]; intros n s M Hn Hs Hg.
  - exists s. rewrite zlen_nil, Z.sub_0_r. done.
  - rewrite zlen_cons in *. pose proof (zlen_nonneg groups). apply Forall_cons in Hg as [[Hv Hl] Hg].
    destruct (ApplyRaw_steady n s M rs) as (s1 & E1 & Hs1 & Hq1); [lia|done..|].
    destruct (IH (n - 1) s1 _ ltac:(lia) Hs1 Hg) as (s2 & E2 & Hs2 & Hq2).
    exists s2. cbn [fmap list_fmap apply_frames]. unfold sm_bind at 1. rewrite E1, E2.
    split; [done|]. split.
    + cbn [mjoin list_join]. rewrite absorb_all_app. replace (n - (1 + zlen groups)) with (n - 1 - zlen groups) by lia. done.
    + rewrite Hq2, Hq1. cbn [mjoin list_join]. rewrite max_seq_app.
      destruct (sy_ok _ _ _ Hs) as [L Hok]. destruct (ok_seq _ _ _ Hok) as [Hu _]. unfold is_u64 in Hu.
      by rewrite (max_seq_max rs (st_seq s)) by lia.
Qed.
End replica.

(** ** The log since a position *)

Definition newer_than (from : Z) (rs : list record) : list record := filter (fun r => from < r_seq r) rs.

Lemma merge_sort_sorted (l : list Z) : StronglySorted Z.le (merge_sort Z.le l).
Proof. apply StronglySorted_merge_sort; apply _. Qed.

Section since.
Context {I : Type} `{KeyIndexSpec I} {T : Type}.
Context (fn : bytes -> T -> result error unit * T).
Context (Hfn : forall x t e t', fn x t = (Err e, t') -> e <> ErrNotExist).
Context (limit : Z) (env : stream_point -> store I -> store I) `{!Writers limit env}.
Implicit Types (s : store I) (L : logs) (M : newest).

Lemma visit_since from rs rest : forall pos t w,
  exists x out, visit (since_cb fn from) pos rs (t, w) = ((x, out.1), (out.2, w)) /\
    push fn ((encode <$> newer_than from rs) ++ rest) t = go_on fn out rest /\
    out.1 <> Some ErrNotExist.
Proof using Hfn.
  induction rs as [|r rs IH]; intros pos t w; [by exists pos, (None, t)|].
  cbn [visit]. unfold since_cb at 1. cbn [fst snd].
  destruct (Z.leb_spec (r_seq r) from) as [Hle|Hgt].
  - unfold newer_than. rewrite filter_cons_False by lia. apply IH.
  - unfold newer_than. rewrite filter_cons_True by lia. cbn [fmap list_fmap app push].
    destruct (fn (encode r) t) as [[[]|e] t'] eqn:E; cbn [fst snd]; [apply IH|].
    exists pos, (Some e, t'). split; [done|]. split; [done|]. intros [= ->]. by apply Hfn in E.
Qed.

(** One file. *)
Lemma since_file from id t s L M a : durable s L M a -> is_Some (L !! id) ->
  exists x out, io (scanDataFile id (since_cb fn from) t) s = (Ok ((x, out.1), out.2), s) /\
    out.1 <> Some ErrNotExist /\
    forall rest, push fn ((encode <$> newer_than from (log_of L id)) ++ rest) t = go_on fn out rest.
Proof using Hfn.
  intros Hd [rs Hid]. pose proof (dk_calm _ _ _ (du_disk _ _ _ _ Hd)) as Hno.
  destruct (rn_ok _ _ _ (dk_run _ _ _ (du_disk _ _ _ _ Hd))) as (_ & _ & Hdisk).
  destruct (Hdisk _ _ Hid) as (_ & _ & _ & f & Hf & Hlog).
  assert (Hrs : log_of L id = rs) by (unfold log_of; by rewrite Hid). rewrite Hrs.
  pose proof (scanDataFile_wp id (since_cb fn from) t (st_w s) f _ Hf Hlog) as Hwp. unfold wp in Hwp.
  unfold io. destruct (scanDataFile _ _ _ _) as [[out|e] w']; [|done].
  destruct Hwp as (w1 & Hadv & [(e & _ & _ & Hn)|(rs' & _ & Hrs' & Hv)]); [done|].
  rewrite (Hrs' Hno) in Hv.
  assert (w1 = st_w s) as ->.
  { destruct Hadv as (Hfs & Hfl & Hlk). destruct (st_w s) as [fs fl lk], w1 as [fs1 fl1 lk1].
    simpl in *. f_equal; [done| |done]. rewrite Hno. by apply Hlk. }
  assert (Hgen : forall rest, exists x out, visit (since_cb fn from) 0 rs (t, st_w s) = ((x, out.1), (out.2, st_w s)) /\
    push fn ((encode <$> newer_than from rs) ++ rest) t = go_on fn out rest /\ out.1 <> Some ErrNotExist)
    by (intros rest; apply visit_since).
  destruct (Hgen []) as (x & out' & Hvis & _ & Hne). rewrite Hvis in Hv. destruct out as [[x1 o] t1].
  simpl in Hv. injection Hv as <- <- <- <-. exists x, out'. split; [by destruct s|]. split; [done|]. intros rest.
  destruct (Hgen rest) as (x2 & [o2 t2] & Hvis2 & Hpush & _). rewrite Hvis in Hvis2. destruct out' as [o1 t1'].
  simpl in Hvis2. injection Hvis2 as -> -> ->. done.
Qed.

Lemma since_files_ran from ids : forall t s L M a, durable s L M a -> fits limit s ->
  (forall id, id ∈ ids -> is_Some (L !! id)) ->
  exists sent s' rss, since_files fn env from ids t s = (push fn (encode <$> sent) t, s') /\
    beside limit s L M rss s' /\ (forall r, r ∈ sent -> r ∈ all_logs (w_fs (st_w s)) L ++ mjoin rss) /\
    ((push fn (encode <$> sent) t).1 = Ok tt -> forall id r, id ∈ ids -> r ∈ log_of L id -> from < r_seq r -> r ∈ sent).
Proof using All.
  induction ids as [|id ids IH]; intros t s L M a Hd Hf Hids.
  { exists [], s, []. split; [done|]. split; [exists L, M, a; split; [apply ran_refl|done]|].
    split; [by intros r ?%not_elem_of_nil|]. by intros _ id r ?%not_elem_of_nil. }
  destruct (writers_run (BeforeFile (length ids)) s L M a Hd Hf) as (rss1 & L1 & M1 & a1 & Hr1 & Hd1 & Hf1).
  cbn [since_files]. set (s1 := env _ s) in *. pose proof (wo_grows _ _ _ _ _ _ _ Hr1) as Hg.
  assert (Hids1 : forall id', id' ∈ id :: ids -> is_Some (L1 !! id')).
  { intros id' [rs Hrs]%Hids. destruct (Hg _ _ Hrs) as [? ?]. eauto. }
  assert (Hlog1 : forall id' r, id' ∈ id :: ids -> r ∈ log_of L id' -> r ∈ log_of L1 id').
  { intros id' r [rs Hrs]%Hids. unfold log_of. destruct (Hg _ _ Hrs) as [l ->]. rewrite Hrs. simpl. rewrite elem_of_app. auto. }
  assert (Hsub : forall R r, r ∈ newer_than from (log_of L1 id) -> r ∈ all_logs (w_fs (st_w s)) L ++ mjoin rss1 ++ R).
  { intros R r [_ Hr]%list_elem_of_filter. rewrite app_assoc, <- (wo_logs _ _ _ _ _ _ _ Hr1). apply elem_of_app. left.
    unfold all_logs. apply list_elem_of_join. exists (log_of L1 id). split; [done|]. apply list_elem_of_fmap. exists id.
    split; [done|]. apply (dir_ids_log _ L1 id); [apply (rn_ok _ _ _ (dk_run _ _ _ (du_disk _ _ _ _ Hd1)))|].
    apply Hids1. by left. }
  destruct (since_file from id t s1 L1 M1 a1 Hd1) as (x & out & -> & Hne & Hpush); [apply Hids1; by left|].
  destruct out as [[e|] t']; cbn [fst snd] in *.
  { rewrite bool_decide_false by congruence. exists (newer_than from (log_of L1 id)), s1, rss1.
    specialize (Hpush []). rewrite app_nil_r in Hpush. rewrite Hpush. unfold go_on. cbn [fst snd]. split; [done|].
    split; [by exists L1, M1, a1|]. split; [|done]. intros r Hr. specialize (Hsub [] r Hr). by rewrite app_nil_r in Hsub. }
  destruct (IH t' s1 L1 M1 a1 Hd1 Hf1) as (sent & s2 & rss2 & E & (L2 & M2 & a2 & Hr2 & Hd2 & Hf2) & Hs2 & Hall);
    [intros id' ?; apply Hids1; by right|].
  exists (newer_than from (log_of L1 id) ++ sent), s2, (rss1 ++ rss2). rewrite E, fmap_app, Hpush. unfold go_on. cbn [fst snd].
  split; [done|]. split; [exists L2, M2, a2; split; [by eapply ran_trans|done]|]. rewrite join_app. split.
  - intros r [Hr|Hr]%elem_of_app; [by apply Hsub|]. apply Hs2 in Hr. rewrite (wo_logs _ _ _ _ _ _ _ Hr1), <- app_assoc in Hr.
    done.
  - intros Hp id' r Hid' Hr Hlt. apply elem_of_app. apply elem_of_cons in Hid' as [->|Hid'].
    + left. apply list_elem_of_filter. split; [done|]. apply Hlog1; [by left|done].
    + right. apply (Hall Hp id'); [done| |done]. apply Hlog1; [by right|done].
Qed.

(** The files of the store are those of its directory. *)
Lemma sorted_files_dir s L : dom L = st_files s -> dir_ok (w_fs (st_w s)) L ->
  merge_sort Z.le (elements (st_files s)) = dir_ids (w_fs (st_w s)).
Proof.
  intros Hdom Hd. pose proof Hd as (Hc & _). apply (StronglySorted_unique Z.le).
  - apply merge_sort_sorted.
  - apply sorted_dir_ids.
  - rewrite merge_sort_Permutation. apply NoDup_Permutation; [apply NoDup_elements|by apply NoDup_dir_ids|].
    intros id. rewrite elem_of_elements, <- Hdom, elem_of_dom. by rewrite (dir_ids_log _ L id Hd).
Qed.

Lemma RecordsSince_ran from t s L M a : durable s L M a -> fits limit s ->
  (from <? st_mergeSeq s) = false ->
  exists sent s' rss, RecordsSince fn env from t s = (push fn (encode <$> sent) t, s') /\
    beside limit s L M rss s' /\ (forall r, r ∈ sent -> r ∈ all_logs (w_fs (st_w s)) L ++ mjoin rss) /\
    ((push fn (encode <$> sent) t).1 = Ok tt ->
       forall r, r ∈ all_logs (w_fs (st_w s)) L -> from < r_seq r -> r ∈ sent).
Proof using All.
  intros Hd Hf Hm. pose proof (rn_ok _ _ _ (dk_run _ _ _ (du_disk _ _ _ _ Hd))) as Hdir.
  unfold RecordsSince. rewrite Hm, (sorted_files_dir s L);
    [|apply (si_dom _ _ _ (ok_inv _ _ _ (du_ok _ _ _ _ Hd)))|done].
  destruct (since_files_ran from (dir_ids (w_fs (st_w s))) t s L M a Hd Hf) as (sent & s' & rss & E & Hb & Hs & Hall);
    [intros id Hid; by apply (dir_ids_log _ L id Hdir)|].
  exists sent, s', rss. split; [done|]. split; [done|]. split; [done|]. intros Hp r Hr Hlt.
  apply list_elem_of_join in Hr as (l & Hr & (id & -> & Hid)%list_elem_of_fmap). by apply (Hall Hp id).
Qed.
End since.

(** ** Catching up from the log *)

(** Records without their batch markers, which merges and snapshots drop. *)
Definition plain (M : newest) : newest := strip_batch <$> M.

Lemma plain_absorb M r : plain (absorb M r) = absorb (plain M) (strip_batch r).
Proof.
  unfold absorb, plain. cbn [strip_batch r_key]. rewrite lookup_fmap.
  destruct (M !! r_key r) as [old|]; simpl; [destruct (_ <=? _); [done|]|]; by rewrite fmap_insert.
Qed.
Lemma plain_absorb_all rs : forall M, plain (absorb_all M rs) = absorb_all (plain M) (strip_batch <$> rs).
Proof. induction rs as [|r rs IH]; intros M; [done|]. simpl. by rewrite IH, plain_absorb. Qed.
Lemma kv_plain M : kv (plain M) = kv M.
Proof.
  apply map_eq. intros k. unfold kv, plain. rewrite !lookup_omap, lookup_fmap.
  destruct (M !! k) as [r|]; [|done]. simpl. unfold live_value. by rewrite strip_batch_tombstone.
Qed.

(** [H] is all that was ever written at the leader: of it the replica knows
    [F] and is sent [X].  Together they are all there is. *)
Lemma log_covers (H X F : list record) (MF : newest) :
  consistent (strip_batch <$> H) -> plain MF = absorb_all ∅ (strip_batch <$> F) ->
  (forall r, r ∈ F -> r ∈ H) -> (forall r, r ∈ X -> r ∈ H) -> (forall r, r ∈ H -> r ∈ F \/ r ∈ X) ->
  kv (absorb_all MF X) = kv (absorb_all ∅ H).
Proof.
  intros Hc HMF HF HX Hall. rewrite <- (kv_plain (absorb_all MF _)), <- (kv_plain (absorb_all ∅ H)).
  f_equal. rewrite !plain_absorb_all, HMF, <- absorb_all_app, <- fmap_app.
  assert (plain ∅ = ∅) as -> by apply fmap_empty. symmetry.
  apply absorb_all_set; [done|]. intros r. rewrite !list_elem_of_fmap.
  assert (Hiff : forall x, x ∈ F ++ X <-> x ∈ H); [|by setoid_rewrite Hiff].
  intros x. rewrite elem_of_app. split; [intros [?|?]; auto|apply Hall].
Qed.

(** What is written afterwards moves equal maps alike. *)
Lemma kv_extend R : forall q (M M' : newest), kv M = kv M' -> fresh q R ->
  (forall k r, M !! k = Some r -> r_seq r <= q) -> (forall k r, M' !! k = Some r -> r_seq r <= q) ->
  kv (absorb_all M R) = kv (absorb_all M' R).
Proof.
  induction R as [|r R IH]; intros q M M' HM Hf Hq Hq'; [done|]. unfold fresh in Hf.
  rewrite zlen_cons, Z.add_comm, seqZ_cons in Hf by (pose proof (zlen_nonneg R); lia).
  cbn [fmap list_fmap] in Hf. injection Hf as Hr Hf. simpl.
  assert (Hup : forall N : newest, (forall k x, N !! k = Some x -> r_seq x <= q) ->
    absorb N r = <[r_key r := r]> N /\ forall k x, <[r_key r := r]> N !! k = Some x -> r_seq x <= q + 1).
  { intros N HN. split; [apply absorb_newer; intros old Ho; apply HN in Ho; lia|].
    intros k x [[_ <-]|[_ Hx]]%lookup_insert_Some; [lia|]. apply HN in Hx. lia. }
  destruct (Hup M Hq) as [-> ?]. destruct (Hup M' Hq') as [-> ?]. apply (IH (q + 1)); [|unfold fresh|done|done].
  - by rewrite !kv_insert, HM.
  - rewrite Hf. f_equal; lia.
Qed.
