(* ===== verification/Text.v ===== *)
(** * Text

    What [fmt], [strconv], [time] and the errors' own methods print into the
    replies of a node: numbers, durations, the names of operations and the
    messages of errors. *)

From S2P Require Import Prelude Bytes Decimal Record Datafile Store Proto.

Local Open Scope Z_scope.
Local Open Scope gokv_scope.

(** ** Numbers *)

(** [strconv.Itoa], [FormatInt] and [%d]. *)
Definition format_int (z : Z) : bytes :=
  if z <? 0 then str "-" ++ format_uint (- z) else format_uint z.

Definition format_bool (b : bool) : bytes := if b then str "true" else str "false".

(** [n] digits with leading zeros. *)
Fixpoint pad (n : nat) (v : Z) : bytes :=
  match n with
  | O => []
  | S n' => pad n' (v / 10) ++ [digit (v mod 10)]
  end.

(** [a / b] to the nearest integer, ties to even. *)
Definition div_half_even (a b : Z) : Z :=
  let q := a / b in
  let r := a mod b in
  if 2 * r <? b then q
  else if b <? 2 * r then q + 1
  else if Z.even q then q else q + 1.

(** [strconv.FormatFloat(x, 'f', 3, 64)]. *)
Definition format_float3 (x : float64) : bytes :=
  let thousandths (neg : bool) (n : Z) : bytes :=
    (if neg then str "-" else []) ++ format_uint (n / 1000) ++ str "." ++ pad 3 (n mod 1000) in
  match x with
  | SpecFloat.S754_nan => str "NaN"
  | SpecFloat.S754_infinity neg => if neg then str "-Inf" else str "+Inf"
  | SpecFloat.S754_zero neg => thousandths neg 0
  | SpecFloat.S754_finite neg m e =>
      thousandths neg (if 0 <=? e then Z.pos m * 2 ^ e * 1000
                       else div_half_even (Z.pos m * 1000) (2 ^ (- e)))
  end.

(** ** Durations, in nanoseconds *)

Definition Microsecond : Z := 1000.
Definition Millisecond : Z := 1000000.
Definition Second : Z := 1000000000.

(** [Duration.Round]. *)
Definition Round (d m : Z) : Z :=
  if m <=? 0 then d
  else
    let r := Z.rem d m in
    if d <? 0 then
      let r := - r in
      if 2 * r <? m then d + r
      else if i64 (d - m + r) <? d then i64 (d - m + r) else - 2 ^ 63
    else if 2 * r <? m then d - r
    else if d <? i64 (d + m - r) then i64 (d + m - r) else 2 ^ 63 - 1.

(** The fraction [v / 10^prec] without trailing zeros, point included. *)
Fixpoint trim_zeros (s : bytes) : bytes :=
  match s with
  | [] => []
  | c :: s' => match trim_zeros s' with
               | [] => if bool_decide (c = digit 0) then [] else [c]
               | t => c :: t
               end
  end.
Definition fraction (prec : nat) (v : Z) : bytes :=
  match trim_zeros (pad prec (v mod 10 ^ Z.of_nat prec)) with
  | [] => []
  | t => str "." ++ t
  end.

Definition micro : bytes := [xc2; xb5].

(** [Duration.String]. *)
Definition format_duration (d : Z) : bytes :=
  let u := Z.abs d in
  let sign := if d <? 0 then str "-" else [] in
  let scaled (prec : nat) (unit : bytes) : bytes :=
    format_uint (u / 10 ^ Z.of_nat prec) ++ fraction prec u ++ unit in
  sign ++
  if u =? 0 then str "0s"
  else if u <? Microsecond then scaled 0%nat (str "ns")
  else if u <? Millisecond then scaled 3%nat (micro ++ str "s")
  else if u <? Second then scaled 6%nat (str "ms")
  else
    let secs := u / Second in
    let mins := secs / 60 in
    let hours := mins / 60 in
    (if 0 <? hours then format_uint hours ++ str "h" else []) ++
    (if 0 <? mins then format_uint (mins mod 60) ++ str "m" else []) ++
    format_uint (secs mod 60) ++ fraction 9 u ++ str "s".

(** ** Operations and errors *)

Definition hex_digit (d : Z) : byte := if d <? 10 then digit d else Z_byte (87 + d).

(** [%#x] of a byte. *)
Definition format_hex (b : byte) : bytes :=
  let v := byte_Z b in
  str "0x" ++ (if v <? 16 then [] else [hex_digit (v / 16)]) ++ [hex_digit (v mod 16)].

Definition op_names : list (Op * bytes) :=
  [(OpPing, str "PING"); (OpPut, str "PUT"); (OpGet, str "GET"); (OpDelete, str "DELETE");
   (OpRange, str "RANGE"); (OpBatchPut, str "BATCHPUT"); (OpStats, str "STATS");
   (OpInfo, str "INFO"); (OpCompact, str "COMPACT"); (OpReplicate, str "REPLICATE");
   (OpVote, str "VOTE"); (OpAnnounce, str "ANNOUNCE"); (OpPromote, str "PROMOTE")].

(** [Op.String]. *)
Definition op_string (o : Op) : bytes :=
  match find (fun p => bool_decide (p.1 = o)) op_names with
  | Some p => p.2
  | None => str "OP(" ++ format_hex o ++ str ")"
  end.

(** The messages of the engine's errors; [os_text] gives those that the
    operating system words, or that name a place in a file. *)
Definition engine_text (os_text : error -> bytes) (e : error) : bytes :=
  match e with
  | ErrKeyNotFound => str "engine: key not found"
  | ErrClosed => str "engine: store is closed"
  | ErrEmptyKey => str "engine: empty key"
  | ErrKeyTooLarge => str "engine: key too large"
  | ErrValueTooLong => str "engine: value too large"
  | ErrBatchLen => str "engine: batch key/value count mismatch"
  | ErrNeedFullSync => str "engine: log no longer covers that sequence, full sync required"
  | errFileGone => str "engine: data file was compacted away"
  | ErrRace => str "engine: read lost a race with compaction"
  | ErrSeqMismatch want got =>
      str "engine: index points at seq " ++ format_uint want ++ str " but disk holds " ++ format_uint got
  | ErrNoDir => str "engine: Dir is required"
  | _ => os_text e
  end.

(** The messages of the wire format's errors. *)
Definition proto_text (e : proto_error) : bytes :=
  match e with
  | ErrFrameTooLarge => str "proto: frame exceeds maximum size"
  | ErrMalformed => str "proto: malformed frame"
  | ErrTrailing n => str "proto: malformed frame: " ++ format_int n ++ str " trailing bytes"
  | Proto.ErrEOF => str "EOF"
  | ErrUnexpectedEOF => str "unexpected EOF"
  end.
