(* ===== verification/Node.v ===== *)
(** * Nodes (internal/node/node.go, with the streams of replication.go)

    The state of a cluster node, the writer of a connection, and what every
    handler is made of.  A handler works on the node and on the writer of its
    connection; the engine is called through [engine], which hands what the
    engine's observer was called with to [fanout], as the observer does inside
    the engine's write lock.

    The fields that the source guards with [n.mu] are one record,
    [membership].  A network call can fail: [wr_fails] says which calls of
    [WriteFrame] and [Flush] on a connection do. *)

From S2P Require Import Prelude Bytes Decimal Record Datafile Index Store Recovery Compact Proto Text.

Local Open Scope Z_scope.
Local Open Scope gokv_scope.

(** ** Configuration *)

Definition Role := Z.
Definition Follower : Role := 0.
Definition Leader : Role := 1.
Definition role_string (r : Role) : bytes := if r =? Leader then str "leader" else str "follower".

Record Config := mkConfig {
  c_ID : bytes;
  c_Addr : bytes;
  c_Dir : bytes;
  c_Peers : list bytes;
  c_Bootstrap : bool;
  c_Leader : bytes;
  c_Engine : Options;
  c_HeartbeatInterval : Z;
  c_ElectionTimeout : Z;
  c_MaxRangeResults : Z
}.

Definition or_default (s d : bytes) : bytes := match s with [] => d | _ => s end.

(** [Config.applyDefaults], the loggers apart. *)
Definition cfg_applyDefaults (c : Config) : Config :=
  let addr := or_default (c_Addr c) (str "127.0.0.1:7070") in
  let e := c_Engine c in
  mkConfig (or_default (c_ID c) addr) addr (c_Dir c) (c_Peers c) (c_Bootstrap c) (c_Leader c)
    (mkOptions (c_Dir c) (o_MaxFileSize e) (o_SyncMode e) (o_SyncEvery e)
       (o_CompactionThreshold e) (o_CompactionInterval e))
    (if c_HeartbeatInterval c <=? 0 then Second else c_HeartbeatInterval c)
    (if c_ElectionTimeout c <=? 0 then 5 * Second else c_ElectionTimeout c)
    (if c_MaxRangeResults c <=? 0 then 100000 else c_MaxRangeResults c).

(** ** Errors of a node *)

Inductive nerr :=
| EEngine (e : error)
| EProto (e : proto_error)
| ERemote (msg : bytes)   (* RemoteError *)
| EText (msg : bytes)     (* errors.New and fmt.Errorf *)
| ENet.                   (* a dial, a read or a write on a connection failed *)

(** ** State *)

(** The fields guarded by [n.mu]. *)
Record membership := mkMembership {
  m_role : Role;
  m_leaderAddr : bytes;
  m_epoch : Z;
  m_lastContact : Z;
  m_wasLeader : bool
}.

(** [replStream]: the queue of its channel, and whether [done] is closed. *)
Record replStream := mkStream { rs_ch : list bytes; rs_done : bool; rs_peer : bytes }.
Definition streamBuffer : Z := 4096.
Definition newReplStream (peer : bytes) : replStream := mkStream [] false peer.
Definition rs_close (s : replStream) : replStream := mkStream (rs_ch s) true (rs_peer s).

(** The writer of a connection: the payloads handed to it so far, and which of
    its next calls fail ([true]); after the list none does. *)
Record writer := mkWriter { wr_out : list bytes; wr_fails : list bool }.

(** A call on the connection. *)
Definition wr_call (w : writer) : result nerr unit * writer :=
  match wr_fails w with
  | [] => (Ok tt, w)
  | b :: l => (if b then Err ENet else Ok tt, mkWriter (wr_out w) l)
  end.

(** [Writer.WriteFrame] of a payload. *)
Definition wr_write (payload : bytes) (w : writer) : result nerr unit * writer :=
  match WriteFrame payload with
  | Err e => (Err (EProto e), w)
  | Ok _ => match wr_call w with
            | (Ok _, w') => (Ok tt, mkWriter (wr_out w' ++ [payload]) (wr_fails w'))
            | out => out
            end
  end.

(** What a handler reads of the clock and of the runtime. *)
Record moment := mkMoment { at_now : Z; at_goroutines : Z; at_heap : Z }.

Section node.
Context {I : Type} `{KeyIndex I}.

(** A stream's pointer and a connection are numbers.  [n_announcing] are the
    announcements whose goroutines have not run yet. *)
Record node := mkNode {
  n_cfg : Config;
  n_store : store I;
  n_mem : membership;
  n_streams : gmap Z replStream;
  n_nextStream : Z;
  n_ln : option bytes;
  n_conns : gset Z;
  n_nConns : Z;
  n_electing : bool;
  n_closing : bool;
  n_observer : Z;
  n_startedAt : Z;
  n_announcing : list (bytes * Z)
}.

Definition set_store (s : store I) (n : node) : node :=
  mkNode (n_cfg n) s (n_mem n) (n_streams n) (n_nextStream n) (n_ln n) (n_conns n) (n_nConns n)
    (n_electing n) (n_closing n) (n_observer n) (n_startedAt n) (n_announcing n).
Definition set_mem (m : membership) (n : node) : node :=
  mkNode (n_cfg n) (n_store n) m (n_streams n) (n_nextStream n) (n_ln n) (n_conns n) (n_nConns n)
    (n_electing n) (n_closing n) (n_observer n) (n_startedAt n) (n_announcing n).
Definition set_streams (ss : gmap Z replStream) (n : node) : node :=
  mkNode (n_cfg n) (n_store n) (n_mem n) ss (n_nextStream n) (n_ln n) (n_conns n) (n_nConns n)
    (n_electing n) (n_closing n) (n_observer n) (n_startedAt n) (n_announcing n).
Definition set_nextStream (i : Z) (n : node) : node :=
  mkNode (n_cfg n) (n_store n) (n_mem n) (n_streams n) i (n_ln n) (n_conns n) (n_nConns n)
    (n_electing n) (n_closing n) (n_observer n) (n_startedAt n) (n_announcing n).
Definition set_ln (l : option bytes) (n : node) : node :=
  mkNode (n_cfg n) (n_store n) (n_mem n) (n_streams n) (n_nextStream n) l (n_conns n) (n_nConns n)
    (n_electing n) (n_closing n) (n_observer n) (n_startedAt n) (n_announcing n).
Definition set_conns (c : gset Z) (k : Z) (n : node) : node :=
  mkNode (n_cfg n) (n_store n) (n_mem n) (n_streams n) (n_nextStream n) (n_ln n) c k
    (n_electing n) (n_closing n) (n_observer n) (n_startedAt n) (n_announcing n).
Definition set_electing (b : bool) (n : node) : node :=
  mkNode (n_cfg n) (n_store n) (n_mem n) (n_streams n) (n_nextStream n) (n_ln n) (n_conns n) (n_nConns n)
    b (n_closing n) (n_observer n) (n_startedAt n) (n_announcing n).
Definition set_closing (b : bool) (n : node) : node :=
  mkNode (n_cfg n) (n_store n) (n_mem n) (n_streams n) (n_nextStream n) (n_ln n) (n_conns n) (n_nConns n)
    (n_electing n) b (n_observer n) (n_startedAt n) (n_announcing n).
Definition set_announcing (l : list (bytes * Z)) (n : node) : node :=
  mkNode (n_cfg n) (n_store n) (n_mem n) (n_streams n) (n_nextStream n) (n_ln n) (n_conns n) (n_nConns n)
    (n_electing n) (n_closing n) (n_observer n) (n_startedAt n) l.

(** ** Life cycle *)

(** [New]: [now] is the start time, [pid] the process that takes the lock. *)
Definition New (cfg : Config) (pid now : Z) (w : world) : result error node * world :=
  let cfg := cfg_applyDefaults cfg in
  match Open (c_Engine cfg) pid w with
  | (Err e, w') => (Err e, w')
  | (Ok st, w') =>
      let mem := if c_Bootstrap cfg || (zlen (c_Peers cfg) <=? 1)
                 then mkMembership Leader (c_Addr cfg) 1 now false
                 else mkMembership Follower (c_Leader cfg) 1 now false in
      let obs := AddObserver st in
      (Ok (mkNode cfg obs.2 mem ∅ 0 None ∅ 0 false false obs.1 now []), w')
  end.

Definition Addr (n : node) : bytes :=
  match n_ln n with Some a => a | None => c_Addr (n_cfg n) end.
Definition node_Role (n : node) : Role := m_role (n_mem n).
Definition LeaderAddr (n : node) : bytes := m_leaderAddr (n_mem n).
Definition Epoch (n : node) : Z := m_epoch (n_mem n).

(** ** Streams *)

Definition addStream (s : replStream) (n : node) : Z * node :=
  let id := n_nextStream n in
  (id, set_streams (<[id := s]> (n_streams n)) (set_nextStream (id + 1) n)).

(** The stream is gone with its goroutine, so [close] needs no counterpart. *)
Definition removeStream (id : Z) (n : node) : node := set_streams (delete id (n_streams n)) n.

Definition closeAllStreams (n : node) : node := set_streams (rs_close <$> n_streams n) n.

(** A send that never blocks: a full buffer costs the follower its stream. *)
Definition offer (raw : bytes) (s : replStream) : replStream :=
  if zlen (rs_ch s) <? streamBuffer then mkStream (rs_ch s ++ [raw]) (rs_done s) (rs_peer s)
  else rs_close s.

Definition fanout (maxSeq : Z) (raw : bytes) (n : node) : node :=
  set_streams (offer raw <$> n_streams n) n.

(** Deliver the calls of the node's observer. *)
Definition dispatch (n : node) : node :=
  foldl (fun n note => if note.1.1 =? n_observer n then fanout note.1.2 note.2 n else n)
    (set_store (set_notes [] (n_store n)) n) (st_notes (n_store n)).

(** ** Connections *)

Definition trackConn (c : Z) (n : node) : bool * node :=
  if n_closing n then (false, n) else (true, set_conns ({[c]} ∪ n_conns n) (n_nConns n) n).
Definition untrackConn (c : Z) (n : node) : node := set_conns (n_conns n ∖ {[c]}) (n_nConns n) n.
Definition closeAllConns (n : node) : node := set_conns ∅ (n_nConns n) n.

(** [Start]: the address the listener got, or the failure to listen. *)
Definition Start (listened : result nerr bytes) (n : node) : result nerr unit * node :=
  match listened with
  | Err e => (Err e, set_store (Close (n_store n)).2 n)
  | Ok addr => (Ok tt, set_ln (Some addr) n)
  end.

(** [Close], from the point where the node's goroutines have ended. *)
Definition node_Close (n : node) : result error unit * node :=
  if n_closing n then (Ok tt, n)
  else
    let n := closeAllConns (closeAllStreams (set_closing true n)) in
    let out := Close (cancelObserver (n_observer n) (n_store n)) in
    (out.1, set_store out.2 n).

(** ** The pieces of a handler *)

Definition nio (A : Type) : Type := sm (node * writer) nerr A.

Definition get_node : nio node := fun nw => (Ok nw.1, nw).
Definition modify_node (f : node -> node) : nio unit := sm_modify (fun nw => (f nw.1, nw.2)).

Definition on_writer {A} (f : writer -> result nerr A * writer) : nio A := fun nw =>
  let out := f nw.2 in (out.1, (nw.1, out.2)).
Definition write_frame (payload : bytes) : nio unit := on_writer (wr_write payload).
Definition flush : nio unit := on_writer wr_call.

(** A call of the engine; its errors are values here. *)
Definition engine {A} (m : sto I A) : nio (result error A) := fun nw =>
  let out := m (n_store nw.1) in (Ok out.1, (dispatch (set_store out.2 nw.1), nw.2)).

Definition writeStatus (s : Status) : nio unit := write_frame [s].

Section text.
Variable os_text : error -> bytes.

Definition err_text (e : nerr) : bytes :=
  match e with
  | EEngine e => engine_text os_text e
  | EProto e => proto_text e
  | ERemote msg => str "remote: " ++ msg
  | EText msg => msg
  | ENet => os_text ErrIO
  end.

Definition writeError (e : nerr) : nio unit :=
  write_frame (Enc.Str (err_text e) (Enc.NewEnc StatusError));;; flush.

(** [if err := d.Done(); err != nil { return writeError(w, err) }] *)
Definition when_done (d : Dec) (k : nio unit) : nio unit :=
  match Decoder.Done d with
  | Some e => writeError (EProto e)
  | None => k
  end.
End text.
End node.

#[global] Arguments node : clear implicits.
#[global] Arguments nio : clear implicits.
