(* ===== verification/Election.v ===== *)
(** * Elections (internal/node/election.go)

    Votes, announcements and promotion.  A round trip to a peer is a parameter:
    [exchange addr req] is the frame the peer answers with, or the failure of
    the connection.  An election waits for its peers one after the other, and
    other goroutines of the node run meanwhile: [env i] is what they do during
    the [i]-th request, [clock i] the time after it. *)

From S2P Require Import Prelude Bytes Decimal Record Datafile Index Store Proto Text Node.

Local Open Scope Z_scope.
Local Open Scope gokv_scope.

Record voteReply := mkVoteReply {
  v_id : bytes;
  v_role : Role;
  v_epoch : Z;
  v_seq : Z;
  v_leaderAddr : bytes;
  v_leaderAlive : bool;
  v_responseFrom : bytes
}.

(** ** Requests *)

Definition vote_request (id : bytes) (mySeq : Z) : bytes :=
  Enc.U64 mySeq (Enc.Str id (Enc.NewEnc OpVote)).
Definition announce_request (addr id : bytes) (epoch : Z) : bytes :=
  Enc.U64 epoch (Enc.Str id (Enc.Str addr (Enc.NewEnc OpAnnounce))).

Definition errFromFrame (frame : bytes) : nerr :=
  ERemote (Decoder.Str (Decoder.NewDec (tail frame))).1.

Definition roundTrip (exchange : bytes -> bytes -> result nerr bytes) (addr req : bytes)
  : result nerr bytes :=
  match WriteFrame req with
  | Err e => Err (EProto e)
  | Ok _ =>
      match exchange addr req with
      | Err e => Err e
      | Ok [] => Err (EProto ErrMalformed)
      | Ok (st :: body) =>
          if bool_decide (st = StatusError) then Err (errFromFrame (st :: body))
          else Ok (st :: body)
      end
  end.

(** The body of a vote's answer. *)
Definition parse_vote (from frame : bytes) : result nerr voteReply :=
  let d := Decoder.NewDec (tail frame) in
  let (id, d) := Decoder.Str d in
  let (role, d) := Decoder.U8 d in
  let (epoch, d) := Decoder.U64 d in
  let (seq, d) := Decoder.U64 d in
  let (leaderAddr, d) := Decoder.Str d in
  let (alive, d) := Decoder.U8 d in
  match Decoder.Done d with
  | Some e => Err (EProto e)
  | None => Ok (mkVoteReply id (byte_Z role) epoch seq leaderAddr (bool_decide (alive = x01)) from)
  end.

Definition requestVote (exchange : bytes -> bytes -> result nerr bytes) (id addr : bytes) (mySeq : Z)
  : result nerr voteReply :=
  match roundTrip exchange addr (vote_request id mySeq) with
  | Err e => Err e
  | Ok frame => parse_vote addr frame
  end.

Section election.
Context {I : Type} `{KeyIndex I}.
Notation node := (node I).

Definition peersExceptSelf (n : node) : list bytes :=
  filter (fun p => p <> c_Addr (n_cfg n) /\ p <> []) (c_Peers (n_cfg n)).
Definition clusterSize (n : node) : Z := zlen (peersExceptSelf n) + 1.

(** ** Handlers *)

Section handlers.
Variable os_text : error -> bytes.

Definition handleVote (now : Z) (d : Dec) : nio I unit :=
  let (candidateID, d) := Decoder.Str d in
  let (candidateSeq, d) := Decoder.U64 d in
  when_done os_text d (
    n <- get_node;;
    let m := n_mem n in
    let alive := (m_role m =? Leader) || (now - m_lastContact m <=? c_ElectionTimeout (n_cfg n)) in
    let e := Enc.Str (c_ID (n_cfg n)) (Enc.NewEnc StatusOK) in
    let e := Enc.U8 (Z_byte (m_role m)) e in
    let e := Enc.U64 (m_epoch m) e in
    let e := Enc.U64 (Seq (n_store n)) e in
    let e := Enc.Str (m_leaderAddr m) e in
    write_frame (Enc.U8 (if alive then x01 else x00) e)).

(** What an announcement makes of the membership; [None] when it is ignored. *)
Definition heard (now : Z) (leaderAddr : bytes) (epoch : Z) (m : membership) : option membership :=
  if epoch <=? m_epoch m then None
  else Some (mkMembership Follower leaderAddr epoch now (m_wasLeader m || (m_role m =? Leader))).

Definition handleAnnounce (now : Z) (d : Dec) : nio I unit :=
  let (leaderAddr, d) := Decoder.Str d in
  let (leaderID, d) := Decoder.Str d in
  let (epoch, d) := Decoder.U64 d in
  when_done os_text d (
    modify_node (fun n =>
      match heard now leaderAddr epoch (n_mem n) with
      | None => n
      | Some m => if m_role (n_mem n) =? Leader then closeAllStreams (set_mem m n) else set_mem m n
      end);;;
    writeStatus StatusOK).
End handlers.

(** ** Promotion *)

Definition adoptLeader (now : Z) (addr : bytes) (epoch : Z) (n : node) : node :=
  let m := n_mem n in
  set_mem (mkMembership (m_role m) addr (if m_epoch m <? epoch then epoch else m_epoch m) now
             (m_wasLeader m)) n.

Definition promoteTo (now epoch : Z) (n : node) : node :=
  let m := n_mem n in
  if (m_role m =? Leader) && (epoch <=? m_epoch m) then n
  else
    let n := set_mem (mkMembership Leader (c_Addr (n_cfg n)) epoch now (m_wasLeader m)) n in
    set_announcing (n_announcing n ++ ((fun p => (p, epoch)) <$> peersExceptSelf n)) n.

Definition Promote (now : Z) (n : node) : node := promoteTo now (u64 (Epoch n + 1)) n.

(** The goroutine of one announcement; its answer is only logged. *)
Definition announceTo (exchange : bytes -> bytes -> result nerr bytes) (n : node) (addr : bytes) (epoch : Z)
  : result nerr bytes :=
  roundTrip exchange addr (announce_request (c_Addr (n_cfg n)) (c_ID (n_cfg n)) epoch).

(** ** An election *)

Record tally := mkTally { t_responses : Z; t_best : bool; t_epoch : Z }.

Section campaign.
Context (exchange : nat -> bytes -> bytes -> result nerr bytes).
Context (env : nat -> node -> node) (clock : nat -> Z).

(** What one answer does: [inl] the node when the election is over. *)
Definition count_vote (i : nat) (mySeq : Z) (p : bytes) (reply : voteReply) (t : tally) (n : node)
  : node + tally :=
  if (v_role reply =? Leader) && (t_epoch t <=? v_epoch reply)
  then inl (adoptLeader (clock i) p (v_epoch reply) n)
  else if v_leaderAlive reply && negb (bool_decide (v_leaderAddr reply = []))
  then inl (adoptLeader (clock i) (v_leaderAddr reply) (Z.max (v_epoch reply) (t_epoch t)) n)
  else
    let behind := (mySeq <? v_seq reply) ||
                  ((v_seq reply =? mySeq) && bytes_ltb (v_id reply) (c_ID (n_cfg n))) in
    inr (mkTally (t_responses t + 1) (t_best t && negb behind)
           (if t_epoch t <? v_epoch reply then v_epoch reply else t_epoch t)).

Fixpoint poll (i : nat) (mySeq : Z) (peers : list bytes) (t : tally) (n : node) : node * option tally :=
  match peers with
  | [] => (n, Some t)
  | p :: peers' =>
      let reply := requestVote (exchange i) (c_ID (n_cfg n)) p mySeq in
      let n := env i n in
      match reply with
      | Err _ => poll (S i) mySeq peers' t n
      | Ok r =>
          match count_vote i mySeq p r t n with
          | inl n' => (n', None)
          | inr t' => poll (S i) mySeq peers' t' n
          end
      end
  end.

Definition campaign (n : node) : node :=
  if (node_Role n =? Leader) || n_closing n then n
  else
    let peers := peersExceptSelf n in
    match poll 0 (Seq (n_store n)) peers (mkTally 1 true (Epoch n)) n with
    | (n', None) => n'
    | (n', Some t) =>
        if t_responses t * 2 <=? clusterSize n' then n'
        else if negb (t_best t) then n'
        else promoteTo (clock (length peers)) (u64 (t_epoch t + 1)) n'
    end.

Definition startElection (n : node) : node :=
  if n_electing n then n
  else set_electing false (campaign (set_electing true n)).
End campaign.
End election.
