(* ===== verification/Replication.v ===== *)
(** * Replication (internal/node/replication.go)

    The leader's side of a stream, from the greeting over the catch-up to the
    event loop, and the follower's, from the request to the handling of each
    frame; [followLoop]'s decisions.  The queue of a stream and [fanout] are
    part of the node's state. *)

From S2P Require Import Prelude Bytes Decimal Record Datafile Index Store Compact Proto Text Node.

Local Open Scope Z_scope.
Local Open Scope gokv_scope.

(** ** Frames *)

Definition heartbeat (epoch : Z) (addr : bytes) : bytes :=
  Enc.Str addr (Enc.U64 epoch (Enc.NewEnc StatusHeartbeat)).
Definition repl_data (raw : bytes) : bytes := Enc.Raw raw (Enc.NewEnc StatusReplData).
Definition replicate_request (from : Z) : bytes := Enc.U64 from (Enc.NewEnc OpReplicate).

(** [writeReplData]. *)
Definition wr_repl_data (raw : bytes) (w : writer) : result nerr unit * writer :=
  wr_write (repl_data raw) w.

Section leader.
Context {I : Type} `{KeyIndex I}.
Notation node := (node I).

Definition writeHeartbeat : nio I unit :=
  n <- get_node;;
  write_frame (heartbeat (Epoch n) (LeaderAddr n));;; flush.

(** The callback of a catch-up; a failed write stops the stream. *)
Definition ship (raw : bytes) (t : writer * option nerr) : result error unit * (writer * option nerr) :=
  match wr_repl_data raw t.1 with
  | (Ok _, w) => (Ok tt, (w, None))
  | (Err e, w) => (Err (ErrCallback 0), (w, Some e))
  end.

(** The error of a stream: the write that failed, or the engine's. *)
Definition stream_error (x : error) (e : option nerr) : nerr :=
  match e with Some e => e | None => EEngine x end.

(** [others] is what the rest of the program does while the store is read; its
    writers call the observer.  [fuel] bounds the chunks of a snapshot. *)
Definition send_snapshot (others : stream_point -> store I -> store I) (fuel : nat) : nio I unit := fun nw =>
  match SnapshotRecords ship others fuel (nw.2, None) (n_store nw.1) with
  | ((Ok _, t), s) => (Ok tt, (dispatch (set_store s nw.1), t.1))
  | ((Err x, t), s) => (Err (stream_error x t.2), (dispatch (set_store s nw.1), t.1))
  end.

Definition catchUp (others : stream_point -> store I -> store I) (fuel : nat) (fromSeq : Z) : nio I unit :=
  let full := writeStatus StatusFullSync;;; send_snapshot others fuel;;; flush in
  if fromSeq =? 0 then full
  else fun nw =>
    match RecordsSince ship others fromSeq (nw.2, None) (n_store nw.1) with
    | ((Ok _, t), s) => flush (dispatch (set_store s nw.1), t.1)
    | ((Err x, t), s) =>
        let nw := (dispatch (set_store s nw.1), t.1) in
        if bool_decide (x = ErrNeedFullSync) then full nw
        else (Err (stream_error x t.2), nw)
    end.

(** [serveReplication] up to its event loop: the stream's pointer, or [None]
    when the node is not the leader.  [env] is what other goroutines do between
    attaching the stream and reading the log, and after that. *)
Definition attach (env : nat -> node -> node) (others : stream_point -> store I -> store I)
  (fuel : nat) (peer : bytes) (fromSeq : Z) : nio I (option Z) :=
  n <- get_node;;
  if negb (node_Role n =? Leader) then
    sm_ignore (write_frame (Enc.Str (LeaderAddr n) (Enc.NewEnc StatusRedirect)));;;
    sm_ignore flush;;;
    sm_ret None
  else
    id <- (fun nw => let out := addStream (newReplStream peer) nw.1 in (Ok out.1, (out.2, nw.2)));;
    sm_catch
      (modify_node (env 0%nat);;;
       writeHeartbeat;;;
       catchUp others fuel fromSeq;;;
       modify_node (env 1%nat);;;
       writeStatus StatusLive;;;
       flush;;;
       sm_ret (Some id))
      (fun e => modify_node (removeStream id);;; sm_throw e).

(** The event loop: what it is woken by. *)
Inductive stream_event := EvStop | EvDone | EvData | EvTick.

(** Take up to [k] queued records and send them. *)
Fixpoint drain (k : nat) (id : Z) : nio I unit :=
  match k with
  | O => sm_ret tt
  | Datatypes.S k' =>
      n <- get_node;;
      match n_streams n !! id with
      | Some (mkStream (raw :: ch) dn peer) =>
          modify_node (fun n => set_streams (<[id := mkStream ch dn peer]> (n_streams n)) n);;;
          on_writer (wr_repl_data raw);;;
          drain k' id
      | _ => sm_ret tt
      end
  end.

(** One turn of the loop; [false] ends it. *)
Definition stream_turn (id : Z) (ev : stream_event) : nio I bool :=
  match ev with
  | EvStop | EvDone => sm_ret false
  | EvData => drain 257 id;;; flush;;; sm_ret true
  | EvTick => writeHeartbeat;;; sm_ret true
  end.

(** The loop over the events that happen, then the detaching. *)
Fixpoint stream_loop (id : Z) (evs : list stream_event) : nio I unit :=
  match evs with
  | [] => sm_ret tt
  | ev :: evs' =>
      more <- sm_catch (stream_turn id ev) (fun e => modify_node (removeStream id);;; sm_throw e);;
      if more then stream_loop id evs' else modify_node (removeStream id)
  end.
End leader.

(** ** The follower's side *)

Section follower.
Context {I : Type} `{KeyIndex I}.
Notation node := (node I).

Definition adoptEpoch (addr : bytes) (epoch : Z) (n : node) : node :=
  let m := n_mem n in
  if (m_epoch m <=? epoch) && (m_role m =? Follower)
  then set_mem (mkMembership (m_role m) (or_default addr (m_leaderAddr m)) epoch (m_lastContact m)
                  (m_wasLeader m)) n
  else n.

Definition setLastContact (now : Z) (n : node) : node :=
  let m := n_mem n in
  set_mem (mkMembership (m_role m) (m_leaderAddr m) (m_epoch m) now (m_wasLeader m)) n.
Definition sinceLastContact (now : Z) (n : node) : Z := now - m_lastContact (n_mem n).

Definition set_leaderAddr (addr : bytes) (n : node) : node :=
  let m := n_mem n in
  set_mem (mkMembership (m_role m) addr (m_epoch m) (m_lastContact m) (m_wasLeader m)) n.

(** How long the next frame may take. *)
Definition catchUpIdle : Z := 60 * Second.
Definition read_deadline (cfg : Config) (greeted caughtUp : bool) : Z :=
  if greeted && negb caughtUp then catchUpIdle
  else Z.max (3 * c_HeartbeatInterval cfg) Second.

(** The node and [caughtUp]. *)
Notation fio := (sm (node * bool) nerr).
Definition on_store {A} (m : sto I A) : fio A := fun nc =>
  let out := m (n_store nc.1) in
  (match out.1 with Ok a => Ok a | Err e => Err (EEngine e) end,
   (dispatch (set_store out.2 nc.1), nc.2)).
Definition on_node (f : node -> node) : fio unit := sm_modify (fun nc => (f nc.1, nc.2)).
Definition set_caughtUp : fio unit := sm_modify (fun nc => (nc.1, true)).

(** One frame of the stream from [addr]. *)
Definition on_frame (addr : bytes) (now : Z) (frame : bytes) : fio unit :=
  match frame with
  | [] => sm_throw (EText (str "empty frame from leader"))
  | st :: body =>
      on_node (setLastContact now);;;
      let d := Decoder.NewDec body in
      if bool_decide (st = StatusLive) then set_caughtUp
      else if bool_decide (st = StatusHeartbeat) then
        set_caughtUp;;;
        let (leaderEpoch, d) := Decoder.U64 d in
        let (leaderAddr, d) := Decoder.Str d in
        match Decoder.Err d with
        | None => on_node (adoptEpoch leaderAddr leaderEpoch)
        | Some _ => sm_ret tt
        end
      else if bool_decide (st = StatusFullSync) then on_store Reset
      else if bool_decide (st = StatusReplData) then on_store (ApplyRaw body);;; sm_ret tt
      else if bool_decide (st = StatusRedirect) then
        let newLeader := (Decoder.Str d).1 in
        sm_when (negb (bool_decide (newLeader = [])) && negb (bool_decide (newLeader = addr)))
          (on_node (set_leaderAddr newLeader));;;
        sm_throw (EText (str "peer is not the leader"))
      else if bool_decide (st = StatusError) then
        sm_throw (EText (str "leader: " ++ (Decoder.Str d).1))
      else sm_throw (EText (str "unexpected frame on the replication stream"))
  end.

(** The frames that arrive, with their times, until the connection ends. *)
Fixpoint follow (addr : bytes) (frames : list (Z * bytes)) : fio unit :=
  match frames with
  | [] => sm_ret tt
  | (now, frame) :: frames' => on_frame addr now frame;;; follow addr frames'
  end.

(** How a connection to the leader goes: it cannot be made, or the request for
    a position cannot be sent ([None]), or frames arrive and then an error. *)
Inductive session :=
| NoDial
| Dialled (serve : Z -> option (list (Z * bytes) * nerr)).

(** The position to ask for; a former leader starts over. *)
Definition resume_from (n : node) : Z * node :=
  let m := n_mem n in
  (if m_wasLeader m then 0 else Seq (n_store n),
   set_mem (mkMembership (m_role m) (m_leaderAddr m) (m_epoch m) (m_lastContact m) false) n).

Definition replicateFrom (addr : bytes) (conn : session) (n : node) : result nerr unit * node :=
  match conn with
  | NoDial => (Err ENet, n)
  | Dialled serve =>
      let (from, n) := resume_from n in
      match serve from with
      | None => (Err ENet, n)
      | Some (frames, ending) =>
          match follow addr frames (n, false) with
          | (Ok _, nc) => (Err ending, nc.1)
          | (Err e, nc) => (Err e, nc.1)
          end
      end
  end.

(** One turn of [followLoop] ([stop] apart): the time to sleep, the next
    backoff and the node.  [stream] and [elect] are the session with the leader
    and the election of this turn, [t0] and [t1] the times of the two checks. *)
Definition follow_turn (stream : bytes -> node -> result nerr unit * node) (elect : node -> node)
  (t0 t1 backoff : Z) (n : node) : (Z * Z) * node :=
  let leader := LeaderAddr n in
  let timeout := c_ElectionTimeout (n_cfg n) in
  if node_Role n =? Leader then ((200 * Millisecond, backoff), n)
  else if bool_decide (leader = []) || bool_decide (leader = c_Addr (n_cfg n)) then
    ((200 * Millisecond, backoff),
     if timeout <? sinceLastContact t0 n then elect n else n)
  else
    let n := (stream leader n).2 in
    if (node_Role n =? Follower) && (timeout <? sinceLastContact t1 n)
    then ((100 * Millisecond, 100 * Millisecond), elect n)
    else let b := Z.min (backoff * 2) (2 * Second) in ((b, b), n).
End follower.
