(* ===== verification/Server.v ===== *)
(** * The server (internal/node/node.go)

    What a node does with each request of a connection. *)

From S2P Require Import Prelude Bytes Decimal Record Datafile Index Store Compact Proto Text Node.
From S2P Require Import Election Replication.

Local Open Scope Z_scope.
Local Open Scope gokv_scope.

(** ** Name and value lists *)

Definition encodePairs (pairs : list (bytes * bytes)) : bytes :=
  foldl (fun e p => Enc.Str p.2 (Enc.Str p.1 e))
    (Enc.U32 (u32 (zlen pairs)) (Enc.NewEnc StatusOK)) pairs.

(** [fmt.Sprint] of a list of strings. *)
Fixpoint join_spaces (l : list bytes) : bytes :=
  match l with
  | [] => []
  | [x] => x
  | x :: l' => x ++ str " " ++ join_spaces l'
  end.
Definition sprint_list (l : list bytes) : bytes := str "[" ++ join_spaces l ++ str "]".

Definition contactAge (role : Role) (last now : Z) : bytes :=
  if role =? Leader then str "-" else format_duration (Round (now - last) Millisecond).

Section server.
Context {I : Type} `{KeyIndex I}.
Notation node := (node I).

Definition statPairs (at_ : moment) (n : node) : list (bytes * bytes) :=
  let s := Stats (n_store n) in
  [(str "keys", format_int (ss_Keys s)); (str "tombstones", format_int (ss_Tombstones s));
   (str "files", format_int (ss_Files s)); (str "live_bytes", format_int (ss_LiveBytes s));
   (str "dead_bytes", format_int (ss_DeadBytes s));
   (str "reclaimable", format_float3 (ss_Reclaimable s));
   (str "compacting", format_bool (ss_Compacting s)); (str "seq", format_uint (ss_Seq s));
   (str "puts", format_uint (ss_Puts s)); (str "gets", format_uint (ss_Gets s));
   (str "deletes", format_uint (ss_Deletes s)); (str "scans", format_uint (ss_Scans s));
   (str "misses", format_uint (ss_Misses s)); (str "connections", format_int (n_nConns n));
   (str "goroutines", format_int (at_goroutines at_)); (str "heap_bytes", format_uint (at_heap at_));
   (str "uptime", format_duration (Round (at_now at_ - n_startedAt n) Second))].

Definition infoPairs (now : Z) (n : node) : list (bytes * bytes) :=
  let m := n_mem n in
  [(str "id", c_ID (n_cfg n)); (str "addr", Addr n); (str "role", role_string (m_role m));
   (str "leader", m_leaderAddr m); (str "epoch", format_uint (m_epoch m));
   (str "seq", format_uint (Seq (n_store n))); (str "keys", format_int (Len (n_store n)));
   (str "followers", format_int (zlen (map_to_list (n_streams n))));
   (str "last_leader_contact", contactAge (m_role m) (m_lastContact m) now);
   (str "peers", sprint_list (c_Peers (n_cfg n)))].

(** ** Range queries *)

Definition rangeChunkBytes : Z := Z.shiftl 256 10.

(** The callback's variables: the open chunk, the total, the writer and the
    write that failed. *)
Record ranging := mkRanging {
  rg_chunk : bytes; rg_total : Z; rg_w : writer; rg_sendErr : option nerr
}.

Definition range_pair (k v : bytes) (t : ranging) : result error unit * ranging :=
  let chunk := Enc.Bytes v (Enc.Bytes k (rg_chunk t)) in
  let total := u64 (rg_total t + 1) in
  if rangeChunkBytes <=? zlen chunk then
    match wr_write chunk (rg_w t) with
    | (Err e, w) => (Err (ErrCallback 0), mkRanging chunk total w (Some e))
    | (Ok _, w) =>
        match wr_call w with
        | (Err e, w) => (Err (ErrCallback 0), mkRanging chunk total w (Some e))
        | (Ok _, w) => (Ok tt, mkRanging (Enc.NewEnc StatusRangeChunk) total w None)
        end
    end
  else (Ok tt, mkRanging chunk total (rg_w t) None).

Section handlers.
Variable os_text : error -> bytes.
Notation writeError := (writeError os_text).
Notation when_done := (when_done os_text).

Definition serveRange (start end_ : bytes) (limit : Z) : nio I unit :=
  n <- get_node;;
  let max := c_MaxRangeResults (n_cfg n) in
  let limit := if (limit <=? 0) || (max <? limit) then max else limit in
  out <- (fun nw =>
    let out := Scan range_pair limit start end_
                 (mkRanging (Enc.NewEnc StatusRangeChunk) 0 nw.2 None) (n_store nw.1) in
    (Ok out.1, (set_store out.2 nw.1, rg_w out.1.2)));;
  match rg_sendErr out.2, out.1 with
  | Some e, _ => sm_throw e
  | None, Err e => writeError (EEngine e)
  | None, Ok _ =>
      sm_when (1 <? zlen (rg_chunk out.2)) (write_frame (rg_chunk out.2));;;
      write_frame (Enc.U64 (rg_total out.2) (Enc.NewEnc StatusRangeEnd))
  end.

(** ** The cases of [handle] *)

(** [redirectIfNotLeader]: writes only go on at the leader. *)
Definition at_leader (k : nio I unit) : nio I unit :=
  n <- get_node;;
  if node_Role n =? Leader then k
  else write_frame (Enc.Str (LeaderAddr n) (Enc.NewEnc StatusRedirect)).

Definition handleGet (d : Dec) : nio I unit :=
  let (key, d) := Decoder.Bytes d in
  when_done d (
    r <- engine (Get (fun _ s => s) key);;
    match r with
    | Err e => if bool_decide (e = ErrKeyNotFound) then writeStatus StatusNotFound
               else writeError (EEngine e)
    | Ok v => write_frame (Enc.Bytes v (Enc.NewEnc StatusOK))
    end).

(** A put or a batch that is to be applied here. *)
Definition apply_write (m : sto I unit) : nio I unit :=
  r <- engine m;;
  match r with
  | Err e => writeError (EEngine e)
  | Ok _ => writeStatus StatusOK
  end.

Definition handlePut (now : Z) (d : Dec) : nio I unit :=
  let (key, d) := Decoder.Bytes d in
  let (val, d) := Decoder.Bytes d in
  when_done d (at_leader (apply_write (Put now key val))).

Definition apply_delete (m : sto I unit) : nio I unit :=
  r <- engine m;;
  match r with
  | Err e => if bool_decide (e = ErrKeyNotFound) then writeStatus StatusNotFound
             else writeError (EEngine e)
  | Ok _ => writeStatus StatusOK
  end.

Definition handleDelete (now : Z) (d : Dec) : nio I unit :=
  let (key, d) := Decoder.Bytes d in
  when_done d (at_leader (apply_delete (Delete now key))).

(** The pairs of a batch, or the error that stopped the decoding. *)
Fixpoint batch_pairs (count : nat) (d : Dec) (keys vals : list bytes)
  : result proto_error ((list bytes * list bytes) * Dec) :=
  match count with
  | O => Ok ((keys, vals), d)
  | Datatypes.S count' =>
      let (k, d) := Decoder.Bytes d in
      let (v, d) := Decoder.Bytes d in
      match Decoder.Err d with
      | Some e => Err e
      | None => batch_pairs count' d (keys ++ [k]) (vals ++ [v])
      end
  end.

Definition batch_count_text (count remaining : Z) : bytes :=
  str "batch count " ++ format_int count ++ str " does not fit in " ++ format_int remaining ++
  str " remaining bytes".

Definition handleBatchPut (now : Z) (d : Dec) : nio I unit :=
  let (count, d) := Decoder.U32 d in
  match Decoder.Err d with
  | Some e => writeError (EProto e)
  | None =>
      if (count <? 0) || (Decoder.Remaining d / 8 <? count)
      then writeError (EText (batch_count_text count (Decoder.Remaining d)))
      else match batch_pairs (Z.to_nat count) d [] [] with
           | Err e => writeError (EProto e)
           | Ok (kvs, d) =>
               when_done d (at_leader (apply_write (BatchPut now kvs.1 kvs.2)))
           end
  end.

Definition handleRange (d : Dec) : nio I unit :=
  let (start, d) := Decoder.Bytes d in
  let (end_, d) := Decoder.Bytes d in
  let (limit, d) := Decoder.U32 d in
  when_done d (serveRange start end_ limit).

Definition handleCompact (at_ : moment) (d : Dec) : nio I unit :=
  when_done d (
    started <- (fun nw => let out := StartCompaction (n_store nw.1) in
                          (Ok out.1, (set_store out.2 nw.1, nw.2)));;
    n <- get_node;;
    write_frame (encodePairs
      ((str "compaction", if started then str "started" else str "already running") ::
       statPairs at_ n))).

(** [handle]. *)
Definition handle (at_ : moment) (op : Op) (d : Dec) : nio I unit :=
  let now := at_now at_ in
  if bool_decide (op = OpPing) then writeStatus StatusOK
  else if bool_decide (op = OpGet) then handleGet d
  else if bool_decide (op = OpPut) then handlePut now d
  else if bool_decide (op = OpDelete) then handleDelete now d
  else if bool_decide (op = OpBatchPut) then handleBatchPut now d
  else if bool_decide (op = OpRange) then handleRange d
  else if bool_decide (op = OpStats) then
    n <- get_node;; write_frame (encodePairs (statPairs at_ n))
  else if bool_decide (op = OpInfo) then
    n <- get_node;; write_frame (encodePairs (infoPairs now n))
  else if bool_decide (op = OpCompact) then handleCompact at_ d
  else if bool_decide (op = OpVote) then handleVote os_text now d
  else if bool_decide (op = OpAnnounce) then handleAnnounce os_text now d
  else if bool_decide (op = OpPromote) then
    when_done d (modify_node (Promote now);;; writeStatus StatusOK)
  else writeError (EText (str "unknown opcode " ++ op_string op)).

(** ** A connection *)

(** One turn of [serveConn]: [Some r] when the connection is handed over to a
    replication stream from position [r]; an error ends it. *)
Definition serve_frame (at_ : moment) (frame : bytes) : nio I (option Z) :=
  match frame with
  | [] => sm_throw (EText [])
  | op :: body =>
      let d := Decoder.NewDec body in
      if bool_decide (op = OpReplicate) then
        let (fromSeq, d) := Decoder.U64 d in
        match Decoder.Done d with
        | Some e => writeError (EProto e);;; sm_throw (EProto e)
        | None => sm_ret (Some fromSeq)
        end
      else handle at_ op d;;; flush;;; sm_ret None
  end.

(** The requests of a connection, until it fails, closes or becomes a stream. *)
Fixpoint serveConn (frames : list (moment * bytes)) : nio I (option Z) :=
  match frames with
  | [] => sm_ret None
  | (at_, frame) :: frames' =>
      n <- get_node;;
      if n_closing n then sm_ret None
      else
        r <- serve_frame at_ frame;;
        match r with
        | Some fromSeq => sm_ret (Some fromSeq)
        | None => serveConn frames'
        end
  end.
End handlers.
End server.
