(* ===== verification/Client.v ===== *)
(** * The client (client/client.go)

    A client works through one connection at a time.  The network is an
    interface: dialling an address, delivering a request and hanging up.  What
    a delivered request brings back is the bytes that arrive on the connection
    until it ends, breaks or runs into its deadline; [ErrEOF] and
    [ErrUnexpectedEOF] stand for the error a read meets then.  Sleeping and the
    setting of deadlines have no definition: time is the network's. *)

From S2P Require Import Prelude Bytes Decimal Record Datafile Proto Text.

Local Open Scope Z_scope.
Local Open Scope gokv_scope.

(** ** Requests *)

Definition ping_request : bytes := [OpPing].
Definition get_request (key : bytes) : bytes := Enc.Bytes key (Enc.NewEnc OpGet).
Definition put_request (key value : bytes) : bytes :=
  Enc.Bytes value (Enc.Bytes key (Enc.NewEnc OpPut)).
Definition delete_request (key : bytes) : bytes := Enc.Bytes key (Enc.NewEnc OpDelete).
Definition batch_request (keys values : list bytes) : bytes :=
  foldl (fun e p => Enc.Bytes p.2 (Enc.Bytes p.1 e))
    (Enc.U32 (u32 (zlen keys)) (Enc.NewEnc OpBatchPut)) (zip keys values).
Definition range_request (startKey endKey : bytes) (limit : Z) : bytes :=
  Enc.U32 (u32 (Z.max limit 0)) (Enc.Bytes endKey (Enc.Bytes startKey (Enc.NewEnc OpRange))).

(** ** Errors, options, state *)

Inductive cerr :=
| CKeyNotFound                (* ErrKeyNotFound *)
| CNoNodes                    (* ErrNoNodes *)
| CNoNodesAfter (e : cerr)    (* ErrNoNodes, wrapped around the last failure *)
| CClosed                     (* ErrClosed *)
| CRemote (msg : bytes)       (* RemoteError *)
| CText (msg : bytes)         (* errors.New and fmt.Errorf *)
| CProto (e : proto_error)
| CNet                        (* a dial or a write failed *)
| CCallback (n : Z).          (* an error of the caller's function *)

(** [Error()]; [sys] words what the network or the caller's function reports. *)
Fixpoint cerr_text (sys : cerr -> bytes) (e : cerr) : bytes :=
  match e with
  | CKeyNotFound => str "gokv: key not found"
  | CNoNodes => str "gokv: no reachable node"
  | CNoNodesAfter e => str "gokv: no reachable node: " ++ cerr_text sys e
  | CClosed => str "gokv: client is closed"
  | CRemote msg => str "gokv: " ++ msg
  | CText msg => msg
  | CProto e => proto_text e
  | CNet | CCallback _ => sys e
  end.

Record ClientOptions := mkClientOptions { o_Timeout : Z; o_MaxAttempts : Z }.

(** [cl_conn]: the bytes that have arrived on the open connection and are still
    unread, [None] where there is no connection. *)
Record client := mkClient {
  cl_addrs : list bytes;
  cl_opts : ClientOptions;
  cl_conn : option bytes;
  cl_current : bytes;
  cl_next : Z;
  cl_closed : bool;
  cl_poisoned : bool
}.

Definition set_conn (i : option bytes) (addr : bytes) (c : client) : client :=
  mkClient (cl_addrs c) (cl_opts c) i addr (cl_next c) (cl_closed c) (cl_poisoned c).
Definition set_cursor (k : Z) (c : client) : client :=
  mkClient (cl_addrs c) (cl_opts c) (cl_conn c) (cl_current c) k (cl_closed c) (cl_poisoned c).
Definition cl_set_closed (c : client) : client :=
  mkClient (cl_addrs c) (cl_opts c) (cl_conn c) (cl_current c) (cl_next c) true (cl_poisoned c).
Definition set_poisoned (b : bool) (c : client) : client :=
  mkClient (cl_addrs c) (cl_opts c) (cl_conn c) (cl_current c) (cl_next c) (cl_closed c) b.

Definition client_New (addrs : list bytes) (opts : ClientOptions) : result cerr client :=
  match addrs with
  | [] => Err CNoNodes
  | _ =>
      let timeout := if o_Timeout opts <=? 0 then 10 * Second else o_Timeout opts in
      let attempts := if o_MaxAttempts opts <=? 0 then 2 * zlen addrs + 2 else o_MaxAttempts opts in
      Ok (mkClient addrs (mkClientOptions timeout attempts) None [] 0 false false)
  end.

(** ** The network *)

Class Network (N : Type) := {
  dial : bytes -> N -> result cerr unit * N;
  deliver : bytes -> bytes -> N -> result cerr bytes * N;
  hangup : bytes -> N -> result cerr unit * N
}.

Section client.
Context {N : Type} `{Network N}.

(** A method runs on the client, the network and the variable its reply
    handler fills. *)
Definition cio (T A : Type) : Type := sm ((client * N) * T) cerr A.

Section methods.
Context {T : Type}.

Definition get_client : cio T client := fun s => (Ok s.1.1, s).
Definition mod_client (f : client -> client) : cio T unit :=
  sm_modify (fun s => ((f s.1.1, s.1.2), s.2)).
Definition on_net {A} (f : N -> result cerr A * N) : cio T A := fun s =>
  let out := f s.1.2 in (out.1, ((s.1.1, out.2), s.2)).
Definition get_var : cio T T := fun s => (Ok s.2, s).
Definition set_var (t : T) : cio T unit := sm_modify (fun s => (s.1, t)).
(** A caller's function: it sees the variable only. *)
Definition on_var (f : T -> result cerr unit * T) : cio T unit := fun s =>
  let out := f s.2 in (out.1, (s.1, out.2)).
(** The outcome as a value. *)
Definition attempt {A} (m : cio T A) : cio T (result cerr A) := fun s =>
  let out := m s in (Ok out.1, out.2).

(** ** Connections *)

Definition dropLocked : cio T unit :=
  c <- get_client;;
  match cl_conn c with
  | None => sm_ret tt
  | Some _ =>
      r <- attempt (on_net (hangup (cl_current c)));;
      mod_client (set_conn None []);;;
      match r with Ok _ => sm_ret tt | Err e => sm_throw e end
  end.

Definition client_Close : cio T unit := mod_client cl_set_closed;;; dropLocked.

Definition candidates (prefer : bytes) (c : client) : list bytes :=
  (match prefer with [] => [] | _ => [prefer] end) ++
  ((fun i => nth (Z.to_nat (Z.rem (cl_next c + Z.of_nat i) (zlen (cl_addrs c)))) (cl_addrs c) [])
     <$> seq 0 (length (cl_addrs c))).

Definition bump : cio T unit := mod_client (fun c => set_cursor (cl_next c + 1) c).

Fixpoint dial_any (addrs : list bytes) (lastErr : option cerr) : cio T unit :=
  match addrs with
  | [] => sm_throw (CNoNodesAfter (default CNoNodes lastErr))
  | addr :: addrs' =>
      r <- attempt (on_net (dial addr));;
      match r with
      | Err e => bump;;; dial_any addrs' (Some e)
      | Ok _ => mod_client (set_conn (Some []) addr)
      end
  end.

Definition connectLocked (prefer : bytes) : cio T unit :=
  c <- get_client;;
  if bool_decide (is_Some (cl_conn c)) && (bool_decide (prefer = []) || bool_decide (prefer = cl_current c))
  then sm_ret tt
  else
    sm_ignore dropLocked;;;
    c <- get_client;;
    dial_any (candidates prefer c) None.

(** ** One request *)

(** [c.r.ReadFrame()] *)
Definition next_frame : cio T bytes :=
  c <- get_client;;
  match ReadFrame (default [] (cl_conn c)) with
  | Err e => sm_throw (CProto e)
  | Ok (frame, rest) => mod_client (set_conn (Some rest) (cl_current c));;; sm_ret frame
  end.

(** [c.w.WriteFrame(req)] and [c.w.Flush()]: either failure is met alike. *)
Definition send_frame (req : bytes) : cio T unit :=
  c <- get_client;;
  match WriteFrame req with
  | Err e => sm_throw (CProto e)
  | Ok wire =>
      input <- on_net (deliver (cl_current c) wire);;
      mod_client (set_conn (Some (default [] (cl_conn c) ++ input)) (cl_current c))
  end.

Definition client_exchange (req : bytes) : cio T bytes :=
  send_frame req;;;
  frame <- next_frame;;
  match frame with
  | [] => sm_throw (CProto ErrMalformed)
  | _ => sm_ret frame
  end.

Definition status_of (frame : bytes) : Status := default x00 (head frame).

(** What a handler leaves behind: a connection it gave up is dropped. *)
Definition drop_poisoned : cio T unit :=
  c <- get_client;;
  sm_when (cl_poisoned c) (sm_ignore dropLocked;;; mod_client (set_poisoned false)).

Definition no_leader_text : bytes := str "gokv: node has no leader yet".

(** The loop of [call], with the attempts that are left. *)
Fixpoint call_attempts (attempts : nat) (req : bytes) (handler : bytes -> cio T unit)
  (prefer : bytes) (lastErr : option cerr) : cio T unit :=
  match attempts with
  | O => sm_throw (default CNoNodes lastErr)
  | S attempts' =>
      connectLocked prefer;;;
      r <- attempt (client_exchange req);;
      match r with
      | Err e => sm_ignore dropLocked;;; bump;;; call_attempts attempts' req handler [] (Some e)
      | Ok frame =>
          if bool_decide (status_of frame = StatusRedirect) then
            let leader := (Decoder.Str (Decoder.NewDec (tail frame))).1 in
            c <- get_client;;
            if bool_decide (leader = []) || bool_decide (leader = cl_current c) then
              sm_ignore dropLocked;;; bump;;;
              call_attempts attempts' req handler [] (Some (CText no_leader_text))
            else call_attempts attempts' req handler leader lastErr
          else if bool_decide (status_of frame = StatusError) then
            sm_throw (CRemote (Decoder.Str (Decoder.NewDec (tail frame))).1)
          else
            r <- attempt (handler frame);;
            drop_poisoned;;;
            match r with Ok _ => sm_ret tt | Err e => sm_throw e end
      end
  end.

Definition call (req : bytes) (handler : bytes -> cio T unit) : cio T unit :=
  c <- get_client;;
  if cl_closed c then sm_throw CClosed
  else call_attempts (Z.to_nat (o_MaxAttempts (cl_opts c))) req handler [] None.

(** ** Replies *)

Definition unexpected_text (st : Status) (where_ : bytes) : bytes :=
  str "gokv: unexpected status " ++ format_hex st ++ where_.

Definition expect_ok (name : bytes) (first : bytes) : cio T unit :=
  if bool_decide (status_of first = StatusOK) then sm_ret tt
  else sm_throw (CText (unexpected_text (status_of first) (str " for " ++ name))).

Definition expect_found (first : bytes) : cio T unit :=
  if bool_decide (status_of first = StatusNotFound) then sm_throw CKeyNotFound else sm_ret tt.

Definition any_reply (first : bytes) : cio T unit := sm_ret tt.

Definition poison : cio T unit := mod_client (set_poisoned true).

(** ** Range replies *)

(** The pairs of one chunk, handed to [fn] one by one.  Every turn consumes at
    least the two length prefixes, so that the body's length is fuel enough. *)
Fixpoint chunk_pairs (fuel : nat) (fn : bytes -> bytes -> T -> result cerr unit * T) (d : Dec) : cio T unit :=
  match fuel with
  | O => sm_ret tt
  | S fuel' =>
      match Decoder.Err d with
      | Some e => poison;;; sm_throw (CProto e)
      | None =>
          if Decoder.Empty d then sm_ret tt
          else
            let (k, d) := Decoder.Bytes d in
            let (v, d) := Decoder.Bytes d in
            match Decoder.Err d with
            | Some e => poison;;; sm_throw (CProto e)
            | None =>
                r <- attempt (on_var (fn k v));;
                match r with
                | Err e => poison;;; sm_throw e
                | Ok _ => chunk_pairs fuel' fn d
                end
            end
      end
  end.

(** The frames of a range reply.  Every turn reads a frame off the unread
    bytes, so that their number is fuel enough. *)
Fixpoint range_frames (fuel : nat) (fn : bytes -> bytes -> T -> result cerr unit * T) (frame : bytes) : cio T unit :=
  match fuel with
  | O => sm_ret tt
  | S fuel' =>
      let st := status_of frame in
      if bool_decide (st = StatusRangeEnd) then sm_ret tt
      else if bool_decide (st = StatusRangeChunk) then
        chunk_pairs (S (length frame)) fn (Decoder.NewDec (tail frame));;;
        r <- attempt next_frame;;
        match r with
        | Err e => poison;;; sm_throw e
        | Ok [] => poison;;; sm_throw (CProto ErrMalformed)
        | Ok frame => range_frames fuel' fn frame
        end
      else if bool_decide (st = StatusError) then
        sm_throw (CRemote (Decoder.Str (Decoder.NewDec (tail frame))).1)
      else
        poison;;; sm_throw (CText (unexpected_text st (str " in range reply")))
  end.

Definition range_reply (fn : bytes -> bytes -> T -> result cerr unit * T) (first : bytes) : cio T unit :=
  c <- get_client;;
  range_frames (S (length (default [] (cl_conn c)))) fn first.

Definition ScanKeyRange (fn : bytes -> bytes -> T -> result cerr unit * T) (startKey endKey : bytes) (limit : Z) : cio T unit :=
  call (range_request startKey endKey limit) (range_reply fn).
End methods.

(** ** The methods *)

(** Run a method whose handler fills a variable that starts as [t]. *)
Definition with_var {T A} (t : T) (m : cio T A) (s : client * N) : (T * result cerr A) * (client * N) :=
  let out := m (s, t) in ((out.2.2, out.1), out.2.1).

Definition client_Put (key value : bytes) : client * N -> (unit * result cerr unit) * (client * N) :=
  with_var tt (call (put_request key value) (expect_ok (str "PUT"))).

Definition read_reply (first : bytes) : cio bytes unit :=
  if bool_decide (status_of first = StatusNotFound) then sm_throw CKeyNotFound
  else
    let (v, d) := Decoder.Bytes (Decoder.NewDec (tail first)) in
    set_var v;;;
    match Decoder.Done d with
    | Some e => sm_throw (CProto e)
    | None => sm_ret tt
    end.
Definition client_Read (key : bytes) : client * N -> (bytes * result cerr unit) * (client * N) :=
  with_var [] (call (get_request key) read_reply).

Definition client_Delete (key : bytes) : client * N -> (unit * result cerr unit) * (client * N) :=
  with_var tt (call (delete_request key) expect_found).

Definition batch_len_text : bytes := str "gokv: BatchPut needs as many values as keys".
Definition client_BatchPut (keys values : list bytes) : client * N -> (unit * result cerr unit) * (client * N) :=
  with_var tt
    (if negb (zlen keys =? zlen values) then sm_throw (CText batch_len_text)
     else call (batch_request keys values) (expect_ok (str "BATCHPUT"))).

(** The callback of [ReadKeyRange]. *)
Definition append_pair (k v : bytes) (out : list (bytes * bytes)) : result cerr unit * list (bytes * bytes) :=
  (Ok tt, out ++ [(k, v)]).
Definition ReadKeyRange (startKey endKey : bytes) (limit : Z)
  : client * N -> (list (bytes * bytes) * result cerr unit) * (client * N) :=
  with_var [] (ScanKeyRange append_pair startKey endKey limit).

Definition client_Ping : client * N -> (unit * result cerr unit) * (client * N) :=
  with_var tt (call ping_request any_reply).

(** ** Name and value lists *)

(** Every turn that leaves no error consumes at least eight bytes: the count is
    cut down to the turns the body has room for and one more. *)
Fixpoint pairs_loop (count : nat) (d : Dec) (out : gmap bytes bytes) : gmap bytes bytes * Dec :=
  match count with
  | O => (out, d)
  | S count' =>
      match Decoder.Err d with
      | Some _ => (out, d)
      | None =>
          let (k, d) := Decoder.Str d in
          let (v, d) := Decoder.Str d in
          pairs_loop count' d (<[k := v]> out)
      end
  end.

Definition pairs_reply (first : bytes) : cio (gmap bytes bytes) unit :=
  let (count, d) := Decoder.U32 (Decoder.NewDec (tail first)) in
  out <- get_var;;
  let (out, d) := pairs_loop (Z.to_nat (Z.min count (Decoder.Remaining d / 8 + 1))) d out in
  set_var out;;;
  match Decoder.Err d with
  | Some e => sm_throw (CProto e)
  | None => sm_ret tt
  end.

Definition pairs (op : Op) : client * N -> (gmap bytes bytes * result cerr unit) * (client * N) :=
  with_var ∅ (call [op] pairs_reply).
Definition client_Stats := pairs OpStats.
Definition client_Info := pairs OpInfo.
Definition client_Compact := pairs OpCompact.

(** ** Operator tools: a client of one node that tries once *)

Definition one_node {T} (addr : bytes) (timeout : Z) (t : T) (m : client * N -> (T * result cerr unit) * (client * N))
  (n : N) : (T * result cerr unit) * N :=
  match client_New [addr] (mkClientOptions timeout 1) with
  | Err e => ((t, Err e), n)
  | Ok c => let out := m (c, n) in (out.1, (with_var tt (sm_ignore client_Close) out.2).2.2)
  end.

Definition InfoFrom (addr : bytes) (timeout : Z) : N -> (gmap bytes bytes * result cerr unit) * N :=
  one_node addr timeout ∅ client_Info.
Definition client_Promote (addr : bytes) (timeout : Z) : N -> (unit * result cerr unit) * N :=
  one_node addr timeout tt (with_var tt (call [OpPromote] any_reply)).
End client.

#[global] Arguments cio : clear implicits.
