(* ===== verification/Wire.v ===== *)
(** * Replies on the wire

    A reply is one frame, or for a range query any number of chunks and one
    last frame.  A connection that breaks delivers a prefix of its bytes. *)

From S2P Require Import Prelude Bytes Proto Client.

Local Open Scope Z_scope.

Definition small (p : bytes) : Prop := zlen p <= MaxFrameSize.

(** ** Frames as bytes *)

Definition frame_wire (p : bytes) : bytes := be_put 4 (u32 (zlen p)) ++ p.
Definition wire_of (fs : list bytes) : bytes := mjoin (frame_wire <$> fs).

Lemma WriteFrame_wire p wire : WriteFrame p = Ok wire <-> small p /\ wire = frame_wire p.
Proof.
  unfold WriteFrame, small, frame_wire. destruct (Z.ltb_spec MaxFrameSize (zlen p)).
  - split; [done|]. lia.
  - split; [intros [= <-]; done|]. by intros [_ ->].
Qed.

Lemma ReadFull_short (p inp : bytes) : inp `prefix_of` p -> inp <> p -> exists e, ReadFull (zlen p) inp = Err e.
Proof.
  intros [k ->] Hne. unfold ReadFull. destruct k as [|b k]; [by rewrite app_nil_r in Hne|].
  rewrite zlen_app, zlen_cons. pose proof (zlen_nonneg inp). pose proof (zlen_nonneg k).
  destruct (Z.eqb_spec (zlen inp + (1 + zlen k)) 0); [lia|]. destruct (zlen inp =? 0); [eauto|].
  destruct (Z.ltb_spec (zlen inp) (zlen inp + (1 + zlen k))); [eauto|lia].
Qed.

Lemma small_u32 p : small p -> u32 (zlen p) = zlen p.
Proof.
  unfold small. intros Hp. change MaxFrameSize with 335544320 in Hp. pose proof (zlen_nonneg p).
  apply u32_small. unfold is_u32. lia.
Qed.

Lemma small_Str x e : small (Enc.Str x e) -> zlen x < 2 ^ 32.
Proof.
  unfold small. rewrite Str_app, zlen_app. change (Enc.Str x []) with (Enc.Bytes x []). rewrite zlen_Bytes.
  change MaxFrameSize with 335544320. pose proof (zlen_nonneg e). lia.
Qed.

(** A string sent as the body of a frame. *)
Lemma decode_Str x st : small (Enc.Str x [st]) -> (Decoder.Str (Decoder.NewDec (tail (Enc.Str x [st])))).1 = x.
Proof.
  intros Hs. apply small_Str in Hs. rewrite Str_app. cbn [tail app].
  by rewrite cursor_new, <- (app_nil_r (Enc.Str x [])), cursor_Str.
Qed.

(** A stream that was cut yields whole frames and then an error. *)
Lemma ReadFrame_prefix p fs inp : small p -> inp `prefix_of` wire_of (p :: fs) ->
  (exists e, ReadFrame inp = Err e) \/
  exists inp', ReadFrame inp = Ok (p, inp') /\ inp' `prefix_of` wire_of fs /\ (length inp' < length inp)%nat.
Proof.
  intros Hp Hpre. change (wire_of (p :: fs)) with (frame_wire p ++ wire_of fs) in Hpre.
  destruct (prefix_app_cases _ _ _ Hpre) as [Hcut|(inp' & -> & Hpre')].
  - destruct (decide (inp = frame_wire p)) as [->|Hne].
    + right. exists []. rewrite <- (app_nil_r (frame_wire p)) at 1.
      split; [by apply ReadFrame_WriteFrame, WriteFrame_wire|].
      split; [apply prefix_nil|]. unfold frame_wire. rewrite length_app, length_be_put. simpl. lia.
    + left. unfold ReadFrame, frame_wire in *. set (hdr := be_put 4 (u32 (zlen p))) in *.
      assert (Hh : zlen hdr = 4) by (unfold zlen, hdr; by rewrite length_be_put).
      destruct (prefix_app_cases _ _ _ Hcut) as [Hin|(body & -> & Hbody)].
      * destruct (decide (inp = hdr)) as [->|Hn].
        -- rewrite <- Hh, <- (app_nil_r hdr), ReadFull_app. destruct (_ <? _); [eauto|].
           unfold hdr. rewrite be_get32_put by apply u32_range.
           rewrite !small_u32 by done.
           apply ReadFull_short; [apply prefix_nil|]. intros <-. by rewrite app_nil_r in Hne.
        -- rewrite <- Hh. destruct (ReadFull_short _ _ Hin Hn) as [e ->]. eauto.
      * rewrite <- Hh, ReadFull_app. destruct (_ <? _); [eauto|].
        unfold hdr. rewrite be_get32_put by apply u32_range.
        rewrite !small_u32 by done.
        apply ReadFull_short; [done|]. intros ->. done.
  - right. exists inp'. split; [by apply ReadFrame_WriteFrame, WriteFrame_wire|]. split; [done|].
    unfold frame_wire. rewrite !length_app, length_be_put. lia.
Qed.

(** The first byte of what the encoder builds. *)
Lemma head_foldl {X} (g : bytes -> X -> bytes) l : (forall e x, e <> [] -> head (g e x) = head e) ->
  forall e, e <> [] -> head (foldl g e l) = head e.
Proof.
  intros Hg. induction l as [|x l IH]; intros e He; [done|]. cbn [foldl]. rewrite IH; [by apply Hg|].
  specialize (Hg e x He). destruct (g e x); [|done]. by destruct e.
Qed.

(** ** Whole replies *)

Inductive whole_reply (ranged : bool) : list bytes -> Prop :=
| whole_last st body : st <> StatusRangeChunk -> small (st :: body) -> whole_reply ranged [st :: body]
| whole_chunk body fs : ranged = true -> small (StatusRangeChunk :: body) -> whole_reply ranged fs ->
    whole_reply ranged ((StatusRangeChunk :: body) :: fs).

Definition ranged (req : bytes) : bool := bool_decide (head req = Some OpRange).

Lemma whole_small r fs : whole_reply r fs -> Forall small fs.
Proof. induction 1; constructor; auto. Qed.

(** What a client may take for granted: on a connection it asked [req] on, what
    comes back is a whole reply, or what a broken connection left of one. *)
Class HonestNetwork (N : Type) `{Network N} : Prop :=
  honest : forall addr req wire n inp n',
    WriteFrame req = Ok wire -> head req <> Some OpReplicate -> deliver addr wire n = (Ok inp, n') ->
    exists fs, whole_reply (ranged req) fs /\ inp `prefix_of` wire_of fs.
