(* ===== verification/Replies.v ===== *)
(** * Every request gets a whole reply

    Whatever a client sends and whatever fails at the node, the frames a node
    writes in return are a whole reply or a part of one from its start.  So a
    cluster of nodes, each reached over connections that may break at any byte,
    is a network a client can rely on. *)

From S2P Require Import Prelude Bytes Decimal Record Datafile Index Store Compact Proto Text.
From S2P Require Import Node Election Replication Server Client Wire.

Local Open Scope Z_scope.
Local Open Scope gokv_scope.

Section replies.
Context {I : Type} `{KeyIndex I}.
Context (os_text : error -> bytes).

(** The frames [m] appends to its writer satisfy [P]. *)
Definition appends (P : list bytes -> Prop) {A} (m : nio I A) : Prop := forall nw, exists fs,
  wr_out (m nw).2.2 = wr_out nw.2 ++ fs /\ P fs.

Definition silent {A} : nio I A -> Prop := appends (fun fs => fs = []).

(** At most one frame, and no chunk. *)
Definition single (fs : list bytes) : Prop :=
  fs = [] \/ exists st body, fs = [st :: body] /\ st <> StatusRangeChunk /\ small (st :: body).
Definition one {A} : nio I A -> Prop := appends single.

Lemma silent_out {A} (m : nio I A) : silent m <-> forall nw, wr_out (m nw).2.2 = wr_out nw.2.
Proof.
  split; intros Hm nw.
  - destruct (Hm nw) as (fs & -> & ->). apply app_nil_r.
  - exists []. split; [|done]. by rewrite app_nil_r.
Qed.

Lemma silent_appends {A} (P : list bytes -> Prop) (m : nio I A) : P [] -> silent m -> appends P m.
Proof. intros HP Hm nw. destruct (Hm nw) as (fs & Hfs & ->). by exists []. Qed.

Lemma appends_mono {A} (P Q : list bytes -> Prop) (m : nio I A) : (forall fs, P fs -> Q fs) -> appends P m -> appends Q m.
Proof. intros HPQ Hm nw. destruct (Hm nw) as (fs & ? & ?). exists fs. auto. Qed.

(** Nothing before, or nothing after. *)
Lemma silent_bind {A B} (P : list bytes -> Prop) (m : nio I A) (k : A -> nio I B) : P [] ->
  silent m -> (forall a, appends P (k a)) -> appends P (sm_bind m k).
Proof.
  intros HP Hm Hk nw. rewrite silent_out in Hm. specialize (Hm nw). unfold sm_bind.
  destruct (m nw) as [[a|e] nw']; cbn [fst snd] in *; [destruct (Hk a nw') as (fs & ? & ?); exists fs; by rewrite <- Hm|].
  exists []. by rewrite app_nil_r.
Qed.

Lemma bind_silent {A B} (P : list bytes -> Prop) (m : nio I A) (k : A -> nio I B) :
  appends P m -> (forall a, silent (k a)) -> appends P (sm_bind m k).
Proof.
  intros Hm Hk nw. destruct (Hm nw) as (fs & Hfs & HP). exists fs. unfold sm_bind.
  destruct (m nw) as [[a|e] nw']; cbn [fst snd] in *; [|done]. pose proof (Hk a) as Hs. rewrite silent_out in Hs.
  by rewrite (Hs nw').
Qed.

Lemma single_nil : single [].
Proof. by left. Qed.

Lemma silent_one {A} (m : nio I A) : silent m -> one m.
Proof. apply silent_appends, single_nil. Qed.

(** ** Pieces *)

Lemma wr_call_out w : wr_out (wr_call w).2 = wr_out w.
Proof. unfold wr_call. by destruct (wr_fails w) as [|[]]. Qed.

Lemma wr_write_out p w : wr_out (wr_write p w).2 = wr_out w \/ (small p /\ wr_out (wr_write p w).2 = wr_out w ++ [p]).
Proof.
  unfold wr_write. destruct (WriteFrame p) as [wire|e] eqn:Ew; [|by left]. apply WriteFrame_wire in Ew as [Hp _].
  pose proof (wr_call_out w) as Hc. destruct (wr_call w) as [[[]|e] w']; cbn [snd wr_out] in *; [right|left; done].
  by rewrite Hc.
Qed.

Lemma silent_ret {A} (a : A) : silent (sm_ret a).
Proof. by apply silent_out. Qed.
Lemma silent_throw {A} e : silent (A := A) (sm_throw e).
Proof. by apply silent_out. Qed.
Lemma silent_get : silent get_node.
Proof. by apply silent_out. Qed.
Lemma silent_modify f : silent (modify_node f).
Proof. by apply silent_out. Qed.
Lemma silent_engine {A} (m : sto I A) : silent (engine m).
Proof. by apply silent_out. Qed.
Lemma silent_flush : silent flush.
Proof. apply silent_out. intros nw. unfold flush, on_writer. apply wr_call_out. Qed.

Lemma one_frame st body : st <> StatusRangeChunk -> one (write_frame (st :: body)).
Proof.
  intros Hst nw. unfold write_frame, on_writer. cbn [fst snd].
  destruct (wr_write_out (st :: body) nw.2) as [E|[Hs E]]; rewrite E.
  - exists []. split; [by rewrite app_nil_r|apply single_nil].
  - exists [st :: body]. split; [done|]. right. eauto.
Qed.

Lemma one_head (st : byte) (p : bytes) : head p = Some st -> st <> StatusRangeChunk -> one (write_frame p).
Proof. destruct p as [|b p]; [done|]. intros [= ->]. apply one_frame. Qed.

Lemma one_status st : st <> StatusRangeChunk -> one (writeStatus st).
Proof. apply one_frame. Qed.

Lemma one_error e : one (writeError os_text e).
Proof. apply bind_silent; [by apply (one_head StatusError)|intros _; apply silent_flush]. Qed.

Lemma one_done d k : one k -> one (when_done os_text d k).
Proof. unfold when_done. intros Hk. destruct (Decoder.Done d); [apply one_error|done]. Qed.

Lemma one_at_leader k : one k -> one (at_leader k).
Proof.
  intros Hk. apply silent_bind; [apply single_nil|apply silent_get|]. intros n. destruct (_ =? _); [done|].
  by apply (one_head StatusRedirect).
Qed.

Lemma one_bind {A B} (m : nio I A) (k : A -> nio I B) : silent m -> (forall a, one (k a)) -> one (sm_bind m k).
Proof. apply silent_bind, single_nil. Qed.
End replies.

Create HintDb reply discriminated.
#[export] Hint Resolve silent_ret silent_throw silent_get silent_modify silent_engine silent_flush : reply.
#[export] Hint Resolve one_error one_done one_at_leader one_bind : reply.
#[export] Hint Extern 1 (one (writeStatus _)) => by apply one_status : reply.
#[export] Hint Extern 2 (one (match ?x with _ => _ end)) => destruct x : reply.
#[export] Hint Extern 2 (one (sm_ret _)) => apply silent_one, silent_ret : reply.

Section server.
Context {I : Type} `{KeyIndex I}.
Context (os_text : error -> bytes).
Implicit Types (nw : node I * writer).

(** ** Single frames *)

Lemma one_pairs l : one (I := I) (write_frame (encodePairs l)).
Proof.
  apply (one_head StatusOK); [|done]. unfold encodePairs. rewrite head_foldl; [done| |done]. by intros [|b e] x.
Qed.
Hint Resolve one_pairs : reply.

Lemma one_get d : one (I := I) (handleGet os_text d).
Proof.
  unfold handleGet. destruct (Decoder.Bytes d). apply one_done, one_bind; [apply silent_engine|]. intros [v|e].
  - by apply (one_head StatusOK).
  - destruct (bool_decide _); eauto with reply.
Qed.

Lemma one_apply_write (m : sto I unit) : one (apply_write os_text m).
Proof. apply one_bind; [apply silent_engine|]. intros [[]|e]; eauto with reply. Qed.

Lemma one_apply_delete (m : sto I unit) : one (apply_delete os_text m).
Proof. apply one_bind; [apply silent_engine|]. intros [[]|e]; [|destruct (bool_decide _)]; eauto with reply. Qed.
Hint Resolve one_apply_write one_apply_delete : reply.

Lemma one_batch now d : one (I := I) (handleBatchPut os_text now d).
Proof.
  unfold handleBatchPut. destruct (Decoder.U32 d) as [count d']. destruct (Decoder.Err d'); [eauto with reply|].
  destruct (_ || _); [eauto with reply|]. destruct (batch_pairs _ _ _ _) as [[kvs d'']|e]; eauto with reply.
Qed.

Lemma one_vote now d : one (I := I) (handleVote os_text now d).
Proof.
  unfold handleVote. destruct (Decoder.Str d) as [x d1]. destruct (Decoder.U64 d1) as [y d2].
  apply one_done, one_bind; [apply silent_get|]. intros n. by apply (one_head StatusOK).
Qed.

Lemma one_announce now d : one (I := I) (handleAnnounce os_text now d).
Proof.
  unfold handleAnnounce. destruct (Decoder.Str d) as [x d1]. destruct (Decoder.Str d1) as [y d2].
  destruct (Decoder.U64 d2) as [z d3]. apply one_done, one_bind; [apply silent_modify|]. eauto with reply.
Qed.

Lemma one_compact at_ d : one (I := I) (handleCompact os_text at_ d).
Proof.
  apply one_done, one_bind; [by apply silent_out|]. intros b. apply one_bind; eauto with reply.
Qed.

(** ** Ranges *)

(** What [Scan] makes of the callback's state is what calls of it make of it. *)
Section scan_state.
Context {T : Type} (fn : bytes -> bytes -> T -> result error unit * T) (P : T -> Prop).
Hypothesis fn_keeps : forall k v t, P t -> P (fn k v t).2.

Definition sent_state (o : sent_out (T := T)) : T := match o with SContinue _ t => t | SReturn _ t => t end.

Lemma send_refs_state limit env round refs : forall sent t s, P t ->
  P (sent_state (send_refs (I := I) fn limit env round refs sent t s).1).
Proof.
  induction refs as [|r refs IH]; intros sent t s Ht; [done|]. cbn [send_refs].
  destruct (sm_catch _ _ _) as [[v|x] s'].
  - specialize (fn_keeps r.1 v t Ht). destruct (fn r.1 v t) as [[[]|e] t']; [|done].
    destruct (_ && _); [done|]. by apply IH.
  - destruct (_ || _); [by apply IH|done].
Qed.

Lemma Scan_state limit start end_ t (s : store I) : P t -> P (Scan fn limit start end_ t s).1.2.
Proof.
  intros Ht. unfold Scan, Scan_beside. destruct (_ && _); [done|].
  assert (Haux : forall fuel cursor excl sent t s, P t ->
    P (scan_rounds fn limit (undisturbed_scan (I := I)) fuel end_ cursor excl sent t s).1.2); [|by apply Haux].
  clear Ht t s. induction fuel as [|fuel IH]; intros cursor excl sent t s Ht; [done|]. cbn [scan_rounds].
  change (undisturbed_scan (ScanChunk fuel) s) with s. destruct (_ =? 0); [done|].
  pose proof (send_refs_state limit undisturbed_scan fuel (ck_refs (scan_chunk end_ cursor excl s)) sent t s Ht) as Hs.
  destruct (send_refs _ _ _ _ _ _ _ _) as [[r t'|sent' t'] s']; cbn [sent_state fst snd] in *; [done|].
  destruct (ck_atEnd _); [done|]. by apply IH.
Qed.
End scan_state.

(** Chunks of a range reply. *)
Definition chunks (fs : list bytes) : Prop := Forall (fun f => small f /\ head f = Some StatusRangeChunk) fs.

(** The frames of a reply that has begun. *)
Definition begun (r : bool) (fs : list bytes) : Prop := exists whole, whole_reply r whole /\ fs `prefix_of` whole.

Lemma single_begun r fs : single fs -> begun r fs.
Proof.
  intros [->|(st & body & -> & Hst & Hs)].
  - exists [[StatusOK]]. split; [|apply prefix_nil]. constructor; [done|]. unfold small. vm_compute. discriminate.
  - exists [st :: body]. split; [by constructor|done].
Qed.

Lemma chunks_begun cs fs : chunks cs -> begun true fs -> begun true (cs ++ fs).
Proof.
  induction 1 as [|f cs [Hs Hh] Hcs IH]; intros Hfs; [done|]. destruct (IH Hfs) as (whole & Hw & Hpre).
  destruct f as [|b f]; [done|]. injection Hh as ->. exists ((StatusRangeChunk :: f) :: whole).
  split; [by constructor|]. by apply prefix_cons.
Qed.

(** The callback only ever sends chunks. *)
Definition sends_chunks (w : writer) (t : ranging) : Prop :=
  head (rg_chunk t) = Some StatusRangeChunk /\ exists cs, wr_out (rg_w t) = wr_out w ++ cs /\ chunks cs.

Lemma range_pair_chunks w k v t : sends_chunks w t -> sends_chunks w (range_pair k v t).2.
Proof.
  intros [Hh (cs & Hcs & Hall)]. unfold range_pair. set (chunk := Enc.Bytes v (Enc.Bytes k (rg_chunk t))).
  assert (Hc : head chunk = Some StatusRangeChunk) by (unfold chunk; by destruct (rg_chunk t)).
  destruct (_ <=? _); [|by split; [|exists cs]].
  assert (Hw : exists cs, wr_out (wr_write chunk (rg_w t)).2 = wr_out w ++ cs /\ chunks cs).
  { destruct (wr_write_out chunk (rg_w t)) as [->|[Hs ->]]; [by exists cs|]. exists (cs ++ [chunk]).
    rewrite Hcs, <- app_assoc. split; [done|]. apply Forall_app. split; [done|]. by constructor. }
  destruct (wr_write chunk (rg_w t)) as [[[]|e] w1]; cbn [snd] in *; [|done].
  pose proof (wr_call_out w1) as Hc1. destruct (wr_call w1) as [[[]|e] w2]; cbn [snd] in *; split; try done; cbn [rg_w]; by rewrite Hc1.
Qed.

Lemma write_chunk p nw : head p = Some StatusRangeChunk ->
  exists cs, wr_out (write_frame (I := I) p nw).2.2 = wr_out nw.2 ++ cs /\ chunks cs.
Proof.
  intros Hp. unfold write_frame, on_writer. cbn [fst snd].
  destruct (wr_write_out p nw.2) as [E|[Hs E]]; rewrite E.
  - exists []. split; [by rewrite app_nil_r|constructor].
  - exists [p]. split; [done|]. by constructor.
Qed.

(** Chunks first, then the rest. *)
Lemma chunks_then {A B} (m : nio I A) (k : A -> nio I B) :
  appends chunks m -> (forall a, appends (begun true) (k a)) -> appends (begun true) (sm_bind m k).
Proof.
  intros Hm Hk nw. destruct (Hm nw) as (cs & Hcs & Hall). unfold sm_bind.
  destruct (m nw) as [[a|e] nw']; cbn [fst snd] in *.
  - destruct (Hk a nw') as (fs & Hfs & Hb). exists (cs ++ fs). rewrite Hfs, Hcs, app_assoc. split; [done|].
    by apply chunks_begun.
  - exists cs. split; [done|]. rewrite <- (app_nil_r cs). apply chunks_begun; [done|]. apply single_begun, single_nil.
Qed.

Lemma one_begun {A} r (m : nio I A) : one m -> appends (begun r) m.
Proof. apply appends_mono. intros fs. apply single_begun. Qed.

Lemma begun_range start end_ limit : appends (begun true) (serveRange (I := I) os_text start end_ limit).
Proof.
  unfold serveRange. apply silent_bind; [apply single_begun, single_nil|apply silent_get|]. intros n.
  cbv zeta. match goal with |- context [Scan range_pair ?l] => set (lim := l) end. clearbody lim.
  intros nw. set (scan := fun nw0 : node I * writer => _). unfold sm_bind at 1.
  assert (Hs : sends_chunks nw.2 (Scan range_pair lim start end_
                 (mkRanging (Enc.NewEnc StatusRangeChunk) 0 nw.2 None) (n_store nw.1)).1.2).
  { apply Scan_state; [intros; by apply range_pair_chunks|]. split; [done|]. exists []. split; [by rewrite app_nil_r|constructor]. }
  destruct Hs as [Hh (cs & Hcs & Hall)]. subst scan. cbn beta zeta.
  destruct (Scan _ _ _ _ _ _) as [[r t] s']. cbn [fst snd] in *.
  match goal with |- exists fs, wr_out (?m ?nw1).2.2 = _ /\ _ => assert (Hrest : appends (begun true) m) end.
  { destruct (rg_sendErr t); [apply one_begun, silent_one, silent_throw|]. destruct r as [[]|e]; [|apply one_begun, one_error].
    apply chunks_then; [|intros _; apply one_begun; by apply (one_head StatusRangeEnd)].
    unfold sm_when. destruct (1 <? _).
    - intros nw0. by apply write_chunk.
    - apply silent_appends; [constructor|apply silent_ret]. }
  destruct (Hrest (set_store s' nw.1, rg_w t)) as (fs & Hfs & Hb). exists (cs ++ fs).
  rewrite Hfs. cbn [fst snd]. rewrite Hcs, app_assoc. split; [done|]. by apply chunks_begun.
Qed.

(** ** Every request *)

Lemma handle_begun at_ op d : appends (begun (bool_decide (op = OpRange))) (handle (I := I) os_text at_ op d).
Proof.
  unfold handle. destruct (decide (op = OpRange)) as [->|Hop].
  - rewrite (bool_decide_true (OpRange = OpRange)) by done. cbn [bool_decide].
    change (appends (begun true) (handleRange (I := I) os_text d)). unfold handleRange.
    destruct (Decoder.Bytes d) as [a d1]. destruct (Decoder.Bytes d1) as [b d2]. destruct (Decoder.U32 d2) as [l d3].
    unfold when_done. destruct (Decoder.Done d3); [apply one_begun, one_error|apply begun_range].
  - rewrite (bool_decide_false (op = OpRange)) by done. apply one_begun.
    repeat match goal with |- one (if bool_decide ?P then _ else _) => destruct (bool_decide P) end;
      eauto using one_get, one_batch, one_vote, one_announce, one_compact with reply.
    + unfold handlePut. destruct (Decoder.Bytes d) as [a d1]. destruct (Decoder.Bytes d1). eauto with reply.
    + unfold handleDelete. destruct (Decoder.Bytes d) as [a d1]. eauto with reply.
Qed.

Lemma serve_begun at_ frame : head frame <> Some OpReplicate ->
  appends (begun (ranged frame)) (serve_frame (I := I) os_text at_ frame).
Proof.
  intros Hf. unfold serve_frame. destruct frame as [|op body].
  - apply one_begun, silent_one, silent_throw.
  - rewrite bool_decide_false by (intros ->; by apply Hf). apply bind_silent.
    + unfold ranged. simpl head. rewrite (bool_decide_ext (Some op = Some OpRange) (op = OpRange)); [apply handle_begun|].
      split; [by intros [= ->]|by intros ->].
    + intros _. apply silent_bind; [done|apply silent_flush|]. intros _. apply silent_ret.
Qed.
End server.
