(* ===== verification/Sessions.v ===== *)
(** * Connections stay in step

    A client keeps its connection between calls.  On a network that answers
    what it was asked, a connection that is kept has nothing left to read: no
    call ever takes the rest of an earlier reply for its own. *)

From S2P Require Import Prelude Bytes Proto Text Client Wire.

Local Open Scope Z_scope.
Local Open Scope gokv_scope.

(** No connection, or one with nothing unread. *)
Definition in_step (c : client) : Prop :=
  cl_poisoned c = false /\ (cl_conn c = None \/ cl_conn c = Some []).

(** A connection that still has [fs] to deliver, or what is left of it. *)
Definition awaits (fs : list bytes) (c : client) : Prop :=
  exists inp, cl_conn c = Some inp /\ inp `prefix_of` wire_of fs.

(** Given up, to be dropped, or in step. *)
Definition settled (c : client) : Prop := cl_poisoned c = true \/ in_step c.

Section sessions.
Context {N : Type} `{HonestNetwork N}.
Context {T : Type}.
Implicit Types (s : (client * N) * T) (c : client) (fs : list bytes).

(** [P] of the client holds after [m], however it ends. *)
Definition ends {A} (m : cio N T A) (P : client -> Prop) s : Prop :=
  wp m (fun _ s' => P s'.1.1) (fun _ s' => P s'.1.1) s.

Lemma ends_mono {A} (m : cio N T A) (P Q : client -> Prop) s : ends m P s -> (forall c, P c -> Q c) -> ends m Q s.
Proof. intros Hm HPQ. eapply wp_mono; [exact Hm|auto|auto]. Qed.

Lemma ends_bind {A B} (m : cio N T A) (k : A -> cio N T B) P Q s :
  ends m P s -> (forall a s', P s'.1.1 -> ends (k a) Q s') -> (forall c, P c -> Q c) -> ends (sm_bind m k) Q s.
Proof. intros Hm Hk HPQ. apply wp_bind. eapply wp_mono; [exact Hm|intros; by apply Hk|auto]. Qed.

Lemma ends_attempt {A B} (m : cio N T A) (k : result cerr A -> cio N T B) (Q : client -> Prop) s :
  wp m (fun a s' => ends (k (Ok a)) Q s') (fun e s' => ends (k (Err e)) Q s') s ->
  ends (sm_bind (attempt m) k) Q s.
Proof. unfold ends, wp, sm_bind, attempt. destruct (m s) as [[a|e] s']; done. Qed.

Lemma ends_mod f (P : client -> Prop) s : P (f s.1.1) -> ends (mod_client f) P s.
Proof. done. Qed.

(** ** Dropping and connecting *)

Lemma drop_spec s : ends dropLocked (fun c => cl_conn c = None /\ cl_poisoned c = cl_poisoned s.1.1) s.
Proof.
  unfold dropLocked, ends, wp, sm_bind, get_client, attempt, on_net, mod_client, sm_modify. cbn [fst snd].
  destruct (cl_conn s.1.1) eqn:E; [|done]. destruct (hangup _ _) as [[[]|e] n]; done.
Qed.

Lemma after_drop {A} (k : cio N T A) Q X s :
  (forall s', cl_conn s'.1.1 = None -> cl_poisoned s'.1.1 = cl_poisoned s.1.1 -> wp k Q X s') ->
  wp (sm_ignore dropLocked;;; k) Q X s.
Proof.
  intros Hk. apply wp_bind, wp_ignore. eapply wp_mono; [exact (drop_spec s)|..]; intros ? s' [? ?]; by apply Hk.
Qed.

Lemma dial_any_spec addrs : forall lastErr s, cl_conn s.1.1 = None -> cl_poisoned s.1.1 = false ->
  wp (dial_any addrs lastErr)
    (fun _ s' => cl_conn s'.1.1 = Some [] /\ cl_poisoned s'.1.1 = false) (fun _ s' => in_step s'.1.1) s.
Proof.
  induction addrs as [|a addrs IH]; intros lastErr s Hc Hp; cbn [dial_any].
  - apply wp_throw. split; auto.
  - apply wp_bind. unfold wp at 1, attempt, on_net. cbn [fst snd].
    destruct (dial a s.1.2) as [[[]|e] n]; [done|]. apply wp_bind, wp_modify. by apply IH.
Qed.

Lemma connect_spec prefer s : in_step s.1.1 ->
  wp (connectLocked prefer)
    (fun _ s' => cl_conn s'.1.1 = Some [] /\ cl_poisoned s'.1.1 = false) (fun _ s' => in_step s'.1.1) s.
Proof.
  intros [Hp Hc]. unfold connectLocked. apply wp_bind. unfold wp at 1, get_client. cbn beta iota.
  destruct (bool_decide _ && _) eqn:E.
  - apply andb_prop in E as [E _]. apply bool_decide_eq_true in E. apply wp_ret. split; [|done].
    destruct Hc as [Hc|Hc]; [|done]. rewrite Hc in E. by destruct E.
  - apply after_drop. intros s' Hn Hq. apply dial_any_spec; [done|by rewrite Hq].
Qed.

(** ** One exchange *)

Lemma next_frame_spec f fs s : small f -> awaits (f :: fs) s.1.1 ->
  wp next_frame
    (fun g s' => g = f /\ awaits fs s'.1.1 /\ cl_poisoned s'.1.1 = cl_poisoned s.1.1 /\
       (length (default [] (cl_conn s'.1.1)) < length (default [] (cl_conn s.1.1)))%nat)
    (fun _ s' => s' = s) s.
Proof.
  intros Hf (inp & Hc & Hpre). unfold next_frame, wp, sm_bind, get_client. rewrite Hc. cbn [default id].
  destruct (ReadFrame_prefix f fs inp Hf Hpre) as [[e ->]|(inp' & -> & Hpre' & Hlen)]; [done|].
  split; [done|]. split; [by exists inp'|done].
Qed.

(** On a connection with nothing unread, an exchange gets the first frame of
    the reply to its own request. *)
Lemma exchange_spec req s : cl_conn s.1.1 = Some [] -> cl_poisoned s.1.1 = false -> head req <> Some OpReplicate ->
  wp (client_exchange req)
    (fun f s' => exists fs, whole_reply (ranged req) (f :: fs) /\ awaits fs s'.1.1 /\ cl_poisoned s'.1.1 = false)
    (fun _ s' => cl_poisoned s'.1.1 = false) s.
Proof.
  intros Hc Hp Hreq. unfold client_exchange. apply wp_bind. unfold send_frame. apply wp_bind.
  unfold wp at 1, get_client. destruct (WriteFrame req) as [wire|e] eqn:Ew; [|by apply wp_throw].
  apply wp_bind. unfold wp at 1, on_net. destruct (deliver _ wire s.1.2) as [[inp|e] n'] eqn:Ed; cbn [fst snd]; [|done].
  destruct (honest _ _ _ _ _ _ Ew Hreq Ed) as (fs & Hwhole & Hpre).
  apply wp_modify. cbn [fst snd]. rewrite Hc. cbn [default id]. rewrite app_nil_l.
  assert (Hfs : exists f fs', fs = f :: fs' /\ f <> [] /\ small f).
  { destruct Hwhole; eauto. }
  destruct Hfs as (f & fs' & -> & Hne & Hsm). apply wp_bind.
  eapply wp_mono; [apply (next_frame_spec f fs'); [done|by exists inp]|..].
  - intros g s' (-> & Haw & Hp' & _). destruct f as [|b f]; [done|]. apply wp_ret. exists fs'. by rewrite Hp'.
  - by intros ? s' ->.
Qed.

(** ** Handlers *)

(** A handler that is given the first frame of a reply leaves a settled client. *)
Definition finishes (r : bool) (h : bytes -> cio N T unit) : Prop := forall f fs s,
  whole_reply r (f :: fs) -> awaits fs s.1.1 -> cl_poisoned s.1.1 = false -> ends (h f) settled s.

(** A reply that is a single frame is over when it has been read. *)
Lemma single_settled f fs c : whole_reply false (f :: fs) -> awaits fs c -> cl_poisoned c = false -> settled c.
Proof.
  intros Hw (inp & Hc & Hpre) Hp. inversion Hw as [|? ? Hr]; subst; [|done].
  right. split; [done|]. right. rewrite Hc. f_equal. by apply prefix_nil_inv.
Qed.

Lemma finishes_pure h : (forall f s, (h f s).2.1.1 = s.1.1) -> finishes false h.
Proof.
  intros Hh f fs s Hw Haw Hp. pose proof (single_settled _ _ _ Hw Haw Hp) as Hs. unfold ends, wp.
  specialize (Hh f s). destruct (h f s) as [[[]|e] s']; cbn [snd] in Hh; by rewrite Hh.
Qed.

Lemma poison_ends {A} (e : cerr) s : ends (A := A) (poison;;; sm_throw e) settled s.
Proof. by left. Qed.

Lemma chunk_pairs_spec fn fuel : forall d s,
  wp (chunk_pairs fuel fn d) (fun _ s' => s'.1.1 = s.1.1) (fun _ s' => cl_poisoned s'.1.1 = true) s.
Proof.
  induction fuel as [|fuel IH]; intros d s; cbn [chunk_pairs]; [done|].
  destruct (Decoder.Err d); [done|]. destruct (Decoder.Empty d); [done|].
  destruct (Decoder.Bytes d) as [k d1]. destruct (Decoder.Bytes d1) as [v d2].
  destruct (Decoder.Err d2); [done|]. apply wp_bind. unfold wp at 1, attempt, on_var. cbn [fst snd].
  destruct (fn k v s.2) as [[[]|e] t]; [|done]. exact (IH d2 (s.1, t)).
Qed.

Lemma range_frames_spec fn fuel : forall f fs s, whole_reply true (f :: fs) -> awaits fs s.1.1 ->
  cl_poisoned s.1.1 = false -> (length (default [] (cl_conn s.1.1)) < fuel)%nat ->
  ends (range_frames fuel fn f) settled s.
Proof.
  induction fuel as [|fuel IH]; intros f fs s Hw Haw Hp Hfuel; [lia|]. cbn [range_frames].
  destruct (bool_decide (status_of f = StatusRangeEnd)) eqn:Eend.
  { apply bool_decide_eq_true in Eend. apply wp_ret. apply (single_settled f fs); [|done|done].
    inversion Hw; subst; [by constructor|done]. }
  destruct (bool_decide (status_of f = StatusRangeChunk)) eqn:Ech.
  - apply bool_decide_eq_true in Ech. apply wp_bind. eapply wp_mono; [apply chunk_pairs_spec|..].
    2: { intros e s' Hs'. by left. }
    intros u s1 Hs1. cbn beta in Hs1. apply ends_attempt.
    inversion Hw as [st body Hst|body fs' _ _ Hw']; subst; [by cbn in Ech|].
    assert (Hfs : exists g gs, fs = g :: gs /\ g <> [] /\ small g) by (destruct Hw'; eauto).
    destruct Hfs as (g & gs & -> & Hne & Hsm).
    eapply wp_mono; [apply (next_frame_spec g gs); [done|by rewrite Hs1]|..].
    + intros g' s2 (-> & Haw2 & Hp2 & Hlen). destruct g as [|b g]; [done|].
      apply (IH _ gs); [done|done|by rewrite Hp2, Hs1|]. rewrite Hs1 in Hlen. lia.
    + intros e s2 ->. apply poison_ends.
  - destruct (bool_decide (status_of f = StatusError)) eqn:Eerr; [|apply poison_ends].
    apply wp_throw. apply (single_settled f fs); [|done|done].
    inversion Hw; subst; [by constructor|by cbn in Ech].
Qed.

Lemma finishes_range fn : finishes true (range_reply fn).
Proof.
  intros f fs s Hw Haw Hp. unfold range_reply. apply wp_bind. unfold wp at 1, get_client.
  apply (range_frames_spec fn _ f fs); auto with lia.
Qed.

(** ** A call *)

Lemma drop_poisoned_spec s : settled s.1.1 -> ends drop_poisoned in_step s.
Proof.
  intros Hs. unfold drop_poisoned. apply wp_bind. unfold wp at 1, get_client. apply wp_when; intros Ep.
  - apply after_drop. intros s' Hc _. apply wp_modify. split; [done|by left].
  - destruct Hs as [Hs|Hs]; [congruence|done].
Qed.

Lemma call_attempts_spec req h : finishes (ranged req) h -> head req <> Some OpReplicate ->
  forall n prefer lastErr s, in_step s.1.1 -> ends (call_attempts n req h prefer lastErr) in_step s.
Proof.
  intros Hh Hreq. induction n as [|n IH]; intros prefer lastErr s Hs; cbn [call_attempts]; [by apply wp_throw|].
  assert (Hagain : forall p e s1, cl_poisoned s1.1.1 = false ->
    ends (sm_ignore dropLocked;;; bump;;; call_attempts n req h p e) in_step s1).
  { intros p e s1 Hp1. apply after_drop. intros s2 Hc2 Hp2. apply wp_bind, wp_modify, IH.
    split; [by rewrite <- Hp1, <- Hp2|by left]. }
  apply wp_bind. eapply wp_mono; [by apply connect_spec|..|done]. intros ? s1 [Hc1 Hp1].
  apply ends_attempt. eapply wp_mono; [by apply exchange_spec|..].
  2: { intros e s2 Hp2. by apply Hagain. }
  intros f s2 (fs & Hw & Haw & Hp2). destruct (bool_decide (status_of f = StatusRedirect)) eqn:Ered.
  - apply bool_decide_eq_true in Ered. apply wp_bind. unfold wp at 1, get_client.
    destruct (_ || _); [by apply Hagain|]. apply IH.
    assert (Hst : settled s2.1.1).
    { apply (single_settled f fs); [|done|done]. inversion Hw; subst; [by constructor|done]. }
    destruct Hst as [?|?]; [congruence|done].
  - destruct (bool_decide (status_of f = StatusError)) eqn:Eerr.
    + apply bool_decide_eq_true in Eerr. apply wp_throw.
      assert (Hst : settled s2.1.1).
      { apply (single_settled f fs); [|done|done]. inversion Hw; subst; [by constructor|done]. }
      destruct Hst as [?|?]; [congruence|done].
    + apply ends_attempt. unfold finishes, ends in Hh.
      eapply wp_mono; [by apply (Hh f fs)|..]; cbn beta.
      * intros ? s3 Hs3. apply wp_bind. eapply wp_mono; [by apply drop_poisoned_spec|done|done].
      * intros e s3 Hs3. apply wp_bind. eapply wp_mono; [by apply drop_poisoned_spec|done|done].
Qed.

Lemma call_spec req h s : finishes (ranged req) h -> head req <> Some OpReplicate -> in_step s.1.1 ->
  ends (call req h) in_step s.
Proof.
  intros Hh Hreq Hs. unfold call. apply wp_bind. unfold wp at 1, get_client.
  destruct (cl_closed _); [by apply wp_throw|]. by apply call_attempts_spec.
Qed.

(** What an exchange returns was read off the bytes its own request brought. *)
Lemma exchange_own req s f s' : cl_conn s.1.1 = Some [] -> client_exchange req s = (Ok f, s') ->
  exists wire inp n' rest, WriteFrame req = Ok wire /\ deliver (cl_current s.1.1) wire s.1.2 = (Ok inp, n') /\
    ReadFrame inp = Ok (f, rest).
Proof.
  intros Hc. unfold client_exchange, send_frame, next_frame, sm_bind, get_client, on_net, mod_client, sm_modify.
  destruct (WriteFrame req) as [wire|e]; [|done]. cbn [fst snd].
  destruct (deliver _ wire _) as [[inp|e] n'] eqn:Ed; cbn [fst snd]; [|done]. rewrite Hc. cbn [default id set_conn cl_conn].
  rewrite app_nil_l. destruct (ReadFrame inp) as [[g rest]|e] eqn:Er; [|done]. cbn [fst snd].
  destruct g as [|b g]; [done|]. intros [= <- _]. by exists wire, inp, n', rest.
Qed.
End sessions.

(** ** Histories of calls *)

Inductive method : Type :=
| MPut (key value : bytes)
| MRead (key : bytes)
| MDelete (key : bytes)
| MBatchPut (keys values : list bytes)
| MReadKeyRange (startKey endKey : bytes) (limit : Z)
| MScanKeyRange {T : Type} (fn : bytes -> bytes -> T -> result cerr unit * T) (t : T)
    (startKey endKey : bytes) (limit : Z)
| MPing
| MStats
| MInfo
| MCompact.

Section histories.
Context {N : Type} `{Network N}.

Definition run_method (m : method) (s : client * N) : client * N :=
  match m with
  | MPut k v => (client_Put k v s).2
  | MRead k => (client_Read k s).2
  | MDelete k => (client_Delete k s).2
  | MBatchPut ks vs => (client_BatchPut ks vs s).2
  | MReadKeyRange a b limit => (ReadKeyRange a b limit s).2
  | MScanKeyRange fn t a b limit => (with_var t (ScanKeyRange fn a b limit) s).2
  | MPing => (client_Ping s).2
  | MStats => (client_Stats s).2
  | MInfo => (client_Info s).2
  | MCompact => (client_Compact s).2
  end.

Definition run_methods (ms : list method) (s : client * N) : client * N :=
  foldl (fun s m => run_method m s) s ms.

Context `{!HonestNetwork N}.

Lemma with_var_ends {T} (t : T) (m : cio N T unit) (P : client -> Prop) s : ends m P (s, t) -> P (with_var t m s).2.1.
Proof. unfold ends, wp, with_var. destruct (m (s, t)) as [[[]|e] s']; done. Qed.

Lemma call_in_step {T} (t : T) req (h : bytes -> cio N T unit) s : finishes (ranged req) h ->
  head req <> Some OpReplicate -> in_step s.1 -> in_step (with_var t (call req h) s).2.1.
Proof. intros. apply with_var_ends. by apply call_spec. Qed.

Lemma head_batch ks vs : head (batch_request ks vs) = Some OpBatchPut.
Proof. unfold batch_request. rewrite head_foldl; [done| |done]. by intros [|b e] x. Qed.

Lemma finishes_pairs : finishes (N := N) (T := gmap bytes bytes) false pairs_reply.
Proof.
  apply finishes_pure. intros f s. unfold pairs_reply, sm_bind, get_var. destruct (Decoder.U32 _) as [count d].
  destruct (pairs_loop _ d _) as [out d']. cbn. by destruct (Decoder.Err d').
Qed.

Lemma finishes_read : finishes (N := N) (T := bytes) false read_reply.
Proof.
  apply finishes_pure. intros f s. unfold read_reply. destruct (bool_decide _); [done|].
  destruct (Decoder.Bytes _) as [v d]. cbn. by destruct (Decoder.Done d).
Qed.

Lemma finishes_ok name : finishes (N := N) (T := unit) false (expect_ok name).
Proof. apply finishes_pure. intros f s. unfold expect_ok. by destruct (bool_decide _). Qed.

Lemma finishes_found : finishes (N := N) (T := unit) false expect_found.
Proof. apply finishes_pure. intros f s. unfold expect_found. by destruct (bool_decide _). Qed.

Lemma run_method_in_step m s : in_step s.1 -> in_step (run_method m s).1.
Proof.
  intros Hs. destruct m; cbn [run_method]; try (by apply call_in_step; [apply finishes_ok || apply finishes_found ||
    apply finishes_read || apply finishes_pairs || (by apply finishes_pure)|..]).
  - unfold client_BatchPut. destruct (negb _); [done|].
    apply call_in_step; [|by rewrite head_batch|done].
    unfold ranged. rewrite head_batch. apply finishes_ok.
  - apply call_in_step; [apply finishes_range|done..].
  - apply call_in_step; [apply finishes_range|done..].
Qed.

(** C7: no call of a client is ever handed the rest of another call's reply.
    On a network where a request is answered by one frame, or a range query by
    chunks and a last frame, and where connections may break anywhere, a client
    that starts in step is in step after any history of calls, whatever the
    replies say and wherever callbacks give up: it has no connection, or one
    with nothing unread.  So what its next exchange returns was read off the
    bytes that exchange's own request brought. *)
Theorem connection_in_step ms c n : in_step c ->
  let '(c', n') := run_methods ms (c, n) in
  in_step c' /\
  forall req frame s', head req <> Some OpReplicate -> cl_conn c' <> None ->
    client_exchange (N := N) (T := unit) req ((c', n'), tt) = (Ok frame, s') ->
    (exists fs, whole_reply (ranged req) (frame :: fs)) /\
    exists wire inp n'' rest, WriteFrame req = Ok wire /\ deliver (cl_current c') wire n' = (Ok inp, n'') /\
      ReadFrame inp = Ok (frame, rest).
Proof.
  intros Hc. assert (Hrun : forall s, in_step s.1 -> in_step (run_methods ms s).1).
  { induction ms as [|m ms IH]; intros s Hs; [done|]. apply IH. by apply run_method_in_step. }
  specialize (Hrun (c, n) Hc). destruct (run_methods ms (c, n)) as [c' n']. split; [done|].
  intros req frame s' Hreq Hconn Hex. destruct Hrun as [Hp [Hn|He]]; [done|]. cbn [fst] in *.
  split; [|by apply (exchange_own req ((c', n'), tt) frame s')].
  pose proof (exchange_spec (T := unit) req ((c', n'), tt) He Hp Hreq) as Hspec. unfold wp in Hspec. rewrite Hex in Hspec.
  destruct Hspec as (fs & Hw & _). by exists fs.
Qed.
End histories.
