(* ===== verification/Loops.v ===== *)
(** * The client's reply loops

    The loops over a chunk's pairs, a range reply's frames and a list of names
    and values end on any bytes: the fuel they are given is never what stops
    them.  And a list of names and values is read back as it was sent. *)

From S2P Require Import Prelude Bytes Decimal Record Datafile Index Store Compact Proto Text Node Election Replication.
From S2P Require Import Server Client Wire Sessions.

Local Open Scope Z_scope.
Local Open Scope gokv_scope.

(** ** Progress *)

Lemma cursor_wf pre post : dec_wf (cursor pre post).
Proof.
  unfold dec_wf, cursor. cbn [d_pos d_B]. rewrite zlen_app. pose proof (zlen_nonneg pre). pose proof (zlen_nonneg post). lia.
Qed.

(** A field that decodes takes up its length prefix at least. *)
Lemma Bytes_progress d : dec_wf d -> Decoder.Err (Decoder.Bytes d).2 = None ->
  Decoder.Err d = None /\ d_pos d + 4 <= d_pos (Decoder.Bytes d).2.
Proof.
  unfold dec_wf, Decoder.Err. intros Hd. unfold Decoder.Bytes, Decoder.U32.
  destruct (Decoder.failed d || (zlen (d_B d) <? d_pos d + 4)) eqn:E.
  - unfold Decoder.failed at 1, Decoder.fail. cbn. done.
  - apply orb_false_elim in E as [E _].
    destruct (_ || _ || _) eqn:E2; [done|]. cbn. intros He. split; [done|]. reflect_bools. lia.
Qed.

Lemma two_fields d k d1 v d2 : dec_wf d -> Decoder.Bytes d = (k, d1) -> Decoder.Bytes d1 = (v, d2) ->
  dec_wf d2 /\ d_B d2 = d_B d /\ (Decoder.Err d2 = None -> d_pos d + 8 <= d_pos d2).
Proof.
  intros Hd E1 E2. pose proof (dec_Bytes_step d Hd) as S1. pose proof (Bytes_progress d Hd) as P1.
  rewrite E1 in S1, P1. cbn [snd] in *. assert (Hd1 : dec_wf d1) by eauto with dec.
  pose proof (dec_Bytes_step d1 Hd1) as S2. pose proof (Bytes_progress d1 Hd1) as P2.
  rewrite E2 in S2, P2. cbn [snd] in *. split; [eauto with dec|].
  destruct S1 as (B1 & _), S2 as (B2 & _). split; [congruence|]. intros He.
  destruct (P2 He) as [He1 ?]. destruct (P1 He1). lia.
Qed.

Lemma ReadFull_length n inp p rest : ReadFull n inp = Ok (p, rest) -> 0 <= n -> zlen rest = zlen inp - n.
Proof.
  unfold ReadFull. destruct (Z.eqb_spec n 0); [intros [= <- <-]; lia|]. destruct (zlen inp =? 0); [done|].
  destruct (Z.ltb_spec (zlen inp) n); [done|]. intros [= <- <-] Hn. unfold zlen in *. rewrite length_drop. lia.
Qed.

Lemma ReadFrame_shrinks inp f rest : ReadFrame inp = Ok (f, rest) -> (length rest < length inp)%nat.
Proof.
  unfold ReadFrame. destruct (ReadFull 4 inp) as [[hdr inp1]|] eqn:E1; [|done]. destruct (_ <? _); [done|].
  intros E2. apply ReadFull_length in E1; [|lia].
  pose proof (be_get_range hdr). apply ReadFull_length in E2; [|lia]. unfold zlen in *. lia.
Qed.

Section loops.
Context {N : Type} `{Network N}.

(** ** Fuel *)

Section fuel.
Context {T : Type} (fn : bytes -> bytes -> T -> result cerr unit * T).
Implicit Types (s : (client * N) * T).

Lemma chunk_pairs_fuel n1 : forall n2 d s, dec_wf d -> zlen (d_B d) - d_pos d < Z.of_nat n1 ->
  zlen (d_B d) - d_pos d < Z.of_nat n2 -> chunk_pairs n1 fn d s = chunk_pairs n2 fn d s.
Proof.
  induction n1 as [|n1 IH]; intros [|n2] d s Hd H1 H2; try (unfold dec_wf in Hd; lia). cbn [chunk_pairs].
  destruct (Decoder.Err d); [done|]. unfold Decoder.Empty. destruct (Z.leb_spec (zlen (d_B d)) (d_pos d)); [done|].
  destruct (Decoder.Bytes d) as [k d1] eqn:E1. destruct (Decoder.Bytes d1) as [v d2] eqn:E2.
  destruct (two_fields d k d1 v d2 Hd E1 E2) as (Hd2 & HB & Hprog).
  destruct (Decoder.Err d2); [done|]. specialize (Hprog eq_refl). unfold sm_bind, attempt, on_var. cbn [fst snd].
  destruct (fn k v s.2) as [[[]|e] t']; cbn [fst snd]; [|done]. apply IH; [done|rewrite HB; lia|rewrite HB; lia].
Qed.

Lemma range_frames_fuel n1 : forall n2 f s, (length (default [] (cl_conn s.1.1)) < n1)%nat ->
  (length (default [] (cl_conn s.1.1)) < n2)%nat -> range_frames n1 fn f s = range_frames n2 fn f s.
Proof.
  induction n1 as [|n1 IH]; intros [|n2] f s H1 H2; try lia. cbn [range_frames].
  destruct (bool_decide (status_of f = StatusRangeEnd)); [done|].
  destruct (bool_decide (status_of f = StatusRangeChunk)); [|done]. apply sm_bind_cong. intros [] s1 E1.
  pose proof (chunk_pairs_spec fn (S (length f)) (Decoder.NewDec (tail f)) s) as Hch. unfold wp in Hch.
  rewrite E1 in Hch. apply sm_bind_cong. intros r s2. unfold attempt. intros [= <- <-].
  destruct (next_frame s1) as [[g|e] s3] eqn:E3; cbn [fst snd]; [|done]. destruct g as [|b g]; [done|].
  assert (Hlt : (length (default [] (cl_conn s3.1.1)) < length (default [] (cl_conn s1.1.1)))%nat).
  { unfold next_frame, sm_bind, get_client in E3. destruct (ReadFrame _) as [[g' rest]|e] eqn:Er; [|done].
    apply ReadFrame_shrinks in Er. injection E3 as _ <-. exact Er. }
  rewrite Hch in Hlt. apply IH; lia.
Qed.
End fuel.

Lemma pairs_loop_err n d out e : Decoder.Err d = Some e -> pairs_loop n d out = (out, d).
Proof. intros E. destruct n; [done|]. cbn [pairs_loop]. by rewrite E. Qed.

Lemma pairs_loop_fuel n : forall extra d out, dec_wf d -> zlen (d_B d) - d_pos d < 8 * Z.of_nat n ->
  pairs_loop (n + extra) d out = pairs_loop n d out.
Proof.
  induction n as [|n IH]; intros extra d out Hd Hn; [unfold dec_wf in Hd; lia|]. cbn [Nat.add pairs_loop].
  destruct (Decoder.Err d); [done|]. unfold Decoder.Str.
  destruct (Decoder.Bytes d) as [k d1] eqn:E1. destruct (Decoder.Bytes d1) as [v d2] eqn:E2.
  destruct (two_fields d k d1 v d2 Hd E1 E2) as (Hd2 & HB & Hprog).
  destruct (Decoder.Err d2) as [e|] eqn:Ee; [by rewrite !(pairs_loop_err _ _ _ e)|].
  apply IH; [done|]. specialize (Hprog eq_refl). rewrite HB. lia.
Qed.

Lemma pairs_loop_cut count d out : dec_wf d ->
  pairs_loop (Z.to_nat (Z.min count (Decoder.Remaining d / 8 + 1))) d out = pairs_loop (Z.to_nat count) d out.
Proof.
  intros Hd. destruct (Decoder.Err d) as [e|] eqn:Ee; [by rewrite !(pairs_loop_err _ _ _ e)|].
  unfold Decoder.Remaining, Decoder.failed. unfold Decoder.Err in Ee. rewrite Ee. cbn [orb].
  unfold dec_wf in Hd. destruct (Z.ltb_spec (zlen (d_B d)) (d_pos d)); [lia|].
  set (r := zlen (d_B d) - d_pos d). destruct (Z.le_ge_cases count (r / 8 + 1)); [by rewrite Z.min_l|].
  rewrite Z.min_r by done.
  assert (Hr : 0 <= r / 8) by (apply Z.div_pos; lia). pose proof (Z.mul_succ_div_gt r 8).
  replace (Z.to_nat count) with (Z.to_nat (r / 8 + 1) + (Z.to_nat count - Z.to_nat (r / 8 + 1)))%nat by lia.
  symmetry. apply pairs_loop_fuel; [done|]. fold r. lia.
Qed.

(** C32: the client's reply loops end on any bytes a peer may send.  The fuel of
    each is more than the turns it can take: more fuel changes nothing for the
    pairs of a chunk, none for the frames of a range reply, whatever is unread
    on the connection, and cutting a list's count down to what its body has
    room for changes nothing against counting it out, up to 2^32 - 1 turns. *)
Theorem reply_loops_terminate {T} (fn : bytes -> bytes -> T -> result cerr unit * T) first (s : (client * N) * T) extra :
  chunk_pairs (S (length first) + extra) fn (Decoder.NewDec (tail first)) s =
    chunk_pairs (S (length first)) fn (Decoder.NewDec (tail first)) s /\
  range_frames (S (length (default [] (cl_conn s.1.1))) + extra) fn first s = range_reply fn first s /\
  (let (count, d) := Decoder.U32 (Decoder.NewDec (tail first)) in
   forall out, pairs_loop (Z.to_nat (Z.min count (Decoder.Remaining d / 8 + 1))) d out =
               pairs_loop (Z.to_nat count) d out).
Proof.
  assert (Hwf : dec_wf (Decoder.NewDec (tail first))).
  { unfold dec_wf. cbn. pose proof (zlen_nonneg (tail first)). lia. }
  assert (Hlen : zlen (tail first) <= zlen first) by (destruct first; rewrite ?zlen_cons; cbn; lia).
  split; [|split].
  - apply chunk_pairs_fuel; [done|..]; cbn [d_B d_pos Decoder.NewDec]; unfold zlen in *; lia.
  - unfold range_reply, sm_bind, get_client. apply range_frames_fuel; lia.
  - pose proof (dec_U32_step _ Hwf) as Hst. destruct (Decoder.U32 _) as [count d]. cbn [snd] in Hst.
    intros out. apply pairs_loop_cut. eauto with dec.
Qed.

(** ** Names and values *)

Definition name_bytes (p : bytes * bytes) : bytes := Enc.Str p.1 [] ++ Enc.Str p.2 [].

Lemma encodePairs_bytes l : encodePairs l = StatusOK :: be_put 4 (u32 (zlen l)) ++ mjoin (name_bytes <$> l).
Proof.
  assert (Hfold : forall e, foldl (fun e p => Enc.Str p.2 (Enc.Str p.1 e)) e l = e ++ mjoin (name_bytes <$> l)).
  { clear. induction l as [|p l IH]; intros e; [by rewrite app_nil_r|]. cbn [foldl]. rewrite IH, Str_app, (Str_app p.1 e).
    cbn [fmap list_fmap mjoin list_join]. unfold name_bytes. by rewrite <- !app_assoc. }
  unfold encodePairs. by rewrite Hfold.
Qed.

Lemma zlen_names l : zlen (mjoin (name_bytes <$> l)) = zsum (fun p => 8 + zlen p.1 + zlen p.2) l.
Proof.
  induction l as [|p l IH]; [done|]. cbn [fmap list_fmap mjoin list_join]. rewrite zlen_app. unfold name_bytes at 1.
  change (Enc.Str ?x []) with (Enc.Bytes x []). rewrite zlen_app, !zlen_Bytes. cbn [zsum foldr].
  change (foldr _ _ l) with (zsum (fun p => 8 + zlen p.1 + zlen p.2) l). rewrite <- IH. unfold mjoin. lia.
Qed.

Lemma names_bounds l b : zlen (mjoin (name_bytes <$> l)) <= b ->
  8 * zlen l <= b /\ Forall (fun p => zlen p.1 <= b /\ zlen p.2 <= b) l.
Proof.
  rewrite zlen_names. revert b. induction l as [|p l IH]; intros b Hb; [split; [change (0 <= b) in Hb; change (8 * 0 <= b); lia|constructor]|].
  cbn [zsum foldr] in Hb. fold (zsum (fun p : bytes * bytes => 8 + zlen p.1 + zlen p.2) l) in Hb.
  pose proof (zlen_nonneg p.1). pose proof (zlen_nonneg p.2).
  destruct (IH (b - (8 + zlen p.1 + zlen p.2))) as [Hc Hl]; [lia|]. rewrite zlen_cons. pose proof (zlen_nonneg l).
  split; [lia|]. constructor; [lia|]. eapply Forall_impl; [exact Hl|]. intros q [? ?]. lia.
Qed.

Lemma pairs_loop_names l : forall pre out, Forall (fun p => zlen p.1 < 2 ^ 32 /\ zlen p.2 < 2 ^ 32) l ->
  pairs_loop (length l) (cursor pre (mjoin (name_bytes <$> l))) out =
    (foldl (fun m p => <[p.1 := p.2]> m) out l, cursor (pre ++ mjoin (name_bytes <$> l)) []).
Proof.
  induction l as [|p l IH]; intros pre out Hl; [cbn; by rewrite app_nil_r|].
  apply Forall_cons in Hl as [[Hk Hv] Hl]. cbn [length pairs_loop fmap list_fmap mjoin list_join]. rewrite cursor_Err.
  unfold name_bytes at 1. rewrite <- !app_assoc. rewrite cursor_Str, cursor_Str by done.
  rewrite IH by done. cbn [foldl]. unfold name_bytes at 2. by rewrite <- !app_assoc.
Qed.

Lemma insert_all_map (l : list (bytes * bytes)) :
  foldl (fun m p => <[p.1 := p.2]> m) (∅ : gmap bytes bytes) l = list_to_map (reverse l).
Proof.
  induction l as [|p l IH] using rev_ind; [done|]. rewrite foldl_app, IH, reverse_snoc. by destruct p.
Qed.

(** The names and values of a stats or info reply arrive as they were sent:
    the client's map holds for every name the value that came last under it,
    and nothing else. *)
Theorem pairs_roundtrip l (s : client * N) : small (encodePairs l) ->
  pairs_reply (encodePairs l) (s, ∅) = (Ok tt, (s, list_to_map (reverse l))).
Proof.
  unfold small. rewrite encodePairs_bytes, zlen_cons, zlen_app. change MaxFrameSize with 335544320.
  intros Hs. pose proof (zlen_nonneg (be_put 4 (u32 (zlen l)))).
  destruct (names_bounds l 335544320) as [Hc Hl]; [lia|]. pose proof (zlen_nonneg l).
  assert (Hu : is_u32 (zlen l)) by (unfold is_u32; lia).
  assert (Hl32 : Forall (fun p => zlen p.1 < 2 ^ 32 /\ zlen p.2 < 2 ^ 32) l).
  { eapply Forall_impl; [exact Hl|]. intros p [? ?]. lia. }
  unfold pairs_reply. cbn [tail]. rewrite u32_small, cursor_new, cursor_U32 by done.
  unfold sm_bind at 1, get_var. cbn [snd]. rewrite pairs_loop_cut by apply cursor_wf.
  rewrite zlen_to_nat, pairs_loop_names by done. rewrite insert_all_map. done.
Qed.
End loops.
