(* ===== verification/Service.v ===== *)
(** * The server is a map

    A leader's answers over the wire.  For every request of the client's
    methods: the frames the leader writes are those its map dictates, and its
    store stands for the map after the request; a follower answers writes with
    a redirect and keeps its store. *)

From S2P Require Import Prelude Bytes Decimal Record Datafile Index Store StoreInv WritePath Ops Reads.
From S2P Require Import Scans Background Engine Compact Proto Text Node Election Replication Server Client Wire.

Local Open Scope Z_scope.
Local Open Scope gokv_scope.

(** ** Requests and the reference answers *)

Inductive request :=
| RqPing
| RqGet (k : bytes)
| RqPut (k v : bytes)
| RqDelete (k : bytes)
| RqBatch (ks vs : list bytes)
| RqRange (start end_ : bytes) (limit : Z).

Definition request_frame (rq : request) : bytes :=
  match rq with
  | RqPing => ping_request
  | RqGet k => get_request k
  | RqPut k v => put_request k v
  | RqDelete k => delete_request k
  | RqBatch ks vs => batch_request ks vs
  | RqRange start end_ limit => range_request start end_ limit
  end.

Definition is_write (rq : request) : bool :=
  match rq with RqPut _ _ | RqDelete _ | RqBatch _ _ => true | _ => false end.

(** The engine's command behind a request. *)
Definition command (now : Z) (rq : request) : option cmd :=
  match rq with
  | RqPing | RqRange _ _ _ => None
  | RqGet k => Some (CGet k)
  | RqPut k v => Some (CPut now k v)
  | RqDelete k => Some (CDelete now k)
  | RqBatch ks vs => Some (CBatch now ks vs)
  end.

Definition map_after (now : Z) (m : gmap bytes bytes) (rq : request) : gmap bytes bytes :=
  match command now rq with Some c => after m c | None => m end.

Definition error_frame (os_text : error -> bytes) (e : error) : bytes :=
  Enc.Str (err_text os_text (EEngine e)) (Enc.NewEnc StatusError).

(** The frame for the outcome of a write; only a delete can miss its key. *)
Definition write_frame_of (os_text : error -> bytes) (e : option error) : bytes :=
  match e with
  | None => [StatusOK]
  | Some ErrKeyNotFound => [StatusNotFound]
  | Some e => error_frame os_text e
  end.

(** Pairs as they stand in a chunk. *)
Definition pair_bytes (p : bytes * bytes) : bytes := Enc.Bytes p.1 [] ++ Enc.Bytes p.2 [].
Definition chunk_frame (l : list (bytes * bytes)) : bytes := StatusRangeChunk :: mjoin (pair_bytes <$> l).

Definition range_limit (cfg : Config) (limit : Z) : Z :=
  if (limit <=? 0) || (c_MaxRangeResults cfg <? limit) then c_MaxRangeResults cfg else limit.

(** The frames a leader that stands for [m] must answer with. *)
Definition answers_wire (os_text : error -> bytes) (cfg : Config) (m : gmap bytes bytes) (rq : request)
  (frames : list bytes) : Prop :=
  match rq with
  | RqPing => frames = [[StatusOK]]
  | RqGet k => frames = [match lookup_reply m k with
                         | Ok v => Enc.Bytes v [StatusOK]
                         | Err e => write_frame_of os_text (Some e)
                         end]
  | RqPut k v => frames = [write_frame_of os_text (put_error k v)]
  | RqDelete k => frames = [write_frame_of os_text (delete_refusal m k)]
  | RqBatch ks vs => frames = [write_frame_of os_text (batch_refusal ks vs)]
  | RqRange start end_ limit =>
      exists l groups, range_of m start end_ l /\
        let sent := take (Z.to_nat (range_limit cfg limit)) l in
        mjoin groups = sent /\ Forall (fun g => g <> []) groups /\
        frames = (chunk_frame <$> groups) ++ [Enc.U64 (zlen sent) [StatusRangeEnd]]
  end.

(** ** Writers that do not fail *)

Section service.
Context {I : Type} `{KeyIndexSpec I}.
Context (os_text : error -> bytes).
Implicit Types (n : node I) (w : writer) (m : gmap bytes bytes).

Definition sends (w : writer) (frames : list bytes) : writer := mkWriter (wr_out w ++ frames) [].

Lemma wr_write_ok p w : small p -> wr_fails w = [] -> wr_write p w = (Ok tt, sends w [p]).
Proof.
  intros Hp Hw. unfold wr_write, WriteFrame. unfold small in Hp.
  destruct (Z.ltb_spec MaxFrameSize (zlen p)); [lia|]. unfold wr_call. rewrite Hw.
  cbn [wr_out wr_fails]. unfold sends. by rewrite Hw.
Qed.

Lemma wr_call_ok w : wr_fails w = [] -> wr_call w = (Ok tt, w).
Proof. intros Hw. unfold wr_call. by rewrite Hw. Qed.

Lemma write_frame_ok p n w : small p -> wr_fails w = [] ->
  write_frame p (n, w) = (Ok tt, (n, sends w [p])).
Proof. intros Hp Hw. unfold write_frame, on_writer. cbn [fst snd]. by rewrite wr_write_ok. Qed.

Lemma flush_ok n w : wr_fails w = [] -> flush (n, w) = (Ok tt, (n, w)).
Proof. intros Hw. unfold flush, on_writer. cbn [fst snd]. by rewrite wr_call_ok. Qed.

Lemma writeError_ok e n w : small (Enc.Str (err_text os_text e) (Enc.NewEnc StatusError)) -> wr_fails w = [] ->
  writeError os_text e (n, w) = (Ok tt, (n, sends w [Enc.Str (err_text os_text e) (Enc.NewEnc StatusError)])).
Proof.
  intros Hs Hw. unfold writeError, sm_bind. rewrite write_frame_ok by done. by apply flush_ok.
Qed.

Lemma sends_app w a b : sends (sends w a) b = sends w (a ++ b).
Proof. unfold sends. cbn [wr_out]. by rewrite <- app_assoc. Qed.

(** ** Delivering notes *)

Lemma dispatch_state n : exists ss, dispatch n = set_streams ss (set_store (set_notes [] (n_store n)) n).
Proof.
  assert (Haux : forall l n0, exists ss,
    foldl (fun n note => if note.1.1 =? n_observer n then fanout note.1.2 note.2 n else n) n0 l = set_streams ss n0).
  { induction l as [|x l IH]; intros n0; simpl; [exists (n_streams n0); by destruct n0|].
    destruct (_ =? _); [|apply IH]. destruct (IH (fanout x.1.2 x.2 n0)) as [ss ->]. by exists ss. }
  apply Haux.
Qed.

Lemma dispatch_none n : st_notes (n_store n) = [] -> dispatch n = n.
Proof. intros E. unfold dispatch. rewrite E. destruct n as [? []]; simpl in *. by subst. Qed.

Lemma refines_notes l (s : store I) m : refines s m -> refines (set_notes l s) m.
Proof.
  intros (L & M & [[? ? ? ? ?] ? ? ?] & Hkv). exists L, M. split; [|done].
  split; [by split|done..].
Qed.

(** ** What the map holds *)

Lemma refines_bounded (s : store I) m k v : refines s m -> m !! k = Some v ->
  zlen k <= MaxKeySize /\ zlen v <= MaxValueSize.
Proof.
  intros (L & M & Hok & <-) Hk. unfold kv in Hk. rewrite lookup_omap in Hk.
  destruct (M !! k) as [r|] eqn:Er; [|done]. simpl in Hk. unfold live_value in Hk.
  destruct (tombstone r); [done|]. injection Hk as <-.
  pose proof (ok_inv _ _ _ Hok) as Hinv. destruct (si_index _ _ _ Hinv) as [_ Hv]. specialize (Hv k).
  rewrite Er in Hv. destruct (idx_view (st_idx s) !! k) as [e|]; [|done]. pose proof Hv as (<- & _).
  destruct (located_bytes _ _ _ _ _ _ (si_files _ _ _ Hinv) Hv) as (? & ? & _ & _ & _ & _ & Hr & _).
  destruct Hr as (_ & _ & Hk & Hv'). lia.
Qed.

(** ** One request *)

(** The node afterwards: its store stands for [m'], the rest is as it was. *)
Record served (cost : Z) n m' n' : Prop := {
  sv_map : refines (n_store n') m';
  sv_calm : calm cost (n_store n) (n_store n');
  sv_mem : n_mem n' = n_mem n;
  sv_cfg : n_cfg n' = n_cfg n;
  sv_closing : n_closing n' = n_closing n
}.

Lemma served_engine n c m : step_ok c (n_store n) m ->
  served (cost c) n (after m c) (dispatch (set_store (exec c (n_store n)).2 n)).
Proof.
  intros (_ & Href & Hcalm). destruct (dispatch_state (set_store (exec c (n_store n)).2 n)) as [ss ->].
  split; [by apply refines_notes|done..].
Qed.

Lemma refusal_small e : e = ErrEmptyKey \/ e = ErrKeyTooLarge \/ e = ErrValueTooLong \/ e = ErrBatchLen ->
  small (error_frame os_text e).
Proof. intros [->|[->|[->| ->]]]; unfold small; vm_compute; discriminate. Qed.

Lemma validateKey_err k e : validateKey k = Some e -> e = ErrEmptyKey \/ e = ErrKeyTooLarge.
Proof. unfold validateKey. destruct (_ =? _); [intros [= <-]; auto|]. destruct (_ <? _); [intros [= <-]; auto|done]. Qed.

Lemma put_error_small k v e : put_error k v = Some e -> e <> ErrKeyNotFound /\ small (error_frame os_text e).
Proof.
  unfold put_error. intros E.
  assert (Hc : e = ErrEmptyKey \/ e = ErrKeyTooLarge \/ e = ErrValueTooLong \/ e = ErrBatchLen).
  { destruct (validateKey k) as [x|] eqn:Ek.
    - injection E as <-. apply validateKey_err in Ek. tauto.
    - destruct (_ <? _); [|done]. injection E as <-. auto. }
  split; [by destruct Hc as [->|[->|[->| ->]]]|by apply refusal_small].
Qed.

Lemma batch_error_small ks : forall vs e, batch_error ks vs = Some e ->
  e <> ErrKeyNotFound /\ small (error_frame os_text e).
Proof.
  induction ks as [|k ks IH]; intros [|v vs] e E; try done. cbn [batch_error] in E.
  destruct (validateKey k) as [x|] eqn:Ek; [by apply (put_error_small k v); unfold put_error; rewrite Ek|].
  destruct (MaxValueSize <? zlen v) eqn:Ev; [|by apply (IH vs)].
  apply (put_error_small k v). unfold put_error. by rewrite Ek, Ev.
Qed.

Lemma batch_refusal_small ks vs e : batch_refusal ks vs = Some e ->
  e <> ErrKeyNotFound /\ small (error_frame os_text e).
Proof.
  unfold batch_refusal. destruct (decide _); [apply batch_error_small|]. intros [= <-].
  split; [done|]. apply refusal_small. auto.
Qed.

Lemma write_frame_of_other e : e <> ErrKeyNotFound -> write_frame_of os_text (Some e) = error_frame os_text e.
Proof. by destruct e. Qed.

Lemma small_status (b : byte) : small [b].
Proof. unfold small. rewrite max_frame. unfold zlen. simpl. lia. Qed.

(** A write's outcome becomes the reply. *)
Lemma answer_write (r : option error) n w : wr_fails w = [] ->
  (forall e, r = Some e -> e <> ErrKeyNotFound /\ small (error_frame os_text e)) ->
  match refuse r with
  | Err e => writeError os_text (EEngine e)
  | Ok _ => writeStatus StatusOK
  end (n, w) = (Ok tt, (n, sends w [write_frame_of os_text r])).
Proof.
  intros Hw Hr. destruct r as [e|]; cbn [refuse].
  - destruct (Hr e eq_refl) as [Hne Hs]. rewrite write_frame_of_other by done. by apply writeError_ok.
  - apply write_frame_ok; [apply small_status|done].
Qed.

Lemma at_leader_ok k n w : node_Role n = Leader -> at_leader (I := I) k (n, w) = k (n, w).
Proof. intros Hr. unfold at_leader, sm_bind, get_node. cbn [fst]. by rewrite Hr. Qed.

(** *** What the handlers decode *)

Lemma put_decodes now k v nw : zlen k < 2 ^ 32 -> zlen v < 2 ^ 32 ->
  handlePut (I := I) os_text now (cursor [] (Enc.Bytes k [] ++ Enc.Bytes v [])) nw =
    at_leader (apply_write os_text (Put now k v)) nw.
Proof.
  intros Hk Hv. unfold handlePut. rewrite cursor_Bytes by done.
  rewrite <- (app_nil_r (Enc.Bytes v [])), cursor_Bytes by done. unfold when_done. by rewrite cursor_Done.
Qed.

Lemma delete_decodes now k nw : zlen k < 2 ^ 32 ->
  handleDelete (I := I) os_text now (cursor [] (Enc.Bytes k [])) nw =
    at_leader (apply_delete os_text (Delete now k)) nw.
Proof.
  intros Hk. unfold handleDelete. rewrite <- (app_nil_r (Enc.Bytes k [])), cursor_Bytes by done.
  unfold when_done. by rewrite cursor_Done.
Qed.

Lemma handlePut_ok now k v n w m : node_Role n = Leader -> wr_fails w = [] ->
  step_ok (CPut now k v) (n_store n) m -> zlen k < 2 ^ 32 -> zlen v < 2 ^ 32 ->
  exists n', handlePut os_text now (cursor [] (Enc.Bytes k [] ++ Enc.Bytes v [])) (n, w) =
      (Ok tt, (n', sends w [write_frame_of os_text (put_error k v)])) /\
    served 1 n (after m (CPut now k v)) n'.
Proof.
  intros Hrole Hw Hst Hk Hv. pose proof (served_engine _ _ _ Hst) as Hs. destruct Hst as (Hans & _).
  rewrite put_decodes, at_leader_ok by done.
  simpl in Hans. injection Hans as Hans. unfold apply_write, sm_bind, engine. cbn [fst snd]. rewrite Hans.
  eexists. split; [|exact Hs]. apply answer_write; [done|]. apply put_error_small.
Qed.

Lemma handleDelete_ok now k n w m : node_Role n = Leader -> wr_fails w = [] ->
  step_ok (CDelete now k) (n_store n) m -> zlen k < 2 ^ 32 ->
  exists n', handleDelete os_text now (cursor [] (Enc.Bytes k [])) (n, w) =
      (Ok tt, (n', sends w [write_frame_of os_text (delete_refusal m k)])) /\
    served 1 n (after m (CDelete now k)) n'.
Proof.
  intros Hrole Hw Hst Hk. pose proof (served_engine _ _ _ Hst) as Hs. destruct Hst as (Hans & _).
  rewrite delete_decodes, at_leader_ok by done.
  simpl in Hans. injection Hans as Hans. unfold apply_delete, sm_bind, engine. cbn [fst snd]. rewrite Hans.
  eexists. split; [|exact Hs]. unfold delete_refusal. destruct (validateKey k) as [e|] eqn:Ek; cbn [refuse].
  - destruct (put_error_small k [] e) as [Hne Hsm]; [unfold put_error; by rewrite Ek|].
    rewrite bool_decide_false, write_frame_of_other by done. by apply writeError_ok.
  - destruct (m !! k); cbn [refuse]; (apply write_frame_ok; [apply small_status|done]).
Qed.

Lemma handleGet_ok k n w m : wr_fails w = [] ->
  step_ok (CGet k) (n_store n) m -> refines (n_store n) m -> zlen k < 2 ^ 32 ->
  exists n', handleGet os_text (cursor [] (Enc.Bytes k [])) (n, w) =
      (Ok tt, (n', sends w [match lookup_reply m k with
                            | Ok v => Enc.Bytes v [StatusOK]
                            | Err e => write_frame_of os_text (Some e)
                            end])) /\
    served 0 n m n'.
Proof.
  intros Hw Hst Href Hk. pose proof (served_engine _ _ _ Hst) as Hs. destruct Hst as (Hans & _).
  unfold handleGet. rewrite <- (app_nil_r (Enc.Bytes k [])).
  rewrite cursor_Bytes by done. unfold when_done. rewrite cursor_Done.
  simpl in Hans. injection Hans as Hans. unfold sm_bind, engine. cbn [fst snd]. rewrite Hans.
  eexists. split; [|exact Hs]. unfold lookup_reply. destruct (validateKey k) as [e|] eqn:Ek.
  - destruct (put_error_small k [] e) as [Hne Hsm]; [unfold put_error; by rewrite Ek|].
    rewrite bool_decide_false, write_frame_of_other by done. by apply writeError_ok.
  - destruct (m !! k) as [v|] eqn:Ev; [|apply write_frame_ok; [apply small_status|done]].
    apply write_frame_ok; [|done]. destruct (refines_bounded _ _ _ _ Href Ev) as [_ Hv].
    unfold small. rewrite Bytes_app, zlen_app, zlen_Bytes, max_frame. unfold Enc.NewEnc, zlen at 1. simpl.
    change MaxValueSize with 268435456 in Hv. lia.
Qed.

(** ** Batches *)

Definition pairs_bytes (l : list (bytes * bytes)) : bytes := mjoin (pair_bytes <$> l).

Lemma fold_pairs l : forall e, foldl (fun e p => Enc.Bytes p.2 (Enc.Bytes p.1 e)) e l = e ++ pairs_bytes l.
Proof.
  induction l as [|p l IH]; intros e; [unfold pairs_bytes; simpl; by rewrite app_nil_r|].
  change (pairs_bytes (p :: l)) with (pair_bytes p ++ pairs_bytes l).
  simpl. rewrite IH, Bytes_app, (Bytes_app p.1 e). unfold pair_bytes. by rewrite <- !app_assoc.
Qed.

Lemma zlen_pairs l : zlen (pairs_bytes l) = zsum (fun p => 8 + zlen p.1 + zlen p.2) l.
Proof.
  induction l as [|p l IH]; [done|]. change (pairs_bytes (p :: l)) with (pair_bytes p ++ pairs_bytes l).
  rewrite zlen_app, IH. unfold pair_bytes. rewrite zlen_app, !zlen_Bytes. simpl. lia.
Qed.

Lemma pairs_each l : zlen (pairs_bytes l) < 2 ^ 32 ->
  Forall (fun p => zlen p.1 < 2 ^ 32 /\ zlen p.2 < 2 ^ 32) l /\ 8 * zlen l <= zlen (pairs_bytes l).
Proof.
  rewrite zlen_pairs. induction l as [|p l IH]; intros Hl; [done|]. simpl in Hl. rewrite zlen_cons.
  pose proof (zlen_nonneg p.1). pose proof (zlen_nonneg p.2).
  assert (Hnn : 0 <= zsum (fun p => 8 + zlen p.1 + zlen p.2) l).
  { clear. induction l as [|q l IH]; simpl; [lia|]. pose proof (zlen_nonneg q.1). pose proof (zlen_nonneg q.2). lia. }
  destruct IH as [? ?]; [lia|]. split; [constructor; [lia|done]|simpl; lia].
Qed.

Lemma batch_pairs_ok l : forall pre ks vs, Forall (fun p => zlen p.1 < 2 ^ 32 /\ zlen p.2 < 2 ^ 32) l ->
  batch_pairs (length l) (cursor pre (pairs_bytes l)) ks vs =
    Ok ((ks ++ l.*1, vs ++ l.*2), cursor (pre ++ pairs_bytes l) []).
Proof.
  induction l as [|p l IH]; intros pre ks vs Hl.
  - change (pairs_bytes []) with (@nil byte). cbn [length batch_pairs fmap list_fmap]. by rewrite !app_nil_r.
  - apply Forall_cons in Hl as [[Hk Hv] Hl]. cbn [length batch_pairs].
    change (pairs_bytes (p :: l)) with (pair_bytes p ++ pairs_bytes l). unfold pair_bytes. rewrite <- !app_assoc.
    rewrite cursor_Bytes, cursor_Bytes, cursor_Err, IH by done. cbn [fmap list_fmap]. by rewrite <- !app_assoc.
Qed.

Lemma batch_log_size now ks : forall vs,
  log_size (batch_records now ks vs) <= 4 * zlen (pairs_bytes (zip ks vs)).
Proof.
  induction ks as [|k ks IH]; intros [|v vs]; [done..|].
  cbn [zip zip_with]. change (pairs_bytes ((k, v) :: zip_with pair ks vs)) with
    (pair_bytes (k, v) ++ pairs_bytes (zip ks vs)).
  rewrite zlen_app. unfold pair_bytes. rewrite zlen_app, !zlen_Bytes. cbn [fst snd batch_records].
  specialize (IH vs). unfold log_size in *. rewrite encode_all_cons, zlen_app.
  pose proof (zlen_nonneg k). pose proof (zlen_nonneg v).
  match goal with |- zlen (encode ?r) + _ <= _ =>
    assert (Hr : zlen (encode r) = 29 + zlen k + zlen v) by (unfold zlen; rewrite length_encode; simpl; lia) end.
  lia.
Qed.

Lemma batch_decodes now ks vs nw : length ks = length vs -> zlen (pairs_bytes (zip ks vs)) < 2 ^ 32 ->
  handleBatchPut (I := I) os_text now (cursor [] (be_put 4 (u32 (zlen ks)) ++ pairs_bytes (zip ks vs))) nw =
    at_leader (apply_write os_text (BatchPut now ks vs)) nw.
Proof.
  intros Hlen Hsz. destruct (pairs_each _ Hsz) as [Hall Hcount].
  assert (Hzip : length (zip ks vs) = length ks) by (rewrite length_zip_with; lia).
  assert (Hz : zlen (zip ks vs) = zlen ks) by (unfold zlen; by rewrite Hzip).
  assert (Hu : is_u32 (zlen ks)) by (unfold is_u32; pose proof (zlen_nonneg ks); lia).
  unfold handleBatchPut. rewrite (u32_small (zlen ks)) by done. rewrite cursor_U32 by done.
  rewrite cursor_Err, cursor_Remaining.
  destruct (Z.ltb_spec (zlen ks) 0) as [|_]; [unfold is_u32 in Hu; lia|].
  destruct (Z.ltb_spec (zlen (pairs_bytes (zip ks vs)) / 8) (zlen ks)) as [Hlt|_].
  { exfalso. assert (zlen ks <= zlen (pairs_bytes (zip ks vs)) / 8) by (apply Z.div_le_lower_bound; lia). lia. }
  cbn [orb]. rewrite zlen_to_nat, <- Hzip, batch_pairs_ok by done.
  unfold when_done. rewrite cursor_Done. cbn [app fst snd]. by rewrite fst_zip, snd_zip by lia.
Qed.

Lemma handleBatchPut_ok now ks vs n w m : node_Role n = Leader -> wr_fails w = [] ->
  step_ok (CBatch now ks vs) (n_store n) m -> length ks = length vs ->
  zlen (pairs_bytes (zip ks vs)) < 2 ^ 32 ->
  exists n', handleBatchPut os_text now (cursor [] (be_put 4 (u32 (zlen ks)) ++ pairs_bytes (zip ks vs))) (n, w) =
      (Ok tt, (n', sends w [write_frame_of os_text (batch_refusal ks vs)])) /\
    served (zlen ks) n (after m (CBatch now ks vs)) n'.
Proof.
  intros Hrole Hw Hst Hlen Hsz. pose proof (served_engine _ _ _ Hst) as Hs. destruct Hst as (Hans & _).
  rewrite batch_decodes, at_leader_ok by done.
  simpl in Hans. injection Hans as Hans. unfold apply_write, sm_bind, engine. cbn [fst snd]. rewrite Hans.
  eexists. split; [|exact Hs]. apply answer_write; [done|]. apply batch_refusal_small.
Qed.

(** ** Ranges *)

Definition bounded_pair (p : bytes * bytes) : Prop := zlen p.1 <= MaxKeySize /\ zlen p.2 <= MaxValueSize.

(** The callback's state: complete chunks went out, [cur] is being filled. *)
Definition range_state (w : writer) (groups : list (list (bytes * bytes))) (cur : list (bytes * bytes)) (total : Z)
  : ranging := mkRanging (chunk_frame cur) total (sends w (chunk_frame <$> groups)) None.

Lemma chunk_frame_snoc cur k v : Enc.Bytes v (Enc.Bytes k (chunk_frame cur)) = chunk_frame (cur ++ [(k, v)]).
Proof.
  unfold chunk_frame. rewrite Bytes_app, (Bytes_app k), fmap_app, join_app. simpl. unfold pair_bytes.
  simpl. by rewrite app_nil_r, <- app_assoc.
Qed.

Lemma range_pair_ok w k v groups cur total : bounded_pair (k, v) ->
  zlen (chunk_frame cur) < rangeChunkBytes -> 0 <= total < 2 ^ 63 - 1 -> Forall (fun g => g <> []) groups ->
  exists groups' cur', range_pair k v (range_state w groups cur total) =
      (Ok tt, range_state w groups' cur' (total + 1)) /\
    mjoin groups' ++ cur' = mjoin groups ++ cur ++ [(k, v)] /\ zlen (chunk_frame cur') < rangeChunkBytes /\
    Forall (fun g => g <> []) groups'.
Proof.
  intros [Hk Hv] Hcur Htot Hne. cbn [fst snd] in *. unfold range_pair, range_state.
  cbn [rg_chunk rg_total rg_w rg_sendErr]. rewrite chunk_frame_snoc.
  rewrite u64_small by (unfold is_u64; lia).
  destruct (Z.leb_spec rangeChunkBytes (zlen (chunk_frame (cur ++ [(k, v)])))) as [Hge|Hlt].
  - assert (Hsm : small (chunk_frame (cur ++ [(k, v)]))).
    { unfold small. rewrite <- chunk_frame_snoc, Bytes_app, (Bytes_app k), !zlen_app, !zlen_Bytes, max_frame.
      change MaxKeySize with 65536 in Hk. change MaxValueSize with 268435456 in Hv.
      change rangeChunkBytes with 262144 in Hcur. lia. }
    rewrite wr_write_ok, wr_call_ok by done. exists (groups ++ [cur ++ [(k, v)]]), [].
    split; [|split; [|split]].
    + rewrite sends_app, fmap_app. done.
    + rewrite join_app. simpl. by rewrite !app_nil_r.
    + by vm_compute.
    + apply Forall_app. split; [done|]. constructor; [by destruct cur|done].
  - exists groups, (cur ++ [(k, v)]). done.
Qed.

Lemma feed_range w limit l : forall sent groups cur, Forall bounded_pair l ->
  zlen (chunk_frame cur) < rangeChunkBytes -> 0 <= sent < limit -> limit < 2 ^ 63 -> Forall (fun g => g <> []) groups ->
  exists groups' cur', let out := take (Z.to_nat (limit - sent)) l in
    feed range_pair limit l sent (range_state w groups cur sent) =
      (Ok tt, range_state w groups' cur' (sent + zlen out)) /\
    mjoin groups' ++ cur' = mjoin groups ++ cur ++ out /\ zlen (chunk_frame cur') < rangeChunkBytes /\
    Forall (fun g => g <> []) groups'.
Proof.
  induction l as [|[k v] l IH]; intros sent groups cur Hl Hcur Hs Hmax Hne.
  - exists groups, cur. cbn [feed]. rewrite take_nil, zlen_nil, Z.add_0_r, app_nil_r. done.
  - apply Forall_cons in Hl as [Hp Hl].
    destruct (range_pair_ok w k v groups cur sent) as (g1 & c1 & E1 & Hj1 & Hc1 & Hn1); [done..|lia|done|].
    cbn [feed]. rewrite E1. destruct (Z.ltb_spec 0 limit); [|lia]. cbn [andb].
    destruct (Z.leb_spec limit (sent + 1)) as [Hle|Hgt].
    + assert (Z.to_nat (limit - sent) = 1%nat) as -> by lia. exists g1, c1. cbn [take]. rewrite take_0. done.
    + destruct (IH (sent + 1) g1 c1) as (g2 & c2 & E2 & Hj2 & Hc2 & Hn2); [done|done|lia|done|done|].
      cbv zeta in *. replace (Z.to_nat (limit - sent)) with (S (Z.to_nat (limit - (sent + 1)))) by lia.
      cbn [take]. exists g2, c2. rewrite E2, Hj2. rewrite app_assoc, Hj1, <- !app_assoc, zlen_cons, Z.add_assoc. done.
Qed.

Lemma zlen_chunk cur : (1 <? zlen (chunk_frame cur)) = negb (bool_decide (cur = [])).
Proof.
  unfold chunk_frame. destruct cur as [|p cur]; [by vm_compute|].
  rewrite bool_decide_false by done. change (mjoin (pair_bytes <$> p :: cur)) with (pairs_bytes (p :: cur)).
  rewrite zlen_cons, zlen_pairs. simpl. pose proof (zlen_nonneg p.1). pose proof (zlen_nonneg p.2).
  rewrite <- (zlen_pairs cur). pose proof (zlen_nonneg (pairs_bytes cur)). apply Z.ltb_lt. lia.
Qed.

Lemma refines_cnt (s : store I) m c : refines s m -> refines (set_cnt c s) m.
Proof. intros (L & M & Hok & Hkv). exists L, M. split; [by apply count_ok|done]. Qed.

Lemma serveRange_ok start end_ limit n w m : wr_fails w = [] -> refines (n_store n) m ->
  w_faults (st_w (n_store n)) = [] -> st_closed (n_store n) = false ->
  0 < c_MaxRangeResults (n_cfg n) < 2 ^ 63 ->
  exists n' frames, serveRange os_text start end_ limit (n, w) = (Ok tt, (n', sends w frames)) /\
    answers_wire os_text (n_cfg n) m (RqRange start end_ limit) frames /\ served 0 n m n'.
Proof.
  intros Hw Href Hno Hc Hmax. pose proof Href as (L & M & Hok & Hkv).
  set (lim := range_limit (n_cfg n) limit).
  assert (Hlim : 0 < lim < 2 ^ 63).
  { unfold lim, range_limit. destruct (Z.leb_spec limit 0); [done|].
    destruct (Z.ltb_spec (c_MaxRangeResults (n_cfg n)) limit); simpl; lia. }
  destruct (Scan_feed range_pair lim start end_ (range_state w [] [] 0) (n_store n) L M Hok Hno) as (l & Hl & Hscan).
  rewrite Hkv in Hl.
  assert (Hb : Forall bounded_pair l).
  { apply Forall_forall. intros [k v] Hin. apply Hl in Hin as (Hin & _). by apply (refines_bounded (n_store n) m). }
  destruct (feed_range w lim l 0 [] []) as (groups & cur & Hfeed & Hj & Hcs & Hne);
    [done|by vm_compute|lia|lia|done|].
  cbv zeta in *. rewrite Z.sub_0_r, Z.add_0_l in *. cbn [mjoin list_join app] in Hj.
  assert (Hst : mkRanging (Enc.NewEnc StatusRangeChunk) 0 w None = range_state w [] [] 0).
  { unfold range_state. f_equal. unfold sends. simpl. rewrite app_nil_r. destruct w; simpl in *. by subst. }
  set (s' := set_cnt (add_scan (st_cnt (n_store n))) (n_store n)) in *.
  set (sent := take (Z.to_nat lim) l) in *.
  assert (Hsv : served 0 n m (set_store s' n)).
  { split; [by apply refines_cnt| |done..]. unfold s'. repeat split; simpl; try done; lia. }
  assert (Hsmall : small (Enc.U64 (zlen sent) (Enc.NewEnc StatusRangeEnd))).
  { unfold small, Enc.U64, Enc.NewEnc. rewrite zlen_app. unfold zlen. rewrite length_be_put, max_frame. simpl. lia. }
  unfold serveRange, sm_bind at 1, get_node. cbn [fst snd]. fold (range_limit (n_cfg n) limit). fold lim.
  unfold sm_bind at 1. cbn [fst snd]. rewrite Hst, Hscan, Hfeed. cbn [fst snd].
  cbn [rg_sendErr range_state rg_w rg_chunk rg_total]. rewrite zlen_chunk.
  exists (set_store s' n). destruct (decide (cur = [])) as [->|Hcur].
  - exists ((chunk_frame <$> groups) ++ [Enc.U64 (zlen sent) (Enc.NewEnc StatusRangeEnd)]).
    rewrite bool_decide_true by done. cbn [negb sm_when]. unfold sm_bind, sm_ret.
    rewrite write_frame_ok, sends_app by done. split; [done|]. split; [|done].
    exists l, groups. rewrite app_nil_r in Hj. done.
  - exists ((chunk_frame <$> groups ++ [cur]) ++ [Enc.U64 (zlen sent) (Enc.NewEnc StatusRangeEnd)]).
    rewrite bool_decide_false by done. cbn [negb sm_when]. unfold sm_bind.
    rewrite write_frame_ok; [|unfold small; rewrite max_frame; change rangeChunkBytes with 262144 in Hcs; lia|done]. rewrite write_frame_ok, !sends_app by done.
    split; [by rewrite fmap_app, <- !app_assoc|]. split; [|done].
    exists l, (groups ++ [cur]). split; [done|]. cbv zeta. split.
    + rewrite join_app. simpl. by rewrite app_nil_r.
    + split; [|done]. apply Forall_app. split; [done|by constructor].
Qed.

(** ** Whole requests *)

Definition request_ok (rq : request) : Prop :=
  small (request_frame rq) /\
  match rq with
  | RqBatch ks vs => length ks = length vs
  | RqRange _ _ limit => is_u32 limit
  | _ => True
  end.

Definition request_cost (rq : request) : Z :=
  match rq with
  | RqPut _ _ | RqDelete _ => 1
  | RqBatch ks _ => zlen ks
  | _ => 0
  end.

(** A node that answers: open, and no system call of its store fails. *)
Record answering n m : Prop := {
  an_map : refines (n_store n) m;
  an_open : st_closed (n_store n) = false;
  an_calm : w_faults (st_w (n_store n)) = [];
  an_range : 0 < c_MaxRangeResults (n_cfg n) < 2 ^ 63
}.

Lemma small_fields p : small p -> zlen p < 2 ^ 29.
Proof. unfold small. rewrite max_frame. lia. Qed.

(** The handler of a request does what the map says. *)
Lemma handle_ok at_ rq n w m : answering n m -> node_Role n = Leader \/ is_write rq = false ->
  wr_fails w = [] -> is_i64 (at_now at_) -> request_ok rq -> room (n_store n) (request_cost rq) ->
  exists op body n' frames, request_frame rq = op :: body /\ op <> OpReplicate /\
    handle os_text at_ op (Decoder.NewDec body) (n, w) = (Ok tt, (n', sends w frames)) /\
    answers_wire os_text (n_cfg n) m rq frames /\
    served (request_cost rq) n (map_after (at_now at_) m rq) n'.
Proof.
  intros [Href Hc Hno Hmax] Hrole Hw Hnow [Hsm Hok] Hroom. apply small_fields in Hsm.
  destruct rq as [|k|k v|k|ks vs|start end_ limit]; cbn [request_frame is_write request_cost] in *.
  - eexists _, _, n, _. split; [done|]. split; [done|].
    split; [apply write_frame_ok; [apply small_status|done]|]. split; [done|]. split; [done|by apply calm_self|done..].
  - unfold get_request in *. rewrite Bytes_app, zlen_app, zlen_Bytes in Hsm. unfold Enc.NewEnc, zlen at 1 in Hsm. simpl in Hsm.
    destruct (handleGet_ok k n w m) as (n' & E & Hs); [done|by apply (exec_step (CGet k))|done|lia|].
    eexists _, _, n', _. rewrite Bytes_app. split; [done|]. split; [done|]. split; [exact E|]. by split.
  - unfold put_request in *. rewrite Bytes_app, (Bytes_app k), !zlen_app, !zlen_Bytes in Hsm.
    unfold Enc.NewEnc, zlen at 1 in Hsm. simpl in Hsm. pose proof (zlen_nonneg k). pose proof (zlen_nonneg v).
    destruct Hrole as [Hrole|?]; [|done].
    destruct (handlePut_ok (at_now at_) k v n w m) as (n' & E & Hs);
      [done|done|by apply (exec_step (CPut (at_now at_) k v))|lia|lia|].
    eexists _, _, n', _. rewrite Bytes_app, (Bytes_app k), <- app_assoc. split; [done|]. split; [done|].
    split; [exact E|]. by split.
  - unfold delete_request in *. rewrite Bytes_app, zlen_app, zlen_Bytes in Hsm. unfold Enc.NewEnc, zlen at 1 in Hsm.
    simpl in Hsm. destruct Hrole as [Hrole|?]; [|done].
    destruct (handleDelete_ok (at_now at_) k n w m) as (n' & E & Hs);
      [done|done|by apply (exec_step (CDelete (at_now at_) k))|lia|].
    eexists _, _, n', _. rewrite Bytes_app. split; [done|]. split; [done|]. split; [exact E|]. by split.
  - unfold batch_request in *. rewrite fold_pairs in *. unfold Enc.U32, Enc.NewEnc in *.
    rewrite !zlen_app in Hsm. unfold zlen at 1 2 in Hsm. rewrite length_be_put in Hsm. simpl in Hsm.
    destruct Hrole as [Hrole|?]; [|done]. pose proof (batch_log_size (at_now at_) ks vs).
    destruct (handleBatchPut_ok (at_now at_) ks vs n w m) as (n' & E & Hs);
      [done|done|apply (exec_step (CBatch (at_now at_) ks vs)); try done; split; [done|lia]|done|lia|].
    eexists _, _, n', _. rewrite <- app_assoc. split; [done|]. split; [done|]. split; [exact E|]. by split.
  - unfold range_request, Enc.U32 in *. rewrite Bytes_app, (Bytes_app start), !zlen_app, !zlen_Bytes in Hsm.
    unfold Enc.NewEnc, zlen at 1 in Hsm. simpl in Hsm. pose proof (zlen_nonneg start). pose proof (zlen_nonneg end_).
    pose proof (zlen_nonneg (be_put 4 (u32 (Z.max limit 0)))).
    assert (Hl : u32 (Z.max limit 0) = limit).
    { unfold is_u32 in Hok. rewrite Z.max_l by lia. by rewrite u32_small. }
    destruct (serveRange_ok start end_ limit n w m) as (n' & frames & E & Hans & Hs); [done..|].
    eexists _, _, n', frames. rewrite Bytes_app, (Bytes_app start), <- !app_assoc. split; [done|]. split; [done|].
    split; [|by split]. unfold handle. change (bool_decide (OpRange = OpPing)) with false.
    cbn [bool_decide]. rewrite cursor_new.
    change (handleRange os_text (cursor [] (Enc.Bytes start [] ++ Enc.Bytes end_ [] ++ be_put 4 (u32 (Z.max limit 0)))) (n, w)
      = (Ok tt, (n', sends w frames))).
    unfold handleRange. rewrite Hl, cursor_Bytes, cursor_Bytes by lia.
    rewrite <- (app_nil_r (be_put 4 limit)), cursor_U32 by done. unfold when_done. by rewrite cursor_Done.
Qed.

(** A turn of the connection around a handler that succeeds. *)
Lemma serve_handle at_ op body n w n' frames : op <> OpReplicate -> wr_fails w = [] ->
  handle os_text at_ op (Decoder.NewDec body) (n, w) = (Ok tt, (n', sends w frames)) ->
  serve_frame os_text at_ (op :: body) (n, w) = (Ok None, (n', sends w frames)).
Proof.
  intros Hop Hw Hh. unfold serve_frame. rewrite bool_decide_false by done. unfold sm_bind.
  rewrite Hh. by rewrite flush_ok.
Qed.

(** A write at a node that is not the leader. *)
Lemma handle_redirect at_ rq n w : node_Role n <> Leader -> is_write rq = true -> wr_fails w = [] ->
  request_ok rq -> small (Enc.Str (LeaderAddr n) [StatusRedirect]) ->
  exists op body, request_frame rq = op :: body /\ op <> OpReplicate /\
    handle os_text at_ op (Decoder.NewDec body) (n, w) =
      (Ok tt, (n, sends w [Enc.Str (LeaderAddr n) [StatusRedirect]])).
Proof.
  intros Hrole Hwr Hw [Hsm Hok] Hsr. apply small_fields in Hsm.
  assert (Hat : forall k, at_leader k (n, w) = (Ok tt, (n, sends w [Enc.Str (LeaderAddr n) [StatusRedirect]]))).
  { intros k. unfold at_leader, sm_bind, get_node. cbn [fst]. destruct (Z.eqb_spec (node_Role n) Leader); [done|].
    by apply write_frame_ok. }
  destruct rq as [|k|k v|k|ks vs|start end_ limit]; try done; cbn [request_frame] in *.
  - unfold put_request in *. rewrite Bytes_app, (Bytes_app k), !zlen_app, !zlen_Bytes in Hsm.
    unfold Enc.NewEnc, zlen at 1 in Hsm. simpl in Hsm. pose proof (zlen_nonneg k). pose proof (zlen_nonneg v).
    rewrite Bytes_app, (Bytes_app k), <- app_assoc. eexists _, _. split; [done|]. split; [done|].
    etransitivity; [apply (put_decodes (at_now at_) k v); lia|apply Hat].
  - unfold delete_request in *. rewrite Bytes_app, zlen_app, zlen_Bytes in Hsm. unfold Enc.NewEnc, zlen at 1 in Hsm.
    simpl in Hsm. rewrite Bytes_app. eexists _, _. split; [done|]. split; [done|].
    etransitivity; [apply (delete_decodes (at_now at_) k); lia|apply Hat].
  - unfold batch_request in *. rewrite fold_pairs in *. unfold Enc.U32, Enc.NewEnc in *.
    rewrite !zlen_app in Hsm. unfold zlen at 1 2 in Hsm. rewrite length_be_put in Hsm. simpl in Hsm.
    rewrite <- app_assoc. eexists _, _. split; [done|]. split; [done|].
    etransitivity; [apply (batch_decodes (at_now at_) ks vs); [done|lia]|apply Hat].
Qed.

(** C4: the server is a map.  A request of the client that reaches the leader,
    or a read that reaches any node, is answered with exactly the frames the
    node's map dictates: values, misses and errors, and for a range the pairs
    of the range in order, cut at the limit, in non-empty chunks, with their
    number at the end.  The store then stands for the map after the request,
    and the node's role and epoch are as before. *)
Theorem server_is_a_map at_ rq n w m : answering n m -> node_Role n = Leader \/ is_write rq = false ->
  wr_fails w = [] -> is_i64 (at_now at_) -> request_ok rq -> room (n_store n) (request_cost rq) ->
  exists n' frames,
    serve_frame os_text at_ (request_frame rq) (n, w) = (Ok None, (n', sends w frames)) /\
    answers_wire os_text (n_cfg n) m rq frames /\
    served (request_cost rq) n (map_after (at_now at_) m rq) n'.
Proof.
  intros Han Hrole Hw Hnow Hrq Hroom.
  destruct (handle_ok at_ rq n w m Han Hrole Hw Hnow Hrq Hroom)
    as (op & body & n' & frames & Hf & Hop & Hh & Hans & Hs).
  exists n', frames. split; [|done]. rewrite Hf. by apply serve_handle.
Qed.

(** C24: a follower takes no writes.  A put, a delete or a batch that reaches a
    node that is not the leader is answered with one redirect that carries the
    leader's address, and the node is as it was. *)
Theorem follower_redirects at_ rq n w : node_Role n <> Leader -> is_write rq = true -> wr_fails w = [] ->
  request_ok rq -> small (Enc.Str (LeaderAddr n) [StatusRedirect]) ->
  serve_frame os_text at_ (request_frame rq) (n, w) =
    (Ok None, (n, sends w [Enc.Str (LeaderAddr n) [StatusRedirect]])).
Proof.
  intros Hrole Hwr Hw Hok Hsr.
  destruct (handle_redirect at_ rq n w Hrole Hwr Hw Hok Hsr) as (op & body & -> & Hop & Hh). by apply serve_handle.
Qed.
End service.
