(* ===== verification/Cluster.v ===== *)
(** * Clients of a cluster

    A client and the nodes it talks to, put together: the network is the nodes
    themselves.  It keeps the promise clients rely on, and a client's methods
    answer what the nodes' maps say, through dead nodes and redirects. *)

From S2P Require Import Prelude Bytes Decimal Record Datafile Index Store StoreInv Ops Scans Engine Compact.
From S2P Require Import Proto Text Node Election Replication Server Client Wire Replies Sessions Service.

Local Open Scope Z_scope.
Local Open Scope gokv_scope.

(** ** The network of nodes *)

(** The nodes by address, the number of requests served so far, what the clock
    and the runtime say at each of them, where the connection breaks while the
    reply to it is under way, and how errors of the system read. *)
Record cluster (I : Type) := mkCluster {
  cu_nodes : gmap bytes (node I);
  cu_tick : nat;
  cu_clock : nat -> moment;
  cu_breaks : nat -> option nat;
  cu_text : error -> bytes
}.
Arguments mkCluster {I}.
Arguments cu_nodes {I}.
Arguments cu_tick {I}.
Arguments cu_clock {I}.
Arguments cu_breaks {I}.
Arguments cu_text {I}.

Section cluster.
Context {I : Type} `{KeyIndex I}.
Implicit Types (cu : cluster I) (addr : bytes).

Definition live cu addr (n : node I) : Prop := cu_nodes cu !! addr = Some n /\ n_closing n = false.

Definition find_live cu addr : option (node I) :=
  match cu_nodes cu !! addr with
  | Some n => if n_closing n then None else Some n
  | None => None
  end.

Lemma find_live_spec cu addr n : find_live cu addr = Some n <-> live cu addr n.
Proof.
  unfold find_live, live. destruct (cu_nodes cu !! addr) as [n'|]; [|naive_solver].
  destruct (n_closing n') eqn:E; naive_solver congruence.
Qed.

Definition served_by addr (n : node I) cu : cluster I :=
  mkCluster (<[addr := n]> (cu_nodes cu)) (S (cu_tick cu)) (cu_clock cu) (cu_breaks cu) (cu_text cu).

#[global] Instance cluster_network : Network (cluster I) := {
  dial addr cu := match find_live cu addr with Some _ => (Ok tt, cu) | None => (Err CNet, cu) end;
  deliver addr wire cu :=
    match find_live cu addr with
    | None => (Err CNet, cu)
    | Some n =>
        match ReadFrame wire with
        | Err _ => (Ok [], cu)
        | Ok (frame, _) =>
            let out := serve_frame (cu_text cu) (cu_clock cu (cu_tick cu)) frame (n, mkWriter [] []) in
            let reply := wire_of (wr_out out.2.2) in
            (Ok (match cu_breaks cu (cu_tick cu) with Some k => take k reply | None => reply end),
             served_by addr out.2.1 cu)
        end
    end;
  hangup addr cu := (Ok tt, cu)
}.

Lemma wire_of_prefix (fs gs : list bytes) : fs `prefix_of` gs -> wire_of fs `prefix_of` wire_of gs.
Proof. intros [k ->]. unfold wire_of. rewrite fmap_app, join_app. by apply prefix_app_r. Qed.

(** Whatever fails in the nodes, and wherever the connections break. *)
#[global] Instance cluster_honest : HonestNetwork (cluster I).
Proof.
  intros addr req wire cu inp cu' Hw Hreq. unfold deliver, cluster_network.
  destruct (find_live cu addr) as [n|]; [|done]. rewrite <- (app_nil_r wire), (ReadFrame_WriteFrame req) by done.
  destruct (serve_begun (cu_text cu) (cu_clock cu (cu_tick cu)) req Hreq (n, mkWriter [] [])) as (fs & Hfs & whole & Hwh & Hpre).
  cbv zeta. rewrite Hfs. cbn [wr_out snd]. rewrite app_nil_l. intros [= <- _]. exists whole. split; [done|].
  apply wire_of_prefix in Hpre. destruct (cu_breaks cu (cu_tick cu)) as [k|]; [|done].
  etransitivity; [apply prefix_take|done].
Qed.
End cluster.
