(* ===== verification/Failover.v ===== *)
(** * A client sees one map

    The client's methods against a cluster whose live followers know their
    leader: through a connection to a node that died, dead addresses and one
    redirect, every call is answered, writes by the leader's map.  A client
    that has written reads its writes: it stays with the leader. *)

From S2P Require Import Prelude Bytes Decimal Record Datafile Index Store StoreInv Ops Scans Engine Compact.
From S2P Require Import Proto Text Node Election Replication Server Client Wire Replies Sessions Service Cluster.

Local Open Scope Z_scope.
Local Open Scope gokv_scope.

(** The same client but for its connection. *)
Definition same_setup (c c' : client) : Prop :=
  cl_addrs c' = cl_addrs c /\ cl_opts c' = cl_opts c /\ cl_closed c' = cl_closed c.

(** Connected to [a], with nothing unread. *)
Definition attached (a : bytes) (c : client) : Prop :=
  cl_conn c = Some [] /\ cl_current c = a /\ cl_poisoned c = false /\ 0 <= cl_next c.

Lemma same_setup_refl c : same_setup c c.
Proof. done. Qed.
Lemma same_setup_trans c1 c2 c3 : same_setup c1 c2 -> same_setup c2 c3 -> same_setup c1 c3.
Proof. unfold same_setup. intuition congruence. Qed.

(** Every configured address is tried, wherever the rotation stands. *)
Lemma candidates_all p c a : 0 <= cl_next c -> a ∈ cl_addrs c -> a ∈ candidates p c.
Proof.
  intros Hn Ha. apply elem_of_app. right. apply list_elem_of_lookup in Ha as [i Hi].
  pose proof (lookup_lt_Some _ _ _ Hi) as Hlt. set (len := zlen (cl_addrs c)).
  assert (Hlen : 0 < len) by (unfold len, zlen; lia).
  apply list_elem_of_fmap. exists (Z.to_nat ((Z.of_nat i - cl_next c) mod len)).
  pose proof (Z.mod_pos_bound (Z.of_nat i - cl_next c) len Hlen) as Hm. split.
  - rewrite Z2Nat.id by lia. fold len. rewrite Z.rem_mod_nonneg by lia.
    rewrite Zplus_mod_idemp_r. replace (cl_next c + (Z.of_nat i - cl_next c)) with (Z.of_nat i) by lia.
    rewrite Z.mod_small by (unfold len, zlen; lia). rewrite Nat2Z.id. symmetry. by apply nth_lookup_Some.
  - apply elem_of_seq. unfold len, zlen in *. lia.
Qed.

Section failover.
Context {I : Type} `{KeyIndexSpec I}.
Context {T : Type}.
Implicit Types (cu : cluster I) (c : client) (a : bytes) (t : T) (n : node I).

(** ** Connecting *)

Lemma dial_dead a cu : find_live cu a = None -> dial a cu = (Err CNet, cu).
Proof. intros E. unfold dial, cluster_network. by rewrite E. Qed.

Lemma dial_live a cu n : find_live cu a = Some n -> dial a cu = (Ok tt, cu).
Proof. intros E. unfold dial, cluster_network. by rewrite E. Qed.

Lemma dial_any_live addrs : forall lastErr c cu t, (exists a n, a ∈ addrs /\ live cu a n) -> 0 <= cl_next c ->
  exists c' a n, dial_any addrs lastErr ((c, cu), t) = (Ok tt, ((c', cu), t)) /\ live cu a n /\
    same_setup c c' /\ cl_conn c' = Some [] /\ cl_current c' = a /\ cl_poisoned c' = cl_poisoned c /\ 0 <= cl_next c'.
Proof.
  induction addrs as [|a addrs IH]; intros lastErr c cu t (a' & n & Hin & Hlive) Hn; [by apply elem_of_nil in Hin|].
  cbn [dial_any]. unfold sm_bind, attempt, on_net. cbn [fst snd]. destruct (find_live cu a) as [n0|] eqn:E.
  - rewrite (dial_live _ _ _ E). cbn [fst snd]. apply find_live_spec in E.
    eexists _, a, n0. split; [reflexivity|]. done.
  - rewrite (dial_dead _ _ E). cbn [fst snd]. unfold bump, mod_client, sm_modify. cbn [fst snd].
    destruct (IH (Some CNet) (set_cursor (cl_next c + 1) c) cu t) as (c' & a1 & n1 & -> & Hrest).
    + exists a', n. split; [|done]. apply elem_of_cons in Hin as [->|?]; [|done].
      apply find_live_spec in Hlive. congruence.
    + cbn. lia.
    + exists c', a1, n1. done.
Qed.

Lemma drop_run c cu t : sm_ignore dropLocked ((c, cu), t) =
  (Ok tt, ((match cl_conn c with Some _ => set_conn None [] c | None => c end, cu), t)).
Proof.
  unfold sm_ignore, dropLocked, sm_bind, get_client. cbn [fst snd]. by destruct (cl_conn c).
Qed.

(** A client in step attaches: to the node it is told, or to one that is alive
    unless it keeps the connection it has. *)
Lemma connect_live prefer c cu t : in_step c -> 0 <= cl_next c ->
  (exists a n, a ∈ cl_addrs c /\ live cu a n) -> (prefer = [] \/ exists n, live cu prefer n) ->
  exists c' a, connectLocked prefer ((c, cu), t) = (Ok tt, ((c', cu), t)) /\ same_setup c c' /\ attached a c' /\
    (cl_conn c = Some [] -> prefer = [] -> c' = c) /\
    ((cl_conn c = Some [] /\ prefer = []) \/ exists n, live cu a n) /\ (prefer <> [] -> a = prefer).
Proof.
  intros [Hp Hc] Hn Hlive Hpref. unfold connectLocked, sm_bind at 1, get_client. cbn [fst snd].
  destruct (bool_decide _ && _) eqn:E.
  - apply andb_prop in E as [E1 E2]. apply bool_decide_eq_true in E1.
    assert (Hcs : cl_conn c = Some []) by (destruct Hc as [Hc|]; [rewrite Hc in E1; by destruct E1|done]).
    exists c, (cl_current c). split; [done|]. split; [done|]. split; [done|]. split; [done|].
    apply orb_prop in E2 as [E2|E2]; apply bool_decide_eq_true in E2; subst.
    + split; [by left|done].
    + split; [|done]. destruct Hpref as [Hp0|Hp0]; [by left|by right].
  - unfold sm_bind at 1. rewrite drop_run. cbn beta iota. unfold sm_bind at 1. cbn [fst snd].
    set (c0 := match cl_conn c with Some _ => _ | None => _ end).
    assert (Hc0 : same_setup c c0 /\ cl_poisoned c0 = false /\ cl_next c0 = cl_next c) by (unfold c0; by destruct (cl_conn c)).
    destruct Hc0 as (Hs0 & Hp0 & Hn0).
    assert (Hnot : ~ (cl_conn c = Some [] /\ prefer = [])).
    { intros [Hcc ->]. rewrite Hcc in E. rewrite !bool_decide_true in E by done. done. }
    destruct (decide (prefer = [])) as [->|Hne].
    + destruct (dial_any_live (candidates [] c0) None c0 cu t) as (c' & a & n & -> & Hl & Hs & ? & ? & Hp1 & ?).
      { destruct Hlive as (a & n & Hin & Hl). exists a, n. split; [|done]. apply candidates_all; [lia|].
        by rewrite (proj1 Hs0). }
      { lia. }
      exists c', a. split; [done|]. split; [by eapply same_setup_trans|]. split; [by rewrite Hp0 in Hp1|].
      split; [intros; by destruct Hnot|]. split; [right; by exists n|done].
    + destruct Hpref as [?|[n Hl]]; [done|]. unfold candidates. destruct prefer as [|b prefer]; [done|].
      set (pf := b :: prefer) in *. cbn [app dial_any]. unfold sm_bind, attempt, on_net. cbn [fst snd].
      rewrite (dial_live pf cu n) by (by apply find_live_spec). cbn [fst snd].
      eexists _, pf. split; [reflexivity|]. split; [by destruct Hs0 as (? & ? & ?)|].
      split; [split; [done|]; split; [done|]; split; [done|]; cbn; lia|].
      split; [done|]. split; [right; by exists n|done].
Qed.

(** ** Exchanging *)

(** The cluster when [k] more requests have been served without a change. *)
Definition later (k : nat) cu : cluster I :=
  mkCluster (cu_nodes cu) (k + cu_tick cu) (cu_clock cu) (cu_breaks cu) (cu_text cu).

Definition now_of cu : moment := cu_clock cu (cu_tick cu).

Lemma exchange_dead req a c cu t : attached a c -> find_live cu a = None -> small req ->
  client_exchange req ((c, cu), t) = (Err CNet, ((c, cu), t)).
Proof.
  intros (Hc & Ha & _) Hd Hs. unfold client_exchange, send_frame, sm_bind, get_client. cbn [fst snd].
  assert (Hw : WriteFrame req = Ok (frame_wire req)) by (by apply WriteFrame_wire).
  rewrite Hw. cbn [fst snd]. unfold on_net. cbn [fst snd]. rewrite Ha. unfold deliver, cluster_network. by rewrite Hd.
Qed.

Lemma exchange_live req a c cu t n r n' f fs : attached a c -> live cu a n -> small req ->
  cu_breaks cu (cu_tick cu) = None ->
  serve_frame (cu_text cu) (now_of cu) req (n, mkWriter [] []) = (r, (n', sends (mkWriter [] []) (f :: fs))) ->
  small f -> f <> [] ->
  client_exchange req ((c, cu), t) = (Ok f, ((set_conn (Some (wire_of fs)) a c, served_by a n' cu), t)).
Proof.
  intros (Hc & Ha & _) Hl Hs Hb Hserve Hf Hne. apply find_live_spec in Hl.
  assert (Hw : WriteFrame req = Ok (frame_wire req)) by (by apply WriteFrame_wire).
  unfold client_exchange, send_frame, sm_bind, get_client. cbn [fst snd]. rewrite Hw.
  unfold on_net. cbn [fst snd]. rewrite Ha. unfold deliver, cluster_network. rewrite Hl.
  rewrite <- (app_nil_r (frame_wire req)), (ReadFrame_WriteFrame req) by done. cbv zeta.
  fold (now_of cu). rewrite Hserve, Hb. unfold sends. cbn [fst snd wr_out]. rewrite Hc.
  unfold next_frame, sm_bind, get_client, mod_client, sm_modify. cbn [fst snd default id set_conn cl_conn].
  rewrite !app_nil_l. change (wire_of (f :: fs)) with (frame_wire f ++ wire_of fs).
  rewrite (ReadFrame_WriteFrame f) by (by apply WriteFrame_wire). by destruct f.
Qed.

(** ** Attempts *)

(** What a call does with an answer that is no redirect. *)
Definition reply_by (h : bytes -> cio (cluster I) T unit) (f : bytes) : cio (cluster I) T unit :=
  if bool_decide (status_of f = StatusError)
  then sm_throw (CRemote (Decoder.Str (Decoder.NewDec (tail f))).1)
  else r <- attempt (h f);; drop_poisoned;;; match r with Ok _ => sm_ret tt | Err e => sm_throw e end.

Lemma attempts_connect k req h prefer lastErr c c' cu t : connectLocked prefer ((c, cu), t) = (Ok tt, ((c', cu), t)) ->
  (forall a', attached a' c' -> connectLocked [] ((c', cu), t) = (Ok tt, ((c', cu), t))) ->
  forall a, attached a c' ->
  call_attempts (S k) req h prefer lastErr ((c, cu), t) = call_attempts (S k) req h [] lastErr ((c', cu), t).
Proof.
  intros E1 E2 a Ha. specialize (E2 a Ha). cbn [call_attempts]. unfold sm_bind at 1. rewrite E1.
  symmetry. unfold sm_bind at 1. by rewrite E2.
Qed.

Lemma connect_attached a c cu t : attached a c -> connectLocked [] ((c, cu), t) = (Ok tt, ((c, cu), t)).
Proof.
  intros (Hc & _). unfold connectLocked, sm_bind, get_client. cbn [fst snd]. rewrite Hc. by rewrite !bool_decide_true by done.
Qed.

Lemma attempt_dead k req h lastErr a c cu t : attached a c -> find_live cu a = None -> small req ->
  exists c', call_attempts (S k) req h [] lastErr ((c, cu), t) = call_attempts k req h [] (Some CNet) ((c', cu), t) /\
    same_setup c c' /\ in_step c' /\ 0 <= cl_next c' /\ cl_conn c' = None.
Proof.
  intros Ha Hd Hs. pose proof Ha as (Hc & _ & Hp & Hn). cbn [call_attempts]. unfold sm_bind at 1.
  rewrite (connect_attached a) by done. unfold sm_bind at 1, attempt. rewrite (exchange_dead req a) by done.
  cbn [fst snd]. unfold sm_bind at 1. rewrite drop_run, Hc. unfold sm_bind at 1, bump, mod_client, sm_modify. cbn [fst snd].
  eexists. split; [reflexivity|]. split; [done|]. split; [split; [done|by left]|]. split; [cbn; lia|done].
Qed.

Lemma attempt_answer k req h lastErr a c cu t n r n' f fs : attached a c -> live cu a n -> small req ->
  cu_breaks cu (cu_tick cu) = None ->
  serve_frame (cu_text cu) (now_of cu) req (n, mkWriter [] []) = (r, (n', sends (mkWriter [] []) (f :: fs))) ->
  small f -> f <> [] -> status_of f <> StatusRedirect ->
  call_attempts (S k) req h [] lastErr ((c, cu), t) =
    reply_by h f ((set_conn (Some (wire_of fs)) a c, served_by a n' cu), t).
Proof.
  intros Ha Hl Hs Hb Hserve Hf Hne Hst. cbn [call_attempts]. unfold sm_bind at 1.
  rewrite (connect_attached a) by done. unfold sm_bind at 1, attempt. rewrite (exchange_live req a c cu t n r n' f fs) by done.
  cbn [fst snd]. by rewrite bool_decide_false by done.
Qed.

Lemma attempt_redirect k req h lastErr a c cu t n r la : attached a c -> live cu a n -> small req ->
  cu_breaks cu (cu_tick cu) = None ->
  serve_frame (cu_text cu) (now_of cu) req (n, mkWriter [] []) =
    (r, (n, sends (mkWriter [] []) [Enc.Str la [StatusRedirect]])) ->
  small (Enc.Str la [StatusRedirect]) -> la <> [] -> la <> a ->
  call_attempts (S k) req h [] lastErr ((c, cu), t) = call_attempts k req h la lastErr ((c, later 1 cu), t).
Proof.
  intros Ha Hl Hs Hb Hserve Hf Hne Hla. pose proof Ha as (Hc & Hcur & Hp & Hn). cbn [call_attempts]. unfold sm_bind at 1.
  rewrite (connect_attached a) by done. unfold sm_bind at 1, attempt.
  rewrite (exchange_live req a c cu t n r n (Enc.Str la [StatusRedirect]) []) by (done || by destruct la).
  cbn [fst snd]. rewrite bool_decide_true by done. cbv zeta.
  rewrite decode_Str by done. unfold sm_bind, get_client. cbn [fst snd set_conn cl_current].
  rewrite !bool_decide_false by done. cbn [orb]. f_equal. f_equal. f_equal.
  - destruct c; cbn in *. by subst.
  - unfold served_by, later. f_equal. apply insert_id. by destruct Hl.
Qed.

(** ** Healthy clusters *)

(** The live nodes answer for the maps [holds], one at [la] leads and the others
    know it; there is room for [cost] records in [steps] more requests. *)
Record healthy cu (la : bytes) (holds : bytes -> gmap bytes bytes) (cfg : Config) (cost steps : Z) : Prop := {
  hl_leader : exists n, live cu la n /\ node_Role n = Leader;
  hl_nodes : forall a n, live cu a n -> answering n (holds a);
  hl_room : forall a n, live cu a n -> st_seq (n_store n) + cost < 2 ^ 64 /\ st_nextID (n_store n) + steps < 2 ^ 32;
  hl_cfg : forall a n, live cu a n -> c_MaxRangeResults (n_cfg n) = c_MaxRangeResults cfg;
  hl_follow : forall a n, live cu a n -> a <> la -> node_Role n <> Leader /\ LeaderAddr n = la;
  hl_la : la <> [];
  hl_redirect : small (Enc.Str la [StatusRedirect]);
  hl_clock : forall k, is_i64 (at_now (cu_clock cu k));
  hl_breaks : forall k, cu_breaks cu k = None
}.

Lemma healthy_later k cu la holds cfg cost steps : healthy cu la holds cfg cost steps -> healthy (later k cu) la holds cfg cost steps.
Proof. by intros []. Qed.

(** The map after a request does not depend on the time. *)
Lemma map_after_now now now' m rq : map_after now m rq = map_after now' m rq.
Proof. by destruct rq. Qed.

Lemma answers_wire_shape text cfg m rq frames : answers_wire text cfg m rq frames ->
  exists f fs, frames = f :: fs /\ f <> [] /\ status_of f <> StatusRedirect.
Proof.
  assert (Hw : forall e, write_frame_of text e <> [] /\ status_of (write_frame_of text e) <> StatusRedirect).
  { intros [e|]; [|done]. by destruct e. }
  destruct rq as [|k|k v|k|ks vs|start end_ limit]; cbn [answers_wire].
  1, 3-5: intros ->; eexists _, []; split; [done|]; done || apply Hw.
  - intros ->. eexists _, []. split; [done|]. destruct (lookup_reply m k) as [v|e]; [done|apply Hw].
  - intros (l & groups & _ & _ & _ & ->). destruct groups as [|g groups]; eexists _, _; (split; [reflexivity|done]).
Qed.

Lemma answers_wire_cfg text cfg cfg' m rq frames : c_MaxRangeResults cfg = c_MaxRangeResults cfg' ->
  answers_wire text cfg m rq frames -> answers_wire text cfg' m rq frames.
Proof. intros E. destruct rq; try done. cbn [answers_wire]. unfold range_limit. by rewrite E. Qed.

Lemma begun_small r fs : begun r fs -> Forall small fs.
Proof.
  intros (whole & Hw & Hpre). apply whole_small in Hw. destruct Hpre as [k ->]. by apply Forall_app in Hw as [? _].
Qed.

(** The node's part of a request it may answer. *)
Lemma node_answers rq a n cu la holds cfg cost steps : healthy cu la holds cfg cost steps -> live cu a n ->
  request_ok rq -> request_cost rq <= cost -> 1 <= steps -> (is_write rq = true -> a = la) ->
  exists n' f fs, serve_frame (cu_text cu) (now_of cu) (request_frame rq) (n, mkWriter [] []) =
      (Ok None, (n', sends (mkWriter [] []) (f :: fs))) /\
    Forall small (f :: fs) /\ f <> [] /\ status_of f <> StatusRedirect /\
    answers_wire (cu_text cu) cfg (holds a) rq (f :: fs) /\
    served (request_cost rq) n (map_after 0 (holds a) rq) n'.
Proof.
  intros Hh Hl Hrq Hcost Hsteps Hwr. destruct (hl_room _ _ _ _ _ _ Hh a n Hl) as [Hseq Hid].
  destruct (handle_ok (cu_text cu) (now_of cu) rq n (mkWriter [] []) (holds a))
    as (op & body & n' & frames & Hf & Hop & Hhd & Hans & Hs); [by eapply hl_nodes| |done|by eapply hl_clock|done| |].
  { destruct (is_write rq) eqn:E; [left|by right]. rewrite (Hwr eq_refl) in Hl.
    destruct (hl_leader _ _ _ _ _ _ Hh) as (n0 & [Hl0 _] & Hr). destruct Hl as [Hl _]. congruence. }
  { unfold room. lia. }
  destruct (answers_wire_shape _ _ _ _ _ Hans) as (f & fs & -> & Hne & Hst).
  assert (Hserve : serve_frame (cu_text cu) (now_of cu) (request_frame rq) (n, mkWriter [] []) =
      (Ok None, (n', sends (mkWriter [] []) (f :: fs)))) by (rewrite Hf; by apply serve_handle).
  exists n', f, fs. split; [done|]. split.
  - destruct (serve_begun (cu_text cu) (now_of cu) (request_frame rq)) with (nw := (n, mkWriter [] ([] : list bool)))
      as (gs & Hgs & Hb); [rewrite Hf; simpl; congruence|].
    rewrite Hserve in Hgs. unfold sends in Hgs. cbn in Hgs. subst gs. by apply begun_small in Hb.
  - split; [done|]. split; [done|]. split; [|by rewrite (map_after_now 0 (at_now (now_of cu)))].
    eapply answers_wire_cfg; [|done]. by eapply hl_cfg.
Qed.

(** What a call comes to: an answer of a live node that [ok] allows. *)
Definition reached (ok : bytes -> Prop) rq (h : bytes -> cio (cluster I) T unit) c cu t holds cfg
  (out : result cerr unit * ((client * cluster I) * T)) : Prop :=
  exists a n n' f fs c' k, live cu a n /\ ok a /\ same_setup c c' /\ attached a c' /\
    Forall small (f :: fs) /\ answers_wire (cu_text cu) cfg (holds a) rq (f :: fs) /\
    served (request_cost rq) n (map_after 0 (holds a) rq) n' /\
    out = reply_by h f ((set_conn (Some (wire_of fs)) a c', served_by a n' (later k cu)), t).

(** Writes go to the leader. *)
Definition at_la_to_write (la : bytes) (rq : request) (a : bytes) : Prop := is_write rq = true -> a = la.

Lemma reached_setup ok rq h c c1 cu t holds cfg out : same_setup c c1 ->
  reached ok rq h c1 cu t holds cfg out -> reached ok rq h c cu t holds cfg out.
Proof.
  intros Hc (a & n & n' & f & fs & c' & k & Hl & Hw & Hs & Hrest).
  exists a, n, n', f, fs, c', k. split; [done|]. split; [done|]. split; [by eapply same_setup_trans|done].
Qed.

Lemma reached_later ok rq h c cu t holds cfg out :
  reached ok rq h c (later 1 cu) t holds cfg out -> reached ok rq h c cu t holds cfg out.
Proof.
  intros (a & n & n' & f & fs & c' & k & Hl & Hw & Hs & Ha & Hsm & Hans & Hsv & ->).
  exists a, n, n', f, fs, c', (k + 1)%nat. do 7 (split; [done|]).
  do 2 f_equal. f_equal. unfold served_by, later. cbn. f_equal. lia.
Qed.

(** Attached to a node that answers. *)
Lemma reach_answer ok rq h k lastErr a n c cu t la holds cfg cost steps : healthy cu la holds cfg cost steps ->
  attached a c -> live cu a n -> request_ok rq -> request_cost rq <= cost -> 1 <= steps -> at_la_to_write la rq a -> ok a ->
  reached ok rq h c cu t holds cfg (call_attempts (S k) (request_frame rq) h [] lastErr ((c, cu), t)).
Proof.
  intros Hh Ha Hl Hrq Hcost Hsteps Hwr Hok.
  destruct (node_answers rq a n cu la holds cfg cost steps) as (n' & f & fs & Hserve & Hsm & Hne & Hst & Hans & Hsv); [done..|].
  exists a, n, n', f, fs, c, 0%nat. do 7 (split; [done|]).
  erewrite attempt_answer; [reflexivity|done|done|by destruct Hrq|by eapply hl_breaks|done|by apply Forall_inv in Hsm|done..].
Qed.

Lemma reach_attached rq h k lastErr a n c cu t la holds cfg cost steps : healthy cu la holds cfg cost steps ->
  attached a c -> live cu a n -> request_ok rq -> request_cost rq <= cost -> 1 <= steps ->
  (exists a n, a ∈ cl_addrs c /\ live cu a n) ->
  reached (at_la_to_write la rq) rq h c cu t holds cfg
    (call_attempts (S (S k)) (request_frame rq) h [] lastErr ((c, cu), t)).
Proof.
  intros Hh Ha Hl Hrq Hcost Hsteps Hsome.
  assert (Hdec : at_la_to_write la rq a \/ (is_write rq = true /\ a <> la)).
  { unfold at_la_to_write. destruct (is_write rq); [|by left]. destruct (decide (a = la)); auto. }
  destruct Hdec as [Hwr|[Hwr Hne]]; [by eapply reach_answer|].
  destruct (hl_follow _ _ _ _ _ _ Hh a n Hl Hne) as [Hrole Haddr].
  destruct (handle_redirect (cu_text cu) (now_of cu) rq n (mkWriter [] [])) as (op & body & Hf & Hop & Hhd);
    [done|done|done|done|rewrite Haddr; by eapply hl_redirect|].
  rewrite (attempt_redirect (S k) _ h lastErr a c cu t n (Ok None) la);
    [|done|done|by destruct Hrq|by eapply hl_breaks| |by eapply hl_redirect|by eapply hl_la|done].
  2: { rewrite Hf, <- Haddr. by apply serve_handle. }
  destruct (hl_leader _ _ _ _ _ _ Hh) as (nl & Hll & _).
  pose proof Ha as (Hc & _ & Hp & Hn).
  destruct (connect_live la c (later 1 cu) t) as (c' & a' & Hcon & Hs & Ha' & _ & _ & Hpref);
    [split; [done|by right]|done|done|right; by exists nl|].
  rewrite (Hpref (hl_la _ _ _ _ _ _ Hh)) in Ha'.
  erewrite attempts_connect; [|exact Hcon|intros; by eapply connect_attached|exact Ha'].
  eapply reached_later, reached_setup; [done|].
  eapply (reach_answer _ rq h k lastErr la nl); [by apply healthy_later|done..].
Qed.

(** Clients that can work: open, in step, with attempts for a dead connection, a
    redirect and the answer, and with some live node among their addresses. *)
Record ready cu c : Prop := {
  rd_step : in_step c;
  rd_open : cl_closed c = false;
  rd_next : 0 <= cl_next c;
  rd_attempts : 3 <= o_MaxAttempts (cl_opts c);
  rd_some : exists a n, a ∈ cl_addrs c /\ live cu a n
}.

(** A call from anywhere. *)
Lemma call_reaches rq h c cu t la holds cfg cost steps : healthy cu la holds cfg cost steps -> ready cu c ->
  request_ok rq -> request_cost rq <= cost -> 1 <= steps ->
  reached (at_la_to_write la rq) rq h c cu t holds cfg (call (request_frame rq) h ((c, cu), t)).
Proof.
  intros Hh [Hstep Hopen Hn Hatt Hsome] Hrq Hcost Hsteps. unfold call, sm_bind at 1, get_client. cbn [fst snd].
  rewrite Hopen. replace (Z.to_nat (o_MaxAttempts (cl_opts c))) with (S (S (S (Z.to_nat (o_MaxAttempts (cl_opts c) - 3))))) by lia.
  set (k := Z.to_nat _).
  destruct (connect_live [] c cu t) as (c1 & a1 & Hcon & Hs1 & Ha1 & _ & Hl1 & _); [done|done|done|by left|].
  erewrite attempts_connect; [|exact Hcon|intros; by eapply connect_attached|exact Ha1].
  assert (Hsome1 : exists a n, a ∈ cl_addrs c1 /\ live cu a n) by (by rewrite (proj1 Hs1)).
  eapply reached_setup; [exact Hs1|]. destruct (find_live cu a1) as [n1|] eqn:E1.
  - apply find_live_spec in E1. by eapply reach_attached.
  - destruct (attempt_dead (S (S k)) (request_frame rq) h None a1 c1 cu t) as (c2 & -> & Hs2 & Hst2 & Hn2 & Hc2);
      [done|done|by destruct Hrq|].
    destruct (connect_live [] c2 cu t) as (c3 & a3 & Hcon3 & Hs3 & Ha3 & _ & Hl3 & _);
      [done|done|by rewrite (proj1 Hs2)|by left|].
    erewrite attempts_connect; [|exact Hcon3|intros; by eapply connect_attached|exact Ha3].
    destruct Hl3 as [[Hc2' _]|[n3 Hl3]]; [congruence|].
    assert (Hs13 : same_setup c1 c3) by (by eapply same_setup_trans).
    eapply reached_setup; [exact Hs13|]. eapply reach_attached; [done..|by rewrite (proj1 Hs13)].
Qed.

(** A call of a client that is with the leader stays there. *)
Lemma call_at_leader rq h c cu t la holds cfg cost steps : healthy cu la holds cfg cost steps -> ready cu c ->
  attached la c -> request_ok rq -> request_cost rq <= cost -> 1 <= steps ->
  reached (fun a => a = la) rq h c cu t holds cfg (call (request_frame rq) h ((c, cu), t)).
Proof.
  intros Hh [Hstep Hopen Hn Hatt Hsome] Ha Hrq Hcost Hsteps. unfold call, sm_bind at 1, get_client. cbn [fst snd].
  rewrite Hopen. replace (Z.to_nat (o_MaxAttempts (cl_opts c))) with (S (Z.to_nat (o_MaxAttempts (cl_opts c) - 1))) by lia.
  destruct (hl_leader _ _ _ _ _ _ Hh) as (nl & Hll & _). by eapply (reach_answer _ rq h _ None la nl).
Qed.
End failover.

(** ** What the methods return *)

Inductive outcome :=
| ODone (r : result cerr unit)
| OValue (v : bytes) (r : result cerr unit)
| OPairs (l : list (bytes * bytes)) (r : result cerr unit).

(** An error of the engine, as the caller sees it. *)
Definition client_error (text : error -> bytes) (e : error) : cerr :=
  match e with
  | ErrKeyNotFound => CKeyNotFound
  | e => CRemote (err_text text (EEngine e))
  end.

Definition refused (text : error -> bytes) (e : option error) : result cerr unit :=
  match e with None => Ok tt | Some e => Err (client_error text e) end.

(** The outcome a map dictates. *)
Definition outcome_of (text : error -> bytes) (cfg : Config) (m : gmap bytes bytes) (rq : request) (o : outcome) : Prop :=
  match rq with
  | RqPing => o = ODone (Ok tt)
  | RqGet k => o = match lookup_reply m k with
                   | Ok v => OValue v (Ok tt)
                   | Err e => OValue [] (Err (client_error text e))
                   end
  | RqPut k v => o = ODone (refused text (put_error k v))
  | RqDelete k => o = ODone (refused text (delete_refusal m k))
  | RqBatch ks vs => o = ODone (refused text (batch_refusal ks vs))
  | RqRange start end_ limit => exists l, range_of m start end_ l /\
      o = OPairs (take (Z.to_nat (range_limit cfg limit)) l) (Ok tt)
  end.

Section calls.
Context {I : Type} `{KeyIndexSpec I}.
Implicit Types (cu : cluster I) (c : client) (a : bytes).

Definition run_request (rq : request) (s : client * cluster I) : outcome * (client * cluster I) :=
  match rq with
  | RqPing => let o := client_Ping s in (ODone o.1.2, o.2)
  | RqGet k => let o := client_Read k s in (OValue o.1.1 o.1.2, o.2)
  | RqPut k v => let o := client_Put k v s in (ODone o.1.2, o.2)
  | RqDelete k => let o := client_Delete k s in (ODone o.1.2, o.2)
  | RqBatch ks vs => let o := client_BatchPut ks vs s in (ODone o.1.2, o.2)
  | RqRange start end_ limit => let o := ReadKeyRange start end_ limit s in (OPairs o.1.1 o.1.2, o.2)
  end.

(** ** Reading the answers *)

Section replies.
Context {T : Type}.
Implicit Types (t : T) (h : bytes -> cio (cluster I) T unit).

Lemma reply_error h text e s : small (error_frame text e) ->
  reply_by h (error_frame text e) s = (Err (CRemote (err_text text (EEngine e))), s).
Proof.
  intros Hs. unfold reply_by. rewrite bool_decide_true by done. unfold sm_throw, error_frame, Enc.NewEnc in *. by rewrite decode_Str.
Qed.

(** A handler that leaves the client as it is. *)
Lemma reply_pure h f c cu t r t' : status_of f <> StatusError -> cl_poisoned c = false ->
  h f ((c, cu), t) = (r, ((c, cu), t')) -> reply_by h f ((c, cu), t) = (r, ((c, cu), t')).
Proof.
  intros Hf Hp Hh. unfold reply_by. rewrite bool_decide_false by done. unfold sm_bind at 1, attempt. rewrite Hh.
  cbn [fst snd]. unfold drop_poisoned, sm_bind, get_client, sm_when. cbv beta; cbn [fst snd]. rewrite Hp. by destruct r as [[]|].
Qed.

(** The answer to a write. *)
Lemma reply_write h text e c cu t : cl_poisoned c = false ->
  (forall x, e = Some x -> x = ErrKeyNotFound \/ small (error_frame text x)) ->
  (e = None -> h [StatusOK] ((c, cu), t) = (Ok tt, ((c, cu), t))) ->
  (e = Some ErrKeyNotFound -> h [StatusNotFound] ((c, cu), t) = (Err CKeyNotFound, ((c, cu), t))) ->
  reply_by h (write_frame_of text e) ((c, cu), t) = (refused text e, ((c, cu), t)).
Proof.
  intros Hp Hsm Hok Hnf. destruct e as [e|]; [|by apply reply_pure; auto].
  destruct (decide (e = ErrKeyNotFound)) as [->|Hne]; [by apply reply_pure; auto|].
  destruct (Hsm e eq_refl) as [?|Hs]; [done|]. rewrite write_frame_of_other by done. rewrite reply_error by done.
  cbn [refused]. by destruct e.
Qed.
End replies.

(** *** Ranges *)

Lemma cursor_Empty pre (post : bytes) : Decoder.Empty (cursor pre post) = bool_decide (post = []).
Proof.
  unfold Decoder.Empty, cursor. cbn. rewrite zlen_app. destruct post as [|b post].
  - rewrite bool_decide_true by done. apply Z.leb_le. rewrite zlen_nil. lia.
  - rewrite bool_decide_false by done. apply Z.leb_gt. rewrite zlen_cons. pose proof (zlen_nonneg post). lia.
Qed.

Lemma chunk_pairs_ok l : forall fuel pre (s : client * cluster I) out, (length l < fuel)%nat ->
  Forall (fun p => zlen p.1 < 2 ^ 32 /\ zlen p.2 < 2 ^ 32) l ->
  chunk_pairs fuel append_pair (cursor pre (pairs_bytes l)) (s, out) = (Ok tt, (s, out ++ l)).
Proof.
  induction l as [|p l IH]; intros [|fuel] pre s out Hf Hl; cbn [length] in Hf; [lia| |lia|]; cbn [chunk_pairs].
  - rewrite cursor_Err, cursor_Empty, app_nil_r. done.
  - apply Forall_cons in Hl as [[Hk Hv] Hl]. rewrite cursor_Err, cursor_Empty.
    rewrite bool_decide_false.
    2: { change (pairs_bytes (p :: l)) with (pair_bytes p ++ pairs_bytes l). intros E. apply (f_equal zlen) in E.
         revert E. unfold pair_bytes. rewrite !zlen_app, !zlen_Bytes, zlen_nil.
         pose proof (zlen_nonneg p.1). pose proof (zlen_nonneg p.2). pose proof (zlen_nonneg (pairs_bytes l)). lia. }
    change (pairs_bytes (p :: l)) with (pair_bytes p ++ pairs_bytes l). unfold pair_bytes. rewrite <- app_assoc.
    rewrite cursor_Bytes, cursor_Bytes, cursor_Err by done. unfold sm_bind, attempt, on_var, append_pair. cbn [fst snd].
    rewrite IH by (done || lia). rewrite <- app_assoc. by destruct p.
Qed.

Lemma next_frame_run {T} f fs a c cu (t : T) : small f ->
  next_frame ((set_conn (Some (wire_of (f :: fs))) a c, cu), t) = (Ok f, ((set_conn (Some (wire_of fs)) a c, cu), t)).
Proof.
  intros Hf. unfold next_frame, sm_bind, get_client. cbn [fst snd set_conn cl_conn default id].
  change (wire_of (f :: fs)) with (frame_wire f ++ wire_of fs).
  by rewrite (ReadFrame_WriteFrame f) by (by apply WriteFrame_wire).
Qed.

(** The frames of a range reply, handed to the collecting callback. *)
Lemma range_frames_ok groups : forall fuel total f fs c cu out, (length groups < fuel)%nat ->
  f :: fs = (chunk_frame <$> groups) ++ [Enc.U64 total [StatusRangeEnd]] ->
  Forall small (f :: fs) ->
  range_frames fuel append_pair f ((set_conn (Some (wire_of fs)) (cl_current c) c, cu), out) =
    (Ok tt, ((set_conn (Some []) (cl_current c) c, cu), out ++ mjoin groups)).
Proof.
  induction groups as [|g groups IH]; intros [|fuel] total f fs c cu out Hfuel E Hsm; cbn [length] in Hfuel; try lia.
  - injection E as -> ->. cbn [mjoin list_join]. rewrite app_nil_r. done.
  - injection E as -> E. apply Forall_cons in Hsm as [Hg Hsm]. cbn [range_frames].
    change (status_of (chunk_frame g)) with StatusRangeChunk.
    rewrite (bool_decide_false (StatusRangeChunk = StatusRangeEnd)) by done.
    rewrite (bool_decide_true (StatusRangeChunk = StatusRangeChunk)) by done.
    cbv zeta. unfold sm_bind at 1. change (tail (chunk_frame g)) with (pairs_bytes g). rewrite cursor_new.
    unfold small in Hg. change (chunk_frame g) with (StatusRangeChunk :: pairs_bytes g) in Hg.
    rewrite zlen_cons in Hg. change MaxFrameSize with 335544320 in Hg.
    destruct (pairs_each g) as [Hall Hlen]; [lia|].
    rewrite chunk_pairs_ok; [|change (chunk_frame g) with (StatusRangeChunk :: pairs_bytes g); cbn [length]; unfold zlen in Hlen; lia|done].
    destruct fs as [|f' fs']; [by destruct groups|].
    unfold sm_bind at 1, attempt. rewrite next_frame_run by (by apply Forall_inv in Hsm). cbn [fst snd].
    assert (Hf' : exists b f1, f' = b :: f1).
    { destruct groups as [|g' groups']; [injection E as -> _|injection E as -> _]; eauto. }
    destruct Hf' as (b & f1 & ->). rewrite (IH fuel total (b :: f1) fs' c cu (out ++ g)) by (done || lia).
    cbn [mjoin list_join]. by rewrite <- app_assoc.
Qed.

(** ** One request *)

(** A request that was answered by a node [ok] allows. *)
Definition answered (ok : bytes -> Prop) rq c cu holds cfg (out : outcome * (client * cluster I)) : Prop :=
  exists a n n' c' k o, live cu a n /\ ok a /\ same_setup c c' /\ attached a c' /\
    outcome_of (cu_text cu) cfg (holds a) rq o /\
    served (request_cost rq) n (map_after 0 (holds a) rq) n' /\
    out = (o, (c', served_by a n' (later k cu))).

Lemma attached_again a c : attached a c -> attached a (set_conn (Some []) a c).
Proof. by intros (? & ? & ? & ?). Qed.

Lemma poisoned_again i a c : attached a c -> cl_poisoned (set_conn i a c) = false.
Proof. by intros (? & ? & ? & ?). Qed.

Lemma range_frames_enough groups total f fs : f :: fs = (chunk_frame <$> groups) ++ [Enc.U64 total [StatusRangeEnd]] ->
  (length groups < S (length (wire_of fs)))%nat.
Proof.
  intros E. apply (f_equal length) in E. rewrite length_app, length_fmap in E. cbn in E.
  assert (Hw : (length fs <= length (wire_of fs))%nat).
  { clear. induction fs as [|g fs IH]; [done|]. change (wire_of (g :: fs)) with (frame_wire g ++ wire_of fs).
    unfold frame_wire. rewrite !length_app, length_be_put. cbn [length]. lia. }
  lia.
Qed.

(** The handler [h] makes of every answer to [rq] the outcome the map dictates. *)
Definition reads_answer {T} rq (h : bytes -> cio (cluster I) T unit) (t : T) (o : T -> result cerr unit -> outcome)
  cu holds cfg : Prop := forall a n f fs c' cu', live cu a n -> attached a c' -> Forall small (f :: fs) ->
    answers_wire (cu_text cu) cfg (holds a) rq (f :: fs) ->
    exists r t', reply_by h f ((set_conn (Some (wire_of fs)) a c', cu'), t) = (r, ((set_conn (Some []) a c', cu'), t')) /\
      outcome_of (cu_text cu) cfg (holds a) rq (o t' r).

Lemma reads_get k cu holds cfg : (forall a n, live cu a n -> answering n (holds a)) ->
  reads_answer (RqGet k) read_reply [] OValue cu holds cfg.
Proof.
  intros Hnodes a n f fs c' cu' Hl Ha Hsm Hans. cbn [answers_wire outcome_of] in *. injection Hans as -> ->.
  unfold lookup_reply in *. destruct (validateKey k) as [e|] eqn:Ek; [|destruct (holds a !! k) as [v|] eqn:Ev].
  - destruct (put_error_small (cu_text cu) k [] e) as [Hne Hs]; [unfold put_error; by rewrite Ek|].
    fold (write_frame_of (cu_text cu) (Some e)). rewrite write_frame_of_other, reply_error by done.
    eexists _, _. split; [done|]. by destruct e.
  - destruct (refines_bounded _ _ _ _ (an_map _ _ (Hnodes a n Hl)) Ev) as [_ Hv].
    eexists _, _. split; [|done]. apply reply_pure; [by destruct v|by apply poisoned_again|].
    unfold read_reply. rewrite bool_decide_false by (by destruct v). rewrite Bytes_app. cbn [tail app].
    rewrite cursor_new, <- (app_nil_r (Enc.Bytes v [])), cursor_Bytes
      by (change MaxValueSize with 268435456 in Hv; lia).
    unfold sm_bind, set_var, sm_modify. by rewrite cursor_Done.
  - eexists _, _. split; [|done]. by apply reply_pure; [|apply poisoned_again|].
Qed.

Lemma reads_put k v cu holds cfg : reads_answer (RqPut k v) (expect_ok (str "PUT")) tt (fun _ => ODone) cu holds cfg.
Proof.
  intros a n f fs c' cu' _ Ha _ [= -> ->]. eexists _, _. split; [|done].
  apply reply_write; [by apply poisoned_again| |done|].
  - intros x Hx. right. by apply (put_error_small (cu_text cu) k v).
  - intros Hx. by apply (put_error_small (cu_text cu) k v) in Hx as [? _].
Qed.

Lemma reads_batch ks vs cu holds cfg :
  reads_answer (RqBatch ks vs) (expect_ok (str "BATCHPUT")) tt (fun _ => ODone) cu holds cfg.
Proof.
  intros a n f fs c' cu' _ Ha _ [= -> ->]. eexists _, _. split; [|done].
  apply reply_write; [by apply poisoned_again| |done|].
  - intros x Hx. right. by apply (batch_refusal_small (cu_text cu) ks vs).
  - intros Hx. by apply (batch_refusal_small (cu_text cu) ks vs) in Hx as [? _].
Qed.

Lemma reads_delete k cu holds cfg : reads_answer (RqDelete k) expect_found tt (fun _ => ODone) cu holds cfg.
Proof.
  intros a n f fs c' cu' _ Ha _ [= -> ->]. eexists _, _. split; [|done].
  apply reply_write; [by apply poisoned_again| |done|done].
  intros x Hx. unfold delete_refusal in Hx. destruct (validateKey k) as [e|] eqn:Ek.
  - injection Hx as <-. right. by apply (put_error_small (cu_text cu) k []); unfold put_error; rewrite Ek.
  - destruct (holds a !! k); [done|]. injection Hx as <-. by left.
Qed.

Lemma reads_range start end_ limit cu holds cfg :
  reads_answer (RqRange start end_ limit) (range_reply append_pair) [] OPairs cu holds cfg.
Proof.
  intros a n f fs c' cu' _ Ha Hsm (l & groups & Hl & Hj & Hne & E). cbv zeta in E.
  exists (Ok tt), (mjoin groups). split; [|exists l; by rewrite Hj].
  pose proof (range_frames_enough groups _ f fs E) as Hfuel.
  assert (Hrun : range_reply append_pair f ((set_conn (Some (wire_of fs)) a c', cu'), []) =
    (Ok tt, ((set_conn (Some []) a c', cu'), mjoin groups))).
  { unfold range_reply, sm_bind, get_client. cbn [fst snd set_conn cl_conn default id].
    destruct Ha as (_ & <- & _). by rewrite (range_frames_ok groups _ _ f fs c' cu' [] Hfuel E Hsm). }
  unfold reply_by. rewrite bool_decide_false by (destruct groups; injection E as -> _; done).
  unfold sm_bind at 1, attempt. rewrite Hrun. cbn [fst snd]. unfold drop_poisoned, sm_bind, get_client, sm_when. cbn [fst snd].
  by rewrite poisoned_again.
Qed.

Lemma request_answered (ok : bytes -> Prop) rq c cu holds cfg :
  (forall a n, live cu a n -> answering n (holds a)) -> request_ok rq ->
  (forall T (h : bytes -> cio (cluster I) T unit) (t : T),
     reached ok rq h c cu t holds cfg (call (request_frame rq) h ((c, cu), t))) ->
  answered ok rq c cu holds cfg (run_request rq (c, cu)).
Proof.
  intros Hnodes Hrq Hcall.
  assert (Hfin : forall T (h : bytes -> cio (cluster I) T unit) (t : T) o, reads_answer rq h t o cu holds cfg ->
    answered ok rq c cu holds cfg
      (let out := with_var t (call (request_frame rq) h) (c, cu) in (o out.1.1 out.1.2, out.2))).
  { intros T h t o Hrep. destruct (Hcall T h t) as (a & n & n' & f & fs & c' & k & Hl & Hok & Hs & Ha & Hsm & Hans & Hsv & E).
    destruct (Hrep a n f fs c' (served_by a n' (later k cu)) Hl Ha Hsm Hans) as (r & t' & Er & Ho).
    exists a, n, n', (set_conn (Some []) a c'), k, (o t' r). split; [done|]. split; [done|].
    split; [by destruct Hs as (? & ? & ?)|]. split; [by apply attached_again|]. split; [done|]. split; [done|].
    unfold with_var. rewrite E, Er. done. }
  destruct rq as [|k|k v|k|ks vs|start end_ limit]; cbn [run_request].
  - apply (Hfin unit any_reply tt (fun _ => ODone)). intros a n f fs c' cu' _ Ha _ [= -> ->].
    eexists _, _. split; [apply reply_pure; [done|by apply poisoned_again|reflexivity]|done].
  - apply (Hfin bytes read_reply [] OValue). by apply reads_get.
  - apply (Hfin unit (expect_ok (str "PUT")) tt (fun _ => ODone)), reads_put.
  - apply (Hfin unit expect_found tt (fun _ => ODone)), reads_delete.
  - unfold client_BatchPut. destruct Hrq as [_ Hlen]. unfold zlen. rewrite Hlen, Z.eqb_refl. cbn [negb].
    apply (Hfin unit (expect_ok (str "BATCHPUT")) tt (fun _ => ODone)), reads_batch.
  - apply (Hfin _ (range_reply append_pair) [] OPairs), reads_range.
Qed.

(** ** Histories *)

(** The leader holds [m], every other node what it held. *)
Definition at_la (la : bytes) (m : gmap bytes bytes) (holds : bytes -> gmap bytes bytes) (b : bytes) : gmap bytes bytes :=
  if decide (b = la) then m else holds b.

Lemma live_served a n' k cu b n : live (served_by a n' (later k cu)) b n ->
  (b = a /\ n = n') \/ (b <> a /\ live cu b n).
Proof.
  intros [Hb Hc]. cbn in Hb. destruct (decide (b = a)) as [->|Hne].
  - rewrite lookup_insert_eq in Hb. injection Hb as ->. by left.
  - rewrite lookup_insert_ne in Hb by done. right. by split.
Qed.

Lemma live_again a n n' k cu b : live cu a n -> n_closing n' = n_closing n ->
  (exists x, live (served_by a n' (later k cu)) b x) <-> (exists x, live cu b x).
Proof.
  intros [Ha Hc] Hcl. unfold live. cbn. split; intros [x [Hx Hxc]]; destruct (decide (b = a)) as [->|Hne].
  - by exists n.
  - rewrite lookup_insert_ne in Hx by done. by exists x.
  - exists n'. rewrite lookup_insert_eq. split; [done|by rewrite Hcl].
  - exists x. by rewrite lookup_insert_ne.
Qed.

Lemma answering_served cost n m' n' : answering n m' \/ (exists m, answering n m) -> served cost n m' n' -> answering n' m'.
Proof.
  intros Han [Hm (Hc & Hf & _) _ Hcfg _]. assert (Hr : 0 < c_MaxRangeResults (n_cfg n) < 2 ^ 63).
  { by destruct Han as [[]|[m []]]. }
  split; [done|done|done|by rewrite Hcfg].
Qed.

(** A request leaves a healthy cluster: only the leader's map can have moved. *)
Lemma healthy_served a n n' k rq cu la m holds cfg cost steps : healthy cu la (at_la la m holds) cfg cost steps ->
  live cu a n -> at_la_to_write la rq a ->
  served (request_cost rq) n (map_after 0 (at_la la m holds a) rq) n' -> 0 <= request_cost rq ->
  healthy (served_by a n' (later k cu)) la (at_la la (if decide (a = la) then map_after 0 m rq else m) holds) cfg
    (cost - request_cost rq) (steps - 1).
Proof.
  intros Hh Hl Hwr Hsv Hcost. pose proof Hsv as [Hm (Hc & Hf & Hseq & Hid) Hmem Hcfg Hcl]. split.
  - destruct (hl_leader _ _ _ _ _ _ Hh) as (nl & Hll & Hr). destruct (decide (la = a)) as [->|Hne].
    + exists n'. split; [split; [apply lookup_insert_eq|rewrite Hcl; apply Hl]|]. unfold node_Role. rewrite Hmem.
      destruct Hl as [Hl _]. destruct Hll as [Hll _]. by simplify_eq.
    + exists nl. split; [|done]. destruct Hll as [Hx Hy]. split; [|done]. cbn. by rewrite lookup_insert_ne.
  - intros b nb Hb. apply live_served in Hb as [[-> ->]|[Hne Hb]].
    + assert (E : at_la la (if decide (a = la) then map_after 0 m rq else m) holds a = map_after 0 (at_la la m holds a) rq).
      { unfold at_la. destruct (decide (a = la)) as [|Hne]; [done|].
        destruct rq; cbn; try done; by destruct Hne; apply Hwr. }
      rewrite E. eapply answering_served; [|done]. right. eexists. by eapply hl_nodes.
    + pose proof (hl_nodes _ _ _ _ _ _ Hh b nb Hb) as Han. unfold at_la in *.
      destruct (decide (b = la)) as [->|]; [|done]. destruct (decide (a = la)); congruence.
  - intros b nb Hb. apply live_served in Hb as [[-> ->]|[Hne Hb]].
    + destruct (hl_room _ _ _ _ _ _ Hh a n Hl). lia.
    + destruct (hl_room _ _ _ _ _ _ Hh b nb Hb). lia.
  - intros b nb Hb. apply live_served in Hb as [[-> ->]|[Hne Hb]]; [rewrite Hcfg|]; by eapply hl_cfg.
  - intros b nb Hb Hbla. apply live_served in Hb as [[-> ->]|[Hne Hb]]; [|by eapply hl_follow].
    unfold node_Role, LeaderAddr. rewrite Hmem. by eapply hl_follow.
  - by eapply hl_la.
  - by eapply hl_redirect.
  - intros j. by eapply (hl_clock _ _ _ _ _ _ Hh).
  - intros j. by eapply (hl_breaks _ _ _ _ _ _ Hh).
Qed.

(** What a client may see of a history: [m] is the leader's map, [here] says
    that the client is with the leader, where it then stays. *)
Inductive session (text : error -> bytes) (cfg : Config) (alive : bytes -> Prop) (la : bytes)
  (holds : bytes -> gmap bytes bytes) : bool -> gmap bytes bytes -> list request -> list outcome -> Prop :=
| session_nil here m : session text cfg alive la holds here m [] []
| session_leader here m rq o rqs os :
    outcome_of text cfg m rq o -> session text cfg alive la holds true (map_after 0 m rq) rqs os ->
    session text cfg alive la holds here m (rq :: rqs) (o :: os)
| session_replica m a rq o rqs os : is_write rq = false -> alive a -> a <> la ->
    outcome_of text cfg (holds a) rq o -> session text cfg alive la holds false m rqs os ->
    session text cfg alive la holds false m (rq :: rqs) (o :: os).

Lemma session_mono text cfg (P Q : bytes -> Prop) la holds here m rqs os : (forall a, P a -> Q a) ->
  session text cfg P la holds here m rqs os -> session text cfg Q la holds here m rqs os.
Proof. intros HPQ. induction 1; [constructor|by constructor|by eapply session_replica; eauto]. Qed.

Fixpoint run_requests (rqs : list request) (s : client * cluster I) : list outcome * (client * cluster I) :=
  match rqs with
  | [] => ([], s)
  | rq :: rqs' =>
      let (o, s) := run_request rq s in
      let (os, s) := run_requests rqs' s in (o :: os, s)
  end.

Definition maps_after (m : gmap bytes bytes) (rqs : list request) : gmap bytes bytes := foldl (map_after 0) m rqs.

Lemma request_cost_nonneg rq : 0 <= request_cost rq.
Proof. destruct rq; cbn; try lia. apply zlen_nonneg. Qed.

Lemma requests_cost_nonneg rqs : 0 <= zsum request_cost rqs.
Proof. induction rqs as [|rq rqs IH]; simpl; [lia|]. pose proof (request_cost_nonneg rq). lia. Qed.

Lemma read_keeps m rq : is_write rq = false -> map_after 0 m rq = m.
Proof. by destruct rq. Qed.

(** One more request of a history. *)
Lemma session_step here rq c cu la m holds cfg cost steps : healthy cu la (at_la la m holds) cfg cost steps ->
  ready cu c -> (here = true -> attached la c) -> request_ok rq -> request_cost rq <= cost -> 1 <= steps ->
  exists a n n' k o c', run_request rq (c, cu) = (o, (c', served_by a n' (later k cu))) /\
    live cu a n /\ at_la_to_write la rq a /\ (here = true -> a = la) /\ attached a c' /\ same_setup c c' /\
    outcome_of (cu_text cu) cfg (at_la la m holds a) rq o /\
    served (request_cost rq) n (map_after 0 (at_la la m holds a) rq) n'.
Proof.
  intros Hh Hrd Hhere Hrq Hcost Hsteps. pose proof (hl_nodes _ _ _ _ _ _ Hh) as Hnodes.
  assert (Hans : answered (fun a => at_la_to_write la rq a /\ (here = true -> a = la)) rq c cu (at_la la m holds) cfg
                   (run_request rq (c, cu))).
  { apply request_answered; [done|done|]. intros T h t. destruct here.
    - destruct (call_at_leader rq h c cu t la (at_la la m holds) cfg cost steps)
        as (a & n & n' & f & fs & c' & k & Hl & -> & Hrest); [done|done|by apply Hhere|done|done|done|].
      exists la, n, n', f, fs, c', k. done.
    - destruct (call_reaches rq h c cu t la (at_la la m holds) cfg cost steps)
        as (a & n & n' & f & fs & c' & k & Hl & Hw & Hrest); [done..|].
      exists a, n, n', f, fs, c', k. done. }
  destruct Hans as (a & n & n' & c' & k & o & Hl & [Hw Hla] & Hs & Ha & Ho & Hsv & ->).
  exists a, n, n', k, o, c'. done.
Qed.

Lemma ready_served a n n' k cu c c' : ready cu c -> live cu a n -> n_closing n' = n_closing n ->
  attached a c' -> same_setup c c' -> ready (served_by a n' (later k cu)) c'.
Proof.
  intros [Hst Ho Hn Hat (b & x & Hb & Hx)] Hl Hcl (Hc & _ & Hp & Hn') (Ha & Hopt & Hclo). split.
  - split; [done|by right].
  - congruence.
  - done.
  - by rewrite Hopt.
  - destruct (proj2 (live_again a n n' k cu b Hl Hcl)) as [y Hy]; [by exists x|]. exists b, y. by rewrite Ha.
Qed.

(** C3: a client sees one map.  A client of a cluster whose live followers know
    their leader gets an answer to every request, whatever node it starts at: a
    connection to a node that died, addresses nobody answers at and redirects
    stay invisible.  A write is answered as the leader's map dictates, errors
    included, and moves that map; a read is answered by the map of the node the
    client is with.  Once with the leader, as it is after its first write, the
    client stays there: it reads its own writes.  At the end the leader's store
    stands for the leader's map after the history. *)
Theorem client_is_a_map rqs here c cu la m holds cfg :
  healthy cu la (at_la la m holds) cfg (zsum request_cost rqs) (zlen rqs) -> ready cu c ->
  (here = true -> attached la c) -> Forall request_ok rqs ->
  exists os c' cu' n, run_requests rqs (c, cu) = (os, (c', cu')) /\
    session (cu_text cu) cfg (fun a => exists x, live cu a x) la holds here m rqs os /\
    live cu' la n /\ refines (n_store n) (maps_after m rqs).
Proof.
  revert here c cu m. induction rqs as [|rq rqs IH]; intros here c cu m Hh Hrd Hhere Hall.
  { destruct (hl_leader _ _ _ _ _ _ Hh) as (n & Hl & _). exists [], c, cu, n. split; [done|]. split; [constructor|].
    split; [done|]. pose proof (an_map _ _ (hl_nodes _ _ _ _ _ _ Hh la n Hl)) as Hm. unfold at_la in Hm.
    by rewrite decide_True in Hm. }
  apply Forall_cons in Hall as [Hrq Hall]. cbn [zsum foldr] in Hh. fold (zsum request_cost rqs) in Hh.
  rewrite zlen_cons in Hh. pose proof (requests_cost_nonneg rqs). pose proof (zlen_nonneg rqs).
  destruct (session_step here rq c cu la m holds cfg _ _ Hh Hrd Hhere Hrq)
    as (a & n & n' & k & o & c1 & Hrun & Hl & Hw & Hla & Ha & Hs & Ho & Hsv); [lia|lia|].
  pose proof (healthy_served a n n' k rq cu la m holds cfg _ _ Hh Hl Hw Hsv (request_cost_nonneg rq)) as Hh1.
  replace (request_cost rq + zsum request_cost rqs - request_cost rq) with (zsum request_cost rqs) in Hh1 by lia.
  replace (1 + zlen rqs - 1) with (zlen rqs) in Hh1 by lia.
  pose proof (ready_served a n n' k cu c c1 Hrd Hl (sv_closing _ _ _ _ Hsv) Ha Hs) as Hrd1.
  set (cu1 := served_by a n' (later k cu)) in *. cbn [run_requests]. rewrite Hrun.
  assert (Halive : forall b, (exists x, live cu1 b x) <-> (exists x, live cu b x)).
  { intros b. apply (live_again a n); [done|by eapply sv_closing]. }
  assert (Hsess : forall here1 m1 os, session (cu_text cu) cfg (fun b => exists x, live cu1 b x) la holds here1 m1 rqs os ->
    session (cu_text cu) cfg (fun b => exists x, live cu b x) la holds here1 m1 rqs os).
  { intros here1 m1 os. apply session_mono. intros b. apply Halive. }
  destruct (decide (a = la)) as [->|Hne].
  - destruct (IH true c1 cu1 (map_after 0 m rq) Hh1 Hrd1 (fun _ => Ha) Hall) as (os & c' & cu' & nl & -> & Hos & Hll & Hm).
    exists (o :: os), c', cu', nl. split; [done|]. split; [|done]. constructor; [|by apply Hsess].
    unfold at_la in Ho. by rewrite decide_True in Ho.
  - assert (Hr : is_write rq = false) by (destruct (is_write rq) eqn:E; [by destruct Hne; apply Hw|done]).
    destruct here; [destruct Hne; by apply Hla|].
    destruct (IH false c1 cu1 m Hh1 Hrd1) as (os & c' & cu' & nl & -> & Hos & Hll & Hm); [done|done|].
    exists (o :: os), c', cu', nl. split; [done|]. unfold at_la in Ho. rewrite decide_False in Ho by done.
    split; [apply (session_replica _ _ _ _ _ _ a); [done|by exists n|done|done|by apply Hsess]|].
    split; [done|]. cbn [maps_after foldl]. by rewrite read_keeps.
Qed.
End calls.
