(* ===== verification/Voting.v ===== *)
(** * What elections guarantee

    A vote request and its answer say what the peer knows; an announcement wins
    exactly when its epoch is higher; a candidate promotes itself only with a
    majority, over nobody who is further ahead, and to a new epoch; two
    candidates that hear each other do not both win; epochs never go back. *)

From S2P Require Import Prelude Bytes Decimal Record Datafile Index Store StoreInv Ops Compact Proto Text.
From S2P Require Import Node Election Replication Server Wire Service.

Local Open Scope Z_scope.
Local Open Scope gokv_scope.

Section voting.
Context {I : Type} `{KeyIndexSpec I}.
Context (os_text : error -> bytes).
Implicit Types (n : node I) (w : writer).

(** ** Messages *)

(** Whether the node would tell a candidate that the leader is alive. *)
Definition alive_at (now : Z) n : bool :=
  (node_Role n =? Leader) || (sinceLastContact now n <=? c_ElectionTimeout (n_cfg n)).

Definition reply_of (now : Z) (from : bytes) n : voteReply :=
  mkVoteReply (c_ID (n_cfg n)) (node_Role n) (Epoch n) (Seq (n_store n)) (LeaderAddr n) (alive_at now n) from.

Definition vote_frame (now : Z) n : bytes :=
  [StatusOK] ++ Enc.Str (c_ID (n_cfg n)) [] ++ [Z_byte (node_Role n)] ++ be_put 8 (Epoch n) ++
  be_put 8 (Seq (n_store n)) ++ Enc.Str (LeaderAddr n) [] ++ [if alive_at now n then x01 else x00].

(** A node whose names fit a message and whose numbers are 64-bit. *)
Record speaks n : Prop := {
  sp_role : node_Role n = Leader \/ node_Role n = Follower;
  sp_epoch : is_u64 (Epoch n);
  sp_seq : is_u64 (Seq (n_store n));
  sp_id : zlen (c_ID (n_cfg n)) <= 2 ^ 20;
  sp_addr : zlen (c_Addr (n_cfg n)) <= 2 ^ 20;
  sp_leader : zlen (LeaderAddr n) <= 2 ^ 20
}.

Lemma zlen_Str bs : zlen (Enc.Str bs []) = 4 + zlen bs.
Proof. apply zlen_Bytes. Qed.

Lemma vote_frame_small now n : speaks n -> small (vote_frame now n).
Proof.
  intros [_ _ _ Hid _ Hl]. unfold small, vote_frame. rewrite !zlen_app, !zlen_Str, max_frame.
  unfold zlen at 1 3 4 5 7. rewrite !length_be_put. simpl. lia.
Qed.

Lemma vote_frame_writes now cid q n w : speaks n -> wr_fails w = [] -> zlen cid < 2 ^ 32 -> is_u64 q ->
  handleVote os_text now (cursor [] (Enc.Str cid [] ++ be_put 8 q)) (n, w) =
    (Ok tt, (n, sends w [vote_frame now n])).
Proof.
  intros Hsp Hw Hc Hq. unfold handleVote. rewrite cursor_Str by done.
  rewrite <- (app_nil_r (be_put 8 q)), cursor_U64 by done. unfold when_done. rewrite cursor_Done.
  unfold sm_bind, get_node. cbn [fst snd].
  fold (sinceLastContact now n). change (m_role (n_mem n)) with (node_Role n). fold (alive_at now n).
  unfold Enc.U8, Enc.U64, Enc.NewEnc.
  rewrite (Str_app (m_leaderAddr _)), (Str_app (c_ID _)), <- !app_assoc. by apply write_frame_ok; [apply vote_frame_small|].
Qed.

Lemma vote_frame_parses now from n : speaks n ->
  parse_vote from (vote_frame now n) = Ok (reply_of now from n).
Proof.
  intros [Hr He Hs Hid _ Hl]. unfold parse_vote, vote_frame.
  match goal with |- context [tail ([StatusOK] ++ ?X)] => change (tail ([StatusOK] ++ X)) with X end.
  rewrite cursor_new, cursor_Str by lia. rewrite cursor_U8, cursor_U64, cursor_U64, cursor_Str by (done || lia).
  match goal with |- context [cursor ?p [?b]] => change (cursor p [b]) with (cursor p ([b] ++ [])) end.
  rewrite cursor_U8, cursor_Done. unfold reply_of. f_equal. f_equal.
  - destruct Hr as [-> | ->]; done.
  - by destruct (alive_at now n).
Qed.

Lemma vote_request_fits id q : zlen id <= 2 ^ 20 -> exists b, WriteFrame (vote_request id q) = Ok b.
Proof.
  intros Hid. unfold WriteFrame. destruct (Z.ltb_spec MaxFrameSize (zlen (vote_request id q))) as [Hlt|]; [|by eexists].
  exfalso. revert Hlt. unfold vote_request, Enc.U64, Enc.NewEnc. rewrite Str_app, !zlen_app, zlen_Str, max_frame.
  unfold zlen at 1 3. rewrite length_be_put. simpl. lia.
Qed.

Lemma requestVote_reads exchange now cid addr q n : speaks n -> zlen cid <= 2 ^ 20 ->
  exchange addr (vote_request cid q) = Ok (vote_frame now n) ->
  requestVote exchange cid addr q = Ok (reply_of now addr n).
Proof.
  intros Hsp Hc E. unfold requestVote, roundTrip. destruct (vote_request_fits cid q Hc) as [b ->]. rewrite E.
  unfold vote_frame at 1. cbn [app]. rewrite bool_decide_false by done. by apply vote_frame_parses.
Qed.

(** A vote says what the voter knows.  A node answers a vote request with
    one frame, and a candidate that receives this frame reads from it the
    voter's id, role, epoch, sequence number, leader, and whether the voter
    leads or has heard from its leader within the election timeout; the voter
    itself does not change. *)
Theorem vote_roundtrip at_ cid q n w : speaks n -> wr_fails w = [] -> zlen cid <= 2 ^ 20 -> is_u64 q ->
  exists frame, serve_frame os_text at_ (vote_request cid q) (n, w) = (Ok None, (n, sends w [frame])) /\
    forall exchange addr, exchange addr (vote_request cid q) = Ok frame ->
      requestVote exchange cid addr q = Ok (reply_of (at_now at_) addr n).
Proof.
  intros Hsp Hw Hc Hq. exists (vote_frame (at_now at_) n).
  assert (Hreq : vote_request cid q = OpVote :: (Enc.Str cid [] ++ be_put 8 q)).
  { unfold vote_request, Enc.U64. by rewrite Str_app. }
  split.
  - rewrite Hreq. unfold serve_frame. rewrite bool_decide_false by done. unfold sm_bind.
    match goal with |- context [handle os_text at_ OpVote ?d (n, w)] =>
      assert (E : handle os_text at_ OpVote d (n, w) = (Ok tt, (n, sends w [vote_frame (at_now at_) n]))) end.
    { apply (vote_frame_writes (at_now at_) cid q); [done..|lia|done]. }
    rewrite E. by rewrite flush_ok.
  - intros exchange addr E. by apply requestVote_reads.
Qed.

(** C25: an announcement with a higher epoch wins, and no other.  A node that
    hears of a leader at a higher epoch follows it: it takes the address and
    the epoch, counts as just contacted, and, had it led itself, drops its
    streams and remembers that its state must be discarded; at the same or a
    lower epoch nothing changes.  Either way the announcement is acknowledged
    and no data is touched. *)
Theorem announcement at_ addr id epoch n w : wr_fails w = [] -> zlen addr <= 2 ^ 20 -> zlen id <= 2 ^ 20 ->
  is_u64 epoch ->
  exists n', serve_frame os_text at_ (announce_request addr id epoch) (n, w) =
      (Ok None, (n', sends w [[StatusOK]])) /\
    n_store n' = n_store n /\ n_cfg n' = n_cfg n /\
    if epoch <=? Epoch n then n' = n
    else n_mem n' = mkMembership Follower addr epoch (at_now at_)
                      (m_wasLeader (n_mem n) || (node_Role n =? Leader)) /\
         (node_Role n = Leader -> map_Forall (fun _ s => rs_done s = true) (n_streams n')) /\
         (node_Role n <> Leader -> n_streams n' = n_streams n).
Proof.
  intros Hw Ha Hi He.
  assert (Hreq : announce_request addr id epoch = OpAnnounce :: (Enc.Str addr [] ++ Enc.Str id [] ++ be_put 8 epoch)).
  { unfold announce_request, Enc.U64. rewrite Str_app, (Str_app addr), <- !app_assoc. done. }
  set (f := fun n => match heard (at_now at_) addr epoch (n_mem n) with
                     | None => n
                     | Some m => if m_role (n_mem n) =? Leader then closeAllStreams (set_mem m n) else set_mem m n
                     end : node I).
  exists (f n). split.
  - rewrite Hreq. unfold serve_frame. rewrite bool_decide_false by done. unfold sm_bind.
    match goal with |- context [handle os_text at_ OpAnnounce ?d (n, w)] =>
      assert (E : handle os_text at_ OpAnnounce d (n, w) = (Ok tt, (f n, sends w [[StatusOK]]))) end.
    { change (handleAnnounce os_text (at_now at_) (cursor [] (Enc.Str addr [] ++ Enc.Str id [] ++ be_put 8 epoch)) (n, w) =
        (Ok tt, (f n, sends w [[StatusOK]]))).
      unfold handleAnnounce. rewrite cursor_Str, cursor_Str by lia.
      rewrite <- (app_nil_r (be_put 8 epoch)), cursor_U64 by done. unfold when_done. rewrite cursor_Done.
      unfold sm_bind, modify_node, sm_modify. cbn [fst snd]. apply write_frame_ok; [apply small_status|done]. }
    rewrite E. by rewrite flush_ok.
  - unfold f, heard. change (m_epoch (n_mem n)) with (Epoch n). change (m_role (n_mem n)) with (node_Role n).
    destruct (epoch <=? Epoch n); [done|].
    destruct (Z.eqb_spec (node_Role n) Leader) as [Hl|Hl]; [|done].
    split; [done|]. split; [done|]. split; [done|]. split; [|done]. intros _ i s Hs. simpl in Hs.
    rewrite lookup_fmap in Hs. destruct (n_streams n !! i) as [s0|]; [|done]. injection Hs as <-. done.
Qed.

(** ** Elections *)

(** The answers a candidate with id [id] and number [q] gets. *)
Fixpoint votes (exchange : nat -> bytes -> bytes -> result nerr bytes) (id : bytes) (q : Z) (i : nat)
  (peers : list bytes) : list voteReply :=
  match peers with
  | [] => []
  | p :: peers' =>
      match requestVote (exchange i) id p q with
      | Ok r => r :: votes exchange id q (S i) peers'
      | Err _ => votes exchange id q (S i) peers'
      end
  end.

(** The candidate is at least as far ahead, and wins a tie. *)
Definition yields (id : bytes) (q : Z) (r : voteReply) : Prop :=
  v_seq r < q \/ (v_seq r = q /\ bytes_ltb (v_id r) id = false).
Definition leaderless (r : voteReply) : Prop := v_leaderAlive r = true -> v_leaderAddr r = [].
Definition top_epoch (e : Z) (vs : list voteReply) : Z := foldl Z.max e (v_epoch <$> vs).

Lemma top_epoch_ge vs : forall e, e <= top_epoch e vs /\ Forall (fun r => v_epoch r <= top_epoch e vs) vs.
Proof.
  induction vs as [|r vs IH]; intros e; [split; [done|constructor]|].
  change (top_epoch e (r :: vs)) with (top_epoch (Z.max e (v_epoch r)) vs).
  destruct (IH (Z.max e (v_epoch r))) as [Hle Hall]. split; [lia|]. constructor; [lia|done].
Qed.

(** Other goroutines may write data meanwhile, not change the membership. *)
Definition calm_env (env : nat -> node I -> node I) : Prop :=
  forall i n, n_mem (env i n) = n_mem n /\ n_cfg (env i n) = n_cfg n /\ n_announcing (env i n) = n_announcing n.

Section campaign.
Context (exchange : nat -> bytes -> bytes -> result nerr bytes) (env : nat -> node I -> node I) (clock : nat -> Z).
Context (Henv : calm_env env).

(** A poll that comes to its end. *)
Lemma poll_end q peers : forall i t n n' t', poll exchange env clock i q peers t n = (n', Some t') ->
  let vs := votes exchange (c_ID (n_cfg n)) q i peers in
  n_mem n' = n_mem n /\ n_cfg n' = n_cfg n /\ n_announcing n' = n_announcing n /\
  t_responses t' = t_responses t + zlen vs /\ t_epoch t' = top_epoch (t_epoch t) vs /\
  (t_best t' = true -> t_best t = true /\ Forall (yields (c_ID (n_cfg n)) q) vs) /\
  Forall leaderless vs /\ Forall (fun r => v_role r = Leader -> v_epoch r < t_epoch t') vs.
Proof using Henv.
  induction peers as [|p peers IH]; intros i t n n' t' Hp vs.
  { injection Hp as <- <-. subst vs. simpl. rewrite zlen_nil. repeat split; try done; lia. }
  destruct (Henv i n) as (Hm & Hc & Ha). subst vs. cbn [poll votes] in *.
  destruct (requestVote (exchange i) (c_ID (n_cfg n)) p q) as [r|e].
  2:{ apply IH in Hp. rewrite Hc, Hm, Ha in Hp. exact Hp. }
  unfold count_vote in Hp.
  destruct ((v_role r =? Leader) && (t_epoch t <=? v_epoch r)) eqn:El; [done|].
  destruct (v_leaderAlive r && negb (bool_decide (v_leaderAddr r = []))) eqn:Ea; [done|].
  apply IH in Hp. rewrite Hc, Hm, Ha in Hp. cbn [t_responses t_best t_epoch] in Hp.
  destruct Hp as (? & ? & ? & Hr & He & Hb & Hll & Hlead).
  assert (Hmax : (if t_epoch t <? v_epoch r then v_epoch r else t_epoch t) = Z.max (t_epoch t) (v_epoch r))
    by (destruct (Z.ltb_spec (t_epoch t) (v_epoch r)); lia).
  rewrite Hmax in He. split; [done|]. split; [done|]. split; [done|].
  split; [rewrite zlen_cons; lia|]. split; [exact He|]. split; [|split].
  - intros Hbest. apply Hb in Hbest as [Hbest Hys]. apply andb_true_iff in Hbest as [Hbest Hbeh]. split; [done|].
    constructor; [|done]. apply negb_true_iff, orb_false_iff in Hbeh as [Hq1 Hq2].
    apply Z.ltb_ge in Hq1. unfold yields. destruct (Z.eqb_spec (v_seq r) q); [right|left; lia]. split; [done|].
    by rewrite andb_true_l in Hq2.
  - constructor; [|done]. intros Hal. rewrite Hal in Ea. cbn [andb] in Ea.
    apply negb_false_iff, bool_decide_eq_true in Ea. done.
  - constructor; [|done]. intros Hl. rewrite Hl, Z.eqb_refl in El. cbn [andb] in El.
    apply Z.leb_gt in El. pose proof (top_epoch_ge (votes exchange (c_ID (n_cfg n)) q (S i) peers) (Z.max (t_epoch t) (v_epoch r))).
    lia.
Qed.

(** A poll in which nobody leads, is in touch with a leader, or is ahead. *)
Lemma poll_wins q peers : forall i t n, t_best t = true ->
  Forall (fun r => v_role r <> Leader /\ leaderless r /\ yields (c_ID (n_cfg n)) q r)
    (votes exchange (c_ID (n_cfg n)) q i peers) ->
  exists n' t', poll exchange env clock i q peers t n = (n', Some t') /\ t_best t' = true.
Proof using Henv.
  induction peers as [|p peers IH]; intros i t n Hb Hvs; [by exists n, t|].
  destruct (Henv i n) as (Hm & Hc & Ha). cbn [poll votes] in *.
  destruct (requestVote (exchange i) (c_ID (n_cfg n)) p q) as [r|e].
  2:{ apply IH; [done|]. by rewrite Hc. }
  apply Forall_cons in Hvs as [(Hl & Hll & Hy) Hvs]. unfold count_vote.
  destruct (Z.eqb_spec (v_role r) Leader); [done|]. cbn [andb].
  assert (v_leaderAlive r && negb (bool_decide (v_leaderAddr r = [])) = false) as ->.
  { destruct (v_leaderAlive r) eqn:E; [|done]. rewrite bool_decide_true by (by apply Hll). done. }
  apply IH; [|by rewrite Hc]. cbn [t_best]. rewrite Hb, Hc. cbn [andb].
  apply negb_true_iff, orb_false_iff. destruct Hy as [Hlt|[Heq Hlt]].
  - split; [apply Z.ltb_ge; lia|]. destruct (Z.eqb_spec (v_seq r) q); [lia|done].
  - split; [apply Z.ltb_ge; lia|]. rewrite Hlt. apply andb_false_r.
Qed.

Definition ballots n : list voteReply :=
  votes exchange (c_ID (n_cfg n)) (Seq (n_store n)) 0 (peersExceptSelf n).

(** What a won election amounts to. *)
Record elected n n' : Prop := {
  el_majority : clusterSize n < 2 * (1 + zlen (ballots n));
  el_ahead : Forall (yields (c_ID (n_cfg n)) (Seq (n_store n))) (ballots n);
  el_leaderless : Forall leaderless (ballots n);
  el_epoch : Epoch n' = u64 (top_epoch (Epoch n) (ballots n) + 1);
  el_self : LeaderAddr n' = c_Addr (n_cfg n);
  el_announced : n_announcing n' = n_announcing n ++ ((fun p => (p, Epoch n')) <$> peersExceptSelf n)
}.

Lemma adoptLeader_role t a e n : node_Role (adoptLeader t a e n) = node_Role n.
Proof. done. Qed.

Lemma poll_quit q peers : forall i t n n', poll exchange env clock i q peers t n = (n', None) ->
  node_Role n' = node_Role n.
Proof using Henv.
  induction peers as [|p peers IH]; intros i t n n' Hp; [done|].
  destruct (Henv i n) as (Hm & Hc & Ha). cbn [poll] in Hp.
  assert (Hr : node_Role (env i n) = node_Role n) by (unfold node_Role; by rewrite Hm).
  destruct (requestVote _ _ _ _) as [r|e]; [|by rewrite (IH _ _ _ _ Hp)].
  unfold count_vote in Hp. destruct (_ && _); [injection Hp as <-; by rewrite adoptLeader_role|].
  destruct (_ && _); [injection Hp as <-; by rewrite adoptLeader_role|]. by rewrite (IH _ _ _ _ Hp).
Qed.

Lemma election_elects n : node_Role n <> Leader -> n_electing n = false ->
  node_Role (startElection exchange env clock n) = Leader -> elected n (startElection exchange env clock n).
Proof using Henv.
  intros Hrole Hel. unfold startElection. rewrite Hel. set (n0 := set_electing true n). unfold campaign.
  change (node_Role n0) with (node_Role n). destruct (Z.eqb_spec (node_Role n) Leader) as [|_]; [done|]. cbn [orb].
  destruct (n_closing n0); [done|].
  change (Epoch n0) with (Epoch n). change (n_store n0) with (n_store n).
  change (peersExceptSelf n0) with (peersExceptSelf n).
  destruct (poll _ _ _ _ _ _ _ n0) as [n1 [t|]] eqn:Ep.
  2:{ apply poll_quit in Ep. intros Hl. exfalso. apply Hrole. rewrite <- Hl. symmetry. exact Ep. }
  apply poll_end in Ep as (Hm & Hc & Ha & Hr & He & Hb & Hll & _).
  cbn [t_responses t_best t_epoch] in *.
  change (n_cfg n0) with (n_cfg n) in *. change (n_mem n0) with (n_mem n) in *.
  change (n_announcing n0) with (n_announcing n) in *. fold (ballots n) in *.
  assert (Hsize : clusterSize n1 = clusterSize n) by (unfold clusterSize, peersExceptSelf; by rewrite Hc).
  assert (Hr1 : node_Role n1 = node_Role n) by (unfold node_Role; by rewrite Hm).
  destruct (Z.leb_spec (t_responses t * 2) (clusterSize n1)) as [|Hmaj].
  { intros Hl. exfalso. apply Hrole. rewrite <- Hr1. exact Hl. }
  destruct (t_best t); [|intros Hl; exfalso; apply Hrole; rewrite <- Hr1; exact Hl]. cbn [negb]. intros _.
  destruct (Hb eq_refl) as [_ Hy]. unfold promoteTo. change (m_role (n_mem n1)) with (node_Role n1).
  destruct (Z.eqb_spec (node_Role n1) Leader); [congruence|]. cbn [andb].
  split; [lia|done|done| | |].
  - unfold Epoch at 1. simpl. by rewrite He.
  - unfold LeaderAddr. simpl. by rewrite Hc.
  - unfold Epoch at 1. simpl. unfold peersExceptSelf at 1. simpl. rewrite Ha, Hc. done.
Qed.

Lemma election_won n : node_Role n <> Leader -> n_electing n = false -> n_closing n = false ->
  clusterSize n < 2 * (1 + zlen (ballots n)) ->
  Forall (fun r => v_role r <> Leader /\ leaderless r /\ yields (c_ID (n_cfg n)) (Seq (n_store n)) r) (ballots n) ->
  node_Role (startElection exchange env clock n) = Leader.
Proof using Henv.
  intros Hrole Hel Hcl Hmaj Hvs. unfold startElection. rewrite Hel. set (n0 := set_electing true n). unfold campaign.
  change (node_Role n0) with (node_Role n). destruct (Z.eqb_spec (node_Role n) Leader) as [|_]; [done|]. cbn [orb].
  change (n_closing n0) with (n_closing n). rewrite Hcl.
  change (Epoch n0) with (Epoch n). change (n_store n0) with (n_store n).
  change (peersExceptSelf n0) with (peersExceptSelf n).
  destruct (poll_wins (Seq (n_store n)) (peersExceptSelf n) 0 (mkTally 1 true (Epoch n)) n0) as (n1 & t & Ep & Hb); [done|done|].
  rewrite Ep. apply poll_end in Ep as (Hm & Hc & Ha & Hr & He & _ & _ & _).
  cbn [t_responses t_best t_epoch] in *. change (n_cfg n0) with (n_cfg n) in *. fold (ballots n) in *.
  assert (Hsize : clusterSize n1 = clusterSize n) by (unfold clusterSize, peersExceptSelf; by rewrite Hc).
  rewrite Hsize, Hr, Hb. destruct (Z.leb_spec ((1 + zlen (ballots n)) * 2) (clusterSize n)); [lia|]. cbn [negb].
  unfold promoteTo. assert (Hr1 : m_role (n_mem n1) <> Leader) by (by rewrite Hm).
  destruct (Z.eqb_spec (m_role (n_mem n1)) Leader); [done|]. done.
Qed.
End campaign.


(** C10: rivals that hear each other cannot both win.  If each of two followers
    with different ids gets the other's answer, carrying the number the other
    stands with, at most one of them comes out as the leader. *)
Theorem rivals_exclude ex1 ex2 env1 env2 clock1 clock2 n1 n2 now1 now2 from1 from2 :
  calm_env env1 -> calm_env env2 -> node_Role n1 <> Leader -> node_Role n2 <> Leader ->
  n_electing n1 = false -> n_electing n2 = false -> c_ID (n_cfg n1) <> c_ID (n_cfg n2) ->
  reply_of now2 from2 n2 ∈ ballots ex1 n1 -> reply_of now1 from1 n1 ∈ ballots ex2 n2 ->
  ~ (node_Role (startElection ex1 env1 clock1 n1) = Leader /\
     node_Role (startElection ex2 env2 clock2 n2) = Leader).
Proof.
  intros He1 He2 Hr1 Hr2 Hl1 Hl2 Hid Hin2 Hin1 [Hw1 Hw2].
  apply (election_elects ex1 env1 clock1 He1) in Hw1; [|done..].
  apply (election_elects ex2 env2 clock2 He2) in Hw2; [|done..].
  pose proof (el_ahead _ _ _ Hw1) as Ha1. pose proof (el_ahead _ _ _ Hw2) as Ha2.
  rewrite Forall_forall in Ha1, Ha2. specialize (Ha1 _ Hin2). specialize (Ha2 _ Hin1).
  unfold yields in Ha1, Ha2. cbn [v_seq v_id reply_of] in *.
  assert (Hle1 : bytes_ltb (c_ID (n_cfg n2)) (c_ID (n_cfg n1)) = false /\
    bytes_ltb (c_ID (n_cfg n1)) (c_ID (n_cfg n2)) = false) by (destruct Ha1 as [|[]], Ha2 as [|[]]; (done || lia)).
  destruct Hle1 as [Hn1 Hn2]. destruct (bytes_lt_trichotomy (c_ID (n_cfg n1)) (c_ID (n_cfg n2))) as [[Hlt|]|Hlt];
    unfold bytes_lt in *; congruence.
Qed.
End voting.
