(* ===== verification/Terms.v ===== *)
(** * Epochs

    Whatever a node receives and whenever, its epoch never goes back, and its
    role changes only together with the epoch: within one epoch a node either
    leads or follows. *)

From S2P Require Import Prelude Bytes Decimal Record Datafile Index Store StoreInv Ops Compact Proto Text.
From S2P Require Import Node Election Replication Server Wire Service Voting.

Local Open Scope Z_scope.
Local Open Scope gokv_scope.

Section terms.
Context {I : Type} `{KeyIndexSpec I}.
Context (os_text : error -> bytes).
Implicit Types (n : node I) (w : writer).

(** ** Handlers that leave the membership alone *)

Definition keeps_mem {A} (m : nio I A) : Prop := forall nw, n_mem (m nw).2.1 = n_mem nw.1.

Lemma keeps_bind {A B} (m : nio I A) (k : A -> nio I B) :
  keeps_mem m -> (forall a, keeps_mem (k a)) -> keeps_mem (sm_bind m k).
Proof.
  intros Hm Hk nw. unfold sm_bind. specialize (Hm nw). destruct (m nw) as [[a|e] nw']; [|done].
  by rewrite (Hk a nw').
Qed.
Lemma keeps_catch {A} (m : nio I A) k : keeps_mem m -> (forall e, keeps_mem (k e)) -> keeps_mem (sm_catch m k).
Proof.
  intros Hm Hk nw. unfold sm_catch. specialize (Hm nw). destruct (m nw) as [[a|e] nw']; [done|].
  by rewrite (Hk e nw').
Qed.
Lemma keeps_ret {A} (a : A) : keeps_mem (sm_ret a).
Proof. done. Qed.
Lemma keeps_throw {A} e : keeps_mem (sm_throw (A := A) e).
Proof. done. Qed.
Lemma keeps_ignore {A} (m : nio I A) : keeps_mem m -> keeps_mem (sm_ignore m).
Proof. intros Hm nw. apply Hm. Qed.
Lemma keeps_when b m : keeps_mem m -> keeps_mem (sm_when b m).
Proof. by destruct b. Qed.
Lemma keeps_get : keeps_mem get_node.
Proof. done. Qed.
Lemma keeps_writer {A} (f : writer -> result nerr A * writer) : keeps_mem (on_writer f).
Proof. done. Qed.
Lemma keeps_modify f : (forall n, n_mem (f n) = n_mem n) -> keeps_mem (modify_node f).
Proof. intros Hf nw. apply Hf. Qed.
Lemma keeps_engine {A} (m : sto I A) : keeps_mem (engine m).
Proof. intros nw. unfold engine. simpl. destruct (dispatch_state (set_store (m (n_store nw.1)).2 nw.1)) as [ss ->]. done. Qed.
Lemma keeps_at_leader m : keeps_mem m -> keeps_mem (at_leader m).
Proof. intros Hm. apply keeps_bind; [apply keeps_get|]. intros n. by case_goal; [|apply keeps_writer]. Qed.
Lemma keeps_error e : keeps_mem (writeError os_text e).
Proof. apply keeps_bind; [apply keeps_writer|]. intros _. apply keeps_writer. Qed.
Lemma keeps_done d m : keeps_mem m -> keeps_mem (when_done os_text d m).
Proof. intros Hm. unfold when_done. case_goal; [apply keeps_error|done]. Qed.
End terms.

Create HintDb mem discriminated.
#[export] Hint Resolve keeps_ret keeps_throw keeps_ignore keeps_when keeps_get keeps_writer keeps_engine
  keeps_at_leader keeps_error keeps_done keeps_bind keeps_catch : mem.
#[export] Hint Extern 1 (keeps_mem (write_frame _)) => apply keeps_writer : mem.
#[export] Hint Extern 1 (keeps_mem flush) => apply keeps_writer : mem.
#[export] Hint Extern 1 (keeps_mem (writeStatus _)) => apply keeps_writer : mem.
#[export] Hint Extern 2 (keeps_mem (match ?x with _ => _ end)) => destruct x : mem.

Section steps.
Context {I : Type} `{KeyIndexSpec I}.
Context (os_text : error -> bytes).
Implicit Types (n : node I) (w : writer).

Lemma keeps_get_handler d : keeps_mem (I := I) (handleGet os_text d).
Proof. unfold handleGet. destruct (Decoder.Bytes d). eauto 10 with mem. Qed.
Lemma keeps_put now d : keeps_mem (I := I) (handlePut os_text now d).
Proof. unfold handlePut, apply_write. do 2 (destruct (Decoder.Bytes _)). eauto 10 with mem. Qed.
Lemma keeps_delete now d : keeps_mem (I := I) (handleDelete os_text now d).
Proof. unfold handleDelete, apply_delete. destruct (Decoder.Bytes _). eauto 10 with mem. Qed.
Lemma keeps_batch now d : keeps_mem (I := I) (handleBatchPut os_text now d).
Proof.
  unfold handleBatchPut, apply_write. destruct (Decoder.U32 _). case_goal; [eauto with mem|].
  case_goal; [eauto with mem|]. case_goal; [|eauto with mem]. case_goal. eauto 10 with mem.
Qed.
Lemma keeps_range d : keeps_mem (I := I) (handleRange os_text d).
Proof.
  unfold handleRange. do 2 (destruct (Decoder.Bytes _)). destruct (Decoder.U32 _). apply keeps_done.
  unfold serveRange. apply keeps_bind; [eauto with mem|]. intros n.
  apply keeps_bind; [done|]. intros out. case_goal; [eauto with mem|]. case_goal; eauto 10 with mem.
Qed.
Lemma keeps_compact at_ d : keeps_mem (I := I) (handleCompact os_text at_ d).
Proof.
  unfold handleCompact. apply keeps_done, keeps_bind; [done|]. intros b. eauto 10 with mem.
Qed.
Lemma keeps_vote now d : keeps_mem (I := I) (handleVote os_text now d).
Proof. unfold handleVote. destruct (Decoder.Str _). destruct (Decoder.U64 _). eauto 10 with mem. Qed.

(** ** How one step moves the membership *)

Definition later (m m' : membership) : Prop :=
  m_epoch m <= m_epoch m' /\ (m_role m' <> m_role m -> m_epoch m < m_epoch m') /\
  (m_role m = Leader -> m_role m' <> Leader -> m_wasLeader m' = true).

(** The counter has 64 bits; from its largest value it wraps to 0. *)
Definition moves (m m' : membership) : Prop :=
  is_u64 (m_epoch m') /\ (later m m' \/ m_epoch m' = 0).

Lemma moves_refl m : is_u64 (m_epoch m) -> moves m m.
Proof. intros Hu. split; [done|]. left. split; [done|]. split; [done|]. by intros. Qed.

(** The same role, and an epoch that is not lower. *)
Lemma moves_epoch m m' : is_u64 (m_epoch m') -> m_epoch m <= m_epoch m' -> m_role m' = m_role m -> moves m m'.
Proof. intros Hu He Hr. split; [done|]. left. split; [done|]. split; [by rewrite Hr|]. intros Hl Hn. congruence. Qed.

Lemma moves_heard now addr e m m' : is_u64 e -> heard now addr e m = Some m' -> moves m m'.
Proof.
  intros Hu. unfold heard. destruct (Z.leb_spec e (m_epoch m)); [done|]. intros [= <-].
  split; [done|]. left. split; [simpl; lia|]. split; [simpl; lia|]. intros -> _. simpl. by rewrite orb_true_r.
Qed.

Lemma moves_promote now e n : is_u64 (Epoch n) -> is_u64 e -> Epoch n <= e ->
  moves (n_mem n) (n_mem (promoteTo now (u64 (e + 1)) n)).
Proof.
  intros Hn Hu He. unfold promoteTo. unfold Epoch in *.
  destruct (_ && _); [by apply moves_refl|].
  cbn [n_mem set_announcing set_mem]. split; [apply u64_range|].
  destruct (decide (e = 2 ^ 64 - 1)) as [->|Hne]; [right; done|]. left.
  assert (Hw : u64 (e + 1) = e + 1) by (apply u64_small; unfold is_u64 in *; lia).
  split; [simpl; lia|]. split; [simpl; lia|]. simpl. done.
Qed.

Lemma dec_U64_range d : is_u64 (Decoder.U64 d).1.
Proof.
  unfold Decoder.U64. destruct (_ || _); simpl; [unfold is_u64; lia|].
  pose proof (be_get_range (Decoder.window 8 d)) as Hr. unfold is_u64. split; [lia|].
  eapply Z.lt_le_trans; [apply Hr|]. apply Z.pow_le_mono_r; [lia|].
  unfold Decoder.window, slice. rewrite length_take. lia.
Qed.

Lemma moves_announce now d nw : is_u64 (Epoch nw.1) ->
  moves (n_mem nw.1) (n_mem (handleAnnounce (I := I) os_text now d nw).2.1).
Proof.
  intros Hu. unfold handleAnnounce. destruct (Decoder.Str d) as [addr d1]. destruct (Decoder.Str d1) as [id d2].
  pose proof (dec_U64_range d2) as He. destruct (Decoder.U64 d2) as [e d3]. cbn [fst] in He.
  unfold when_done. destruct (Decoder.Done d3); [rewrite keeps_error; by apply moves_refl|].
  unfold sm_bind, modify_node, sm_modify. cbn [fst snd].
  match goal with |- context [(writeStatus StatusOK ?nw').2.1] =>
    rewrite (keeps_writer (wr_write [StatusOK]) nw' : n_mem (writeStatus StatusOK nw').2.1 = n_mem nw'.1) end.
  cbn [fst]. destruct (heard now addr e (n_mem nw.1)) as [m|] eqn:Eh; [|by apply moves_refl].
  apply moves_heard in Eh; [|done]. by destruct (_ =? _).
Qed.

Lemma moves_handle at_ op d nw : is_u64 (Epoch nw.1) ->
  moves (n_mem nw.1) (n_mem (handle (I := I) os_text at_ op d nw).2.1).
Proof.
  intros Hu. assert (Hk : forall m : nio I unit, keeps_mem m -> moves (n_mem nw.1) (n_mem (m nw).2.1)).
  { intros m Hm. rewrite Hm. by apply moves_refl. }
  unfold handle. case_goal; [apply Hk; eauto with mem|]. case_goal; [apply Hk, keeps_get_handler|].
  case_goal; [apply Hk, keeps_put|]. case_goal; [apply Hk, keeps_delete|]. case_goal; [apply Hk, keeps_batch|].
  case_goal; [apply Hk, keeps_range|]. case_goal; [apply Hk; eauto with mem|]. case_goal; [apply Hk; eauto with mem|].
  case_goal; [apply Hk, keeps_compact|]. case_goal; [apply Hk, keeps_vote|].
  case_goal; [by apply moves_announce|]. case_goal; [|apply Hk; eauto with mem].
  unfold when_done. case_goal; [apply Hk; eauto with mem|].
  unfold sm_bind, modify_node, sm_modify. cbn [fst snd].
  match goal with |- context [(writeStatus StatusOK ?nw').2.1] =>
    rewrite (keeps_writer (wr_write [StatusOK]) nw' : n_mem (writeStatus StatusOK nw').2.1 = n_mem nw'.1) end.
  by apply moves_promote.
Qed.

Lemma moves_serve at_ frame nw : is_u64 (Epoch nw.1) ->
  moves (n_mem nw.1) (n_mem (serve_frame (I := I) os_text at_ frame nw).2.1).
Proof.
  intros Hu. unfold serve_frame. destruct frame as [|op body]; [by apply moves_refl|].
  case_goal.
  { destruct (Decoder.U64 _) as [from d]. case_goal; [|by apply moves_refl].
    match goal with |- context [(?m nw).2.1] => assert (Hm : keeps_mem m) by eauto with mem end.
    rewrite Hm. by apply moves_refl. }
  pose proof (moves_handle at_ op (Decoder.NewDec body) nw Hu) as Hh. unfold sm_bind at 1.
  destruct (handle _ _ _ _ nw) as [[[]|e] nw']; [|done].
  match goal with |- context [(?m nw').2.1] => assert (Hm : keeps_mem m) by eauto with mem end.
  by rewrite Hm.
Qed.

(** *** The follower's side *)

Definition still (m m' : membership) : Prop :=
  m_epoch m <= m_epoch m' /\ m_role m' = m_role m /\ (is_u64 (m_epoch m) -> is_u64 (m_epoch m')).

Definition stills {A} (m : sm (node I * bool) nerr A) : Prop := forall nc, still (n_mem nc.1) (n_mem (m nc).2.1).

Lemma still_refl m : still m m.
Proof. done. Qed.
Lemma still_trans m1 m2 m3 : still m1 m2 -> still m2 m3 -> still m1 m3.
Proof. intros (? & ? & ?) (? & ? & ?). split; [lia|]. split; [congruence|auto]. Qed.
Lemma stills_bind {A B} (m : sm (node I * bool) nerr A) (k : A -> sm (node I * bool) nerr B) :
  stills m -> (forall a, stills (k a)) -> stills (sm_bind m k).
Proof.
  intros Hm Hk nc. unfold sm_bind. specialize (Hm nc). destruct (m nc) as [[a|e] nc']; [|done].
  eapply still_trans; [exact Hm|apply Hk].
Qed.
Lemma stills_store {A} (m : sto I A) : stills (on_store m).
Proof.
  intros nc. unfold on_store. simpl. destruct (dispatch_state (set_store (m (n_store nc.1)).2 nc.1)) as [ss ->]. done.
Qed.

Lemma stills_frame addr now frame : stills (on_frame addr now frame).
Proof.
  destruct frame as [|st body]; [by intros nc|]. unfold on_frame.
  apply stills_bind; [by intros nc|]. intros _. case_goal; [by intros nc|]. case_goal.
  { apply stills_bind; [by intros nc|]. intros _. pose proof (dec_U64_range (Decoder.NewDec body)) as He.
    destruct (Decoder.U64 _) as [e d1]. cbn [fst] in He. destruct (Decoder.Str d1) as [a d2].
    destruct (Decoder.Err d2); [by intros nc|]. intros nc. unfold on_node, sm_modify. cbn [fst snd].
    unfold adoptEpoch. destruct (Z.leb_spec (m_epoch (n_mem nc.1)) e); [|done]. cbn [andb].
    by destruct (_ =? _). }
  case_goal; [apply stills_store|]. case_goal; [apply stills_bind; [apply stills_store|by intros _ nc]|].
  case_goal; [|by case_goal; intros nc]. apply stills_bind; [|by intros _ nc].
  by destruct (_ && _); intros nc.
Qed.

(** *** Elections *)

Lemma requestVote_epoch ex id addr q r : requestVote ex id addr q = Ok r -> is_u64 (v_epoch r).
Proof.
  unfold requestVote, parse_vote. destruct (roundTrip _ _ _) as [frame|]; [|done].
  destruct (Decoder.Str _) as [? d1]. destruct (Decoder.U8 d1) as [? d2].
  pose proof (dec_U64_range d2) as He. destruct (Decoder.U64 d2) as [e d3]. destruct (Decoder.U64 d3) as [? d4].
  destruct (Decoder.Str d4) as [? d5]. destruct (Decoder.U8 d5) as [? d6].
  destruct (Decoder.Done d6); [done|]. by intros [= <-].
Qed.

Lemma still_adopt now addr e n : is_u64 e -> still (n_mem n) (n_mem (adoptLeader now addr e n)).
Proof.
  intros He. unfold adoptLeader. cbn [n_mem set_mem]. unfold still.
  cbn [m_epoch m_role]. split; [destruct (Z.ltb_spec (m_epoch (n_mem n)) e); lia|].
  split; [done|]. intros Hu. by destruct (m_epoch (n_mem n) <? e).
Qed.

Lemma poll_still exchange env clock q : calm_env env -> forall peers i t n n' o,
  poll exchange env clock i q peers t n = (n', o) -> is_u64 (t_epoch t) ->
  still (n_mem n) (n_mem n') /\
  forall t', o = Some t' -> n_mem n' = n_mem n /\ is_u64 (t_epoch t') /\ t_epoch t <= t_epoch t'.
Proof.
  intros Henv. induction peers as [|p peers IH]; intros i t n n' o Hp Hu.
  { injection Hp as <- <-. split; [done|]. intros t' [= <-]. done. }
  destruct (Henv i n) as (Hm & _). cbn [poll] in Hp.
  destruct (requestVote (exchange i) (c_ID (n_cfg n)) p q) as [r|e] eqn:Er.
  2:{ apply IH in Hp as [Hs Ht]; [|done]. rewrite Hm in *. done. }
  apply requestVote_epoch in Er. unfold count_vote in Hp.
  destruct (_ && _).
  { injection Hp as <- <-. split; [|done]. rewrite <- Hm. by apply still_adopt. }
  destruct (_ && _).
  { injection Hp as <- <-. split; [|done]. rewrite <- Hm. apply still_adopt. unfold is_u64 in *. lia. }
  apply IH in Hp as [Hs Ht]; [|cbn [t_epoch]; by destruct (t_epoch t <? v_epoch r)]. rewrite Hm in *. split; [done|].
  intros t' Et. destruct (Ht t' Et) as (? & ? & Hle). simpl in Hle.
  split; [done|]. split; [done|]. destruct (Z.ltb_spec (t_epoch t) (v_epoch r)); lia.
Qed.

Lemma still_moves m m' : is_u64 (m_epoch m) -> still m m' -> moves m m'.
Proof. intros Hu (He & Hr & Hu'). apply moves_epoch; auto. Qed.

Lemma moves_election exchange env clock n : calm_env env -> is_u64 (Epoch n) ->
  moves (n_mem n) (n_mem (startElection exchange env clock n)).
Proof.
  intros Henv Hu. unfold startElection. destruct (n_electing n); [by apply moves_refl|].
  set (n0 := set_electing true n). assert (Hu0 : is_u64 (Epoch n0)) by done.
  change (moves (n_mem n0) (n_mem (campaign exchange env clock n0))). clearbody n0. clear n Hu.
  unfold campaign. destruct (_ || _); [by apply moves_refl|].
  destruct (poll _ _ _ _ _ _ _ n0) as [n1 o] eqn:Ep.
  apply (poll_still _ _ _ _ Henv) in Ep as [Hs Ht]; [|done]. apply still_moves in Hs; [|done].
  destruct o as [t|]; [|done]. destruct (_ <=? _); [done|]. destruct (negb _); [done|].
  destruct (Ht t eq_refl) as (Hm & Hue & Hle). rewrite <- Hm. simpl in Hle.
  apply moves_promote; [|done|]; unfold Epoch in *; rewrite Hm; done.
Qed.

(** *** The leader's side *)

Lemma keeps_drain id : forall k, keeps_mem (I := I) (drain k id).
Proof.
  induction k as [|k IH]; [done|]. cbn [drain]. apply keeps_bind; [apply keeps_get|]. intros n.
  destruct (n_streams n !! id) as [[[|raw ch] dn peer]|]; [done| |done].
  apply keeps_bind; [by apply keeps_modify|]. intros _. apply keeps_bind; [apply keeps_writer|]. intros _. done.
Qed.
Lemma keeps_heartbeat : keeps_mem (I := I) writeHeartbeat.
Proof. unfold writeHeartbeat. eauto 10 with mem. Qed.
Lemma keeps_turn id ev : keeps_mem (I := I) (stream_turn id ev).
Proof.
  destruct ev; [done|done| |].
  - apply keeps_bind; [apply keeps_drain|]. eauto with mem.
  - apply keeps_bind; [apply keeps_heartbeat|]. eauto with mem.
Qed.
Lemma mem_dispatch s (n : node I) : n_mem (dispatch (set_store s n)) = n_mem n.
Proof. by destruct (dispatch_state (set_store s n)) as [ss ->]. Qed.
Lemma keeps_snapshot others fuel : keeps_mem (I := I) (send_snapshot others fuel).
Proof.
  intros nw. unfold send_snapshot. destruct (SnapshotRecords _ _ _ _ _) as [[[] ?] s]; apply mem_dispatch.
Qed.
Lemma keeps_catchUp others fuel from : keeps_mem (I := I) (catchUp others fuel from).
Proof.
  unfold catchUp. assert (Hfull : keeps_mem (I := I) (writeStatus StatusFullSync;;; send_snapshot others fuel;;; flush)).
  { apply keeps_bind; [eauto with mem|]. intros _. apply keeps_bind; [apply keeps_snapshot|]. eauto with mem. }
  destruct (from =? 0); [done|]. intros nw. destruct (RecordsSince _ _ _ _ _) as [[[[]|x] t] s]; [apply mem_dispatch|].
  destruct (bool_decide _); [rewrite Hfull|]; apply mem_dispatch.
Qed.
Lemma keeps_attach env others fuel peer from : calm_env env -> keeps_mem (I := I) (attach env others fuel peer from).
Proof.
  intros Henv. unfold attach. apply keeps_bind; [apply keeps_get|]. intros n. destruct (negb _); [eauto 10 with mem|].
  apply keeps_bind; [done|]. intros id. apply keeps_catch.
  - apply keeps_bind; [apply keeps_modify; intros; by apply Henv|]. intros _.
    apply keeps_bind; [apply keeps_heartbeat|]. intros _. apply keeps_bind; [apply keeps_catchUp|]. intros _.
    apply keeps_bind; [apply keeps_modify; intros; by apply Henv|]. eauto 10 with mem.
  - intros e. apply keeps_bind; [by apply keeps_modify|]. eauto with mem.
Qed.

(** ** Runs *)

(** What can happen to a node: any frame on a client's or a peer's connection,
    with any writes of the answer failing; any frame on its own stream; a
    reconnect; an election; the steps of a stream it serves; anything at all
    in its store. *)
Inductive node_step n : node I -> Prop :=
| step_request at_ frame w : node_step n (serve_frame os_text at_ frame (n, w)).2.1
| step_frame addr now frame caughtUp : node_step n (on_frame addr now frame (n, caughtUp)).2.1
| step_resume : node_step n (resume_from n).2
| step_election exchange env clock : calm_env env -> node_step n (startElection exchange env clock n)
| step_attach env others fuel peer from w : calm_env env -> node_step n (attach env others fuel peer from (n, w)).2.1
| step_stream id ev w : node_step n (stream_turn id ev (n, w)).2.1
| step_store s : node_step n (set_store s n).

Lemma step_moves n n' : is_u64 (Epoch n) -> node_step n n' -> moves (n_mem n) (n_mem n').
Proof.
  intros Hu Hs. destruct Hs.
  - by apply (moves_serve at_ frame (n, w)).
  - apply still_moves; [done|]. apply (stills_frame addr now frame (n, caughtUp)).
  - by apply moves_epoch.
  - by apply moves_election.
  - rewrite (keeps_attach env others fuel peer from) by done. by apply moves_refl.
  - rewrite (keeps_turn id ev (n, w)). by apply moves_refl.
  - by apply moves_refl.
Qed.

(** A run in which the 64-bit epoch does not wrap around. *)
Definition run : node I -> node I -> Prop := rtc (fun n n' => node_step n n' /\ Epoch n' <> 0).

End steps.
