(* ===== verification/Fanout.v ===== *)
(** * Live streams

    A follower that is attached gets every record the leader appends, in the
    order of the appends, or loses its stream. *)

From S2P Require Import Prelude Bytes Decimal Record Datafile Index Store StoreInv Compact Proto Text.
From S2P Require Import Node Replication Server Wire Service.

Local Open Scope Z_scope.
Local Open Scope gokv_scope.

Section fanout.
Context {I : Type} `{KeyIndexSpec I}.
Implicit Types (n : node I) (w : writer).

(** What happens to a stream: the leader appends, the stream's loop is woken
    by queued records or by its ticker. *)
Inductive traffic :=
| Append (maxSeq : Z) (raw : bytes)
| Wake
| Beat.

(** A beat's frame is no data. *)
Definition flow (id : Z) (nw : node I * writer) (ev : traffic) : node I * writer :=
  match ev with
  | Append q raw => (fanout q raw nw.1, nw.2)
  | Wake => (stream_turn id EvData nw).2
  | Beat => (stream_turn id EvTick nw).2
  end.
Definition appended_raw (ev : traffic) : option bytes :=
  match ev with Append _ raw => Some raw | _ => None end.
Definition is_data (frame : bytes) : bool :=
  match frame with [] => false | st :: _ => bool_decide (st = StatusReplData) end.

(** [raws] were appended since [w0]: [sent] of them went out as data frames and
    the rest is queued, unless the stream was dropped. *)
Definition complete (id : Z) (w0 : writer) (raws : list bytes) (nw : node I * writer) : Prop :=
  wr_fails nw.2 = [] /\ exists s, n_streams nw.1 !! id = Some s /\ zlen (rs_ch s) <= streamBuffer /\
    (forall raw, raw ∈ rs_ch s -> raw ∈ raws) /\
    (rs_done s = false ->
     exists sent frames, raws = sent ++ rs_ch s /\ wr_out nw.2 = wr_out w0 ++ frames /\
       filter (fun fr => is_data fr = true) frames = (repl_data <$> sent)).

Definition raw_small (raw : bytes) : Prop := small (repl_data raw).

Lemma complete_append id w0 raws nw q raw : complete id w0 raws nw ->
  complete id w0 (raws ++ [raw]) (fanout q raw nw.1, nw.2).
Proof.
  intros (Hw & s & Hs & Hlen & Hsub & Hok). split; [done|]. exists (offer raw s). split; [|].
  { cbn [fst fanout set_streams n_streams]. by rewrite lookup_fmap, Hs. }
  unfold offer. destruct (Z.ltb_spec (zlen (rs_ch s)) streamBuffer) as [Hlt|].
  2:{ split; [done|]. split; [|done]. intros x Hx. apply elem_of_app. left. by apply Hsub. }
  cbn [rs_ch rs_done]. split; [rewrite zlen_app; unfold zlen at 2; simpl; lia|].
  split; [intros x [Hx|Hx]%elem_of_app; apply elem_of_app; [left; by apply Hsub|by right]|].
  intros Hd. destruct (Hok Hd) as (sent & frames & -> & Ho & Hf). exists sent, frames.
  split; [by rewrite <- app_assoc|done].
Qed.

Lemma complete_frame id w0 raws n w fr : complete id w0 raws (n, w) -> is_data fr = false ->
  complete id w0 raws (n, sends w [fr]).
Proof.
  intros (Hw & s & Hs & Hlen & Hsub & Hok) Hd. split; [done|]. exists s. split; [done|]. split; [done|]. split; [done|].
  intros Hdn. destruct (Hok Hdn) as (sent & frames & -> & Ho & Hf). exists sent, (frames ++ [fr]).
  split; [done|]. split; [cbn [snd sends wr_out] in *; by rewrite Ho, app_assoc|].
  rewrite filter_app, Hf. rewrite filter_cons_False by congruence. by rewrite app_nil_r.
Qed.

Lemma complete_drain id w0 raws : Forall raw_small raws -> forall k nw, complete id w0 raws nw ->
  exists nw', drain k id nw = (Ok tt, nw') /\ complete id w0 raws nw' /\ n_mem nw'.1 = n_mem nw.1.
Proof.
  intros Hsm. induction k as [|k IH]; intros [n w] Hc; [by exists (n, w)|].
  cbn [drain]. unfold sm_bind at 1, get_node. cbn [fst].
  pose proof Hc as (Hw & s & Hs & Hlen & Hsub & Hok). cbn [fst snd] in *. rewrite Hs.
  destruct s as [[|raw ch] dn peer]; [by exists (n, w)|]. cbn [rs_ch rs_done] in *.
  assert (Hraw : raw_small raw) by (rewrite Forall_forall in Hsm; apply Hsm, Hsub; by left).
  unfold sm_bind at 1, modify_node, sm_modify. cbn [fst snd].
  set (n1 := set_streams _ n). unfold sm_bind at 1, on_writer. cbn [fst snd]. unfold wr_repl_data.
  rewrite wr_write_ok by done. cbn [fst snd]. destruct (IH (n1, sends w [repl_data raw])) as (nw' & E & Hc' & Hm); [|by exists nw'].
  split; [done|]. exists (mkStream ch dn peer). split; [apply lookup_insert_eq|].
  cbn [rs_ch rs_done snd sends wr_out]. rewrite zlen_cons in Hlen. split; [lia|].
  split; [intros x Hx; apply Hsub; by right|].
  intros Hd. destruct (Hok Hd) as (sent & frames & -> & Ho & Hf). exists (sent ++ [raw]), (frames ++ [repl_data raw]).
  split; [by rewrite <- app_assoc|]. split; [by rewrite Ho, app_assoc|].
  rewrite filter_app, Hf, fmap_app. by rewrite filter_cons_True.
Qed.

Lemma heartbeat_small e a : zlen a <= 2 ^ 20 -> small (heartbeat e a) /\ is_data (heartbeat e a) = false.
Proof.
  intros Ha. unfold heartbeat, Enc.U64, Enc.NewEnc. rewrite Str_app. split; [|done].
  unfold small. rewrite !zlen_app, (zlen_Bytes a : zlen (Enc.Str a []) = _), max_frame.
  unfold zlen at 1 2. rewrite length_be_put. simpl. lia.
Qed.

Lemma flow_complete id w0 ev raws nw : zlen (LeaderAddr nw.1) <= 2 ^ 20 -> Forall raw_small raws ->
  complete id w0 raws nw ->
  complete id w0 (raws ++ option_list (appended_raw ev)) (flow id nw ev) /\ n_mem (flow id nw ev).1 = n_mem nw.1.
Proof.
  intros Hl Hsm Hc. destruct ev as [q raw| |]; cbn [appended_raw option_list flow].
  - split; [by apply complete_append|done].
  - rewrite app_nil_r. unfold stream_turn, sm_bind.
    destruct (complete_drain id w0 raws Hsm 257 nw Hc) as ([n' w'] & E & Hc' & Hm). rewrite E.
    pose proof Hc' as [Hw' _]. rewrite flush_ok by done. done.
  - rewrite app_nil_r. unfold stream_turn, writeHeartbeat, sm_bind, get_node. destruct nw as [n w]. cbn [fst snd] in *.
    destruct (heartbeat_small (Epoch n) (LeaderAddr n) Hl) as [Hs Hd]. pose proof Hc as [Hw _].
    rewrite write_frame_ok by done. rewrite flush_ok by done. split; [by apply complete_frame|done].
Qed.

(** C11: a live stream loses nothing.  From the moment a follower is attached,
    whatever the order of appends, wake-ups and heartbeats, its queue never
    outgrows the buffer, and as long as the stream is not dropped the data
    frames it was sent followed by its queue are exactly what the leader
    appended since, in order. *)
Theorem stream_complete id peer n w evs : n_streams n !! id = Some (newReplStream peer) -> wr_fails w = [] ->
  zlen (LeaderAddr n) <= 2 ^ 20 -> Forall raw_small (omap appended_raw evs) ->
  complete id w (omap appended_raw evs) (foldl (flow id) (n, w) evs).
Proof.
  intros Hid Hw Hl Hsm.
  assert (Hgen : forall evs raws nw, zlen (LeaderAddr nw.1) <= 2 ^ 20 -> complete id w raws nw ->
    Forall raw_small raws -> Forall raw_small (omap appended_raw evs) ->
    complete id w (raws ++ omap appended_raw evs) (foldl (flow id) nw evs)).
  { clear. induction evs as [|ev evs IH]; intros raws nw Hl Hc Hr Hs; [by rewrite app_nil_r|].
    destruct (flow_complete id w ev raws nw Hl Hr Hc) as [Hc' Hm].
    assert (He : omap appended_raw (ev :: evs) = option_list (appended_raw ev) ++ omap appended_raw evs) by (by destruct ev).
    rewrite He in *. apply Forall_app in Hs as [Hs1 Hs2]. cbn [foldl]. rewrite app_assoc. apply IH; [|done| |done].
    - unfold LeaderAddr in *. by rewrite Hm.
    - by apply Forall_app. }
  apply (Hgen evs [] (n, w)); [done| |done|done]. split; [done|]. exists (newReplStream peer). split; [done|].
  split; [done|]. split; [by intros ? ?%not_elem_of_nil|]. intros _. exists [], []. split; [done|]. split; [by rewrite app_nil_r|done].
Qed.
End fanout.
