(* ===== verification/Lifecycle.v ===== *)
(** * A node's goroutines (internal/node/node.go)

    [acceptLoop], the goroutines that serve connections, [followLoop] and
    [Close], step by step and interleaved at will.  [Close] misses no
    connection and closes the store only when nobody is left to use it, and it
    returns. *)

From S2P Require Import Prelude Bytes Record Datafile Index Store Node.

Local Open Scope Z_scope.
Local Open Scope gokv_scope.

(** ** The program *)

(** Where [acceptLoop] is: in [Accept], holding a new connection, holding one
    that is registered, or gone. *)
Inductive acceptor := AWait | AGot (c : Z) | ATracked (c : Z) | AEnded.

(** Where the goroutine of a connection is: started, in [serveConn], with the
    connection closed, and no longer registered. *)
Inductive phase := WStart | WServe | WLeave | WUntracked.

(** Where [Close] is: what it has done. *)
Inductive closer :=
| NotClosing | SetClosing | ClosedStop | ClosedListener | ClosedStreams | ClosedConns | Waited
| ClosedStore (r : result error unit).

#[global] Instance phase_eq_dec : EqDecision phase.
Proof. solve_decision. Defined.

Section lifecycle.
Context {I : Type} `{KeyIndex I}.
Notation node := (node I).

(** The node with its goroutines; a connection is a number, [p_live] are those
    that are up and [p_next] is the next. *)
Record process := mkProcess {
  p_node : node;
  p_live : gset Z;
  p_next : Z;
  p_listening : bool;
  p_stopped : bool;
  p_accept : acceptor;
  p_workers : gmap Z phase;
  p_following : bool;
  p_wg : Z;
  p_closer : closer
}.

(** [Start] has started both loops. *)
Definition launch (n : node) : process := mkProcess n ∅ 0 true false AWait ∅ true 2 NotClosing.

Definition p_set_node (n : node) (p : process) : process :=
  mkProcess n (p_live p) (p_next p) (p_listening p) (p_stopped p) (p_accept p) (p_workers p) (p_following p) (p_wg p) (p_closer p).
Definition p_set_live (l : gset Z) (p : process) : process :=
  mkProcess (p_node p) l (p_next p) (p_listening p) (p_stopped p) (p_accept p) (p_workers p) (p_following p) (p_wg p) (p_closer p).
Definition p_set_accept (a : acceptor) (p : process) : process :=
  mkProcess (p_node p) (p_live p) (p_next p) (p_listening p) (p_stopped p) a (p_workers p) (p_following p) (p_wg p) (p_closer p).
Definition p_set_workers (w : gmap Z phase) (p : process) : process :=
  mkProcess (p_node p) (p_live p) (p_next p) (p_listening p) (p_stopped p) (p_accept p) w (p_following p) (p_wg p) (p_closer p).
Definition p_set_wg (k : Z) (p : process) : process :=
  mkProcess (p_node p) (p_live p) (p_next p) (p_listening p) (p_stopped p) (p_accept p) (p_workers p) (p_following p) k (p_closer p).
Definition p_set_closer (c : closer) (p : process) : process :=
  mkProcess (p_node p) (p_live p) (p_next p) (p_listening p) (p_stopped p) (p_accept p) (p_workers p) (p_following p) (p_wg p) c.

(** *** [acceptLoop] *)

(** The loop returns. *)
Definition end_accept (p : process) : process := p_set_wg (p_wg p - 1) (p_set_accept AEnded p).

Definition accept_conn (p : process) : option process :=
  match p_accept p with
  | AWait =>
      if p_listening p
      then Some (mkProcess (p_node p) ({[p_next p]} ∪ p_live p) (p_next p + 1) (p_listening p) (p_stopped p)
                   (AGot (p_next p)) (p_workers p) (p_following p) (p_wg p) (p_closer p))
      else None
  | _ => None
  end.
Definition accept_error (timeout : bool) (p : process) : option process :=
  match p_accept p with
  | AWait => Some (if n_closing (p_node p) then end_accept p else if timeout then p else end_accept p)
  | _ => None
  end.
Definition accept_track (p : process) : option process :=
  match p_accept p with
  | AGot c => let out := trackConn c (p_node p) in
              Some (if out.1 then p_set_accept (ATracked c) (p_set_node out.2 p)
                    else end_accept (p_set_live (p_live p ∖ {[c]}) p))
  | _ => None
  end.
Definition accept_spawn (p : process) : option process :=
  match p_accept p with
  | ATracked c => Some (p_set_workers (<[c := WStart]> (p_workers p)) (p_set_wg (p_wg p + 1) (p_set_accept AWait p)))
  | _ => None
  end.

(** *** The goroutine of a connection *)

Definition add_nConns (k : Z) (n : node) : node := set_conns (n_conns n) (n_nConns n + k) n.

Definition worker_begin (c : Z) (p : process) : option process :=
  match p_workers p !! c with
  | Some WStart => Some (p_set_workers (<[c := WServe]> (p_workers p)) (p_set_node (add_nConns 1 (p_node p)) p))
  | _ => None
  end.
(** A request: what it does to the node, the books on connections apart. *)
Definition same_books (f : node -> node) (n : node) : node :=
  set_conns (n_conns n) (n_nConns n) (set_closing (n_closing n) (f n)).
Definition worker_serve (c : Z) (f : node -> node) (p : process) : option process :=
  match p_workers p !! c with
  | Some WServe => Some (p_set_node (same_books f (p_node p)) p)
  | _ => None
  end.
(** [serveConn] returns: its read fails, or it sees that the node is closing. *)
Definition worker_leave (c : Z) (p : process) : option process :=
  match p_workers p !! c with
  | Some WServe =>
      if n_closing (p_node p) || negb (bool_decide (c ∈ p_live p))
      then Some (p_set_workers (<[c := WLeave]> (p_workers p))
                   (p_set_live (p_live p ∖ {[c]}) (p_set_node (add_nConns (-1) (p_node p)) p)))
      else None
  | _ => None
  end.
Definition worker_untrack (c : Z) (p : process) : option process :=
  match p_workers p !! c with
  | Some WLeave => Some (p_set_workers (<[c := WUntracked]> (p_workers p)) (p_set_node (untrackConn c (p_node p)) p))
  | _ => None
  end.
Definition worker_done (c : Z) (p : process) : option process :=
  match p_workers p !! c with
  | Some WUntracked => Some (p_set_workers (delete c (p_workers p)) (p_set_wg (p_wg p - 1) p))
  | _ => None
  end.

(** *** [followLoop] *)

Definition follower_works (f : node -> node) (p : process) : option process :=
  if p_following p then Some (p_set_node (same_books f (p_node p)) p) else None.
Definition follower_ends (p : process) : option process :=
  if p_following p && p_stopped p
  then Some (mkProcess (p_node p) (p_live p) (p_next p) (p_listening p) (p_stopped p) (p_accept p) (p_workers p)
               false (p_wg p - 1) (p_closer p))
  else None.

(** *** [Close] *)

Definition close_step (p : process) : option process :=
  match p_closer p with
  | NotClosing => Some (p_set_closer SetClosing (p_set_node (set_closing true (p_node p)) p))
  | SetClosing => Some (mkProcess (p_node p) (p_live p) (p_next p) (p_listening p) true (p_accept p) (p_workers p)
                          (p_following p) (p_wg p) ClosedStop)
  | ClosedStop => Some (mkProcess (p_node p) (p_live p) (p_next p) false (p_stopped p) (p_accept p) (p_workers p)
                          (p_following p) (p_wg p) ClosedListener)
  | ClosedListener => Some (p_set_closer ClosedStreams (p_set_node (closeAllStreams (p_node p)) p))
  | ClosedStreams => Some (p_set_closer ClosedConns
                       (p_set_live (p_live p ∖ n_conns (p_node p)) (p_set_node (closeAllConns (p_node p)) p)))
  | ClosedConns => if p_wg p =? 0 then Some (p_set_closer Waited p) else None
  | Waited => let n := p_node p in
              let out := Close (cancelObserver (n_observer n) (n_store n)) in
              Some (p_set_closer (ClosedStore out.1) (p_set_node (set_store out.2 n) p))
  | ClosedStore _ => None
  end.

(** *** Interleaving *)

Inductive event :=
| EvAccept | EvAcceptError (timeout : bool) | EvTrack | EvSpawn
| EvBegin (c : Z) | EvServe (c : Z) (f : node -> node) | EvHangup (c : Z)
| EvLeave (c : Z) | EvUntrack (c : Z) | EvWorkerDone (c : Z)
| EvFollow (f : node -> node) | EvUnfollow | EvClose.

(** What happens next; a peer may hang up at any time, or send what makes
    [serveConn] give the connection up. *)
Definition proc_step (e : event) (p : process) : option process :=
  match e with
  | EvAccept => accept_conn p
  | EvAcceptError timeout => accept_error timeout p
  | EvTrack => accept_track p
  | EvSpawn => accept_spawn p
  | EvBegin c => worker_begin c p
  | EvServe c f => worker_serve c f p
  | EvHangup c => Some (p_set_live (p_live p ∖ {[c]}) p)
  | EvLeave c => worker_leave c p
  | EvUntrack c => worker_untrack c p
  | EvWorkerDone c => worker_done c p
  | EvFollow f => follower_works f p
  | EvUnfollow => follower_ends p
  | EvClose => close_step p
  end.

Fixpoint proc_run (es : list event) (p : process) : option process :=
  match es with
  | [] => Some p
  | e :: es' => proc_step e p ≫= proc_run es'
  end.

(** ** The books *)

(** How far [Close] is. *)
Definition stage (c : closer) : Z :=
  match c with
  | NotClosing => 0 | SetClosing => 1 | ClosedStop => 2 | ClosedListener => 3 | ClosedStreams => 4
  | ClosedConns => 5 | Waited => 6 | ClosedStore _ => 7
  end.

Definition busy (a : acceptor) : Z := match a with AEnded => 0 | _ => 1 end.
Definition serving (w : phase) : Z := match w with WServe => 1 | _ => 0 end.
Definition every (w : phase) : Z := 1.

(** The acceptor has [c] in its hands. *)
Definition holds (a : acceptor) (c : Z) : Prop := a = AGot c \/ a = ATracked c.
(** [c] is registered and somebody will use it. *)
Definition in_use (p : process) (c : Z) : Prop :=
  p_accept p = ATracked c \/ p_workers p !! c = Some WStart \/ p_workers p !! c = Some WServe.

(** The wait group counts the goroutines, and a connection that is up is in the
    acceptor's hands or registered: once [closeAllConns] was there, only the
    former. *)
Record sound (p : process) : Prop := {
  so_wg : p_wg p = busy (p_accept p) + Z.b2z (p_following p) + map_sum every (p_workers p);
  so_count : n_nConns (p_node p) = map_sum serving (p_workers p);
  so_live : forall c, c ∈ p_live p -> p_accept p = AGot c \/
    in_use p c /\ c ∈ n_conns (p_node p) /\ stage (p_closer p) < 5;
  so_conns : forall c, c ∈ n_conns (p_node p) -> p_accept p = ATracked c \/
    exists w, p_workers p !! c = Some w /\ w <> WUntracked;
  so_fresh : forall c, holds (p_accept p) c \/ is_Some (p_workers p !! c) -> c < p_next p;
  so_new : forall c, holds (p_accept p) c -> p_workers p !! c = None;
  so_closing : n_closing (p_node p) = (1 <=? stage (p_closer p));
  so_stopped : p_stopped p = (2 <=? stage (p_closer p));
  so_listening : p_listening p = (stage (p_closer p) <? 3);
  so_waited : 6 <= stage (p_closer p) -> p_wg p = 0
}.

Lemma map_sum_nonneg (f : phase -> Z) (m : gmap Z phase) : (forall w, 0 <= f w) -> 0 <= map_sum f m.
Proof.
  intros Hf. induction m as [|k w m Hk IH] using map_ind; [by rewrite map_sum_empty|].
  rewrite map_sum_insert by done. specialize (Hf w). lia.
Qed.
Lemma workers_none (m : gmap Z phase) : map_sum every m <= 0 -> m = ∅.
Proof.
  intros Hm. destruct (decide (m = ∅)) as [|Hne]; [done|]. apply map_choose in Hne as (k & w & Hk).
  rewrite (map_sum_delete every m k w Hk) in Hm.
  pose proof (map_sum_nonneg every (delete k m) ltac:(by intros [])). unfold every at 1 in Hm. lia.
Qed.

(** After the wait nobody is left. *)
Lemma quiescent p : sound p -> p_wg p = 0 ->
  p_accept p = AEnded /\ p_following p = false /\ p_workers p = ∅ /\ p_live p = ∅ /\
  n_conns (p_node p) = ∅ /\ n_nConns (p_node p) = 0.
Proof.
  intros Hs H0. pose proof (so_wg _ Hs) as Hwg. rewrite H0 in Hwg.
  pose proof (map_sum_nonneg every (p_workers p) ltac:(by intros [])) as Hn.
  assert (Ha : p_accept p = AEnded) by (destruct (p_accept p), (p_following p); simpl in Hwg; first [done|lia]).
  assert (Hf : p_following p = false) by (rewrite Ha in Hwg; destruct (p_following p); simpl in Hwg; [lia|done]).
  assert (Hw : p_workers p = ∅) by (rewrite Ha, Hf in Hwg; apply workers_none; simpl in Hwg; lia).
  do 3 (split; [done|]). split; [|split].
  - apply elem_of_equiv_empty_L. intros c Hc. destruct (so_live _ Hs c Hc) as [?|[Hu _]]; [congruence|].
    unfold in_use in Hu. rewrite Ha, Hw, !lookup_empty in Hu. naive_solver.
  - apply elem_of_equiv_empty_L. intros c Hc. destruct (so_conns _ Hs c Hc) as [?|(w & Hcw & _)]; [congruence|].
    by rewrite Hw, lookup_empty in Hcw.
  - by rewrite (so_count _ Hs), Hw, map_sum_empty.
Qed.

Lemma sound_launch n : n_closing n = false -> n_conns n = ∅ -> n_nConns n = 0 -> sound (launch n).
Proof.
  intros Hc Hn Hk. split; simpl; try done.
  - intros c. rewrite Hn. by intros ?%not_elem_of_empty.
  - intros c [[?|?]|[? Hl]]; [done..|]. by rewrite lookup_empty in Hl.
Qed.

(** ** Every step keeps them *)

Ltac books := split; simpl; try done.

Lemma accept_conn_sound p p' : sound p -> accept_conn p = Some p' -> sound p'.
Proof.
  intros [Hwg Hct Hlv Hcn Hfr Hnw Hcl Hst Hli Hwt] E. unfold accept_conn in E.
  destruct (p_accept p) eqn:Ea; try done. destruct (p_listening p) eqn:El; [|done]. injection E as <-.
  assert (Hnone : p_workers p !! p_next p = None).
  { destruct (p_workers p !! p_next p) eqn:Ew; [|done]. specialize (Hfr (p_next p) ltac:(right; eauto)). lia. }
  books.
  - intros c [->%elem_of_singleton|Hc]%elem_of_union; [by left|]. right.
    destruct (Hlv c Hc) as [?|[[?|Hu] Hrest]]; [congruence..|]. split; [by right|done].
  - intros c Hc. destruct (Hcn c Hc) as [?|?]; [congruence|by right].
  - intros c [[[= <-]|?]|Hc]; [lia|done|]. specialize (Hfr c ltac:(by right)). lia.
  - intros c [[= <-]|?]; done.
Qed.

Lemma end_accept_sound p : sound p -> p_accept p <> AEnded -> (forall c, p_accept p = ATracked c -> False) ->
  (forall c, c ∈ p_live p -> p_accept p <> AGot c) -> stage (p_closer p) < 6 -> sound (end_accept p).
Proof.
  intros [Hwg Hct Hlv Hcn Hfr Hnw Hcl Hst Hli Hwt] Hne Hnt Hng Hsg. books.
  - destruct (p_accept p); simpl in *; [lia..|done].
  - intros c Hc. right. destruct (Hlv c Hc) as [?|[[?|Hu] Hrest]]; [by destruct (Hng c Hc)|by destruct (Hnt c)|].
    split; [by right|done].
  - intros c Hc. destruct (Hcn c Hc) as [?|?]; [by destruct (Hnt c)|by right].
  - intros c [[?|?]|Hc]; [done..|]. apply Hfr. by right.
  - intros c [?|?]; done.
  - lia.
Qed.

(** Nothing that is counted happens after the wait. *)
Lemma not_waited p : sound p -> p_accept p <> AEnded -> stage (p_closer p) < 6.
Proof.
  intros Hs Hb. destruct (Z.lt_ge_cases (stage (p_closer p)) 6) as [|Hge]; [done|].
  by destruct (quiescent p Hs (so_waited _ Hs ltac:(lia))) as (Ha & _).
Qed.
Lemma worker_not_waited p c w : sound p -> p_workers p !! c = Some w -> stage (p_closer p) < 6.
Proof.
  intros Hs Hw. destruct (Z.lt_ge_cases (stage (p_closer p)) 6) as [|Hge]; [done|].
  destruct (quiescent p Hs (so_waited _ Hs ltac:(lia))) as (_ & _ & E & _). by rewrite E, lookup_empty in Hw.
Qed.

Lemma accept_error_sound timeout p p' : sound p -> accept_error timeout p = Some p' -> sound p'.
Proof.
  intros Hs E. unfold accept_error in E. destruct (p_accept p) eqn:Ea; try done.
  assert (Hend : sound (end_accept p)).
  { apply end_accept_sound; [done|congruence|intros c; congruence|intros c _; congruence|].
    apply not_waited; [done|congruence]. }
  destruct (n_closing (p_node p)), timeout; injection E as <-; done.
Qed.

Lemma hangup_sound c p : sound p -> sound (p_set_live (p_live p ∖ {[c]}) p).
Proof. intros []. books. intros c' [? _]%elem_of_difference. auto. Qed.

Lemma accept_track_sound p p' : sound p -> accept_track p = Some p' -> sound p'.
Proof.
  intros Hs E. unfold accept_track in E. destruct (p_accept p) as [|c| |] eqn:Ea; try done. unfold trackConn in E.
  pose proof Hs as [Hwg Hct Hlv Hcn Hfr Hnw Hcl Hst Hli Hwt]. rewrite Ea in *.
  destruct (n_closing (p_node p)) eqn:Ec; cbn [fst snd] in E; injection E as <-.
  - apply end_accept_sound; simpl; rewrite ?Ea; try done; [by apply hangup_sound| |].
    + intros c' [_ Hne]%elem_of_difference. rewrite elem_of_singleton in Hne. congruence.
    + apply not_waited; [done|congruence].
  - assert (Hsg : stage (p_closer p) < 1) by (symmetry in Hcl; apply Z.leb_gt in Hcl; lia). books.
    + intros c' Hc'. right. destruct (Hlv c' Hc') as [[= ->]|[[?|Hu] [Hin _]]].
      * split; [by left|]. split; [set_solver|lia].
      * congruence.
      * split; [by right|]. split; [set_solver|lia].
    + intros c' [->%elem_of_singleton|Hc']%elem_of_union; [by left|]. destruct (Hcn c' Hc') as [?|?]; [congruence|by right].
    + intros c' [[?|[= <-]]|Hc']; [done|apply Hfr; left; by left|apply Hfr; by right].
    + intros c' [?|[= <-]]; [done|]. apply Hnw. by left.
    + congruence.
Qed.

Lemma accept_spawn_sound p p' : sound p -> accept_spawn p = Some p' -> sound p'.
Proof.
  intros Hs E. unfold accept_spawn in E. destruct (p_accept p) as [| |c|] eqn:Ea; try done. injection E as <-.
  pose proof (not_waited p Hs ltac:(congruence)) as Hsg. destruct Hs as [Hwg Hct Hlv Hcn Hfr Hnw Hcl Hst Hli Hwt].
  rewrite Ea in *. assert (Hnone : p_workers p !! c = None) by (apply Hnw; by right). books.
  - rewrite map_sum_insert by done. simpl in Hwg. unfold every at 1. lia.
  - by rewrite map_sum_insert.
  - intros c' Hc'. right. destruct (Hlv c' Hc') as [?|[Hu Hrest]]; [done|]. split; [|done]. right. simpl.
    unfold in_use in Hu. rewrite Ea in Hu. destruct Hu as [[= <-]|Hu]; [left; apply lookup_insert_eq|].
    rewrite lookup_insert_ne by (intros ->; rewrite Hnone in Hu; naive_solver). done.
  - intros c' Hc'. right. destruct (Hcn c' Hc') as [[= <-]|(w & Hw & Hne)]; [exists WStart; by rewrite lookup_insert_eq|].
    exists w. by rewrite lookup_insert_ne by congruence.
  - intros c' [[?|?]|[w Hw]]; [done..|]. apply lookup_insert_Some in Hw as [[<- _]|[_ Hw]]; apply Hfr; [left; by right|right; eauto].
  - intros c' [?|?]; done.
  - lia.
Qed.

(** A goroutine moves on: what has to be seen to. *)
Lemma worker_moves p n' live' c w w' : sound p -> p_workers p !! c = Some w -> w <> WUntracked ->
  (forall c', c' ∈ live' -> c' ∈ p_live p) -> (w' = WServe \/ c ∉ live') ->
  n_nConns n' = n_nConns (p_node p) - serving w + serving w' -> n_closing n' = n_closing (p_node p) ->
  (forall c', c' ∈ n_conns n' <-> c' ∈ n_conns (p_node p) /\ (w' = WUntracked -> c' <> c)) ->
  sound (p_set_workers (<[c := w']> (p_workers p)) (p_set_live live' (p_set_node n' p))).
Proof.
  intros Hs Hw Hne Hlive Hgone Hcnt Hclo Hconns. pose proof (worker_not_waited p c w Hs Hw) as Hsg.
  destruct Hs as [Hwg Hct Hlv Hcn Hfr Hnw Hcl Hst Hli Hwt]. books.
  - rewrite (map_sum_update every (p_workers p) c w w' Hw). unfold every at 2 3. lia.
  - rewrite (map_sum_update serving (p_workers p) c w w' Hw). lia.
  - intros c' Hc'. destruct (Hlv c' (Hlive c' Hc')) as [?|(Hu & Hin & Hlt)]; [by left|]. right.
    destruct (decide (c' = c)) as [->|Hnc].
    + destruct Hgone as [->|Hgone]; [|done]. split; [|split; [by apply Hconns|done]]. right. right. simpl. apply lookup_insert_eq.
    + split; [|split; [apply Hconns; split; [done|by intros _]|done]]. unfold in_use in *. simpl.
      by rewrite lookup_insert_ne by done.
  - intros c' [Hc' Huc]%Hconns. destruct (Hcn c' Hc') as [?|(w0 & Hw0 & Hn0)]; [by left|]. right.
    destruct (decide (c' = c)) as [->|Hnc]; [|exists w0; by rewrite lookup_insert_ne by done].
    exists w'. rewrite lookup_insert_eq. split; [done|]. intros ->. by apply Huc.
  - intros c' Hc'. apply Hfr. destruct Hc' as [?|[w0 Hw0]]; [by left|]. right.
    apply lookup_insert_Some in Hw0 as [[<- _]|[_ ?]]; eauto.
  - intros c' Hc'. rewrite lookup_insert_ne; [by apply Hnw|]. intros ->. apply Hnw in Hc'. congruence.
  - congruence.
Qed.

Lemma p_set_live_self p : p_set_live (p_live p) p = p.
Proof. by destruct p. Qed.

Lemma worker_begin_sound c p p' : sound p -> worker_begin c p = Some p' -> sound p'.
Proof.
  intros Hs E. unfold worker_begin in E. destruct (p_workers p !! c) as [[| | |]|] eqn:Ew; try done. injection E as <-.
  rewrite <- (p_set_live_self (p_set_node (add_nConns 1 (p_node p)) p)).
  apply (worker_moves p _ (p_live p) c WStart WServe); try done; [by left|simpl; lia|]. intros c'. simpl. naive_solver.
Qed.

Lemma worker_leave_sound c p p' : sound p -> worker_leave c p = Some p' -> sound p'.
Proof.
  intros Hs E. unfold worker_leave in E. destruct (p_workers p !! c) as [[| | |]|] eqn:Ew; try done.
  destruct (_ || _); [|done]. injection E as <-.
  apply (worker_moves p _ (p_live p ∖ {[c]}) c WServe WLeave); try done; [set_solver|set_solver|simpl; lia|].
  intros c'. simpl. naive_solver.
Qed.

Lemma worker_untrack_sound c p p' : sound p -> worker_untrack c p = Some p' -> sound p'.
Proof.
  intros Hs E. unfold worker_untrack in E. destruct (p_workers p !! c) as [[| | |]|] eqn:Ew; try done. injection E as <-.
  rewrite <- (p_set_live_self (p_set_node (untrackConn c (p_node p)) p)).
  apply (worker_moves p _ (p_live p) c WLeave WUntracked); try done; [|simpl; lia|simpl; set_solver].
  right. intros Hc. destruct (so_live _ Hs c Hc) as [Hg|(Hu & _)].
  - pose proof (so_new _ Hs c ltac:(by left)). congruence.
  - destruct Hu as [Ht|[?|?]]; [|congruence..]. pose proof (so_new _ Hs c ltac:(by right)). congruence.
Qed.

Lemma worker_done_sound c p p' : sound p -> worker_done c p = Some p' -> sound p'.
Proof.
  intros Hs E. unfold worker_done in E. destruct (p_workers p !! c) as [[| | |]|] eqn:Ew; try done. injection E as <-.
  pose proof (worker_not_waited p c _ Hs Ew) as Hsg. destruct Hs as [Hwg Hct Hlv Hcn Hfr Hnw Hcl Hst Hli Hwt]. books.
  - rewrite (map_sum_delete every (p_workers p) c _ Ew) in Hwg. unfold every at 1 in Hwg. lia.
  - rewrite (map_sum_delete serving (p_workers p) c _ Ew) in Hct. simpl in Hct. lia.
  - intros c' Hc'. destruct (Hlv c' Hc') as [?|(Hu & Hrest)]; [by left|]. right. split; [|done]. unfold in_use in *. simpl.
    destruct (decide (c' = c)) as [->|]; [|by rewrite lookup_delete_ne by done]. destruct Hu as [?|[?|?]]; [by left|congruence..].
  - intros c' Hc'. destruct (Hcn c' Hc') as [?|(w0 & Hw0 & Hn0)]; [by left|]. right. exists w0.
    rewrite lookup_delete_ne by congruence. done.
  - intros c' Hc'. apply Hfr. destruct Hc' as [?|[w0 Hw0]]; [by left|]. right. apply lookup_delete_Some in Hw0 as [_ ?]. eauto.
  - intros c' Hc'. apply lookup_delete_None. right. by apply Hnw.
  - lia.
Qed.

Lemma same_books_sound f p : sound p -> sound (p_set_node (same_books f (p_node p)) p).
Proof. intros []. by books. Qed.

Lemma follower_ends_sound p p' : sound p -> follower_ends p = Some p' -> sound p'.
Proof.
  intros Hs E. unfold follower_ends in E. destruct (p_following p) eqn:Ef; [|done].
  destruct (p_stopped p) eqn:Est; [|done]. injection E as <-.
  assert (Hsg : stage (p_closer p) < 6).
  { destruct (Z.lt_ge_cases (stage (p_closer p)) 6) as [|Hge]; [done|].
    destruct (quiescent p Hs (so_waited _ Hs ltac:(lia))) as (_ & ? & _). congruence. }
  destruct Hs as [Hwg Hct Hlv Hcn Hfr Hnw Hcl Hst Hli Hwt]. books; [rewrite Ef in Hwg; simpl in Hwg; lia|congruence|lia].
Qed.

Lemma close_step_sound p p' : sound p -> close_step p = Some p' -> sound p'.
Proof.
  intros [Hwg Hct Hlv Hcn Hfr Hnw Hcl Hst Hli Hwt] E. unfold close_step in E.
  destruct (p_closer p) eqn:Ec; simpl in *; try done.
  6: destruct (Z.eqb_spec (p_wg p) 0) as [H0|]; [|done].
  all: injection E as <-; books.
  all: try (intros c Hc; destruct (Hlv c Hc) as [?|(Hu & Hin & Hlt)]; [by left|right; split; [exact Hu|split; [exact Hin|lia]]]).
  - intros c [Hc Hn]%elem_of_difference. left. destruct (Hlv c Hc) as [?|(_ & Hin & _)]; [done|by destruct (Hn Hin)].
  - intros _. by apply Hwt.
Qed.

Lemma proc_step_sound e p p' : sound p -> proc_step e p = Some p' -> sound p'.
Proof.
  intros Hs. destruct e; cbn [proc_step].
  - by apply accept_conn_sound.
  - by apply accept_error_sound.
  - by apply accept_track_sound.
  - by apply accept_spawn_sound.
  - by apply worker_begin_sound.
  - unfold worker_serve. destruct (p_workers p !! c) as [[| | |]|]; try done. intros [= <-]. by apply same_books_sound.
  - intros [= <-]. by apply hangup_sound.
  - by apply worker_leave_sound.
  - by apply worker_untrack_sound.
  - by apply worker_done_sound.
  - unfold follower_works. destruct (p_following p); [|done]. intros [= <-]. by apply same_books_sound.
  - by apply follower_ends_sound.
  - by apply close_step_sound.
Qed.

Lemma proc_run_sound es : forall p p', sound p -> proc_run es p = Some p' -> sound p'.
Proof.
  induction es as [|e es IH]; intros p p' Hs E; cbn [proc_run] in E; [by injection E as <-|].
  destruct (proc_step e p) as [p1|] eqn:E1; [|done]. by eapply IH, E; eapply proc_step_sound.
Qed.

(** ** Close misses nothing *)

(** A node that has just been started. *)
Definition started (n : node) : Prop := n_closing n = false /\ n_conns n = ∅ /\ n_nConns n = 0.

(** C12: [Close] misses no connection.  However the acceptor, the goroutines of
    the connections, [followLoop] and [Close] are interleaved: once [Close] has
    dropped the registered connections, the only one that can still be up is one
    the acceptor has not registered yet, and it will be refused; and when the
    wait is over, before the store is closed, no goroutine is left, every
    connection is down and the books are empty. *)
Theorem close_misses_nothing n es p : started n -> proc_run es (launch n) = Some p ->
  (5 <= stage (p_closer p) ->
   (forall c, c ∈ p_live p -> p_accept p = AGot c) /\
   (forall c p', accept_track p = Some p' -> p_accept p = AGot c -> c ∉ p_live p' /\ p_accept p' = AEnded)) /\
  (6 <= stage (p_closer p) ->
   p_accept p = AEnded /\ p_following p = false /\ p_workers p = ∅ /\ p_live p = ∅ /\
   n_conns (p_node p) = ∅ /\ n_nConns (p_node p) = 0).
Proof.
  intros (Hc & Hn & Hk) Hrun. assert (Hs : sound p) by (eapply proc_run_sound, Hrun; by apply sound_launch). split.
  - intros H5. split; [intros c Hlive; destruct (so_live _ Hs c Hlive) as [?|(_ & _ & ?)]; [done|lia]|].
    intros c p' E Ea. unfold accept_track, trackConn in E. rewrite Ea, (so_closing _ Hs) in E.
    destruct (Z.leb_spec 1 (stage (p_closer p))); [|lia]. injection E as <-. simpl. split; [set_solver|done].
  - intros H6. apply quiescent; [done|]. by apply (so_waited _ Hs).
Qed.

(** ** Close returns *)

(** What is left to do once the connections are dropped. *)
Definition accept_work (a : acceptor) : Z :=
  match a with AWait => 1 | AGot _ => 2 | ATracked _ => 7 | AEnded => 0 end.
Definition worker_work (w : phase) : Z :=
  match w with WStart => 4 | WServe => 3 | WLeave => 2 | WUntracked => 1 end.
Definition work (p : process) : Z :=
  accept_work (p_accept p) + Z.b2z (p_following p) + map_sum worker_work (p_workers p) + (7 - stage (p_closer p)).

(** The program's own steps; requests and hang-ups are its environment's. *)
Definition own (e : event) : bool :=
  match e with EvServe _ _ | EvFollow _ | EvHangup _ => false | _ => true end.

Lemma work_nonneg p : 0 <= work p.
Proof.
  unfold work. pose proof (map_sum_nonneg worker_work (p_workers p) ltac:(by intros [])).
  assert (0 <= accept_work (p_accept p)) by (by destruct (p_accept p)).
  assert (stage (p_closer p) <= 7) by (by destruct (p_closer p)). destruct (p_following p); simpl; lia.
Qed.

Lemma step_works e p p' : sound p -> 5 <= stage (p_closer p) -> proc_step e p = Some p' ->
  5 <= stage (p_closer p') /\ work p' <= work p - (if own e then 1 else 0).
Proof.
  intros Hs H5 E. pose proof (so_closing _ Hs) as Hcl. pose proof (so_listening _ Hs) as Hli.
  rewrite (proj2 (Z.leb_le 1 _)) in Hcl by lia. rewrite (proj2 (Z.ltb_ge _ 3)) in Hli by lia. unfold work.
  destruct e; cbn [proc_step own] in *;
    [unfold accept_conn in E|unfold accept_error in E|unfold accept_track, trackConn in E|unfold accept_spawn in E
    |unfold worker_begin in E|unfold worker_serve in E| |unfold worker_leave in E|unfold worker_untrack in E|unfold worker_done in E
    |unfold follower_works in E|unfold follower_ends in E|unfold close_step in E].
  - destruct (p_accept p); try done. by rewrite Hli in E.
  - destruct (p_accept p); try done. rewrite Hcl in E. injection E as <-. simpl. lia.
  - destruct (p_accept p); try done. rewrite Hcl in E. injection E as <-. simpl. lia.
  - destruct (p_accept p) as [| |c|] eqn:Ea; try done. injection E as <-. simpl.
    rewrite map_sum_insert by (apply (so_new _ Hs); by right). simpl. lia.
  - destruct (p_workers p !! c) as [[| | |]|] eqn:Ew; try done. injection E as <-. simpl.
    rewrite (map_sum_update worker_work _ c _ WServe Ew). simpl. lia.
  - destruct (p_workers p !! c) as [[| | |]|] eqn:Ew; try done. injection E as <-. simpl. lia.
  - injection E as <-. simpl. lia.
  - destruct (p_workers p !! c) as [[| | |]|] eqn:Ew; try done. destruct (_ || _); [|done]. injection E as <-. simpl.
    rewrite (map_sum_update worker_work _ c _ WLeave Ew). simpl. lia.
  - destruct (p_workers p !! c) as [[| | |]|] eqn:Ew; try done. injection E as <-. simpl.
    rewrite (map_sum_update worker_work _ c _ WUntracked Ew). simpl. lia.
  - destruct (p_workers p !! c) as [[| | |]|] eqn:Ew; try done. injection E as <-. simpl.
    rewrite (map_sum_delete worker_work (p_workers p) c _ Ew). simpl. lia.
  - destruct (p_following p) eqn:Ef; [|done]. injection E as <-. simpl. rewrite Ef. simpl. lia.
  - destruct (p_following p) eqn:Ef; [|done]. destruct (p_stopped p); [|done]. injection E as <-. simpl. lia.
  - destruct (p_closer p) eqn:Ec; simpl in H5; try lia; try done.
    + destruct (p_wg p =? 0); [|done]. injection E as <-. simpl. lia.
    + injection E as <-. simpl. lia.
Qed.

(** Whatever [Close] waits for can go on, on its own. *)
Lemma close_progress p : sound p -> 5 <= stage (p_closer p) ->
  (forall e p', own e = true -> proc_step e p <> Some p') -> stage (p_closer p) = 7.
Proof.
  intros Hs H5 Hstuck.
  assert (Hno : forall e, own e = true -> proc_step e p = None).
  { intros e He. destruct (proc_step e p) as [p'|] eqn:E; [|done]. by destruct (Hstuck e p' He). }
  pose proof (so_stopped _ Hs) as Hst. rewrite (proj2 (Z.leb_le 2 _)) in Hst by lia.
  assert (Ha : p_accept p = AEnded).
  { destruct (p_accept p) as [|c|c|] eqn:Ea; [|..|done].
    - specialize (Hno (EvAcceptError false) eq_refl). cbn in Hno. unfold accept_error in Hno. by rewrite Ea in Hno.
    - specialize (Hno EvTrack eq_refl). cbn in Hno. unfold accept_track in Hno. by rewrite Ea in Hno.
    - specialize (Hno EvSpawn eq_refl). cbn in Hno. unfold accept_spawn in Hno. by rewrite Ea in Hno. }
  assert (Hf : p_following p = false).
  { specialize (Hno EvUnfollow eq_refl). cbn in Hno. unfold follower_ends in Hno. rewrite Hst in Hno. by destruct (p_following p). }
  assert (Hw : p_workers p = ∅).
  { apply map_empty. intros c. destruct (p_workers p !! c) as [[| | |]|] eqn:Ew; [..|done].
    - specialize (Hno (EvBegin c) eq_refl). cbn in Hno. unfold worker_begin in Hno. by rewrite Ew in Hno.
    - specialize (Hno (EvLeave c) eq_refl). cbn in Hno. unfold worker_leave in Hno. rewrite Ew in Hno.
      rewrite bool_decide_false in Hno; [by rewrite orb_true_r in Hno|]. intros Hlive.
      destruct (so_live _ Hs c Hlive) as [?|(_ & _ & ?)]; [congruence|lia].
    - specialize (Hno (EvUntrack c) eq_refl). cbn in Hno. unfold worker_untrack in Hno. by rewrite Ew in Hno.
    - specialize (Hno (EvWorkerDone c) eq_refl). cbn in Hno. unfold worker_done in Hno. by rewrite Ew in Hno. }
  assert (Hwg : p_wg p = 0) by (rewrite (so_wg _ Hs), Ha, Hf, Hw; done).
  specialize (Hno EvClose eq_refl). cbn in Hno. unfold close_step in Hno. rewrite Hwg in Hno.
  by destruct (p_closer p).
Qed.

End lifecycle.
