(* ===== verification/Handover.v ===== *)
(** * What a leader sends to a follower that attaches

    The stream is attached before the log is read, so that what is written from
    then on is queued for the follower.  The store's clients write before,
    during and after the catch-up: what is sent and what is queued together
    lack nothing. *)

From S2P Require Import Prelude Bytes Decimal Record Datafile Hint Listing Manifest Index Store StoreInv.
From S2P Require Import WritePath Ops Reads Scans Recovery Engine Compact Settled Crash Disk Durability Writers.
From S2P Require Import Merging Snapshots Streams Proto Text Node Election Replication Server Wire Service Voting.

Local Open Scope Z_scope.
Local Open Scope gokv_scope.

(** ** Frames *)

Lemma repl_data_small r : valid_record r -> small (repl_data (encode r)).
Proof.
  intros (_ & _ & Hk & Hv). unfold small, repl_data, Enc.Raw, Enc.NewEnc. rewrite zlen_app, zlen_encode, max_frame.
  unfold zlen at 1. simpl. change MaxKeySize with 65536 in Hk. change MaxValueSize with 268435456 in Hv. lia.
Qed.

Lemma push_ship rs : forall w, Forall valid_record rs -> wr_fails w = [] ->
  push ship (encode <$> rs) (w, None) = (Ok tt, (sends w ((repl_data ∘ encode) <$> rs), None)).
Proof.
  induction rs as [|r rs IH]; intros w Hl Hw.
  - cbn [push fmap list_fmap]. unfold sends. rewrite app_nil_r. destruct w; simpl in Hw. by subst.
  - apply Forall_cons in Hl as [Hr Hl]. apply repl_data_small in Hr. cbn [push fmap list_fmap].
    unfold ship at 1, wr_repl_data. cbn [fst]. rewrite wr_write_ok by done. rewrite IH by done. by rewrite sends_app.
Qed.

Lemma ship_not_exist x t e t' : ship x t = (Err e, t') -> e <> ErrNotExist.
Proof. unfold ship. destruct (wr_repl_data x t.1) as [[[]|?] w]; [done|]. by intros [= <- <-]. Qed.

Section handover.
Context {I : Type} `{KeyIndexSpec I}.
Implicit Types (n : node I) (w : writer) (s : store I) (L : logs) (M : newest).

(** Clients use the store, and the node's observer hears of it. *)
Definition served (act : store I -> store I) n : node I := dispatch (set_store (act (n_store n)) n).

(** ** The queue *)

Lemma dispatch_stream n id q peer : n_streams n !! id = Some (mkStream q false peer) ->
  zlen q + zlen (told (n_observer n) (n_store n)) <= streamBuffer ->
  n_streams (dispatch n) !! id = Some (mkStream (q ++ told (n_observer n) (n_store n)) false peer).
Proof.
  unfold dispatch, told. set (o := n_observer n). intros Hs Hlen.
  assert (Hgen : forall notes n q, n_observer n = o -> n_streams n !! id = Some (mkStream q false peer) ->
    let new := omap (fun note : Z * Z * bytes => if note.1.1 =? o then Some note.2 else None) notes in
    zlen q + zlen new <= streamBuffer ->
    n_streams (foldl (fun n note => if note.1.1 =? n_observer n then fanout note.1.2 note.2 n else n) n notes) !! id =
      Some (mkStream (q ++ new) false peer)).
  { clear. induction notes as [|note notes IH]; intros n1 q1 Ho Hs new Hlen; subst new; [by rewrite app_nil_r|].
    cbn [foldl omap list_omap] in *. rewrite Ho. destruct (note.1.1 =? o); [|by apply IH].
    rewrite zlen_cons in Hlen. rewrite (IH _ (q1 ++ [note.2])); [by rewrite <- app_assoc|done| |].
    - cbn [fanout set_streams n_streams]. rewrite lookup_fmap, Hs. cbn [fmap option_fmap option_map]. unfold offer.
      cbn [rs_ch rs_done rs_peer]. pose proof (zlen_nonneg (omap (fun note : Z * Z * bytes => if note.1.1 =? o then Some note.2 else None) notes)).
      by destruct (Z.ltb_spec (zlen q1) streamBuffer); [|lia].
    - rewrite zlen_app. unfold zlen at 2. simpl. lia. }
  by apply Hgen.
Qed.

Lemma durable_notes s L M a l : durable s L M a -> durable (set_notes l s) L M a.
Proof.
  intros [[[] ? ? ?] [] ? ?]. split; [|by split|done|done]. split; [by split|done..].
Qed.

Lemma durable_observed s L M a : durable s L M a -> durable (AddObserver s).2 L M a.
Proof.
  intros [[[] ? ? ?] [] ? ?]. split; [|by split|done|done]. split; [by split|done..].
Qed.

Lemma fits_notes limit s l : fits limit s -> fits limit (set_notes l s).
Proof. intros []. by split. Qed.

Lemma zlen_join_ge (rss : list (list record)) : Forall appendable rss -> zlen rss <= zlen (mjoin rss).
Proof.
  induction 1 as [|rs rss (Hne & _) _ IH]; [done|]. change (mjoin (rs :: rss)) with (rs ++ mjoin rss). rewrite zlen_cons, zlen_app.
  destruct rs; [done|]. rewrite zlen_cons. pose proof (zlen_nonneg rs). lia.
Qed.

Context (limit : Z).

(** ** A stream that is attached

    Since the node was [n0], with the store's logs [L0] and newest records
    [M0], clients made the calls [rss], and the stream has them all queued. *)
Record attached (id : Z) (peer : bytes) n0 L0 M0 (rss : list (list record)) n L M (a : Z) : Prop := {
  at_stream : n_streams n !! id = Some (mkStream (encode_all <$> rss) false peer);
  at_mem : n_mem n = n_mem n0;
  at_heard : n_observer n ∈ st_obs (n_store n);
  at_notes : st_notes (n_store n) = [];
  at_durable : durable (n_store n) L M a;
  at_fits : fits limit (n_store n);
  at_wrote : wrote (n_store n0) L0 M0 (mjoin rss) (n_store n) L M;
  at_valid : Forall appendable rss;
  at_bound : limit - st_seq (n_store n0) <= streamBuffer
}.

(** Nothing that is written escapes the stream. *)
Lemma attached_hears id peer n0 L0 M0 rss n L M a rss' s' L' M' a' : attached id peer n0 L0 M0 rss n L M a ->
  ran (n_store n) L M rss' s' L' M' -> durable s' L' M' a' -> fits limit s' ->
  attached id peer n0 L0 M0 (rss ++ rss') (dispatch (set_store s' n)) L' M' a'.
Proof.
  intros [Hs Hm Ho Hnt Hd Hf Hw Hv Hb] Hr Hd' Hf'.
  pose proof (ra_told _ _ _ _ _ _ _ Hr _ Ho) as Ht. unfold told at 2 in Ht. rewrite Hnt in Ht. cbn [omap list_omap app] in Ht.
  assert (Hv' : Forall appendable (rss ++ rss')) by (apply Forall_app; split; [done|apply Hr]).
  pose proof (wrote_trans _ _ _ _ _ _ _ _ _ _ _ Hw Hr) as Hw'. rewrite <- join_app in Hw'.
  assert (Hst : n_streams (dispatch (set_store s' n)) !! id = Some (mkStream (encode_all <$> (rss ++ rss')) false peer)).
  { rewrite (dispatch_stream (set_store s' n) id (encode_all <$> rss) peer); [by cbn; rewrite Ht, fmap_app|done|].
    cbn [set_store n_observer n_store]. rewrite Ht, <- zlen_app, <- fmap_app. unfold zlen at 1. rewrite length_fmap.
    fold (zlen (rss ++ rss')). pose proof (zlen_join_ge _ Hv'). pose proof (wo_seq _ _ _ _ _ _ _ Hw'). pose proof (fi_seq _ _ Hf'). lia. }
  destruct (dispatch_state (set_store s' n)) as [ss E]. rewrite E in Hst |- *. split; try done.
  - cbn. by rewrite (wo_obs _ _ _ _ _ _ _ Hr).
  - by apply durable_notes.
  - by apply fits_notes.
  - apply (wrote_notes _ _ _ _ _ _ _ (st_notes (n_store n0)) []) in Hw'. by destruct (n_store n0).
Qed.

(** ** The catch-up *)

(** A catch-up from [from] starts over, or sends what the log has since. *)
Definition starts_over s (from : Z) : bool := (from =? 0) || (from <? st_mergeSeq s).

(** What is sent by a catch-up that begins after the writes [R0] to the store
    [s], beside the writes [R1]. *)
Definition carries s L M (R0 R1 : list record) (from : Z) (sent : list record) : Prop :=
  if starts_over s from then
    (forall r, r ∈ sent -> seen (absorb_all M R0) R1 r) /\
    (forall k r, absorb_all M R0 !! k = Some r -> tombstone r = false -> k ∉ (r_key <$> R1) -> strip_batch r ∈ sent)
  else
    (forall r, r ∈ sent -> r ∈ all_logs (w_fs (st_w s)) L ++ R0 ++ R1) /\
    (forall r, r ∈ all_logs (w_fs (st_w s)) L ++ R0 -> from < r_seq r -> r ∈ sent).

Definition catch_up_frames s (from : Z) (sent : list record) : list bytes :=
  (if starts_over s from then [[StatusFullSync]] else []) ++ ((repl_data ∘ encode) <$> sent).

Lemma all_logs_valid s L M a : durable s L M a -> Forall valid_record (all_logs (w_fs (st_w s)) L).
Proof.
  intros Hd. pose proof (rn_ok _ _ _ (dk_run _ _ _ (du_disk _ _ _ _ Hd))) as Hdir.
  unfold all_logs. apply Forall_forall. intros r (l & Hr & (id & -> & Hid)%list_elem_of_fmap)%list_elem_of_join.
  apply (dir_ids_ok _ L) in Hid as [_ (_ & _ & _ & f & _ & tl & _ & _ & Hv)]; [|done].
  rewrite Forall_forall in Hv. by apply Hv.
Qed.

Lemma join_valid rss : Forall appendable rss -> Forall valid_record (mjoin rss).
Proof. intros Hv. apply Forall_join. eapply Forall_impl; [exact Hv|]. by intros rs (_ & ? & _). Qed.

Section catch_up.
Context (others : stream_point -> store I -> store I) `{!Writers limit others} (fuel : nat).
Context (id : Z) (peer : bytes) (n0 : node I) (L0 : logs) (M0 : newest) (a0 : Z).
Context (Hd0 : durable (n_store n0) L0 M0 a0).
Context (Hfuel : zlen (idx_from [] (st_idx (n_store n0))) + (limit - st_seq (n_store n0)) < Z.of_nat fuel).

Lemma send_snapshot_ran rss n L M a w : attached id peer n0 L0 M0 rss n L M a -> wr_fails w = [] ->
  exists sent rss1 n' L' M' a',
    send_snapshot others fuel (n, w) = (Ok tt, (n', sends w ((repl_data ∘ encode) <$> sent))) /\
    attached id peer n0 L0 M0 (rss ++ rss1) n' L' M' a' /\ Forall valid_record sent /\
    (forall r, r ∈ sent -> seen M (mjoin rss1) r) /\
    (forall k r, M !! k = Some r -> tombstone r = false -> k ∉ (r_key <$> mjoin rss1) -> strip_batch r ∈ sent).
Proof using All.
  intros Hat Hw. pose proof Hat as [_ _ _ _ Hd Hf Hwr _ _].
  pose proof (keys_wrote [] _ _ _ _ _ _ _ (du_ok _ _ _ _ Hd0) (du_ok _ _ _ _ Hd) Hwr) as Hkeys.
  pose proof (wo_seq _ _ _ _ _ _ _ Hwr) as Hseq.
  destruct (SnapshotRecords_ran ship limit others fuel (w, None) (n_store n) L M a Hd Hf)
    as (sent & s' & rss1 & E & (L' & M' & a' & Hr & Hd' & Hf') & Hseen & Hall); [lia|].
  assert (Hv : Forall valid_record sent).
  { apply Forall_forall. intros r (r0 & -> & _ & Hr0)%Hseen. apply strip_batch_valid. destruct Hr0 as [Hr0|Hr0].
    - eapply store_ok_valid, Hr0. apply Hd.
    - pose proof (join_valid _ (ra_valid _ _ _ _ _ _ _ Hr)) as Hj. rewrite Forall_forall in Hj. by apply Hj. }
  rewrite push_ship in E, Hall by done.
  exists sent, rss1, (dispatch (set_store s' n)), L', M', a'. split; [|split; [|split; [done|split; [done|by apply Hall]]]].
  - unfold send_snapshot. cbn [fst snd]. by rewrite E.
  - by eapply attached_hears.
Qed.

Lemma catchUp_ran from rss n L M a w : attached id peer n0 L0 M0 rss n L M a -> wr_fails w = [] ->
  exists sent rss1 n' L' M' a',
    catchUp others fuel from (n, w) = (Ok tt, (n', sends w (catch_up_frames (n_store n0) from sent))) /\
    attached id peer n0 L0 M0 (rss ++ rss1) n' L' M' a' /\ Forall valid_record sent /\
    carries (n_store n0) L0 M0 (mjoin rss) (mjoin rss1) from sent.
Proof using All.
  intros Hat Hw. pose proof Hat as [_ _ _ Hnt Hd Hf Hwr _ _].
  pose proof (wo_merge _ _ _ _ _ _ _ Hwr) as Hmg. pose proof (wo_map _ _ _ _ _ _ _ Hwr) as HM.
  unfold catch_up_frames, carries. rewrite <- HM.
  assert (Hfull : exists sent rss1 n' L' M' a',
    (writeStatus StatusFullSync;;; send_snapshot others fuel;;; flush) (n, w) =
      (Ok tt, (n', sends w ([[StatusFullSync]] ++ ((repl_data ∘ encode) <$> sent)))) /\
    attached id peer n0 L0 M0 (rss ++ rss1) n' L' M' a' /\ Forall valid_record sent /\
    (forall r, r ∈ sent -> seen M (mjoin rss1) r) /\
    (forall k r, M !! k = Some r -> tombstone r = false -> k ∉ (r_key <$> mjoin rss1) -> strip_batch r ∈ sent)).
  { destruct (send_snapshot_ran rss n L M a (sends w [[StatusFullSync]]) Hat eq_refl)
      as (sent & rss1 & n' & L' & M' & a' & E & Hrest).
    exists sent, rss1, n', L', M', a'. split; [|done]. unfold sm_bind, writeStatus.
    rewrite write_frame_ok by (apply small_status || done). match goal with |- context [send_snapshot others fuel ?x] => change x with (n, sends w [[StatusFullSync]]) end.
    rewrite E, flush_ok by done. by rewrite sends_app. }
  unfold starts_over, catchUp. destruct (Z.eqb_spec from 0) as [->|_]; [exact Hfull|]. cbn [orb].
  rewrite <- Hmg. destruct (from <? st_mergeSeq (n_store n)) eqn:Em.
  - assert (Hs : RecordsSince ship others from (w, None) (n_store n) = ((Err ErrNeedFullSync, (w, None)), n_store n))
      by (unfold RecordsSince; by rewrite Em).
    cbn [fst snd]. rewrite Hs, dispatch_none by done. replace (set_store (n_store n) n) with n by (by destruct n).
    rewrite bool_decide_true by done. exact Hfull.
  - destruct (RecordsSince_ran ship ship_not_exist limit others from (w, None) (n_store n) L M a Hd Hf Em)
      as (sent & s' & rss1 & E & (L' & M' & a' & Hr & Hd' & Hf') & Hsub & Hall).
    pose proof (wo_logs _ _ _ _ _ _ _ Hwr) as Hlogs. rewrite Hlogs in Hsub, Hall.
    assert (Hv : Forall valid_record sent).
    { apply Forall_forall. intros r Hr0%Hsub. pose proof (all_logs_valid _ _ _ _ Hd') as Hj.
      rewrite (wo_logs _ _ _ _ _ _ _ Hr), Hlogs in Hj. rewrite Forall_forall in Hj. by apply Hj. }
    rewrite push_ship in E, Hall by done. cbn [fst snd] in *.
    exists sent, rss1, (dispatch (set_store s' n)), L', M', a'.
    split; [|split; [by eapply attached_hears|split; [done|split; [|by apply Hall]]]].
    + rewrite E. cbn [app]. by rewrite flush_ok.
    + intros r Hr0%Hsub. by rewrite app_assoc.
Qed.
End catch_up.

(** ** Attaching *)

(** All that a follower gets until it is told that it is live. *)
Definition greeting n (from : Z) (sent : list record) : list bytes :=
  [heartbeat (Epoch n) (LeaderAddr n)] ++ catch_up_frames (n_store n) from sent ++ [[StatusLive]].

Lemma writeHeartbeat_ok n w : zlen (LeaderAddr n) <= 2 ^ 20 -> wr_fails w = [] ->
  writeHeartbeat (n, w) = (Ok tt, (n, sends w [heartbeat (Epoch n) (LeaderAddr n)])).
Proof.
  intros Hl Hw. unfold writeHeartbeat, sm_bind, get_node. cbn [fst].
  rewrite write_frame_ok; [by rewrite flush_ok| |done].
  unfold small, heartbeat, Enc.U64, Enc.NewEnc.
  rewrite Str_app, !zlen_app, zlen_Str, max_frame. unfold zlen at 1 2. rewrite length_be_put. simpl. lia.
Qed.

Context (around : nat -> store I -> store I) `{!Writers limit around}.
Context (others : stream_point -> store I -> store I) `{!Writers limit others} (fuel : nat).

Lemma attached_served i id peer n0 L0 M0 rss n L M a : attached id peer n0 L0 M0 rss n L M a ->
  exists rss' L' M' a', attached id peer n0 L0 M0 (rss ++ rss') (served (around i) n) L' M' a'.
Proof using All.
  intros Hat. destruct (writers_run i (n_store n) L M a) as (rss' & L' & M' & a' & Hr & Hd' & Hf'); [apply Hat..|].
  exists rss', L', M', a'. by eapply attached_hears.
Qed.

Lemma attach_ran peer from n w L M a : node_Role n = Leader -> speaks n -> wr_fails w = [] ->
  durable (n_store n) L M a -> fits limit (n_store n) -> st_notes (n_store n) = [] ->
  n_observer n ∈ st_obs (n_store n) -> limit - st_seq (n_store n) <= streamBuffer ->
  zlen (idx_from [] (st_idx (n_store n))) + (limit - st_seq (n_store n)) < Z.of_nat fuel ->
  exists id sent rss0 rss1 rss2 n' L' M' a',
    attach (fun i => served (around i)) others fuel peer from (n, w) =
      (Ok (Some id), (n', sends w (greeting n from sent))) /\
    attached id peer n L M (rss0 ++ rss1 ++ rss2) n' L' M' a' /\ Forall valid_record sent /\
    carries (n_store n) L M (mjoin rss0) (mjoin rss1) from sent.
Proof using All.
  intros Hr Hsp Hw Hd Hf Hnt Hobs Hb Hfuel. set (id := n_nextStream n). set (n1 := (addStream (newReplStream peer) n).2).
  assert (Hat1 : attached id peer n L M [] n1 L M a).
  { split; try done; [apply lookup_insert_eq|apply wrote_refl]. }
  destruct (attached_served 0%nat _ _ _ _ _ _ _ _ _ _ Hat1) as (rss0 & L2 & M2 & a2 & Hat2). cbn [app] in Hat2.
  set (n2 := served (around 0%nat) n1) in *. pose proof (at_mem _ _ _ _ _ _ _ _ _ _ Hat2) as Hm2.
  assert (Hsp2 : zlen (LeaderAddr n2) <= 2 ^ 20) by (unfold LeaderAddr; rewrite Hm2; apply Hsp).
  pose proof (writeHeartbeat_ok n2 w Hsp2 Hw) as Hhb.
  destruct (catchUp_ran others fuel id peer n L M a Hd Hfuel from rss0 n2 L2 M2 a2 (sends w [heartbeat (Epoch n2) (LeaderAddr n2)]) Hat2 eq_refl)
    as (sent & rss1 & n3 & L3 & M3 & a3 & Ecu & Hat3 & Hv & Hc).
  destruct (attached_served 1%nat _ _ _ _ _ _ _ _ _ _ Hat3) as (rss2 & L4 & M4 & a4 & Hat4).
  exists id, sent, rss0, rss1, rss2, (served (around 1%nat) n3), L4, M4, a4. rewrite <- app_assoc in Hat4.
  split; [|done]. unfold attach, sm_bind at 1, get_node. cbn [fst]. rewrite Hr. change (negb (Leader =? Leader)) with false. cbv iota.
  unfold sm_bind at 1. cbn [fst snd]. unfold sm_catch, sm_bind, modify_node, sm_modify. cbn [fst snd]. fold n1. fold n2.
  rewrite Hhb, Ecu. cbn [fst snd]. unfold writeStatus. rewrite write_frame_ok by (apply small_status || done).
  rewrite flush_ok, !sends_app by done. unfold greeting, Epoch, LeaderAddr. by rewrite Hm2, <- ?app_assoc.
Qed.
End handover.
