(* ===== verification/Shipping.v ===== *)
(** * A follower catches up

    What a leader sends to a follower that attaches, and what the follower
    makes of it: after a full resync, or after the part of the log it lacks,
    its store stands for the leader's map. *)

From S2P Require Import Prelude Bytes Decimal Record Datafile Hint Listing Manifest Index Store StoreInv.
From S2P Require Import WritePath Ops Reads Scans Recovery Compact Settled Crash Disk Durability Streams.
From S2P Require Import Writers Snapshots Proto Text Node Election Replication Server Wire Service Voting Handover.

Local Open Scope Z_scope.
Local Open Scope gokv_scope.

Section shipping.
Context {I : Type} `{KeyIndexSpec I}.
Implicit Types (n f : node I) (w : writer) (s : store I) (L : logs) (M : newest).

(** ** The follower's side *)

Lemma steady_notes k s M l : steady k s M -> steady k (set_notes l s) M.
Proof. intros [[L [[] ? ? ?]] ? ? ?]. split; [|done..]. exists L. by split; [split|..]. Qed.

(** The store and the sequence number change, the rest of the node does not. *)
Record refreshed (f f' : node I) : Prop := {
  rf_role : node_Role f' = node_Role f;
  rf_epoch : Epoch f' = Epoch f;
  rf_addr : LeaderAddr f' = LeaderAddr f
}.

Lemma refreshed_refl f : refreshed f f.
Proof. done. Qed.
Lemma refreshed_trans f1 f2 f3 : refreshed f1 f2 -> refreshed f2 f3 -> refreshed f1 f3.
Proof. intros [? ? ?] [? ? ?]. split; congruence. Qed.

Lemma on_store_ok {A} (m : sto I A) a s' f c k M : m (n_store f) = (Ok a, s') -> steady k s' M ->
  exists f', on_store m (f, c) = (Ok a, (f', c)) /\ refreshed f f' /\ steady k (n_store f') M.
Proof.
  intros E Hs. unfold on_store. cbn [fst snd]. rewrite E. cbn [fst snd].
  destruct (dispatch_state (set_store s' f)) as [ss ->]. eexists. split; [done|]. split; [done|].
  by apply steady_notes.
Qed.

Lemma on_data addr now rs f c k M : appendable rs -> 0 < k -> steady k (n_store f) M ->
  exists f', on_frame addr now (repl_data (encode_all rs)) (f, c) = (Ok tt, (f', c)) /\ refreshed f f' /\
    steady (k - 1) (n_store f') (absorb_all M rs).
Proof.
  intros (_ & Hv & Hl) Hk Hs.
  destruct (ApplyRaw_steady k (n_store f) M rs) as (s' & E & Hs' & _); [done..|].
  destruct (on_store_ok (ApplyRaw (encode_all rs)) (max_seq 0 rs) s' (setLastContact now f) c (k - 1) (absorb_all M rs))
    as (f' & Ef & Hrf & Hst); [done..|].
  exists f'. split; [|split; [by destruct Hrf|done]].
  unfold repl_data, Enc.Raw, Enc.NewEnc. cbn [app]. unfold on_frame.
  unfold sm_bind at 1, on_node, sm_modify. cbn [fst snd].
  change (bool_decide (StatusReplData = StatusLive)) with false.
  change (bool_decide (StatusReplData = StatusHeartbeat)) with false.
  change (bool_decide (StatusReplData = StatusFullSync)) with false.
  change (bool_decide (StatusReplData = StatusReplData)) with true. cbv iota. unfold sm_bind. by rewrite Ef.
Qed.

Lemma follow_data addr rss : forall l f c k M, l.*2 = ((repl_data ∘ encode_all) <$> rss) -> Forall appendable rss ->
  zlen l <= k -> steady k (n_store f) M ->
  exists f', follow addr l (f, c) = (Ok tt, (f', c)) /\ refreshed f f' /\
    steady (k - zlen l) (n_store f') (absorb_all M (mjoin rss)).
Proof.
  induction rss as [|rs rss IH]; intros l f c k M Hl Hv Hk Hs.
  - destruct l; [|done]. exists f. rewrite zlen_nil, Z.sub_0_r. done.
  - destruct l as [|[t fr] l]; [done|]. cbn [fmap list_fmap] in Hl. injection Hl as -> Hl.
    apply Forall_cons in Hv as [Hr Hv]. rewrite zlen_cons in *. pose proof (zlen_nonneg l).
    destruct (on_data addr t rs f c k M) as (f1 & E1 & Hr1 & Hs1); [done|lia|done|].
    destruct (IH l f1 c (k - 1) (absorb_all M rs) Hl Hv) as (f2 & E2 & Hr2 & Hs2); [lia|done|].
    exists f2. cbn [follow]. unfold sm_bind. cbn [compose] in *. rewrite E1, E2. split; [done|].
    split; [by eapply refreshed_trans|]. change (mjoin (rs :: rss)) with (rs ++ mjoin rss). rewrite absorb_all_app.
    replace (k - (1 + zlen l)) with (k - 1 - zlen l) by lia. done.
Qed.

(** Records that are sent one by one are calls of one record each. *)
Definition alone (rs : list record) : list (list record) := (fun r => [r]) <$> rs.

Lemma alone_ok rs : Forall valid_record rs ->
  mjoin (alone rs) = rs /\ (repl_data ∘ encode_all) <$> alone rs = (repl_data ∘ encode) <$> rs /\ Forall appendable (alone rs).
Proof.
  induction 1 as [|r rs Hr _ (IH1 & IH2 & IH3)]; [by repeat split|]. unfold alone in *. cbn [fmap list_fmap].
  assert (Henc : encode_all [r] = encode r) by (unfold encode_all; simpl; by rewrite app_nil_r).
  split; [|split].
  - change (mjoin ([r] :: ?l)) with ([r] ++ mjoin l). by rewrite IH1.
  - rewrite IH2. cbn [compose]. by rewrite Henc.
  - constructor; [|done]. split; [done|]. split; [by constructor|]. unfold log_size. rewrite Henc, zlen_encode.
    destruct Hr as (_ & _ & Hk & Hv). change MaxKeySize with 65536 in Hk. change MaxValueSize with 268435456 in Hv. lia.
Qed.

Lemma on_full_sync addr now f c k M : 0 < k -> steady k (n_store f) M ->
  exists f', on_frame addr now [StatusFullSync] (f, c) = (Ok tt, (f', c)) /\ refreshed f f' /\
    steady (k - 1) (n_store f') ∅.
Proof.
  intros Hk Hs. destruct (Reset_steady k (n_store f) M Hk Hs) as (s' & E & Hs' & _).
  destruct (on_store_ok Reset tt s' (setLastContact now f) c (k - 1) ∅ E Hs') as (f' & Ef & Hrf & Hst).
  exists f'. split; [|split; [by destruct Hrf|done]].
  unfold on_frame. unfold sm_bind at 1, on_node, sm_modify. cbn [fst snd]. exact Ef.
Qed.

Lemma on_heartbeat addr now e a f c : is_u64 e -> zlen a < 2 ^ 32 -> node_Role f = Follower ->
  exists f', on_frame addr now (heartbeat e a) (f, c) = (Ok tt, (f', true)) /\ n_store f' = n_store f /\
    node_Role f' = Follower /\ (Epoch f <= e -> Epoch f' = e /\ LeaderAddr f' = or_default a (LeaderAddr f)).
Proof.
  intros He Ha Hr. exists (adoptEpoch a e (setLastContact now f)). split; [|split; [|split]].
  - unfold heartbeat, Enc.U64, Enc.NewEnc. rewrite Str_app, <- app_assoc. cbn [app].
    unfold on_frame, sm_bind at 1, on_node, sm_modify. cbn [fst snd].
    change (bool_decide (StatusHeartbeat = StatusLive)) with false.
    change (bool_decide (StatusHeartbeat = StatusHeartbeat)) with true. cbv iota.
    unfold sm_bind, set_caughtUp, sm_modify. cbn [fst snd].
    rewrite cursor_new, cursor_U64 by done. rewrite <- (app_nil_r (Enc.Str a [])), cursor_Str by done. done.
  - unfold adoptEpoch. by destruct (_ && _).
  - unfold adoptEpoch. by destruct (_ && _).
  - intros Hle. unfold adoptEpoch. change (m_epoch (n_mem (setLastContact now f))) with (Epoch f).
    change (m_role (n_mem (setLastContact now f))) with (node_Role f). rewrite Hr.
    destruct (Z.leb_spec (Epoch f) e); [done|lia].
Qed.

Lemma follow_app addr l l' nc : follow addr (l ++ l') nc =
  match follow (I := I) addr l nc with (Ok _, nc') => follow addr l' nc' | out => out end.
Proof.
  revert nc. induction l as [|[t fr] l IH]; intros nc; [done|]. cbn [follow app]. unfold sm_bind.
  destruct (on_frame addr t fr nc) as [[[]|e] nc']; [apply IH|done].
Qed.

Lemma split_frames (l : list (Z * bytes)) (a b : list bytes) : l.*2 = a ++ b ->
  exists l1 l2, l = l1 ++ l2 /\ l1.*2 = a /\ l2.*2 = b.
Proof.
  intros E. exists (take (length a) l), (drop (length a) l). rewrite take_drop.
  split; [done|]. rewrite fmap_take, fmap_drop, E. by rewrite take_app_length, drop_app_length.
Qed.

(** ** Both sides *)

(** When a catch-up can succeed: it starts over, or of all that was ever
    written at the leader ([all]) the log still has what is newer than the
    follower's position, and the follower has what is not. *)
Definition covered s L M (from : Z) (MF : newest) : Prop :=
  starts_over s from = true \/
  exists all known,
    consistent (strip_batch <$> all) /\ kv M = kv (absorb_all ∅ all) /\
    (forall r, r ∈ all -> r_seq r <= st_seq s) /\
    (forall r, r ∈ all_logs (w_fs (st_w s)) L -> r ∈ all) /\
    (forall r, r ∈ all -> r ∈ known \/ r ∈ all_logs (w_fs (st_w s)) L /\ from < r_seq r) /\
    plain MF = absorb_all ∅ (strip_batch <$> known) /\ (forall r, r ∈ known -> r ∈ all).

(** What is written on top of a consistent log is consistent with it. *)
Lemma consistent_extend q all R : consistent (strip_batch <$> all) -> (forall r, r ∈ all -> r_seq r <= q) -> fresh q R ->
  consistent (strip_batch <$> all ++ R).
Proof.
  intros Hc Hq Hf r r' Hr Hr' Hk Hs. rewrite fmap_app in Hr, Hr'.
  assert (Hcase : forall x, x ∈ (strip_batch <$> all) ++ (strip_batch <$> R) ->
    x ∈ (strip_batch <$> all) /\ r_seq x <= q \/ exists x0, x = strip_batch x0 /\ x0 ∈ R /\ q < r_seq x).
  { intros x [Hx|Hx]%elem_of_app; [left|right].
    - split; [done|]. apply list_elem_of_fmap in Hx as (x0 & -> & Hx0). exact (Hq x0 Hx0).
    - apply list_elem_of_fmap in Hx as (x0 & -> & Hx0). exists x0. split; [done|]. split; [done|]. exact (fresh_above q R x0 Hf Hx0). }
  destruct (Hcase r Hr) as [[Ha Hl]|(x & -> & Hx & Hl)], (Hcase r' Hr') as [[Ha' Hl']|(x' & -> & Hx' & Hl')];
    [by apply Hc|lia|lia|]. f_equal. by apply (fresh_eq q R).
Qed.

Lemma sent_suffices s L M a from MF R0 R1 R2 sent : let R := R0 ++ R1 ++ R2 in
  durable s L M a -> fresh (st_seq s) R -> covered s L M from MF -> carries s L M R0 R1 from sent ->
  kv (absorb_all (if starts_over s from then ∅ else MF) (sent ++ R)) = kv (absorb_all M R).
Proof.
  intros R Hd Hf Hcov Hc. pose proof (du_ok _ _ _ _ Hd) as Hok. destruct (ok_seq _ _ _ Hok) as [_ Hb].
  unfold carries in Hc. destruct (starts_over s from) eqn:Eo; destruct Hc as [Hsub Hall].
  - apply (snapshot_kv (st_seq s)); [by eapply store_ok_keyed|done..].
  - destruct Hcov as [?|(all & known & Hcon & HM & Hq & Hlog & Hcase & HF & HFsub)]; [congruence|].
    rewrite (kv_extend R (st_seq s) M (absorb_all ∅ all)); [|done..|].
    2:{ intros k r [Hk|Hk]%absorb_all_elem; [by rewrite lookup_empty in Hk|by apply Hq]. }
    rewrite <- absorb_all_app. apply (log_covers (all ++ R) _ known); [by apply (consistent_extend (st_seq s))|done|..].
    + intros r Hr. apply elem_of_app. left. by apply HFsub.
    + intros r Hr. rewrite elem_of_app in Hr. destruct Hr as [Hr|Hr]; [|apply elem_of_app; by right].
      apply Hsub in Hr. unfold R. rewrite !elem_of_app in *. naive_solver.
    + intros r Hr. rewrite !elem_of_app in *. destruct Hr as [Hr|Hr]; [|auto].
      destruct (Hcase r Hr) as [?|[Hl Hlt]]; [auto|]. right. left. apply Hall; [|done]. apply elem_of_app. by left.
Qed.

Lemma follow_catch_up addr s from f MF k l c sent : Forall valid_record sent -> steady k (n_store f) MF ->
  zlen l <= k -> l.*2 = catch_up_frames s from sent ->
  exists f', follow addr l (f, c) = (Ok tt, (f', c)) /\ refreshed f f' /\
    steady (k - zlen l) (n_store f') (absorb_all (if starts_over s from then ∅ else MF) sent).
Proof.
  intros Hv Hs Hk Hl. destruct (alone_ok sent Hv) as (Hj & Hfr & Hap). rewrite <- Hj.
  unfold catch_up_frames in Hl. rewrite <- Hfr in Hl. destruct (starts_over s from); [|by apply follow_data].
  destruct l as [|[t fr] l]; [done|]. cbn [app fmap list_fmap] in Hl. injection Hl as -> Hl.
  rewrite zlen_cons in *. pose proof (zlen_nonneg l).
  destruct (on_full_sync addr t f c k MF) as (f1 & E1 & Hr1 & Hs1); [lia|done|].
  destruct (follow_data addr _ l f1 c (k - 1) ∅ Hl Hap) as (f2 & E2 & Hr2 & Hs2); [lia|done|].
  exists f2. cbn [follow]. unfold sm_bind. rewrite E1, E2. split; [done|]. split; [by eapply refreshed_trans|].
  replace (k - (1 + zlen l)) with (k - 1 - zlen l) by lia. done.
Qed.

(** The frames of a greeting: the heartbeat, the catch-up and the word that the
    follower is live, then the queue. *)
Lemma follow_greeting addr n from sent rss f MF k l :
  speaks n -> node_Role f = Follower -> steady k (n_store f) MF -> zlen l <= k ->
  Forall valid_record sent -> Forall appendable rss ->
  l.*2 = greeting n from sent ++ (repl_data <$> (encode_all <$> rss)) ->
  exists f' M', follow addr l (f, false) = (Ok tt, (f', true)) /\
    steady (k - zlen l + 2) (n_store f') M' /\
    M' = absorb_all (if starts_over (n_store n) from then ∅ else MF) (sent ++ mjoin rss) /\
    node_Role f' = Follower /\
    (Epoch f <= Epoch n -> Epoch f' = Epoch n /\ LeaderAddr f' = or_default (LeaderAddr n) (LeaderAddr f)).
Proof.
  intros Hsp Hfr Hs Hk Hv Hap Hl. unfold greeting in Hl. rewrite <- !app_assoc in Hl. cbn [app] in Hl.
  destruct l as [|[t0 h] l]; [done|]. cbn [fmap list_fmap] in Hl. injection Hl as -> Hl.
  apply split_frames in Hl as (l1 & l2 & -> & Hl1 & Hl2).
  destruct l2 as [|[t2 fr] l2]; [done|]. cbn [fmap list_fmap] in Hl2. injection Hl2 as -> Hl2.
  rewrite zlen_cons, zlen_app, zlen_cons in *. pose proof (zlen_nonneg l1). pose proof (zlen_nonneg l2).
  destruct (on_heartbeat addr t0 (Epoch n) (LeaderAddr n) f false) as (f1 & E1 & Hs1 & Hr1 & He1);
    [apply Hsp|destruct Hsp; lia|done|].
  assert (Hs1' : steady k (n_store f1) MF) by (by rewrite Hs1).
  destruct (follow_catch_up addr (n_store n) from f1 MF k l1 true sent Hv Hs1') as (f2 & E2 & Hrf2 & Hs2); [lia|done|].
  destruct (follow_data addr rss l2 (setLastContact t2 f2) true (k - zlen l1) (absorb_all (if starts_over (n_store n) from then ∅ else MF) sent))
    as (f3 & E3 & Hrf3 & Hs3); [by rewrite Hl2, list_fmap_compose|done|lia|done|].
  exists f3, (absorb_all (absorb_all (if starts_over (n_store n) from then ∅ else MF) sent) (mjoin rss)).
  split; [|split; [|split; [by rewrite absorb_all_app|]]].
  - cbn [follow]. unfold sm_bind at 1. rewrite E1, follow_app, E2. cbn [follow]. exact E3.
  - replace (k - (1 + (zlen l1 + (1 + zlen l2))) + 2) with (k - zlen l1 - zlen l2) by lia. done.
  - destruct Hrf2 as [Hro2 Hep2 Had2], Hrf3 as [Hro3 Hep3 Had3]. split; [rewrite Hro3; change (node_Role f2 = Follower); congruence|].
    intros Hle. rewrite Hep3, Had3. change (Epoch f2 = Epoch n /\ LeaderAddr f2 = or_default (LeaderAddr n) (LeaderAddr f)).
    rewrite Hep2, Had2. by apply He1.
Qed.

End shipping.
