(* ===== verification/Demo.v ===== *)
(** * The theorems at work

    A store opened on an empty directory with the real index, and the theorems
    about stores applied to it: each hypothesis holds there. *)

From S2P Require Import Prelude Bytes Decimal Record Datafile Hint Listing Manifest Lock Index.
From S2P Require Import Store StoreInv WritePath Ops Reads Scans Background Recovery Engine.
From S2P Require Import Settled Crash Disk Durability Reopen.

Local Open Scope Z_scope.
Local Open Scope gokv_scope.

(** Small files, so that a few writes rotate; fsync on every write. *)
Definition demo_opts : Options := mkOptions (str "d") 100 SyncAlways 0 (f64_of_Z 0) 0.

Definition opened (fs : gmap bytes file) : store index :=
  match Open (I := index) demo_opts 1 (mkWorld fs [] false) with
  | (Ok s, _) => s
  | (Err _, w) => newStore demo_opts w
  end.

Definition demo0 : store index := opened ∅.

Definition no_env : nat -> store index -> store index := fun _ s => s.

Lemma dir_ok_empty : dir_ok ∅ ∅.
Proof.
  split; [|split].
  - intros name id. by rewrite dom_empty_L, elem_of_empty.
  - intros id _. rewrite lookup_empty. by intros [? ?].
  - intros id rs. by rewrite lookup_empty.
Qed.

Lemma opened_ok fs D : dir_ok fs D ->
  exists L, store_ok (opened fs) L (absorb_all ∅ (recovered fs D (dir_ids fs))).
Proof.
  intros Hd. destruct (Open_calm (I := index) demo_opts 1 fs D Hd) as (s & L & HO & Hok & _); [done|].
  unfold opened. rewrite HO. by exists L.
Qed.

Lemma demo0_ok : exists L, store_ok demo0 L ∅.
Proof. destruct (opened_ok ∅ ∅ dir_ok_empty) as [L HL]. by exists L. Qed.

Lemma demo0_refines : refines demo0 ∅.
Proof. destruct demo0_ok as [L HL]. exists L, ∅. split; [done|]. by vm_compute. Qed.

(** A key and a value in it. *)
Definition demo1 : store index := (Put 5 (str "a") (str "va") demo0).2.

Lemma demo1_refines : refines demo1 {[str "a" := str "va"]}.
Proof.
  destruct demo0_ok as [L HL].
  assert (Hwp := Put_wp demo0 L ∅ 5 (str "a") (str "va") HL eq_refl
    ltac:(by vm_compute) ltac:(by vm_compute) eq_refl).
  unfold wp in Hwp. unfold demo1.
  assert (E : (Put 5 (str "a") (str "va") demo0).1 = Ok tt) by (vm_compute; reflexivity).
  destruct (Put _ _ _ _) as [[[]|e] s']; [|done]. apply Hwp.
Qed.

(** ** Clients *)

Lemma Put_refines_witness :
  refines (Put 5 (str "a") (str "va") demo0).2 {[str "a" := str "va"]} /\
  (Put 5 [] (str "va") demo0).1 = Err ErrEmptyKey.
Proof.
  split; [|reflexivity].
  pose proof (Put_refines demo0 ∅ 5 (str "a") (str "va") demo0_refines eq_refl
    ltac:(by vm_compute) ltac:(by vm_compute)) as Hp.
  assert (E : (Put 5 (str "a") (str "va") demo0).1 = Ok tt) by (vm_compute; reflexivity).
  change (put_error (str "a") (str "va")) with (@None error) in Hp.
  destruct (Put 5 (str "a") (str "va") demo0) as [[[]|e] s']; [|done]. apply Hp.
Defined.

Lemma BatchPut_refines_witness :
  refines (BatchPut 5 [str "b"; str "c"] [str "vb"; str "vc"] demo1).2
    (<[str "c" := str "vc"]> (<[str "b" := str "vb"]> {[str "a" := str "va"]})).
Proof.
  pose proof (BatchPut_refines demo1 _ 5 [str "b"; str "c"] [str "vb"; str "vc"] demo1_refines
    eq_refl ltac:(by vm_compute) ltac:(by vm_compute) ltac:(by vm_compute)) as Hp.
  assert (E : (BatchPut 5 [str "b"; str "c"] [str "vb"; str "vc"] demo1).1 = Ok tt)
    by (vm_compute; reflexivity).
  destruct (BatchPut _ _ _ _) as [[[]|e] s']; [|done]. apply Hp.
Defined.

Lemma Delete_refines_witness : refines (Delete 5 (str "a") demo1).2 ∅.
Proof.
  pose proof (Delete_refines demo1 _ 5 (str "a") demo1_refines
    eq_refl ltac:(by vm_compute) ltac:(by vm_compute)) as Hp.
  change (validateKey (str "a")) with (@None error) in Hp.
  rewrite lookup_singleton_eq in Hp.
  assert (E : (Delete 5 (str "a") demo1).1 = Ok tt) by (vm_compute; reflexivity).
  destruct (Delete _ _ _) as [[[]|e] s']; [|done]. rewrite delete_singleton_eq in Hp. apply Hp.
Defined.

Lemma Get_refines_witness : (Get no_env (str "a") demo1).1 = Ok (str "va").
Proof.
  pose proof (Get_refines demo1 _ (str "a") demo1_refines) as Hp.
  change (validateKey (str "a")) with (@None error) in Hp. rewrite lookup_singleton_eq in Hp.
  unfold no_env. destruct (Get _ _ _) as [[v|e] s']; [|].
  - destruct Hp as [[= ->] _]. done.
  - by destruct Hp as [_ [(_ & ? & _)|[_ Hn]]].
Defined.

Lemma benign_id P k : benign P k no_env.
Proof.
  intros n s L M Hok HP. exists L, M. split; [done|]. split; [done|]. split; [|done].
  intros id rs rs' H1 H2. unfold no_env in *. rewrite H1 in H2. by injection H2 as <-.
Qed.


Definition collect (k v : bytes) (out : list (bytes * bytes))
  : result error unit * list (bytes * bytes) := (Ok tt, out ++ [(k, v)]).

Lemma Scan_refines_witness :
  exists l, range_of {[str "a" := str "va"]} (str "A") (str "z") l /\
    (Scan collect 0 (str "A") (str "z") [] demo1).1 = feed collect 0 l 0 [].
Proof.
  destruct (Scan_refines collect 0 (str "A") (str "z") [] demo1 _ demo1_refines eq_refl)
    as (l & Hl & ->).
  by exists l.
Defined.

Lemma ScanSlice_refines_witness :
  exists l, range_of {[str "a" := str "va"]} [] [] l /\ (ScanSlice [] [] 1 demo1).1 = (Ok tt, take 1 l).
Proof. exact (ScanSlice_refines [] [] 1 demo1 _ demo1_refines eq_refl). Defined.

Lemma closed_refuses_witness :
  Reset (Close demo1).2 = (Err ErrClosed, (Close demo1).2).
Proof.
  apply (closed_refuses (Close demo1).2 0 [] [] [] [] []). vm_compute. reflexivity.
Defined.

Definition demo_cmds : list cmd :=
  [CPut 5 (str "a") (str "va"); CBatch 6 [str "b"; str "c"] [str "vb"; str "vc"]; CGet (str "b");
   CSync; CDelete 7 (str "a"); CHint; CGet (str "a"); CScan [] [] 0; CLen; CPut 8 [] []].

(** The replies are computed, and are those of the map. *)
Lemma engine_is_a_map_witness :
  (exec_all demo_cmds demo0).1 =
    [RDone (Ok tt); RDone (Ok tt); RValue (Ok (str "vb")); RDone (Ok tt); RDone (Ok tt);
     RDone (Ok tt); RValue (Err ErrKeyNotFound); RPairs (Ok tt, [(str "b", str "vb"); (str "c", str "vc")]);
     RLen 2; RDone (Err ErrEmptyKey)] /\
  exists m, history ∅ demo_cmds (exec_all demo_cmds demo0).1 m /\
    refines (exec_all demo_cmds demo0).2 m.
Proof.
  split; [vm_compute; reflexivity|].
  apply engine_is_a_map; [exact demo0_refines|reflexivity|reflexivity| |by vm_compute|by vm_compute].
  repeat constructor; by vm_compute.
Defined.

(** ** Replication *)

Definition rec1 : record := mkRecord 5 7 x00 (str "a") (str "v7").
Definition rec2 : record := mkRecord 6 9 x01 (str "a") [].

Lemma recs_valid : Forall valid_record [rec1; rec2].
Proof. repeat constructor; by vm_compute. Qed.

Lemma ApplyRaw_correct_witness :
  (exists L, store_ok (ApplyRaw (encode_all [rec1; rec2]) demo0).2 L (absorb_all ∅ [rec1; rec2])) /\
  ApplyRaw [x00] demo0 = (Err (ErrRecord ErrCorrupt), demo0).
Proof.
  split; [|reflexivity]. destruct demo0_ok as [L HL].
  pose proof (ApplyRaw_correct demo0 L ∅ (encode_all [rec1; rec2]) HL eq_refl
    ltac:(by vm_compute) ltac:(by vm_compute)) as Hp.
  assert (E : (ApplyRaw (encode_all [rec1; rec2]) demo0).1 = Ok 9) by (vm_compute; reflexivity).
  destruct (ApplyRaw _ _) as [[q|e] s']; [|done].
  destruct Hp as (rs & L' & Henc & Hv & _ & _ & Hok). exists L'.
  by rewrite (encode_all_inj [rec1; rec2] rs recs_valid Hv Henc).
Defined.

Lemma replicas_converge_witness :
  exists m, refines (ApplyRaw (encode_all [rec1; rec2]) demo0).2 m /\
    refines (ApplyRaw (encode_all [rec2; rec1; rec2]) demo0).2 m.
Proof.
  destruct demo0_ok as [L HL].
  assert (E1 : (ApplyRaw (encode_all [rec1; rec2]) demo0).1 = Ok 9) by (vm_compute; reflexivity).
  assert (E2 : (ApplyRaw (encode_all [rec2; rec1; rec2]) demo0).1 = Ok 9) by (vm_compute; reflexivity).
  destruct (ApplyRaw (encode_all [rec1; rec2]) demo0) as [o1 s1] eqn:F1.
  destruct (ApplyRaw (encode_all [rec2; rec1; rec2]) demo0) as [o2 s2] eqn:F2.
  simpl in E1, E2. subst o1 o2.
  assert (Hid : st_nextID demo0 + 1 < 2 ^ 32) by (vm_compute; reflexivity).
  assert (H1 : log_size [rec1; rec2] < 2 ^ 32) by (vm_compute; reflexivity).
  assert (H2 : log_size [rec2; rec1; rec2] < 2 ^ 32) by (vm_compute; reflexivity).
  assert (Hc : consistent [rec1; rec2]).
  { intros r r'. rewrite !elem_of_cons, !elem_of_nil.
    intros [->|[->|[]]] [->|[->|[]]]; vm_compute; congruence. }
  assert (Hset : forall r, r ∈ [rec2; rec1; rec2] <-> r ∈ [rec1; rec2])
    by (intros r; rewrite !elem_of_cons, elem_of_nil; tauto).
  exact (proj2 (replicas_converge demo0 L demo0 L ∅ [rec1; rec2] [rec2; rec1; rec2] 9 9 s1 s2
    HL eq_refl Hid HL eq_refl Hid recs_valid H1 H2 Hc Hset F1 F2)).
Defined.

(** ** Files *)

Definition demo_log : gmap bytes file :=
  {[dataPath 3 := mkFile (encode_all [rec1; rec2] ++ str "torn") 0]}.

Lemma hint_roundtrip_witness :
  (readHint (fun k e _ l => l ++ [(k, e_pos e)]) 3 []
     (buildHint 3 (mkWorld demo_log [] false)).2).1 =
    Ok (Ok tt, [(str "a", 0); (str "a", 32)]).
Proof.
  destruct (hint_roundtrip (fun k e _ l => l ++ [(k, e_pos e)]) 3 (mkWorld demo_log [] false)
    (mkFile (encode_all [rec1; rec2] ++ str "torn") 0) [rec1; rec2] [] eq_refl)
    as (_ & _ & Hr).
  - apply lookup_singleton_eq.
  - exists (str "torn"). split; [done|]. split; [by vm_compute|apply recs_valid].
  - by vm_compute.
  - rewrite Hr. vm_compute. reflexivity.
Defined.

Lemma demo_dir_ok : dir_ok demo_log {[3 := [rec1; rec2]]}.
Proof.
  split; [|split].
  - intros name id. unfold demo_log. rewrite dom_singleton_L, elem_of_singleton. intros -> Hid.
    vm_compute in Hid. injection Hid as <-. done.
  - intros id Hid [f Hf]. unfold demo_log in Hf. apply lookup_singleton_Some in Hf as [Hf _].
    apply dataPath_inj in Hf; [|by vm_compute|done]. subst id. by rewrite lookup_singleton_eq.
  - intros id rs [<- <-]%lookup_singleton_Some. split; [done|]. split; [done|]. split.
    + intros f Hf. unfold demo_log in Hf. apply lookup_singleton_Some in Hf as [Hf _].
      by apply dataPath_hintPath in Hf.
    + eexists. split; [apply lookup_singleton_eq|]. exists (str "torn").
      split; [done|]. split; [by vm_compute|apply recs_valid].
Qed.

Lemma Open_recovers_witness :
  exists s, Open (I := index) demo_opts 1 (mkWorld demo_log [] false) = (Ok s, st_w s) /\
    refines s ∅ /\ st_seq s = 9.
Proof.
  destruct (Open_recovers (I := index) demo_opts 1 demo_log _ demo_dir_ok)
    as (s & HO & Href & Hseq & _); [done|].
  exists s. split; [done|].
  assert (Hids : dir_ids demo_log = [3]) by (vm_compute; reflexivity).
  rewrite Hids in Href, Hseq. split; [|rewrite Hseq; vm_compute; reflexivity].
  replace ∅ with (kv (absorb_all ∅ (recovered demo_log {[3 := [rec1; rec2]]} [3]))); [done|].
  vm_compute. reflexivity.
Defined.

(** ** Crashes *)

(** Nothing is fsynced unless a client asks for it. *)
Definition lazy_opts : Options := mkOptions (str "d") 100 SyncNever 0 (f64_of_Z 0) 0.
Definition lazy0 : store index :=
  match Open (I := index) lazy_opts 1 (mkWorld ∅ [] false) with
  | (Ok s, _) => s
  | (Err _, w) => newStore lazy_opts w
  end.
Definition lazy_cmds : list cmd :=
  [CPut 5 (str "a") (str "va"); CSync; CBatch 6 [str "b"; str "c"] [str "vb"; str "vc"]].

Lemma lazy0_open : Open (I := index) lazy_opts 1 (mkWorld ∅ [] false) = (Ok lazy0, st_w lazy0).
Proof.
  destruct (Open_calm (I := index) lazy_opts 1 ∅ ∅ dir_ok_empty) as (s & L & HO & _); [done|].
  unfold lazy0. by rewrite HO.
Qed.

Lemma sound_empty : sound_dir ∅ ∅.
Proof.
  split; [apply dir_ok_empty|by intros ? ?; rewrite lookup_empty..|].
  intros id f _. rewrite !lookup_empty. by intros [?|?].
Qed.

(** A crash that takes everything that was not fsynced. *)
Definition cut (f : file) : file :=
  let d := take (Z.to_nat (f_synced f)) (f_data f) in mkFile d (zlen d).

Lemma cut_crashed fs : map_Forall (fun _ f => f_synced f <= zlen (f_data f)) fs -> crashed fs (cut <$> fs).
Proof.
  intros Hle name. rewrite lookup_fmap. destruct (fs !! name) as [f|] eqn:E; simpl; [|done].
  specialize (Hle name f E). simpl in Hle. split; [|split; [|done]].
  - simpl. exists (drop (Z.to_nat (f_synced f)) (f_data f)). by rewrite take_drop.
  - simpl. unfold zlen in *. rewrite length_take. lia.
Qed.

(** The batch that was not fsynced is gone, the value that was is there. *)
Lemma crash_safety_witness :
  exists D' s' m', let fs' := cut <$> w_fs (st_w (exec_all lazy_cmds lazy0).2) in
    sound_dir fs' D' /\ Open (I := index) lazy_opts 2 (mkWorld fs' [] false) = (Ok s', st_w s') /\
    refines s' m' /\ possible ∅ lazy_cmds m' /\
    (ScanSlice [] [] 0 s').1 = (Ok tt, [(str "a", str "va")]).
Proof.
  set (fs' := cut <$> w_fs (st_w (exec_all lazy_cmds lazy0).2)).
  destruct (crash_safety (I := index) lazy_opts 1 2 ∅ ∅ lazy_cmds lazy0 (st_w lazy0) fs')
    as (D' & s' & m' & Hsd & HO & Href & Hpos & _);
    [exact sound_empty|done|by vm_compute|exact lazy0_open|repeat constructor; by vm_compute
    |by vm_compute|by vm_compute| |].
  { apply cut_crashed. apply map_Forall_to_list. vm_compute. repeat constructor; done. }
  exists D', s', m'. cbn zeta. do 3 (split; [done|]). split; [exact Hpos|].
  assert (E : (match Open (I := index) lazy_opts 2 (mkWorld fs' [] false) with
               | (Ok s, _) => (ScanSlice [] [] 0 s).1 | (Err e, _) => (Err e, []) end) =
              (Ok tt, [(str "a", str "va")])) by (vm_compute; reflexivity).
  by rewrite HO in E.
Defined.

Lemma exec_put_state now k v (s : store index) : (exec (CPut now k v) s).2 = (Put now k v s).2.
Proof. reflexivity. Qed.

