(* ===== verification/ClusterDemo.v ===== *)
(** * The theorems on nodes at work

    A small cluster, and the theorems about compaction, servers, elections and
    replication applied to it: each hypothesis holds there. *)

From S2P Require Import Prelude Bytes Decimal Record Datafile Hint Listing Manifest Lock Index.
From S2P Require Import Store StoreInv Ops Recovery Engine Settled Crash Disk Durability Reopen.
From S2P Require Import Scans Compact Writers Merging Compaction Snapshots LiveScans Streams.
From S2P Require Import Proto Text Node Election Replication Server Client Wire Service Voting Terms Fanout Lifecycle Handover Shipping Demo.

Local Open Scope Z_scope.
Local Open Scope gokv_scope.

(** ** Compaction *)

(** Readers at every point. *)
Definition readers (p : point) (s : store index) : store index := set_cnt (add_get (st_cnt s)) s.

Lemma readers_benign P : benign_env (I := index) 0 P readers.
Proof.
  intros p mgd outs s L M [[? ? ? ? ?] ? ?] HP _ _. exists L, M.
  split; [split; [by split|done..]|]. split; [done|]. split; [split; try done; simpl; lia|done].
Qed.


(** ** Nodes *)

Definition node_cfg (name : string) : Config :=
  mkConfig (str name) (str name) (str "d") [str "n1"; str "n2"; str "n3"] false (str "n3") demo_opts 0 0 0.
Definition new_node (name : string) : node index :=
  match New (I := index) (node_cfg name) 1 0 (mkWorld ∅ [] false) with
  | (Ok n, _) => n
  | (Err _, w) => mkNode (node_cfg name) (newStore demo_opts w) (mkMembership Follower [] 0 0 false) ∅ 0 None ∅ 0
                    false false 0 0 []
  end.

Definition no_text : error -> bytes := fun _ => [].
Definition moment5 : moment := mkMoment 5 1 1.

(** A leader whose store holds one key, and a follower with the same store. *)
Definition leader1 : node index := set_store demo1 (Promote 0 (new_node "n3")).
Definition follower1 : node index := set_store demo1 (new_node "n1").

Lemma leader1_answers : answering leader1 {[str "a" := str "va"]}.
Proof. split; [exact demo1_refines|by vm_compute..]. Qed.

Lemma server_is_a_map_witness :
  (serve_frame no_text moment5 (put_request (str "b") (str "vb")) (leader1, mkWriter [] [])).2.2 =
    mkWriter [[StatusOK]] [] /\
  refines (n_store (serve_frame no_text moment5 (put_request (str "b") (str "vb")) (leader1, mkWriter [] [])).2.1)
    (<[str "b" := str "vb"]> {[str "a" := str "va"]}).
Proof.
  destruct (server_is_a_map no_text moment5 (RqPut (str "b") (str "vb")) leader1 (mkWriter [] []) _ leader1_answers)
    as (n' & frames & E & Hans & Hs);
    [left; by vm_compute|done|by vm_compute|split; by vm_compute|split; by vm_compute|].
  cbn [request_frame] in E. rewrite E. cbn [fst snd].
  assert (Hf : frames = [[StatusOK]]) by exact Hans. rewrite Hf.
  split; [done|]. exact (sv_map _ _ _ _ Hs).
Defined.

Lemma follower_redirects_witness :
  serve_frame no_text moment5 (put_request (str "b") (str "vb")) (follower1, mkWriter [] []) =
    (Ok None, (follower1, mkWriter [Enc.Str (str "n3") [StatusRedirect]] [])).
Proof.
  apply (follower_redirects no_text moment5 (RqPut (str "b") (str "vb")) follower1 (mkWriter [] []));
    [by vm_compute|done|done|split; by vm_compute|by vm_compute].
Defined.

(** ** Elections *)

Lemma speaks_check (n : node index) :
  (bool_decide (node_Role n = Leader \/ node_Role n = Follower) &&
   bool_decide (0 <= Epoch n < 2 ^ 64) && bool_decide (0 <= Seq (n_store n) < 2 ^ 64) &&
   bool_decide (zlen (c_ID (n_cfg n)) <= 2 ^ 20) && bool_decide (zlen (c_Addr (n_cfg n)) <= 2 ^ 20) &&
   bool_decide (zlen (LeaderAddr n) <= 2 ^ 20)) = true -> speaks n.
Proof.
  rewrite !andb_true_iff, !bool_decide_eq_true. intros [[[[[? ?] ?] ?] ?] ?]. by split.
Qed.

Lemma vote_roundtrip_witness :
  (serve_frame no_text moment5 (vote_request (str "n2") 4) (leader1, mkWriter [] [])).1 = Ok None /\
  exists frame, forall exchange, exchange (str "n3") (vote_request (str "n2") 4) = Ok frame ->
    requestVote exchange (str "n2") (str "n3") 4 = Ok (mkVoteReply (str "n3") Leader 2 1 (str "n3") true (str "n3")).
Proof.
  assert (Hsp : speaks leader1) by (apply speaks_check; vm_compute; reflexivity).
  destruct (vote_roundtrip no_text moment5 (str "n2") 4 leader1 (mkWriter [] []) Hsp eq_refl)
    as (frame & E & Hread); [by vm_compute|by vm_compute|].
  split; [by rewrite E|]. exists frame. intros exchange Hex. rewrite (Hread exchange (str "n3") Hex).
  vm_compute. reflexivity.
Defined.

Lemma announcement_witness :
  n_mem (serve_frame no_text moment5 (announce_request (str "n1") (str "n1") 3) (leader1, mkWriter [] [])).2.1 =
    mkMembership Follower (str "n1") 3 5 true.
Proof.
  destruct (announcement no_text moment5 (str "n1") (str "n1") 3 leader1 (mkWriter [] []) eq_refl)
    as (n' & E & _ & _ & Hm); [by vm_compute|by vm_compute|by vm_compute|].
  rewrite E. cbn [fst snd].
  assert (Hlt : (3 <=? Epoch leader1) = false) by (vm_compute; reflexivity).
  rewrite Hlt in Hm. rewrite (proj1 Hm). vm_compute. reflexivity.
Defined.

(** Peers that answer votes at time [now]; the others are not reachable. *)
Definition reachable (now : Z) (ns : list (node index)) (i : nat) (addr req : bytes) : result nerr bytes :=
  match find (fun n => bool_decide (c_Addr (n_cfg n) = addr)) ns with
  | Some n => Ok (vote_frame now n)
  | None => Err ENet
  end.
Definition quiet_env : nat -> node index -> node index := fun _ n => n.
Definition clock10 : nat -> Z := fun _ => 10 * Second.

Lemma quiet_calm : calm_env quiet_env.
Proof. done. Qed.


Lemma rivals_exclude_witness :
  ~ (node_Role (startElection (reachable (10 * Second) [new_node "n2"]) quiet_env clock10 (new_node "n1")) = Leader /\
     node_Role (startElection (reachable (10 * Second) [new_node "n1"]) quiet_env clock10 (new_node "n2")) = Leader).
Proof.
  apply (rivals_exclude _ _ _ _ _ _ _ _ (10 * Second) (10 * Second) (str "n1") (str "n2") quiet_calm quiet_calm);
    [by vm_compute..| |].
  - assert (Hb : ballots (reachable (10 * Second) [new_node "n2"]) (new_node "n1") =
      [reply_of (10 * Second) (str "n2") (new_node "n2")]) by (vm_compute; reflexivity).
    rewrite Hb. by left.
  - assert (Hb : ballots (reachable (10 * Second) [new_node "n1"]) (new_node "n2") =
      [reply_of (10 * Second) (str "n1") (new_node "n1")]) by (vm_compute; reflexivity).
    rewrite Hb. by left.
Defined.


(** ** Replication *)

Lemma stream_complete_witness :
  let nw := attach quiet_env (fun _ s => s) 5 (str "n1") 0 (leader1, mkWriter [] []) in
  complete 0 nw.2.2 [str "r1"; str "r2"]
    (foldl (flow 0) nw.2 [Append 1 (str "r1"); Beat; Wake; Append 2 (str "r2")]).
Proof.
  cbv zeta. set (nw := (attach _ _ _ _ _ _).2).
  assert (Hs : n_streams nw.1 !! 0 = Some (newReplStream (str "n1"))) by (vm_compute; reflexivity).
  assert (Hw : wr_fails nw.2 = []) by (vm_compute; reflexivity).
  assert (Hl : zlen (LeaderAddr nw.1) <= 2 ^ 20) by (vm_compute; discriminate).
  clearbody nw. destruct nw as [n w].
  apply (stream_complete 0 (str "n1") n w [Append 1 (str "r1"); Beat; Wake; Append 2 (str "r2")] Hs Hw Hl).
  repeat apply Forall_cons_2; try apply Forall_nil_2; unfold raw_small, small; vm_compute; discriminate.
Defined.

Definition lazy1 : store index := (Put 5 (str "a") (str "va") lazy0).2.
Definition watched : store index := (AddObserver lazy1).2.
Definition lazy_leader : node index := set_store watched (Promote 0 (new_node "n3")).
Definition empty_follower : node index := set_store demo0 (new_node "n1").

Lemma watched_durable : exists L M a, durable watched L M a /\ kv M = {[str "a" := str "va"]}.
Proof.
  destruct (Open_durable (I := index) lazy_opts 1 ∅ ∅ lazy0 (st_w lazy0) sound_empty)
    as (L & a & Hd & _); [done|by vm_compute|exact lazy0_open|by vm_compute|].
  destruct (exec_durable (CPut 5 (str "a") (str "va")) lazy0 L _ a Hd)
    as (L' & M' & a' & Hd' & Hkv & _); [split; by vm_compute|by vm_compute|by vm_compute|].
  rewrite exec_put_state in Hd'. exists L', M', a'. split.
  - exact (durable_observed lazy1 L' M' a' Hd').
  - rewrite Hkv. assert (Hr : recovered ∅ ∅ (dir_ids ∅) = []) by (vm_compute; reflexivity). rewrite Hr.
    cbn [after]. change (put_error (str "a") (str "va")) with (@None error). cbn [absorb_all foldl].
    unfold kv. rewrite omap_empty. apply insert_empty.
Qed.

Lemma empty_steady : steady 20 demo0 ∅.
Proof. destruct demo0_ok as [L HL]. split; [by exists L|by vm_compute..]. Qed.

(** Clients that write before the snapshot, while it is taken and after it. *)
Definition around_calls (i : nat) : list cmd :=
  match i with
  | O => [CPut 6 (str "b") (str "vb")]
  | _ => [CBatch 9 [str "b"; str "d"] [str "vb2"; str "vd"]]
  end.
Definition stream_calls (p : stream_point) : list cmd :=
  match p with
  | BeforeRead _ 1 => [CDelete 7 (str "b")]
  | BeforeRead _ 0 => [CPut 8 (str "a") (str "va2")]
  | _ => []
  end.

Lemma calls_fine : (forall i, Forall cmd_ok (around_calls i)) /\ (forall p, Forall cmd_ok (stream_calls p)).
Proof.
  split.
  - intros [|i]; apply Forall_singleton; cbn [cmd_ok]; [|split]; by vm_compute.
  - intros [? |? |? [|[|?]] |? ? ?]; try apply Forall_nil_2; apply Forall_singleton; by vm_compute.
Qed.

Definition busy_attach : result nerr (option Z) * (node index * writer) :=
  attach (fun i => served (calls 8 (around_calls i))) (fun p => calls 8 (stream_calls p)) 20 (str "n1") 0
    (lazy_leader, mkWriter [] []).


(** ** Scans *)

(** Clients that write ahead of the cursor and behind it. *)
Definition scan_calls (p : scan_point) : list cmd :=
  match p with
  | ScanChunk 19 => [CPut 6 (str "b") (str "vb")]
  | ScanRead _ 0 => [CPut 7 (str "A") (str "vA"); CDelete 8 (str "b")]
  | ScanChunk 18 => [CPut 9 (str "c") (str "vc")]
  | _ => []
  end.
Definition gather (k v : bytes) (out : list (bytes * bytes)) : result error unit * list (bytes * bytes) := (Ok tt, out ++ [(k, v)]).
Definition busy_scan : (result error unit * list (bytes * bytes)) * store index :=
  Scan_beside gather 0 (fun p => calls 8 (scan_calls p)) 20 [] [] [] watched.

Lemma scan_calls_fine p : Forall cmd_ok (scan_calls p).
Proof.
  assert (Hgen : Forall cmd_ok [CPut 6 (str "b") (str "vb")] /\
    Forall cmd_ok [CPut 7 (str "A") (str "vA"); CDelete 8 (str "b")] /\ Forall cmd_ok [CPut 9 (str "c") (str "vc")])
    by (repeat split; repeat constructor; by vm_compute).
  destruct Hgen as (H1 & H2 & H3). destruct p as [k|? [|?]|]; cbn [scan_calls]; [|done|by constructor..].
  do 19 (destruct k as [|k]; [by first [done|constructor]|]). destruct k; [done|by constructor].
Qed.


(** ** Shutting down *)

(** A connection is served and another accepted while [Close] begins. *)
Definition closing_events : list (event (I := index)) :=
  [EvAccept; EvTrack; EvSpawn; EvBegin 0; EvServe 0 (Promote 3); EvClose; EvAccept; EvClose; EvClose; EvClose; EvClose].
Definition ending_events : list (event (I := index)) :=
  [EvTrack; EvLeave 0; EvUntrack 0; EvHangup 0; EvUnfollow; EvWorkerDone 0; EvClose; EvClose].

Lemma new_node_started : started (new_node "n1").
Proof. split; [|split]; vm_compute; reflexivity. Qed.

(** What can be seen of a process. *)
Definition seen_of (p : process (I := index)) : Z * list Z * acceptor * list Z * Z :=
  (stage (p_closer p), elements (p_live p), p_accept p, elements (n_conns (p_node p)), n_nConns (p_node p)).

Lemma closing_seen : seen_of <$> proc_run closing_events (launch (new_node "n1")) = Some (5, [1], AGot 1, [], 1).
Proof. vm_compute. reflexivity. Qed.
Lemma ending_seen : p_closer <$> proc_run (closing_events ++ ending_events) (launch (new_node "n1")) = Some (ClosedStore (Ok tt)).
Proof. vm_compute. reflexivity. Qed.

Lemma proc_run_app (es es' : list (event (I := index))) : forall p, proc_run (es ++ es') p = proc_run es p ≫= proc_run es'.
Proof. induction es as [|e es IH]; intros p; [done|]. cbn [app proc_run]. destruct (proc_step e p); [apply IH|done]. Qed.

Lemma close_misses_nothing_witness : exists p, proc_run closing_events (launch (new_node "n1")) = Some p /\
  seen_of p = (5, [1], AGot 1, [], 1) /\ forall c, c ∈ p_live p -> p_accept p = AGot c.
Proof.
  pose proof closing_seen as Hseen. destruct (proc_run closing_events _) as [p|] eqn:E; [|done]. injection Hseen as H5 H1 H2 H3 H4.
  exists p. split; [done|]. split; [unfold seen_of; by rewrite H5, H1, H2, H3, H4|].
  destruct (close_misses_nothing (new_node "n1") closing_events p new_node_started E) as [Hmiss _].
  by destruct (Hmiss ltac:(lia)).
Defined.

