(* ===== verification/ClientDemo.v ===== *)
(** * The theorems on clients at work

    A client attached to a node that died, a follower and a leader, and the
    theorems about clients applied to them: each hypothesis holds there. *)

From S2P Require Import Prelude Bytes Decimal Record Datafile Index Store StoreInv Ops Engine Compact.
From S2P Require Import Proto Text Node Election Replication Server Client Wire Replies Sessions Loops Service Cluster.
From S2P Require Import Failover Demo ClusterDemo.

Local Open Scope Z_scope.
Local Open Scope gokv_scope.

(** The leader is [n3], [n1] follows it, nobody answers at [n2]. *)
Definition cluster1 : cluster index :=
  mkCluster (<[str "n1" := follower1]> {[str "n3" := leader1]}) 0 (fun _ => moment5) (fun _ => None) no_text.
(** The same, and the first connection breaks after three bytes. *)
Definition cluster2 : cluster index :=
  mkCluster (cu_nodes cluster1) 0 (fun _ => moment5) (fun k => if bool_decide (k = 0%nat) then Some 3%nat else None) no_text.
Definition client1 : client :=
  mkClient [str "n2"; str "n1"] (mkClientOptions Second 4) (Some []) (str "n2") 0 false false.

Definition requests1 : list request :=
  [RqGet (str "a"); RqPut (str "b") (str "vb"); RqGet (str "b"); RqDelete (str "x"); RqRange [] [] 0].

(** What they come to; the maps only name the nodes that answer. *)
Example requests1_outcomes : (run_requests requests1 (client1, cluster1)).1 =
  [OValue (str "va") (Ok tt); ODone (Ok tt); OValue (str "vb") (Ok tt); ODone (Err CKeyNotFound);
   OPairs [(str "a", str "va"); (str "b", str "vb")] (Ok tt)].
Proof. vm_compute. reflexivity. Qed.

Lemma live1 a n : live cluster1 a n -> (a = str "n1" /\ n = follower1) \/ (a = str "n3" /\ n = leader1).
Proof.
  intros [Ha _]. cbn [cluster1 cu_nodes] in Ha. apply lookup_insert_Some in Ha as [[<- <-]|[_ Ha]]; [by left|].
  apply lookup_singleton_Some in Ha as [<- <-]. by right.
Qed.

Lemma live1_leader : live cluster1 (str "n3") leader1.
Proof.
  split; [|vm_compute; reflexivity]. cbn [cluster1 cu_nodes].
  rewrite lookup_insert_ne by (by vm_compute). apply lookup_singleton_eq.
Qed.
Lemma live1_follower : live cluster1 (str "n1") follower1.
Proof. split; [apply lookup_insert_eq|vm_compute; reflexivity]. Qed.

Definition demo_map : gmap bytes bytes := {[str "a" := str "va"]}.

Lemma follower1_answers : answering follower1 demo_map.
Proof. split; [exact demo1_refines|by vm_compute..]. Qed.

Lemma cluster1_healthy : healthy cluster1 (str "n3") (at_la (str "n3") demo_map (fun _ => demo_map)) (n_cfg leader1)
  (zsum request_cost requests1) (zlen requests1).
Proof.
  assert (Hm : forall a, at_la (str "n3") demo_map (fun _ => demo_map) a = demo_map).
  { intros a. unfold at_la. by destruct (decide _). }
  split.
  - exists leader1. split; [exact live1_leader|vm_compute; reflexivity].
  - intros a n Hl. rewrite Hm. apply live1 in Hl as [[-> ->]|[-> ->]]; [exact follower1_answers|exact leader1_answers].
  - intros a n Hl. apply live1 in Hl as [[-> ->]|[-> ->]]; split; vm_compute; reflexivity.
  - intros a n Hl. apply live1 in Hl as [[-> ->]|[-> ->]]; vm_compute; reflexivity.
  - intros a n Hl Hne. apply live1 in Hl as [[-> ->]|[-> ->]]; [|done]. split; [|vm_compute; reflexivity].
    assert (E : (node_Role follower1 =? Leader) = false) by (vm_compute; reflexivity). by apply Z.eqb_neq in E.
  - done.
  - by vm_compute.
  - intros k. by vm_compute.
  - done.
Qed.

Lemma client1_ready : ready cluster1 client1.
Proof.
  split; [by split; [|right]|done|done|done|].
  exists (str "n1"), follower1. split; [|exact live1_follower]. cbn. set_solver.
Qed.

Lemma client_is_a_map_witness : exists os c' cu' n,
  run_requests requests1 (client1, cluster1) = (os, (c', cu')) /\
  session no_text (n_cfg leader1) (fun a => exists x, live cluster1 a x) (str "n3") (fun _ => demo_map) false demo_map
    requests1 os /\
  live cu' (str "n3") n /\ refines (n_store n) (maps_after demo_map requests1).
Proof.
  apply (client_is_a_map requests1 false client1 cluster1 (str "n3") demo_map (fun _ => demo_map) (n_cfg leader1)
           cluster1_healthy client1_ready); [done|].
  repeat apply Forall_cons_2; try apply Forall_nil_2; split; (done || by vm_compute).
Defined.

(** A history over a connection that breaks, with a callback that gives up. *)
Definition first_only (k v : bytes) (n : Z) : result cerr unit * Z := (Err (CCallback 7), n + 1).
Definition methods1 : list method :=
  [MRead (str "a"); MScanKeyRange first_only 0 [] [] 0; MPut (str "b") (str "vb"); MStats].

Lemma connection_in_step_witness : in_step (run_methods methods1 (client1, cluster2)).1.
Proof.
  pose proof (connection_in_step methods1 client1 cluster2) as Hthm.
  destruct (run_methods methods1 (client1, cluster2)) as [c' n'].
  apply Hthm. split; [done|by right].
Defined.

Lemma pairs_roundtrip_witness :
  pairs_reply (encodePairs [(str "role", str "leader"); (str "epoch", str "2")]) ((client1, cluster1), ∅) =
    (Ok tt, ((client1, cluster1), list_to_map [(str "epoch", str "2"); (str "role", str "leader")])).
Proof.
  exact (pairs_roundtrip [(str "role", str "leader"); (str "epoch", str "2")] (client1, cluster1) ltac:(by vm_compute)).
Defined.
