(* ===== verification/Findings.v ===== *)
(** * Where the code departs from its intent

    Concrete runs of the model that end in states the comments or the
    interfaces rule out.  Each is computed. *)

From S2P Require Import Prelude Bytes Decimal Record Datafile Hint Listing Manifest Lock Index.
From S2P Require Import Store StoreInv Ops Recovery Compact Streams.
From S2P Require Import Proto Text Node Election Replication Server Client Wire Service Cluster Voting Demo ClusterDemo.
From S2P Require Import ClientDemo.

Local Open Scope Z_scope.
Local Open Scope gokv_scope.

(** ** Compaction *)

Definition alone : point -> store index -> store index := fun _ s => s.
Definition with_faults (l : list (option nat)) (s : store index) : store index :=
  set_w (mkWorld (w_fs (st_w s)) l (w_locked (st_w s))) s.
Definition reopen (opts : Options) (s : store index) : store index :=
  match Open (I := index) opts 2 (mkWorld (w_fs (st_w s)) [] false) with
  | (Ok s, _) => s
  | (Err _, w) => newStore opts w
  end.

(** A value in an old file, then its tombstone in a newer one. *)
Definition buried : store index :=
  (Delete 6 (str "a") (Compact alone (Put 5 (str "a") (str "va") demo0).2).2).2.

(** Merged files are deleted in ascending order and failures are ignored: when
    the file with the value cannot be removed and the one with the tombstone
    is, the deleted key is back after the next start. *)
Example deleted_key_returns :
  let out := Compact alone (with_faults (replicate 11 None ++ [Some 0%nat]) buried) in
  out.1 = Ok tt /\ (ScanSlice [] [] 0 out.2).1 = (Ok tt, []) /\
  (ScanSlice [] [] 0 (reopen demo_opts out.2)).1 = (Ok tt, [(str "a", str "va")]).
Proof. vm_compute. done. Qed.

(** The files to merge are listed after the write lock is released.  A write in
    between that rotates makes the new active file one of them: it is merged
    and deleted, and the store can no longer be written. *)
Definition big : bytes := replicate 90 x41.
Definition rotate_meanwhile (p : point) (s : store index) : store index :=
  if bool_decide (p = AfterSeal)
  then (Put 8 (str "c") (str "vc") (Put 7 (str "b") big s).2).2 else s.

Example active_file_merged :
  let out := Compact rotate_meanwhile demo1 in
  out.1 = Ok tt /\ (Put 9 (str "d") (str "vd") out.2).1 <> Ok tt.
Proof. vm_compute. done. Qed.

(** ** Reads that fail *)

(** A read error in the middle of a scan counts as the end of the file.  At
    start-up the last file is then cut back to what was read. *)
Example read_error_truncates :
  match Open (I := index) demo_opts 2 (mkWorld (w_fs (st_w demo1)) (replicate 10 None ++ [Some 0%nat]) false) with
  | (Ok s, w) => (ScanSlice [] [] 0 s).1 = (Ok tt, []) /\ (f_data <$> w_fs w !! dataPath 0) = Some []
  | _ => False
  end /\
  (f_data <$> w_fs (st_w demo1) !! dataPath 0) <> Some [].
Proof. vm_compute. done. Qed.

(** In [buildHint] such an error leaves a hint that lists less than the file
    holds; the next start believes the hint. *)
Definition rotated1 : store index := (Put 7 (str "b") big demo1).2.
Example short_hint_loses_keys :
  let s := (run_task (with_faults (replicate 3 None ++ [Some 0%nat]) rotated1)).2 in
  st_tasks rotated1 = [0] /\ (ScanSlice [] [] 0 s).1.2.*1 = [str "a"; str "b"] /\
  (ScanSlice [] [] 0 (reopen demo_opts s)).1 = (Ok tt, [(str "b", big)]).
Proof. vm_compute. done. Qed.

(** ** Recovery *)

(** The records of a batch without its end take no effect, and yet the sequence
    number they carry is the store's position afterwards: a follower that
    restarts like this asks its leader only for what is newer. *)
Definition half_batch : gmap bytes file :=
  {[dataPath 0 := let d := encode (mkRecord 5 9 (Z_byte flagBatch) (str "a") (str "va")) in mkFile d (zlen d)]}.
Example discarded_batch_counts :
  (ScanSlice [] [] 0 (opened half_batch)).1 = (Ok tt, []) /\ Seq (opened half_batch) = 9.
Proof. vm_compute. done. Qed.

(** After a start the store is not dirty even when the file it goes on with was
    never flushed, so [Sync] reports success and flushes nothing. *)
Definition unflushed : gmap bytes file :=
  {[dataPath 0 := mkFile (encode (mkRecord 5 9 x00 (str "a") (str "va"))) 0]}.
Example sync_after_restart :
  let s := opened unflushed in
  (ScanSlice [] [] 0 s).1 = (Ok tt, [(str "a", str "va")]) /\ (Sync s).1 = Ok tt /\
  (f_synced <$> w_fs (st_w (Sync s).2) !! dataPath 0) = Some 0.
Proof. vm_compute. done. Qed.

(** ** Nodes *)

(** Two candidates that cannot reach each other but both reach a third node
    win the same epoch, both with a majority. *)
Example two_winners :
  let win n := startElection (reachable (10 * Second) [new_node "n3"]) (fun _ n => n) (fun _ => 10 * Second) n in
  node_Role (win (new_node "n1")) = Leader /\ node_Role (win (new_node "n2")) = Leader /\
  Epoch (win (new_node "n1")) = Epoch (win (new_node "n2")).
Proof. vm_compute. done. Qed.

(** A candidate does not look again before it promotes itself.  It may have
    heard, while it waited for answers, of a leader with a higher epoch: its
    own epoch then goes back, and it leads beside the other. *)
Definition told_meanwhile (i : nat) (n : node index) : node index :=
  (serve_frame (fun _ => []) (mkMoment (10 * Second) 0 0) (announce_request (str "n3") (str "n3") 7) (n, mkWriter [] [])).2.1.
Example promotion_lowers_epoch :
  let n := startElection (reachable (10 * Second) [new_node "n2"]) told_meanwhile (fun _ => 10 * Second) (new_node "n1") in
  Epoch (told_meanwhile 0 (new_node "n1")) = 7 /\ node_Role n = Leader /\ Epoch n = 2.
Proof. vm_compute. done. Qed.

(** The stream from the old leader is read on after a promotion: an order to
    start over empties the store of the new leader. *)
Example leader_obeys_old_leader :
  let n := set_store demo1 (Promote 5 (new_node "n1")) in
  let n' := (on_frame (str "n3") 6 [StatusFullSync] (n, true)).2.1 in
  node_Role n' = Leader /\ (ScanSlice [] [] 0 (n_store n)).1.2 = [(str "a", str "va")] /\
  (ScanSlice [] [] 0 (n_store n')).1 = (Ok tt, []).
Proof. vm_compute. done. Qed.

(** A snapshot is sent in key order, and a follower resumes from the largest
    number it has seen: when the stream breaks inside a snapshot, keys that
    were still to come and were written earlier are never sent. *)
Definition leader2 : node index :=
  set_store (Put 6 (str "a") (str "va") (Put 5 (str "b") (str "vb") demo0).2).2 (Promote 0 (new_node "n3")).
Definition caught_up (from : Z) : list (Z * bytes) :=
  pair 6 <$> wr_out (catchUp (fun _ s => s) 10 from (leader2, mkWriter [] [])).2.2.
Definition broken_off : node index := (follow (str "n3") (take 2 (caught_up 0)) (new_node "n1", false)).2.1.
Example broken_snapshot_loses_keys :
  let n := (replicateFrom (str "n3") (Dialled (fun q => Some (caught_up q, ENet))) broken_off).2 in
  (ScanSlice [] [] 0 (n_store leader2)).1.2.*1 = [str "a"; str "b"] /\ (resume_from broken_off).1 = 2 /\
  (ScanSlice [] [] 0 (n_store n)).1.2.*1 = [str "a"].
Proof. vm_compute. done. Qed.

(** The leader greets with a heartbeat, and a heartbeat counts as caught up:
    the generous deadline for the frames of a catch-up is never used. *)
Theorem no_catch_up_window (n : node index) addr now e a c : is_u64 e -> zlen a < 2 ^ 32 ->
  exists n', on_frame addr now (heartbeat e a) (n, c) = (Ok tt, (n', true)) /\
    read_deadline (n_cfg n) true true = Z.max (3 * c_HeartbeatInterval (n_cfg n)) Second.
Proof.
  intros He Ha. unfold heartbeat, Enc.U64, Enc.NewEnc. rewrite Str_app, <- app_assoc. cbn [app].
  unfold on_frame, sm_bind at 1, on_node, sm_modify. cbn [fst snd].
  change (bool_decide (StatusHeartbeat = StatusLive)) with false.
  change (bool_decide (StatusHeartbeat = StatusHeartbeat)) with true. cbv iota.
  unfold sm_bind, set_caughtUp, sm_modify. cbn [fst snd].
  rewrite cursor_new, cursor_U64 by done. rewrite <- (app_nil_r (Enc.Str a [])), cursor_Str by done.
  eexists. done.
Qed.

(** A demoted leader forgets that its state must go before it has gone: after
    one connection that breaks too early it resumes from its own position. *)
Theorem resync_forgotten (n : node index) addr : m_wasLeader (n_mem n) = true ->
  (resume_from n).1 = 0 /\
  (resume_from (replicateFrom addr (Dialled (fun _ => None)) n).2).1 = Seq (n_store n).
Proof. intros Hw. unfold replicateFrom, resume_from. cbn. by rewrite Hw. Qed.

(** ** Second-hand liveness *)

(** An election of [x] at time [now] that reaches [y] and nobody else. *)
Definition stands (now : Z) (x y : node index) : node index :=
  startElection (fun _ p _ => if bool_decide (p = c_Addr (n_cfg y)) then Ok (vote_frame now y) else Err ENet)
    (fun _ n => n) (fun _ => now) x.

(** [a] and [b] stand in turn. *)
Fixpoint in_turn (ts : list Z) (a b : node index) : node index * node index :=
  match ts with
  | [] => (a, b)
  | t :: ts' => in_turn ts' b (stands t a b)
  end.

(** A follower with a leader's name and no contact to it. *)
Record stranded (T : Z) (x : node index) : Prop := {
  sr_follows : node_Role x = Follower;
  sr_free : n_electing x = false /\ n_closing x = false;
  sr_speaks : speaks x;
  sr_named : LeaderAddr x <> [];
  sr_timeout : c_ElectionTimeout (n_cfg x) = T
}.

Lemma poll_stands now (x y : node index) q t peers : forall i,
  zlen (c_ID (n_cfg x)) <= 2 ^ 20 -> speaks y -> node_Role y = Follower -> alive_at now y = true -> LeaderAddr y <> [] ->
  c_Addr (n_cfg y) ∈ peers ->
  poll (fun _ p _ => if bool_decide (p = c_Addr (n_cfg y)) then Ok (vote_frame now y) else Err ENet)
    (fun _ n => n) (fun _ => now) i q peers t x =
  (adoptLeader now (LeaderAddr y) (Z.max (Epoch y) (t_epoch t)) x, None).
Proof.
  induction peers as [|p peers IH]; intros i Hid Hy Hr Hal Hne Hin; [by apply not_elem_of_nil in Hin|].
  cbn [poll]. destruct (decide (p = c_Addr (n_cfg y))) as [->|Hp].
  - rewrite (requestVote_reads _ now _ _ _ y); [|done..|by rewrite bool_decide_true].
    unfold count_vote. cbn [v_role v_leaderAlive v_leaderAddr v_epoch reply_of].
    rewrite Hr, Hal. rewrite bool_decide_false by done. done.
  - unfold requestVote at 1, roundTrip. destruct (vote_request_fits (c_ID (n_cfg x)) q Hid) as [b ->].
    rewrite bool_decide_false by done. apply IH; try done. by apply elem_of_cons in Hin as [?|?].
Qed.

Lemma stands_adopts T now x y : stranded T x -> stranded T y -> alive_at now y = true ->
  c_Addr (n_cfg y) ∈ peersExceptSelf x ->
  stands now x y = adoptLeader now (LeaderAddr y) (Z.max (Epoch y) (Epoch x)) x.
Proof.
  intros [Hr [He Hc] Hsp _ _] [Hry _ Hspy Hn _] Hal Hin. unfold stands, startElection. rewrite He.
  set (x0 := set_electing true x). unfold campaign. change (node_Role x0) with (node_Role x).
  change (n_closing x0) with (n_closing x). rewrite Hr, Hc. change (Follower =? Leader) with false. cbn [orb].
  rewrite (poll_stands now x0 y) by (done || apply Hsp).
  unfold adoptLeader. cbn [t_epoch]. destruct x. simpl in *. by rewrite He.
Qed.

Lemma adopt_stranded T now addr e x : stranded T x -> addr <> [] -> zlen addr <= 2 ^ 20 -> is_u64 e ->
  stranded T (adoptLeader now addr e x).
Proof.
  intros [Hr Hf [H1 H2 H3 H4 H5 H6] Hn Ht] Ha Hl He. split; [done|done| |done|done].
  split; [done| |done|done|done|done]. unfold Epoch, adoptLeader. cbn [n_mem set_mem m_epoch].
  by destruct (m_epoch (n_mem x) <? e).
Qed.

(** Each standing is at most [T] after the one before. *)
Fixpoint within (T prev : Z) (ts : list Z) : Prop :=
  match ts with
  | [] => True
  | t :: ts' => t - prev <= T /\ within T t ts'
  end.

(** A node that stands down because a peer still hears its leader counts this
    as contact with the leader.  Two followers of a dead leader that stand in
    turn, each no later than the timeout after the other, tell each other that
    the leader is alive for ever: nobody is elected. *)
Theorem nobody_is_elected T ts : forall a b, stranded T a -> stranded T b ->
  c_Addr (n_cfg b) ∈ peersExceptSelf a -> c_Addr (n_cfg a) ∈ peersExceptSelf b ->
  within T (m_lastContact (n_mem b)) ts ->
  node_Role (in_turn ts a b).1 = Follower /\ node_Role (in_turn ts a b).2 = Follower.
Proof.
  induction ts as [|t ts IH]; intros a b Ha Hb Hba Hab Hw; [by split; [apply Ha|apply Hb]|].
  destruct Hw as [Ht Hw]. cbn [in_turn].
  assert (Hal : alive_at t b = true).
  { unfold alive_at, sinceLastContact. rewrite (sr_timeout _ _ Hb). apply orb_true_iff. right. by apply Z.leb_le. }
  rewrite (stands_adopts T t a b Ha Hb Hal Hba).
  pose proof (sr_speaks _ _ Ha) as [_ Hea _ _ _ _]. pose proof (sr_speaks _ _ Hb) as [_ Heb _ _ _ Hlb].
  apply IH; [done| |done|done|done].
  apply adopt_stranded; [done|apply Hb|done|]. unfold is_u64 in *. lia.
Qed.

(** With a timeout of five seconds, standing every three seconds in turn is
    such a schedule, and every standing is due. *)
Example never_elected :
  let ts := (fun i => 3 * Z.of_nat i * Second) <$> seq 2 20 in
  node_Role (in_turn ts (new_node "n1") (setLastContact (3 * Second) (new_node "n2"))).1 = Follower /\
  node_Role (in_turn ts (new_node "n1") (setLastContact (3 * Second) (new_node "n2"))).2 = Follower /\
  5 * Second < sinceLastContact (6 * Second) (new_node "n1").
Proof. vm_compute. done. Qed.

(** ** Catching up beside a merge *)

Definition collect (raw : bytes) (l : list bytes) : result error unit * list bytes := (Ok tt, l ++ [raw]).
Definition two_keys : store index := (Put 6 (str "b") (str "vb") (Put 5 (str "a") (str "va") demo0).2).2.

(** The files to stream are listed once.  A merge that finishes in between
    removes them, the stream skips what is gone, and the merged file is not on
    the list: a follower at position 1 is sent nothing, and is told that it has
    caught up.  Alone, the stream has the record it lacks. *)
Example merged_away_unsent :
  length (RecordsSince collect (fun _ s => s) 1 [] two_keys).1.2 = 1%nat /\
  let out := RecordsSince collect (fun _ s => (Compact alone s).2) 1 [] two_keys in
  out.1 = (Ok tt, []) /\ (ScanSlice [] [] 0 out.2).1 = (Ok tt, [(str "a", str "va"); (str "b", str "vb")]).
Proof. vm_compute. done. Qed.

(** ** The client *)

(** A request whose answer is lost is sent again.  A delete that did its work
    is then answered with a miss: the key was there, nobody else deleted it,
    and the caller is told that it was not present. *)
Definition at_leader1 : client := mkClient [str "n3"] (mkClientOptions Second 4) (Some []) (str "n3") 0 false false.
Example delete_reports_a_miss :
  (client_Read (str "a") (at_leader1, cluster1)).1 = (str "va", Ok tt) /\
  let out := client_Delete (str "a") (at_leader1, cluster2) in
  out.1.2 = Err CKeyNotFound /\ (client_Read (str "a") out.2).1 = ([], Err CKeyNotFound).
Proof. vm_compute. done. Qed.
